(* ===== verification/_CoqProject ===== *)
-Q . S2P
Prelude.v
Types.v
Crypto.v
Hlc.v
HlcSpec.v
Sig.v
SigSpec.v
Crdt.v
CrdtLemmas.v
CrdtInv.v
CrdtReads.v
CrdtSpec.v
Replica.v
ReplicaSpec.v
SubGate.v
SubGateSpec.v
Gate.v
GateSpec.v
Peer.v
PeerSpec.v
Codec.v
Engine.v
Merkle.v
EngineLemmas.v
EngineBounds.v
Push.v
Outbound.v
Node.v
Samples.v
EngineSpec.v
SyncLemmas.v
MerkleSpec.v
NodeLemmas.v
PublishSpec.v
NodeOutbound.v
Network.v
NodeSpec.v
NetworkSpec.v
Durable.v
Reports.v
Watch.v
Registry.v
Hooks.v
Alias.v
Topics.v
TopicsSpec.v
Content.v
ContentSpec.v
Discovery.v
Rpc.v
RpcSpec.v
Sim.v
SimHeap.v
SimLemmas.v
StubNode.v
SimSamples.v
SimSpec.v
FloodSpec.v
SwarmNode.v
SwarmSim.v

