(* ===== verification/Prelude.v ===== *)
(** * Verification of the swarm library

    A Go library for a gossip mesh: nodes publish signed records on topics, spread them over a
    Plumtree overlay (eager pushes on tree edges, lazy announcements elsewhere), repair drift
    by Merkle anti-entropy, store them in a delta-CRDT, and fetch content by hash from holders
    that advertise it. A discrete-time simulator runs nodes against each other.

    ** How the parts fit

    A frame from the transport enters [Node.OnReceive] (src/node.go), which hands it to
    [Merkle.ReceiveFrame] (src/plumtrees.go, dispatch). A record in it is decoded ([Codec],
    src/codec.go), its signature verified ([Sig], src/sig.go), checked by the inbound gate
    ([Gate], src/harden.go), observed by the hybrid clock ([Hlc], src/hlc.go) and merged by the
    store ([Crdt], src/crdt.go); then it is forwarded along the edges of the peer table ([Peer],
    src/peer.go) and reported to subscribers ([SubGate], src/node.go). Handlers are state
    transformers on the record [engine] that also return the list of their effects: frames for
    the transport, reported records, content requests.

    ** Files

    Data and tools:
    - Prelude: automation, 64-bit integers, bytes, map order, sorting;
    - Types: records, slots, errors, constants (src/swarm.go, src/errors.go, src/harden.go);
    - Crypto: SHA-256 (an executable definition), Ed25519 as a class with its laws, and toy
      instances of both for examples;
    - Samples, SimSamples: small concrete nodes, frames and meshes.

    Components, each with the files that state and prove its properties:
    - Hlc, HlcSpec: [HLC.Now], [HLC.Observe]; module [Cas] is their compare-and-swap loops as
      interleaved steps;
    - Sig, SigSpec: canonical bytes, NodeID encoding, signing, [VerifyRecord];
    - Crdt, CrdtLemmas, CrdtInv, CrdtReads, CrdtSpec: [ApplyExt] with its owner path and its
      attestation path, the reads, [reapExpired]; Replica, ReplicaSpec: the semilattice the
      store is an instance of, with its reference merge;
    - Gate, GateSpec: [inboundGate.Admit];
    - Peer, PeerSpec: tree edges, the lazy queue, the token bucket;
    - Codec: conversions to and from protobuf, whose encoding is the class [Proto];
    - Engine, Merkle: [plumtreesEngine], [merkleEngine] (src/plumtrees.go, src/merkle.go);
      EngineLemmas, EngineBounds, Outbound: what handlers keep, bound and send; Push: exactly
      what an eager and a lazy push do to the peers and send, promotion included; EngineSpec;
      SyncLemmas and MerkleSpec: reconciliation;
    - Node: [New], [Wire], the lifecycle, publication, tenants, callbacks, tick loop;
      NodeLemmas, NodeOutbound: runs of a node; PublishSpec, NodeSpec;
    - SubGate, SubGateSpec: [Subscribe] and its replay gate, as interleaved steps;
    - Watch: [SetRole], [SetTenant] and their watchers, as interleaved steps; Registry: the
      subscribers by topic and handle; Hooks: a node with all that the application registers
      with it, its getters and the raw view of src/testing.go; Reports: what a node reports of
      the changes of its store; Alias: the byte slices behind the records, as references;
    - Network, NetworkSpec: any number of nodes over a network an adversary controls; Durable:
      stores along the runs of a network;
    - Topics, TopicsSpec: src/topics.go;
    - Content, ContentSpec: src/content_impl.go and src/manifest.go, sequentially, against
      peers that answer anything; Rpc, RpcSpec: the correlation of responses with requests, as
      interleaved steps; Discovery: a node together with its content layer ([site]), as [Wire]
      puts them;
    - Sim, SimHeap, SimLemmas, SimSpec: src/sim/sim.go; StubNode, FloodSpec:
      src/sim/stub_node.go; SwarmNode, SwarmSim: src/sim/swarm_node.go, around a [site].

    Definitions keep the names of the Go functions; where a name would clash the component is
    prefixed (plumPublish, nodeTick, swarmStep, stubReceive).

    ** What is shown

    - Safety against peers: a store holds only what was signed or what a quorum of observers
      backs (CrdtSpec, NodeSpec), a node sends only what its peers can verify (NodeSpec), and
      in a network of such nodes no adversary without their keys can make one hold a record of
      another that it did not publish (NetworkSpec), nor forget or roll back what it holds
      (Durable). [Admit], [VerifyRecord] and the canonical bytes carry this (GateSpec, SigSpec).
    - Convergence: replicas that get the same records agree (CrdtSpec), since delivering is
      joining in a semilattice (ReplicaSpec), a missed push is
      repaired by a graft (EngineSpec), a pull over Merkle frames transfers everything
      (MerkleSpec), a subscriber is told of everything (SubGateSpec).
    - The application's side: no change of the store goes unreported (Reports), every report
      reaches the subscriptions in force once each (Hooks), every watcher hears of every change
      of role or tenant once (Watch), and what the application writes to its slices reaches
      the store only through a slice that its TrustCheck or role check was shown (Alias).
    - Functional behaviour on every branch: [ApplyExt], [handleEager], [Admit],
      [PublishKeyed] (with the peers promoted, the frames pushed and the announcements sent),
      the reads and [reapExpired].
    - Bounds: slots under the caps, tree edges, pending announcements, queue windows, the token
      bucket, tested at the width of the machine integers.
    - Clocks: the lock-free implementation is linearizable: the calls that returned, with their
      arguments and results, are a sequential run that respects real time.
    - Content: a blob is fetched whole, in order and unaltered or the fetch fails; it succeeds
      when every piece has one honest holder; a response reaches its own request, or arrives
      late, after the channel of its request was drained and reused (Rpc); what is announced is
      found by the peers the advert reaches, and served (Discovery).
    - The simulator: its heap refines a bag, a step delivers what is due and nothing else, a
      run terminates, flooding brings the record published to everyone in bounded time, and a
      mesh of real nodes, however their nodes and content layers are called, is a run of the
      network model.

    ** Bounds and fuel

    Loops over data are structural. The loops of [ChunkBlob], [splitPoint], the heap and
    [deliverDue] take the length of their list as fuel, which each iteration uses up by one
    element or position; [uint64ToDec] has room for the 20 digits of a 64-bit number, and
    [uint64ToDec_checked] shows the buffer is never exceeded; a pull needs as many exchanges as
    the peer has records, plus one. Theorems state the results with this fuel, never only in
    case it suffices. Integers wrap at their width ([u64], [i64]); where a property needs a
    product or a time not to wrap, this is a hypothesis.

    ** Parameters

    Ed25519 and protobuf (classes with the laws the code relies on), JSON in the flooding node,
    the random source of the simulator, the order in which Go iterates over a map ([MapOrder]:
    any permutation), the wall clock, callbacks of the application. Each law has an instance.

    ** Not modelled

    The generated protobuf code; the transport interface; references to slices outside Alias,
    which justifies taking them as values as long as [TrustCheck] and the observer role check
    do not write to the slices they are given; mutexes, except where the interleaving is the
    subject (Cas, SubGate, Rpc, Watch, Registry); what the callbacks of the application do,
    calls back into the node included; in the simulator, the node calls that Network.v has no
    action for (the setters of quorum and role check) and nodes added to a running mesh; memory
    use; the parts of Config that the code stores and does not read.

    ** Plan

    The interleaving of the tick loop with frame handlers; the delivery of adverts by
    concurrent goroutines; convergence of a mesh of real nodes within a bounded number of
    simulator steps. *)
From Stdlib Require Export ZArith Lia List Strings.Byte.
From stdpp Require Export base gmap strings list sorting.
#[global] Open Scope Z_scope.

(** ** Automation *)

Create HintDb swarm.

(** Case analysis on every [match] and [if] of the goal, closing the easy leaves. *)
Ltac split_matches :=
  repeat (case_match; simplify_eq/=; try done).

(** Rewrites with the hypothesis that evaluates the head test of the goal. *)
Ltac use_tests :=
  repeat match goal with
  | H : ?b = true |- context [if ?b then _ else _] => rewrite H
  | H : ?b = false |- context [if ?b then _ else _] => rewrite H
  end.

(** Turns boolean comparisons on [Z] and [bool] connectives into propositions. *)
Ltac bool_to_prop :=
  repeat match goal with
  | H : (_ && _)%bool = true |- _ => apply andb_true_iff in H as [? ?]
  | H : (_ && _)%bool = false |- _ => apply andb_false_iff in H
  | H : (_ || _)%bool = true |- _ => apply orb_true_iff in H
  | H : (_ || _)%bool = false |- _ => apply orb_false_iff in H as [? ?]
  | H : negb _ = true |- _ => apply negb_true_iff in H
  | H : negb _ = false |- _ => apply negb_false_iff in H
  | H : (_ <? _) = true |- _ => apply Z.ltb_lt in H
  | H : (_ <? _) = false |- _ => apply Z.ltb_ge in H
  | H : (_ <=? _) = true |- _ => apply Z.leb_le in H
  | H : (_ <=? _) = false |- _ => apply Z.leb_gt in H
  | H : (_ =? _) = true |- _ => apply Z.eqb_eq in H
  | H : (_ =? _) = false |- _ => apply Z.eqb_neq in H
  | H : String.eqb _ _ = true |- _ => apply String.eqb_eq in H
  | H : String.eqb _ _ = false |- _ => apply String.eqb_neq in H
  | H : bool_decide _ = true |- _ => apply bool_decide_eq_true in H
  | H : bool_decide _ = false |- _ => apply bool_decide_eq_false in H
  end.

(** Case analysis on the outermost test of the left-hand side. *)
Ltac branch :=
  match goal with |- (if ?b then _ else _) = _ => destruct b end.

(** Evaluates a closed side condition. *)
Ltac machine := vm_compute; first [done | split; congruence | congruence].

(** ** Machine integers: values are [Z]; the wrap of an operation is written out. *)

Definition u16 (x : Z) : Z := x mod 2 ^ 16.
Definition u32 (x : Z) : Z := x mod 2 ^ 32.
Definition u64 (x : Z) : Z := x mod 2 ^ 64.
Definition i64 (x : Z) : Z := (x + 2 ^ 63) mod 2 ^ 64 - 2 ^ 63.

Definition is_u64 (x : Z) : Prop := 0 <= x < 2 ^ 64.
Definition is_i64 (x : Z) : Prop := - 2 ^ 63 <= x < 2 ^ 63.

Lemma u64_range x : is_u64 (u64 x).
Proof. unfold u64, is_u64. apply Z.mod_pos_bound. lia. Qed.

Lemma u64_small x : is_u64 x -> u64 x = x.
Proof. unfold u64, is_u64. apply Z.mod_small. Qed.

Lemma i64_range x : is_i64 (i64 x).
Proof.
  unfold i64, is_i64. pose proof (Z.mod_pos_bound (x + 2 ^ 63) (2 ^ 64) ltac:(lia)). lia.
Qed.

Lemma i64_small x : is_i64 x -> i64 x = x.
Proof. unfold i64, is_i64. intros. rewrite Z.mod_small; lia. Qed.

Lemma u64_i64 x : u64 (i64 x) = u64 x.
Proof.
  unfold u64, i64. rewrite Zminus_mod_idemp_l. f_equal. lia.
Qed.

Lemma i64_u64 x : is_i64 x -> i64 (u64 x) = x.
Proof.
  unfold u64, i64, is_i64. intros.
  rewrite Zplus_mod_idemp_l, Z.mod_small; lia.
Qed.

#[export] Hint Resolve u64_range i64_range : swarm.

(** Go's [time.Duration] counts nanoseconds; [Milliseconds] truncates toward zero. *)
Definition Milliseconds (d : Z) : Z := Z.quot d 1000000.

(** ** Bytes *)

#[export] Instance byte_eq_dec : EqDecision byte := Byte.byte_eq_dec.

#[export] Instance byte_countable : Countable byte.
Proof.
  apply (inj_countable Byte.to_N Byte.of_N). exact Byte.of_to_N.
Defined.

Definition byteZ (b : byte) : Z := Z.of_N (Byte.to_N b).

(** Go's conversion [byte(x)]: the low eight bits. *)
Definition byteOfZ (x : Z) : byte :=
  default Byte.x00 (Byte.of_N (Z.to_N (x mod 256))).

Lemma byteZ_range b : 0 <= byteZ b < 256.
Proof. unfold byteZ. pose proof (Byte.to_N_bounded b). lia. Qed.

Lemma byteZ_of x : byteZ (byteOfZ x) = x mod 256.
Proof.
  unfold byteZ, byteOfZ. pose proof (Z.mod_pos_bound x 256 ltac:(lia)) as Hb.
  destruct (Byte.of_N (Z.to_N (x mod 256))) as [b|] eqn:E; simpl.
  - apply Byte.to_of_N in E. rewrite E. lia.
  - apply Byte.of_N_None_iff in E. lia.
Qed.

Lemma byteZ_inj b1 b2 : byteZ b1 = byteZ b2 -> b1 = b2.
Proof.
  unfold byteZ. intros H%N2Z.inj.
  pose proof (Byte.of_to_N b1) as E1. pose proof (Byte.of_to_N b2) as E2.
  rewrite H in E1. congruence.
Qed.

Lemma byteOfZ_byteZ b : byteOfZ (byteZ b) = b.
Proof.
  apply byteZ_inj. rewrite byteZ_of. apply Z.mod_small, byteZ_range.
Qed.

#[export] Hint Resolve byteZ_range byteZ_inj : swarm.

(** Big-endian encoding on [n] bytes, as [binary.BigEndian.PutUintXX] writes it. *)
Fixpoint be_put (n : nat) (x : Z) : list byte :=
  match n with
  | O => []
  | S n' => byteOfZ (Z.shiftr x (8 * Z.of_nat n')) :: be_put n' x
  end.

Fixpoint be_get (l : list byte) : Z :=
  match l with
  | [] => 0
  | b :: l' => byteZ b * 2 ^ (8 * Z.of_nat (length l')) + be_get l'
  end.

Lemma length_be_put n x : length (be_put n x) = n.
Proof. induction n; simpl; auto. Qed.

Lemma be_get_put n x : be_get (be_put n x) = x mod 2 ^ (8 * Z.of_nat n).
Proof.
  induction n as [|n IH]; simpl be_put; simpl be_get.
  - rewrite Z.mod_1_r. done.
  - rewrite IH, length_be_put, byteZ_of, Z.shiftr_div_pow2 by lia.
    replace (8 * Z.of_nat (S n)) with (8 * Z.of_nat n + 8) by lia.
    rewrite Z.pow_add_r by lia.
    rewrite (Z.rem_mul_r x) by (try apply Z.pow_pos_nonneg; lia).
    change (2 ^ 8) with 256. lia.
Qed.

Lemma be_put_inj n x y :
  0 <= x < 2 ^ (8 * Z.of_nat n) -> 0 <= y < 2 ^ (8 * Z.of_nat n) ->
  be_put n x = be_put n y -> x = y.
Proof.
  intros Hx Hy E%(f_equal be_get). rewrite !be_get_put in E.
  rewrite !Z.mod_small in E; done.
Qed.

#[global] Opaque be_put be_get.

(** Go strings are byte strings; [string] is the model, with its bytes as a list. *)
Abbreviation bytes := (list byte).
Definition toBytes (s : string) : bytes := String.list_byte_of_string s.
Definition ofBytes (l : bytes) : string := String.string_of_list_byte l.

Lemma ofBytes_toBytes s : ofBytes (toBytes s) = s.
Proof. apply String.string_of_list_byte_of_string. Qed.
Lemma toBytes_ofBytes l : toBytes (ofBytes l) = l.
Proof. apply String.list_byte_of_string_of_list_byte. Qed.
Lemma toBytes_inj s1 s2 : toBytes s1 = toBytes s2 -> s1 = s2.
Proof. intros H%(f_equal ofBytes). by rewrite !ofBytes_toBytes in H. Qed.

Lemma length_toBytes s : length (toBytes s) = String.length s.
Proof.
  unfold toBytes, String.list_byte_of_string. rewrite length_map.
  induction s; simpl; congruence.
Qed.

(** The length Go's [len] reports, as an [int]. *)
Definition len {A} (l : list A) : Z := Z.of_nat (length l).
Definition slen (s : string) : Z := Z.of_nat (String.length s).

(** ** Byte-wise lexicographic order

    [lex_loop i n a b] is the body of the loop
    [for i := 0; i < min; i++ { if a[i] != b[i] { return a[i] < b[i] } }] from index
    [i] with [n] iterations left: [Some r] when it returns [r], [None] when it falls
    through. *)
Fixpoint lex_loop (i n : nat) (a b : bytes) : option bool :=
  match n with
  | O => None
  | S n' =>
      let x := nth i a Byte.x00 in
      let y := nth i b Byte.x00 in
      if negb (byteZ x =? byteZ y) then Some (byteZ x <? byteZ y)
      else lex_loop (S i) n' a b
  end.

(** The loop followed by the comparison of lengths. *)
Definition lex_less (a b : bytes) : bool :=
  match lex_loop 0 (Nat.min (length a) (length b)) a b with
  | Some r => r
  | None => len a <? len b
  end.

(** The structural form of the same order, on which the proofs work. *)
Fixpoint blt (a b : bytes) : bool :=
  match a, b with
  | _, [] => false
  | [], _ :: _ => true
  | x :: a', y :: b' =>
      (byteZ x <? byteZ y) || ((byteZ x =? byteZ y) && blt a' b')
  end.

Lemma lex_loop_shift x y a b i n :
  lex_loop (S i) n (x :: a) (y :: b) = lex_loop i n a b.
Proof. revert i. induction n; intros i; simpl; [done|]. by rewrite IHn. Qed.

Lemma lex_less_blt a b : lex_less a b = blt a b.
Proof.
  unfold lex_less. revert b.
  induction a as [|x a IH]; intros [|y b]; simpl; try done.
  rewrite lex_loop_shift, <- IH.
  destruct (byteZ x =? byteZ y) eqn:E; bool_to_prop; simpl.
  - rewrite E, Z.ltb_irrefl. simpl.
    destruct (lex_loop _ _ _ _); [done|]. unfold len. simpl.
    apply eq_true_iff_eq. rewrite !Z.ltb_lt. lia.
  - by destruct (byteZ x <? byteZ y).
Qed.

Lemma blt_irrefl a : blt a a = false.
Proof. induction a; simpl; [done|]. by rewrite Z.ltb_irrefl, Z.eqb_refl, IHa. Qed.

Lemma blt_trans a b c : blt a b = true -> blt b c = true -> blt a c = true.
Proof.
  revert b c. induction a as [|x a IH]; intros [|y b] [|z c]; simpl; try done.
  rewrite !orb_true_iff, !andb_true_iff, !Z.ltb_lt, !Z.eqb_eq.
  intros [?|[? ?]] [?|[? ?]]; [left; lia|left; lia|left; lia|].
  right. split; [lia|eauto].
Qed.

Lemma blt_trichotomy a b : blt a b = true \/ a = b \/ blt b a = true.
Proof.
  revert b. induction a as [|x a IH]; intros [|y b]; simpl; auto.
  rewrite !orb_true_iff, !andb_true_iff, !Z.ltb_lt, !Z.eqb_eq.
  destruct (Z.lt_trichotomy (byteZ x) (byteZ y)) as [?|[E%byteZ_inj|?]]; auto.
  subst. destruct (IH b) as [?|[->|?]]; auto.
Qed.

Lemma blt_asym a b : blt a b = true -> blt b a = false.
Proof.
  intros H. destruct (blt b a) eqn:E; [|done].
  pose proof (blt_trans _ _ _ H E). by rewrite blt_irrefl in *.
Qed.

Lemma blt_app_r a l : l <> [] -> blt a (a ++ l) = true.
Proof.
  intros Hl. induction a as [|x a IH]; simpl.
  - by destruct l.
  - by rewrite Z.eqb_refl, IH, orb_true_r.
Qed.

(** Go's [<] on strings is the same order on their bytes. *)
Lemma blt_toBytes s1 s2 : blt (toBytes s1) (toBytes s2) = String.ltb s1 s2.
Proof.
  unfold String.ltb. revert s2.
  induction s1 as [|c1 s1 IH]; intros [|c2 s2]; simpl; try done.
  unfold Ascii.compare.
  change (map Ascii.byte_of_ascii (String.list_ascii_of_string s1)) with (toBytes s1).
  change (map Ascii.byte_of_ascii (String.list_ascii_of_string s2)) with (toBytes s2).
  assert (Hb : forall c, byteZ (Ascii.byte_of_ascii c) = Z.of_N (Ascii.N_of_ascii c)).
  { intros c. unfold byteZ. f_equal.
    apply Byte.to_of_N. symmetry. apply Ascii.byte_of_ascii_via_N. }
  rewrite !Hb, IH.
  destruct (N.compare_spec (Ascii.N_of_ascii c1) (Ascii.N_of_ascii c2)) as [E|E|E].
  - by rewrite E, Z.ltb_irrefl, Z.eqb_refl.
  - rewrite (proj2 (Z.ltb_lt _ _)) by lia. done.
  - rewrite (proj2 (Z.ltb_ge _ _)), (proj2 (Z.eqb_neq _ _)) by lia. done.
Qed.

Lemma sltb_irrefl s : String.ltb s s = false.
Proof. rewrite <- blt_toBytes. apply blt_irrefl. Qed.
Lemma sltb_trans s1 s2 s3 :
  String.ltb s1 s2 = true -> String.ltb s2 s3 = true -> String.ltb s1 s3 = true.
Proof. rewrite <- !blt_toBytes. apply blt_trans. Qed.
Lemma sltb_trichotomy s1 s2 :
  String.ltb s1 s2 = true \/ s1 = s2 \/ String.ltb s2 s1 = true.
Proof.
  rewrite <- !blt_toBytes.
  destruct (blt_trichotomy (toBytes s1) (toBytes s2)) as [?|[?%toBytes_inj|?]]; auto.
Qed.
Lemma sltb_asym s1 s2 : String.ltb s1 s2 = true -> String.ltb s2 s1 = false.
Proof. rewrite <- !blt_toBytes. apply blt_asym. Qed.

(** ** Map iteration

    The order in which Go ranges over a map is unspecified. A definition that ranges
    over one takes the enumeration as a parameter; its only law is that it enumerates
    the entries of the map, each once. A theorem about such a definition therefore
    holds for every order. *)
Class MapOrder := {
  map_order : forall {K A} `{Countable K}, gmap K A -> list (K * A);
  map_order_perm : forall {K A} `{Countable K} (m : gmap K A),
    map_order m ≡ₚ map_to_list m
}.

(** The order of stdpp's own enumeration: the one the examples evaluate with. *)
Definition std_order : MapOrder :=
  {| map_order := fun K A _ _ m => map_to_list m;
     map_order_perm := fun K A _ _ m => Permutation_refl _ |}.

(** The opposite order, to show that a result does not depend on it. *)
Definition rev_order : MapOrder :=
  {| map_order := fun K A _ _ m => reverse (map_to_list m);
     map_order_perm := fun K A _ _ m => reverse_Permutation _ |}.

Lemma elem_of_map_order `{MapOrder} `{Countable K} {A} (m : gmap K A) k x :
  (k, x) ∈ map_order m <-> m !! k = Some x.
Proof. rewrite map_order_perm. apply elem_of_map_to_list. Qed.

Lemma NoDup_map_order_fst `{MapOrder} `{Countable K} {A} (m : gmap K A) :
  NoDup (map_order m).*1.
Proof. rewrite map_order_perm. apply NoDup_fst_map_to_list. Qed.

Lemma length_map_order `{MapOrder} `{Countable K} {A} (m : gmap K A) :
  length (map_order m) = size m.
Proof. rewrite map_order_perm. apply length_map_to_list. Qed.

(** Go's [len(m)] of a map. *)
Definition mlen {K A} `{Countable K} (m : gmap K A) : Z := Z.of_nat (size m).

Section mlen.
Context {K A : Type} `{Countable K}.
Implicit Types (m : gmap K A).

Lemma mlen_zero m : mlen m = 0 <-> m = ∅.
Proof. unfold mlen. rewrite <- map_size_empty_iff. lia. Qed.

Lemma mlen_nonneg m : 0 <= mlen m.
Proof. unfold mlen. lia. Qed.

Lemma mlen_insert m k x :
  mlen (<[k := x]> m) = match m !! k with Some _ => mlen m | None => mlen m + 1 end.
Proof.
  unfold mlen. rewrite map_size_insert. destruct (m !! k); simpl; lia.
Qed.

Lemma mlen_delete_le m k : mlen (delete k m) <= mlen m.
Proof. unfold mlen. rewrite map_size_delete. destruct (m !! k); simpl; lia. Qed.

Lemma mlen_subseteq m1 m2 : m1 ⊆ m2 -> mlen m1 <= mlen m2.
Proof. unfold mlen. intros Hs%map_subseteq_size. lia. Qed.

Lemma mlen_filter_le (P : K * A -> Prop) `{forall x, Decision (P x)} m :
  mlen (filter P m) <= mlen m.
Proof. apply mlen_subseteq, map_filter_subseteq. Qed.
End mlen.

#[export] Hint Resolve mlen_nonneg : swarm.

(** ** Sorting

    [sort.Slice] by a strict order [lt] on a key of the elements. On distinct keys every
    correct sort has the same result; [sort_by] computes it. *)

(** Two strictly increasing lists with the same elements are equal. *)
Lemma strict_sorted_unique {A} (lt : A -> A -> bool) :
  (forall x, lt x x = false) ->
  (forall x y z, lt x y = true -> lt y z = true -> lt x z = true) ->
  forall l1 l2,
  StronglySorted (fun x y => lt x y = true) l1 ->
  StronglySorted (fun x y => lt x y = true) l2 ->
  (forall x, x ∈ l1 <-> x ∈ l2) -> l1 = l2.
Proof.
  intros Hirr Htr l1. induction l1 as [|x l1 IH]; intros [|y l2] H1 H2 Hin.
  - done.
  - destruct (not_elem_of_nil y). apply Hin. left.
  - destruct (not_elem_of_nil x). apply Hin. left.
  - apply StronglySorted_inv in H1 as [H1 F1]. apply StronglySorted_inv in H2 as [H2 F2].
    rewrite Forall_forall in F1, F2.
    assert (x = y) as ->.
    { assert (x ∈ y :: l2) as [|Hx]%elem_of_cons by (apply Hin; left); [done|].
      assert (y ∈ x :: l1) as [|Hy]%elem_of_cons by (apply Hin; left); [done|].
      pose proof (Htr _ _ _ (F1 _ Hy) (F2 _ Hx)) as E. by rewrite Hirr in E. }
    f_equal. apply IH; [done..|]. intros z. specialize (Hin z).
    rewrite !elem_of_cons in Hin. split; intros Hz.
    + destruct (proj1 Hin ltac:(auto)) as [->|]; [|done].
      specialize (F1 _ Hz). by rewrite Hirr in F1.
    + destruct (proj2 Hin ltac:(auto)) as [->|]; [|done].
      specialize (F2 _ Hz). by rewrite Hirr in F2.
Qed.

Section sort_by.
Context {A K : Type} (key : A -> K) (lt : K -> K -> bool).
Hypothesis lt_irrefl : forall x, lt x x = false.
Hypothesis lt_trans : forall x y z, lt x y = true -> lt y z = true -> lt x z = true.
Hypothesis lt_tri : forall x y, lt x y = true \/ x = y \/ lt y x = true.

Definition not_gt (x y : A) : Prop := lt (key y) (key x) = false.
#[local] Instance not_gt_dec x y : Decision (not_gt x y).
Proof. unfold not_gt. apply _. Defined.

Definition sort_by (l : list A) : list A := merge_sort not_gt l.

Lemma sort_by_perm l : sort_by l ≡ₚ l.
Proof. apply merge_sort_Permutation. Qed.

#[local] Instance not_gt_total : Total not_gt.
Proof.
  intros x y. unfold not_gt. destruct (lt (key y) (key x)) eqn:E; [|auto]. right.
  destruct (lt (key x) (key y)) eqn:E'; [|done].
  pose proof (lt_trans _ _ _ E E') as H. by rewrite lt_irrefl in H.
Qed.
#[local] Instance not_gt_trans : Transitive not_gt.
Proof.
  intros x y z. unfold not_gt. intros H1 H2.
  destruct (lt (key z) (key x)) eqn:E; [|done].
  destruct (lt_tri (key x) (key y)) as [E'|[E'|E']]; [|congruence|congruence].
  pose proof (lt_trans _ _ _ E E'). congruence.
Qed.

Lemma sort_by_sorted l : StronglySorted not_gt (sort_by l).
Proof. apply StronglySorted_merge_sort; apply _. Qed.

Lemma elem_of_sort_by x l : x ∈ sort_by l <-> x ∈ l.
Proof. by rewrite sort_by_perm. Qed.

(** On distinct keys the result is strictly increasing. *)
Lemma sort_by_strict l :
  NoDup (key <$> l) ->
  StronglySorted (fun x y => lt (key x) (key y) = true) (sort_by l).
Proof.
  intros Hnd. pose proof (sort_by_sorted l) as Hs.
  rewrite <- (sort_by_perm l) in Hnd.
  induction Hs as [|x l' Hs IH Hall]; [constructor|].
  apply NoDup_cons in Hnd as [Hnin Hnd]. constructor; [auto|].
  rewrite Forall_forall in Hall |- *. intros y Hy. specialize (Hall y Hy).
  destruct (lt_tri (key x) (key y)) as [?|[E|E]]; [done| |unfold not_gt in Hall; congruence].
  exfalso. apply Hnin. rewrite E. by apply list_elem_of_fmap_2.
Qed.

(** The result does not depend on the order of the input. *)
Lemma sort_by_unique l1 l2 :
  l1 ≡ₚ l2 -> NoDup (key <$> l1) -> sort_by l1 = sort_by l2.
Proof.
  intros Hp Hnd. assert (Hnd2 : NoDup (key <$> l2)) by by rewrite <- Hp.
  apply (strict_sorted_unique (fun x y => lt (key x) (key y))); eauto using sort_by_strict.
  intros x. by rewrite !sort_by_perm, Hp.
Qed.
End sort_by.

(** ** Maxima computed by a range loop

    [for _, a := range l { if f(a) > m { m = f(a) } }] starting from [m]. *)
Section loop_max.
Context {A : Type} (f : A -> Z).

Definition loop_max (m : Z) (l : list A) : Z :=
  foldl (fun m a => if f a >? m then f a else m) m l.

Lemma loop_max_ge m l : m <= loop_max m l /\ forall a, a ∈ l -> f a <= loop_max m l.
Proof.
  revert m. induction l as [|a l IH]; intros m; cbn [loop_max foldl].
  - split; [unfold loop_max; simpl; lia|]. by intros a ?%not_elem_of_nil.
  - destruct (IH (if f a >? m then f a else m)) as [H1 H2]. unfold loop_max in *. simpl.
    split; [case_match; lia|]. intros x [->|Hx]%elem_of_cons; [case_match; lia|auto].
Qed.

Lemma loop_max_attained m l :
  loop_max m l = m \/ exists a, a ∈ l /\ loop_max m l = f a.
Proof.
  revert m. induction l as [|a l IH]; intros m; [by left|].
  unfold loop_max in *. simpl.
  destruct (IH (if f a >? m then f a else m)) as [H|(x & Hx & H)].
  - rewrite H. case_match; [right; exists a; split; [by left|done]|by left].
  - right. exists x. split; [by right|done].
Qed.

Lemma loop_max_unique m l v :
  m <= v -> (forall a, a ∈ l -> f a <= v) -> (v = m \/ exists a, a ∈ l /\ v = f a) ->
  loop_max m l = v.
Proof.
  intros Hm Hl Hv. destruct (loop_max_ge m l) as [H1 H2].
  destruct (loop_max_attained m l) as [H|(x & Hx & H)].
  - destruct Hv as [->|(a & Ha & ->)]; [done|]. specialize (H2 a Ha). lia.
  - specialize (Hl x Hx). destruct Hv as [->|(a & Ha & ->)]; [lia|].
    specialize (H2 a Ha). lia.
Qed.

Lemma loop_max_perm m l1 l2 : l1 ≡ₚ l2 -> loop_max m l1 = loop_max m l2.
Proof.
  intros Hp. destruct (loop_max_ge m l2) as [H1 H2]. apply loop_max_unique; [done| |].
  - intros a. rewrite Hp. apply H2.
  - destruct (loop_max_attained m l2) as [?|(a & Ha & ?)]; [by left|].
    right. exists a. by rewrite Hp.
Qed.
End loop_max.

(** A filter keeps images distinct. *)
Lemma NoDup_fmap_filter {A B} (g : A -> B) (f : A -> bool) l :
  NoDup (g <$> l) -> NoDup (g <$> List.filter f l).
Proof.
  intros Hnd. apply (sublist_NoDup _ _ Hnd). induction l as [|x l IH]; simpl; [done|].
  apply NoDup_cons in Hnd as [_ Hnd]. destruct (f x); constructor; auto.
Qed.

(** Splitting a list by a test keeps all of it. *)
Lemma filter_complement {A} (P : A -> Prop) `{forall x, Decision (P x)} (l : list A) :
  l ≡ₚ filter P l ++ filter (fun x => ~ P x) l.
Proof.
  induction l as [|x l IH]; [done|]. rewrite !filter_cons. destruct (decide (P x)).
  - rewrite decide_False by tauto. cbn [app]. by f_equiv.
  - rewrite decide_True by done. rewrite <- Permutation_middle. by f_equiv.
Qed.
