(* ===== verification/Types.v ===== *)
(** * Data of the engine

    The signed [Record] envelope and its slot key (src/swarm.go, src/crdt.go), the
    error values (src/errors.go, src/harden.go), the constants of the observer gate,
    and the configuration record. A Go [string] is [string], a [[]byte] is [bytes], a
    [time.Duration] is its number of nanoseconds, a 64-bit integer is a [Z]. *)
From S2P Require Import Prelude.

Abbreviation NodeID := string.
Abbreviation Topic := string.

(** [type Record struct]. *)
Record Record_ := mkRecord {
  r_Topic : Topic;
  r_NodeID : NodeID;
  r_HLC : Z;
  r_Body : bytes;
  r_Tombstone : bool;
  r_PubKey : bytes;
  r_Sig : bytes;
  r_Key : string;
  r_ObserverNodeID : NodeID;
  r_ObservedAtUnixMs : Z
}.

#[export] Instance Record_eq_dec : EqDecision Record_.
Proof. solve_decision. Defined.

(** The machine ranges of the integer fields. *)
Definition record_in_range (r : Record_) : Prop :=
  is_u64 (r_HLC r) /\ is_i64 (r_ObservedAtUnixMs r).

(** [func (r Record) IsObserverAttestation() bool]. *)
Definition IsObserverAttestation (r : Record_) : bool :=
  r_Tombstone r && negb (String.eqb (r_ObserverNodeID r) "").

(** [type recordKey struct]: one slot within a topic. *)
Record recordKey := mkKey { k_NodeID : NodeID; k_Key : string }.

#[export] Instance recordKey_eq_dec : EqDecision recordKey.
Proof. solve_decision. Defined.

#[export] Instance recordKey_countable : Countable recordKey.
Proof.
  apply (inj_countable' (fun k => (k_NodeID k, k_Key k)) (fun p => mkKey p.1 p.2)).
  by intros [].
Defined.

(** [func keyOf(r Record) recordKey]. *)
Definition keyOf (r : Record_) : recordKey := mkKey (r_NodeID r) (r_Key r).

(** [func lessRecordKey(a, b recordKey) bool]. *)
Definition lessRecordKey (a b : recordKey) : bool :=
  if negb (String.eqb (k_NodeID a) (k_NodeID b))
  then String.ltb (k_NodeID a) (k_NodeID b)
  else String.ltb (k_Key a) (k_Key b).

Lemma lessRecordKey_irrefl k : lessRecordKey k k = false.
Proof. unfold lessRecordKey. rewrite String.eqb_refl. apply sltb_irrefl. Qed.

Lemma lessRecordKey_trans a b c :
  lessRecordKey a b = true -> lessRecordKey b c = true -> lessRecordKey a c = true.
Proof.
  destruct a as [na ka], b as [nb kb], c as [nc kc]. unfold lessRecordKey. simpl.
  destruct (String.eqb_spec na nb) as [->|Hab],
    (String.eqb_spec nb nc) as [->|Hbc]; simpl; intros H1 H2.
  - eauto using sltb_trans.
  - done.
  - by rewrite (proj2 (String.eqb_neq _ _) Hab).
  - pose proof (sltb_trans _ _ _ H1 H2) as H3.
    destruct (String.eqb_spec na nc) as [->|_]; [|done].
    by rewrite sltb_irrefl in H3.
Qed.

Lemma lessRecordKey_trichotomy a b :
  lessRecordKey a b = true \/ a = b \/ lessRecordKey b a = true.
Proof.
  destruct a as [na ka], b as [nb kb]. unfold lessRecordKey. simpl.
  destruct (String.eqb_spec na nb) as [->|Hab]; simpl.
  - rewrite String.eqb_refl. simpl.
    destruct (sltb_trichotomy ka kb) as [?|[->|?]]; auto.
  - rewrite (proj2 (String.eqb_neq _ _) (not_eq_sym Hab)). simpl.
    destruct (sltb_trichotomy na nb) as [?|[?|?]]; auto.
Qed.

#[export] Hint Resolve lessRecordKey_irrefl lessRecordKey_trans
  lessRecordKey_trichotomy : swarm.

(** The error values of the package. [ErrTrust e] is the wrapped error of an
    application [TrustCheck]. *)
Inductive Err :=
  | ErrNotImplemented
  | ErrInvalidConfig
  | ErrNoHolders
  | ErrHashMismatch
  | ErrTooLarge
  | ErrTenantNotSet
  | ErrPaused
  | ErrStopped
  | ErrAlreadyStarted
  | ErrAlreadyWired
  | errGateTooLarge
  | errGateSkew
  | errGateBinding
  | errGateKeyTooLong
  | ErrTrust (cause : string).

#[export] Instance Err_eq_dec : EqDecision Err.
Proof. solve_decision. Defined.

(** Durations, in nanoseconds. *)
Definition Millisecond : Z := 1000000.
Definition Second : Z := 1000 * Millisecond.
Definition Minute : Z := 60 * Second.

(** The constants of the observer-tombstone gate and of the key encoding. *)
Definition DefaultObserverQuorum : Z := 2.
Definition DefaultObserverCorroborationWindow : Z := 5 * Minute.
Definition observerForwardSkewBudget : Z := 2 * DefaultObserverCorroborationWindow.
Definition MaxKeyBytes : Z := 2 ^ 16 - 1.
Definition DefaultMaxKeysPerNodePerTopic : Z := 4096.
Definition PublicKeySize : Z := 32.
Definition SignatureSize : Z := 64.
