(* ===== verification/Crypto.v ===== *)
(** * Cryptographic primitives

    The engine calls [crypto/sha256] and [crypto/ed25519]. A digest and a signature
    scheme are parameters of every definition that uses them, as type classes, with
    the documented behaviour the code relies on in the [Laws] classes. [Sha256Ref] is
    the FIPS 180-4 function itself, so that digests in the examples are the real ones;
    [ToyEd25519] is a scheme on which the signing laws are provable and which the
    examples evaluate. *)
From S2P Require Import Prelude.

(** [sha256.Sum256]. *)
Class Sha256 := sha256 : bytes -> bytes.

Class Sha256Laws `{Sha256} := { sha256_length : forall m, length (sha256 m) = 32%nat }.

(** Two different messages with one digest. *)
Definition collides `{Sha256} (x y : bytes) : Prop := x <> y /\ sha256 x = sha256 y.

Lemma sha256_inj_or `{Sha256} x y : sha256 x = sha256 y -> x = y \/ collides x y.
Proof. intros E. destruct (decide (x = y)); [by left|by right]. Qed.

(** [ed25519]: the public half of a private key, signing, verification. *)
Class Ed25519 := {
  ed_public : bytes -> bytes;
  ed_sign : bytes -> bytes -> bytes;
  ed_verify : bytes -> bytes -> bytes -> bool
}.

(** [ed_key priv]: [priv] is a key pair, as [GenerateKey] returns one. *)
Class Ed25519Laws `{Ed25519} := {
  ed_key : bytes -> Prop;
  ed_public_length : forall priv, ed_key priv -> length (ed_public priv) = 32%nat;
  ed_sign_length : forall priv m, ed_key priv -> length (ed_sign priv m) = 64%nat;
  ed_verify_sign : forall priv m, ed_key priv ->
    ed_verify (ed_public priv) m (ed_sign priv m) = true
}.

(** ** SHA-256 *)
Module Sha256Ref.

Definition w32 (x : Z) : Z := x mod 2 ^ 32.
Definition rotr (x n : Z) : Z :=
  Z.lor (Z.shiftr x n) (w32 (Z.shiftl x (32 - n))).

(** The constants are the first 32 bits of the fractional parts of the cube roots of the
    first 64 primes, and of the square roots of the first eight. *)
Definition is_prime (n : nat) : bool :=
  forallb (fun d => negb (Nat.eqb (Nat.modulo n d) 0)) (seq 2 (n - 2)).

Definition primes : list Z :=
  Z.of_nat <$> List.filter is_prime (seq 2 310).

(** The largest [r + x] with [x < 2^n] and [(r + x)^3 <= v]. *)
Fixpoint cube_root (n : nat) (r v : Z) : Z :=
  match n with
  | O => r
  | S n' => let r' := r + 2 ^ Z.of_nat n' in
            cube_root n' (if r' ^ 3 <=? v then r' else r) v
  end.

Definition K : list Z := Eval vm_compute in
  (fun p => w32 (cube_root 40 0 (p * 2 ^ 96))) <$> primes.

Definition H0 : list Z := Eval vm_compute in
  (fun p => w32 (Z.sqrt (p * 2 ^ 64))) <$> take 8 primes.

(** Padding to a multiple of 64 bytes with the bit length at the end. *)
Definition pad (m : bytes) : bytes :=
  let zeros := Z.to_nat ((55 - len m) mod 64) in
  m ++ [Byte.x80] ++ repeat Byte.x00 zeros ++ be_put 8 (8 * len m).

Fixpoint words (n : nat) (m : bytes) : list Z :=
  match n with
  | O => []
  | S n' => be_get (take 4 m) :: words n' (drop 4 m)
  end.

(** The schedule, most recent word first: sixteen words are extended [n] times. *)
Fixpoint extend (n : nat) (w : list Z) : list Z :=
  match n with
  | O => w
  | S n' =>
      let a := nth 14 w 0 in
      let b := nth 1 w 0 in
      let s0 := Z.lxor (Z.lxor (rotr a 7) (rotr a 18)) (Z.shiftr a 3) in
      let s1 := Z.lxor (Z.lxor (rotr b 17) (rotr b 19)) (Z.shiftr b 10) in
      extend n' (w32 (nth 15 w 0 + s0 + nth 6 w 0 + s1) :: w)
  end.

Definition round (st : list Z) (kw : Z * Z) : list Z :=
  match st with
  | [a; b; c; d; e; f; g; h] =>
      let S1 := Z.lxor (Z.lxor (rotr e 6) (rotr e 11)) (rotr e 25) in
      let ch := Z.lxor (Z.land e f) (Z.land (Z.lxor e (2 ^ 32 - 1)) g) in
      let t1 := h + S1 + ch + kw.1 + kw.2 in
      let S0 := Z.lxor (Z.lxor (rotr a 2) (rotr a 13)) (rotr a 22) in
      let maj := Z.lxor (Z.lxor (Z.land a b) (Z.land a c)) (Z.land b c) in
      [w32 (t1 + S0 + maj); a; b; c; w32 (d + t1); e; f; g]
  | _ => st
  end.

Definition block (st : list Z) (m : bytes) : list Z :=
  let w := reverse (extend 48 (reverse (words 16 m))) in
  zip_with (fun x y => w32 (x + y)) st (foldl round st (zip K w)).

Fixpoint blocks (n : nat) (st : list Z) (m : bytes) : list Z :=
  match n with
  | O => st
  | S n' => blocks n' (block st (take 64 m)) (drop 64 m)
  end.

Definition digest (m : bytes) : bytes :=
  let p := pad m in
  take 32 (mjoin (be_put 4 <$> blocks (length p / 64) H0 p)).
End Sha256Ref.

Definition Sha256_real : Sha256 := Sha256Ref.digest.

(** The digests of the empty string and of ["abc"]. *)
Example sha256_empty :
  be_get (Sha256Ref.digest []) =
  0xe3b0c44298fc1c149afbf4c8996fb92427ae41e4649b934ca495991b7852b855.
Proof. vm_compute. reflexivity. Qed.
Example sha256_abc :
  be_get (Sha256Ref.digest (toBytes "abc")) =
  0xba7816bf8f01cfea414140de5dae2223b00361a396177a9cb410ff61f20015ad.
Proof. vm_compute. reflexivity. Qed.

Lemma round_length st kw : length (Sha256Ref.round st kw) = length st.
Proof. unfold Sha256Ref.round. by repeat case_match. Qed.

Lemma rounds_length st kws : length (foldl Sha256Ref.round st kws) = length st.
Proof.
  revert st. induction kws as [|kw kws IH]; intros st; simpl; [done|].
  by rewrite IH, round_length.
Qed.

Lemma blocks_length n st m : length (Sha256Ref.blocks n st m) = length st.
Proof.
  revert st m. induction n as [|n IH]; intros st m; cbn [Sha256Ref.blocks]; [done|].
  rewrite IH. unfold Sha256Ref.block.
  by rewrite length_zip_with, rounds_length, Nat.min_id.
Qed.

#[export] Instance Sha256_real_laws : @Sha256Laws Sha256_real.
Proof.
  constructor. intros m. unfold sha256, Sha256_real, Sha256Ref.digest.
  pose proof (blocks_length (length (Sha256Ref.pad m) / 64) Sha256Ref.H0
    (Sha256Ref.pad m)) as Hl.
  remember (Sha256Ref.blocks _ _ _) as st eqn:E. clear E.
  destruct st as [|? [|? [|? [|? [|? [|? [|? [|? []]]]]]]]]; done.
Qed.

(** ** A digest and a signature scheme to evaluate with

    The digest is a 32-byte checksum.

    A private key is 64 bytes, seed and public half, as in Go; the "signature" is a
    64-byte checksum of public key and message. *)
Definition checksum (m : bytes) : Z :=
  foldl (fun acc b => (acc * 257 + byteZ b + 1) mod (2 ^ 61 - 1)) 7 m.

Module ToyEd25519.
Definition tag (pub m : bytes) : bytes := be_put 64 (checksum (pub ++ m)).
Definition scheme : Ed25519 :=
  {| ed_public := drop 32;
     ed_sign := fun priv m => tag (drop 32 priv) m;
     ed_verify := fun pub m sig => bool_decide (sig = tag pub m) |}.

#[export] Instance laws : @Ed25519Laws scheme.
Proof.
  refine {| ed_key := fun priv => length priv = 64%nat |}.
  - intros priv Hp. change (length (drop 32 priv) = 32%nat). rewrite length_drop, Hp. reflexivity.
  - intros priv m _. change (length (tag (drop 32 priv) m) = 64%nat). apply length_be_put.
  - intros priv m _. apply bool_decide_eq_true. reflexivity.
Defined.

(** The key pair number [i]. *)
Definition key (i : Z) : bytes := be_put 32 i ++ be_put 32 (i + 0xabcdef00).
End ToyEd25519.

Module ToySha256.
Definition hash : Sha256 := fun m => be_put 32 (checksum m).

#[export] Instance laws : @Sha256Laws hash.
Proof. constructor. intros m. apply length_be_put. Qed.
End ToySha256.
