(* ===== verification/Hlc.v ===== *)
(** * The hybrid logical clock (src/hlc.go)

    The state is the 64-bit word the [atomic.Uint64] holds. [Now] and [observeAt] are
    one successful iteration of their compare-and-swap loop; module [Cas] models the
    loop itself, with any number of goroutines interleaving their loads and swaps. *)
From S2P Require Import Prelude Types.

(** [func packHLC(wall, ctr uint64) uint64]. *)
Definition packHLC (wall ctr : Z) : Z :=
  Z.lor (u64 (Z.shiftl wall 16)) (Z.land ctr 0xFFFF).

(** [func unpackHLC(h uint64) (wall, ctr uint64)]. *)
Definition unpackHLC (h : Z) : Z * Z := (Z.shiftr h 16, Z.land h 0xFFFF).

(** [func Decompose(h uint64) (wallMillis uint64, counter uint16)]. *)
Definition Decompose (h : Z) : Z * Z := let '(w, c) := unpackHLC h in (w, u16 c).

(** [NewHLC]: anchored at the current wall time (milliseconds). *)
Definition NewHLC (nowMs : Z) : Z := packHLC (u64 nowMs) 0.

(** The value [Now] computes from the loaded word [cur]. *)
Definition now_next (cur nowMs : Z) : Z :=
  let '(curWall, curCtr) := unpackHLC cur in
  let nowWall := u64 nowMs in
  if nowWall >? curWall then packHLC nowWall 0
  else packHLC curWall (u64 (curCtr + 1)).

(** [func (h *HLC) Now() uint64]: returned stamp and new state. *)
Definition Now (h nowMs : Z) : Z * Z := let next := now_next h nowMs in (next, next).

(** [func (h *HLC) observeAt(remote uint64, nowMs int64)]: the new state. *)
Definition observeAt (h remote nowMs : Z) : Z :=
  let skewMs := u64 (Milliseconds observerForwardSkewBudget) in
  let nowWall := u64 nowMs in
  let '(curWall, curCtr) := unpackHLC h in
  let '(remoteWall, remoteCtr) := unpackHLC remote in
  let '(maxWall, maxCtr) :=
    if remoteWall <=? u64 (nowWall + skewMs) then
      if (remoteWall >? curWall) || ((remoteWall =? curWall) && (remoteCtr >? curCtr))
      then (remoteWall, remoteCtr) else (curWall, curCtr)
    else (curWall, curCtr) in
  let '(maxWall, maxCtr) :=
    if nowWall >? maxWall then (nowWall, 0) else (maxWall, maxCtr) in
  packHLC maxWall maxCtr.

(** [func (h *HLC) Observe(remote uint64)]. *)
Definition Observe (h remote nowMs : Z) : Z := observeAt h remote nowMs.

(** ** The word as wall and counter *)

Definition wall (h : Z) : Z := h / 2 ^ 16.
Definition ctr (h : Z) : Z := h mod 2 ^ 16.

(** A clock reading whose milliseconds fit the 48-bit wall component. *)
Definition wall_ok (nowMs : Z) : Prop := 0 <= nowMs < 2 ^ 48.

Lemma unpackHLC_eq h : unpackHLC h = (wall h, ctr h).
Proof.
  unfold unpackHLC, wall, ctr. rewrite Z.shiftr_div_pow2 by lia.
  change 0xFFFF with (Z.ones 16). by rewrite Z.land_ones by lia.
Qed.

Lemma word_split h : h = wall h * 2 ^ 16 + ctr h.
Proof. unfold wall, ctr. pose proof (Z.div_mod h (2 ^ 16)). lia. Qed.

Lemma ctr_range h : 0 <= ctr h < 2 ^ 16.
Proof. unfold ctr. apply Z.mod_pos_bound. lia. Qed.

Lemma wall_range h : is_u64 h -> 0 <= wall h < 2 ^ 48.
Proof.
  unfold is_u64. intros. pose proof (word_split h). pose proof (ctr_range h). lia.
Qed.

Lemma word_eq h w c : 0 <= c < 2 ^ 16 -> h = w * 2 ^ 16 + c -> wall h = w /\ ctr h = c.
Proof. intros Hc E. pose proof (word_split h). pose proof (ctr_range h). lia. Qed.

Lemma packHLC_eq w c :
  0 <= w < 2 ^ 48 -> 0 <= c -> packHLC w c = w * 2 ^ 16 + c mod 2 ^ 16.
Proof.
  intros Hw Hc. unfold packHLC. rewrite Z.shiftl_mul_pow2, u64_small by (unfold is_u64; lia).
  change 0xFFFF with (Z.ones 16). rewrite Z.land_ones by lia.
  symmetry. apply Z.add_nocarry_lor.
  apply Z.bits_inj'. intros i Hi.
  rewrite Z.land_spec, Z.bits_0, <- Z.shiftl_mul_pow2, Z.shiftl_spec by lia.
  rewrite <- Z.land_ones, Z.land_spec by lia.
  destruct (Z.ltb_spec i 16).
  - by rewrite (Z.testbit_neg_r w) by lia.
  - rewrite (Z.ones_spec_high 16) by lia. by rewrite !andb_false_r.
Qed.

Lemma is_u64_pack w c : 0 <= w < 2 ^ 48 -> 0 <= c < 2 ^ 16 -> is_u64 (w * 2 ^ 16 + c).
Proof. unfold is_u64. lia. Qed.

Lemma Decompose_eq h : Decompose h = (wall h, ctr h).
Proof.
  unfold Decompose. rewrite unpackHLC_eq. unfold u16.
  by rewrite (Z.mod_small (ctr h)) by apply ctr_range.
Qed.

(** The stamp [Now] issues, in terms of wall and counter. *)
Lemma now_next_eq h nowMs :
  is_u64 h -> wall_ok nowMs ->
  now_next h nowMs =
    if nowMs >? wall h then nowMs * 2 ^ 16
    else wall h * 2 ^ 16 + (ctr h + 1) mod 2 ^ 16.
Proof.
  intros Hh Hn. unfold now_next, wall_ok in *. rewrite unpackHLC_eq.
  pose proof (wall_range h Hh). pose proof (ctr_range h).
  rewrite (u64_small nowMs), (u64_small (ctr h + 1)) by (unfold is_u64; lia).
  case_match; rewrite packHLC_eq by lia; [rewrite Z.mod_0_l by lia; lia|done].
Qed.

Lemma now_next_u64 h nowMs : is_u64 h -> wall_ok nowMs -> is_u64 (now_next h nowMs).
Proof.
  intros Hh Hn. rewrite now_next_eq by done. unfold wall_ok in Hn.
  pose proof (wall_range h Hh).
  pose proof (Z.mod_pos_bound (ctr h + 1) (2 ^ 16) ltac:(lia)).
  unfold is_u64. case_match; lia.
Qed.

(** The only way a stamp can fail to advance: the counter is full and the wall clock
    has not moved past the stored wall component. *)
Definition saturated (h nowMs : Z) : bool := (nowMs <=? wall h) && (ctr h =? 0xFFFF).

Lemma now_next_saturated h nowMs :
  is_u64 h -> wall_ok nowMs -> saturated h nowMs = true ->
  now_next h nowMs = h - 0xFFFF.
Proof.
  intros Hh Hn Hs. unfold saturated in Hs. bool_to_prop.
  rewrite now_next_eq by done. pose proof (word_split h).
  destruct (nowMs >? wall h) eqn:E; [lia|].
  replace (ctr h) with 65535 in * by lia. change ((65535 + 1) mod 2 ^ 16) with 0. lia.
Qed.

Lemma now_next_advances h nowMs :
  is_u64 h -> wall_ok nowMs -> saturated h nowMs = false -> h < now_next h nowMs.
Proof.
  intros Hh Hn Hs. rewrite now_next_eq by done.
  pose proof (word_split h). pose proof (ctr_range h).
  unfold saturated in Hs.
  destruct (nowMs >? wall h) eqn:E; [lia|].
  assert (ctr h <> 65535) by (intros E'; rewrite E' in Hs; lia).
  rewrite Z.mod_small; lia.
Qed.

#[export] Hint Resolve now_next_u64 ctr_range wall_range : swarm.

Lemma skew_ms : u64 (Milliseconds observerForwardSkewBudget) = 600000.
Proof. reflexivity. Qed.

(** [observeAt] as a maximum of words: the stored word, the remote one when its wall
    component is within the budget, and the bare wall clock. *)
Lemma observeAt_max h remote nowMs :
  is_u64 h -> is_u64 remote -> wall_ok nowMs ->
  observeAt h remote nowMs =
    Z.max (Z.max h (if wall remote <=? nowMs + 600000 then remote else h))
          (nowMs * 2 ^ 16).
Proof.
  intros Hh Hr Hn. unfold observeAt, wall_ok in *. rewrite !unpackHLC_eq, skew_ms.
  pose proof (wall_range h Hh). pose proof (wall_range remote Hr).
  pose proof (ctr_range h). pose proof (ctr_range remote).
  pose proof (word_split h). pose proof (word_split remote).
  rewrite (u64_small nowMs), (u64_small (nowMs + 600000)) by (unfold is_u64; lia).
  destruct (wall remote <=? nowMs + 600000) eqn:E1; bool_to_prop.
  - destruct ((wall remote >? wall h) || _) eqn:E2; simpl;
      (destruct (nowMs >? _) eqn:E3; rewrite packHLC_eq, Z.mod_small by lia; lia).
  - simpl. destruct (nowMs >? _) eqn:E3; rewrite packHLC_eq, Z.mod_small by lia; lia.
Qed.

Lemma observeAt_u64 h remote nowMs :
  is_u64 h -> is_u64 remote -> wall_ok nowMs -> is_u64 (observeAt h remote nowMs).
Proof.
  intros Hh Hr Hn. rewrite observeAt_max by done.
  unfold is_u64, wall_ok in *. case_match; lia.
Qed.

#[export] Hint Resolve observeAt_u64 : swarm.

(** ** The compare-and-swap loops, interleaved

    Each call of [Now] or [Observe] is at one of these points. [Now] reads the wall clock
    between its load and its swap, anew in each iteration; [Observe] reads it once, before
    its loop. *)
Module Cas.

Inductive pc :=
  | NowLoop
  | NowLoaded (cur : Z)
  | NowReady (cur next : Z)
  | NowDone (stamp : Z)
  | ObsLoop (remote nowMs : Z)
  | ObsReady (remote nowMs cur : Z)
  | ObsDone.

(** The shared word, the calls by number, and the stamps [Now] returned, most recent
    first. A goroutine makes its calls one after the other, each with a number of its own. *)
Record state := mkState { word : Z; pcs : gmap nat pc; stamps : list Z }.

Inductive event :=
  | CallNow (t : nat)
  | CallObserve (t : nat) (remote nowMs : Z)
  | Load (t : nat)
  | Clock (t : nat) (nowMs : Z)
  | Swap (t : nat).

(** The call that takes the action. *)
Definition caller (e : event) : nat :=
  match e with CallNow t | CallObserve t _ _ | Load t | Clock t _ | Swap t => t end.

(** One atomic action of one call; [None] when it is not at that point. *)
Definition step (s : state) (e : event) : option state :=
  match e with
  | CallNow t =>
      match pcs s !! t with
      | None => Some (mkState (word s) (<[t := NowLoop]> (pcs s)) (stamps s))
      | Some _ => None
      end
  | CallObserve t remote nowMs =>
      match pcs s !! t with
      | None => Some (mkState (word s) (<[t := ObsLoop remote nowMs]> (pcs s)) (stamps s))
      | Some _ => None
      end
  | Load t =>
      match pcs s !! t with
      | Some NowLoop =>
          Some (mkState (word s) (<[t := NowLoaded (word s)]> (pcs s)) (stamps s))
      | Some (ObsLoop remote nowMs) =>
          Some (mkState (word s) (<[t := ObsReady remote nowMs (word s)]> (pcs s)) (stamps s))
      | _ => None
      end
  | Clock t nowMs =>
      match pcs s !! t with
      | Some (NowLoaded cur) =>
          Some (mkState (word s) (<[t := NowReady cur (now_next cur nowMs)]> (pcs s)) (stamps s))
      | _ => None
      end
  | Swap t =>
      match pcs s !! t with
      | Some (NowReady cur next) =>
          if word s =? cur
          then Some (mkState next (<[t := NowDone next]> (pcs s)) (next :: stamps s))
          else Some (mkState (word s) (<[t := NowLoop]> (pcs s)) (stamps s))
      | Some (ObsReady remote nowMs cur) =>
          if word s =? cur
          then Some (mkState (observeAt cur remote nowMs) (<[t := ObsDone]> (pcs s)) (stamps s))
          else Some (mkState (word s) (<[t := ObsLoop remote nowMs]> (pcs s)) (stamps s))
      | _ => None
      end
  end.

Fixpoint run (s : state) (tr : list event) : option state :=
  match tr with
  | [] => Some s
  | e :: tr' => match step s e with Some s' => run s' tr' | None => None end
  end.

Definition init (w0 : Z) : state := mkState w0 ∅ [].

(** The inputs of an event are machine values. *)
Definition event_ok (e : event) : Prop :=
  match e with
  | CallObserve _ remote nowMs => is_u64 remote /\ wall_ok nowMs
  | Clock _ nowMs => wall_ok nowMs
  | _ => True
  end.

(** No call computes its stamp from a full counter under a stalled clock. *)
Definition calm_step (s : state) (e : event) : bool :=
  match e with
  | Clock t nowMs =>
      match pcs s !! t with
      | Some (NowLoaded cur) => negb (saturated cur nowMs)
      | _ => true
      end
  | _ => true
  end.

Fixpoint calm (s : state) (tr : list event) : bool :=
  match tr with
  | [] => true
  | e :: tr' =>
      calm_step s e && match step s e with Some s' => calm s' tr' | None => true end
  end.

(** ** The sequential clock *)

Inductive op := ANow (nowMs : Z) | AObserve (remote nowMs : Z).

(** The word after some calls made one after the other, and how each of them ends. *)
Definition seq_step (a : Z * list (nat * pc)) (c : nat * op) : Z * list (nat * pc) :=
  match c.2 with
  | ANow nowMs => let '(v, w') := Now a.1 nowMs in (w', a.2 ++ [(c.1, NowDone v)])
  | AObserve remote nowMs => (Observe a.1 remote nowMs, a.2 ++ [(c.1, ObsDone)])
  end.

Definition seq_run (w0 : Z) (lin : list (nat * op)) : Z * list (nat * pc) :=
  foldl seq_step (w0, []) lin.

(** What call [t] was, in a trace: [Observe] with its arguments, or [Now] with the last
    reading it made of the wall clock. *)
Definition opOf (t : nat) (tr : list event) : option op :=
  foldl (fun acc e =>
           if decide (caller e = t) then
             match e with
             | CallObserve _ remote nowMs => Some (AObserve remote nowMs)
             | Clock _ nowMs => Some (ANow nowMs)
             | _ => acc
             end
           else acc) None tr.

Definition returned (s : state) (t : nat) : Prop :=
  match pcs s !! t with Some (NowDone _) | Some ObsDone => True | _ => False end.

(** [a] is in the list before [b]. *)
Definition before (l : list nat) (a b : nat) : Prop :=
  exists i j : nat, (i < j)%nat /\ l !! i = Some a /\ l !! j = Some b.

(** What a call carries was computed from a word by the sequential code, with the arguments
    and the clock of its events. *)
Definition pc_ok (tr : list event) (t : nat) (p : pc) : Prop :=
  match p with
  | NowReady cur next => exists nowMs, opOf t tr = Some (ANow nowMs) /\ next = now_next cur nowMs
  | ObsLoop remote nowMs | ObsReady remote nowMs _ => opOf t tr = Some (AObserve remote nowMs)
  | _ => True
  end.

(** [lin] is a sequential run of the calls that have returned. *)
Record linear (w0 : Z) (tr : list event) (s : state) (lin : list (nat * op)) : Prop := {
  lin_pc : forall t p, pcs s !! t = Some p -> pc_ok tr t p;
  lin_nodup : NoDup lin.*1;
  lin_returned : forall t, t ∈ lin.*1 <-> returned s t;
  lin_op : Forall (fun c => opOf c.1 tr = Some c.2) lin;
  lin_word : (seq_run w0 lin).1 = word s;
  lin_ends : forall t p, (t, p) ∈ (seq_run w0 lin).2 -> pcs s !! t = Some p
}.

Lemma opOf_snoc t tr e :
  opOf t (tr ++ [e]) =
    if decide (caller e = t) then
      match e with
      | CallObserve _ remote nowMs => Some (AObserve remote nowMs)
      | Clock _ nowMs => Some (ANow nowMs)
      | _ => opOf t tr
      end
    else opOf t tr.
Proof. unfold opOf. by rewrite foldl_app. Qed.

Lemma opOf_other t tr e : caller e <> t -> opOf t (tr ++ [e]) = opOf t tr.
Proof. intros. by rewrite opOf_snoc, decide_False. Qed.

(** An action moves its own call only. *)
Lemma step_moves s e s' :
  step s e = Some s' -> exists p, pcs s' = <[caller e := p]> (pcs s).
Proof.
  destruct e as [t|t remote nowMs|t|t nowMs|t]; cbn [step caller]; intros Hs;
    destruct (pcs s !! t) as [[]|] eqn:Et; simplify_eq; repeat case_match; simplify_eq; eauto.
Qed.

Lemma returned_step s e s' t :
  step s e = Some s' -> caller e <> t -> returned s' t <-> returned s t.
Proof.
  intros [p Hp]%step_moves Hne. unfold returned. by rewrite Hp, lookup_insert_ne.
Qed.

(** A call that has returned takes no action. *)
Lemma returned_idle s e s' : step s e = Some s' -> ~ returned s (caller e).
Proof.
  unfold returned. intros Hs Hr. destruct e as [t|t remote nowMs|t|t nowMs|t]; cbn [caller] in Hr;
    cbn [step] in Hs; destruct (pcs s !! t) as [[]|]; done.
Qed.

Lemma seq_run_snoc w0 lin c : seq_run w0 (lin ++ [c]) = seq_step (seq_run w0 lin) c.
Proof. unfold seq_run. by rewrite foldl_app. Qed.

(** A sequential run ends each of its calls. *)
Lemma seq_run_ends w0 lin : (seq_run w0 lin).2.*1 = lin.*1.
Proof.
  induction lin as [|[t o] lin IH] using rev_ind; [done|].
  rewrite seq_run_snoc. unfold seq_step. cbn [fst snd].
  destruct o; cbn [Now snd]; by rewrite !fmap_app, IH.
Qed.

(** What the next action leaves of a sequential run of the calls that have returned. *)
Lemma linear_keeps w0 tr s e s' lin :
  linear w0 tr s lin -> step s e = Some s' ->
  ~ caller e ∈ lin.*1 /\
  Forall (fun c => opOf c.1 (tr ++ [e]) = Some c.2) lin /\
  (forall t p, (t, p) ∈ (seq_run w0 lin).2 -> pcs s' !! t = Some p) /\
  (forall t p, t <> caller e -> pcs s' !! t = Some p -> pc_ok (tr ++ [e]) t p).
Proof.
  intros [] Hs. pose proof (returned_idle _ _ _ Hs) as Hidle.
  destruct (step_moves _ _ _ Hs) as [p Hp]. rewrite <- lin_returned0 in Hidle.
  split; [done|]. split_and!.
  - rewrite Forall_forall in *. intros c Hc. rewrite opOf_other; [by apply lin_op0|].
    intros E. apply Hidle. rewrite E. by apply list_elem_of_fmap_2.
  - intros t q Hq. rewrite Hp, lookup_insert_ne; [by apply lin_ends0|].
    intros E. apply Hidle. rewrite E, <- (seq_run_ends w0).
    change t with ((t, q).1). by apply list_elem_of_fmap_2.
  - intros t q Hne. rewrite Hp, lookup_insert_ne by done. intros Hq%lin_pc0.
    destruct q; simpl in *; rewrite ?opOf_other by done; done.
Qed.

(** An action that neither returns from its call nor changes the word. *)
Lemma linear_move w0 tr s e s' lin p :
  linear w0 tr s lin -> step s e = Some s' ->
  pcs s' = <[caller e := p]> (pcs s) -> word s' = word s ->
  pc_ok (tr ++ [e]) (caller e) p -> ~ returned s' (caller e) ->
  linear w0 (tr ++ [e]) s' lin.
Proof.
  intros Hl Hs Hp Hw Hok Hret. destruct (linear_keeps _ _ _ _ _ _ Hl Hs) as (Hn & Hop & Hends & Hpc).
  destruct Hl. split; try done; [| |congruence].
  - intros t q Hq. destruct (decide (t = caller e)) as [->|Hne]; [|by apply Hpc].
    rewrite Hp, lookup_insert_eq in Hq. by injection Hq as <-.
  - intros t. rewrite lin_returned0. destruct (decide (caller e = t)) as [<-|Hne].
    + rewrite <- lin_returned0. done.
    + by rewrite (returned_step _ _ _ _ Hs).
Qed.

(** A swap that succeeds is where its call takes effect. *)
Lemma linear_return w0 tr s e s' lin o p :
  linear w0 tr s lin -> step s e = Some s' ->
  opOf (caller e) (tr ++ [e]) = Some o ->
  seq_step (seq_run w0 lin) (caller e, o) = (word s', (seq_run w0 lin).2 ++ [(caller e, p)]) ->
  pcs s' !! caller e = Some p -> returned s' (caller e) ->
  linear w0 (tr ++ [e]) s' (lin ++ [(caller e, o)]).
Proof.
  intros Hl Hs Ho Hseq Hp Hret. destruct (linear_keeps _ _ _ _ _ _ Hl Hs) as (Hn & Hop & Hends & Hpc).
  destruct Hl. split; rewrite ?fmap_app, ?seq_run_snoc, ?Hseq.
  - intros t q Hq. destruct (decide (t = caller e)) as [->|Hne]; [|by apply Hpc].
    rewrite Hp in Hq. injection Hq as <-. unfold returned in Hret. rewrite Hp in Hret. by destruct p.
  - apply NoDup_app. split; [done|]. split; [|apply NoDup_singleton].
    intros t Ht Hin%list_elem_of_singleton. cbn in Hin. by subst.
  - intros t. cbn [fmap list_fmap fst]. rewrite elem_of_app, list_elem_of_singleton, lin_returned0.
    destruct (decide (caller e = t)) as [<-|Hne]; [tauto|].
    rewrite (returned_step _ _ _ _ Hs) by done. naive_solver.
  - apply Forall_app. split; [done|]. by constructor.
  - done.
  - cbn [snd]. intros t q. rewrite elem_of_app, list_elem_of_singleton. intros [Hq|[= -> ->]]; auto.
Qed.

Lemma linear_step w0 tr s e s' lin :
  linear w0 tr s lin -> step s e = Some s' ->
  exists ext, linear w0 (tr ++ [e]) s' (lin ++ ext).
Proof.
  intros Hl Hs. pose proof (lin_pc _ _ _ _ Hl (caller e)) as Hpc.
  pose proof (lin_word _ _ _ _ Hl) as Hw.
  assert (Hmove : forall p, s' = mkState (word s) (<[caller e := p]> (pcs s)) (stamps s) ->
    pc_ok (tr ++ [e]) (caller e) p -> match p with NowDone _ | ObsDone => False | _ => True end ->
    exists ext, linear w0 (tr ++ [e]) s' (lin ++ ext)).
  { intros p Hs' Hok Hp. exists []. rewrite app_nil_r.
    apply (linear_move w0 tr s e s' lin p); try done; rewrite Hs'; [done..|].
    unfold returned. cbn [pcs]. rewrite lookup_insert_eq. destruct p; tauto. }
  destruct e as [t|t remote nowMs|t|t nowMs|t]; cbn [step caller] in *;
    destruct (pcs s !! t) as [[]|] eqn:Et; simplify_eq; try specialize (Hpc _ eq_refl);
    try (eapply Hmove; [done| |done]; simpl in *; rewrite ?opOf_snoc, ?decide_True by done; eauto; done).
  - destruct Hpc as (nowMs & Ho & ->). case_match; simplify_eq.
    2: { eapply Hmove; done. }
    bool_to_prop; subst. exists [(t, ANow nowMs)].
    eapply (linear_return _ _ _ (Swap t)) with (p := NowDone (now_next (word s) nowMs)); try done.
    + by cbn [step]; rewrite Et, Z.eqb_refl.
    + cbn [caller]. by rewrite opOf_snoc, decide_True.
    + unfold seq_step, Now. cbn [fst snd]. by rewrite Hw.
    + apply lookup_insert_eq.
    + unfold returned. cbn [pcs caller]. by rewrite lookup_insert_eq.
  - case_match; simplify_eq.
    2: { eapply Hmove; [done| |done]. cbn [pc_ok] in *. by rewrite opOf_snoc, decide_True. }
    bool_to_prop; subst. exists [(t, AObserve remote nowMs)].
    eapply (linear_return _ _ _ (Swap t)) with (p := ObsDone); try done.
    + by cbn [step]; rewrite Et, Z.eqb_refl.
    + cbn [caller]. by rewrite opOf_snoc, decide_True.
    + unfold seq_step, Observe. cbn [fst snd]. by rewrite Hw.
    + apply lookup_insert_eq.
    + unfold returned. cbn [pcs caller]. by rewrite lookup_insert_eq.
Qed.

(** A longer trace only appends to the sequential run, and each moment is a point of it. *)
Lemma linear_run w0 tr s lin tr' s' :
  linear w0 tr s lin -> run s tr' = Some s' ->
  exists ext, linear w0 (tr ++ tr') s' (lin ++ ext) /\
    forall tr1 tr2 s1, tr' = tr1 ++ tr2 -> run s tr1 = Some s1 ->
      exists ext1 ext2, ext = ext1 ++ ext2 /\ forall t, t ∈ (lin ++ ext1).*1 <-> returned s1 t.
Proof.
  revert tr s lin. induction tr' as [|e tr' IH]; intros tr s lin Hl; cbn [run].
  - intros [= <-]. exists []. rewrite !app_nil_r. split; [done|].
    intros [|] tr2 s1 Heq; [|done]. intros [= <-]. exists [], []. rewrite !app_nil_r.
    split; [done|]. apply (lin_returned _ _ _ _ Hl).
  - destruct (step s e) as [s0|] eqn:Es; [|done]. intros Hrun.
    destruct (linear_step _ _ _ _ _ _ Hl Es) as [ext0 Hl0].
    destruct (IH _ _ _ Hl0 Hrun) as (ext & Hl' & Hpre). exists (ext0 ++ ext).
    rewrite <- !app_assoc in Hl'. split; [exact Hl'|].
    intros [|e1 tr1] tr2 s1 Heq Hs1; cbn in Hs1, Heq.
    + injection Hs1 as <-. exists [], (ext0 ++ ext). rewrite app_nil_r.
      split; [done|]. apply (lin_returned _ _ _ _ Hl).
    + injection Heq as <- Heq. rewrite Es in Hs1.
      destruct (Hpre tr1 tr2 s1 Heq Hs1) as (ext1 & ext2 & -> & Ht). exists (ext0 ++ ext1), ext2.
      rewrite !app_assoc in *. done.
Qed.

Lemma linear_init w0 : linear w0 [] (init w0) [].
Proof.
  split; try done; [constructor| |by intros t p ?%elem_of_nil]. intros t. unfold returned.
  cbn. rewrite elem_of_nil. done.
Qed.

Lemma before_app l1 l2 a b : a ∈ l1 -> b ∈ l2 -> before (l1 ++ l2) a b.
Proof.
  intros [i Hi]%list_elem_of_lookup [j Hj]%list_elem_of_lookup.
  pose proof (lookup_lt_Some _ _ _ Hi). exists i, (length l1 + j)%nat. split; [lia|].
  split; [by apply lookup_app_l_Some|]. by rewrite lookup_app_r, Nat.add_comm, Nat.add_sub by lia.
Qed.

(** What a call needs to do to return. *)
Definition returns_alone (s : state) (t : nat) : Prop :=
  exists tr s', Forall (fun e => caller e = t /\ event_ok e) tr /\
    run s tr = Some s' /\ returned s' t.

Lemma returns_step s e s' t :
  caller e = t -> event_ok e -> step s e = Some s' -> returns_alone s' t -> returns_alone s t.
Proof.
  intros He Hok Hs (tr & s1 & Htr & Hrun & Hret). exists (e :: tr), s1. cbn [run].
  rewrite Hs. split; [by constructor|done].
Qed.

Lemma returns_now s t : returned s t -> returns_alone s t.
Proof. exists [], s. done. Qed.

(** From the top of its loop a call that runs alone returns. *)
Lemma returns_loop s t :
  pcs s !! t = Some NowLoop \/ (exists r n, pcs s !! t = Some (ObsLoop r n)) -> returns_alone s t.
Proof.
  intros [Ht|(r & n & Ht)].
  - eapply (returns_step _ (Load t)); [done..|cbn [step]; by rewrite Ht|].
    eapply (returns_step _ (Clock t 0)); [done|machine|cbn [step pcs]; by rewrite lookup_insert_eq|].
    eapply (returns_step _ (Swap t)); [done..|
      cbn [step pcs word]; by rewrite lookup_insert_eq, Z.eqb_refl|].
    apply returns_now. unfold returned. cbn [pcs]. by rewrite lookup_insert_eq.
  - eapply (returns_step _ (Load t)); [done..|cbn [step]; by rewrite Ht|].
    eapply (returns_step _ (Swap t)); [done..|
      cbn [step pcs word]; by rewrite lookup_insert_eq, Z.eqb_refl|].
    apply returns_now. unfold returned. cbn [pcs]. by rewrite lookup_insert_eq.
Qed.

(** So does one at a swap, which succeeds or goes back to the top. *)
Lemma returns_ready s t :
  (exists cur next, pcs s !! t = Some (NowReady cur next)) \/
  (exists r n cur, pcs s !! t = Some (ObsReady r n cur)) -> returns_alone s t.
Proof.
  intros [(cur & next & Ht)|(r & n & cur & Ht)]; destruct (word s =? cur) eqn:E;
    (eapply (returns_step _ (Swap t)); [done..|cbn [step]; by rewrite Ht, E|]);
    try (apply returns_now; unfold returned; cbn [pcs]; by rewrite lookup_insert_eq);
    apply returns_loop; cbn [pcs]; rewrite lookup_insert_eq; eauto.
Qed.

Lemma returns_alone_call s t p : pcs s !! t = Some p -> returns_alone s t.
Proof.
  intros Ht. destruct p; eauto 6 using returns_loop, returns_ready;
    try (apply returns_now; unfold returned; by rewrite Ht).
  eapply (returns_step _ (Clock t 0)); [done|machine|cbn [step]; by rewrite Ht|].
  apply returns_ready. left. eexists _, _. cbn [pcs]. apply lookup_insert_eq.
Qed.

(** ** Increasing stamps *)

Definition ready_lt (p : pc) : Prop :=
  match p with
  | NowReady cur next => cur < next /\ is_u64 next
  | NowLoaded cur => is_u64 cur
  | ObsLoop remote nowMs | ObsReady remote nowMs _ => is_u64 remote /\ wall_ok nowMs
  | NowLoop | NowDone _ | ObsDone => True
  end.

Definition ordered (s : state) : Prop :=
  is_u64 (word s) /\
  (forall t p, pcs s !! t = Some p -> ready_lt p) /\
  StronglySorted (fun x y => y < x) (stamps s) /\
  Forall (fun x => x <= word s) (stamps s).

Lemma ordered_insert s t0 p0 :
  ordered s -> ready_lt p0 ->
  ordered (mkState (word s) (<[t0 := p0]> (pcs s)) (stamps s)).
Proof.
  intros (Hw & Hpc & Hs & Hf) H0. split_and!; try done. simpl. intros t p.
  rewrite lookup_insert. case_decide; naive_solver.
Qed.

Lemma ordered_swap s t0 p0 w' l' :
  ordered s -> ready_lt p0 -> is_u64 w' -> word s <= w' ->
  (l' = stamps s \/ (word s < w' /\ l' = w' :: stamps s)) ->
  ordered (mkState w' (<[t0 := p0]> (pcs s)) l').
Proof.
  intros (Hw & Hpc & Hs & Hf) H0 Hw' Hle Hl. split_and!; simpl; try done.
  - intros t p. rewrite lookup_insert. case_decide; naive_solver.
  - destruct Hl as [->|[Hlt ->]]; [done|]. constructor; [done|].
    eapply Forall_impl; [exact Hf|]. simpl. lia.
  - destruct Hl as [->|[Hlt ->]].
    + eapply Forall_impl; [exact Hf|]. simpl. lia.
    + constructor; [lia|]. eapply Forall_impl; [exact Hf|]. simpl. lia.
Qed.

Lemma step_ordered s e s' :
  event_ok e -> calm_step s e = true -> ordered s -> step s e = Some s' -> ordered s'.
Proof.
  intros He Hc Ho Hstep. pose proof Ho as (Hw & Hpc & _ & _).
  destruct e as [t|t remote nowMs|t|t nowMs|t]; simpl in Hstep, Hc;
    destruct (pcs s !! t) as [[]|] eqn:Et; simplify_eq;
    try (apply ordered_insert; [done|]; simpl;
         first [done | exact (Hpc _ _ Et)]).
  - apply ordered_insert; [done|]. bool_to_prop. pose proof (Hpc _ _ Et).
    split; [by apply now_next_advances|by apply now_next_u64].
  - case_match; simplify_eq; [|by apply ordered_insert].
    bool_to_prop; subst. destruct (Hpc _ _ Et).
    apply ordered_swap; [done|done|done|lia|]. right. by split.
  - case_match; simplify_eq; [|apply ordered_insert; [done|exact (Hpc _ _ Et)]].
    bool_to_prop; subst. destruct (Hpc _ _ Et) as [Hr Hn].
    apply ordered_swap; auto with swarm. rewrite observeAt_max by done. lia.
Qed.

Lemma run_ordered tr s s' :
  Forall event_ok tr -> calm s tr = true -> ordered s -> run s tr = Some s' -> ordered s'.
Proof.
  intros Htr. revert s. induction Htr as [|e tr He Htr IH]; intros s Hc Ho; simpl.
  - by intros [= <-].
  - simpl in Hc. bool_to_prop. destruct (step s e) eqn:E; [|done].
    eauto using step_ordered.
Qed.

Lemma ordered_init w0 : is_u64 w0 -> ordered (init w0).
Proof. intros. split_and!; try done; constructor. Qed.
End Cas.
