(* ===== verification/HlcSpec.v ===== *)
(** * Properties of the hybrid logical clock

    What src/hlc.go promises: the encoding is lossless, [Now] advances, [Observe] moves
    past what it saw without being ratcheted forward, and the lock-free loops behave
    as the sequential clock. *)
From S2P Require Import Prelude Types Hlc.

(** C6: [Now] issues a stamp strictly above the stored word exactly when it is not the
    case that the counter is full and the wall clock has not passed the stored wall
    component; in that case the counter wraps and the clock moves backwards by 65535.
    The state always becomes the issued stamp. *)
Theorem Now_strict_iff (h nowMs : Z) :
  is_u64 h -> wall_ok nowMs ->
  let '(stamp, h') := Now h nowMs in
  h' = stamp /\ is_u64 stamp /\
  (h < stamp <-> saturated h nowMs = false) /\
  (saturated h nowMs = true -> stamp = h - 65535 /\ Decompose stamp = (wall h, 0)).
Proof.
  intros Hh Hn. simpl. split_and!; auto with swarm.
  - split; [|by apply now_next_advances].
    destruct (saturated h nowMs) eqn:E; [|done].
    rewrite now_next_saturated by done. lia.
  - intros Hs. rewrite now_next_saturated by done. split; [done|].
    rewrite Decompose_eq. unfold saturated in Hs. bool_to_prop.
    pose proof (word_split h).
    destruct (word_eq (h - 65535) (wall h) 0) as [-> ->]; [lia|lia|done].
Qed.

(** A full counter under a stalled clock: the next stamp is smaller. *)
Lemma Now_strict_iff_witness :
  let h := packHLC 1700000000000 65535 in
  Now h 1700000000000 = (h - 65535, h - 65535) /\
  saturated h 1700000000000 = true /\ ~ h < (Now h 1700000000000).1.
Proof.
  pose proof (Now_strict_iff (packHLC 1700000000000 65535) 1700000000000
    ltac:(machine) ltac:(machine)) as H.
  simpl in H. destruct H as (_ & _ & Hiff & _).
  split; [reflexivity|]. split; [reflexivity|].
  intros Hlt. apply Hiff in Hlt. vm_compute in Hlt. discriminate.
Defined.

(** After observing a remote stamp within the forward-skew budget, the next stamp
    issued is strictly above both the remote stamp and the old clock (unless the
    counter is full under a stalled clock); a stamp beyond the budget leaves no trace;
    and whatever was observed, the wall component never passes the larger of the local
    one and the wall clock plus ten minutes. *)
Theorem Observe_then_Now (h remote nowMs later : Z) :
  is_u64 h -> is_u64 remote -> wall_ok nowMs -> wall_ok later ->
  let h' := Observe h remote nowMs in
  (h <= h') /\
  (wall remote <= nowMs + 600000 -> remote <= h' /\
     (saturated h' later = false -> remote < (Now h' later).1 /\ h < (Now h' later).1)) /\
  (nowMs + 600000 < wall remote -> h' = Observe h h nowMs) /\
  wall h' <= Z.max (wall h) (nowMs + 600000).
Proof.
  intros Hh Hr Hn Hl. simpl. unfold Observe.
  pose proof (observeAt_u64 h remote nowMs Hh Hr Hn) as Hu.
  pose proof (fun Hs => now_next_advances (observeAt h remote nowMs) later Hu Hl Hs) as Hadv.
  rewrite !observeAt_max in * by done.
  pose proof (word_split h). pose proof (word_split remote).
  pose proof (ctr_range h). pose proof (ctr_range remote).
  split_and!.
  - lia.
  - intros Hb. rewrite (proj2 (Z.leb_le _ _) Hb) in *. split; [lia|].
    intros Hs. specialize (Hadv Hs). lia.
  - intros Hb. rewrite (proj2 (Z.leb_gt _ _) Hb) in *. case_match; lia.
  - match goal with |- wall ?x <= _ => pose proof (word_split x); pose proof (ctr_range x) end.
    case_match; bool_to_prop; lia.
Qed.

(** A peer five minutes ahead is followed; one a year ahead is not. *)
Lemma Observe_then_Now_witness :
  let h := packHLC 1700000000000 3 in
  let near := packHLC 1700000300000 9 in
  let far := packHLC 1731536000000 9 in
  (near < (Now (Observe h near 1700000000000) 1700000000001).1) /\
  Observe h far 1700000000000 = h.
Proof.
  pose proof (Observe_then_Now (packHLC 1700000000000 3) (packHLC 1700000300000 9)
    1700000000000 1700000000001 ltac:(machine) ltac:(machine) ltac:(machine)
    ltac:(machine)) as (_ & Hin & _ & _).
  pose proof (Observe_then_Now (packHLC 1700000000000 3) (packHLC 1731536000000 9)
    1700000000000 1700000000001 ltac:(machine) ltac:(machine) ltac:(machine)
    ltac:(machine)) as (_ & _ & Hout & _).
  split.
  - apply Hin; [vm_compute; congruence|vm_compute; reflexivity].
  - rewrite Hout by (vm_compute; reflexivity). vm_compute. reflexivity.
Defined.

(** C24: the compare-and-swap loops of [Now] and [Observe] are linearizable. However any
    number of calls interleave, there is one sequential order of exactly the calls that have
    returned, each with the arguments it was made with and the last reading it made of the
    wall clock, such that running the sequential clock in that order ends with the word that
    is in memory and gives every [Now] the stamp it returned; a call that returned before
    another one was made comes before it. And no call can be blocked: one that runs alone
    from here returns. *)
Theorem Cas_linearizable (w0 : Z) (tr : list Cas.event) (s : Cas.state) :
  Cas.run (Cas.init w0) tr = Some s ->
  (exists lin : list (nat * Cas.op),
    NoDup lin.*1 /\
    (forall t, t ∈ lin.*1 <-> Cas.returned s t) /\
    Forall (fun c => Cas.opOf c.1 tr = Some c.2) lin /\
    (Cas.seq_run w0 lin).1 = Cas.word s /\
    (Cas.seq_run w0 lin).2.*1 = lin.*1 /\
    (forall t p, (t, p) ∈ (Cas.seq_run w0 lin).2 -> Cas.pcs s !! t = Some p) /\
    (forall tr1 tr2 s1 t t', tr = tr1 ++ tr2 -> Cas.run (Cas.init w0) tr1 = Some s1 ->
       Cas.returned s1 t -> Cas.pcs s1 !! t' = None -> Cas.returned s t' ->
       Cas.before lin.*1 t t')) /\
  (forall t p, Cas.pcs s !! t = Some p -> Cas.returns_alone s t).
Proof.
  intros Hrun. split; [|apply Cas.returns_alone_call].
  destruct (Cas.linear_run w0 [] _ [] tr s (Cas.linear_init w0) Hrun) as (lin & Hl & Hpre).
  exists lin. destruct Hl. split_and!; try done; [apply Cas.seq_run_ends|].
  intros tr1 tr2 s1 t t' Htr Hs1 Ht Hnew Ht'.
  destruct (Hpre tr1 tr2 s1 Htr Hs1) as (l1 & l2 & -> & Hret).
  apply Hret in Ht. apply lin_returned in Ht'. rewrite !fmap_app in *. cbn [fmap list_fmap app] in *.
  apply Cas.before_app; [done|]. apply elem_of_app in Ht' as [Ht'|?]; [|done].
  apply Hret in Ht'. unfold Cas.returned in Ht'. by rewrite Hnew in Ht'.
Qed.

(** Two calls load the same word; the loser retries and gets the next counter. *)
Definition cas_race : list Cas.event :=
  [Cas.CallNow 1; Cas.CallNow 2; Cas.CallObserve 3 5 7; Cas.Load 1; Cas.Load 2;
   Cas.Clock 1 7; Cas.Clock 2 7; Cas.Swap 2; Cas.Swap 1; Cas.Load 3; Cas.Swap 3;
   Cas.Load 1; Cas.Clock 1 9; Cas.Swap 1]%nat.

Definition cas_raced : Cas.state :=
  Cas.mkState (packHLC 9 0)
    (<[1%nat := Cas.NowDone (packHLC 9 0)]> (<[2%nat := Cas.NowDone (packHLC 7 0)]>
       {[ 3%nat := Cas.ObsDone ]})) [packHLC 9 0; packHLC 7 0].

Lemma cas_race_runs : Cas.run (Cas.init 0) cas_race = Some cas_raced.
Proof. vm_compute. reflexivity. Qed.

(** In the sequential order the second call, which returned first, is before the first. *)
Lemma Cas_linearizable_witness :
  Cas.run (Cas.init 0) cas_race = Some cas_raced /\
  exists lin : list (nat * Cas.op), (Cas.seq_run 0 lin).1 = packHLC 9 0 /\
    (1%nat, Cas.ANow 9) ∈ lin.
Proof.
  split; [exact cas_race_runs|].
  destruct (Cas_linearizable 0 cas_race cas_raced cas_race_runs)
    as [(lin & _ & Hret & Hop & Hw & _) _].
  exists lin. split; [exact Hw|].
  assert (Hin : 1%nat ∈ lin.*1) by (apply Hret; exact I).
  apply list_elem_of_fmap in Hin as ([t o] & Ht & Hin). cbn in Ht. subst t.
  rewrite Forall_forall in Hop. specialize (Hop _ Hin). vm_compute in Hop.
  injection Hop as <-. exact Hin.
Defined.

(** As long as no call computes its stamp from a full counter under a stalled
    clock, the stamps returned by concurrent calls of [Now] are pairwise distinct and
    strictly increasing in the order of the swaps, and none exceeds the word. *)
Theorem Cas_stamps_increase (w0 : Z) (tr : list Cas.event) (s : Cas.state) :
  is_u64 w0 -> Forall Cas.event_ok tr -> Cas.calm (Cas.init w0) tr = true ->
  Cas.run (Cas.init w0) tr = Some s ->
  StronglySorted (fun x y => y < x) (Cas.stamps s) /\ NoDup (Cas.stamps s) /\
  Forall (fun x => x <= Cas.word s) (Cas.stamps s).
Proof.
  intros Hw Htr Hc Hrun.
  destruct (Cas.run_ordered tr _ _ Htr Hc (Cas.ordered_init w0 Hw) Hrun) as (_ & _ & Hs & Hf).
  split_and!; [done| |done]. clear Hf.
  induction Hs as [|x l Hs IH Hall]; constructor; [|done].
  intros Hin. rewrite Forall_forall in Hall. specialize (Hall x Hin). lia.
Qed.

Lemma Cas_stamps_increase_witness :
  StronglySorted (fun x y => y < x) [packHLC 9 0; packHLC 7 0].
Proof.
  apply (Cas_stamps_increase 0 cas_race
           cas_raced);
    [machine|repeat constructor; machine|vm_compute; reflexivity..].
Defined.
