(* ===== verification/Sig.v ===== *)
(** * Canonical signing bytes and record signatures (src/sig.go)

    [signableBytes] and [signableManifestBytes] are the byte layouts that get signed;
    [signRecord], [verifyRecord] and the exported [VerifyRecord] use them; NodeIDs are
    the hex encoding of a public key. *)
From S2P Require Import Prelude Types Crypto.

(** [func signableBytes(r Record) []byte]. *)
Definition signableBytes (r : Record_) : bytes :=
  let topic := toBytes (r_Topic r) in
  let observer := toBytes (r_ObserverNodeID r) in
  let key := toBytes (r_Key r) in
  be_put 2 (u16 (len topic)) ++ topic ++
  toBytes (r_NodeID r) ++
  be_put 8 (r_HLC r) ++
  [if r_Tombstone r then Byte.x01 else Byte.x00] ++
  be_put 4 (u32 (len (r_Body r))) ++ r_Body r ++
  r_PubKey r ++
  be_put 2 (u16 (len observer)) ++ observer ++
  be_put 8 (u64 (r_ObservedAtUnixMs r)) ++
  (if 0 <? len key then be_put 2 (u16 (len key)) ++ key else []).

(** [type manifestSig struct]. *)
Record manifestSig := mkManifestSig {
  m_BlobHash : bytes;
  m_TotalSize : Z;
  m_ChunkSize : Z;
  m_Chunks : list bytes;
  m_Filename : string;
  m_Mime : string;
  m_PublishedAt : Z;
  m_Publisher : bytes
}.

(** [func signableManifestBytes(m manifestSig) []byte]. *)
Definition signableManifestBytes (m : manifestSig) : bytes :=
  m_BlobHash m ++
  be_put 8 (m_TotalSize m) ++
  be_put 4 (m_ChunkSize m) ++
  be_put 4 (u32 (len (m_Chunks m))) ++ mjoin (m_Chunks m) ++
  be_put 2 (u16 (slen (m_Filename m))) ++ toBytes (m_Filename m) ++
  be_put 2 (u16 (slen (m_Mime m))) ++ toBytes (m_Mime m) ++
  be_put 8 (u64 (m_PublishedAt m)) ++
  be_put 2 (u16 (len (m_Publisher m))) ++ m_Publisher m.

(** ** NodeIDs *)

(** [func hexNibble(c byte) (byte, bool)]. *)
Definition hexNibble (c : byte) : option Z :=
  let c := byteZ c in
  if (48 <=? c) && (c <=? 57) then Some (c - 48)
  else if (97 <=? c) && (c <=? 102) then Some (c - 97 + 10)
  else if (65 <=? c) && (c <=? 70) then Some (c - 65 + 10)
  else None.

(** The loop of [pubFromNodeID]: the two characters of each byte, high nibble first. *)
Fixpoint decodeHex (s : bytes) : option bytes :=
  match s with
  | c1 :: c2 :: s' =>
      match hexNibble c1, hexNibble c2 with
      | Some hi, Some lo =>
          match decodeHex s' with
          | Some rest => Some (byteOfZ (Z.lor (Z.shiftl hi 4) lo) :: rest)
          | None => None
          end
      | _, _ => None
      end
  | _ => Some []
  end.

(** [func pubFromNodeID(id NodeID) (ed25519.PublicKey, bool)]. *)
Definition pubFromNodeID (id : NodeID) : option bytes :=
  if negb (slen id =? 2 * PublicKeySize) then None
  else decodeHex (toBytes id).

Definition hexDigit (n : Z) : byte :=
  nth (Z.to_nat n) (toBytes "0123456789abcdef") Byte.x00.

Definition encodeHex (pub : bytes) : bytes :=
  mjoin ((fun b => [hexDigit (Z.shiftr (byteZ b) 4); hexDigit (Z.land (byteZ b) 15)]) <$> pub).

(** [func nodeIDFromPub(pub ed25519.PublicKey) NodeID]. *)
Definition nodeIDFromPub (pub : bytes) : NodeID := ofBytes (encodeHex pub).

(** ** Signing and verification *)
Section signatures.
Context `{Ed25519}.

(** [func signRecord(r *Record, priv ed25519.PrivateKey)]: the record after the call. *)
Definition signRecord (r : Record_) (priv : bytes) : Record_ :=
  let r1 := mkRecord (r_Topic r) (r_NodeID r) (r_HLC r) (r_Body r) (r_Tombstone r)
              (ed_public priv) (r_Sig r) (r_Key r) (r_ObserverNodeID r)
              (r_ObservedAtUnixMs r) in
  mkRecord (r_Topic r1) (r_NodeID r1) (r_HLC r1) (r_Body r1) (r_Tombstone r1)
    (r_PubKey r1) (ed_sign priv (signableBytes r1)) (r_Key r1) (r_ObserverNodeID r1)
    (r_ObservedAtUnixMs r1).

(** [func verifyRecord(r Record, pub ed25519.PublicKey) bool]. *)
Definition verifyRecord (r : Record_) (pub : bytes) : bool :=
  if negb (len (r_Sig r) =? SignatureSize) then false
  else ed_verify pub (signableBytes r) (r_Sig r).

(** [func VerifyRecord(r Record) bool]: the exported, stricter check. *)
Definition VerifyRecord (r : Record_) : bool :=
  match pubFromNodeID (r_NodeID r) with
  | None => false
  | Some pub =>
      if negb (len (r_PubKey r) =? 0) && negb (bool_decide (r_PubKey r = pub))
      then false
      else verifyRecord r pub
  end.
End signatures.

(** ** Lemmas on the encodings *)

Lemma be_put_app_inj n x y a b :
  0 <= x < 2 ^ (8 * Z.of_nat n) -> 0 <= y < 2 ^ (8 * Z.of_nat n) ->
  be_put n x ++ a = be_put n y ++ b -> x = y /\ a = b.
Proof.
  intros Hx Hy E. apply app_inj_1 in E as [E ->]; [|by rewrite !length_be_put].
  by apply be_put_inj in E.
Qed.

(** A length-prefixed field has a determined end. *)
Lemma prefixed_inj n (a b x y : bytes) :
  len a < 2 ^ (8 * Z.of_nat n) -> len b < 2 ^ (8 * Z.of_nat n) ->
  be_put n (len a) ++ a ++ x = be_put n (len b) ++ b ++ y -> a = b /\ x = y.
Proof.
  unfold len. intros Ha Hb E. apply be_put_app_inj in E as [El E]; [|lia|lia].
  apply app_inj_1 in E; [done|lia].
Qed.

Lemma u16_len {A} (l : list A) : len l < 2 ^ 16 -> u16 (len l) = len l.
Proof. unfold u16, len. intros. apply Z.mod_small. lia. Qed.
Lemma u32_len {A} (l : list A) : len l < 2 ^ 32 -> u32 (len l) = len l.
Proof. unfold u32, len. intros. apply Z.mod_small. lia. Qed.
Lemma slen_toBytes s : slen s = len (toBytes s).
Proof. unfold slen, len. by rewrite length_toBytes. Qed.

Lemma u64_inj_i64 x y : is_i64 x -> is_i64 y -> u64 x = u64 y -> x = y.
Proof. intros Hx Hy E%(f_equal i64). by rewrite !i64_u64 in E. Qed.

Lemma bool_byte_inj (a b : bool) :
  (if a then Byte.x01 else Byte.x00) = (if b then Byte.x01 else Byte.x00) -> a = b.
Proof. by destruct a, b. Qed.

Lemma len_nonneg {A} (l : list A) : 0 <= len l.
Proof. unfold len. lia. Qed.

Lemma len_nil_iff {A} (l : list A) : (0 <? len l) = false -> l = [].
Proof. intros E. bool_to_prop. destruct l; [done|]. unfold len in E. simpl in E. lia. Qed.

(** The conditional key suffix determines the key. *)
Lemma key_suffix_inj (a b : bytes) :
  len a < 2 ^ 16 -> len b < 2 ^ 16 ->
  (if 0 <? len a then be_put 2 (u16 (len a)) ++ a else []) =
  (if 0 <? len b then be_put 2 (u16 (len b)) ++ b else []) -> a = b.
Proof.
  intros Ha Hb. rewrite !u16_len by done.
  destruct (0 <? len a) eqn:Ea, (0 <? len b) eqn:Eb; intros E.
  - rewrite <- (app_nil_r a), <- (app_nil_r b) in E at 2.
    apply (prefixed_inj 2) in E as [-> _]; [done|done|done].
  - apply (f_equal length) in E. rewrite length_app, length_be_put in E. done.
  - apply (f_equal length) in E. rewrite length_app, length_be_put in E. done.
  - apply len_nil_iff in Ea, Eb. congruence.
Qed.

(** ** Lemmas on the hex encoding *)

Definition is_hex_of (b : byte) : bool :=
  match hexNibble (hexDigit (Z.shiftr (byteZ b) 4)),
        hexNibble (hexDigit (Z.land (byteZ b) 15)) with
  | Some hi, Some lo => Byte.eqb (byteOfZ (Z.lor (Z.shiftl hi 4) lo)) b
  | _, _ => false
  end.

Lemma is_hex_of_all b : is_hex_of b = true.
Proof. destruct b; vm_compute; reflexivity. Qed.

Lemma encodeHex_cons b pub :
  encodeHex (b :: pub) =
  hexDigit (Z.shiftr (byteZ b) 4) :: hexDigit (Z.land (byteZ b) 15) :: encodeHex pub.
Proof. reflexivity. Qed.

Lemma decode_encode pub : decodeHex (encodeHex pub) = Some pub.
Proof.
  induction pub as [|b pub IH]; [done|].
  rewrite encodeHex_cons. cbn [decodeHex]. pose proof (is_hex_of_all b) as Hb. unfold is_hex_of in Hb.
  destruct (hexNibble (hexDigit (Z.shiftr (byteZ b) 4))); [|done].
  destruct (hexNibble (hexDigit (Z.land (byteZ b) 15))); [|done].
  rewrite IH. apply Byte.byte_dec_bl in Hb. by rewrite Hb.
Qed.

Lemma length_encodeHex pub : length (encodeHex pub) = (2 * length pub)%nat.
Proof.
  induction pub as [|b pub IH]; [done|].
  rewrite encodeHex_cons. cbn [length]. rewrite IH. lia.
Qed.

(** ASCII lower-casing of a character, for the reading direction: upper-case hex digits
    are accepted but never produced. *)
Definition lowerByte (c : byte) : byte :=
  let z := byteZ c in if (65 <=? z) && (z <=? 90) then byteOfZ (z + 32) else c.

Definition nibble_ok (c : byte) : bool :=
  match hexNibble c with
  | Some n => (0 <=? n) && (n <? 16) && Byte.eqb (hexDigit n) (lowerByte c)
  | None => true
  end.

Lemma nibble_ok_all c : nibble_ok c = true.
Proof. destruct c; vm_compute; reflexivity. Qed.

Lemma hexNibble_spec c n :
  hexNibble c = Some n -> 0 <= n < 16 /\ hexDigit n = lowerByte c.
Proof.
  intros E. pose proof (nibble_ok_all c) as H. unfold nibble_ok in H. rewrite E in H.
  bool_to_prop. split; [lia|]. by apply Byte.byte_dec_bl.
Qed.

Lemma nibbles_join hi lo :
  0 <= hi < 16 -> 0 <= lo < 16 ->
  let b := byteOfZ (Z.lor (Z.shiftl hi 4) lo) in
  Z.shiftr (byteZ b) 4 = hi /\ Z.land (byteZ b) 15 = lo.
Proof.
  intros Hhi Hlo. simpl. rewrite byteZ_of.
  assert (Hall : forallb (fun h => forallb (fun l =>
      let v := Z.lor (Z.shiftl h 4) l mod 256 in
      (Z.shiftr v 4 =? h) && (Z.land v 15 =? l))
      (map Z.of_nat (List.seq 0 16))) (map Z.of_nat (List.seq 0 16)) = true)
    by (vm_compute; reflexivity).
  assert (Hin : forall z, 0 <= z < 16 -> In z (map Z.of_nat (List.seq 0 16))).
  { intros z Hz. apply in_map_iff. exists (Z.to_nat z). split; [lia|]. apply in_seq. lia. }
  rewrite forallb_forall in Hall. specialize (Hall hi (Hin hi Hhi)). cbv beta in Hall.
  rewrite forallb_forall in Hall. specialize (Hall lo (Hin lo Hlo)). cbv beta zeta in Hall.
  by bool_to_prop.
Qed.

Lemma encode_decode n s pub :
  length s = (2 * n)%nat -> decodeHex s = Some pub -> encodeHex pub = map lowerByte s.
Proof.
  revert s pub. induction n as [|n IH]; intros s pub Hl.
  - destruct s; [|done]. by intros [= <-].
  - destruct s as [|c1 [|c2 s]]; simpl in Hl; [lia|lia|]. cbn [decodeHex].
    destruct (hexNibble c1) as [hi|] eqn:E1; [|done].
    destruct (hexNibble c2) as [lo|] eqn:E2; [|done].
    destruct (decodeHex s) as [rest|] eqn:E3; [|done]. intros [= <-]. cbn [map].
    apply hexNibble_spec in E1 as [R1 <-]. apply hexNibble_spec in E2 as [R2 <-].
    destruct (nibbles_join hi lo R1 R2) as [H1 H2].
    rewrite encodeHex_cons, H1, H2. do 2 f_equal. apply IH; [lia|done].
Qed.

Lemma pubFromNodeID_spec id pub :
  pubFromNodeID id = Some pub <->
  length (toBytes id) = 64%nat /\ decodeHex (toBytes id) = Some pub.
Proof.
  unfold pubFromNodeID, PublicKeySize. rewrite slen_toBytes. unfold len.
  destruct (negb _) eqn:E; bool_to_prop; split; intros; try done.
  - destruct_and!. lia.
  - split; [lia|done].
  - by destruct_and!.
Qed.

Lemma pub_of_nodeID pub : length pub = 32%nat -> pubFromNodeID (nodeIDFromPub pub) = Some pub.
Proof.
  intros Hl. apply pubFromNodeID_spec. unfold nodeIDFromPub. rewrite toBytes_ofBytes.
  split; [rewrite length_encodeHex; lia|apply decode_encode].
Qed.

Lemma decodeHex_length n s pub :
  length s = (2 * n)%nat -> decodeHex s = Some pub -> length pub = n.
Proof.
  intros Hl E. pose proof (encode_decode n s pub Hl E) as H%(f_equal length).
  rewrite length_encodeHex, length_map in H. lia.
Qed.

(** ** Sizes under which the layout is unambiguous *)

(** Every length fits its prefix and the integers are machine values. *)
Definition encodable (r : Record_) : Prop :=
  slen (r_Topic r) < 2 ^ 16 /\ len (r_Body r) < 2 ^ 32 /\
  slen (r_ObserverNodeID r) < 2 ^ 16 /\ slen (r_Key r) <= MaxKeyBytes /\
  record_in_range r.

Definition manifest_encodable (m : manifestSig) : Prop :=
  length (m_BlobHash m) = 32%nat /\ Forall (fun c => length c = 32%nat) (m_Chunks m) /\
  len (m_Chunks m) < 2 ^ 32 /\ slen (m_Filename m) < 2 ^ 16 /\
  slen (m_Mime m) < 2 ^ 16 /\ len (m_Publisher m) < 2 ^ 16 /\
  is_u64 (m_TotalSize m) /\ 0 <= m_ChunkSize m < 2 ^ 32 /\ is_i64 (m_PublishedAt m).

(** Concatenations of equally many 32-byte chunks split one way. *)
Lemma chunks_inj (l1 l2 : list bytes) x y :
  Forall (fun c => length c = 32%nat) l1 -> Forall (fun c => length c = 32%nat) l2 ->
  length l1 = length l2 -> mjoin l1 ++ x = mjoin l2 ++ y -> l1 = l2 /\ x = y.
Proof.
  intros H1. revert l2. induction H1 as [|c l1 Hc H1 IH]; intros [|d l2] H2 Hl E;
    simpl in *; try done.
  apply Forall_cons in H2 as [Hd H2]. rewrite <- !app_assoc in E.
  apply app_inj_1 in E as [-> E]; [|congruence].
  destruct (IH l2 H2 ltac:(lia) E) as [-> ->]. done.
Qed.

(** A signed record verifies under the public half of the signing key. *)
Lemma verify_signRecord `{Ed25519Laws} r priv :
  ed_key priv -> verifyRecord (signRecord r priv) (ed_public priv) = true.
Proof.
  intros Hk. unfold verifyRecord, SignatureSize, len. cbn [r_Sig signRecord].
  rewrite ed_sign_length by done. simpl.
  match goal with |- ed_verify _ ?m (ed_sign _ ?m') = _ => change m with m' end.
  by apply ed_verify_sign.
Qed.
