(* ===== verification/SigSpec.v ===== *)
(** * Properties of record signatures

    What src/sig.go promises: the canonical bytes determine the record, NodeIDs and
    public keys correspond, and [VerifyRecord] binds the signature to the NodeID. *)
From S2P Require Import Prelude Types Crypto Sig.

(** C23: the signing bytes determine every signed field. Two records whose lengths fit
    their prefixes, whose NodeIDs have one length and whose public keys have one
    length, and whose canonical bytes agree, are the same record up to the signature:
    topic, NodeID, HLC, body, tombstone flag, public key, observer fields and slot key
    all agree, so none can be exchanged under a valid signature. *)
Theorem signableBytes_injective (r1 r2 : Record_) :
  encodable r1 -> encodable r2 ->
  slen (r_NodeID r1) = slen (r_NodeID r2) -> len (r_PubKey r1) = len (r_PubKey r2) ->
  signableBytes r1 = signableBytes r2 ->
  exists sig, r1 = mkRecord (r_Topic r2) (r_NodeID r2) (r_HLC r2) (r_Body r2)
    (r_Tombstone r2) (r_PubKey r2) sig (r_Key r2) (r_ObserverNodeID r2)
    (r_ObservedAtUnixMs r2).
Proof.
  intros (Ht1 & Hb1 & Ho1 & Hk1 & Hh1 & Ha1) (Ht2 & Hb2 & Ho2 & Hk2 & Hh2 & Ha2) Hn Hp.
  unfold signableBytes, MaxKeyBytes in *. cbv zeta. rewrite !slen_toBytes in *.
  rewrite !(u16_len (toBytes (r_Topic _))), !(u16_len (toBytes (r_ObserverNodeID _))),
    !u32_len by done.
  intros E. apply (prefixed_inj 2) in E as [Et E]; [|done|done].
  apply app_inj_1 in E as [En E]; [|unfold len in Hn; lia].
  apply be_put_app_inj in E as [Eh E]; [|done|done].
  apply app_inj_1 in E as [[= Eb%bool_byte_inj] E]; [|done].
  apply (prefixed_inj 4) in E as [Ebody E]; [|done|done].
  apply app_inj_1 in E as [Epk E]; [|unfold len in Hp; lia].
  apply (prefixed_inj 2) in E as [Eo E]; [|done|done].
  apply be_put_app_inj in E as [Ea Ek]; [|apply u64_range|apply u64_range].
  apply u64_inj_i64 in Ea; [|done|done].
  apply key_suffix_inj, toBytes_inj in Ek; [|lia|lia].
  apply toBytes_inj in Et, En, Eo.
  exists (r_Sig r1). destruct r1, r2; simpl in *; congruence.
Qed.

Definition keyed_record (key : string) : Record_ :=
  mkRecord "fleet.latency" "n1" 7 (toBytes "12ms") false (repeat Byte.x00 32) [] key "" 0.

(** Re-labelling a record with a slot key, or moving it between keys, changes the bytes. *)
Lemma signableBytes_injective_witness :
  signableBytes (keyed_record "peer-a") <> signableBytes (keyed_record "peer-b") /\
  signableBytes (keyed_record "peer-a") <> signableBytes (keyed_record "").
Proof.
  split; intros E; apply signableBytes_injective in E as [sig E]; try reflexivity;
    try (repeat split; vm_compute; congruence); discriminate E.
Defined.

(** The premise on the NodeID lengths cannot be dropped: NodeIDs carry no length prefix.
    Any record whose body starts with an encoded header has the same canonical bytes as
    a record with a longer NodeID, the header's HLC and tombstone flag and the rest of
    the body. *)
Definition absorbed (r : Record_) (hlc2 : Z) (tomb2 : bool) (body2 : bytes) : Record_ :=
  mkRecord (r_Topic r) (r_NodeID r) (r_HLC r)
    (be_put 8 hlc2 ++ [if tomb2 then Byte.x01 else Byte.x00] ++
     be_put 4 (u32 (len body2)) ++ body2)
    (r_Tombstone r) (r_PubKey r) (r_Sig r) (r_Key r) (r_ObserverNodeID r)
    (r_ObservedAtUnixMs r).

Definition relocated (r : Record_) (hlc2 : Z) (tomb2 : bool) (body2 : bytes) : Record_ :=
  mkRecord (r_Topic r)
    (ofBytes (toBytes (r_NodeID r) ++ be_put 8 (r_HLC r) ++
       [if r_Tombstone r then Byte.x01 else Byte.x00] ++
       be_put 4 (u32 (len (r_Body (absorbed r hlc2 tomb2 body2))))))
    hlc2 body2 tomb2 (r_PubKey r) (r_Sig r) (r_Key r) (r_ObserverNodeID r)
    (r_ObservedAtUnixMs r).

(** With NodeIDs of unequal lengths the canonical bytes are ambiguous: a record
    whose body has the shape of an encoded header verifies, with the same signature
    and public key, as a record of another NodeID with an HLC, tombstone flag and body
    of the author's choice. *)
Theorem signableBytes_nodeid_ambiguous `{Ed25519} (r : Record_) (hlc2 : Z)
    (tomb2 : bool) (body2 : bytes) :
  let r1 := absorbed r hlc2 tomb2 body2 in
  let r2 := relocated r hlc2 tomb2 body2 in
  signableBytes r1 = signableBytes r2 /\
  r_NodeID r1 <> r_NodeID r2 /\
  (forall pub, verifyRecord r1 pub = verifyRecord r2 pub).
Proof.
  simpl. assert (E : signableBytes (absorbed r hlc2 tomb2 body2) =
      signableBytes (relocated r hlc2 tomb2 body2)).
  { unfold signableBytes. simpl. rewrite toBytes_ofBytes. simplify_list_eq. done. }
  split_and!; [done| |].
  - intros En%(f_equal toBytes). cbn [r_NodeID relocated absorbed] in En.
    rewrite toBytes_ofBytes in En. apply (f_equal length) in En.
    rewrite !length_app, length_be_put in En. lia.
  - intros pub. unfold verifyRecord. by rewrite E.
Qed.

(** NodeIDs are the hex form of public keys: decoding inverts encoding for every
    32-byte key; what decodes has 64 characters, and encodes back to its lower-case
    form, so exactly one lower-case NodeID belongs to a key. *)
Theorem nodeID_pub_roundtrip (pub : bytes) (id : NodeID) :
  length pub = 32%nat ->
  pubFromNodeID (nodeIDFromPub pub) = Some pub /\
  (pubFromNodeID id = Some pub <->
     length (toBytes id) = 64%nat /\
     toBytes (nodeIDFromPub pub) = map lowerByte (toBytes id) /\
     decodeHex (toBytes id) <> None).
Proof.
  intros Hp. split.
  - apply pubFromNodeID_spec. unfold nodeIDFromPub. rewrite toBytes_ofBytes.
    rewrite length_encodeHex, Hp. split; [done|apply decode_encode].
  - rewrite pubFromNodeID_spec. unfold nodeIDFromPub. rewrite toBytes_ofBytes.
    split.
    + intros [Hl E]. split_and!; [done| |by rewrite E].
      by apply (encode_decode 32).
    + intros (Hl & Hlow & Hd). split; [done|].
      destruct (decodeHex (toBytes id)) as [pub'|] eqn:E; [|done].
      apply (encode_decode 32) in E; [|done]. rewrite <- E in Hlow.
      apply (f_equal decodeHex) in Hlow. rewrite !decode_encode in Hlow. congruence.
Qed.

Lemma nodeID_pub_roundtrip_witness :
  let pub := ed_public (Ed25519 := ToyEd25519.scheme) (ToyEd25519.key 1) in
  let upper := ofBytes (map (fun c => if Byte.eqb c "f"%byte then "F"%byte else c)
                 (toBytes (nodeIDFromPub pub))) in
  pubFromNodeID (nodeIDFromPub pub) = Some pub /\ pubFromNodeID upper = Some pub /\
  upper <> nodeIDFromPub pub.
Proof.
  split; [apply (nodeID_pub_roundtrip _ ""); vm_compute; reflexivity|].
  split; [|vm_compute; discriminate].
  apply nodeID_pub_roundtrip; [vm_compute; reflexivity|].
  split; [vm_compute; reflexivity|]. split; [vm_compute; reflexivity|].
  vm_compute. discriminate.
Defined.

(** C35: [VerifyRecord] accepts exactly the records whose 64-byte signature verifies
    under the key their NodeID encodes, with an empty or equal PubKey field; a record
    signed with the key behind its NodeID is accepted, and one that carries any other
    key is rejected whatever its signature is. *)
Theorem VerifyRecord_binds `{Ed25519Laws} (r : Record_) :
  (VerifyRecord r = true <->
     exists pub, pubFromNodeID (r_NodeID r) = Some pub /\
       (r_PubKey r = [] \/ r_PubKey r = pub) /\ length (r_Sig r) = 64%nat /\
       ed_verify pub (signableBytes r) (r_Sig r) = true) /\
  (forall priv, ed_key priv -> r_NodeID r = nodeIDFromPub (ed_public priv) ->
     VerifyRecord (signRecord r priv) = true) /\
  (r_PubKey r <> [] -> pubFromNodeID (r_NodeID r) <> Some (r_PubKey r) ->
     VerifyRecord r = false).
Proof.
  unfold VerifyRecord, verifyRecord, SignatureSize.
  assert (Hlen : forall sig : bytes, (len sig =? 64) = true <-> length sig = 64%nat).
  { intros sig. unfold len. rewrite Z.eqb_eq. lia. }
  split_and!.
  - destruct (pubFromNodeID (r_NodeID r)) as [pub|]; [|naive_solver].
    assert (Hpk : negb (len (r_PubKey r) =? 0) && negb (bool_decide (r_PubKey r = pub))
        = false <-> r_PubKey r = [] \/ r_PubKey r = pub).
    { rewrite andb_false_iff, !negb_false_iff, bool_decide_eq_true, Z.eqb_eq.
      destruct (r_PubKey r); [tauto|]. unfold len. simpl.
      split; [intros [?|?]; [lia|auto]|intros [?|?]; [done|auto]]. }
    destruct (_ && _)%bool; [split; [done|]|].
    + intros (p & [= <-] & Hor & _). by apply Hpk in Hor.
    + destruct (negb _) eqn:El; bool_to_prop.
      * split; [done|]. intros (p & [= <-] & _ & Hl & _). unfold len in El. lia.
      * apply Z.eqb_eq, Hlen in El. split; [intros Hv|intros (p & [= <-] & _ & _ & Hv)].
        -- exists pub. split_and!; [done|by apply Hpk|done|done].
        -- done.
  - intros priv Hk Hid. pose proof (verify_signRecord r priv Hk) as Hv.
    unfold verifyRecord, SignatureSize in Hv. cbn [r_NodeID r_PubKey signRecord].
    rewrite Hid, (proj2 (pubFromNodeID_spec _ (ed_public priv))).
    + by rewrite (bool_decide_eq_true_2 (ed_public priv = ed_public priv)), andb_false_r.
    + unfold nodeIDFromPub. rewrite toBytes_ofBytes, length_encodeHex, ed_public_length by done.
      split; [done|apply decode_encode].
  - intros Hne Hpub. destruct (pubFromNodeID (r_NodeID r)) as [pub|]; [|done].
    rewrite (bool_decide_eq_false_2 (r_PubKey r = pub)) by congruence.
    destruct (r_PubKey r); [done|]. done.
Qed.

Definition unsigned_record (claimed : Z) : Record_ :=
  mkRecord "fleet.peer" (nodeIDFromPub (drop 32 (ToyEd25519.key claimed))) 5
    (toBytes "hi") false [] [] "" "" 0.

(** The record of key 1 under its own NodeID is accepted; signed by key 2 it is not, though
    the internal check against the embedded key passes. *)
Lemma VerifyRecord_binds_witness :
  @VerifyRecord ToyEd25519.scheme
    (@signRecord ToyEd25519.scheme (unsigned_record 1) (ToyEd25519.key 1)) = true /\
  let forged := @signRecord ToyEd25519.scheme (unsigned_record 1) (ToyEd25519.key 2) in
  @VerifyRecord ToyEd25519.scheme forged = false /\
  @verifyRecord ToyEd25519.scheme forged (r_PubKey forged) = true.
Proof.
  pose proof (@VerifyRecord_binds ToyEd25519.scheme ToyEd25519.laws (unsigned_record 1))
    as (_ & Hgood & _).
  pose proof (@VerifyRecord_binds ToyEd25519.scheme ToyEd25519.laws
    (@signRecord ToyEd25519.scheme (unsigned_record 1) (ToyEd25519.key 2)))
    as (_ & _ & Hforged).
  split; [|split].
  - apply Hgood; vm_compute; reflexivity.
  - apply Hforged; vm_compute; discriminate.
  - vm_compute. reflexivity.
Defined.

(** The signing bytes of a manifest determine it: a manifest with 32-byte hashes and
    lengths that fit their prefixes shares its canonical bytes with no other. *)
Theorem signableManifestBytes_injective (m1 m2 : manifestSig) :
  manifest_encodable m1 -> manifest_encodable m2 ->
  signableManifestBytes m1 = signableManifestBytes m2 -> m1 = m2.
Proof.
  intros (Hb1 & Hc1 & Hn1 & Hf1 & Hm1 & Hp1 & Ht1 & Hs1 & Ha1)
    (Hb2 & Hc2 & Hn2 & Hf2 & Hm2 & Hp2 & Ht2 & Hs2 & Ha2).
  unfold signableManifestBytes. rewrite !slen_toBytes in *.
  rewrite !u32_len, !u16_len by done. intros E.
  apply app_inj_1 in E as [Eb E]; [|congruence].
  apply be_put_app_inj in E as [Et E]; [|done|done].
  apply be_put_app_inj in E as [Es E]; [|done|done].
  apply be_put_app_inj in E as [En E];
    [|pose proof (len_nonneg (m_Chunks m1)); lia|pose proof (len_nonneg (m_Chunks m2)); lia].
  apply chunks_inj in E as [Ec E]; [|done|done|unfold len in En; lia].
  apply (prefixed_inj 2) in E as [Ef E]; [|done|done].
  apply (prefixed_inj 2) in E as [Em E]; [|done|done].
  apply be_put_app_inj in E as [Ea E]; [|apply u64_range|apply u64_range].
  apply u64_inj_i64 in Ea; [|done|done].
  rewrite <- (app_nil_r (m_Publisher m1)), <- (app_nil_r (m_Publisher m2)) in E at 2.
  apply (prefixed_inj 2) in E as [Epub _]; [|done|done].
  apply toBytes_inj in Ef, Em. destruct m1, m2; simpl in *; congruence.
Qed.

Lemma signableManifestBytes_injective_witness :
  let m size := mkManifestSig (repeat Byte.x01 32) size 4 [repeat Byte.x02 32] "a" "b" 9 [] in
  signableManifestBytes (m 4) <> signableManifestBytes (m 5).
Proof.
  intros m E. apply signableManifestBytes_injective in E; [discriminate E|..];
    (split_and!; [reflexivity|repeat constructor|machine..]).
Defined.
