(* ===== verification/Crdt.v ===== *)
(** * The delta-CRDT record store (src/crdt.go)

    [recordStore] with its topic stores, the merge of owner records, the accumulation of
    observer attestations up to the synthesised tombstone, the reads, and retention.

    The clock [s.nowFn] is read at most once in an operation; an operation takes the
    milliseconds it returned. The store lock makes each operation atomic, so an
    operation is a function from store to store. *)
From S2P Require Import Prelude Types Hlc.

(** [type topicStore struct]. *)
Record topicStore := mkTopic {
  records : gmap recordKey Record_;
  attestations : gmap NodeID (gmap NodeID Record_);
  restoredAtUnixMs : gmap NodeID Z
}.

(** [type recordStore struct], without the mutex and [nowFn]. *)
Record recordStore := mkStore {
  byTopic : gmap Topic topicStore;
  observerQuorum : Z;
  observerCorroborationWindow : Z;
  observerRoleCheck : option (NodeID -> bytes -> bool);
  maxTopics : Z;
  maxRecordsPerTopic : Z;
  maxKeysPerNode : Z;
  maxAttestations : Z;
  rejectedCap : Z
}.

Definition set_byTopic (s : recordStore) (m : gmap Topic topicStore) : recordStore :=
  mkStore m (observerQuorum s) (observerCorroborationWindow s) (observerRoleCheck s)
    (maxTopics s) (maxRecordsPerTopic s) (maxKeysPerNode s) (maxAttestations s)
    (rejectedCap s).

(** [s.rejectedCap++]. *)
Definition incr_rejectedCap (s : recordStore) : recordStore :=
  mkStore (byTopic s) (observerQuorum s) (observerCorroborationWindow s)
    (observerRoleCheck s) (maxTopics s) (maxRecordsPerTopic s) (maxKeysPerNode s)
    (maxAttestations s) (u64 (rejectedCap s + 1)).

Definition set_records (ts : topicStore) m := mkTopic m (attestations ts) (restoredAtUnixMs ts).
Definition set_attestations (ts : topicStore) m := mkTopic (records ts) m (restoredAtUnixMs ts).
Definition set_restoredAt (ts : topicStore) m := mkTopic (records ts) (attestations ts) m.

(** The fresh topic store [ApplyExt] allocates. *)
Definition newTopicStore : topicStore := mkTopic ∅ ∅ ∅.

(** [func (s *recordStore) setCaps]. *)
Definition setCaps (s : recordStore) (mTopics mRecords mKeys mAtts : Z) : recordStore :=
  let mTopics := if mTopics <=? 0 then 4096 else mTopics in
  let mRecords := if mRecords <=? 0 then 65536 else mRecords in
  let mKeys := if mKeys <=? 0 then DefaultMaxKeysPerNodePerTopic else mKeys in
  let mAtts := if mAtts <=? 0 then 64 else mAtts in
  mkStore (byTopic s) (observerQuorum s) (observerCorroborationWindow s)
    (observerRoleCheck s) mTopics mRecords mKeys mAtts (rejectedCap s).

(** [func newRecordStore() *recordStore]. *)
Definition newRecordStore : recordStore :=
  setCaps (mkStore ∅ DefaultObserverQuorum DefaultObserverCorroborationWindow None
             0 0 0 0 0) 0 0 0 0.

(** [func (s *recordStore) SetObserverRoleCheck]. *)
Definition SetObserverRoleCheck (s : recordStore) (fn : option (NodeID -> bytes -> bool))
    : recordStore :=
  mkStore (byTopic s) (observerQuorum s) (observerCorroborationWindow s) fn
    (maxTopics s) (maxRecordsPerTopic s) (maxKeysPerNode s) (maxAttestations s)
    (rejectedCap s).

(** [func (s *recordStore) SetObserverQuorum]. *)
Definition SetObserverQuorum (s : recordStore) (k w : Z) : recordStore :=
  if (k <? 1) || (w <=? 0) then s
  else mkStore (byTopic s) k w (observerRoleCheck s) (maxTopics s) (maxRecordsPerTopic s)
         (maxKeysPerNode s) (maxAttestations s) (rejectedCap s).

(** [func sigLess(a, b []byte) bool]. *)
Definition sigLess (a b : bytes) : bool := lex_less a b.

(** The entries of one node among the slots of a topic: what the loops
    [for k := range ts.records { if k.NodeID == node ... }] visit. *)
Definition slotsOf (node : NodeID) (m : gmap recordKey Record_) : gmap recordKey Record_ :=
  filter (fun kv => k_NodeID kv.1 = node) m.

(** [func (ts *topicStore) nodePresent(node NodeID) bool]. *)
Definition nodePresent (ts : topicStore) (node : NodeID) : bool :=
  negb (mlen (slotsOf node (records ts)) =? 0).

Section store.
Context `{MapOrder}.

(** [func (ts *topicStore) nodeSlots(node NodeID) []recordKey]. *)
Definition nodeSlots (ts : topicStore) (node : NodeID) : list recordKey :=
  sort_by id lessRecordKey (map_order (slotsOf node (records ts))).*1.

(** [func (ts *topicStore) nodeDeadAtOrAbove(node NodeID, hlc uint64)]. *)
Definition nodeDeadAtOrAbove (ts : topicStore) (node : NodeID) (hlc : Z) : bool * bool :=
  let '(had, allDead) :=
    foldl (fun '(had, allDead) '(_, r) =>
             (true, if negb (r_Tombstone r) || (r_HLC r <? hlc) then false else allDead))
      (false, true) (map_order (slotsOf node (records ts))) in
  (had, had && allDead).

(** The synthesised tombstone of a target, for the slot with key [key]. *)
Definition synthTombstone (topic : Topic) (node : NodeID) (key : string) (hlc : Z)
    : Record_ := mkRecord topic node hlc [] true [] [] key "" 0.

(** One iteration of the loop over the target's slots: the current record of a slot
    with a lower HLC is replaced by the tombstone. *)
Definition entombSlot (topic : Topic) (node : NodeID) (hlc : Z)
    (a : gmap recordKey Record_ * bool) (k : recordKey) : gmap recordKey Record_ * bool :=
  let '(m, applied) := a in
  let cur := default (synthTombstone "" "" "" 0) (m !! k) in
  if hlc >? r_HLC cur
  then (<[k := synthTombstone topic node (k_Key k) hlc]> m, true)
  else (m, applied).

(** [func (s *recordStore) applyAttestationLocked]: the store, the topic store and
    (applied, replaced, accumulated). *)
Definition applyAttestationLocked (nowMs : Z) (s : recordStore) (ts : topicStore)
    (att : Record_) : recordStore * topicStore * (bool * bool * bool) :=
  let target := r_NodeID att in
  if match observerRoleCheck s with
     | Some fn => negb (fn (r_ObserverNodeID att) (r_PubKey att))
     | None => false
     end
  then (s, ts, (false, false, false)) else
  if r_ObservedAtUnixMs att >? i64 (nowMs + Milliseconds observerForwardSkewBudget)
  then (s, ts, (false, false, false)) else
  if match restoredAtUnixMs ts !! target with
     | Some hwm => r_ObservedAtUnixMs att <=? hwm
     | None => false
     end
  then (s, ts, (false, false, false)) else
  let '(had, allDead) := nodeDeadAtOrAbove ts target (r_HLC att) in
  if had && allDead then (s, ts, (false, true, false)) else
  let set := default ∅ (attestations ts !! target) in
  let ts := set_attestations ts (<[target := set]> (attestations ts)) in
  if match set !! r_ObserverNodeID att with
     | Some cur => (r_ObservedAtUnixMs att <=? r_ObservedAtUnixMs cur) &&
                   (r_HLC att <=? r_HLC cur)
     | None => false
     end
  then (s, ts, (false, true, false)) else
  if bool_decide (set !! r_ObserverNodeID att = None) && (mlen set >=? maxAttestations s)
  then (incr_rejectedCap s, ts, (false, true, false)) else
  let set := <[r_ObserverNodeID att := att]> set in
  let newest := loop_max (fun e => r_ObservedAtUnixMs e.2) 0 (map_order set) in
  let winMs := Milliseconds (observerCorroborationWindow s) in
  let set :=
    filter (fun e => negb (i64 (newest - r_ObservedAtUnixMs e.2) >? winMs) = true) set in
  if mlen set <? observerQuorum s then
    let atts := if mlen set =? 0 then delete target (attestations ts)
                else <[target := set]> (attestations ts) in
    let ts := set_attestations ts atts in
    (s, ts, (false, nodePresent ts target, true))
  else
    let ts := set_attestations ts (<[target := set]> (attestations ts)) in
    let maxHLC := loop_max (fun e => r_HLC e.2) 0 (map_order set) in
    let hlc := u64 (maxHLC + 1) in
    let slots := nodeSlots ts target in
    match slots with
    | [] =>
        let tomb := synthTombstone (r_Topic att) target "" hlc in
        (s, set_records ts (<[mkKey target "" := tomb]> (records ts)),
         (true, false, true))
    | _ =>
        let '(recs, applied) :=
          foldl (entombSlot (r_Topic att) target hlc) (records ts, false) slots in
        (s, set_records ts recs, (applied, true, true))
    end.

(** The stamp of the restored-at high-water-mark by a live owner record. *)
Definition stampRestored (nowMs : Z) (r : Record_) (ts : topicStore) : topicStore :=
  if negb (r_Tombstone r)
  then set_restoredAt ts (<[r_NodeID r := nowMs]> (restoredAtUnixMs ts))
  else ts.

(** The record comparison of the merge: higher HLC, ties by signature. *)
Definition newer (r cur : Record_) : bool :=
  (r_HLC r >? r_HLC cur) || ((r_HLC r =? r_HLC cur) && sigLess (r_Sig cur) (r_Sig r)).

(** The owner path of [ApplyExt]. *)
Definition applyOwner (nowMs : Z) (s : recordStore) (ts : topicStore) (r : Record_)
    : recordStore * topicStore * (bool * bool * bool) :=
  let slot := keyOf r in
  match records ts !! slot with
  | None =>
      if mlen (records ts) >=? maxRecordsPerTopic s
      then (incr_rejectedCap s, ts, (false, false, false)) else
      if (maxKeysPerNode s >? 0) &&
         (mlen (slotsOf (r_NodeID r) (records ts)) >=? maxKeysPerNode s)
      then (incr_rejectedCap s, ts, (false, false, false)) else
      let ts := set_records ts (<[slot := r]> (records ts)) in
      (s, stampRestored nowMs r ts, (true, false, false))
  | Some cur =>
      if newer r cur then
        let ts := set_records ts (<[slot := r]> (records ts)) in
        let ts := set_attestations ts (delete (r_NodeID r) (attestations ts)) in
        (s, stampRestored nowMs r ts, (true, true, false))
      else (s, ts, (false, true, false))
  end.

(** [func (s *recordStore) ApplyExt(r Record)]: the store and
    (applied, replaced, accumulated). *)
Definition ApplyExt (nowMs : Z) (s : recordStore) (r : Record_)
    : recordStore * (bool * bool * bool) :=
  match byTopic s !! r_Topic r with
  | None =>
      if mlen (byTopic s) >=? maxTopics s
      then (incr_rejectedCap s, (false, false, false)) else
      let '(s, ts, res) :=
        if IsObserverAttestation r
        then applyAttestationLocked nowMs s newTopicStore r
        else applyOwner nowMs s newTopicStore r in
      (set_byTopic s (<[r_Topic r := ts]> (byTopic s)), res)
  | Some ts =>
      let '(s, ts, res) :=
        if IsObserverAttestation r
        then applyAttestationLocked nowMs s ts r
        else applyOwner nowMs s ts r in
      (set_byTopic s (<[r_Topic r := ts]> (byTopic s)), res)
  end.

(** [func (s *recordStore) Apply(r Record) (applied bool, replaced bool)]. *)
Definition Apply (nowMs : Z) (s : recordStore) (r : Record_) : recordStore * (bool * bool) :=
  let '(s, (applied, replaced, _)) := ApplyExt nowMs s r in (s, (applied, replaced)).

(** ** Reads

    The defensive copies of [cloneRecord] are equal as values. *)

(** [func (s *recordStore) getRawKeyed]: the slot as stored. *)
Definition getRawKeyed (s : recordStore) (topic : Topic) (node : NodeID) (key : string)
    : option Record_ :=
  match byTopic s !! topic with
  | None => None
  | Some ts => records ts !! mkKey node key
  end.

(** [func (s *recordStore) getRaw]. *)
Definition getRaw (s : recordStore) (topic : Topic) (node : NodeID) : option Record_ :=
  getRawKeyed s topic node "".

(** [func (s *recordStore) GetKeyed]: live records only. *)
Definition GetKeyed (s : recordStore) (topic : Topic) (node : NodeID) (key : string)
    : option Record_ :=
  match byTopic s !! topic with
  | None => None
  | Some ts =>
      match records ts !! mkKey node key with
      | None => None
      | Some r => if r_Tombstone r then None else Some r
      end
  end.

(** [func (s *recordStore) Get]. *)
Definition Get (s : recordStore) (topic : Topic) (node : NodeID) : option Record_ :=
  GetKeyed s topic node "".

(** [func (s *recordStore) topicRecordsWhere]. *)
Definition topicRecordsWhere (s : recordStore) (topic : Topic) (keep : Record_ -> bool)
    : list Record_ :=
  match byTopic s !! topic with
  | None => []
  | Some ts =>
      let out := List.filter keep (map_order (records ts)).*2 in
      sort_by keyOf lessRecordKey out
  end.

(** [TopicRecords], [topicRecordsAll], [topicRecordsSigned]. *)
Definition TopicRecords (s : recordStore) (topic : Topic) : list Record_ :=
  topicRecordsWhere s topic (fun r => negb (r_Tombstone r)).
Definition topicRecordsAll (s : recordStore) (topic : Topic) : list Record_ :=
  topicRecordsWhere s topic (fun _ => true).
Definition topicRecordsSigned (s : recordStore) (topic : Topic) : list Record_ :=
  topicRecordsWhere s topic (fun r => len (r_Sig r) >? 0).

(** [func (s *recordStore) NodeRecords]. *)
Definition NodeRecords (s : recordStore) (topic : Topic) (node : NodeID) : list Record_ :=
  match byTopic s !! topic with
  | None => []
  | Some ts =>
      let keys := (List.filter (fun e => negb (r_Tombstone e.2))
                     (map_order (slotsOf node (records ts)))).*1 in
      omap (fun k => records ts !! k) (sort_by id lessRecordKey keys)
  end.

(** The order of [topicAttestations]: target, then observer. *)
Definition lessAttestation (a b : recordKey) : bool := lessRecordKey a b.

(** [func (s *recordStore) topicAttestations]. *)
Definition topicAttestations (s : recordStore) (topic : Topic) : list Record_ :=
  match byTopic s !! topic with
  | None => []
  | Some ts =>
      let out := mjoin ((fun e => (map_order e.2).*2) <$> map_order (attestations ts)) in
      sort_by (fun a => mkKey (r_NodeID a) (r_ObserverNodeID a)) lessAttestation out
  end.

(** [func (s *recordStore) Topics() []Topic]. *)
Definition Topics (s : recordStore) : list Topic :=
  sort_by id String.ltb (map_order (byTopic s)).*1.

(** [func (s *recordStore) Count() int]. *)
Definition Count (s : recordStore) : Z :=
  foldl (fun total e => total + mlen (records e.2)) 0 (map_order (byTopic s)).

(** [func (s *recordStore) TopicCount(topic Topic) int]. *)
Definition TopicCount (s : recordStore) (topic : Topic) : Z :=
  match byTopic s !! topic with None => 0 | Some ts => mlen (records ts) end.
End store.

(** ** Retention *)

(** The expiry test of [reapExpired]: live records at [ttl], tombstones at [2*ttl]. *)
Definition expired (nowMs ttlMs : Z) (r : Record_) : bool :=
  let wallMs := (Decompose (r_HLC r)).1 in
  let ageMs := i64 (nowMs - i64 wallMs) in
  (negb (r_Tombstone r) && (ageMs >? ttlMs)) ||
  (r_Tombstone r && (ageMs >? i64 (2 * ttlMs))).

(** One topic of [reapExpired]: [None] when the topic entry itself is deleted. *)
Definition reapTopic (nowMs ttl : Z) (ts : topicStore) : option topicStore * Z :=
  if ttl <=? 0 then (Some ts, 0) else
  let ttlMs := Milliseconds ttl in
  let recs := filter (fun e => expired nowMs ttlMs e.2 = false) (records ts) in
  let dropped := mlen (records ts) - mlen recs in
  let ts := set_records ts recs in
  let ts := set_restoredAt ts
              (filter (fun e => nodePresent ts e.1 = true) (restoredAtUnixMs ts)) in
  if (mlen (records ts) =? 0) && (mlen (attestations ts) =? 0)
  then (None, dropped) else (Some ts, dropped).

(** [func (s *recordStore) reapExpired(nowMs int64, ttlFor func(Topic) time.Duration) int]. *)
Definition reapExpired (s : recordStore) (nowMs : Z) (ttlFor : option (Topic -> Z))
    : recordStore * Z :=
  match ttlFor with
  | None => (s, 0)
  | Some ttl =>
      (set_byTopic s (map_imap (fun topic ts => (reapTopic nowMs (ttl topic) ts).1) (byTopic s)),
       map_fold (fun topic ts d => d + (reapTopic nowMs (ttl topic) ts).2) 0 (byTopic s))
  end.
