(* ===== verification/CrdtLemmas.v ===== *)
(** * Lemmas on the record store

    The merge order, the effect of each path of [ApplyExt] on the slots, the
    well-formedness invariant and its preservation, and the runs of a store over a
    sequence of inputs. *)
From S2P Require Import Prelude Types Hlc Crdt.

(** ** The merge order *)

Lemma newer_spec r c :
  newer r c = true <->
  r_HLC c < r_HLC r \/ (r_HLC r = r_HLC c /\ blt (r_Sig c) (r_Sig r) = true).
Proof.
  unfold newer, sigLess. rewrite lex_less_blt, orb_true_iff, andb_true_iff.
  rewrite Z.gtb_lt, Z.eqb_eq. tauto.
Qed.

Lemma newer_irrefl r : newer r r = false.
Proof. unfold newer, sigLess. rewrite lex_less_blt, blt_irrefl. rewrite andb_false_r. lia. Qed.

Lemma newer_trans a b c : newer a b = true -> newer b c = true -> newer a c = true.
Proof.
  rewrite !newer_spec. intros [?|[E1 ?]] [?|[E2 ?]]; try (left; lia).
  right. split; [congruence|]. eauto using blt_trans.
Qed.

Lemma newer_total a b :
  newer a b = true \/ (r_HLC a = r_HLC b /\ r_Sig a = r_Sig b) \/ newer b a = true.
Proof.
  rewrite !newer_spec.
  destruct (Z.lt_trichotomy (r_HLC a) (r_HLC b)) as [?|[?|?]]; auto.
  destruct (blt_trichotomy (r_Sig a) (r_Sig b)) as [?|[?|?]]; auto.
Qed.

(** [a] does not lose to [b]: transitive because [newer] is a strict weak order. *)
Lemma not_newer_trans a b c : newer a b = false -> newer b c = false -> newer a c = false.
Proof.
  intros H1 H2. destruct (newer a c) eqn:E; [|done].
  destruct (newer_total b c) as [?|[[E1 E2]|H]]; [congruence| |].
  - rewrite <- H1. rewrite newer_spec, <- E1, <- E2 in E. symmetry. by apply newer_spec.
  - pose proof (newer_trans _ _ _ E H). congruence.
Qed.

(** The value of a slot after merging [r]. *)
Definition join (o : option Record_) (r : Record_) : Record_ :=
  match o with None => r | Some cur => if newer r cur then r else cur end.

(** ** Slots and room *)

(** The record in a slot of a topic. *)
Definition slot (s : recordStore) (t : Topic) (k : recordKey) : option Record_ :=
  match byTopic s !! t with None => None | Some ts => records ts !! k end.

Lemma slot_getRawKeyed s t n key : slot s t (mkKey n key) = getRawKeyed s t n key.
Proof. done. Qed.

(** No cardinality cap stops the owner record [r]. *)
Definition room (s : recordStore) (r : Record_) : bool :=
  match byTopic s !! r_Topic r with
  | None => (mlen (byTopic s) <? maxTopics s) && (0 <? maxRecordsPerTopic s)
  | Some ts =>
      match records ts !! keyOf r with
      | Some _ => true
      | None =>
          (mlen (records ts) <? maxRecordsPerTopic s) &&
          ((maxKeysPerNode s <=? 0) ||
           (mlen (slotsOf (r_NodeID r) (records ts)) <? maxKeysPerNode s))
      end
  end.

(** The configuration part of a store: everything but topics and the counter. *)
Definition config (s : recordStore) :=
  (observerQuorum s, observerCorroborationWindow s, observerRoleCheck s,
   maxTopics s, maxRecordsPerTopic s, maxKeysPerNode s, maxAttestations s).

Lemma slotsOf_empty n : slotsOf n ∅ = ∅.
Proof. apply map_filter_empty. Qed.

Lemma lookup_slotsOf n (m : gmap recordKey Record_) k r :
  slotsOf n m !! k = Some r <-> m !! k = Some r /\ k_NodeID k = n.
Proof. unfold slotsOf. by rewrite map_lookup_filter_Some. Qed.

Lemma nodePresent_spec ts n :
  nodePresent ts n = true <-> exists k r, records ts !! k = Some r /\ k_NodeID k = n.
Proof.
  unfold nodePresent. rewrite negb_true_iff, Z.eqb_neq, mlen_zero. split.
  - intros Hne. apply map_choose in Hne as (k & r & Hk). apply lookup_slotsOf in Hk. eauto.
  - intros (k & r & Hk & Hn) E.
    assert (slotsOf n (records ts) !! k = Some r) by by apply lookup_slotsOf.
    rewrite E in *. by rewrite lookup_empty in *.
Qed.

(** What an attestation does to its topic store lives in the record map only through
    the synthesised tombstone; an owner record writes one slot. *)
Section facts.
Context `{MapOrder}.

(** *** The owner path *)

Lemma stampRestored_records nowMs r ts : records (stampRestored nowMs r ts) = records ts.
Proof. unfold stampRestored. by case_match. Qed.

Lemma applyOwner_room nowMs s ts r :
  (match records ts !! keyOf r with
   | Some _ => true
   | None => (mlen (records ts) <? maxRecordsPerTopic s) &&
             ((maxKeysPerNode s <=? 0) ||
              (mlen (slotsOf (r_NodeID r) (records ts)) <? maxKeysPerNode s))
   end) = true ->
  let cur := records ts !! keyOf r in
  exists ts',
    applyOwner nowMs s ts r =
      (s, ts', (match cur with None => true | Some c => newer r c end,
                match cur with None => false | Some _ => true end, false)) /\
    records ts' = <[keyOf r := join cur r]> (records ts) /\
    attestations ts' = (match cur with
                        | Some c => if newer r c then delete (r_NodeID r) (attestations ts)
                                    else attestations ts
                        | None => attestations ts end) /\
    restoredAtUnixMs ts' =
      (if negb (r_Tombstone r) && match cur with None => true | Some c => newer r c end
       then <[r_NodeID r := nowMs]> (restoredAtUnixMs ts) else restoredAtUnixMs ts).
Proof.
  intros Hroom. simpl. unfold applyOwner, stampRestored.
  destruct (records ts !! keyOf r) as [cur|] eqn:E; simpl.
  - destruct (newer r cur) eqn:En.
    + rewrite ?andb_true_r. eexists. split; [done|]. by destruct (r_Tombstone r).
    + exists ts. rewrite andb_false_r. split_and!; try done. by rewrite insert_id.
  - bool_to_prop. destruct (mlen (records ts) >=? maxRecordsPerTopic s) eqn:E1; [lia|].
    destruct ((maxKeysPerNode s >? 0) && _) eqn:E2; [bool_to_prop; lia|].
    eexists. split; [done|]. rewrite andb_true_r. by destruct (r_Tombstone r).
Qed.

(** The topic store an operation on topic [t] starts from. *)
Definition topicOf (s : recordStore) (t : Topic) : topicStore :=
  default newTopicStore (byTopic s !! t).

Lemma slot_topicOf s t k : slot s t k = records (topicOf s t) !! k.
Proof. unfold slot, topicOf. by destruct (byTopic s !! t). Qed.

Lemma topicOf_insert s t ts t' :
  topicOf (set_byTopic s (<[t := ts]> (byTopic s))) t' =
  if decide (t = t') then ts else topicOf s t'.
Proof. unfold topicOf. simpl. rewrite lookup_insert. by case_decide. Qed.

(** One path of [ApplyExt] for the topic, as a function of its topic store. *)
Definition applyTopic (nowMs : Z) (s : recordStore) (ts : topicStore) (r : Record_) :=
  if IsObserverAttestation r then applyAttestationLocked nowMs s ts r
  else applyOwner nowMs s ts r.

(** A new topic is refused at the cap. *)
Definition topic_capped (s : recordStore) (t : Topic) : bool :=
  match byTopic s !! t with None => mlen (byTopic s) >=? maxTopics s | Some _ => false end.

Lemma ApplyExt_unfold nowMs s r :
  ApplyExt nowMs s r =
  if topic_capped s (r_Topic r) then (incr_rejectedCap s, (false, false, false))
  else let '(s', ts', res) := applyTopic nowMs s (topicOf s (r_Topic r)) r in
       (set_byTopic s' (<[r_Topic r := ts']> (byTopic s')), res).
Proof.
  unfold ApplyExt, topic_capped, topicOf, applyTopic.
  destruct (byTopic s !! r_Topic r); simpl; [done|]. by case_match.
Qed.

(** Neither path touches the other topics or the configuration. *)
Lemma applyTopic_store nowMs s ts r :
  let '(s', _, _) := applyTopic nowMs s ts r in s' = s \/ s' = incr_rejectedCap s.
Proof.
  unfold applyTopic, applyAttestationLocked, applyOwner.
  repeat (case_match; simplify_eq; auto).
Qed.

Lemma ApplyExt_other nowMs s r t :
  t <> r_Topic r -> byTopic (ApplyExt nowMs s r).1 !! t = byTopic s !! t.
Proof.
  intros Ht. rewrite ApplyExt_unfold. case_match; [done|].
  pose proof (applyTopic_store nowMs s (topicOf s (r_Topic r)) r) as Hs.
  destruct (applyTopic _ _ _ _) as [[s' ts'] res]. simpl.
  rewrite lookup_insert_ne by done. by destruct Hs as [->| ->].
Qed.

Lemma ApplyExt_config nowMs s r : config (ApplyExt nowMs s r).1 = config s.
Proof.
  rewrite ApplyExt_unfold. case_match; [done|].
  pose proof (applyTopic_store nowMs s (topicOf s (r_Topic r)) r) as Hs.
  destruct (applyTopic _ _ _ _) as [[s' ts'] res]. simpl.
  by destruct Hs as [->| ->].
Qed.

Lemma room_topic s r :
  room s r = true ->
  topic_capped s (r_Topic r) = false /\
  (match records (topicOf s (r_Topic r)) !! keyOf r with
   | Some _ => true
   | None => (mlen (records (topicOf s (r_Topic r))) <? maxRecordsPerTopic s) &&
             ((maxKeysPerNode s <=? 0) ||
              (mlen (slotsOf (r_NodeID r) (records (topicOf s (r_Topic r))))
                 <? maxKeysPerNode s))
   end) = true.
Proof.
  unfold room, topic_capped, topicOf.
  destruct (byTopic s !! r_Topic r) as [ts|] eqn:E; simpl; [done|].
  rewrite lookup_empty, slotsOf_empty.
  change (mlen (∅ : gmap recordKey Record_)) with 0. intros Hr. bool_to_prop.
  split; [lia|]. apply andb_true_iff; split; [lia|].
  apply orb_true_iff. rewrite Z.leb_le, Z.ltb_lt. lia.
Qed.

Lemma ApplyExt_owner_room nowMs s r :
  IsObserverAttestation r = false -> room s r = true ->
  let cur := slot s (r_Topic r) (keyOf r) in
  let '(s', res) := ApplyExt nowMs s r in
  res = (match cur with None => true | Some c => newer r c end,
         match cur with None => false | Some _ => true end, false) /\
  (forall t k, slot s' t k =
     if decide (t = r_Topic r /\ k = keyOf r) then Some (join cur r) else slot s t k) /\
  attestations (topicOf s' (r_Topic r)) =
    (match cur with
     | Some c => if newer r c then delete (r_NodeID r) (attestations (topicOf s (r_Topic r)))
                 else attestations (topicOf s (r_Topic r))
     | None => attestations (topicOf s (r_Topic r)) end) /\
  restoredAtUnixMs (topicOf s' (r_Topic r)) =
    (if negb (r_Tombstone r) && match cur with None => true | Some c => newer r c end
     then <[r_NodeID r := nowMs]> (restoredAtUnixMs (topicOf s (r_Topic r)))
     else restoredAtUnixMs (topicOf s (r_Topic r))).
Proof.
  intros Ho Hroom. simpl. apply room_topic in Hroom as [Hcap Hroom].
  rewrite ApplyExt_unfold, Hcap. unfold applyTopic. rewrite Ho.
  destruct (applyOwner_room nowMs s _ r Hroom) as (ts' & E & Hrec & Hatt & Hres).
  rewrite E, !slot_topicOf. split; [done|].
  rewrite topicOf_insert, decide_True by done. split; [|by split].
  intros t k. rewrite !slot_topicOf, topicOf_insert.
  destruct (decide (r_Topic r = t)) as [<-|Ht].
  - rewrite Hrec, lookup_insert. repeat case_decide; naive_solver.
  - rewrite decide_False by naive_solver. done.
Qed.

Lemma slot_ApplyExt_owner nowMs s r t k :
  IsObserverAttestation r = false -> room s r = true ->
  slot (ApplyExt nowMs s r).1 t k =
    if decide (t = r_Topic r /\ k = keyOf r) then Some (join (slot s (r_Topic r) (keyOf r)) r)
    else slot s t k.
Proof.
  intros Ho Hr. pose proof (ApplyExt_owner_room nowMs s r Ho Hr) as Ha. cbv zeta in Ha.
  destruct (ApplyExt nowMs s r) as [s' res]. by destruct Ha as (_ & Hs & _).
Qed.

Lemma ApplyExt_owner_capped nowMs s r :
  IsObserverAttestation r = false -> room s r = false ->
  let '(s', res) := ApplyExt nowMs s r in
  res = (false, false, false) /\ (forall t, topicOf s' t = topicOf s t) /\
  rejectedCap s' = u64 (rejectedCap s + 1).
Proof.
  intros Ho Hroom. rewrite ApplyExt_unfold. unfold topic_capped, applyTopic. rewrite Ho.
  unfold room in Hroom.
  assert (Hsame : forall ts, topicOf s (r_Topic r) = ts ->
    forall t, topicOf (set_byTopic (incr_rejectedCap s)
      (<[r_Topic r := ts]> (byTopic (incr_rejectedCap s)))) t = topicOf s t).
  { intros ts Hts t. rewrite topicOf_insert. case_decide; naive_solver. }
  unfold applyOwner, topicOf in *.
  destruct (byTopic s !! r_Topic r) as [ts|] eqn:E; simpl in *.
  - destruct (records ts !! keyOf r) eqn:Ec; [done|].
    destruct (mlen (records ts) >=? maxRecordsPerTopic s) eqn:E1; [split_and!; [done|by apply Hsame|done]|].
    destruct ((maxKeysPerNode s >? 0) && _) eqn:E2;
      [split_and!; [done|by apply Hsame|done]|].
    exfalso. bool_to_prop. lia.
  - destruct (mlen (byTopic s) >=? maxTopics s) eqn:E1; [done|].
    rewrite lookup_empty. change (mlen (∅ : gmap recordKey Record_)) with 0.
    destruct (0 >=? maxRecordsPerTopic s) eqn:E2;
      [split_and!; [done|by apply Hsame|done]|].
    bool_to_prop. lia.
Qed.

(** *** The attestation path *)

Lemma elem_of_nodeSlots ts n k :
  k ∈ nodeSlots ts n <-> is_Some (records ts !! k) /\ k_NodeID k = n.
Proof.
  unfold nodeSlots. rewrite elem_of_sort_by, list_elem_of_fmap. split.
  - intros ([k' r] & -> & Hin). apply elem_of_map_order, lookup_slotsOf in Hin as [Hk Hn].
    simpl. eauto.
  - intros [[r Hr] Hn]. exists (k, r). split; [done|].
    by apply elem_of_map_order, lookup_slotsOf.
Qed.

Lemma NoDup_nodeSlots ts n : NoDup (nodeSlots ts n).
Proof. unfold nodeSlots. rewrite sort_by_perm. apply NoDup_map_order_fst. Qed.

Lemma nodeSlots_nil ts n : nodeSlots ts n = [] <-> nodePresent ts n = false.
Proof.
  rewrite <- not_true_iff_false, nodePresent_spec. split.
  - intros E (k & r & Hk & Hn). apply (not_elem_of_nil k). rewrite <- E.
    apply elem_of_nodeSlots. eauto.
  - intros Hn. destruct (nodeSlots ts n) as [|k l] eqn:E; [done|]. destruct Hn.
    assert (Hk : k ∈ nodeSlots ts n) by (rewrite E; left).
    apply elem_of_nodeSlots in Hk as [[r Hr] Hn]. eauto.
Qed.

(** The replacement condition of one slot. *)
Definition entombed (hlc : Z) (cur : Record_) : bool := hlc >? r_HLC cur.

Lemma entomb_loop topic n hlc ks m b :
  NoDup ks -> (forall k, k ∈ ks -> is_Some (m !! k)) ->
  let '(m', b') := foldl (entombSlot topic n hlc) (m, b) ks in
  (forall k, m' !! k =
     match m !! k with
     | Some cur => if bool_decide (k ∈ ks) && entombed hlc cur
                   then Some (synthTombstone topic n (k_Key k) hlc) else Some cur
     | None => None
     end) /\
  (b' = true <-> b = true \/ exists k cur, k ∈ ks /\ m !! k = Some cur /\ entombed hlc cur = true).
Proof.
  intros Hnd. revert m b. induction Hnd as [|k0 ks Hk0 Hnd IH]; intros m b Hsome; simpl.
  - split; [|split; [by left|intros [?|(k & cur & Hk & _)]; [done|by apply not_elem_of_nil in Hk]]].
    intros k. by destruct (m !! k).
  - destruct (Hsome k0 ltac:(left)) as [cur0 E0]. rewrite E0. simpl.
    fold (entombed hlc cur0).
    assert (Hin : forall k, k <> k0 -> bool_decide (k ∈ k0 :: ks) = bool_decide (k ∈ ks)).
    { intros k Hk. apply bool_decide_ext. rewrite elem_of_cons. naive_solver. }
    destruct (entombed hlc cur0) eqn:Ee.
    + specialize (IH (<[k0 := synthTombstone topic n (k_Key k0) hlc]> m) true).
      destruct (foldl _ _ ks) as [m' b']. destruct IH as [IH1 IH2].
      { intros k Hk. rewrite lookup_insert. case_decide; [by eexists|]. apply Hsome. by right. }
      split.
      * intros k. rewrite IH1, lookup_insert. case_decide; subst.
        -- rewrite E0, Ee, (bool_decide_eq_false_2 (k ∈ ks)) by done. simpl.
           by rewrite bool_decide_eq_true_2 by left.
        -- by rewrite Hin.
      * split; [|intros _; apply IH2; auto]. intros _. right. exists k0, cur0.
        split; [left|auto].
    + specialize (IH m b). destruct (foldl _ _ ks) as [m' b']. destruct IH as [IH1 IH2].
      { intros k Hk. apply Hsome. by right. }
      split.
      * intros k. rewrite IH1. destruct (decide (k = k0)) as [->|Hk].
        -- rewrite E0, Ee, !andb_false_r. done.
        -- by rewrite Hin.
      * rewrite IH2. split; [intros [?|(k & cur & ? & ?)]|intros [?|(k & cur & Hk & Hc & Hec)]];
          auto.
        -- right. exists k, cur. split; [by right|done].
        -- right. exists k, cur. apply elem_of_cons in Hk as [->|Hk]; [congruence|auto].
Qed.

(** All gates before the witness set: role, forward skew, restored-at fence, not
    already dead, fresh, under the observer cap. *)
Definition fresh (set : gmap NodeID Record_) (att : Record_) : bool :=
  match set !! r_ObserverNodeID att with
  | Some cur => negb ((r_ObservedAtUnixMs att <=? r_ObservedAtUnixMs cur) &&
                      (r_HLC att <=? r_HLC cur))
  | None => true
  end.

Definition role_ok (s : recordStore) (att : Record_) : bool :=
  match observerRoleCheck s with
  | Some fn => fn (r_ObserverNodeID att) (r_PubKey att)
  | None => true
  end.

Definition skew_ok (nowMs : Z) (att : Record_) : bool :=
  r_ObservedAtUnixMs att <=? i64 (nowMs + Milliseconds observerForwardSkewBudget).

Definition fence_ok (ts : topicStore) (att : Record_) : bool :=
  match restoredAtUnixMs ts !! r_NodeID att with
  | Some hwm => hwm <? r_ObservedAtUnixMs att
  | None => true
  end.

Definition dead (ts : topicStore) (att : Record_) : bool :=
  let '(had, allDead) := nodeDeadAtOrAbove ts (r_NodeID att) (r_HLC att) in had && allDead.

Definition witnessSet (ts : topicStore) (n : NodeID) : gmap NodeID Record_ :=
  default ∅ (attestations ts !! n).

Definition capped (s : recordStore) (ts : topicStore) (att : Record_) : bool :=
  bool_decide (witnessSet ts (r_NodeID att) !! r_ObserverNodeID att = None) &&
  (mlen (witnessSet ts (r_NodeID att)) >=? maxAttestations s).

Definition admits (nowMs : Z) (s : recordStore) (ts : topicStore) (att : Record_) : bool :=
  role_ok s att && skew_ok nowMs att && fence_ok ts att && negb (dead ts att) &&
  fresh (witnessSet ts (r_NodeID att)) att && negb (capped s ts att).

(** The newest observation of a witness set, and the test of the prune loop. *)
Definition newestOf (set : gmap NodeID Record_) : Z :=
  loop_max (fun e => r_ObservedAtUnixMs e.2) 0 (map_order set).
Definition in_window (s : recordStore) (newest : Z) (a : Record_) : bool :=
  negb (i64 (newest - r_ObservedAtUnixMs a) >? Milliseconds (observerCorroborationWindow s)).
Definition prune (s : recordStore) (set : gmap NodeID Record_) : gmap NodeID Record_ :=
  filter (fun e => in_window s (newestOf set) e.2 = true) set.

(** The witness set after an admitted attestation. *)
Definition witnesses (s : recordStore) (ts : topicStore) (att : Record_) :=
  prune s (<[r_ObserverNodeID att := att]> (witnessSet ts (r_NodeID att))).

Definition synthHLC (set : gmap NodeID Record_) : Z :=
  u64 (loop_max (fun e => r_HLC e.2) 0 (map_order set) + 1).

(** What happens to the topic store once the pruned witness set is known. *)
Definition settle (s : recordStore) (ts : topicStore) (att : Record_)
    (W : gmap NodeID Record_) : topicStore * (bool * bool * bool) :=
  let n := r_NodeID att in
  if mlen W <? observerQuorum s then
    (set_attestations ts (if mlen W =? 0 then delete n (attestations ts)
                          else <[n := W]> (attestations ts)),
     (false, nodePresent ts n, true))
  else
    let ts' := set_attestations ts (<[n := W]> (attestations ts)) in
    match nodeSlots ts n with
    | [] => (set_records ts' (<[mkKey n "" := synthTombstone (r_Topic att) n "" (synthHLC W)]>
                                (records ts)), (true, false, true))
    | ks => let '(recs, applied) :=
              foldl (entombSlot (r_Topic att) n (synthHLC W)) (records ts, false) ks in
            (set_records ts' recs, (applied, true, true))
    end.

Lemma applyAttestation_unfold nowMs s ts att :
  applyAttestationLocked nowMs s ts att =
  let n := r_NodeID att in
  let w := witnessSet ts n in
  let ts1 := set_attestations ts (<[n := w]> (attestations ts)) in
  if negb (role_ok s att) then (s, ts, (false, false, false)) else
  if negb (skew_ok nowMs att) then (s, ts, (false, false, false)) else
  if negb (fence_ok ts att) then (s, ts, (false, false, false)) else
  if dead ts att then (s, ts, (false, true, false)) else
  if negb (fresh w att) then (s, ts1, (false, true, false)) else
  if capped s ts att then (incr_rejectedCap s, ts1, (false, true, false)) else
  let '(ts', res) := settle s ts att (witnesses s ts att) in (s, ts', res).
Proof.
  unfold applyAttestationLocked, role_ok, skew_ok, fence_ok, dead, fresh, capped.
  fold (witnessSet ts (r_NodeID att)). cbv zeta.
  destruct (nodeDeadAtOrAbove ts (r_NodeID att) (r_HLC att)) as [had allDead].
  assert (Hg : forall x y, (x >? y) = negb (x <=? y))
    by (intros; rewrite Z.gtb_ltb; apply Z.ltb_antisym).
  assert (Hl : forall x y, (x <=? y) = negb (y <? x)) by (intros; apply Z.leb_antisym).
  rewrite (Hg (r_ObservedAtUnixMs att)).
  replace (match observerRoleCheck s with
           | Some fn => negb (fn (r_ObserverNodeID att) (r_PubKey att)) | None => false end)
    with (negb match observerRoleCheck s with
           | Some fn => fn (r_ObserverNodeID att) (r_PubKey att) | None => true end)
    by by destruct (observerRoleCheck s).
  replace (match restoredAtUnixMs ts !! r_NodeID att with
           | Some hwm => r_ObservedAtUnixMs att <=? hwm | None => false end)
    with (negb match restoredAtUnixMs ts !! r_NodeID att with
           | Some hwm => hwm <? r_ObservedAtUnixMs att | None => true end)
    by (destruct (restoredAtUnixMs ts !! r_NodeID att); [by rewrite Hl|done]).
  do 3 (branch; [done|]).
  branch; [done|].
  destruct (witnessSet ts (r_NodeID att) !! r_ObserverNodeID att) as [cur|];
    [rewrite negb_involutive; branch; [done|]|]; cbv iota;
    (simpl negb; branch; [done|]).
  all: unfold settle, witnesses, prune, in_window, newestOf, synthHLC; cbv zeta.
  all: set (W := filter _ _); destruct (mlen W <? observerQuorum s).
  1,3: unfold set_attestations, nodePresent; cbn [attestations records restoredAtUnixMs];
    rewrite delete_insert_eq, insert_insert_eq; reflexivity.
  all: unfold set_attestations, set_records;
    cbn [attestations records restoredAtUnixMs]; rewrite insert_insert_eq;
    change (nodeSlots (mkTopic _ _ _) (r_NodeID att)) with (nodeSlots ts (r_NodeID att));
    destruct (nodeSlots ts (r_NodeID att)); [reflexivity|];
    destruct (foldl _ _ _); reflexivity.
Qed.

(** A rejected attestation changes nothing but, at most, an empty witness set. *)
Lemma attest_rejected nowMs s ts att :
  admits nowMs s ts att = false ->
  let '(s', ts', (applied, _, accumulated)) := applyAttestationLocked nowMs s ts att in
  applied = false /\ accumulated = false /\ records ts' = records ts /\
  restoredAtUnixMs ts' = restoredAtUnixMs ts /\
  (attestations ts' = attestations ts \/
   attestations ts' =
     <[r_NodeID att := witnessSet ts (r_NodeID att)]> (attestations ts) /\
   (witnessSet ts (r_NodeID att) <> ∅ \/ maxAttestations s <= 0)).
Proof.
  rewrite applyAttestation_unfold. unfold admits. cbv zeta.
  destruct (role_ok s att); simpl; [|by auto 6].
  destruct (skew_ok nowMs att); simpl; [|by auto 6].
  destruct (fence_ok ts att); simpl; [|by auto 6].
  destruct (dead ts att); simpl; [by auto 6|].
  destruct (fresh (witnessSet ts (r_NodeID att)) att) eqn:Ef; simpl.
  - intros Hc. apply negb_false_iff in Hc. rewrite Hc. simpl. split_and!; try done.
    right. split; [done|]. unfold capped in Hc.
    destruct (decide (witnessSet ts (r_NodeID att) = ∅)) as [He|]; [right|by left].
    rewrite He in Hc. change (mlen (∅ : gmap NodeID Record_)) with 0 in Hc.
    bool_to_prop. lia.
  - intros _. split_and!; try done. right. split; [done|left]. intros He.
    unfold fresh in Ef. by rewrite He, lookup_empty in Ef.
Qed.

(** An admitted one stores the pruned witness set; at quorum it entombs the target. *)
Lemma attest_admitted nowMs s ts att :
  admits nowMs s ts att = true ->
  applyAttestationLocked nowMs s ts att =
    (s, (settle s ts att (witnesses s ts att)).1, (settle s ts att (witnesses s ts att)).2).
Proof.
  rewrite applyAttestation_unfold. unfold admits. intros Ha. cbv zeta.
  destruct (role_ok s att), (skew_ok nowMs att), (fence_ok ts att), (dead ts att),
    (fresh (witnessSet ts (r_NodeID att)) att), (capped s ts att); try discriminate Ha.
  simpl. by destruct (settle _ _ _ _).
Qed.

Lemma settle_restored s ts att W :
  restoredAtUnixMs (settle s ts att W).1 = restoredAtUnixMs ts.
Proof.
  unfold settle. destruct (mlen W <? observerQuorum s); [done|].
  destruct (nodeSlots ts (r_NodeID att)); [done|]. by destruct (foldl _ _ _).
Qed.

Lemma settle_below s ts att W :
  mlen W < observerQuorum s ->
  (settle s ts att W).2 = (false, nodePresent ts (r_NodeID att), true) /\
  records (settle s ts att W).1 = records ts /\
  attestations (settle s ts att W).1 =
    (if mlen W =? 0 then delete (r_NodeID att) (attestations ts)
     else <[r_NodeID att := W]> (attestations ts)).
Proof. intros Hk. unfold settle. by rewrite (proj2 (Z.ltb_lt _ _) Hk). Qed.

Lemma settle_quorum s ts att W :
  observerQuorum s <= mlen W ->
  let n := r_NodeID att in
  let '(ts', (applied, replaced, accumulated)) := settle s ts att W in
  attestations ts' = <[n := W]> (attestations ts) /\
  replaced = nodePresent ts n /\ accumulated = true /\
  (applied = true <-> nodePresent ts n = false \/
     exists k cur, records ts !! k = Some cur /\ k_NodeID k = n /\
                   entombed (synthHLC W) cur = true) /\
  (nodePresent ts n = false ->
     records ts' = <[mkKey n "" := synthTombstone (r_Topic att) n "" (synthHLC W)]>
                     (records ts)) /\
  (nodePresent ts n = true -> forall k, records ts' !! k =
     match records ts !! k with
     | Some cur => if bool_decide (k_NodeID k = n) && entombed (synthHLC W) cur
                   then Some (synthTombstone (r_Topic att) n (k_Key k) (synthHLC W))
                   else Some cur
     | None => None
     end).
Proof.
  intros Hk. simpl. unfold settle. rewrite (proj2 (Z.ltb_ge _ _) Hk).
  pose proof (nodeSlots_nil ts (r_NodeID att)) as Hnil.
  pose proof (elem_of_nodeSlots ts (r_NodeID att)) as Hel.
  pose proof (entomb_loop (r_Topic att) (r_NodeID att) (synthHLC W) _ (records ts) false
    (NoDup_nodeSlots ts (r_NodeID att)) (fun k Hin => proj1 (proj1 (Hel k) Hin))) as Hloop.
  destruct (nodeSlots ts (r_NodeID att)) as [|k0 ks].
  - rewrite (proj1 Hnil) by done. simpl. split_and!; naive_solver.
  - assert (Hp : nodePresent ts (r_NodeID att) = true).
    { destruct (nodePresent ts (r_NodeID att)); [done|].
      pose proof (proj2 Hnil eq_refl). done. }
    rewrite Hp. destruct (foldl _ _ _) as [recs b]. destruct Hloop as [Hrec Hb].
    split_and!; try done.
    + rewrite Hb. split.
      * intros [?|(k & cur & Hin & Hc & He)]; [done|]. right. exists k, cur.
        split_and!; [done| |done]. by apply Hel in Hin as [_ ?].
      * intros [?|(k & cur & Hc & Hn & He)]; [done|]. right. exists k, cur.
        split_and!; [|done|done]. apply Hel. eauto.
    + intros _ k. simpl. rewrite Hrec. destruct (records ts !! k) as [cur|] eqn:Ec; [|done].
      rewrite (bool_decide_ext (k ∈ k0 :: ks) (k_NodeID k = r_NodeID att)); [done|].
      rewrite Hel, Ec. naive_solver.
Qed.
End facts.

(** [ApplyExt] on an attestation, on every branch. *)
Lemma ApplyExt_attestation `{MapOrder} (nowMs : Z) (s : recordStore) (a : Record_) :
  IsObserverAttestation a = true -> topic_capped s (r_Topic a) = false ->
  let ts := topicOf s (r_Topic a) in
  let W := witnesses s ts a in
  let '(s', (applied, replaced, accumulated)) := ApplyExt nowMs s a in
  let ts' := topicOf s' (r_Topic a) in
  (forall t, t <> r_Topic a -> topicOf s' t = topicOf s t) /\
  restoredAtUnixMs ts' = restoredAtUnixMs ts /\
  accumulated = admits nowMs s ts a /\
  (forall n, witnessSet ts' n =
     if decide (admits nowMs s ts a = true /\ n = r_NodeID a) then W else witnessSet ts n) /\
  (admits nowMs s ts a = false \/ mlen W < observerQuorum s ->
     applied = false /\ records ts' = records ts) /\
  (admits nowMs s ts a = true -> observerQuorum s <= mlen W ->
     forall k, records ts' !! k =
       match records ts !! k with
       | Some cur => if bool_decide (k_NodeID k = r_NodeID a) && (synthHLC W >? r_HLC cur)
                     then Some (synthTombstone (r_Topic a) (r_NodeID a) (k_Key k) (synthHLC W))
                     else Some cur
       | None => if negb (nodePresent ts (r_NodeID a)) && bool_decide (k = mkKey (r_NodeID a) "")
                 then Some (synthTombstone (r_Topic a) (r_NodeID a) "" (synthHLC W)) else None
       end).
Proof.
  intros Hatt Hcap ts W. pose proof (fun t => ApplyExt_other nowMs s a t) as Hother.
  rewrite ApplyExt_unfold, Hcap in *. unfold applyTopic in *. rewrite Hatt in *. fold ts in Hother |- *.
  destruct (admits nowMs s ts a) eqn:Ha.
  - rewrite attest_admitted in * by done. fold W in Hother |- *.
    pose proof (settle_restored s ts a W) as Hres.
    pose proof (settle_below s ts a W) as Hbelow. pose proof (settle_quorum s ts a W) as Hq.
    simpl in Hq. destruct (settle s ts a W) as [ts1 [[ap re] ac]]. simpl in Hres, Hbelow, Hother.
    rewrite topicOf_insert, decide_True by done.
    assert (Hw : forall n, (attestations ts1 = <[r_NodeID a := W]> (attestations ts) \/
        W = ∅ /\ attestations ts1 = delete (r_NodeID a) (attestations ts)) ->
      witnessSet ts1 n = if decide (true = true /\ n = r_NodeID a) then W
                         else witnessSet ts n).
    { intros n He. unfold witnessSet. destruct He as [->|[-> ->]];
        rewrite ?lookup_insert, ?lookup_delete; repeat case_decide; naive_solver. }
    destruct (Z.lt_ge_cases (mlen W) (observerQuorum s)) as [Hlt|Hge].
    + destruct (Hbelow Hlt) as ([= -> -> ->] & Hrec & Hat).
      split_and!; try done; [|intros n; apply Hw|intros _; lia].
      * intros t Ht. unfold topicOf. by rewrite Hother.
      * rewrite Hat. destruct (mlen W =? 0) eqn:E; [right|by left]. bool_to_prop.
        by apply mlen_zero in E.
    + destruct (Hq Hge) as (Hat & -> & -> & _ & Habs & Hpres).
      split_and!; try done; [|intros n; apply Hw; by left|intros [?|?]; [done|lia]|].
      * intros t Ht. unfold topicOf. by rewrite Hother.
      * intros _ _ k. destruct (nodePresent ts (r_NodeID a)) eqn:Hp; simpl.
        -- by rewrite Hpres.
        -- rewrite Habs by done. rewrite lookup_insert.
           assert (Hno : forall cur, records ts !! k = Some cur -> k_NodeID k <> r_NodeID a).
           { intros cur Hk Hn. rewrite <- not_true_iff_false, nodePresent_spec in Hp.
             destruct Hp; eauto. }
           destruct (records ts !! k) as [cur|] eqn:Ek.
           ++ rewrite bool_decide_eq_false_2 by eauto. simpl.
              rewrite decide_False; [done|]. intros <-. by apply (Hno cur).
           ++ destruct (decide (mkKey (r_NodeID a) "" = k)) as [<-|Hne];
                [by rewrite bool_decide_eq_true_2|by rewrite bool_decide_eq_false_2 by naive_solver].
  - pose proof (attest_rejected nowMs s ts a Ha) as Hrej.
    destruct (applyAttestationLocked nowMs s ts a) as [[s1 ts1] [[ap re] ac]].
    destruct Hrej as (-> & -> & Hrec & Hres & Hat). simpl in Hother.
    rewrite topicOf_insert, decide_True by done.
    split_and!; try done.
    + intros t Ht. unfold topicOf. by rewrite Hother.
    + intros n. rewrite decide_False by naive_solver. unfold witnessSet.
      destruct Hat as [->|[-> _]]; [done|]. rewrite lookup_insert. case_decide; [|done].
      by subst.
Qed.
