(* ===== verification/CrdtInv.v ===== *)
(** * Invariants of the record store

    Well-formedness, preserved by every operation; the provenance of what a store holds
    after a run; and runs of owner records as maxima of the merge order. *)
From S2P Require Import Prelude Types Hlc Crdt CrdtLemmas.

(** ** Well-formedness *)

(** Records and witnesses sit where their fields say, witness sets are non-empty and
    bounded, and a restored-at mark belongs to a node that is present. *)
Record wf_topic (mAtts : Z) (t : Topic) (ts : topicStore) : Prop := {
  wf_records : forall k r, records ts !! k = Some r -> r_Topic r = t /\ keyOf r = k;
  wf_witness : forall n W o a, attestations ts !! n = Some W -> W !! o = Some a ->
    IsObserverAttestation a = true /\ r_Topic a = t /\ r_NodeID a = n /\
    r_ObserverNodeID a = o;
  wf_sets : forall n W, attestations ts !! n = Some W -> W <> ∅ /\ mlen W <= mAtts;
  wf_restored : forall n v, restoredAtUnixMs ts !! n = Some v -> nodePresent ts n = true
}.

Record wf_store (s : recordStore) : Prop := {
  wf_topics : forall t ts, byTopic s !! t = Some ts -> wf_topic (maxAttestations s) t ts;
  wf_ntopics : mlen (byTopic s) <= maxTopics s;
  wf_caps : 0 < maxTopics s /\ 0 < maxRecordsPerTopic s /\ 0 < maxKeysPerNode s /\
    0 < maxAttestations s;
  wf_quorum : 1 <= observerQuorum s
}.

Lemma wf_new mA t : wf_topic mA t newTopicStore.
Proof. by split. Qed.

Lemma witnessSet_lookup ts n o a :
  witnessSet ts n !! o = Some a ->
  exists W, attestations ts !! n = Some W /\ W !! o = Some a.
Proof. unfold witnessSet. destruct (attestations ts !! n) as [W|]; [by exists W|done]. Qed.

(** Steps and runs. An input is the clock reading and the record. *)
Abbreviation input := (Z * Record_)%type.

Section invariants.
Context `{MapOrder}.

Definition applyAll (s : recordStore) (l : list input) : recordStore :=
  foldl (fun s i => (ApplyExt i.1 s i.2).1) s l.

Lemma applyAll_app s l1 l2 : applyAll s (l1 ++ l2) = applyAll (applyAll s l1) l2.
Proof. apply foldl_app. Qed.

Lemma applyAll_config s l : config (applyAll s l) = config s.
Proof.
  revert s. induction l as [|i l IH]; intros s; [done|]. simpl.
  by rewrite IH, ApplyExt_config.
Qed.

(** A predicate on topic stores is kept by [ApplyExt] when the topic's own step keeps it. *)
Lemma ApplyExt_topics (P : Topic -> topicStore -> Prop) nowMs s r :
  P (r_Topic r) newTopicStore ->
  (forall ts, P (r_Topic r) ts -> P (r_Topic r) (applyTopic nowMs s ts r).1.2) ->
  (forall t ts, byTopic s !! t = Some ts -> P t ts) ->
  forall t ts, byTopic (ApplyExt nowMs s r).1 !! t = Some ts -> P t ts.
Proof.
  intros Hnew Hstep Hs t ts. rewrite ApplyExt_unfold. case_match; [by apply Hs|].
  pose proof (applyTopic_store nowMs s (topicOf s (r_Topic r)) r) as Hst.
  assert (Hold : P (r_Topic r) (topicOf s (r_Topic r))).
  { unfold topicOf. destruct (byTopic s !! r_Topic r) eqn:E; [by apply Hs|done]. }
  specialize (Hstep _ Hold). destruct (applyTopic _ _ _ _) as [[s' ts'] res]. simpl in *.
  rewrite lookup_insert. case_decide; [naive_solver|].
  destruct Hst as [->| ->]; apply Hs.
Qed.

Lemma prune_subset s W o a : prune s W !! o = Some a -> W !! o = Some a.
Proof. unfold prune. rewrite map_lookup_filter_Some. naive_solver. Qed.

Lemma witnesses_lookup s ts att o a :
  witnesses s ts att !! o = Some a ->
  (o = r_ObserverNodeID att /\ a = att) \/ witnessSet ts (r_NodeID att) !! o = Some a.
Proof.
  unfold witnesses. intros Ha%prune_subset. rewrite lookup_insert in Ha.
  case_decide; naive_solver.
Qed.

Lemma witnesses_bounded s ts att :
  capped s ts att = false -> mlen (witnessSet ts (r_NodeID att)) <= maxAttestations s ->
  mlen (witnesses s ts att) <= maxAttestations s.
Proof.
  intros Hc Hle. unfold witnesses, prune. etrans; [apply mlen_filter_le|].
  rewrite mlen_insert. unfold capped in Hc.
  destruct (witnessSet ts (r_NodeID att) !! r_ObserverNodeID att); [done|].
  rewrite bool_decide_eq_true_2 in Hc by done. simpl in Hc. lia.
Qed.

(** The records after a settled attestation: as before, or the tombstone of a slot of
    the target. *)
Lemma settle_records s ts att W k r :
  records (settle s ts att W).1 !! k = Some r ->
  records ts !! k = Some r \/
  (observerQuorum s <= mlen W /\ k_NodeID k = r_NodeID att /\
   r = synthTombstone (r_Topic att) (r_NodeID att) (k_Key k) (synthHLC W)).
Proof.
  destruct (Z.lt_ge_cases (mlen W) (observerQuorum s)) as [Hlt|Hge].
  - destruct (settle_below s ts att W Hlt) as (_ & -> & _). auto.
  - pose proof (settle_quorum s ts att W Hge) as Hq. simpl in Hq.
    destruct (settle s ts att W) as [ts' [[ap re] ac]]. simpl.
    destruct Hq as (_ & _ & _ & _ & Habs & Hpres).
    destruct (nodePresent ts (r_NodeID att)).
    + rewrite Hpres by done. destruct (records ts !! k) as [cur|]; [|done].
      destruct (_ && _)%bool eqn:E; intros [= <-]; [|auto].
      bool_to_prop. right. by rewrite H0.
    + rewrite Habs by done. rewrite lookup_insert. case_decide; [|auto].
      intros [= <-]. subst. by right.
Qed.

Lemma settle_keeps_slots s ts att W k r :
  records ts !! k = Some r -> is_Some (records (settle s ts att W).1 !! k).
Proof.
  intros Hk. destruct (Z.lt_ge_cases (mlen W) (observerQuorum s)) as [Hlt|Hge].
  - destruct (settle_below s ts att W Hlt) as (_ & -> & _). by eexists.
  - pose proof (settle_quorum s ts att W Hge) as Hq. simpl in Hq.
    destruct (settle s ts att W) as [ts' [[ap re] ac]]. simpl.
    destruct Hq as (_ & _ & _ & _ & Habs & Hpres).
    destruct (nodePresent ts (r_NodeID att)).
    + rewrite Hpres, Hk by done. case_match; by eexists.
    + rewrite Habs by done. rewrite lookup_insert. case_decide; by eexists.
Qed.

Lemma settle_attestations s ts att W n W' :
  attestations (settle s ts att W).1 !! n = Some W' ->
  (n = r_NodeID att /\ W' = W /\ (W <> ∅ \/ observerQuorum s <= 0)) \/
  attestations ts !! n = Some W'.
Proof.
  destruct (Z.lt_ge_cases (mlen W) (observerQuorum s)) as [Hlt|Hge].
  - destruct (settle_below s ts att W Hlt) as (_ & _ & ->).
    destruct (mlen W =? 0) eqn:E; bool_to_prop.
    + rewrite lookup_delete. case_decide; auto. done.
    + rewrite lookup_insert. case_decide; auto. intros [= <-].
      left. split_and!; try done. left. by rewrite <- mlen_zero.
  - pose proof (settle_quorum s ts att W Hge) as Hq. simpl in Hq.
    destruct (settle s ts att W) as [ts' [[ap re] ac]]. simpl.
    destruct Hq as (-> & _). rewrite lookup_insert. case_decide; auto.
    intros [= <-]. left. split_and!; try done.
    destruct (decide (W = ∅)) as [->|]; [|by left]. right.
    change (mlen (∅ : gmap NodeID Record_)) with 0 in Hge. lia.
Qed.

Lemma nodePresent_mono ts ts' n :
  (forall k r, records ts !! k = Some r -> is_Some (records ts' !! k)) ->
  nodePresent ts n = true -> nodePresent ts' n = true.
Proof.
  rewrite !nodePresent_spec. intros Hm (k & r & Hk & Hn).
  destruct (Hm k r Hk) as [r' Hr']. eauto.
Qed.

Lemma wf_applyOwner nowMs s ts r :
  wf_topic (maxAttestations s) (r_Topic r) ts ->
  wf_topic (maxAttestations s) (r_Topic r) (applyOwner nowMs s ts r).1.2.
Proof.
  intros [Hr Hw Hs Hre].
  assert (Hrec : forall k r', <[keyOf r := r]> (records ts) !! k = Some r' ->
    r_Topic r' = r_Topic r /\ keyOf r' = k).
  { intros k r'. rewrite lookup_insert. case_decide; [naive_solver|apply Hr]. }
  assert (Hpres : forall at' re n, nodePresent ts n = true \/ n = r_NodeID r ->
    nodePresent (mkTopic (<[keyOf r := r]> (records ts)) at' re) n = true).
  { intros at' re n [Hn| ->].
    - apply (nodePresent_mono ts); [|done]. intros k r' Hk. simpl.
      rewrite lookup_insert. case_decide; by eexists.
    - apply nodePresent_spec. exists (keyOf r), r. simpl. by rewrite lookup_insert_eq. }
  assert (Hres : forall n v, <[r_NodeID r := nowMs]> (restoredAtUnixMs ts) !! n = Some v ->
    nodePresent ts n = true \/ n = r_NodeID r).
  { intros n v. rewrite lookup_insert. case_decide; [auto|]. left. eauto. }
  unfold applyOwner, stampRestored.
  destruct (records ts !! keyOf r); simpl.
  - destruct (newer r _); [|by split]. destruct (r_Tombstone r); simpl; split; simpl;
      try done; try (intros n W o a; rewrite lookup_delete; case_decide; [done|]; by apply Hw);
      try (intros n W; rewrite lookup_delete; case_decide; [done|]; by apply Hs);
      intros n v Hv; apply Hpres; eauto.
  - destruct (mlen (records ts) >=? maxRecordsPerTopic s); [by split|].
    destruct (_ && _)%bool; [by split|].
    destruct (r_Tombstone r); simpl; split; simpl; try done; intros n v Hv;
      apply Hpres; eauto.
Qed.

Lemma wf_applyAttestation nowMs s ts att :
  0 < maxAttestations s -> 1 <= observerQuorum s ->
  IsObserverAttestation att = true ->
  wf_topic (maxAttestations s) (r_Topic att) ts ->
  wf_topic (maxAttestations s) (r_Topic att) (applyAttestationLocked nowMs s ts att).1.2.
Proof.
  intros Hmax Hq Hatt [Hr Hw Hs Hre].
  destruct (admits nowMs s ts att) eqn:Ha.
  - rewrite attest_admitted by done. simpl.
    assert (Hc : capped s ts att = false)
      by (unfold admits in Ha; bool_to_prop; done).
    split.
    + intros k r Hk%settle_records. destruct Hk as [Hk|(_ & Hn & ->)]; [by apply Hr|].
      split; [done|]. destruct k as [kn kk]. simpl in Hn. subst. done.
    + intros n W o a HW Ho. apply settle_attestations in HW as [(-> & -> & _)|HW];
        [|by apply (Hw n W)].
      apply witnesses_lookup in Ho as [[-> ->]|Ho]; [done|].
      apply witnessSet_lookup in Ho as (W' & ? & ?). by apply (Hw (r_NodeID att) W').
    + intros n W HW. apply settle_attestations in HW as [(-> & -> & HW)|HW];
        [|by apply (Hs n W)].
      split; [destruct HW; [done|lia]|]. apply witnesses_bounded; [done|].
      unfold witnessSet. destruct (attestations ts !! r_NodeID att) as [W'|] eqn:E;
        [by apply (Hs (r_NodeID att) W')|simpl; change (mlen (∅ : gmap NodeID Record_)) with 0; lia].
    + intros n v. rewrite settle_restored. intros Hv%Hre.
      apply (nodePresent_mono ts); [|done]. intros k r. apply settle_keeps_slots.
  - pose proof (attest_rejected nowMs s ts att Ha) as Hrej.
    destruct (applyAttestationLocked nowMs s ts att) as [[s' ts'] [[ap re] ac]]. simpl.
    destruct Hrej as (_ & _ & Erec & Eres & Eatt).
    destruct Eatt as [Eatt|[Eatt Hne]].
    + split; rewrite ?Erec, ?Eatt; try done.
      intros n v. rewrite Eres. intros Hv%Hre. unfold nodePresent in *. by rewrite Erec.
    + assert (Hold : attestations ts !! r_NodeID att =
                     Some (witnessSet ts (r_NodeID att))).
      { unfold witnessSet in *. destruct (attestations ts !! r_NodeID att); [done|].
        simpl in Hne. destruct Hne; [done|lia]. }
      split; rewrite ?Erec, ?Eatt, ?(insert_id _ _ _ Hold); try done.
      intros n v. rewrite Eres. intros Hv%Hre. unfold nodePresent in *. by rewrite Erec.
Qed.

Lemma wf_applyTopic nowMs s ts r :
  0 < maxAttestations s -> 1 <= observerQuorum s ->
  wf_topic (maxAttestations s) (r_Topic r) ts ->
  wf_topic (maxAttestations s) (r_Topic r) (applyTopic nowMs s ts r).1.2.
Proof.
  intros. unfold applyTopic. destruct (IsObserverAttestation r) eqn:E;
    [by apply wf_applyAttestation|by apply wf_applyOwner].
Qed.

Lemma ApplyExt_ntopics nowMs s r :
  mlen (byTopic s) <= maxTopics s -> mlen (byTopic (ApplyExt nowMs s r).1) <= maxTopics s.
Proof.
  intros Hle. rewrite ApplyExt_unfold. unfold topic_capped.
  pose proof (applyTopic_store nowMs s (topicOf s (r_Topic r)) r) as Hst.
  destruct (applyTopic _ _ _ _) as [[s' ts'] res].
  assert (Hs' : byTopic s' = byTopic s) by by destruct Hst as [->| ->].
  destruct (byTopic s !! r_Topic r) eqn:E; simpl;
    [|destruct (mlen (byTopic s) >=? maxTopics s) eqn:E'; simpl; [done|]];
    rewrite mlen_insert, Hs', E; lia.
Qed.

Lemma wf_ApplyExt nowMs s r : wf_store s -> wf_store (ApplyExt nowMs s r).1.
Proof.
  intros [Ht Hn (HT & HR & HK & HA) HQ].
  pose proof (ApplyExt_config nowMs s r) as Hc. unfold config in Hc.
  injection Hc as EQ _ _ ET ER EK EA.
  split.
  - intros t ts Hts. rewrite EA. revert t ts Hts.
    apply (ApplyExt_topics (wf_topic (maxAttestations s))); auto using wf_new.
    intros ts. by apply wf_applyTopic.
  - rewrite ET. by apply ApplyExt_ntopics.
  - by rewrite ET, ER, EK, EA.
  - by rewrite EQ.
Qed.

Lemma wf_applyAll s l : wf_store s -> wf_store (applyAll s l).
Proof.
  revert s. induction l as [|i l IH]; intros s Hs; [done|]. simpl. auto using wf_ApplyExt.
Qed.
End invariants.

Lemma wf_newRecordStore : wf_store newRecordStore.
Proof. split; [by intros t ts|by vm_compute|by vm_compute|by vm_compute]. Qed.

(** ** Provenance: where the contents of a store come from *)
Section provenance.
Context `{MapOrder}.

(** The attestation [a] of observer [o] against node [n] was delivered and passed the
    role gate. *)
Definition witness_in (hist : list Record_) (s : recordStore) (t : Topic) (n o : NodeID)
    (a : Record_) : Prop :=
  a ∈ hist /\ IsObserverAttestation a = true /\ r_Topic a = t /\ r_NodeID a = n /\
  r_ObserverNodeID a = o /\ role_ok s a = true.

(** At least K delivered attestations of distinct observers, all within the window of
    the newest, and all below the tombstone's HLC. *)
Definition quorum_evidence (hist : list Record_) (s : recordStore) (t : Topic)
    (n : NodeID) (hlc : Z) : Prop :=
  exists (W : gmap NodeID Record_) (newest : Z),
    observerQuorum s <= mlen W /\ synthHLC W = hlc /\
    (newest = 0 \/ exists o a, witness_in hist s t n o a /\ newest = r_ObservedAtUnixMs a) /\
    forall o a, W !! o = Some a ->
      witness_in hist s t n o a /\ r_ObservedAtUnixMs a <= newest /\
      in_window s newest a = true.

Definition justified (hist : list Record_) (s : recordStore) (t : Topic) (k : recordKey)
    (r : Record_) : Prop :=
  (r ∈ hist /\ IsObserverAttestation r = false /\ r_Topic r = t /\ keyOf r = k) \/
  (r = synthTombstone t (k_NodeID k) (k_Key k) (r_HLC r) /\
   quorum_evidence hist s t (k_NodeID k) (r_HLC r)).

Definition provenance (hist : list Record_) (s : recordStore) (t : Topic)
    (ts : topicStore) : Prop :=
  (forall k r, records ts !! k = Some r -> justified hist s t k r) /\
  (forall n W o a, attestations ts !! n = Some W -> W !! o = Some a ->
     witness_in hist s t n o a).

Lemma config_role_ok s s' a : config s = config s' -> role_ok s a = role_ok s' a.
Proof. unfold config, role_ok. intros [= _ _ -> _ _ _ _]. done. Qed.

Lemma config_in_window s s' n a : config s = config s' -> in_window s n a = in_window s' n a.
Proof. unfold config, in_window. intros [= _ -> _ _ _ _ _]. done. Qed.

Lemma config_quorum s s' : config s = config s' -> observerQuorum s = observerQuorum s'.
Proof. unfold config. by intros [= -> _ _ _ _ _ _]. Qed.

(** Evidence survives more history and any store of the same configuration. *)
Lemma witness_in_mono hist hist' s s' t n o a :
  config s = config s' -> (forall x, x ∈ hist -> x ∈ hist') ->
  witness_in hist s t n o a -> witness_in hist' s' t n o a.
Proof.
  intros Hc Hh (? & ? & ? & ? & ? & Hr). rewrite (config_role_ok _ _ _ Hc) in Hr.
  split_and!; auto.
Qed.

Lemma provenance_mono hist hist' s s' t ts :
  config s = config s' -> (forall x, x ∈ hist -> x ∈ hist') ->
  provenance hist s t ts -> provenance hist' s' t ts.
Proof.
  intros Hc Hh [Hr Hw]. split; [|eauto using witness_in_mono].
  intros k r Hk. destruct (Hr k r Hk) as [(? & ? & ? & ?)|(? & W & newest & Hq & Hs & Hn & HW)].
  - left. auto.
  - right. split; [done|]. exists W, newest. rewrite <- (config_quorum _ _ Hc).
    split_and!; [done..| |].
    + destruct Hn as [?|(o & a & ? & ?)]; [by left|right].
      exists o, a. eauto using witness_in_mono.
    + intros o a Ho. rewrite <- (config_in_window _ _ _ _ Hc).
      destruct (HW o a Ho) as (? & ? & ?). eauto using witness_in_mono.
Qed.

Lemma provenance_applyOwner hist nowMs s ts r :
  IsObserverAttestation r = false -> r ∈ hist -> provenance hist s (r_Topic r) ts ->
  provenance hist s (r_Topic r) (applyOwner nowMs s ts r).1.2.
Proof.
  intros Ho Hin [Hr Hw].
  assert (Hrec : forall k r', <[keyOf r := r]> (records ts) !! k = Some r' ->
    justified hist s (r_Topic r) k r').
  { intros k r'. rewrite lookup_insert. case_decide; [|apply Hr]. intros [= <-].
    left. auto. }
  unfold applyOwner, stampRestored.
  destruct (records ts !! keyOf r).
  - destruct (newer r _); [|done]. destruct (r_Tombstone r); split; simpl; try done;
      intros n W o a; rewrite lookup_delete; case_decide; try done; apply Hw.
  - destruct (mlen (records ts) >=? maxRecordsPerTopic s); [done|].
    destruct (_ && _)%bool; [done|].
    destruct (r_Tombstone r); split; simpl; done.
Qed.

Lemma newestOf_spec (W : gmap NodeID Record_) :
  (newestOf W = 0 \/ exists o a, W !! o = Some a /\ newestOf W = r_ObservedAtUnixMs a) /\
  forall o a, W !! o = Some a -> r_ObservedAtUnixMs a <= newestOf W.
Proof.
  unfold newestOf. split.
  - destruct (loop_max_attained (fun e => r_ObservedAtUnixMs e.2) 0 (map_order W))
      as [E|([o a] & Hin & E)]; [by left|].
    right. exists o, a. by rewrite <- elem_of_map_order.
  - intros o a Ho. apply elem_of_map_order in Ho.
    by apply (proj2 (loop_max_ge (fun e => r_ObservedAtUnixMs e.2) 0 (map_order W)) (o, a)).
Qed.

Lemma provenance_applyAttestation hist nowMs s ts att :
  IsObserverAttestation att = true -> att ∈ hist -> provenance hist s (r_Topic att) ts ->
  provenance hist s (r_Topic att) (applyAttestationLocked nowMs s ts att).1.2.
Proof.
  intros Hatt Hin [Hr Hw].
  assert (Hset : forall o a, witnessSet ts (r_NodeID att) !! o = Some a ->
    witness_in hist s (r_Topic att) (r_NodeID att) o a).
  { intros o a Ho. apply witnessSet_lookup in Ho as (W & ? & ?). eauto. }
  destruct (admits nowMs s ts att) eqn:Ha.
  - rewrite attest_admitted by done. simpl.
    assert (Hrole : role_ok s att = true) by (unfold admits in Ha; bool_to_prop; done).
    set (W1 := <[r_ObserverNodeID att := att]> (witnessSet ts (r_NodeID att))).
    assert (HW1 : forall o a, W1 !! o = Some a ->
      witness_in hist s (r_Topic att) (r_NodeID att) o a).
    { intros o a. unfold W1. rewrite lookup_insert. case_decide; [|apply Hset].
      intros [= <-]. by split_and!. }
    split.
    + intros k r Hk%settle_records. destruct Hk as [Hk|(Hq & Hn & ->)]; [by apply Hr|].
      right. simpl. rewrite Hn. split; [done|].
      destruct (newestOf_spec W1) as [Hnew Hle].
      exists (witnesses s ts att), (newestOf W1). split_and!; try done.
      * destruct Hnew as [?|(o & a & Ho & ?)]; [by left|right].
        exists o, a. split; [|done]. by apply HW1.
      * unfold witnesses. fold W1. unfold prune. intros o a Ho.
        apply map_lookup_filter_Some in Ho as [Ho Hwin]. eauto.
    + intros n W o a HW Ho. apply settle_attestations in HW as [(-> & -> & _)|HW];
        [|eauto]. apply prune_subset in Ho. eauto.
  - pose proof (attest_rejected nowMs s ts att Ha) as Hrej.
    destruct (applyAttestationLocked nowMs s ts att) as [[s' ts'] [[ap re] ac]]. simpl.
    destruct Hrej as (_ & _ & Erec & _ & Eatt).
    split; [by rewrite Erec|]. intros n W o a HW Ho.
    destruct Eatt as [Eatt|[Eatt _]]; rewrite Eatt in HW; [eauto|].
    rewrite lookup_insert in HW. case_decide; [|eauto]. simplify_eq. eauto.
Qed.

Lemma provenance_applyTopic hist nowMs s ts r :
  r ∈ hist -> provenance hist s (r_Topic r) ts ->
  provenance hist s (r_Topic r) (applyTopic nowMs s ts r).1.2.
Proof.
  intros. unfold applyTopic. destruct (IsObserverAttestation r) eqn:E;
    [by apply provenance_applyAttestation|by apply provenance_applyOwner].
Qed.

Lemma provenance_run hist s l :
  (forall t ts, byTopic s !! t = Some ts -> provenance hist s t ts) ->
  forall t ts, byTopic (applyAll s l) !! t = Some ts ->
    provenance (hist ++ l.*2) s t ts.
Proof.
  revert hist s. induction l as [|[nowMs r] l IH]; intros hist s Hs; simpl.
  - by rewrite app_nil_r.
  - intros t ts Hts. assert (Hc : config (ApplyExt nowMs s r).1 = config s)
      by apply ApplyExt_config.
    apply (provenance_mono ((hist ++ [r]) ++ l.*2) _ (ApplyExt nowMs s r).1); [done| |].
    { intros x. by rewrite <- app_assoc. }
    revert t ts Hts. apply IH. intros t ts Hts.
    apply (provenance_mono (hist ++ [r]) _ s); [done|done|]. revert t ts Hts.
    apply (ApplyExt_topics (provenance (hist ++ [r]) s)).
    + by split.
    + intros ts. apply provenance_applyTopic. set_solver.
    + intros t ts Hts. apply (provenance_mono hist _ s); [done| |by apply Hs].
      set_solver.
Qed.
End provenance.

(** ** Runs of owner records: each slot holds the maximum of what was merged into it *)

(** No record is refused by a cap along the run. *)
Fixpoint roomy `{MapOrder} (s : recordStore) (l : list input) : bool :=
  match l with
  | [] => true
  | i :: l' => room s i.2 && roomy (ApplyExt i.1 s i.2).1 l'
  end.

Definition owners (l : list input) : Prop :=
  Forall (fun i => IsObserverAttestation i.2 = false) l.

(** [o] is the maximum of the records satisfying [P]. *)
Definition is_winner (o : option Record_) (P : Record_ -> Prop) : Prop :=
  match o with
  | None => forall c, ~ P c
  | Some r => P r /\ forall c, P c -> newer c r = false
  end.

(** HLC and signature determine a record among those satisfying [P]. *)
Definition determined (P : Record_ -> Prop) : Prop :=
  forall a b, P a -> P b -> r_HLC a = r_HLC b -> r_Sig a = r_Sig b -> a = b.

Lemma winner_unique o1 o2 (P1 P2 : Record_ -> Prop) :
  (forall c, P1 c <-> P2 c) -> determined P1 ->
  is_winner o1 P1 -> is_winner o2 P2 -> o1 = o2.
Proof.
  intros HP Hd H1 H2. destruct o1 as [a|], o2 as [b|]; simpl in *; [|naive_solver..].
  destruct H1 as [Pa Ha], H2 as [Pb Hb]. f_equal.
  destruct (newer_total a b) as [E|[[E1 E2]|E]].
  - rewrite Hb in E; [done|by apply HP].
  - apply Hd; [done|by apply HP|done|done].
  - rewrite Ha in E; [done|by apply HP].
Qed.

(** The candidates for a slot: its record before the run and the run's own records. *)
Definition candidate (s : recordStore) (rs : list Record_) (t : Topic) (k : recordKey)
    (c : Record_) : Prop :=
  slot s t k = Some c \/ (c ∈ rs /\ r_Topic c = t /\ keyOf c = k).

Lemma join_winner o r (P : Record_ -> Prop) :
  is_winner o P -> is_winner (Some (join o r)) (fun c => P c \/ c = r).
Proof.
  destruct o as [cur|]; simpl.
  - intros [HP Hmax]. destruct (newer r cur) eqn:E; (split; [auto|]).
    + intros c [Hc| ->]; [|apply newer_irrefl].
      destruct (newer c r) eqn:E'; [|done].
      pose proof (newer_trans _ _ _ E' E) as E''. by rewrite Hmax in E''.
    + intros c [Hc| ->]; [auto|done].
  - intros Hno. split; [by right|]. intros c [Hc| ->]; [by apply Hno in Hc|apply newer_irrefl].
Qed.

Lemma is_winner_ext o (P Q : Record_ -> Prop) :
  (forall c, P c <-> Q c) -> is_winner o P -> is_winner o Q.
Proof. intros HPQ. destruct o; simpl; intros; naive_solver. Qed.

Lemma run_winner `{MapOrder} s l :
  owners l -> roomy s l = true ->
  forall t k, is_winner (slot (applyAll s l) t k) (candidate s l.*2 t k).
Proof.
  (* generalised over what was merged before *)
  enough (Hgen : forall l s (P : Topic -> recordKey -> Record_ -> Prop), owners l ->
    roomy s l = true -> (forall t k, is_winner (slot s t k) (P t k)) -> forall t k,
    is_winner (slot (applyAll s l) t k)
      (fun c => P t k c \/ (c ∈ l.*2 /\ r_Topic c = t /\ keyOf c = k))).
  { intros Ho Hr. apply Hgen; [done|done|]. intros t k. destruct (slot s t k) as [r|]; simpl.
    - split; [done|]. intros c [= ->]. apply newer_irrefl.
    - naive_solver. }
  clear s l. intros l. induction l as [|[nowMs r] l IH]; intros s P Ho Hroom HP t k.
  - simpl. eapply is_winner_ext; [|apply HP]. intros c. split; [auto|].
    intros [?|(Hin & _)]; [done|by apply not_elem_of_nil in Hin].
  - apply Forall_cons in Ho as [Hr Ho]. simpl in Hroom. bool_to_prop.
    pose proof (ApplyExt_owner_room nowMs s r Hr H0) as Hstep. simpl in Hstep.
    simpl. destruct (ApplyExt nowMs s r) as [s' res]. destruct Hstep as (_ & Hslot & _).
    simpl in *. eapply is_winner_ext;
      [|apply (IH s' (fun t k c => P t k c \/ (c = r /\ r_Topic c = t /\ keyOf c = k)));
        [done|done|]].
    + intros c. rewrite elem_of_cons. naive_solver.
    + intros t' k'. rewrite Hslot. case_decide as Hd.
      * destruct Hd as [-> ->]. eapply is_winner_ext; [|apply join_winner, HP].
        naive_solver.
      * eapply is_winner_ext; [|apply HP]. naive_solver.
Qed.

(** ** The restored-at fence *)
Section fence.
Context `{MapOrder}.

Lemma settle_other_nodes s ts att W k :
  k_NodeID k <> r_NodeID att ->
  records (settle s ts att W).1 !! k = records ts !! k.
Proof.
  intros Hk. destruct (Z.lt_ge_cases (mlen W) (observerQuorum s)) as [Hlt|Hge].
  - by destruct (settle_below s ts att W Hlt) as (_ & -> & _).
  - pose proof (settle_quorum s ts att W Hge) as Hq. simpl in Hq.
    destruct (settle s ts att W) as [ts' [[ap re] ac]]. simpl.
    destruct Hq as (_ & _ & _ & _ & Habs & Hpres).
    destruct (nodePresent ts (r_NodeID att)).
    + rewrite Hpres by done. destruct (records ts !! k); [|done].
      by rewrite bool_decide_eq_false_2.
    + rewrite Habs by done. apply lookup_insert_ne. intros <-. done.
Qed.

(** A slot holds the live record [r], published when the clock read [mark]. *)
Definition fenced (s : recordStore) (t : Topic) (k : recordKey) (r : Record_) (mark : Z) :=
  slot s t k = Some r /\ restoredAtUnixMs (topicOf s t) !! k_NodeID k = Some mark.

(** Inputs that cannot lift the fence: other topics, other nodes, and attestations
    observed no later than the mark. *)
Definition behind_fence (t : Topic) (n : NodeID) (mark : Z) (x : Record_) : Prop :=
  r_Topic x <> t \/ r_NodeID x <> n \/
  (IsObserverAttestation x = true /\ r_ObservedAtUnixMs x <= mark).

Lemma fenced_topicOf s t k r mark :
  fenced s t k r mark <->
  records (topicOf s t) !! k = Some r /\
  restoredAtUnixMs (topicOf s t) !! k_NodeID k = Some mark.
Proof. unfold fenced. by rewrite slot_topicOf. Qed.

Lemma fenced_owner nowMs s ts x k r mark :
  r_NodeID x <> k_NodeID k ->
  records ts !! k = Some r -> restoredAtUnixMs ts !! k_NodeID k = Some mark ->
  records (applyOwner nowMs s ts x).1.2 !! k = Some r /\
  restoredAtUnixMs (applyOwner nowMs s ts x).1.2 !! k_NodeID k = Some mark.
Proof.
  intros Hn Hk Hm. assert (keyOf x <> k) by (intros <-; done).
  unfold applyOwner, stampRestored.
  destruct (records ts !! keyOf x); [destruct (newer x _)|].
  - destruct (r_Tombstone x); simpl; by rewrite ?lookup_insert_ne.
  - done.
  - destruct (mlen (records ts) >=? maxRecordsPerTopic s); [done|].
    destruct (_ && _)%bool; [done|].
    destruct (r_Tombstone x); simpl; by rewrite ?lookup_insert_ne.
Qed.

Lemma fenced_attestation nowMs s ts x k r mark :
  r_NodeID x <> k_NodeID k \/ r_ObservedAtUnixMs x <= mark ->
  records ts !! k = Some r -> restoredAtUnixMs ts !! k_NodeID k = Some mark ->
  records (applyAttestationLocked nowMs s ts x).1.2 !! k = Some r /\
  restoredAtUnixMs (applyAttestationLocked nowMs s ts x).1.2 !! k_NodeID k = Some mark.
Proof.
  intros Hx Hk Hm. destruct (admits nowMs s ts x) eqn:Ha.
  - rewrite attest_admitted by done. simpl. rewrite settle_restored. split; [|done].
    rewrite settle_other_nodes; [done|]. destruct Hx as [?|Hle]; [congruence|].
    intros E. unfold admits, fence_ok in Ha. rewrite <- E, Hm in Ha. bool_to_prop. lia.
  - pose proof (attest_rejected nowMs s ts x Ha) as Hrej.
    destruct (applyAttestationLocked nowMs s ts x) as [[s' ts'] [[ap re] ac]]. simpl.
    by destruct Hrej as (_ & _ & -> & -> & _).
Qed.

Lemma fenced_step nowMs s t k r mark x :
  behind_fence t (k_NodeID k) mark x -> fenced s t k r mark ->
  fenced (ApplyExt nowMs s x).1 t k r mark.
Proof.
  rewrite !fenced_topicOf. intros Hx [Hk Hm].
  rewrite ApplyExt_unfold. case_match; [done|].
  pose proof (applyTopic_store nowMs s (topicOf s (r_Topic x)) x) as Hst.
  assert (Hts : r_Topic x = t ->
    records (applyTopic nowMs s (topicOf s t) x).1.2 !! k = Some r /\
    restoredAtUnixMs (applyTopic nowMs s (topicOf s t) x).1.2 !! k_NodeID k = Some mark).
  { intros Ht. unfold applyTopic. unfold behind_fence in Hx.
    destruct (IsObserverAttestation x); [apply fenced_attestation|apply fenced_owner];
      naive_solver. }
  destruct (decide (r_Topic x = t)) as [<-|Ht].
  - destruct (applyTopic _ _ _ _) as [[s' ts'] res]. cbn [fst snd] in *.
    rewrite topicOf_insert, decide_True by done. by apply Hts.
  - destruct (applyTopic _ _ _ _) as [[s' ts'] res]. cbn [fst snd] in *.
    rewrite topicOf_insert, decide_False by done. destruct Hst as [->| ->]; done.
Qed.

Lemma fenced_run s l t k r mark :
  Forall (fun i => behind_fence t (k_NodeID k) mark i.2) l ->
  fenced s t k r mark -> fenced (applyAll s l) t k r mark.
Proof.
  intros Hl. revert s. induction Hl as [|i l Hi Hl IH]; intros s Hs; [done|].
  simpl. by apply IH, fenced_step.
Qed.
End fence.

(** ** A quorum of fresh attestations against a live node *)
Section quorum.
Context `{MapOrder}.

Lemma live_not_dead ts a k r :
  records ts !! k = Some r -> k_NodeID k = r_NodeID a -> r_Tombstone r = false ->
  dead ts a = false.
Proof.
  intros Hk Hn Hl. unfold dead, nodeDeadAtOrAbove.
  assert (Hin : (k, r) ∈ map_order (slotsOf (r_NodeID a) (records ts)))
    by by apply elem_of_map_order, lookup_slotsOf.
  set (step := fun '(had, allDead) '(_, r) =>
    (true, if negb (r_Tombstone r) || (r_HLC r <? r_HLC a) then false else allDead)).
  assert (Hfalse : forall l b, (foldl step (b, false) l).2 = false).
  { induction l as [|[k' r'] l IH]; intros b; simpl; [done|].
    destruct (_ || _)%bool; apply IH. }
  assert (Hd : forall l b, (k, r) ∈ l -> (foldl step b l).2 = false).
  { induction l as [|[k' r'] l IH]; intros b Hl'; [by apply not_elem_of_nil in Hl'|].
    apply elem_of_cons in Hl' as [[= <- <-]|Hl']; simpl; [|by apply IH].
    destruct b as [had ad]. simpl. rewrite Hl. simpl. apply Hfalse. }
  specialize (Hd _ (false, true) Hin). destruct (foldl step _ _) as [had ad].
  simpl in Hd. by rewrite Hd, !andb_false_r.
Qed.

Definition observer_of (i : input) : NodeID := r_ObserverNodeID i.2.

(** The witness set a list of attestations of distinct observers adds up to. *)
Definition witnessMap (l : list input) : gmap NodeID Record_ :=
  list_to_map ((fun i => (observer_of i, i.2)) <$> l).

Lemma witnessMap_fst l : ((fun i : input => (observer_of i, i.2)) <$> l).*1 = observer_of <$> l.
Proof. by rewrite <- list_fmap_compose. Qed.

Lemma witnessMap_snoc l i :
  NoDup (observer_of <$> l ++ [i]) ->
  witnessMap l !! observer_of i = None /\
  witnessMap (l ++ [i]) = <[observer_of i := i.2]> (witnessMap l) /\
  mlen (witnessMap (l ++ [i])) = mlen (witnessMap l) + 1.
Proof.
  rewrite fmap_app. intros (_ & Hni & _)%NoDup_app.
  assert (Hn : observer_of i ∉ observer_of <$> l).
  { intros Hin. apply (Hni _ Hin). left. }
  assert (Hnone : witnessMap l !! observer_of i = None).
  { apply not_elem_of_list_to_map_1. by rewrite witnessMap_fst. }
  assert (Heq : witnessMap (l ++ [i]) = <[observer_of i := i.2]> (witnessMap l)).
  { unfold witnessMap. rewrite fmap_app. simpl. apply list_to_map_snoc.
    by rewrite witnessMap_fst. }
  split_and!; [done|done|]. by rewrite Heq, mlen_insert, Hnone.
Qed.

Lemma witnessMap_elem l o a :
  witnessMap l !! o = Some a -> exists i, i ∈ l /\ i.2 = a /\ observer_of i = o.
Proof.
  unfold witnessMap. intros Hin%elem_of_list_to_map_2.
  apply list_elem_of_fmap in Hin as (i & [= -> ->] & Hi). eauto.
Qed.

Lemma witnessMap_lookup l i :
  NoDup (observer_of <$> l) -> i ∈ l -> witnessMap l !! observer_of i = Some i.2.
Proof.
  intros Hnd Hi. apply elem_of_list_to_map_1; [by rewrite witnessMap_fst|].
  apply list_elem_of_fmap. eauto.
Qed.

(** An attestation that every stateless gate lets through, observed in the span
    from [base] to [base] plus the window. *)
Definition supports (s : recordStore) (t : Topic) (n : NodeID) (base : Z) (i : input) : Prop :=
  IsObserverAttestation i.2 = true /\ r_Topic i.2 = t /\ r_NodeID i.2 = n /\
  role_ok s i.2 = true /\ skew_ok i.1 i.2 = true /\ fence_ok (topicOf s t) i.2 = true /\
  base <= r_ObservedAtUnixMs i.2 <= base + Milliseconds (observerCorroborationWindow s).

Lemma prune_all s base (W : gmap NodeID Record_) :
  0 <= base -> base + Milliseconds (observerCorroborationWindow s) < 2 ^ 63 ->
  (forall o a, W !! o = Some a ->
     base <= r_ObservedAtUnixMs a <= base + Milliseconds (observerCorroborationWindow s)) ->
  prune s W = W.
Proof.
  intros Hb Hlim HW. unfold prune. apply map_filter_id. intros o a Ho. simpl.
  destruct (newestOf_spec W) as [Hn Hge]. specialize (Hge o a Ho).
  pose proof (HW o a Ho) as Hwin.
  assert (newestOf W <= base + Milliseconds (observerCorroborationWindow s)).
  { destruct Hn as [->|(o' & b & Hb' & ->)]; [lia|]. by destruct (HW o' b Hb'). }
  unfold in_window. rewrite i64_small by (unfold is_i64; lia).
  apply negb_true_iff. rewrite Z.gtb_ltb. apply Z.ltb_ge. lia.
Qed.

(** One more supporting attestation, with [l] already in. *)
Lemma supports_step s0 s t n base l i :
  0 <= base -> base + Milliseconds (observerCorroborationWindow s0) < 2 ^ 63 ->
  config s = config s0 -> restoredAtUnixMs (topicOf s t) = restoredAtUnixMs (topicOf s0 t) ->
  witnessSet (topicOf s t) n = witnessMap l ->
  Forall (supports s0 t n base) (l ++ [i]) -> NoDup (observer_of <$> l ++ [i]) ->
  mlen (witnessMap l) < maxAttestations s0 ->
  (exists k r, records (topicOf s t) !! k = Some r /\ k_NodeID k = n /\
     r_Tombstone r = false) ->
  admits i.1 s (topicOf s t) i.2 = true /\ witnesses s (topicOf s t) i.2 = witnessMap (l ++ [i]).
Proof.
  intros Hb Hlim Hc Hre HW Hall Hnd Hcap (k & r & Hk & Hn & Hl).
  destruct (witnessMap_snoc l i Hnd) as (Hnone & Heq & _).
  assert (Hi : supports s0 t n base i).
  { rewrite Forall_forall in Hall. apply Hall. set_solver. }
  destruct Hi as (Hatt & Ht & Hnode & Hrole & Hskew & Hfence & Hwin).
  unfold config in Hc. injection Hc as _ Ewin Erole _ _ _ Eatt.
  split.
  - unfold admits, fresh, capped. rewrite Hnode, HW. unfold observer_of in Hnone.
    rewrite Hnone, (live_not_dead _ _ k r) by congruence.
    unfold role_ok, fence_ok in *. rewrite Erole, Hrole, Hskew, Hre, Hfence. simpl.
    rewrite Eatt. apply negb_true_iff. lia.
  - unfold witnesses. rewrite Hnode, HW. change (r_ObserverNodeID i.2) with (observer_of i).
    rewrite <- Heq. apply (prune_all s base); rewrite ?Ewin; [done|done|].
    intros o a (j & Hj & <- & _)%witnessMap_elem.
    rewrite Forall_forall in Hall. by apply Hall.
Qed.

Lemma topic_capped_live s t k r :
  records (topicOf s t) !! k = Some r -> topic_capped s t = false.
Proof.
  unfold topicOf, topic_capped. destruct (byTopic s !! t); [done|]. simpl.
  by rewrite lookup_empty.
Qed.

(** Below the quorum the evidence adds up and nothing else changes. *)
Lemma supports_run s t n base l :
  0 <= base -> base + Milliseconds (observerCorroborationWindow s) < 2 ^ 63 ->
  witnessSet (topicOf s t) n = ∅ ->
  (exists k r, records (topicOf s t) !! k = Some r /\ k_NodeID k = n /\
     r_Tombstone r = false) ->
  Forall (supports s t n base) l -> NoDup (observer_of <$> l) ->
  len l < observerQuorum s -> len l <= maxAttestations s ->
  let ts' := topicOf (applyAll s l) t in
  records ts' = records (topicOf s t) /\
  restoredAtUnixMs ts' = restoredAtUnixMs (topicOf s t) /\
  witnessSet ts' n = witnessMap l /\ mlen (witnessMap l) = len l.
Proof.
  intros Hb Hlim HW Hlive. induction l as [|i l IH] using rev_ind; intros Hall Hnd Hq Hm.
  { simpl. done. }
  unfold len in Hq, Hm. rewrite length_app in Hq, Hm. simpl in Hq, Hm.
  destruct IH as (Hrec & Hre & Hw & Hlen).
  { by apply Forall_app in Hall as [? _]. }
  { rewrite fmap_app in Hnd. by apply NoDup_app in Hnd as (? & _). }
  { unfold len. lia. }
  { unfold len. lia. }
  unfold len in Hlen. destruct (witnessMap_snoc l i Hnd) as (_ & _ & Hsz).
  assert (Hi : supports s t n base i).
  { rewrite Forall_forall in Hall. apply Hall. set_solver. }
  destruct Hi as (Hatt & Ht & Hnode & _).
  pose proof (applyAll_config s l) as Hc.
  rewrite applyAll_app. cbn [applyAll foldl].
  destruct (supports_step s (applyAll s l) t n base l i) as [Hadm Hwit]; try done.
  { lia. }
  { destruct Hlive as (k & r & Hk & ?). exists k, r. by rewrite Hrec. }
  assert (Hcap : topic_capped (applyAll s l) (r_Topic i.2) = false).
  { destruct Hlive as (k & r & Hk & _). rewrite <- Hrec in Hk. rewrite Ht.
    by apply (topic_capped_live _ _ k r). }
  pose proof (ApplyExt_attestation i.1 (applyAll s l) i.2 Hatt Hcap) as Hs.
  cbv zeta in Hs. rewrite Ht, Hadm, Hwit, Hnode in Hs.
  destruct (ApplyExt i.1 (applyAll s l) i.2) as [s' [[ap re] ac]]. simpl.
  destruct Hs as (_ & Hre' & _ & Hw' & Hbelow & _).
  unfold config in Hc. injection Hc as EK _ _ _ _ _ _.
  destruct Hbelow as [_ Hrec']; [right; rewrite EK; lia|].
  split_and!.
  - congruence.
  - congruence.
  - by rewrite Hw', decide_True.
  - unfold len. rewrite length_app. simpl. lia.
Qed.

(** The attestation that completes the quorum entombs every older slot of the target. *)
Lemma quorum_run s t n base l k r i0 :
  0 <= base -> base + Milliseconds (observerCorroborationWindow s) < 2 ^ 63 ->
  witnessSet (topicOf s t) n = ∅ ->
  (exists k r, slot s t k = Some r /\ k_NodeID k = n /\ r_Tombstone r = false) ->
  Forall (supports s t n base) l -> NoDup (observer_of <$> l) ->
  len l = observerQuorum s -> 0 < observerQuorum s <= maxAttestations s ->
  Forall (fun i => 0 <= r_HLC i.2 < 2 ^ 64 - 1) l ->
  slot s t k = Some r -> k_NodeID k = n -> i0 ∈ l -> r_HLC r <= r_HLC i0.2 ->
  exists hlc, r_HLC r < hlc /\
    slot (applyAll s l) t k = Some (synthTombstone t n (k_Key k) hlc).
Proof.
  intros Hb Hlim HW Hlive Hall Hnd Hq Hm Hh Hk Hn Hi0 Hle.
  assert (Hlive' : exists k r, records (topicOf s t) !! k = Some r /\ k_NodeID k = n /\
     r_Tombstone r = false).
  { destruct Hlive as (k' & r' & Hk' & ?). rewrite slot_topicOf in Hk'. eauto. }
  rewrite slot_topicOf in Hk.
  destruct l as [|i l _] using rev_ind; [by apply not_elem_of_nil in Hi0|].
  assert (Hl1 : len (l ++ [i]) = len l + 1)
    by (unfold len; rewrite length_app; simpl; lia).
  destruct (supports_run s t n base l) as (Hrec & Hre & Hw & Hlen); try done; try lia.
  { by apply Forall_app in Hall as [? _]. }
  { rewrite fmap_app in Hnd. by apply NoDup_app in Hnd as (? & _). }
  destruct (witnessMap_snoc l i Hnd) as (_ & _ & Hsz).
  assert (Hi : supports s t n base i).
  { rewrite Forall_forall in Hall. apply Hall. set_solver. }
  destruct Hi as (Hatt & Ht & Hnode & _).
  pose proof (applyAll_config s l) as Hc.
  rewrite applyAll_app. cbn [applyAll foldl].
  destruct (supports_step s (applyAll s l) t n base l i) as [Hadm Hwit]; try done.
  { lia. }
  { destruct Hlive' as (k' & r' & Hk' & ?). exists k', r'. by rewrite Hrec. }
  assert (Hcap : topic_capped (applyAll s l) (r_Topic i.2) = false).
  { rewrite <- Hrec in Hk. rewrite Ht. by apply (topic_capped_live _ _ k r). }
  pose proof (ApplyExt_attestation i.1 (applyAll s l) i.2 Hatt Hcap) as Hs.
  cbv zeta in Hs. rewrite Ht, Hadm, Hwit, Hnode in Hs.
  destruct (ApplyExt i.1 (applyAll s l) i.2) as [s' [[ap re] ac]]. simpl.
  destruct Hs as (_ & _ & _ & _ & _ & Hset).
  unfold config in Hc. injection Hc as EK _ _ _ _ _ _.
  exists (synthHLC (witnessMap (l ++ [i]))).
  assert (Hsyn : r_HLC r < synthHLC (witnessMap (l ++ [i]))).
  { unfold synthHLC. rewrite Forall_forall in Hh.
    destruct (loop_max_ge (fun e : NodeID * Record_ => r_HLC e.2) 0
      (map_order (witnessMap (l ++ [i])))) as [H0 Hge].
    pose proof (witnessMap_lookup _ i0 Hnd Hi0) as Hl0. apply elem_of_map_order in Hl0.
    specialize (Hge _ Hl0). simpl in Hge.
    assert (Hlt : loop_max (fun e : NodeID * Record_ => r_HLC e.2) 0
      (map_order (witnessMap (l ++ [i]))) < 2 ^ 64 - 1).
    { destruct (loop_max_attained (fun e : NodeID * Record_ => r_HLC e.2) 0
        (map_order (witnessMap (l ++ [i])))) as [->|([o b] & Hb' & ->)]; [lia|].
      apply elem_of_map_order, witnessMap_elem in Hb' as (j & Hj & <- & _).
      by apply Hh. }
    rewrite u64_small by (unfold is_u64; lia). lia. }
  split; [done|]. rewrite slot_topicOf, Hset by (done || lia).
  rewrite Hrec, Hk, Hn, bool_decide_eq_true_2 by done.
  by rewrite (proj2 (Z.gtb_lt _ _)).
Qed.
End quorum.

(** ** Slots only advance *)
Section advance.
Context `{MapOrder}.

Lemma ApplyExt_capped nowMs s r :
  topic_capped s (r_Topic r) = true -> forall t k, slot (ApplyExt nowMs s r).1 t k = slot s t k.
Proof. intros Hc t k. by rewrite ApplyExt_unfold, Hc. Qed.

(** What is in a slot stays there until something newer takes its place. *)
Lemma slot_advances nowMs s r t k cur :
  slot s t k = Some cur ->
  exists cur', slot (ApplyExt nowMs s r).1 t k = Some cur' /\
    (cur' = cur \/ newer cur' cur = true).
Proof.
  intros Hk. destruct (IsObserverAttestation r) eqn:Ho.
  - destruct (topic_capped s (r_Topic r)) eqn:Hc.
    { exists cur. rewrite ApplyExt_capped by done. auto. }
    pose proof (ApplyExt_attestation nowMs s r Ho Hc) as Ha. cbv zeta in Ha.
    destruct (ApplyExt nowMs s r) as [s' [[ap re] ac]].
    destruct Ha as (Hother & _ & _ & _ & Hbelow & Hquorum). simpl.
    rewrite slot_topicOf in *. destruct (decide (t = r_Topic r)) as [->|Ht].
    2:{ rewrite Hother by done. exists cur. auto. }
    destruct (admits nowMs s (topicOf s (r_Topic r)) r) eqn:Had.
    2:{ destruct (Hbelow (or_introl eq_refl)) as [_ ->]. exists cur. auto. }
    destruct (Z.lt_ge_cases (mlen (witnesses s (topicOf s (r_Topic r)) r)) (observerQuorum s)).
    { destruct Hbelow as [_ ->]; [by right|]. exists cur. auto. }
    rewrite Hquorum, Hk by done. case_match eqn:E; [|exists cur; auto].
    eexists. split; [done|right]. bool_to_prop. unfold newer. simpl.
    apply Z.gtb_lt in H2. destruct (synthHLC _ >? r_HLC cur) eqn:E'; [done|]. lia.
  - destruct (room s r) eqn:Hr.
    + pose proof (ApplyExt_owner_room nowMs s r Ho Hr) as Ha. cbv zeta in Ha.
      destruct (ApplyExt nowMs s r) as [s' res]. destruct Ha as (_ & Hslot & _). simpl.
      rewrite Hslot. case_decide as Hd; [|exists cur; auto]. destruct Hd as [-> ->].
      rewrite Hk. eexists. split; [done|]. simpl. destruct (newer r cur) eqn:E; auto.
    + pose proof (ApplyExt_owner_capped nowMs s r Ho Hr) as Ha.
      destruct (ApplyExt nowMs s r) as [s' res]. destruct Ha as (_ & Ht & _). simpl.
      exists cur. rewrite slot_topicOf, Ht, <- slot_topicOf. auto.
Qed.
End advance.
