(* ===== verification/CrdtReads.v ===== *)
(** * Reads and retention of the record store

    Lemmas on the sorted reads of src/crdt.go, stated by slots: which records a read
    returns, in which order, and that neither depends on the order of map iteration;
    and on the retention sweep. *)
From S2P Require Import Prelude Types Hlc Crdt CrdtLemmas CrdtInv.

(** ** Lists *)

Lemma list_filter_elem {A} (f : A -> bool) l x : x ∈ List.filter f l <-> x ∈ l /\ f x = true.
Proof. rewrite !list_elem_of_In. apply filter_In. Qed.

Lemma StronglySorted_impl_elem {A} (R Q : A -> A -> Prop) l :
  (forall x y, x ∈ l -> y ∈ l -> R x y -> Q x y) -> StronglySorted R l -> StronglySorted Q l.
Proof.
  intros HRQ Hs. induction Hs as [|x l Hs IH Hall]; constructor.
  - apply IH. intros y z Hy Hz. apply HRQ; by right.
  - rewrite Forall_forall in Hall |- *. intros y Hy.
    apply HRQ; [left|by right|by apply Hall].
Qed.

Lemma StronglySorted_filter {A} (R : A -> A -> Prop) (f : A -> bool) l :
  StronglySorted R l -> StronglySorted R (List.filter f l).
Proof.
  induction 1 as [|x l Hs IH Hall]; simpl; [constructor|].
  destruct (f x); [|done]. constructor; [done|].
  rewrite Forall_forall in Hall |- *. intros y [Hy _]%list_filter_elem. auto.
Qed.

(** A list of records in strictly increasing slot order. *)
Definition slot_sorted (l : list Record_) : Prop :=
  StronglySorted (fun x y => lessRecordKey (keyOf x) (keyOf y) = true) l.

Lemma slot_sorted_unique l1 l2 :
  slot_sorted l1 -> slot_sorted l2 -> (forall r, r ∈ l1 <-> r ∈ l2) -> l1 = l2.
Proof.
  apply (strict_sorted_unique (fun x y => lessRecordKey (keyOf x) (keyOf y)));
    eauto with swarm.
Qed.

(** ** Reads *)
Section reads.
Context `{MapOrder}.

Lemma keyOf_entries (m : gmap recordKey Record_) :
  (forall k r, m !! k = Some r -> keyOf r = k) ->
  keyOf <$> (map_order m).*2 = (map_order m).*1.
Proof.
  intros Hm. rewrite <- list_fmap_compose. apply list_fmap_ext.
  intros i [k r] Hi. simpl. apply Hm. apply elem_of_map_order.
  by apply list_elem_of_lookup_2 in Hi.
Qed.

Lemma NoDup_entries (m : gmap recordKey Record_) :
  (forall k r, m !! k = Some r -> keyOf r = k) -> NoDup (keyOf <$> (map_order m).*2).
Proof. intros Hm. rewrite keyOf_entries by done. apply NoDup_map_order_fst. Qed.

Lemma wf_slot_key s t k r :
  wf_store s -> slot s t k = Some r -> r_Topic r = t /\ keyOf r = k.
Proof.
  intros Hwf. unfold slot. destruct (byTopic s !! t) as [ts|] eqn:E; [|done].
  apply (wf_records _ _ _ (wf_topics s Hwf t ts E)).
Qed.

Lemma elem_of_topicRecordsWhere s t keep r :
  wf_store s ->
  r ∈ topicRecordsWhere s t keep <-> slot s t (keyOf r) = Some r /\ keep r = true.
Proof.
  intros Hwf. unfold topicRecordsWhere, slot.
  destruct (byTopic s !! t) as [ts|] eqn:E; [|by split; [intros ?%not_elem_of_nil|intros []]].
  pose proof (wf_topics s Hwf t ts E) as Hts.
  rewrite elem_of_sort_by, list_filter_elem, list_elem_of_fmap. split.
  - intros [([k r'] & -> & Hin) Hk]. apply elem_of_map_order in Hin. simpl in *.
    destruct (wf_records _ _ _ Hts k r' Hin) as [_ <-]. done.
  - intros [Hr Hk]. split; [|done]. exists (keyOf r, r). split; [done|].
    by apply elem_of_map_order.
Qed.

Lemma topicRecordsWhere_sorted s t keep :
  wf_store s -> slot_sorted (topicRecordsWhere s t keep).
Proof.
  intros Hwf. unfold topicRecordsWhere.
  destruct (byTopic s !! t) as [ts|] eqn:E; [|constructor].
  apply sort_by_strict; eauto with swarm. apply NoDup_fmap_filter, NoDup_entries.
  intros k r Hk. by apply (wf_records _ _ _ (wf_topics s Hwf t ts E)).
Qed.

(** [NodeRecords] is the part of [TopicRecords] that belongs to the node. *)
Lemma elem_of_NodeRecords s t n r :
  wf_store s ->
  r ∈ NodeRecords s t n <->
  slot s t (keyOf r) = Some r /\ r_NodeID r = n /\ r_Tombstone r = false.
Proof.
  intros Hwf. unfold NodeRecords, slot.
  destruct (byTopic s !! t) as [ts|] eqn:E; [|by split; [intros ?%not_elem_of_nil|intros []]].
  pose proof (wf_records _ _ _ (wf_topics s Hwf t ts E)) as Hts.
  rewrite list_elem_of_omap. split.
  - intros (k & Hk & Hr). rewrite elem_of_sort_by, list_elem_of_fmap in Hk.
    destruct Hk as ([k' r'] & -> & Hin). apply list_filter_elem in Hin as [Hin Ht].
    apply elem_of_map_order, lookup_slotsOf in Hin as [Hin Hn]. simpl in *.
    simplify_eq. destruct (Hts _ _ Hin) as [_ <-]. bool_to_prop. done.
  - intros (Hr & Hn & Ht). exists (keyOf r). split; [|done].
    rewrite elem_of_sort_by, list_elem_of_fmap. exists (keyOf r, r). split; [done|].
    apply list_filter_elem. rewrite elem_of_map_order, lookup_slotsOf. simpl.
    by rewrite Ht.
Qed.

Lemma omap_sorted (m : gmap recordKey Record_) ks :
  (forall k r, m !! k = Some r -> keyOf r = k) ->
  StronglySorted (fun a b => lessRecordKey a b = true) ks ->
  slot_sorted (omap (fun k => m !! k) ks).
Proof.
  intros Hm Hs. induction Hs as [|k ks Hs IH Hall]; simpl; [constructor|].
  destruct (m !! k) as [r|] eqn:E; [|done]. constructor; [done|].
  apply Forall_forall. intros r' Hr'.
  apply list_elem_of_omap in Hr' as (k' & Hk' & Hr').
  rewrite (Hm _ _ E), (Hm _ _ Hr'). rewrite Forall_forall in Hall. auto.
Qed.

Lemma NodeRecords_sorted s t n : wf_store s -> slot_sorted (NodeRecords s t n).
Proof.
  intros Hwf. unfold NodeRecords.
  destruct (byTopic s !! t) as [ts|] eqn:E; [|constructor].
  apply omap_sorted.
  - intros k r Hk. by apply (wf_records _ _ _ (wf_topics s Hwf t ts E)).
  - apply (sort_by_strict id lessRecordKey); eauto with swarm. rewrite list_fmap_id.
    apply (NoDup_fmap_filter fst), NoDup_map_order_fst.
Qed.

Lemma NodeRecords_filter s t n :
  wf_store s ->
  NodeRecords s t n = List.filter (fun r => String.eqb (r_NodeID r) n) (TopicRecords s t).
Proof.
  intros Hwf. apply slot_sorted_unique.
  - by apply NodeRecords_sorted.
  - by apply StronglySorted_filter, topicRecordsWhere_sorted.
  - intros r. rewrite elem_of_NodeRecords, list_filter_elem by done.
    unfold TopicRecords. rewrite elem_of_topicRecordsWhere by done.
    rewrite String.eqb_eq, negb_true_iff. tauto.
Qed.
End reads.

(** Equal slots give equal reads, whatever the iteration orders. *)
Lemma topicRecordsWhere_ext (O1 O2 : MapOrder) s1 s2 t keep :
  wf_store s1 -> wf_store s2 -> (forall k, slot s1 t k = slot s2 t k) ->
  @topicRecordsWhere O1 s1 t keep = @topicRecordsWhere O2 s2 t keep.
Proof.
  intros H1 H2 Hs. apply slot_sorted_unique; [by apply topicRecordsWhere_sorted..|].
  intros r. rewrite !elem_of_topicRecordsWhere by done. by rewrite Hs.
Qed.

(** ** Retention *)

(** A topic store after the sweep, before the empty topic entry is dropped. *)
Definition kept (nowMs ttl : Z) (ts : topicStore) : topicStore :=
  if ttl <=? 0 then ts else
  let ts' := set_records ts
    (filter (fun e => expired nowMs (Milliseconds ttl) e.2 = false) (records ts)) in
  set_restoredAt ts' (filter (fun e => nodePresent ts' e.1 = true) (restoredAtUnixMs ts)).

Lemma reapTopic_kept nowMs ttl ts :
  default newTopicStore (reapTopic nowMs ttl ts).1 = kept nowMs ttl ts /\
  (forall ts', (reapTopic nowMs ttl ts).1 = Some ts' -> ts' = kept nowMs ttl ts) /\
  (reapTopic nowMs ttl ts).2 =
    mlen (records ts) - mlen (records (default newTopicStore (reapTopic nowMs ttl ts).1)).
Proof.
  unfold reapTopic, kept. destruct (ttl <=? 0); simpl; [split_and!; [done|congruence|lia]|].
  set (recs := filter _ (records ts)).
  destruct ((mlen recs =? 0) && (mlen (attestations ts) =? 0)) eqn:E; simpl.
  - bool_to_prop. apply mlen_zero in H. apply mlen_zero in H0.
    unfold newTopicStore, set_records, set_restoredAt. simpl. rewrite H, H0.
    split_and!; [|done|done].
    f_equal; try done. apply map_eq. intros n. rewrite lookup_empty.
    destruct (filter _ (restoredAtUnixMs ts) !! n) as [v|] eqn:Ev; [|done].
    apply map_lookup_filter_Some in Ev as [_ Ev]. unfold nodePresent in Ev. simpl in Ev.
    by rewrite slotsOf_empty in Ev.
  - split_and!; [done|congruence|done].
Qed.

Lemma kept_new nowMs ttl : kept nowMs ttl newTopicStore = newTopicStore.
Proof.
  unfold kept. destruct (ttl <=? 0); [done|]. unfold newTopicStore, set_records, set_restoredAt.
  simpl. by rewrite !map_filter_empty.
Qed.

Lemma reap_topicOf s nowMs ttl t :
  topicOf (reapExpired s nowMs (Some ttl)).1 t = kept nowMs (ttl t) (topicOf s t).
Proof.
  unfold topicOf. simpl. rewrite map_lookup_imap.
  destruct (byTopic s !! t) as [ts|]; simpl; [apply (proj1 (reapTopic_kept nowMs (ttl t) ts))|by rewrite kept_new].
Qed.

Lemma kept_records nowMs ttl ts k :
  records (kept nowMs ttl ts) !! k =
  match records ts !! k with
  | Some r => if (0 <? ttl) && expired nowMs (Milliseconds ttl) r then None else Some r
  | None => None
  end.
Proof.
  unfold kept. rewrite Z.leb_antisym. destruct (0 <? ttl); simpl; [|by case_match].
  rewrite map_lookup_filter. destruct (records ts !! k) as [r|]; simpl; [|done].
  destruct (expired _ _ r); [by rewrite option_guard_False|by rewrite option_guard_True].
Qed.

Lemma kept_restored nowMs ttl ts n :
  (forall v, restoredAtUnixMs ts !! n = Some v -> nodePresent ts n = true) ->
  restoredAtUnixMs (kept nowMs ttl ts) !! n =
  (if nodePresent (kept nowMs ttl ts) n then restoredAtUnixMs ts !! n else None).
Proof.
  intros Hp. unfold kept. destruct (ttl <=? 0); simpl.
  - destruct (restoredAtUnixMs ts !! n) as [v|]; [by rewrite (Hp v)|by case_match].
  - set (ts1 := set_records ts _). set (re := filter _ (restoredAtUnixMs ts)).
    change (nodePresent (set_restoredAt ts1 re) n) with (nodePresent ts1 n). subst re.
    rewrite map_lookup_filter. destruct (restoredAtUnixMs ts !! n) as [v|]; simpl;
      [|by destruct (nodePresent ts1 n)].
    destruct (nodePresent ts1 n) eqn:E;
      [by rewrite option_guard_True|by rewrite option_guard_False; rewrite ?E].
Qed.

Lemma kept_attestations nowMs ttl ts : attestations (kept nowMs ttl ts) = attestations ts.
Proof. unfold kept. by destruct (ttl <=? 0). Qed.

(** *** Counting *)

(** The number of slots over all topics. *)
Definition slots_total (m : gmap Topic topicStore) : Z :=
  map_fold (fun _ ts d => d + mlen (records ts)) 0 m.

Lemma slots_total_insert m t ts :
  m !! t = None -> slots_total (<[t := ts]> m) = slots_total m + mlen (records ts).
Proof. intros Ht. unfold slots_total. rewrite map_fold_insert_L; [done|lia|done]. Qed.

Lemma Count_total `{MapOrder} s : Count s = slots_total (byTopic s).
Proof.
  assert (Hl : forall l z, foldl (fun total (e : Topic * topicStore) =>
      total + mlen (records e.2)) z l =
      z + foldr (uncurry (fun _ ts d => d + mlen (records ts))) 0 l).
  { induction l as [|[t ts] l IH]; intros z; simpl; [lia|]. rewrite IH. lia. }
  unfold Count, slots_total. rewrite Hl, map_fold_foldr, Z.add_0_l.
  generalize (map_order_perm (byTopic s)). generalize (map_order (byTopic s)).
  intros l Hp. induction Hp as [|[] ? ? ? IH|[] [] ?|? ? ? ? IH1 ? IH2]; simpl; try lia.
Qed.

Lemma reap_imap_spec nowMs (ttl : Topic -> Z) (m : gmap Topic topicStore) :
  let m' := map_imap (fun t ts => (reapTopic nowMs (ttl t) ts).1) m in
  slots_total m = slots_total m' +
    map_fold (fun t ts d => d + (reapTopic nowMs (ttl t) ts).2) 0 m /\
  mlen m' <= mlen m.
Proof.
  induction m as [|t ts m Ht [IH1 IH2]] using map_ind; simpl in *; [done|].
  rewrite slots_total_insert, map_fold_insert_L by (done || lia).
  rewrite map_imap_insert.
  assert (Hn : map_imap (fun t ts => (reapTopic nowMs (ttl t) ts).1) m !! t = None)
    by by rewrite map_lookup_imap, Ht.
  destruct (reapTopic_kept nowMs (ttl t) ts) as (_ & _ & Hd). rewrite mlen_insert, Ht.
  destruct (reapTopic nowMs (ttl t) ts) as [[ts'|] d]; simpl in *; subst d.
  - rewrite slots_total_insert, mlen_insert, Hn by done. lia.
  - rewrite delete_id by done. change (mlen (∅ : gmap recordKey Record_)) with 0. lia.
Qed.

Lemma wf_reapExpired s nowMs ttlFor : wf_store s -> wf_store (reapExpired s nowMs ttlFor).1.
Proof.
  intros Hwf. destruct ttlFor as [ttl|]; [|done]. destruct Hwf as [Ht Hn Hc Hq].
  split; simpl; [|pose proof (proj2 (reap_imap_spec nowMs ttl (byTopic s))); simpl in *; lia|done|done].
  intros t ts. rewrite map_lookup_imap.
  destruct (byTopic s !! t) as [ts0|] eqn:E; [|done]. simpl. intros Hts.
  apply (proj1 (proj2 (reapTopic_kept nowMs (ttl t) ts0))) in Hts. subst ts.
  destruct (Ht t ts0 E) as [Hr Hw Hs Hre]. split.
  - intros k r. rewrite kept_records. destruct (records ts0 !! k) eqn:Ek; [|done].
    case_match; [done|]. intros [= <-]. auto.
  - intros n W o a. rewrite kept_attestations. apply Hw.
  - intros n W. rewrite kept_attestations. apply Hs.
  - intros n v. rewrite kept_restored by (intros; eauto). by case_match.
Qed.
