(* ===== verification/CrdtSpec.v ===== *)
(** * Properties of the record store

    What src/crdt.go promises: no node is evicted without a quorum of witnesses, owner
    records merge into a join semilattice, replicas converge, a returning node is safe
    from the evidence against its previous life, the caps hold, the reads are exact and
    ordered, and retention removes exactly what has expired. *)
From S2P Require Import Prelude Types Hlc Crdt CrdtLemmas CrdtInv CrdtReads.

(** ** Sample inputs *)

Definition peerRecord (n : NodeID) (hlc : Z) (body : string) (sig : string) : Record_ :=
  mkRecord "fleet" n hlc (toBytes body) false [] (toBytes sig) "" "" 0.

Definition attestation (n o : NodeID) (hlc at_ : Z) : Record_ :=
  mkRecord "fleet" n hlc [] true [] (toBytes o) "" o at_.

(** ** Eviction *)

(** Attestation fields within their machine ranges: a time of observation since 1970
    and an HLC below the largest word. *)
Definition sane_attestation (r : Record_) : Prop :=
  IsObserverAttestation r = true ->
  0 <= r_ObservedAtUnixMs r < 2 ^ 63 /\ 0 <= r_HLC r < 2 ^ 64 - 1.

(** The observers whose attestations support evicting [n] from topic [t] with a
    tombstone of HLC [hlc]: delivered, role-checked, one attestation each, pairwise
    within the corroboration window, and all older than the tombstone. *)
Definition corroborated (s : recordStore) (rs : list Record_) (t : Topic) (n : NodeID)
    (hlc : Z) (W : gmap NodeID Record_) : Prop :=
  observerQuorum s <= mlen W /\
  (forall o a, W !! o = Some a ->
     a ∈ rs /\ IsObserverAttestation a = true /\ r_Topic a = t /\ r_NodeID a = n /\
     r_ObserverNodeID a = o /\ role_ok s a = true /\ r_HLC a < hlc) /\
  (forall o1 a1 o2 a2, W !! o1 = Some a1 -> W !! o2 = Some a2 ->
     Z.abs (r_ObservedAtUnixMs a1 - r_ObservedAtUnixMs a2) <=
     Milliseconds (observerCorroborationWindow s)).

Lemma quorum_evidence_corroborated `{MapOrder} s rs t n hlc :
  (forall r, r ∈ rs -> sane_attestation r) ->
  quorum_evidence rs s t n hlc -> exists W, corroborated s rs t n hlc W.
Proof.
  intros Hsane (W & newest & Hq & Hs & Hn & HW). exists W.
  assert (Hw : forall o a, W !! o = Some a ->
    a ∈ rs /\ IsObserverAttestation a = true /\
    0 <= r_ObservedAtUnixMs a < 2 ^ 63 /\ 0 <= r_HLC a < 2 ^ 64 - 1).
  { intros o a Ho. destruct (HW o a Ho) as ((Hin & Hatt & _) & _).
    by destruct (Hsane a Hin Hatt). }
  assert (Hwin : forall o a, W !! o = Some a ->
    r_ObservedAtUnixMs a <= newest <=
      r_ObservedAtUnixMs a + Milliseconds (observerCorroborationWindow s)).
  { intros o a Ho. destruct (HW o a Ho) as (_ & Hle & Hin).
    destruct (Hw o a Ho) as (_ & _ & Hr & _). split; [done|].
    assert (0 <= newest < 2 ^ 63).
    { destruct Hn as [->|(o' & b & (Hb & Hatt & _) & ->)]; [lia|].
      by destruct (Hsane b Hb Hatt). }
    unfold in_window in Hin. rewrite i64_small in Hin by (unfold is_i64; lia).
    rewrite Z.gtb_ltb in Hin. bool_to_prop. lia. }
  split; [done|]. split.
  - intros o a Ho. destruct (HW o a Ho) as ((Hin & Hatt & Ht & Hnd & Hob & Hrole) & _).
    split_and!; try done. rewrite <- Hs. unfold synthHLC.
    assert (Hmax : loop_max (fun e => r_HLC e.2) 0 (map_order W) < 2 ^ 64 - 1).
    { destruct (loop_max_attained (fun e : NodeID * Record_ => r_HLC e.2) 0 (map_order W))
        as [->|([o' b] & Hb & ->)]; [lia|].
      apply elem_of_map_order in Hb. destruct (Hw o' b Hb) as (_ & _ & _ & ?). simpl. lia. }
    destruct (loop_max_ge (fun e : NodeID * Record_ => r_HLC e.2) 0 (map_order W))
      as [H0 Hge].
    rewrite u64_small by (unfold is_u64; lia).
    specialize (Hge (o, a) (proj2 (elem_of_map_order _ _ _) Ho)). simpl in Hge. lia.
  - intros o1 a1 o2 a2 H1 H2. pose proof (Hwin o1 a1 H1). pose proof (Hwin o2 a2 H2). lia.
Qed.

(** C4: nothing a store holds can have been invented. Starting from a store without
    topics, after any sequence of deliveries, whatever their order, their clock
    readings and the iteration orders, every slot holds either an owner record that was
    delivered for that very slot, or a tombstone backed by a quorum: at least K
    distinct observers whose delivered attestations name this node, passed the role
    check, lie pairwise within the corroboration window and are older than the
    tombstone. No single observer, however often it repeats itself, evicts a node. *)
Theorem no_eviction_without_quorum `{MapOrder} (s : recordStore) (l : list input)
    (t : Topic) (k : recordKey) (r : Record_) :
  byTopic s = ∅ -> Forall (fun i => sane_attestation i.2) l ->
  slot (applyAll s l) t k = Some r ->
  (r ∈ l.*2 /\ IsObserverAttestation r = false /\ r_Topic r = t /\ keyOf r = k) \/
  (r = synthTombstone t (k_NodeID k) (k_Key k) (r_HLC r) /\
   exists W, corroborated s l.*2 t (k_NodeID k) (r_HLC r) W).
Proof.
  intros He Hl. unfold slot. destruct (byTopic (applyAll s l) !! t) as [ts|] eqn:E; [|done].
  intros Hk. destruct (provenance_run [] s l) with (t := t) (ts := ts) as [Hr _]; [|done|].
  { intros t' ts'. by rewrite He, lookup_empty. }
  destruct (Hr k r Hk) as [?|(? & Hq)]; [by left|right]. split; [done|].
  apply quorum_evidence_corroborated; [|done].
  intros r' Hr'. apply list_elem_of_fmap in Hr' as (i & -> & Hi).
  rewrite Forall_forall in Hl. by apply Hl.
Qed.

(** Two observers a second apart evict a peer; one observer repeating itself does not. *)
Definition evict_inputs : list input :=
  [(1000, peerRecord "n1" 5 "hello" "s");
   (2000, attestation "n1" "o1" 7 1500); (2001, attestation "n1" "o2" 8 2500)].

Definition repeat_inputs : list input :=
  [(1000, peerRecord "n1" 5 "hello" "s");
   (2000, attestation "n1" "o1" 7 1500); (2001, attestation "n1" "o1" 8 2500)].

Lemma no_eviction_without_quorum_witness :
  let _ := std_order in
  slot (applyAll newRecordStore evict_inputs) "fleet" (mkKey "n1" "") =
    Some (synthTombstone "fleet" "n1" "" 9) /\
  (exists W, corroborated newRecordStore evict_inputs.*2 "fleet" "n1" 9 W) /\
  slot (applyAll newRecordStore repeat_inputs) "fleet" (mkKey "n1" "") =
    Some (peerRecord "n1" 5 "hello" "s").
Proof.
  intros _o. split; [vm_compute; reflexivity|]. split; [|vm_compute; reflexivity].
  pose proof (@no_eviction_without_quorum std_order newRecordStore evict_inputs "fleet"
    (mkKey "n1" "") (synthTombstone "fleet" "n1" "" 9) ltac:(reflexivity)) as H.
  destruct H as [(Hin & _)|(_ & HW)].
  - repeat constructor; vm_compute; congruence.
  - vm_compute. reflexivity.
  - vm_compute in Hin. repeat (apply elem_of_cons in Hin as [Hin|Hin]; [discriminate Hin|]).
    by apply not_elem_of_nil in Hin.
  - exact HW.
Defined.

(** ** The merge of owner records *)

(** C13: [ApplyExt] on an owner record is the last-writer-wins merge of its slot, on
    every branch. The record wins an empty slot if no cap stops it, and an occupied one
    exactly when its HLC is higher or the HLCs tie and its signature is larger; the
    three flags say so; the slot, the witness sets and the restored-at marks change
    exactly then and only for this node; a refused record only counts. *)
Theorem ApplyExt_owner_spec `{MapOrder} (nowMs : Z) (s : recordStore) (r : Record_) :
  IsObserverAttestation r = false ->
  let cur := slot s (r_Topic r) (keyOf r) in
  let won := match cur with None => room s r | Some c => newer r c end in
  let '(s', (applied, replaced, accumulated)) := ApplyExt nowMs s r in
  applied = won /\ replaced = bool_decide (is_Some cur) /\ accumulated = false /\
  (forall t k, slot s' t k =
     if decide (won = true /\ t = r_Topic r /\ k = keyOf r) then Some r else slot s t k) /\
  (forall t n, witnessSet (topicOf s' t) n =
     if decide (won = true /\ is_Some cur /\ t = r_Topic r /\ n = r_NodeID r) then ∅
     else witnessSet (topicOf s t) n) /\
  (forall t n, restoredAtUnixMs (topicOf s' t) !! n =
     if decide (won = true /\ r_Tombstone r = false /\ t = r_Topic r /\ n = r_NodeID r)
     then Some nowMs else restoredAtUnixMs (topicOf s t) !! n) /\
  (room s r = false -> rejectedCap s' = u64 (rejectedCap s + 1)) /\
  config s' = config s.
Proof.
  intros Ho cur won. pose proof (ApplyExt_config nowMs s r) as Hcfg.
  pose proof (fun t => ApplyExt_other nowMs s r t) as Hother.
  destruct (room s r) eqn:Hroom.
  - pose proof (ApplyExt_owner_room nowMs s r Ho Hroom) as Hs. simpl in Hs. fold cur in Hs.
    destruct (ApplyExt nowMs s r) as [s' [[ap re] ac]]. simpl in Hcfg, Hother.
    destruct Hs as ([= -> -> ->] & Hslot & Hatt & Hres).
    assert (Hw : won = match cur with None => true | Some c => newer r c end)
      by (unfold won; by destruct cur).
    split_and!; try done.
    + unfold won. by destruct cur.
    + intros t k. rewrite Hslot, Hw. unfold cur, join in *.
      destruct (decide (t = _ /\ k = _)) as [[-> ->]|Hd];
        [|rewrite decide_False by naive_solver; done].
      destruct (slot s (r_Topic r) (keyOf r)) as [c|]; [|by rewrite decide_True].
      destruct (newer r c); [by rewrite decide_True|by rewrite decide_False by naive_solver].
    + intros t n. unfold witnessSet. destruct (decide (t = r_Topic r)) as [->|Ht].
      * rewrite Hatt, Hw. destruct cur as [c|]; [|by rewrite decide_False by naive_solver].
        destruct (newer r c); [|by rewrite decide_False by naive_solver].
        rewrite lookup_delete. repeat case_decide; naive_solver.
      * rewrite decide_False by naive_solver. unfold topicOf. by rewrite Hother.
    + intros t n. destruct (decide (t = r_Topic r)) as [->|Ht].
      * rewrite Hres, Hw. destruct (r_Tombstone r); simpl;
          [by rewrite decide_False by naive_solver|].
        destruct (match cur with None => true | Some c => newer r c end);
          [rewrite lookup_insert; repeat case_decide; naive_solver
          |by rewrite decide_False by naive_solver].
      * rewrite decide_False by naive_solver. unfold topicOf. by rewrite Hother.
  - pose proof (ApplyExt_owner_capped nowMs s r Ho Hroom) as Hs.
    assert (Hcur : cur = None).
    { unfold cur, slot. unfold room in Hroom. destruct (byTopic s !! r_Topic r); [|done].
      by destruct (records t !! keyOf r). }
    destruct (ApplyExt nowMs s r) as [s' [[ap re] ac]].
    destruct Hs as ([= -> -> ->] & Htop & Hrej). unfold won. rewrite Hcur.
    split_and!; try done.
    + intros t k. rewrite decide_False by naive_solver. by rewrite !slot_topicOf, Htop.
    + intros t n. rewrite decide_False by naive_solver. by rewrite Htop.
    + intros t n. rewrite decide_False by naive_solver. by rewrite Htop.
Qed.

(** A larger signature wins the tie on the HLC, and the mark is stamped. *)
Lemma ApplyExt_owner_spec_witness :
  let _ := std_order in
  let s := (ApplyExt 1000 newRecordStore (peerRecord "n1" 5 "a" "s1")).1 in
  let '(s', (applied, replaced, accumulated)) :=
    ApplyExt 2000 s (peerRecord "n1" 5 "b" "s2") in
  applied = true /\ replaced = true /\
  restoredAtUnixMs (topicOf s' "fleet") !! "n1" = Some 2000.
Proof.
  intros _o s.
  pose proof (@ApplyExt_owner_spec std_order 2000 s (peerRecord "n1" 5 "b" "s2")
    ltac:(reflexivity)) as Hs. cbv zeta in Hs.
  destruct (ApplyExt 2000 s (peerRecord "n1" 5 "b" "s2")) as [s' [[ap re] ac]].
  destruct Hs as (-> & -> & _ & _ & _ & Hres & _).
  split; [vm_compute; reflexivity|]. split; [vm_compute; reflexivity|].
  rewrite Hres. vm_compute. reflexivity.
Defined.

(** C5: strong eventual consistency. Two replicas with the same slots that are delivered
    the same set of owner records, each in its own order, with duplicates, at its own
    clock readings and with its own iteration order, none refused by a cap, end with
    the same slots and answer every read with the same list, provided HLC and signature
    determine a record. *)
Theorem convergence (O1 O2 : MapOrder) (s1 s2 : recordStore) (l1 l2 : list input) :
  wf_store s1 -> wf_store s2 ->
  (forall t k, slot s1 t k = slot s2 t k) ->
  owners l1 -> owners l2 ->
  @roomy O1 s1 l1 = true -> @roomy O2 s2 l2 = true ->
  (forall r, r ∈ l1.*2 <-> r ∈ l2.*2) ->
  (forall t k, determined (candidate s1 l1.*2 t k)) ->
  let s1' := @applyAll O1 s1 l1 in
  let s2' := @applyAll O2 s2 l2 in
  (forall t k, slot s1' t k = slot s2' t k) /\
  (forall t, @TopicRecords O1 s1' t = @TopicRecords O2 s2' t) /\
  (forall t, @topicRecordsSigned O1 s1' t = @topicRecordsSigned O2 s2' t) /\
  (forall t n, @NodeRecords O1 s1' t n = @NodeRecords O2 s2' t n).
Proof.
  intros W1 W2 Hs Ho1 Ho2 Hr1 Hr2 Hl Hd. simpl.
  assert (Hslot : forall t k, slot (@applyAll O1 s1 l1) t k = slot (@applyAll O2 s2 l2) t k).
  { intros t k. apply (winner_unique _ _ (candidate s1 l1.*2 t k) (candidate s2 l2.*2 t k)).
    - intros c. unfold candidate. by rewrite Hs, Hl.
    - done.
    - by apply run_winner.
    - by apply run_winner. }
  assert (Hw1 := @wf_applyAll O1 s1 l1 W1). assert (Hw2 := @wf_applyAll O2 s2 l2 W2).
  split; [done|]. split; [|split].
  - intros t. by apply topicRecordsWhere_ext.
  - intros t. by apply topicRecordsWhere_ext.
  - intros t n. rewrite !NodeRecords_filter by done. f_equal.
    by apply topicRecordsWhere_ext.
Qed.

(** Three records of one peer and one of another, delivered in two orders. *)
Definition gossip_a : list input :=
  [(10, peerRecord "n1" 5 "a" "s1"); (11, peerRecord "n2" 9 "x" "q");
   (12, peerRecord "n1" 5 "b" "s2"); (13, peerRecord "n1" 4 "c" "s9")].
Definition gossip_b : list input :=
  [(90, peerRecord "n1" 4 "c" "s9"); (91, peerRecord "n1" 5 "b" "s2");
   (92, peerRecord "n1" 5 "a" "s1"); (93, peerRecord "n1" 5 "b" "s2");
   (94, peerRecord "n2" 9 "x" "q")].

Lemma convergence_witness :
  (forall t k, slot (@applyAll std_order newRecordStore gossip_a) t k =
               slot (@applyAll rev_order newRecordStore gossip_b) t k) /\
  @TopicRecords std_order (@applyAll std_order newRecordStore gossip_a) "fleet" =
    [peerRecord "n1" 5 "b" "s2"; peerRecord "n2" 9 "x" "q"].
Proof.
  split; [|vm_compute; reflexivity].
  pose proof (convergence std_order rev_order newRecordStore newRecordStore gossip_a gossip_b
    wf_newRecordStore wf_newRecordStore (fun _ _ => eq_refl)) as Hc.
  cbv zeta in Hc. apply Hc.
  - repeat constructor.
  - repeat constructor.
  - vm_compute. reflexivity.
  - vm_compute. reflexivity.
  - intros r. unfold gossip_a, gossip_b. cbn [fmap list_fmap snd].
    rewrite !elem_of_cons. tauto.
  - intros t k a b Ha Hb.
    assert (Hin : forall c, candidate newRecordStore gossip_a.*2 t k c -> c ∈ gossip_a.*2).
    { intros c [Hc'|(Hc' & _)]; [|done]. unfold slot in Hc'. simpl in Hc'.
      rewrite lookup_empty in Hc'. discriminate. }
    apply Hin in Ha. apply Hin in Hb. unfold gossip_a in Ha, Hb.
    cbn [fmap list_fmap snd] in Ha, Hb.
    rewrite !elem_of_cons, elem_of_nil in Ha, Hb.
    destruct Ha as [->|[->|[->|[->|[]]]]], Hb as [->|[->|[->|[->|[]]]]];
      simpl; intros E1 E2; try reflexivity; try discriminate E1; discriminate E2.
Defined.

(** ** The restored-at fence *)

(** C25: a node that publishes again cannot be evicted by evidence of its previous life.
    Once its live record has won its slot at clock reading [nowMs], also over a
    synthesised tombstone, no sequence of later deliveries in which every attestation
    against the node was observed at or before [nowMs] removes it: attestations that
    arrive late, replayed or from any number of observers included. *)
Theorem return_is_fenced `{MapOrder} (nowMs : Z) (s : recordStore) (r : Record_)
    (l : list input) :
  IsObserverAttestation r = false -> r_Tombstone r = false -> room s r = true ->
  match slot s (r_Topic r) (keyOf r) with Some c => newer r c = true | None => True end ->
  Forall (fun i => r_Topic i.2 <> r_Topic r \/ r_NodeID i.2 <> r_NodeID r \/
            (IsObserverAttestation i.2 = true /\ r_ObservedAtUnixMs i.2 <= nowMs)) l ->
  GetKeyed (applyAll (ApplyExt nowMs s r).1 l) (r_Topic r) (r_NodeID r) (r_Key r) = Some r.
Proof.
  intros Ho Ht Hroom Hwon Hl.
  pose proof (ApplyExt_owner_room nowMs s r Ho Hroom) as Hs. simpl in Hs.
  assert (Hf : fenced (ApplyExt nowMs s r).1 (r_Topic r) (keyOf r) r nowMs).
  { destruct (ApplyExt nowMs s r) as [s' res]. destruct Hs as (_ & Hslot & _ & Hres).
    split; simpl.
    - rewrite Hslot, decide_True by done. unfold join.
      destruct (slot s (r_Topic r) (keyOf r)); [by rewrite Hwon|done].
    - rewrite Hres, Ht. destruct (slot s (r_Topic r) (keyOf r)); [rewrite Hwon|];
        simpl; by rewrite lookup_insert_eq. }
  apply (fenced_run _ l) in Hf as [Hf _]; [|done].
  unfold slot in Hf. unfold GetKeyed.
  destruct (byTopic _ !! r_Topic r); [|done]. fold (keyOf r). by rewrite Hf, Ht.
Qed.

(** An evicted peer returns with a higher HLC; the old witnesses cannot evict it again. *)
Lemma return_is_fenced_witness :
  let _ := std_order in
  let evicted := applyAll newRecordStore evict_inputs in
  let late := [(6000, attestation "n1" "o1" 20 4000); (6001, attestation "n1" "o3" 21 5000)] in
  GetKeyed evicted "fleet" "n1" "" = None /\
  GetKeyed (applyAll (ApplyExt 5000 evicted (peerRecord "n1" 10 "back" "s")).1 late)
    "fleet" "n1" "" = Some (peerRecord "n1" 10 "back" "s").
Proof.
  intros _o evicted late. split; [vm_compute; reflexivity|].
  pose proof (@return_is_fenced std_order 5000 evicted (peerRecord "n1" 10 "back" "s") late
    ltac:(reflexivity) ltac:(reflexivity) ltac:(vm_compute; reflexivity)) as Hf.
  apply Hf; [vm_compute; reflexivity|].
  apply Forall_cons; split; [|apply Forall_cons; split; [|apply Forall_nil; exact I]];
    right; right; (split; [reflexivity|vm_compute; discriminate]).
Defined.

(** ** Observer attestations *)

(** The attestations that are not refused as untrusted, early or stale; and those that only
    the cap on the observers of a target stops. *)
Definition timely (nowMs : Z) (s : recordStore) (ts : topicStore) (a : Record_) : bool :=
  role_ok s a && skew_ok nowMs a && fence_ok ts a.
Definition overflows `{MapOrder} (nowMs : Z) (s : recordStore) (ts : topicStore) (a : Record_) : bool :=
  timely nowMs s ts a && negb (dead ts a) && fresh (witnessSet ts (r_NodeID a)) a && capped s ts a.

(** Entombing a target changes a record exactly when it says so. *)
Lemma settle_applied `{MapOrder} s ts a W :
  observerQuorum s <= mlen W ->
  (settle s ts a W).2.1.1 = true <-> records (settle s ts a W).1 <> records ts.
Proof.
  intros Hge. pose proof (settle_quorum s ts a W Hge) as Hq. cbv zeta in Hq.
  destruct (settle s ts a W) as [ts' [[ap re] ac]]. destruct Hq as (_ & -> & -> & Hap & Habs & Hpres).
  cbn [fst snd]. rewrite Hap. destruct (nodePresent ts (r_NodeID a)) eqn:Hp.
  - specialize (Hpres eq_refl). split.
    + intros [?|(k & cur & Hk & Hn & He)]; [done|]. intros Heq. specialize (Hpres k).
      rewrite Heq, Hk, bool_decide_true, He in Hpres by done. injection Hpres as ->.
      unfold entombed in He. cbn in He. lia.
    + intros Hne. right. apply dec_stable. intros Hno. apply Hne, map_eq. intros k. rewrite Hpres.
      destruct (records ts !! k) as [cur|] eqn:Hk; [|done].
      destruct (bool_decide _ && _) eqn:E; [|done]. exfalso. apply Hno. exists k, cur.
      apply andb_true_iff in E as [En%bool_decide_eq_true_1 He]. done.
  - rewrite Habs by done. split; [|by left]. intros _ Heq.
    assert (Hk : records ts !! mkKey (r_NodeID a) "" <> None).
    { rewrite <- Heq, lookup_insert_eq. done. }
    destruct (records ts !! mkKey (r_NodeID a) "") as [cur|] eqn:E; [|done].
    assert (nodePresent ts (r_NodeID a) = true) by (apply nodePresent_spec; eauto). congruence.
Qed.

(** The flags and the counter of an attestation. *)
Lemma attest_flags `{MapOrder} nowMs s ts a :
  let '(s', ts', (applied, replaced, accumulated)) := applyAttestationLocked nowMs s ts a in
  let W := witnesses s ts a in
  s' = (if overflows nowMs s ts a then incr_rejectedCap s else s) /\
  accumulated = admits nowMs s ts a /\
  replaced = timely nowMs s ts a && (negb (admits nowMs s ts a) || nodePresent ts (r_NodeID a)) /\
  (applied = true <-> records ts' <> records ts).
Proof.
  rewrite applyAttestation_unfold. unfold overflows, timely, admits. cbv zeta.
  destruct (role_ok s a); cbn [negb andb]; [|done].
  destruct (skew_ok nowMs a); cbn [negb andb]; [|done].
  destruct (fence_ok ts a); cbn [negb andb]; [|done].
  destruct (dead ts a); cbn [negb andb]; [done|].
  destruct (fresh _ a); cbn [negb andb]; [|done].
  destruct (capped s ts a); cbn [negb andb orb]; [done|].
  set (W := witnesses s ts a). pose proof (settle_applied s ts a W) as Happ.
  pose proof (settle_below s ts a W) as Hb. pose proof (settle_quorum s ts a W) as Hq.
  cbv zeta in Hq. destruct (settle s ts a W) as [ts' [[ap re] ac]]. cbn [fst snd] in *.
  destruct (Z.lt_ge_cases (mlen W) (observerQuorum s)) as [Hlt|Hge].
  - destruct (Hb Hlt) as ([= -> -> ->] & -> & _). by split_and!.
  - destruct (Hq Hge) as (_ & -> & -> & _). split_and!; try done. by apply Happ.
Qed.

(** C14: [ApplyExt] on an attestation, on every branch. One that opens a topic beyond the cap
    only counts. Otherwise its topic is there afterwards, no other topic, no configuration
    and no restored-at mark changes, and: one that a gate refuses (role, forward skew,
    restored-at fence, target already dead, not fresh, observer cap) changes no record and no
    witness set, and only the observer cap counts it; an admitted one is accumulated and
    enters the witness set of its target, which is pruned to the window of its newest
    observation; below the quorum no record changes; at the quorum exactly the slots of the
    target whose HLC is below the synthesised one become tombstones, or, when the target has
    no slot, its keyless slot does. The call says [applied] exactly when a record changed,
    [accumulated] exactly when the attestation was admitted, and [replaced] as the code
    defines it: refused as redundant or over the cap, or admitted for a target with a slot. *)
Theorem ApplyExt_attestation_spec `{MapOrder} (nowMs : Z) (s : recordStore) (a : Record_) :
  IsObserverAttestation a = true ->
  let ts := topicOf s (r_Topic a) in
  let W := witnesses s ts a in
  let admitted := admits nowMs s ts a in
  let '(s', (applied, replaced, accumulated)) := ApplyExt nowMs s a in
  let ts' := topicOf s' (r_Topic a) in
  config s' = config s /\
  (forall t, t <> r_Topic a -> byTopic s' !! t = byTopic s !! t) /\
  if topic_capped s (r_Topic a) then
    (applied, replaced, accumulated) = (false, false, false) /\
    byTopic s' = byTopic s /\ rejectedCap s' = u64 (rejectedCap s + 1)
  else
    is_Some (byTopic s' !! r_Topic a) /\
    rejectedCap s' = (if overflows nowMs s ts a then u64 (rejectedCap s + 1) else rejectedCap s) /\
    accumulated = admitted /\
    replaced = timely nowMs s ts a && (negb admitted || nodePresent ts (r_NodeID a)) /\
    (applied = true <-> records ts' <> records ts) /\
    restoredAtUnixMs ts' = restoredAtUnixMs ts /\
    (forall n, witnessSet ts' n =
       if decide (admitted = true /\ n = r_NodeID a) then W else witnessSet ts n) /\
    (admitted = false \/ mlen W < observerQuorum s -> records ts' = records ts) /\
    (admitted = true -> observerQuorum s <= mlen W ->
       forall k, records ts' !! k =
         match records ts !! k with
         | Some cur => if bool_decide (k_NodeID k = r_NodeID a) && (synthHLC W >? r_HLC cur)
                       then Some (synthTombstone (r_Topic a) (r_NodeID a) (k_Key k) (synthHLC W))
                       else Some cur
         | None => if negb (nodePresent ts (r_NodeID a)) && bool_decide (k = mkKey (r_NodeID a) "")
                   then Some (synthTombstone (r_Topic a) (r_NodeID a) "" (synthHLC W)) else None
         end).
Proof.
  intros Ha ts W admitted. pose proof (ApplyExt_config nowMs s a) as Hcfg.
  pose proof (fun t => ApplyExt_other nowMs s a t) as Hother.
  pose proof (ApplyExt_attestation nowMs s a Ha) as Hspec. cbv zeta in Hspec.
  fold ts W admitted in Hspec. pose proof (attest_flags nowMs s ts a) as Hfl. cbv zeta in Hfl.
  rewrite ApplyExt_unfold in *. destruct (topic_capped s (r_Topic a)); [done|].
  specialize (Hspec eq_refl). unfold applyTopic in *. rewrite Ha in *. fold ts in Hcfg, Hother, Hspec |- *.
  destruct (applyAttestationLocked nowMs s ts a) as [[s1 ts1] [[ap re] ac]].
  destruct Hfl as (Hs1 & Hac & Hre & Hap). destruct Hspec as (_ & Hres & _ & Hw & Hno & Hyes).
  rewrite topicOf_insert, decide_True in * by done. cbn [fst snd] in *.
  split_and!; try done; [cbn; rewrite lookup_insert_eq; eauto| |by intros ?; apply Hno].
  rewrite Hs1. by destruct (overflows nowMs s ts a).
Qed.

(** The second witness of a pair evicts; the flags and the slot say so. *)
Lemma ApplyExt_attestation_spec_witness :
  let _ := std_order in
  let s := applyAll newRecordStore (take 2 evict_inputs) in
  let '(s', (applied, _, accumulated)) := ApplyExt 2001 s (attestation "n1" "o2" 8 2500) in
  accumulated = true /\ applied = true /\
  records (topicOf s' "fleet") !! mkKey "n1" "" = Some (synthTombstone "fleet" "n1" "" 9).
Proof.
  intros _o s.
  pose proof (@ApplyExt_attestation_spec std_order 2001 s (attestation "n1" "o2" 8 2500)
    ltac:(reflexivity)) as Hs. cbv zeta in Hs.
  assert (Hcap : topic_capped s (r_Topic (attestation "n1" "o2" 8 2500)) = false)
    by (vm_compute; reflexivity).
  rewrite Hcap in Hs. clear Hcap.
  destruct (ApplyExt 2001 s (attestation "n1" "o2" 8 2500)) as [s' [[ap re] ac]].
  destruct Hs as (_ & _ & _ & _ & -> & _ & Hap & _ & _ & _ & Hq).
  assert (Hslot : records (topicOf s' "fleet") !! mkKey "n1" "" =
                  Some (synthTombstone "fleet" "n1" "" 9)).
  { change "fleet" with (r_Topic (attestation "n1" "o2" 8 2500)) at 1.
    rewrite Hq; vm_compute; [reflexivity|reflexivity|discriminate]. }
  split; [vm_compute; reflexivity|]. split; [|exact Hslot].
  apply Hap. intros Heq. change (r_Topic _) with "fleet" in Heq. rewrite Heq in Hslot.
  vm_compute in Hslot. discriminate Hslot.
Defined.

(** C26: the quorum is enough. When K distinct observers, each passing the gates, report
    a live node within one corroboration window, and no older evidence is pending,
    then after the K-th report every slot of the node that is not newer than all the
    reports holds a tombstone of higher HLC, and the reads no longer return it. *)
Theorem quorum_evicts `{MapOrder} (s : recordStore) (t : Topic) (n : NodeID) (base : Z)
    (l : list input) :
  0 <= base -> base + Milliseconds (observerCorroborationWindow s) < 2 ^ 63 ->
  witnessSet (topicOf s t) n = ∅ ->
  (exists k r, slot s t k = Some r /\ k_NodeID k = n /\ r_Tombstone r = false) ->
  Forall (supports s t n base) l -> NoDup (observer_of <$> l) ->
  len l = observerQuorum s -> 0 < observerQuorum s <= maxAttestations s ->
  Forall (fun i => 0 <= r_HLC i.2 < 2 ^ 64 - 1) l ->
  forall key r i, slot s t (mkKey n key) = Some r -> i ∈ l -> r_HLC r <= r_HLC i.2 ->
  (exists hlc, r_HLC r < hlc /\
     slot (applyAll s l) t (mkKey n key) = Some (synthTombstone t n key hlc)) /\
  GetKeyed (applyAll s l) t n key = None.
Proof.
  intros Hb Hlim HW Hlive Hall Hnd Hq Hm Hh key r i Hk Hi Hle.
  destruct (quorum_run s t n base l (mkKey n key) r i) as (hlc & Hlt & Hs); try done.
  split; [eauto|]. unfold slot in Hs. unfold GetKeyed.
  destruct (byTopic (applyAll s l) !! t) as [ts|]; [|done]. by rewrite Hs.
Qed.

Definition evict_base : recordStore :=
  @applyAll std_order newRecordStore (take 1 evict_inputs).

Lemma quorum_evicts_witness :
  let _ := std_order in
  GetKeyed evict_base "fleet" "n1" "" = Some (peerRecord "n1" 5 "hello" "s") /\
  GetKeyed (applyAll evict_base (drop 1 evict_inputs)) "fleet" "n1" "" = None.
Proof.
  intros _o. split; [vm_compute; reflexivity|].
  pose proof (@quorum_evicts std_order evict_base "fleet" "n1" 1500 (drop 1 evict_inputs)
    ltac:(machine) ltac:(machine)) as Hq.
  apply (Hq ltac:(vm_compute; reflexivity)) with (r := peerRecord "n1" 5 "hello" "s")
    (i := (2001, attestation "n1" "o2" 8 2500)).
  - exists (mkKey "n1" ""), (peerRecord "n1" 5 "hello" "s").
    split; [vm_compute; reflexivity|]. split; reflexivity.
  - apply Forall_cons; split; [|apply Forall_cons; split; [|apply Forall_nil; exact I]];
      (split; [reflexivity|]); (split; [reflexivity|]); (split; [reflexivity|]);
      (split; [vm_compute; reflexivity|]); (split; [vm_compute; reflexivity|]);
      (split; [vm_compute; reflexivity|]); vm_compute; split; discriminate.
  - apply (bool_decide_unpack _). vm_compute. exact I.
  - vm_compute. reflexivity.
  - vm_compute. split; [reflexivity|discriminate].
  - apply Forall_cons; split; [|apply Forall_cons; split; [|apply Forall_nil; exact I]];
      vm_compute; split; first [reflexivity|discriminate].
  - vm_compute. reflexivity.
  - right. left.
  - vm_compute. discriminate.
Defined.

(** ** Invariants and caps *)


Lemma wf_setCaps mT mR mK mA : wf_store (setCaps newRecordStore mT mR mK mA).
Proof.
  assert (Hpos : forall x d, 0 < d -> 0 < (if x <=? 0 then d else x)).
  { intros x d Hd. destruct (x <=? 0) eqn:E; bool_to_prop; lia. }
  split; cbn; [by intros t ts| |split_and!; by apply Hpos|done].
  change (mlen (∅ : gmap Topic topicStore)) with 0. apply Z.lt_le_incl, Hpos. lia.
Qed.




(** The caps on the slots of a topic. *)
Definition within_caps (s : recordStore) : Prop :=
  forall t, mlen (records (topicOf s t)) <= maxRecordsPerTopic s /\
    forall n, mlen (slotsOf n (records (topicOf s t))) <= maxKeysPerNode s.

Lemma slotsOf_insert n k r (m : gmap recordKey Record_) :
  slotsOf n (<[k := r]> m) =
  if decide (k_NodeID k = n) then <[k := r]> (slotsOf n m) else slotsOf n m.
Proof.
  unfold slotsOf. case_decide as Hd.
  - by apply map_filter_insert_True.
  - apply map_filter_insert_not. naive_solver.
Qed.

(** Owner records never push a topic over its caps. Delivered to a store within the
    caps, in any number and order, they leave at most [maxRecordsPerTopic] slots in
    each topic and at most [maxKeysPerNode] of each node. *)
Theorem owners_within_caps `{MapOrder} (s : recordStore) (l : list input) :
  wf_store s -> within_caps s -> owners l -> within_caps (applyAll s l).
Proof.
  revert s. induction l as [|[nowMs r] l IH]; intros s Hwf Hs Hl; [done|].
  apply Forall_cons in Hl as [Ho Hl]. simpl in *.
  apply IH; [by apply wf_ApplyExt| |done]. clear IH Hl l.
  pose proof (ApplyExt_config nowMs s r) as Hc. unfold config in Hc.
  injection Hc as _ _ _ _ ER EK _. intros t. rewrite ER, EK. destruct (Hs t) as [H1 H2].
  destruct (decide (t = r_Topic r)) as [->|Ht];
    [|unfold topicOf in *; by rewrite ApplyExt_other].
  destruct (room s r) eqn:Hroom.
  - apply room_topic in Hroom as [Hcap Hroom].
    rewrite ApplyExt_unfold, Hcap. unfold applyTopic. rewrite Ho.
    destruct (applyOwner_room nowMs s _ r Hroom) as (ts' & E & Hrec & _).
    rewrite E. cbn [fst snd]. rewrite topicOf_insert, decide_True, Hrec, mlen_insert by done.
    pose proof (wf_caps s Hwf) as (_ & _ & HK & _).
    destruct (records (topicOf s (r_Topic r)) !! keyOf r) as [c|] eqn:Ec.
    + split; [done|]. intros n. rewrite slotsOf_insert. case_decide; [|done].
      rewrite mlen_insert, (proj2 (lookup_slotsOf n _ (keyOf r) c)); [by apply H2|done].
    + apply andb_true_iff in Hroom as [Hr1 Hr2]. apply Z.ltb_lt in Hr1.
      rewrite orb_true_iff, Z.leb_le, Z.ltb_lt in Hr2. split; [lia|]. intros n. rewrite slotsOf_insert. case_decide as Hn; [|done].
      simpl in Hn. subst n. rewrite mlen_insert.
      destruct (slotsOf (r_NodeID r) _ !! keyOf r) eqn:Es; [done|]. lia.
  - pose proof (ApplyExt_owner_capped nowMs s r Ho Hroom) as Hc.
    destruct (ApplyExt nowMs s r) as [s' res]. destruct Hc as (_ & Htop & _).
    simpl. by rewrite Htop.
Qed.

Lemma owners_within_caps_witness :
  let _ := std_order in
  let s := setCaps newRecordStore 4 2 1 0 in
  within_caps (applyAll s gossip_a) /\ (applyAll s gossip_a).(rejectedCap) = 0 /\
  (ApplyExt 14 (applyAll s gossip_a) (peerRecord "n3" 1 "z" "z")).2 = (false, false, false).
Proof.
  intros _o s. split; [|split; vm_compute; reflexivity].
  apply (@owners_within_caps std_order s gossip_a).
  - apply wf_setCaps.
  - intros t. split; [|intros n]; vm_compute; discriminate.
  - repeat constructor.
Defined.

(** The caps do not bind synthesised tombstones: when a quorum completes against a
    node that holds no slot, the topic gains a slot however full it is. *)
Theorem synthesis_ignores_caps `{MapOrder} (nowMs : Z) (s : recordStore) (a : Record_) :
  let ts := topicOf s (r_Topic a) in
  IsObserverAttestation a = true -> topic_capped s (r_Topic a) = false ->
  admits nowMs s ts a = true -> observerQuorum s <= mlen (witnesses s ts a) ->
  nodePresent ts (r_NodeID a) = false ->
  mlen (records (topicOf (ApplyExt nowMs s a).1 (r_Topic a))) = mlen (records ts) + 1.
Proof.
  intros ts Hatt Hcap Hadm Hq Hp.
  rewrite ApplyExt_unfold, Hcap. unfold applyTopic. rewrite Hatt. fold ts.
  rewrite attest_admitted by done. pose proof (settle_quorum s ts a (witnesses s ts a) Hq) as Hs.
  simpl in Hs. destruct (settle s ts a (witnesses s ts a)) as [ts' [[ap re] ac]].
  cbn [fst snd]. rewrite topicOf_insert, decide_True by done.
  destruct Hs as (_ & _ & _ & _ & Habs & _). rewrite Habs, mlen_insert by done.
  destruct (records ts !! mkKey (r_NodeID a) "") as [r|] eqn:E; [|done].
  rewrite <- not_true_iff_false, nodePresent_spec in Hp. destruct Hp. eauto.
Qed.

(** A topic capped at one record holds two after a quorum against an absent node. *)
Lemma synthesis_ignores_caps_witness :
  let _ := std_order in
  let s0 := setCaps newRecordStore 4 1 1 0 in
  let s := applyAll s0 [(1, peerRecord "n2" 5 "a" "s"); (2000, attestation "n1" "o1" 7 1500)] in
  maxRecordsPerTopic s = 1 /\
  mlen (records (topicOf (ApplyExt 2001 s (attestation "n1" "o2" 8 2500)).1 "fleet")) = 2.
Proof.
  intros _o s0 s. split; [vm_compute; reflexivity|].
  pose proof (@synthesis_ignores_caps std_order 2001 s (attestation "n1" "o2" 8 2500)) as H.
  cbv zeta in H. etransitivity; [apply H|]; vm_compute; first [reflexivity|discriminate].
Defined.

(** A stale attestation is accepted again and again. When an admitted attestation
    is older than the window of the newest one held, and the witness set it joins was
    already pruned and below the quorum, it is dropped by the prune, yet [accumulated]
    is true: the store is left as it was, so every redelivery is reported as new. *)
Theorem stale_attestation_reaccumulates `{MapOrder} (nowMs : Z) (s : recordStore)
    (a : Record_) :
  let ts := topicOf s (r_Topic a) in
  let W := witnessSet ts (r_NodeID a) in
  IsObserverAttestation a = true -> topic_capped s (r_Topic a) = false ->
  admits nowMs s ts a = true ->
  W !! r_ObserverNodeID a = None -> witnesses s ts a = W ->
  0 < mlen W < observerQuorum s ->
  let '(s', (applied, _, accumulated)) := ApplyExt nowMs s a in
  accumulated = true /\ applied = false /\ (forall t, topicOf s' t = topicOf s t).
Proof.
  intros ts W Hatt Hcap Hadm Hno HW Hq.
  rewrite ApplyExt_unfold, Hcap. unfold applyTopic. rewrite Hatt. fold ts.
  rewrite attest_admitted, HW by done. unfold settle.
  rewrite (proj2 (Z.ltb_lt _ _)) by lia. rewrite (proj2 (Z.eqb_neq _ _)) by lia. simpl.
  split_and!; [done|done|]. intros t. rewrite topicOf_insert. case_decide as Ht; [|done].
  subst t. fold ts. destruct ts as [rec att re] eqn:Ets. unfold set_attestations. simpl. f_equal.
  apply insert_id. unfold W, witnessSet in *. simpl in *.
  destruct (att !! r_NodeID a); simpl in *; [done|].
  change (mlen (∅ : gmap NodeID Record_)) with 0 in Hq. lia.
Qed.

(** The second delivery of the stale attestation is accumulated like the first. *)
Lemma stale_attestation_reaccumulates_witness :
  let _ := std_order in
  let s := (ApplyExt 900000 newRecordStore (attestation "n1" "o1" 8 900000)).1 in
  let stale := attestation "n1" "o2" 7 1000 in
  (ApplyExt 900001 s stale).2 = (false, false, true) /\
  (ApplyExt 900002 (ApplyExt 900001 s stale).1 stale).2.2 = true.
Proof.
  intros _o s stale. split; [vm_compute; reflexivity|].
  pose proof (@stale_attestation_reaccumulates std_order 900002 (ApplyExt 900001 s stale).1 stale)
    as H. cbv zeta in H.
  destruct (ApplyExt 900002 (ApplyExt 900001 s stale).1 stale) as [s' [[ap re] ac]].
  apply H; vm_compute; first [reflexivity|split; reflexivity].
Defined.

(** ** Reads *)

(** C37: the reads are exact, ordered and deterministic. [TopicRecords] lists the live
    slots of the topic, each once, in increasing order of (NodeID, Key);
    [topicRecordsSigned] those with a signature, tombstones included; [NodeRecords] is
    the node's part of [TopicRecords]; [GetKeyed] agrees with the lists; and none of
    them depends on the order in which a map is ranged over. *)
Theorem reads_exact (O' O : MapOrder) (s : recordStore) (t : Topic) (n : NodeID) :
  wf_store s ->
  (forall r, r ∈ TopicRecords s t <->
     slot s t (keyOf r) = Some r /\ r_Tombstone r = false) /\
  (forall r, r ∈ topicRecordsSigned s t <->
     slot s t (keyOf r) = Some r /\ r_Sig r <> []) /\
  slot_sorted (TopicRecords s t) /\ slot_sorted (topicRecordsSigned s t) /\
  NodeRecords s t n = List.filter (fun r => String.eqb (r_NodeID r) n) (TopicRecords s t) /\
  (forall key r, GetKeyed s t n key = Some r <->
     r ∈ TopicRecords s t /\ r_NodeID r = n /\ r_Key r = key) /\
  @TopicRecords O s t = @TopicRecords O' s t /\
  @topicRecordsSigned O s t = @topicRecordsSigned O' s t /\
  @NodeRecords O s t n = @NodeRecords O' s t n.
Proof.
  intros Hwf.
  assert (Hlive : forall r, r ∈ @TopicRecords O s t <->
     slot s t (keyOf r) = Some r /\ r_Tombstone r = false).
  { intros r. unfold TopicRecords. by rewrite elem_of_topicRecordsWhere, negb_true_iff. }
  assert (Hext : forall keep, @topicRecordsWhere O s t keep = @topicRecordsWhere O' s t keep).
  { intros keep. by apply topicRecordsWhere_ext. }
  split_and!.
  - done.
  - intros r. unfold topicRecordsSigned. rewrite elem_of_topicRecordsWhere by done.
    unfold len. destruct (r_Sig r); simpl; [intuition discriminate|].
    split; intros [? _]; by split.
  - by apply topicRecordsWhere_sorted.
  - by apply topicRecordsWhere_sorted.
  - by apply NodeRecords_filter.
  - intros key r. rewrite Hlive. unfold GetKeyed, slot.
    destruct (byTopic s !! t) as [ts|] eqn:Ets; [|naive_solver].
    pose proof (wf_records _ _ _ (wf_topics s Hwf t ts Ets)) as Hrec. split.
    + destruct (records ts !! mkKey n key) as [r'|] eqn:E; [|done].
      destruct (r_Tombstone r') eqn:Et; [done|]. intros [= ->].
      destruct (Hrec _ _ E) as [_ Hk]. rewrite Hk. unfold keyOf in Hk. by simplify_eq.
    + intros ([Hr Ht] & <- & <-). fold (keyOf r). by rewrite Hr, Ht.
  - apply Hext.
  - apply Hext.
  - rewrite !NodeRecords_filter by done. f_equal. apply Hext.
Qed.

Lemma reads_exact_witness :
  let s := @applyAll std_order newRecordStore gossip_a in
  @TopicRecords std_order s "fleet" = @TopicRecords rev_order s "fleet" /\
  @NodeRecords std_order s "fleet" "n1" = [peerRecord "n1" 5 "b" "s2"].
Proof.
  intros s.
  assert (Hwf : wf_store s) by apply (@wf_applyAll std_order), wf_newRecordStore.
  pose proof (reads_exact rev_order std_order s "fleet" "n1" Hwf) as
    (_ & _ & _ & _ & _ & _ & Heq & _).
  split; [exact Heq|vm_compute; reflexivity].
Defined.

(** ** Retention *)

(** C38: [reapExpired] removes exactly the expired slots of the topics that have a
    retention: live records past the TTL, tombstones past twice the TTL. The witness
    sets stay, a restored-at mark stays exactly while its node holds a slot, the result
    is the number of slots removed, and the store stays well formed. *)
Theorem reapExpired_spec `{MapOrder} (s : recordStore) (nowMs : Z) (ttl : Topic -> Z) :
  wf_store s ->
  let '(s', dropped) := reapExpired s nowMs (Some ttl) in
  (forall t k, slot s' t k =
     match slot s t k with
     | Some r => if (0 <? ttl t) && expired nowMs (Milliseconds (ttl t)) r then None else Some r
     | None => None
     end) /\
  (forall t n, witnessSet (topicOf s' t) n = witnessSet (topicOf s t) n) /\
  (forall t n, restoredAtUnixMs (topicOf s' t) !! n =
     if nodePresent (topicOf s' t) n then restoredAtUnixMs (topicOf s t) !! n else None) /\
  Count s = Count s' + dropped /\ 0 <= dropped /\ wf_store s'.
Proof.
  intros Hwf. pose proof (wf_reapExpired s nowMs (Some ttl) Hwf) as Hwf'.
  pose proof (reap_topicOf s nowMs ttl) as Htop.
  assert (Hcount : Count s = Count (reapExpired s nowMs (Some ttl)).1 +
                   (reapExpired s nowMs (Some ttl)).2).
  { rewrite !Count_total. simpl. apply (reap_imap_spec nowMs ttl). }
  assert (Hpos : 0 <= (reapExpired s nowMs (Some ttl)).2).
  { simpl. apply (map_fold_weak_ind (fun d _ => 0 <= d)); [done|].
    intros t ts m d _ Hd. destruct (reapTopic_kept nowMs (ttl t) ts) as (E1 & _ & ->).
    rewrite E1. enough (mlen (records (kept nowMs (ttl t) ts)) <= mlen (records ts)) by lia.
    unfold kept. destruct (ttl t <=? 0); [done|]. apply mlen_filter_le. }
  destruct (reapExpired s nowMs (Some ttl)) as [s' dropped]. simpl in *.
  split_and!; try done.
  - intros t k. by rewrite !slot_topicOf, Htop, kept_records.
  - intros t n. unfold witnessSet. by rewrite Htop, kept_attestations.
  - intros t n. rewrite Htop. apply kept_restored. unfold topicOf. intros v.
    destruct (byTopic s !! t) as [ts|] eqn:E; [|done].
    apply (wf_restored _ _ _ (wf_topics s Hwf t ts E)).
Qed.

(** A sweep with a one-second TTL. *)
Lemma reapExpired_spec_witness :
  let _ := std_order in
  let s := applyAll newRecordStore
    [(1, peerRecord "n1" (packHLC 1000 0) "a" "s"); (1, peerRecord "n2" (packHLC 9000 0) "b" "s")] in
  (reapExpired s 9500 (Some (fun _ => Second))).2 = 1 /\
  slot (reapExpired s 9500 (Some (fun _ => Second))).1 "fleet" (mkKey "n1" "") = None.
Proof.
  intros _o s. assert (Hwf : wf_store s) by apply (@wf_applyAll std_order), wf_newRecordStore.
  pose proof (@reapExpired_spec std_order s 9500 (fun _ => Second) Hwf) as H.
  split; [vm_compute; reflexivity|].
  destruct (reapExpired s 9500 (Some (fun _ => Second))) as [s' d].
  destruct H as (Hslot & _). cbn [fst]. rewrite Hslot. vm_compute. reflexivity.
Defined.

(** Retention never lets a deletion be undone. When a tombstone is old enough to be
    swept, every live record it outranks would be swept too: a stale copy of the
    deleted record that arrives after the tombstone is gone does not outlive the next
    sweep. *)
Theorem expired_tombstone_safe (nowMs ttl : Z) (tomb r : Record_) :
  0 <= nowMs < 2 ^ 62 -> 0 < ttl < 2 ^ 63 ->
  is_u64 (r_HLC tomb) -> is_u64 (r_HLC r) ->
  r_Tombstone tomb = true -> r_Tombstone r = false -> r_HLC r <= r_HLC tomb ->
  expired nowMs (Milliseconds ttl) tomb = true -> expired nowMs (Milliseconds ttl) r = true.
Proof.
  intros Hnow Httl Hu1 Hu2 Ht Hl Hle. unfold expired. rewrite Ht, Hl, !Decompose_eq. simpl.
  rewrite !orb_false_r, !Z.gtb_lt.
  pose proof (word_split (r_HLC tomb)). pose proof (word_split (r_HLC r)).
  pose proof (ctr_range (r_HLC tomb)). pose proof (ctr_range (r_HLC r)).
  unfold Milliseconds, is_u64 in *.
  assert (0 <= Z.quot ttl 1000000 < 2 ^ 62).
  { rewrite Z.quot_div_nonneg by lia. split; [apply Z.div_pos; lia|].
    apply Z.div_lt_upper_bound; lia. }
  rewrite (i64_small (wall (r_HLC tomb))), (i64_small (wall (r_HLC r))), !i64_small;
    unfold is_i64; lia.
Qed.

Lemma expired_tombstone_safe_witness :
  let tomb := synthTombstone "fleet" "n1" "" (packHLC 1000 1) in
  let stale := peerRecord "n1" (packHLC 1000 0) "a" "s" in
  expired 4000 (Milliseconds Second) tomb = true /\
  expired 4000 (Milliseconds Second) stale = true.
Proof.
  split; [vm_compute; reflexivity|].
  apply (expired_tombstone_safe 4000 Second (synthTombstone "fleet" "n1" "" (packHLC 1000 1)));
    try reflexivity; vm_compute; first [split; (reflexivity || discriminate)|discriminate].
Defined.
