(* ===== verification/Replica.v ===== *)
(** * The store as a state-based CRDT

    Records of a slot ordered by clock and signature form a join-semilattice, up to the
    equivalence of records that neither wins over; slots and whole replicas inherit it
    pointwise. Delivering an owner record is a join. *)
From S2P Require Import Prelude Types Hlc Crdt CrdtLemmas CrdtInv.
#[local] Open Scope Z_scope.

(** ** Join-semilattices, up to an equivalence *)

Class Lattice (A : Type) `{Equiv A, Join A} := {
  lat_equiv :: Equivalence (≡@{A});
  lat_proper :: Proper ((≡) ==> (≡) ==> (≡)) (@base.join A _);
  lat_comm :: Comm (≡@{A}) (⊔);
  lat_assoc :: Assoc (≡@{A}) (⊔);
  lat_idemp :: IdemP (≡@{A}) (⊔)
}.

Section lattice.
Context `{Lattice A}.
Implicit Types x y z : A.

(** The order: [y] already has all of [x]. *)
#[export] Instance lat_le : SqSubsetEq A := fun x y => x ⊔ y ≡ y.

#[export] Instance lat_le_proper : Proper ((≡) ==> (≡) ==> iff) (⊑@{A}).
Proof. intros x1 x2 Hx y1 y2 Hy. unfold sqsubseteq, lat_le. by rewrite Hx, Hy. Qed.

#[export] Instance lat_le_preorder : PreOrder (⊑@{A}).
Proof.
  split.
  - intros x. unfold sqsubseteq, lat_le. by rewrite (idemp (⊔)).
  - intros x y z Hxy Hyz. unfold sqsubseteq, lat_le in *.
    by rewrite <- Hyz, (assoc (⊔)), Hxy.
Qed.

Lemma lat_antisymm x y : x ⊑ y -> y ⊑ x -> x ≡ y.
Proof. unfold sqsubseteq, lat_le. intros Hxy Hyx. by rewrite <- Hxy, (comm (⊔)), <- Hyx at 1. Qed.

Lemma lat_ub_l x y : x ⊑ x ⊔ y.
Proof. unfold sqsubseteq, lat_le. by rewrite (assoc (⊔)), (idemp (⊔)). Qed.

Lemma lat_ub_r x y : y ⊑ x ⊔ y.
Proof. rewrite (comm (⊔)). apply lat_ub_l. Qed.

Lemma lat_lub x y z : x ⊑ z -> y ⊑ z -> x ⊔ y ⊑ z.
Proof. unfold sqsubseteq, lat_le. intros Hx Hy. by rewrite <- (assoc (⊔)), Hy, Hx. Qed.

Lemma lat_join_mono x1 x2 y1 y2 : x1 ⊑ x2 -> y1 ⊑ y2 -> x1 ⊔ y1 ⊑ x2 ⊔ y2.
Proof.
  intros Hx Hy. apply lat_lub; [rewrite Hx; apply lat_ub_l | rewrite Hy; apply lat_ub_r].
Qed.
End lattice.

(** ** Records, slots, replicas *)

(** Neither record wins over the other. *)
#[export] Instance record_equiv : Equiv Record_ :=
  fun a b => r_HLC a = r_HLC b /\ r_Sig a = r_Sig b.

#[export] Instance record_join : Join Record_ := fun a b => if newer b a then b else a.

Lemma not_newer_equiv a b : newer a b = false -> newer b a = false -> a ≡ b.
Proof. destruct (newer_total a b) as [?|[?|?]]; [congruence | done | congruence]. Qed.

#[export] Instance newer_proper : Proper ((≡) ==> (≡) ==> (=)) newer.
Proof. intros a1 a2 [E1 E2] b1 b2 [E3 E4]. unfold newer. by rewrite E1, E2, E3, E4. Qed.

#[export] Instance record_lattice : Lattice Record_.
Proof.
  assert (Heq : Equivalence (≡@{Record_})).
  { split; [done | by intros a b [] | by intros a b c [] []; split; congruence]. }
  split; [exact Heq| | | |]; unfold base.join, record_join.
  - intros a1 a2 Ha b1 b2 Hb. rewrite Ha, Hb. by case_match.
  - intros a b. destruct (newer b a) eqn:E1, (newer a b) eqn:E2; try done.
    + pose proof (newer_trans _ _ _ E1 E2). rewrite newer_irrefl in *. done.
    + by apply not_newer_equiv.
  - intros a b c. destruct (newer c b) eqn:Ecb, (newer b a) eqn:Eba; rewrite ?Ecb, ?Eba; try done.
    + by rewrite (newer_trans _ _ _ Ecb Eba).
    + by rewrite (not_newer_trans _ _ _ Ecb Eba).
  - intros a. by rewrite newer_irrefl.
Qed.

#[export] Instance option_join `{Join A} : Join (option A) := union_with (fun x y => Some (x ⊔ y)).

#[export] Instance option_lattice `{Lattice A} : Lattice (option A).
Proof.
  split; [apply _| | | |].
  - intros ?? [x x' Hx|] ?? [y y' Hy|]; cbn; constructor; by rewrite ?Hx, ?Hy.
  - intros [x|] [y|]; cbn; constructor; try done. apply (comm (⊔)).
  - intros [x|] [y|] [z|]; cbn; constructor; try done. apply (assoc (⊔)).
  - intros [x|]; cbn; constructor. apply (idemp (⊔)).
Qed.

(** What a replica holds: a record or none in every slot of every topic. *)
Definition view : Type := Topic * recordKey -> option Record_.

#[export] Instance view_equiv : Equiv view := fun v w => forall k, v k ≡ w k.
#[export] Instance view_join : Join view := fun v w k => v k ⊔ w k.

#[export] Instance view_lattice : Lattice view.
Proof.
  split.
  - split; [intros v k; reflexivity | intros v w Hv k; by symmetry | intros u v w H1 H2 k; exact (transitivity (H1 k) (H2 k))].
  - intros v1 v2 Hv w1 w2 Hw k. unfold base.join, view_join. by rewrite (Hv k), (Hw k).
  - intros v w k. apply (comm (⊔)).
  - intros u v w k. apply (assoc (⊔)).
  - intros v k. apply (idemp (⊔)).
Qed.

Lemma view_le v w : v ⊑ w <-> forall k, v k ⊑ w k.
Proof. done. Qed.

(** A slot is below another: nothing was there, or something that does not win. *)
Lemma slot_le (o1 o2 : option Record_) :
  o1 ⊑ o2 <-> forall r1, o1 = Some r1 -> exists r2, o2 = Some r2 /\ newer r1 r2 = false.
Proof.
  unfold sqsubseteq, lat_le. destruct o1 as [a|], o2 as [b|]; cbn; split.
  - intros Heq r1 [= <-]. exists b. split; [done|]. apply (inj Some) in Heq.
    unfold base.join, record_join in Heq. destruct (newer a b) eqn:E; [|done].
    destruct (newer b a) eqn:E'.
    + pose proof (newer_trans _ _ _ E E') as Haa. by rewrite newer_irrefl in Haa.
    + by rewrite Heq, newer_irrefl in E.
  - intros Hle. destruct (Hle a eq_refl) as (r2 & [= <-] & Hn). constructor.
    unfold base.join, record_join. destruct (newer b a) eqn:E; [done|]. by apply not_newer_equiv.
  - intros Heq. inversion Heq.
  - intros Hle. destruct (Hle a eq_refl) as (? & [=] & _).
  - intros _ r1 [=].
  - done.
  - intros _ r1 [=].
  - done.
Qed.

(** The join of records is associative exactly, with the first of two equivalent ones. *)
Lemma record_join_assoc (a b c : Record_) : a ⊔ (b ⊔ c) = (a ⊔ b) ⊔ c.
Proof.
  unfold base.join, record_join.
  destruct (newer c b) eqn:Ecb, (newer b a) eqn:Eba; rewrite ?Ecb, ?Eba; try done.
  - by rewrite (newer_trans _ _ _ Ecb Eba).
  - by rewrite (not_newer_trans _ _ _ Ecb Eba).
Qed.

Lemma slot_join_assoc (a b c : option Record_) : a ⊔ (b ⊔ c) = (a ⊔ b) ⊔ c.
Proof. destruct a, b, c; cbn; try done. by rewrite record_join_assoc. Qed.

(** ** The view of a store, and the reference merge *)

Definition slots (s : recordStore) : view := fun k => slot s k.1 k.2.

Definition blank : view := fun _ => None.

Definition single (r : Record_) : view :=
  fun k => if decide (k = (r_Topic r, keyOf r)) then Some r else None.

(** The reference: the join of the records, one by one. *)
Definition joined (rs : list Record_) : view := foldr (fun r v => single r ⊔ v) blank rs.

Lemma blank_le v : blank ⊑ v.
Proof. intros k. apply slot_le. intros r [=]. Qed.

Lemma single_le_joined r rs : r ∈ rs -> single r ⊑ joined rs.
Proof.
  induction 1 as [r rs | r r' rs _ IH]; cbn [joined foldr]; [apply lat_ub_l|].
  etrans; [exact IH | apply lat_ub_r].
Qed.

Lemma joined_le rs v : (forall r, r ∈ rs -> single r ⊑ v) -> joined rs ⊑ v.
Proof.
  induction rs as [|r rs IH]; intros Hall; cbn [joined foldr]; [apply blank_le|].
  apply lat_lub; [apply Hall; left | apply IH; intros; apply Hall; by right].
Qed.

(** The reference depends on the set of records only. *)
Lemma joined_set rs1 rs2 : (forall r, r ∈ rs1 <-> r ∈ rs2) -> joined rs1 ≡ joined rs2.
Proof.
  intros Hset. apply lat_antisymm; apply joined_le; intros r Hr; apply single_le_joined;
    by apply Hset.
Qed.

Section store.
Context `{MapOrder}.

Lemma slots_owner nowMs s r :
  IsObserverAttestation r = false -> room s r = true ->
  forall k, slots (ApplyExt nowMs s r).1 k = (slots s ⊔ single r) k.
Proof.
  intros Ho Hr [t k]. unfold slots, single, base.join, view_join. cbn [fst snd].
  rewrite slot_ApplyExt_owner by done.
  destruct (decide (t = r_Topic r /\ k = keyOf r)) as [[-> ->] | Hne].
  - rewrite decide_True by done. destruct (slot s _ _); done.
  - rewrite decide_False by (intros [= ? ?]; auto). by destruct (slot s t k).
Qed.

(** Nothing a store is given takes it down. *)
Lemma slots_inflate nowMs s r : slots s ⊑ slots (ApplyExt nowMs s r).1.
Proof.
  intros [t k]. apply slot_le. intros r1 Hr1. unfold slots in *. cbn [fst snd] in *.
  destruct (slot_advances nowMs s r t k r1 Hr1) as (r2 & Hr2 & [-> | Hn]).
  - exists r1. split; [done | apply newer_irrefl].
  - exists r2. split; [done|]. destruct (newer r1 r2) eqn:E; [|done].
    pose proof (newer_trans _ _ _ E Hn) as Hr. by rewrite newer_irrefl in Hr.
Qed.

Lemma slots_inflate_all s l : slots s ⊑ slots (applyAll s l).
Proof.
  revert s. induction l as [|i l IH]; intros s; [reflexivity|].
  etrans; [apply (slots_inflate i.1 s i.2) | apply IH].
Qed.

Lemma slots_deliveries s l :
  owners l -> roomy s l = true -> forall k, slots (applyAll s l) k = (slots s ⊔ joined l.*2) k.
Proof.
  revert s. induction l as [|[nowMs r] l IH]; intros s Ho Hr k.
  { cbn. unfold base.join, view_join, blank. by destruct (slots s k). }
  apply Forall_cons in Ho as [Ho Hos]. cbn in Hr, Ho. bool_to_prop.
  change (applyAll s ((nowMs, r) :: l)) with (applyAll (ApplyExt nowMs s r).1 l).
  rewrite IH by done. unfold base.join at 1, view_join. rewrite slots_owner by done.
  cbn [joined foldr fmap list_fmap snd]. unfold base.join, view_join. symmetry. apply slot_join_assoc.
Qed.
End store.
