(* ===== verification/ReplicaSpec.v ===== *)
(** * Replication is joining

    The store against its reference: joins in a semilattice of views. *)
From S2P Require Import Prelude Types Hlc Crdt CrdtLemmas CrdtInv CrdtSpec Replica.
#[local] Open Scope Z_scope.

(** C6: the store implements a state-based CRDT. Its view (the record in every slot of every
    topic) after a list of owner records, none refused by a cap, is the view before joined
    with the records, exactly, where the join keeps the record with the higher clock, ties by
    signature. Joins are commutative, associative and idempotent, so replicas that start
    equivalent and receive the same records, in any order, with duplicates and at any clock
    readings, stay equivalent: in every slot neither record wins over the other. And no input
    of any kind, attestations and refused records included, takes a view down. *)
Theorem store_is_join `{MapOrder} :
  (forall s l, owners l -> roomy s l = true ->
     forall k, slots (applyAll s l) k = (slots s ⊔ joined l.*2) k) /\
  (forall s1 s2 l1 l2, owners l1 -> owners l2 -> roomy s1 l1 = true -> roomy s2 l2 = true ->
     slots s1 ≡ slots s2 -> (forall r, r ∈ l1.*2 <-> r ∈ l2.*2) ->
     slots (applyAll s1 l1) ≡ slots (applyAll s2 l2)) /\
  (forall s l, slots s ⊑ slots (applyAll s l)).
Proof.
  split; [apply slots_deliveries|]. split; [|apply slots_inflate_all].
  intros s1 s2 l1 l2 Ho1 Ho2 Hr1 Hr2 Hs Hset k.
  rewrite !slots_deliveries by done.
  exact (lat_proper (A:=view) _ _ Hs _ _ (joined_set _ _ Hset) k).
Qed.
