(* ===== verification/SubGate.v ===== *)
(** * Subscriptions (src/node.go: Subscribe, subGate, recordAccepted, deliverToSubs)

    The goroutine that runs [Subscribe] for one subscriber, interleaved with any number of
    goroutines that accept records and deliver them. A step is what one goroutine does
    between two synchronisation points: a change of the store, a section under one of the
    mutexes, or the entry into or return from the subscriber's function. *)
From S2P Require Import Prelude Types Hlc Sig Crdt.

(** [type subGate struct]; [inner] is the subscriber, whose calls are logged below. *)
Record subGate := mkSubGate { replaying : bool; queue : list Record_ }.

(** [func (g *subGate) deliver(r Record) error] up to the call of [inner]: the gate, and
    whether the caller goes on to call [inner]. *)
Definition deliver (g : subGate) (r : Record_) : subGate * bool :=
  if replaying g then (mkSubGate true (queue g ++ [r]), false) else (g, true).

(** The test of [finishReplay] that skips a queued record. *)
Definition covered (replayed : gmap recordKey Z) (r : Record_) : bool :=
  match replayed !! keyOf r with Some hlc => r_HLC r <=? hlc | None => false end.

(** The map [Subscribe] builds while it replays. *)
Definition replayedOf (snap : list Record_) : gmap recordKey Z :=
  foldl (fun m r => <[keyOf r := r_HLC r]> m) ∅ snap.

(** Where the goroutine of [Subscribe] stands. [Replaying] and [Draining] list what is left
    of the snapshot and of the current batch; [..In] is inside the subscriber. *)
Inductive pc :=
  | Start
  | Registered
  | Replaying (todo : list Record_)
  | ReplayIn (todo : list Record_)
  | Locking
  | Draining (todo : list Record_)
  | DrainIn (todo : list Record_)
  | Done.

(** [store] is the node's record store; [registered] tells whether the gate is in
    [n.subs[topic]]; [accepted] the records that were applied, or published by the node,
    and are on their way to [deliverToSubs]; [holding] those whose goroutine has copied the callbacks; [passed]
    those [deliver] has let through; [inside] the direct calls of the subscriber that have
    not returned; [log] every record the subscriber has been called with, in order. The last
    two are a history that no code keeps: the snapshot, and every record that reached
    [deliver], in order. *)
Record sys := mkSys {
  store : recordStore;
  registered : bool;
  accepted : list Record_;
  holding : list Record_;
  gate : subGate;
  passed : list Record_;
  inside : list Record_;
  at_ : pc;
  replayed : gmap recordKey Z;
  log : list Record_;
  snap : list Record_;
  arrived : list Record_
}.

(** A subscription that has not started, on a store. *)
Definition init (s : recordStore) : sys :=
  mkSys s false [] [] (mkSubGate true []) [] [] Start ∅ [] [] [].

Section steps.
Context `{MapOrder} (topic : Topic).

Inductive step (s : sys) : sys -> Prop :=
  (* another goroutine: ApplyExt took effect, or the store was swept *)
  | step_apply nowMs r st flags :
      r_Topic r = topic -> ApplyExt nowMs (store s) r = (st, (true, flags.1, flags.2)) ->
      step s (mkSys st (registered s) (accepted s ++ [r]) (holding s) (gate s) (passed s)
                (inside s) (at_ s) (replayed s) (log s) (snap s) (arrived s))
  | step_refused nowMs r st flags :
      ApplyExt nowMs (store s) r = (st, (false, flags.1, flags.2)) ->
      step s (mkSys st (registered s) (accepted s) (holding s) (gate s) (passed s)
                (inside s) (at_ s) (replayed s) (log s) (snap s) (arrived s))
  (* a publication of the node itself is delivered even when the store refused it *)
  | step_own_refused nowMs r st flags :
      r_Topic r = topic -> ApplyExt nowMs (store s) r = (st, (false, flags.1, flags.2)) ->
      step s (mkSys st (registered s) (accepted s ++ [r]) (holding s) (gate s) (passed s)
                (inside s) (at_ s) (replayed s) (log s) (snap s) (arrived s))
  | step_sweep nowMs ttl :
      step s (mkSys (reapExpired (store s) nowMs ttl).1 (registered s) (accepted s) (holding s)
                (gate s) (passed s) (inside s) (at_ s) (replayed s) (log s) (snap s) (arrived s))
  (* deliverToSubs copies the callbacks under the lock *)
  | step_copy l1 r l2 :
      accepted s = l1 ++ r :: l2 ->
      step s (mkSys (store s) (registered s) (l1 ++ l2)
                (if registered s then holding s ++ [r] else holding s) (gate s) (passed s)
                (inside s) (at_ s) (replayed s) (log s) (snap s) (arrived s))
  (* ... and calls deliver *)
  | step_deliver l1 r l2 g through :
      holding s = l1 ++ r :: l2 -> deliver (gate s) r = (g, through) ->
      step s (mkSys (store s) (registered s) (accepted s) (l1 ++ l2) g
                (if through then passed s ++ [r] else passed s)
                (inside s) (at_ s) (replayed s) (log s) (snap s) (arrived s ++ [r]))
  (* ... which calls the subscriber itself when the gate is open *)
  | step_enter l1 r l2 :
      passed s = l1 ++ r :: l2 ->
      step s (mkSys (store s) (registered s) (accepted s) (holding s) (gate s) (l1 ++ l2)
                (inside s ++ [r]) (at_ s) (replayed s) (log s ++ [r]) (snap s) (arrived s))
  | step_leave l1 r l2 :
      inside s = l1 ++ r :: l2 ->
      step s (mkSys (store s) (registered s) (accepted s) (holding s) (gate s) (passed s)
                (l1 ++ l2) (at_ s) (replayed s) (log s) (snap s) (arrived s))
  (* Subscribe registers the gate, takes the snapshot, and replays it *)
  | step_register :
      at_ s = Start ->
      step s (mkSys (store s) true (accepted s) (holding s) (gate s) (passed s) (inside s)
                Registered (replayed s) (log s) (snap s) (arrived s))
  | step_snapshot recs :
      at_ s = Registered -> recs = topicRecordsAll (store s) topic ->
      step s (mkSys (store s) (registered s) (accepted s) (holding s) (gate s) (passed s)
                (inside s) (Replaying recs) (replayedOf recs) (log s) recs (arrived s))
  | step_replay r todo :
      at_ s = Replaying (r :: todo) ->
      step s (mkSys (store s) (registered s) (accepted s) (holding s) (gate s) (passed s)
                (inside s) (ReplayIn todo) (replayed s) (log s ++ [r]) (snap s) (arrived s))
  | step_replayed todo :
      at_ s = ReplayIn todo ->
      step s (mkSys (store s) (registered s) (accepted s) (holding s) (gate s) (passed s)
                (inside s) (Replaying todo) (replayed s) (log s) (snap s) (arrived s))
  | step_finish :
      at_ s = Replaying [] ->
      step s (mkSys (store s) (registered s) (accepted s) (holding s) (gate s) (passed s)
                (inside s) Locking (replayed s) (log s) (snap s) (arrived s))
  (* finishReplay under the lock: take the queue as a batch, or open the gate *)
  | step_batch r q :
      at_ s = Locking -> queue (gate s) = r :: q ->
      step s (mkSys (store s) (registered s) (accepted s) (holding s)
                (mkSubGate (replaying (gate s)) []) (passed s) (inside s)
                (Draining (r :: q)) (replayed s) (log s) (snap s) (arrived s))
  | step_open :
      at_ s = Locking -> queue (gate s) = [] ->
      step s (mkSys (store s) (registered s) (accepted s) (holding s) (mkSubGate false [])
                (passed s) (inside s) Done (replayed s) (log s) (snap s) (arrived s))
  | step_skip r todo :
      at_ s = Draining (r :: todo) -> covered (replayed s) r = true ->
      step s (mkSys (store s) (registered s) (accepted s) (holding s) (gate s) (passed s)
                (inside s) (Draining todo) (replayed s) (log s) (snap s) (arrived s))
  | step_drain r todo :
      at_ s = Draining (r :: todo) -> covered (replayed s) r = false ->
      step s (mkSys (store s) (registered s) (accepted s) (holding s) (gate s) (passed s)
                (inside s) (DrainIn todo) (replayed s) (log s ++ [r]) (snap s) (arrived s))
  | step_drained todo :
      at_ s = DrainIn todo ->
      step s (mkSys (store s) (registered s) (accepted s) (holding s) (gate s) (passed s)
                (inside s) (Draining todo) (replayed s) (log s) (snap s) (arrived s))
  | step_again :
      at_ s = Draining [] ->
      step s (mkSys (store s) (registered s) (accepted s) (holding s) (gate s) (passed s)
                (inside s) Locking (replayed s) (log s) (snap s) (arrived s))
  (* the closure Subscribe returns *)
  | step_unsubscribe :
      at_ s = Done ->
      step s (mkSys (store s) false (accepted s) (holding s) (gate s) (passed s) (inside s)
                Done (replayed s) (log s) (snap s) (arrived s)).
End steps.
