(* ===== verification/SubGateSpec.v ===== *)
(** * Properties of subscriptions

    Replay, then live: who calls the subscriber, in what order, what it is told at least
    once, and two things it is not promised. *)
From S2P Require Import Prelude Types Hlc Sig Crdt CrdtLemmas CrdtInv CrdtReads SubGate.
From stdpp Require Import relations.
#[local] Open Scope Z_scope.

Section subscriptions.
Context `{MapOrder} (topic : Topic).

(** The queued records that are not skipped. *)
Definition live (rep : gmap recordKey Z) (l : list Record_) : list Record_ :=
  List.filter (fun r => negb (covered rep r)) l.

Lemma live_app rep l1 l2 : live rep (l1 ++ l2) = live rep l1 ++ live rep l2.
Proof. apply List.filter_app. Qed.

(** What is left of the batch in hand. *)
Definition batch (p : pc) : list Record_ :=
  match p with Draining l | DrainIn l => l | _ => [] end.

(** ** Order *)

(** The log, as far as the goroutine of [Subscribe] has come. *)
Definition ordered (s : sys) : Prop :=
  match at_ s with
  | Start => registered s = false /\ holding s = [] /\ queue (gate s) = [] /\
      arrived s = [] /\ log s = []
  | Registered => log s = [] /\ queue (gate s) = arrived s
  | Replaying todo | ReplayIn todo => snap s = log s ++ todo /\ queue (gate s) = arrived s
  | Locking | Draining _ | DrainIn _ =>
      exists taken, arrived s = taken ++ batch (at_ s) ++ queue (gate s) /\
        log s = snap s ++ live (replayed s) taken
  | Done =>
      queue (gate s) = [] /\
      exists taken direct entered, arrived s = taken ++ direct /\
        log s = snap s ++ live (replayed s) taken ++ entered /\
        direct ≡ₚ entered ++ passed s
  end.

Record order_inv (s : sys) : Prop := {
  oi_log : ordered s;
  oi_replayed : match at_ s with Start | Registered => True
                | _ => replayed s = replayedOf (snap s) end;
  oi_gate : replaying (gate s) = match at_ s with Done => false | _ => true end;
  oi_alone : at_ s <> Done -> passed s = [] /\ inside s = []
}.

Lemma order_init st : order_inv (init st).
Proof. by split. Qed.

Lemma deliver_ordered s l1 r l2 g through :
  order_inv s -> holding s = l1 ++ r :: l2 -> deliver (gate s) r = (g, through) ->
  order_inv (mkSys (store s) (registered s) (accepted s) (l1 ++ l2) g
    (if through then passed s ++ [r] else passed s) (inside s) (at_ s) (replayed s) (log s)
    (snap s) (arrived s ++ [r])).
Proof.
  intros [Hl Hr Hg Ha] Hh Hd. unfold deliver in Hd. rewrite Hg in Hd.
  assert (Hstart : at_ s <> Start).
  { intros E. unfold ordered in Hl. rewrite E in Hl. destruct Hl as (_ & Hn & _).
    rewrite Hn in Hh. by destruct l1. }
  unfold ordered in Hl. destruct (at_ s) eqn:E; try done; simplify_eq/=.
  all: split; unfold ordered; cbn; rewrite ?E in *; cbn in *; try done.
  - destruct Hl as [Hl Hq]. by rewrite Hq.
  - destruct Hl as [Hl Hq]. by rewrite Hq.
  - destruct Hl as [Hl Hq]. by rewrite Hq.
  - destruct Hl as (taken & Ht & Hlog). exists taken. rewrite Ht. by rewrite <- app_assoc.
  - destruct Hl as (taken & Ht & Hlog). exists taken. rewrite Ht. by rewrite <- !app_assoc.
  - destruct Hl as (taken & Ht & Hlog). exists taken. rewrite Ht. by rewrite <- !app_assoc.
  - destruct Hl as (Hq & taken & direct & entered & Ht & Hlog & Hp). split; [done|].
    exists taken, (direct ++ [r]), entered. rewrite Ht, <- app_assoc. split_and!; try done.
    by rewrite Hp, app_assoc.
Qed.

(** Nobody is past the gate before it opens. *)
Lemma past_gate s r : order_inv s -> r ∈ passed s \/ r ∈ inside s -> at_ s = Done.
Proof.
  intros [_ _ _ Ha] Hin. destruct (at_ s) eqn:E; try done;
    destruct Ha as [Hp Hi]; try done; rewrite Hp, Hi in Hin;
    destruct Hin as [?%not_elem_of_nil|?%not_elem_of_nil]; done.
Qed.

Lemma enter_ordered s l1 r l2 :
  order_inv s -> passed s = l1 ++ r :: l2 ->
  order_inv (mkSys (store s) (registered s) (accepted s) (holding s) (gate s) (l1 ++ l2)
    (inside s ++ [r]) (at_ s) (replayed s) (log s ++ [r]) (snap s) (arrived s)).
Proof.
  intros Hinv Hp. assert (E : at_ s = Done).
  { apply (past_gate s r Hinv). left. rewrite Hp. set_solver. }
  destruct Hinv as [Hl Hr Hg Ha]. unfold ordered in Hl. rewrite E in *.
  split; unfold ordered; cbn; try done.
  destruct Hl as (Hq & taken & direct & entered & Ht & Hlog & Hperm). split; [done|].
  exists taken, direct, (entered ++ [r]). rewrite Hlog. split_and!; [done| |].
  - by rewrite <- !app_assoc.
  - rewrite Hperm, Hp, <- app_assoc. simpl. by rewrite Permutation_middle.
Qed.

(** The parts of the invariant that a step does not touch. *)
Ltac settle_order :=
  split; unfold ordered; cbn; try done;
  try match goal with H : _ <> Done -> _ |- _ <> Done -> _ => intros _; by apply H end.

Lemma order_step s s' : order_inv s -> step topic s s' -> order_inv s'.
Proof.
  intros Hinv Hs. destruct Hs; try (by eapply deliver_ordered; eauto);
    try (by eapply enter_ordered; eauto);
    destruct Hinv as [Hl Hr Hg Ha]; unfold ordered in Hl; cbn in *;
    repeat match goal with E : at_ s = _ |- _ => rewrite E in *; clear E end; cbn in *;
    try (split; unfold ordered; cbn; first [done | intros _; by auto]).
  - (* copy *)
    settle_order. destruct (at_ s); try done.
    destruct Hl as (-> & Hl). done.
  - (* leave *)
    assert (E : at_ s = Done).
    { apply (past_gate s r); [by split|right]. rewrite H0. set_solver. }
    split; unfold ordered; cbn; rewrite ?E in *; done.
  - (* register *)
    destruct Hl as (_ & _ & Hq & Harr & Hlog). settle_order.
    by rewrite Hq, Harr.
  - (* snapshot *) destruct Hl as [Hlog Hq]. settle_order. by rewrite Hlog.
  - (* replay *) destruct Hl as [Hsnap Hq]. settle_order.
    by rewrite Hsnap, <- app_assoc.
  - (* finish *) destruct Hl as [Hsnap Hq]. settle_order.
    exists []. rewrite Hsnap, !app_nil_r. by rewrite Hq.
  - (* batch *) destruct Hl as (taken & Ht & Hlog). settle_order.
    exists taken. rewrite Ht, H1, app_nil_r. done.
  - (* open *) destruct Hl as (taken & Ht & Hlog). settle_order.
    split; [done|]. exists taken, [], []. rewrite Ht, H1, Hlog, !app_nil_r.
    destruct (Ha ltac:(done)) as [-> _]. done.
  - (* skip *) destruct Hl as (taken & Ht & Hlog). settle_order.
    exists (taken ++ [r]). rewrite Ht, live_app, Hlog. unfold live at 3. cbn.
    rewrite H1. cbn. rewrite app_nil_r, <- app_assoc. done.
  - (* drain *) destruct Hl as (taken & Ht & Hlog). settle_order.
    exists (taken ++ [r]). rewrite Ht, live_app, Hlog. unfold live at 3. cbn.
    rewrite H1. cbn. rewrite <- !app_assoc. done.
Qed.

Lemma order_run st s : rtc (step topic) (init st) s -> order_inv s.
Proof.
  intros Hr. remember (init st) as s0. revert Heqs0.
  assert (Hgen : forall a b, rtc (step topic) a b -> order_inv a -> order_inv b).
  { induction 1; eauto using order_step. }
  intros ->. by eapply Hgen; [|apply order_init].
Qed.

(** ** Completeness *)

Lemma replayedOf_lookup l k h :
  replayedOf l !! k = Some h -> exists r, r ∈ l /\ keyOf r = k /\ r_HLC r = h.
Proof.
  unfold replayedOf.
  assert (Hgen : forall m : gmap recordKey Z, foldl (fun m r => <[keyOf r := r_HLC r]> m) m l !! k = Some h ->
    m !! k = Some h \/ exists r, r ∈ l /\ keyOf r = k /\ r_HLC r = h).
  { induction l as [|r l IH]; intros m Hm; [by left|]. simpl in Hm.
    destruct (IH _ Hm) as [Hk|(r' & ? & ?)]; [|right; exists r'; split; [by right|done]].
    rewrite lookup_insert in Hk. case_decide; [|by left]. simplify_eq. right.
    exists r. split; [left|done]. }
  intros Hk. destruct (Hgen ∅ Hk) as [?|?]; [done|done].
Qed.

(** What a slot may hold after a step of the store. *)
Lemma slot_after nowMs st r t k x :
  slot (ApplyExt nowMs st r).1 t k = Some x ->
  slot st t k = Some x \/ r_Sig x = [] \/ (x = r /\ (ApplyExt nowMs st r).2.1.1 = true).
Proof.
  destruct (IsObserverAttestation r) eqn:Ho.
  - destruct (topic_capped st (r_Topic r)) eqn:Hc.
    { rewrite ApplyExt_unfold, Hc. auto. }
    pose proof (ApplyExt_attestation nowMs st r Ho Hc) as Ha. cbv zeta in Ha.
    destruct (ApplyExt nowMs st r) as [s' [[ap re] ac]]. cbn [fst snd].
    destruct Ha as (Hother & _ & _ & _ & Hbelow & Hquorum).
    rewrite !slot_topicOf. destruct (decide (t = r_Topic r)) as [->|Ht];
      [|rewrite Hother by done; auto].
    destruct (admits nowMs st (topicOf st (r_Topic r)) r) eqn:Had.
    2:{ destruct (Hbelow (or_introl eq_refl)) as [_ ->]. auto. }
    destruct (Z.lt_ge_cases (mlen (witnesses st (topicOf st (r_Topic r)) r)) (observerQuorum st)).
    { destruct Hbelow as [_ ->]; auto. }
    rewrite Hquorum by done. intros Hx. repeat case_match; simplify_eq; auto.
  - destruct (room st r) eqn:Hr.
    + pose proof (ApplyExt_owner_room nowMs st r Ho Hr) as Ha. cbv zeta in Ha.
      destruct (ApplyExt nowMs st r) as [s' res]. destruct Ha as (-> & Hslot & _). cbn [fst snd].
      rewrite Hslot. case_decide as Hd; [|auto]. destruct Hd as [-> ->]. unfold join.
      destruct (slot st (r_Topic r) (keyOf r)) as [cur|]; [|by intros [= <-]; auto].
      cbn. destruct (newer r cur); intros [= <-]; auto.
    + pose proof (ApplyExt_owner_capped nowMs st r Ho Hr) as Ha.
      destruct (ApplyExt nowMs st r) as [s' res]. destruct Ha as (_ & Ht & _). cbn [fst].
      rewrite !slot_topicOf, Ht. auto.
Qed.

Lemma slot_swept st nowMs ttl t k x :
  slot (reapExpired st nowMs ttl).1 t k = Some x -> slot st t k = Some x.
Proof.
  destruct ttl as [ttl|]; [|done]. rewrite !slot_topicOf, reap_topicOf, kept_records.
  destruct (records (topicOf st t) !! k) as [r|]; [|done]. by case_match.
Qed.

(** The record has been replayed, or is somewhere on its way, or has been delivered. *)
Definition on_its_way (s : sys) (r : Record_) : Prop :=
  r ∈ accepted s \/ r ∈ holding s \/ r ∈ queue (gate s) \/ r ∈ batch (at_ s) \/
  r ∈ passed s \/ r ∈ log s.

Definition told (l : list Record_) (r : Record_) : Prop :=
  exists r', r' ∈ l /\ keyOf r' = keyOf r /\ r_HLC r <= r_HLC r'.

(** After the snapshot, no signed record of a slot is lost. *)
Definition no_gap (s : sys) : Prop :=
  wf_store (store s) /\
  (at_ s <> Start -> at_ s <> Registered -> registered s = true ->
   forall k r, slot (store s) topic k = Some r -> r_Sig r <> [] ->
     told (snap s) r \/ on_its_way s r).

Lemma covered_told s r :
  replayed s = replayedOf (snap s) -> covered (replayed s) r = true -> told (snap s) r.
Proof.
  intros Hrep Hc. unfold covered in Hc. rewrite Hrep in Hc.
  destruct (replayedOf (snap s) !! keyOf r) as [h|] eqn:E; [|done].
  destruct (replayedOf_lookup _ _ _ E) as (r' & Hin & Hk & Hh). exists r'.
  bool_to_prop. split_and!; [done|done|lia].
Qed.

Lemma wf_step s s' : wf_store (store s) -> step topic s s' -> wf_store (store s').
Proof.
  intros Hwf Hs. destruct Hs; cbn; try exact Hwf; try (by apply wf_reapExpired).
  - pose proof (wf_ApplyExt nowMs (store s) r Hwf) as Hw. by rewrite H1 in Hw.
  - pose proof (wf_ApplyExt nowMs (store s) r Hwf) as Hw. by rewrite H0 in Hw.
  - pose proof (wf_ApplyExt nowMs (store s) r Hwf) as Hw. by rewrite H1 in Hw.
Qed.

(** A signed record of a slot is carried by the step, or had been replayed. *)
Lemma way_step s s' r :
  order_inv s -> registered s' = true -> step topic s s' ->
  on_its_way s r -> told (snap s) r \/ on_its_way s' r.
Proof.
  intros Ho Hreg Hs Hway. unfold on_its_way in *.
  assert (Hskip : forall r0 todo, at_ s = Draining (r0 :: todo) -> covered (replayed s) r0 = true ->
    r = r0 -> told (snap s) r).
  { intros r0 todo Ha Hc ->. apply covered_told; [|done].
    pose proof (oi_replayed s Ho) as Hr. by rewrite Ha in Hr. }
  destruct Hs; cbn in *; try (by auto);
    try match goal with H : deliver _ _ = _ |- _ => unfold deliver in H; case_match; simplify_eq/= end;
    try rewrite Hreg;
    repeat match goal with
    | E : at_ _ = _ |- _ => rewrite E in *; clear E
    | E : accepted _ = _ |- _ => rewrite E in *; clear E
    | E : holding _ = _ |- _ => rewrite E in *; clear E
    | E : passed _ = _ |- _ => rewrite E in *; clear E
    | E : queue _ = _ |- _ => rewrite E in *; clear E
    end; cbn in *.
  all: try (right; clear Hskip; set_solver).
  rewrite elem_of_cons in Hway.
  destruct (decide (r = r0)) as [->|]; [left; by eapply Hskip|right; clear Hskip; naive_solver].
Qed.

Lemma slot_step s s' k r :
  slot (store s') topic k = Some r -> r_Sig r <> [] -> step topic s s' ->
  slot (store s) topic k = Some r \/ r ∈ accepted s'.
Proof.
  intros Hk Hsig Hs. destruct Hs; cbn in *; auto.
  - pose proof (slot_after nowMs (store s) r0 topic k r) as Ha. rewrite H1 in Ha.
    destruct (Ha Hk) as [?|[?|[-> _]]]; [auto|done|right; set_solver].
  - pose proof (slot_after nowMs (store s) r0 topic k r) as Ha. rewrite H0 in Ha.
    destruct (Ha Hk) as [?|[?|[-> ?]]]; [auto|done|done].
  - pose proof (slot_after nowMs (store s) r0 topic k r) as Ha. rewrite H1 in Ha.
    destruct (Ha Hk) as [?|[?|[-> ?]]]; [auto|done|done].
  - left. by eapply slot_swept.
Qed.

(** Either the step takes the snapshot, or it had been taken. *)
Lemma phase_step s s' :
  step topic s s' -> at_ s' <> Start -> at_ s' <> Registered -> registered s' = true ->
  (store s' = store s /\ snap s' = topicRecordsAll (store s) topic) \/
  (at_ s <> Start /\ at_ s <> Registered /\ registered s = true /\ snap s' = snap s).
Proof.
  intros Hs. destruct Hs; cbn; intros HS HR Hreg; auto; right;
    try match goal with E : at_ _ = _ |- _ => rewrite E in * end; done.
Qed.

Lemma gap_step s s' : order_inv s -> no_gap s -> step topic s s' -> no_gap s'.
Proof.
  intros Ho [Hwf Hg] Hs. split; [by eapply wf_step|]. intros HS HR Hreg k r Hk Hsig.
  destruct (phase_step s s' Hs HS HR Hreg) as [[Est Esnap]|(HS' & HR' & Hreg' & Esnap)].
  - left. exists r. split_and!; [|done|lia]. rewrite Esnap. rewrite Est in Hk.
    apply elem_of_topicRecordsWhere; [done|].
    destruct (wf_slot_key _ _ _ _ Hwf Hk) as [_ ->]. done.
  - rewrite Esnap. destruct (slot_step s s' k r Hk Hsig Hs) as [Hold|Hacc];
      [|right; by left].
    destruct (Hg HS' HR' Hreg' k r Hold Hsig) as [?|Hway]; [by left|].
    by eapply way_step.
Qed.

Lemma gap_run st s : wf_store st -> rtc (step topic) (init st) s -> no_gap s.
Proof.
  intros Hwf Hr.
  assert (Hgen : forall a b, rtc (step topic) a b -> order_inv a -> no_gap a -> no_gap b).
  { induction 1; eauto using order_step, gap_step. }
  eapply Hgen; [exact Hr|apply order_init|]. split; [exact Hwf|]. intros Hs. by destruct Hs.
Qed.

(** C19: replay, then live. In every reachable state of a subscription: until [Subscribe]
    returns nobody but its own goroutine is inside the subscriber or past the gate; and
    once it has returned, the subscriber has been called with the snapshot in slot order,
    then with the records that reached the gate while it was shut, in the order in which
    they reached it, except those whose slot was replayed with an HLC at least as high,
    and only then with records that reached it afterwards. *)
Theorem replay_then_live (st : recordStore) (s : sys) :
  rtc (step topic) (init st) s ->
  (at_ s <> Done -> inside s = [] /\ passed s = []) /\
  (at_ s = Done -> exists taken direct entered,
     arrived s = taken ++ direct /\
     log s = snap s ++ live (replayedOf (snap s)) taken ++ entered /\
     direct ≡ₚ entered ++ passed s).
Proof.
  intros Hr. destruct (order_run st s Hr) as [Hl Hrep _ Ha]. split.
  - intros Hd. by destruct (Ha Hd).
  - intros Hd. unfold ordered in Hl. rewrite Hd in *. destruct Hl as (_ & Hl). by rewrite <- Hrep.
Qed.

(** C18: no gaps. Once [Subscribe] has returned and every record accepted so far has gone
    through [deliverToSubs], then for every slot of the topic that holds a signed record,
    whenever it was accepted, the subscriber has been called with a record of that slot
    whose HLC is at least as high. *)
Theorem subscriber_told (st : recordStore) (s : sys) (k : recordKey) (r : Record_) :
  wf_store st -> rtc (step topic) (init st) s ->
  at_ s = Done -> registered s = true ->
  accepted s = [] -> holding s = [] -> passed s = [] ->
  slot (store s) topic k = Some r -> r_Sig r <> [] ->
  exists r', r' ∈ log s /\ keyOf r' = k /\ r_HLC r <= r_HLC r'.
Proof.
  intros Hwf Hr Hd Hreg Hacc Hhold Hpass Hk Hsig.
  destruct (gap_run st s Hwf Hr) as [Hwf' Hgap].
  destruct (order_run st s Hr) as [Hl _ _ _]. unfold ordered in Hl. rewrite Hd in Hl.
  destruct Hl as (Hq & taken & direct & entered & _ & Hlog & _).
  destruct (wf_slot_key _ _ _ _ Hwf' Hk) as [_ Hkey].
  destruct (Hgap ltac:(congruence) ltac:(congruence) Hreg k r Hk Hsig) as [(r' & Hin & Hk' & Hh)|Hway].
  - exists r'. split_and!; [rewrite Hlog; set_solver|congruence|done].
  - exists r. split_and!; [|done|lia]. unfold on_its_way in Hway.
    rewrite Hacc, Hhold, Hpass, Hq, Hd in Hway. cbn in Hway. set_solver.
Qed.

(** ** What is not promised *)

(** One owner record in a new store. *)
Lemma first_apply r :
  IsObserverAttestation r = false ->
  exists st, ApplyExt 0 newRecordStore r = (st, (true, false, false)) /\ wf_store st /\
    room newRecordStore r = true /\
    (forall t k, slot st t k = if decide (t = r_Topic r /\ k = keyOf r) then Some r else None).
Proof.
  intros Ho. assert (Hr : room newRecordStore r = true) by done.
  pose proof (ApplyExt_owner_room 0 newRecordStore r Ho Hr) as Ha. cbv zeta in Ha.
  pose proof (wf_ApplyExt 0 newRecordStore r wf_newRecordStore) as Hwf.
  destruct (ApplyExt 0 newRecordStore r) as [st res]. destruct Ha as (-> & Hs & _).
  exists st. split_and!; done.
Qed.

Lemma only_record st r :
  wf_store st ->
  (forall t k, slot st t k = if decide (t = r_Topic r /\ k = keyOf r) then Some r else None) ->
  topicRecordsAll st (r_Topic r) = [r].
Proof.
  intros Hwf Hs. apply slot_sorted_unique.
  - by apply topicRecordsWhere_sorted.
  - repeat constructor.
  - intros x. unfold topicRecordsAll. rewrite elem_of_topicRecordsWhere, Hs by done.
    rewrite list_elem_of_singleton. case_decide; naive_solver.
Qed.

Ltac take_step tac := eapply rtc_l; [tac|cbn].

(** A record accepted before the snapshot whose goroutine comes to the gate late. *)
Lemma late_delivery r :
  IsObserverAttestation r = false -> r_Topic r = topic ->
  exists s, rtc (step topic) (init newRecordStore) s /\ at_ s = Done /\ registered s = true /\
    accepted s = [] /\ holding s = [] /\ passed s = [] /\
    slot (store s) topic (keyOf r) = Some r /\ snap s = [r] /\ log s = [r; r].
Proof.
  intros Ho Ht. destruct (first_apply r Ho) as (st1 & E1 & Hwf1 & _ & Hs1).
  assert (Hsnap : topicRecordsAll st1 topic = [r]) by (rewrite <- Ht; by apply only_record).
  eexists. split.
  - take_step ltac:(eapply (step_apply topic _ 0 r st1 (false, false)); done).
    take_step ltac:(by apply step_register).
    take_step ltac:(by apply (step_copy topic _ [] r [])).
    take_step ltac:(by eapply (step_snapshot topic _ [r])).
    take_step ltac:(by eapply step_replay). take_step ltac:(by eapply step_replayed).
    take_step ltac:(by apply step_finish). take_step ltac:(by apply step_open).
    take_step ltac:(by eapply (step_deliver topic _ [] r [])).
    take_step ltac:(by apply (step_enter topic _ [] r [])). apply rtc_refl.
  - split_and!; try done. cbn. by rewrite Hs1, decide_True.
Qed.

(** Two things a subscriber is not promised. First, a record is not always delivered
    exactly once: one that is accepted before the snapshot, and whose goroutine reaches the
    gate only after it has opened, is delivered twice, by the replay and live. Second, the
    record that wins a slot is not always delivered: when two records of a slot have one
    HLC, so that the signature decides, and the winner is queued while the loser is
    replayed, the winner is skipped, although the store keeps it. *)
Theorem replay_not_exact (r1 r2 : Record_) :
  IsObserverAttestation r1 = false -> IsObserverAttestation r2 = false ->
  r_Topic r1 = topic -> r_Topic r2 = topic -> keyOf r2 = keyOf r1 ->
  r_HLC r2 = r_HLC r1 -> sigLess (r_Sig r1) (r_Sig r2) = true ->
  (exists s, rtc (step topic) (init newRecordStore) s /\ at_ s = Done /\ log s = [r1; r1]) /\
  (exists s, rtc (step topic) (init newRecordStore) s /\ at_ s = Done /\ registered s = true /\
     accepted s = [] /\ holding s = [] /\ passed s = [] /\
     slot (store s) topic (keyOf r1) = Some r2 /\ log s = [r1]).
Proof.
  intros Ho1 Ho2 Ht1 Ht2 Hk Hh Hsig.
  split; [destruct (late_delivery r1 Ho1 Ht1) as (s & ? & ? & _ & _ & _ & _ & _ & _ & ?); eauto|].
  destruct (first_apply r1 Ho1) as (st1 & E1 & Hwf1 & _ & Hs1).
  assert (Hsnap : topicRecordsAll st1 topic = [r1]) by (rewrite <- Ht1; by apply only_record).
  assert (Hroom : room st1 r2 = true).
  { unfold room. specialize (Hs1 (r_Topic r2) (keyOf r2)). unfold slot in Hs1.
      rewrite decide_True in Hs1 by (split; congruence).
      destruct (byTopic st1 !! r_Topic r2) as [ts|]; [|done]. by rewrite Hs1. }
    pose proof (ApplyExt_owner_room 0 st1 r2 Ho2 Hroom) as Ha. cbv zeta in Ha.
    assert (Hcur : slot st1 (r_Topic r2) (keyOf r2) = Some r1)
      by (rewrite Hs1; apply decide_True; split; congruence).
    assert (Hnew : newer r2 r1 = true).
    { apply newer_spec. right. split; [done|]. by rewrite <- lex_less_blt. }
    rewrite Hcur, Hnew in Ha. destruct (ApplyExt 0 st1 r2) as [st2 res] eqn:E2.
    destruct Ha as (-> & Hs2 & _).
    assert (Hcov : covered (replayedOf [r1]) r2 = true).
    { unfold covered, replayedOf. cbn. rewrite Hk, lookup_insert_eq. apply Z.leb_le. lia. }
    eexists. split.
  - take_step ltac:(eapply (step_apply topic _ 0 r1 st1 (false, false)); done).
      take_step ltac:(by apply (step_copy topic _ [] r1 [])).
      take_step ltac:(by apply step_register).
      take_step ltac:(by eapply (step_snapshot topic _ [r1])).
      take_step ltac:(eapply (step_apply topic _ 0 r2 st2 (true, false)); done).
      take_step ltac:(by apply (step_copy topic _ [] r2 [])).
      take_step ltac:(by eapply (step_deliver topic _ [] r2 [])).
      take_step ltac:(by eapply step_replay). take_step ltac:(by eapply step_replayed).
      take_step ltac:(by apply step_finish). take_step ltac:(by eapply step_batch).
      take_step ltac:(by eapply step_skip). take_step ltac:(by apply step_again).
      take_step ltac:(by apply step_open). apply rtc_refl.
  - split_and!; try done. cbn. rewrite Hs2, decide_True by (split; congruence).
      simpl. by rewrite Hnew.
Qed.
End subscriptions.

(** Sample records of one slot. *)
Definition sub_record (hlc : Z) (sig : bytes) : Record_ :=
  mkRecord "fleet" "node-3" hlc [Byte.x75] false [] sig "" "" 0.

Lemma replay_then_live_witness :
  let _ := std_order in
  exists s, rtc (step "fleet") (init newRecordStore) s /\ at_ s = Done /\
  exists taken direct entered,
    arrived s = taken ++ direct /\
    log s = snap s ++ live (replayedOf (snap s)) taken ++ entered /\ direct ≡ₚ entered ++ passed s.
Proof.
  intros o. destruct (late_delivery "fleet" (sub_record 5 [Byte.x01]) eq_refl eq_refl)
    as (s & Hr & Hd & _). exists s. split; [exact Hr|]. split; [exact Hd|].
  exact (proj2 (replay_then_live "fleet" newRecordStore s Hr) Hd).
Defined.

Lemma subscriber_told_witness :
  let _ := std_order in
  exists s, rtc (step "fleet") (init newRecordStore) s /\
  exists r', r' ∈ log s /\ keyOf r' = mkKey "node-3" "" /\ 5 <= r_HLC r'.
Proof.
  intros o. set (r := sub_record 5 [Byte.x01]).
  destruct (late_delivery "fleet" r eq_refl eq_refl)
    as (s & Hr & Hd & Hreg & Hacc & Hhold & Hpass & Hslot & _). exists s. split; [exact Hr|].
  assert (Hsig : r_Sig r <> []) by (intros E; vm_compute in E; discriminate E).
  exact (subscriber_told "fleet" newRecordStore s (mkKey "node-3" "") r wf_newRecordStore Hr Hd
    Hreg Hacc Hhold Hpass Hslot Hsig).
Defined.

Lemma replay_not_exact_witness :
  let _ := std_order in
  let r1 := sub_record 5 [Byte.x01] in let r2 := sub_record 5 [Byte.x02] in
  (exists s, rtc (step "fleet") (init newRecordStore) s /\ at_ s = Done /\ log s = [r1; r1]) /\
  (exists s, rtc (step "fleet") (init newRecordStore) s /\ at_ s = Done /\ registered s = true /\
     accepted s = [] /\ holding s = [] /\ passed s = [] /\
     slot (store s) "fleet" (keyOf r1) = Some r2 /\ log s = [r1]).
Proof.
  intros o r1 r2. apply (replay_not_exact "fleet" r1 r2); try reflexivity.
Defined.
