(* ===== verification/Gate.v ===== *)
(** * The inbound admission gate (src/harden.go)

    [inboundGate.Admit] runs after signature verification and before the store. The
    application's trust check is a function parameter; an error is its message. The
    gate reads the real wall clock, not the configured one. *)
From S2P Require Import Prelude Types Hlc Sig.

(** [type inboundGate struct], without the clock. *)
Record inboundGate := mkGate {
  maxBytes : Z;
  maxSkew : Z;
  binding : bool;
  trustCheck : option (Record_ -> option string);
  rejectedSize : Z;
  rejectedSkew : Z;
  rejectedBinding : Z;
  rejectedTrust : Z
}.

(** The fields of [Config] the gate is built from. *)
Record gateConfig := mkGateConfig {
  cfg_MaxRecordBytes : Z;
  cfg_MaxClockSkew : Z;
  cfg_RequireNodeKeyBinding : bool;
  cfg_TrustCheck : option (Record_ -> option string)
}.

(** [func newInboundGate(cfg Config) *inboundGate]. *)
Definition newInboundGate (cfg : gateConfig) : inboundGate :=
  let maxSkew := cfg_MaxClockSkew cfg in
  let maxSkew := if maxSkew <=? 0 then 10 * Minute else maxSkew in
  mkGate (cfg_MaxRecordBytes cfg) maxSkew (cfg_RequireNodeKeyBinding cfg)
    (cfg_TrustCheck cfg) 0 0 0 0.

(** The counters, each [atomic.Uint64]. *)
Definition bumpSize (g : inboundGate) : inboundGate :=
  mkGate (maxBytes g) (maxSkew g) (binding g) (trustCheck g)
    (u64 (rejectedSize g + 1)) (rejectedSkew g) (rejectedBinding g) (rejectedTrust g).
Definition bumpSkew (g : inboundGate) : inboundGate :=
  mkGate (maxBytes g) (maxSkew g) (binding g) (trustCheck g)
    (rejectedSize g) (u64 (rejectedSkew g + 1)) (rejectedBinding g) (rejectedTrust g).
Definition bumpBinding (g : inboundGate) : inboundGate :=
  mkGate (maxBytes g) (maxSkew g) (binding g) (trustCheck g)
    (rejectedSize g) (rejectedSkew g) (u64 (rejectedBinding g + 1)) (rejectedTrust g).
Definition bumpTrust (g : inboundGate) : inboundGate :=
  mkGate (maxBytes g) (maxSkew g) (binding g) (trustCheck g)
    (rejectedSize g) (rejectedSkew g) (rejectedBinding g) (u64 (rejectedTrust g + 1)).

(** The NodeID the binding check ties to the public key. *)
Definition bindID (r : Record_) : NodeID :=
  if IsObserverAttestation r then r_ObserverNodeID r else r_NodeID r.

(** [func (g *inboundGate) Admit(r Record) error]: [None] is the nil error. *)
Definition Admit (nowMs : Z) (g : inboundGate) (r : Record_) : inboundGate * option Err :=
  if slen (r_Key r) >? MaxKeyBytes then (bumpSize g, Some errGateKeyTooLong) else
  if (maxBytes g >? 0) && (len (r_Body r) >? maxBytes g)
  then (bumpSize g, Some errGateTooLarge) else
  let wallMs := (Decompose (r_HLC r)).1 in
  if wallMs >? u64 (u64 nowMs + u64 (Milliseconds (maxSkew g)))
  then (bumpSkew g, Some errGateSkew) else
  if binding g && (negb (len (r_PubKey r) =? PublicKeySize) ||
                   negb (String.eqb (bindID r) (nodeIDFromPub (r_PubKey r))))
  then (bumpBinding g, Some errGateBinding) else
  match trustCheck g with
  | Some fn => match fn r with
               | Some cause => (bumpTrust g, Some (ErrTrust cause))
               | None => (g, None)
               end
  | None => (g, None)
  end.

(** [func (g *inboundGate) Rejections()]. *)
Definition Rejections (g : inboundGate) : Z * Z * Z * Z :=
  (rejectedSize g, rejectedSkew g, rejectedBinding g, rejectedTrust g).

(** ** Lemmas *)

(** What [Admit] tests, besides the counters. *)
Definition gate_policy (g : inboundGate) := (maxBytes g, maxSkew g, binding g, trustCheck g).

(** The record satisfies every check of the gate at clock reading [nowMs]. *)
Record admissible (nowMs : Z) (g : inboundGate) (r : Record_) : Prop := {
  adm_key : slen (r_Key r) <= MaxKeyBytes;
  adm_body : 0 < maxBytes g -> len (r_Body r) <= maxBytes g;
  adm_skew : (Decompose (r_HLC r)).1 <= u64 (u64 nowMs + u64 (Milliseconds (maxSkew g)));
  adm_binding : binding g = true ->
    len (r_PubKey r) = PublicKeySize /\ bindID r = nodeIDFromPub (r_PubKey r);
  adm_trust : forall fn, trustCheck g = Some fn -> fn r = None
}.

Lemma Admit_policy nowMs g r : gate_policy (Admit nowMs g r).1 = gate_policy g.
Proof. unfold Admit. cbv zeta. split_matches. Qed.

Lemma Admit_None nowMs g r :
  (Admit nowMs g r).2 = None <-> admissible nowMs g r.
Proof.
  unfold Admit. cbv zeta. rewrite !Z.gtb_ltb. split.
  - intros E.
    destruct (MaxKeyBytes <? slen (r_Key r)) eqn:E1; [done|].
    destruct ((0 <? maxBytes g) && (maxBytes g <? len (r_Body r))) eqn:E2; [done|].
    destruct (_ <? (Decompose (r_HLC r)).1) eqn:E3; [done|].
    destruct (binding g && _) eqn:E4; [done|].
    split; [bool_to_prop; lia|bool_to_prop; lia|bool_to_prop; lia| |].
    + intros Hb. rewrite Hb in E4. simpl in E4. bool_to_prop. done.
    + intros fn Hfn. rewrite Hfn in E. by destruct (fn r).
  - intros [H1 H2 H3 H4 H5].
    rewrite (proj2 (Z.ltb_ge _ _)) by lia.
    destruct ((0 <? maxBytes g) && (maxBytes g <? len (r_Body r))) eqn:E2;
      [bool_to_prop; lia|].
    rewrite (proj2 (Z.ltb_ge _ _)) by lia.
    destruct (binding g) eqn:Hb; simpl.
    + destruct (H4 eq_refl) as [-> ->]. rewrite String.eqb_refl. simpl.
      destruct (trustCheck g) as [fn|]; [by rewrite (H5 fn)|done].
    + destruct (trustCheck g) as [fn|]; [by rewrite (H5 fn)|done].
Qed.

(** Admission looks only at the policy, not at the counters. *)
Lemma admissible_policy nowMs g g' r :
  gate_policy g = gate_policy g' -> admissible nowMs g r -> admissible nowMs g' r.
Proof.
  unfold gate_policy. intros [= E1 E2 E3 E4] [H1 H2 H3 H4 H5].
  split; rewrite <- ?E1, <- ?E2, <- ?E3, <- ?E4; done.
Qed.
