(* ===== verification/GateSpec.v ===== *)
(** * Properties of the admission gate

    The gate admits exactly the records that pass its checks, reports the first check
    that fails and counts it once; together with the internal signature check its
    binding test amounts to the exported, stricter verification. *)
From S2P Require Import Prelude Types Crypto Hlc Sig Gate.

(** 3: [Admit] returns nil exactly for the records that satisfy every check, and
    then changes nothing. Otherwise it reports the first failing check in the order
    key, body, skew, binding, trust, and counts it in exactly one counter; the policy
    of the gate never changes. *)
Theorem Admit_spec (nowMs : Z) (g : inboundGate) (r : Record_) :
  is_i64 nowMs -> 0 <= nowMs -> 0 < maxSkew g < 2 ^ 63 ->
  let key_ok := slen (r_Key r) <= MaxKeyBytes in
  let body_ok := 0 < maxBytes g -> len (r_Body r) <= maxBytes g in
  let skew_ok := (Decompose (r_HLC r)).1 <= nowMs + Milliseconds (maxSkew g) in
  let binding_ok := binding g = true ->
    len (r_PubKey r) = PublicKeySize /\ bindID r = nodeIDFromPub (r_PubKey r) in
  let '(g', err) := Admit nowMs g r in
  gate_policy g' = gate_policy g /\
  match err with
  | None => g' = g /\ key_ok /\ body_ok /\ skew_ok /\ binding_ok /\
            (forall fn, trustCheck g = Some fn -> fn r = None)
  | Some errGateKeyTooLong => ~ key_ok /\ g' = bumpSize g
  | Some errGateTooLarge => key_ok /\ ~ body_ok /\ g' = bumpSize g
  | Some errGateSkew => key_ok /\ body_ok /\ ~ skew_ok /\ g' = bumpSkew g
  | Some errGateBinding => key_ok /\ body_ok /\ skew_ok /\ ~ binding_ok /\ g' = bumpBinding g
  | Some (ErrTrust cause) => key_ok /\ body_ok /\ skew_ok /\ binding_ok /\ g' = bumpTrust g /\
      exists fn, trustCheck g = Some fn /\ fn r = Some cause
  | Some _ => False
  end.
Proof.
  intros Hi Hn Hs. cbv zeta.
  assert (0 <= Milliseconds (maxSkew g) < 2 ^ 62).
  { unfold Milliseconds. rewrite Z.quot_div_nonneg by lia.
    split; [apply Z.div_pos; lia|apply Z.div_lt_upper_bound; lia]. }
  assert (Hu : u64 (u64 nowMs + u64 (Milliseconds (maxSkew g))) =
               nowMs + Milliseconds (maxSkew g)).
  { unfold is_i64 in Hi. rewrite !u64_small; unfold is_u64; rewrite ?u64_small; unfold is_u64; lia. }
  pose proof (Admit_policy nowMs g r) as Hp.
  unfold Admit in *. cbv zeta in *. rewrite Hu, !Z.gtb_ltb in *.
  destruct (MaxKeyBytes <? slen (r_Key r)) eqn:E1; bool_to_prop; [split; [done|]; split; [lia|done]|].
  destruct ((0 <? maxBytes g) && (maxBytes g <? len (r_Body r))) eqn:E2; bool_to_prop;
    [split; [done|]; split_and!; [lia|lia|done]|].
  assert (Hb : 0 < maxBytes g -> len (r_Body r) <= maxBytes g) by lia.
  destruct (nowMs + Milliseconds (maxSkew g) <? (Decompose (r_HLC r)).1) eqn:E3; bool_to_prop;
    [split; [done|]; split_and!; [lia|done|lia|done]|].
  destruct (binding g && _) eqn:E4.
  { apply andb_true_iff in E4 as [-> E4]. rewrite orb_true_iff, !negb_true_iff in E4.
    rewrite Z.eqb_neq, String.eqb_neq in E4.
    split; [done|]. split_and!; [lia|done|lia|tauto|done]. }
  assert (Hbind : binding g = true ->
    len (r_PubKey r) = PublicKeySize /\ bindID r = nodeIDFromPub (r_PubKey r)).
  { intros Hbt. rewrite Hbt in E4. simpl in E4. bool_to_prop. done. }
  destruct (trustCheck g) as [fn|] eqn:Ef; [destruct (fn r) as [cause|] eqn:Efr|];
    (split; [done|]); split_and!; try done; try lia; eauto; naive_solver.
Qed.

Definition sample_gate : inboundGate :=
  newInboundGate (mkGateConfig 16 0 false (Some (fun r =>
    if String.eqb (r_Topic r) "blocked" then Some "policy" else None))).

Definition sample_record (topic : Topic) (hlc : Z) (body : string) : Record_ :=
  mkRecord topic "n1" hlc (toBytes body) false [] [] "" "" 0.

(** The default skew is ten minutes; each reason in turn. *)
Lemma Admit_spec_witness :
  let t := 1700000000000 in
  Admit t sample_gate (sample_record "fleet" (packHLC (t + 600000) 3) "ok") =
    (sample_gate, None) /\
  (Admit t sample_gate (sample_record "fleet" (packHLC (t + 600001) 0) "ok")).2 =
    Some errGateSkew /\
  (Admit t sample_gate (sample_record "fleet" 0 "seventeen bytes !!")).2 = Some errGateTooLarge /\
  (Admit t sample_gate (sample_record "blocked" 0 "ok")).2 = Some (ErrTrust "policy").
Proof.
  pose proof (Admit_spec 1700000000000 sample_gate
    (sample_record "fleet" (packHLC (1700000000000 + 600001) 0) "ok")
    ltac:(machine) ltac:(machine) ltac:(machine)) as H.
  split; [vm_compute; reflexivity|].
  split; [|split; vm_compute; reflexivity].
  destruct (Admit 1700000000000 sample_gate
    (sample_record "fleet" (packHLC (1700000000000 + 600001) 0) "ok")) as [g' [e|]];
    destruct H as [_ H].
  - destruct e; try contradiction H.
    + destruct H as (_ & Hb & _). exfalso. apply Hb. vm_compute. discriminate.
    + reflexivity.
    + destruct H as (_ & _ & Hs & _). exfalso. vm_compute in Hs. by apply Hs.
    + exfalso. apply H. vm_compute. discriminate.
    + destruct H as (_ & _ & Hs & _). exfalso. vm_compute in Hs. by apply Hs.
  - destruct H as (_ & _ & _ & Hs & _). exfalso. vm_compute in Hs. by apply Hs.
Defined.

(** With key binding on, the internal inbound check is the exported one. A record
    that verifies under the public key it carries and passes a binding gate satisfies
    [VerifyRecord] when it is an owner record; when it is an attestation, the key it
    verifies under is the one its observer's NodeID encodes. No record that passes
    speaks for a node whose key did not sign it. *)
Theorem Admit_binding_sound `{Ed25519} (nowMs : Z) (g : inboundGate) (r : Record_) :
  binding g = true -> (Admit nowMs g r).2 = None ->
  verifyRecord r (r_PubKey r) = true ->
  (IsObserverAttestation r = false -> VerifyRecord r = true) /\
  (IsObserverAttestation r = true -> pubFromNodeID (r_ObserverNodeID r) = Some (r_PubKey r)).
Proof.
  intros Hb Ha Hv. apply Admit_None in Ha as [_ _ _ Hbind _].
  destruct (Hbind Hb) as [Hlen Hid]. unfold bindID in Hid.
  assert (Hpub : pubFromNodeID (nodeIDFromPub (r_PubKey r)) = Some (r_PubKey r)).
  { apply pubFromNodeID_spec. unfold nodeIDFromPub. rewrite toBytes_ofBytes, length_encodeHex.
    unfold len, PublicKeySize in Hlen. split; [lia|apply decode_encode]. }
  split; intros Ho; rewrite Ho in Hid.
  - unfold VerifyRecord. rewrite Hid, Hpub, bool_decide_eq_true_2, andb_false_r by done. done.
  - by rewrite Hid.
Qed.

Definition bound_gate : inboundGate := newInboundGate (mkGateConfig 0 0 true None).

Lemma Admit_binding_sound_witness :
  let _ := ToyEd25519.scheme in
  let pub := drop 32 (ToyEd25519.key 1) in
  let r := signRecord (mkRecord "fleet" (nodeIDFromPub pub) 5 (toBytes "hi") false [] [] "k" "" 0)
             (ToyEd25519.key 1) in
  VerifyRecord r = true.
Proof.
  intros _e pub r.
  pose proof (@Admit_binding_sound ToyEd25519.scheme 1000 bound_gate r) as H.
  apply H; vm_compute; reflexivity.
Defined.
