(* ===== verification/Peer.v ===== *)
(** * The peer table (src/peer.go)

    Per-peer configuration, the lazy-push queue, the token bucket and the tree-edge
    flag. A time is its number of nanoseconds. The fields of [peerCtx] that no code
    reads (RTT, keepalives, last-seen stamps) are left out. *)
From S2P Require Import Prelude Types.

(** [type PerPeerConfig struct]. *)
Record PerPeerConfig := mkPeerConfig {
  AdaptiveInterval : Z;
  BackpressureMax : Z;
  BandwidthCap : Z;
  EgressTokens : Z;
  PriorityClass : Z
}.

(** [func DefaultPerPeerConfig() PerPeerConfig]. *)
Definition DefaultPerPeerConfig : PerPeerConfig := mkPeerConfig (5 * Second) 256 0 0 0.

(** [type lazyEntry struct]. *)
Record lazyEntry := mkLazy {
  l_topic : Topic;
  l_nodeID : NodeID;
  l_hlc : Z;
  l_bodyHash : bytes;
  l_queuedAt : Z
}.

(** [type peerCtx struct]. [lastRefill] is [None] while it is the zero time. *)
Record peerCtx := mkPeer {
  p_id : NodeID;
  p_cfg : PerPeerConfig;
  lazyQueue : list lazyEntry;
  isTreeEdge : bool;
  tokens : Z;
  lastRefill : option Z
}.

(** [type peerTable struct]. *)
Record peerTable := mkPeers {
  ctxBy : gmap NodeID peerCtx;
  configFn : NodeID -> PerPeerConfig
}.

(** [func newPeerTable]. *)
Definition newPeerTable (fn : option (NodeID -> PerPeerConfig)) : peerTable :=
  mkPeers ∅ (default (fun _ => DefaultPerPeerConfig) fn).

Definition put_peer (pt : peerTable) (id : NodeID) (p : peerCtx) : peerTable :=
  mkPeers (<[id := p]> (ctxBy pt)) (configFn pt).

Definition set_queue (p : peerCtx) q : peerCtx :=
  mkPeer (p_id p) (p_cfg p) q (isTreeEdge p) (tokens p) (lastRefill p).
Definition set_edge (p : peerCtx) b : peerCtx :=
  mkPeer (p_id p) (p_cfg p) (lazyQueue p) b (tokens p) (lastRefill p).
Definition set_bucket (p : peerCtx) t r : peerCtx :=
  mkPeer (p_id p) (p_cfg p) (lazyQueue p) (isTreeEdge p) t r.

(** [func (pt *peerTable) Ensure(id NodeID) *peerCtx]: the table, which now holds the
    peer, and the peer. *)
Definition Ensure (pt : peerTable) (id : NodeID) : peerTable * peerCtx :=
  match ctxBy pt !! id with
  | Some p => (pt, p)
  | None => let p := mkPeer id (configFn pt id) [] false 0 None in (put_peer pt id p, p)
  end.

(** [func (pt *peerTable) Remove(id NodeID)]. *)
Definition Remove (pt : peerTable) (id : NodeID) : peerTable :=
  mkPeers (delete id (ctxBy pt)) (configFn pt).

(** [func (pt *peerTable) SetTreeEdge(id NodeID, isEdge bool)]. *)
Definition SetTreeEdge (pt : peerTable) (id : NodeID) (isEdge : bool) : peerTable :=
  let '(pt, p) := Ensure pt id in put_peer pt id (set_edge p isEdge).

(** [func (pt *peerTable) Snapshot(id NodeID) PerPeerConfig]. *)
Definition Snapshot (pt : peerTable) (id : NodeID) : PerPeerConfig :=
  match ctxBy pt !! id with Some p => p_cfg p | None => configFn pt id end.

(** [func (pt *peerTable) LazyQueueDepth(id NodeID) int]. *)
Definition LazyQueueDepth (pt : peerTable) (id : NodeID) : Z :=
  match ctxBy pt !! id with Some p => len (lazyQueue p) | None => 0 end.

(** [All], [TreeEdges], [NonTreeEdges]: in the order of the map iteration. *)
Definition All `{MapOrder} (pt : peerTable) : list NodeID := (map_order (ctxBy pt)).*1.
Definition TreeEdges `{MapOrder} (pt : peerTable) : list NodeID :=
  (List.filter (fun e => isTreeEdge e.2) (map_order (ctxBy pt))).*1.
Definition NonTreeEdges `{MapOrder} (pt : peerTable) : list NodeID :=
  (List.filter (fun e => negb (isTreeEdge e.2)) (map_order (ctxBy pt))).*1.

(** The prune loop of [EnqueueLazy]: the queue from the first entry not before the
    cutoff. *)
Fixpoint pruneLazy (cutoff : Z) (q : list lazyEntry) : list lazyEntry :=
  match q with
  | [] => []
  | e :: q' => if negb (l_queuedAt e <? cutoff) then q else pruneLazy cutoff q'
  end.

(** [func (pt *peerTable) EnqueueLazy(id, e, maxAge, nowFn) bool]. *)
Definition EnqueueLazy (now : Z) (pt : peerTable) (id : NodeID) (e : lazyEntry) (maxAge : Z)
    : peerTable * bool :=
  let '(pt, p) := Ensure pt id in
  let p := if maxAge >? 0 then set_queue p (pruneLazy (now - maxAge) (lazyQueue p)) else p in
  if (BackpressureMax (p_cfg p) >? 0) && (len (lazyQueue p) >=? BackpressureMax (p_cfg p))
  then (put_peer pt id p, false) else
  let e := mkLazy (l_topic e) (l_nodeID e) (l_hlc e) (l_bodyHash e) now in
  (put_peer pt id (set_queue p (lazyQueue p ++ [e])), true).

(** [func (pt *peerTable) DrainLazy(id NodeID) []lazyEntry]. *)
Definition DrainLazy (pt : peerTable) (id : NodeID) : peerTable * list lazyEntry :=
  match ctxBy pt !! id with
  | None => (pt, [])
  | Some p => (put_peer pt id (set_queue p []), lazyQueue p)
  end.

(** [now.Sub(t)]: the difference, clamped to the range of [time.Duration]. *)
Definition timeSub (now t : Z) : Z := Z.max (- 2 ^ 63) (Z.min (2 ^ 63 - 1) (now - t)).

(** [func (pt *peerTable) ConsumeTokens(id, cost, nowFn) bool]. The cap is configured as
    a [uint64] and used as an [int64]. *)
Definition ConsumeTokens (now : Z) (pt : peerTable) (id : NodeID) (cost : Z)
    : peerTable * bool :=
  if cost <=? 0 then (pt, true) else
  let '(pt, p) := Ensure pt id in
  let cap := i64 (BandwidthCap (p_cfg p)) in
  if cap =? 0 then (pt, true) else
  let p := match lastRefill p with
           | None =>
               let t := i64 (EgressTokens (p_cfg p)) in
               set_bucket p (if t =? 0 then cap else t) (Some now)
           | Some _ => p
           end in
  let elapsed := timeSub now (default now (lastRefill p)) in
  let p :=
    if elapsed >? 0 then
      let add := Z.quot (i64 (cap * elapsed)) Second in
      if add >? 0 then
        let t := i64 (tokens p + add) in
        set_bucket p (if t >? cap then cap else t) (Some now)
      else p
    else p in
  if tokens p <? cost then (put_peer pt id p, false)
  else (put_peer pt id (set_bucket p (i64 (tokens p - cost)) (lastRefill p)), true).

(** ** Lemmas *)

Lemma lookup_put_peer pt id p id' :
  ctxBy (put_peer pt id p) !! id' = if decide (id = id') then Some p else ctxBy pt !! id'.
Proof. apply lookup_insert. Qed.

(** The peer [Ensure] returns, and what it does to the table. *)
Definition peerOf (pt : peerTable) (id : NodeID) : peerCtx :=
  default (mkPeer id (configFn pt id) [] false 0 None) (ctxBy pt !! id).

Lemma Ensure_spec pt id :
  (Ensure pt id).2 = peerOf pt id /\
  ctxBy (Ensure pt id).1 = <[id := peerOf pt id]> (ctxBy pt) /\
  configFn (Ensure pt id).1 = configFn pt.
Proof.
  unfold Ensure, peerOf. destruct (ctxBy pt !! id) eqn:E; simpl; [|done].
  split_and!; try done. by rewrite insert_id.
Qed.

Lemma peerOf_put pt id p id' :
  peerOf (put_peer pt id p) id' = if decide (id = id') then p else peerOf pt id'.
Proof. unfold peerOf. rewrite lookup_put_peer. by case_decide. Qed.

Lemma peerOf_Ensure pt id id' : peerOf (Ensure pt id).1 id' = peerOf pt id'.
Proof.
  destruct (Ensure_spec pt id) as (_ & E1 & E2). unfold peerOf at 1. rewrite E1, E2.
  rewrite lookup_insert. case_decide; subst; [done|]. done.
Qed.

Lemma elem_of_TreeEdges `{MapOrder} pt id :
  id ∈ TreeEdges pt <-> exists p, ctxBy pt !! id = Some p /\ isTreeEdge p = true.
Proof.
  unfold TreeEdges. rewrite list_elem_of_fmap. split.
  - intros ([i p] & -> & Hin). apply list_elem_of_In, filter_In in Hin as [Hin Hp].
    apply list_elem_of_In, elem_of_map_order in Hin. eauto.
  - intros (p & Hp & He). exists (id, p). split; [done|].
    apply list_elem_of_In, filter_In. split; [|done].
    by apply list_elem_of_In, elem_of_map_order.
Qed.

Lemma elem_of_NonTreeEdges `{MapOrder} pt id :
  id ∈ NonTreeEdges pt <-> exists p, ctxBy pt !! id = Some p /\ isTreeEdge p = false.
Proof.
  unfold NonTreeEdges. rewrite list_elem_of_fmap. split.
  - intros ([i p] & -> & Hin). apply list_elem_of_In, filter_In in Hin as [Hin Hp].
    apply list_elem_of_In, elem_of_map_order in Hin. apply negb_true_iff in Hp. eauto.
  - intros (p & Hp & He). exists (id, p). split; [done|].
    apply list_elem_of_In, filter_In. split; [by apply list_elem_of_In, elem_of_map_order|].
    simpl. by rewrite He.
Qed.

(** ** The lazy queue under a monotone clock *)

Lemma pruneLazy_suffix cutoff q : exists d, q = d ++ pruneLazy cutoff q /\
  Forall (fun e => l_queuedAt e < cutoff) d.
Proof.
  induction q as [|e q IH]; simpl; [by exists []|].
  destruct (l_queuedAt e <? cutoff) eqn:E; simpl; [|by exists []].
  destruct IH as (d & Hd & Hall). exists (e :: d). split; [by rewrite Hd at 1|].
  constructor; [lia|done].
Qed.

(** The queueing times of an ordered queue. *)
Definition times_sorted (l : list Z) : Prop := StronglySorted Z.le l.

Lemma pruneLazy_times cutoff q :
  times_sorted (l_queuedAt <$> q) ->
  l_queuedAt <$> pruneLazy cutoff q =
  List.filter (fun t => negb (t <? cutoff)) (l_queuedAt <$> q).
Proof.
  unfold times_sorted. induction q as [|e q IH]; simpl; [done|]. intros Hs.
  apply StronglySorted_inv in Hs as [Hs Hall].
  destruct (l_queuedAt e <? cutoff) eqn:E; simpl; [by apply IH|]. f_equal.
  clear IH Hs. induction Hall as [|t l Ht Hall IH]; simpl; [done|].
  rewrite (proj2 (Z.ltb_ge t cutoff)) by (bool_to_prop; lia). simpl. by f_equal.
Qed.

(** Announcements to one peer: each call's clock reading and entry; the readings of the
    accepted ones, oldest first. *)
Fixpoint enqueueAll (pt : peerTable) (id : NodeID) (maxAge : Z) (l : list (Z * lazyEntry))
    : peerTable * list Z :=
  match l with
  | [] => (pt, [])
  | (now, e) :: l' =>
      let '(pt, ok) := EnqueueLazy now pt id e maxAge in
      let '(pt, acc) := enqueueAll pt id maxAge l' in
      (pt, if ok then now :: acc else acc)
  end.

Definition inWindow (t maxAge a : Z) : bool := (t - maxAge <=? a) && (a <=? t).

Lemma EnqueueLazy_peer now pt id e maxAge :
  0 < maxAge ->
  let p := peerOf pt id in
  let q := pruneLazy (now - maxAge) (lazyQueue p) in
  let '(pt', ok) := EnqueueLazy now pt id e maxAge in
  ok = negb ((0 <? BackpressureMax (p_cfg p)) && (BackpressureMax (p_cfg p) <=? len q)) /\
  peerOf pt' id = set_queue p (if ok then q ++ [mkLazy (l_topic e) (l_nodeID e) (l_hlc e)
                                               (l_bodyHash e) now] else q) /\
  (forall id', id <> id' -> peerOf pt' id' = peerOf pt id').
Proof.
  intros Hm. unfold EnqueueLazy. destruct (Ensure_spec pt id) as (Ep & _).
  pose proof (peerOf_Ensure pt id) as Ee.
  destruct (Ensure pt id) as [pt1 p1]. simpl in Ep, Ee. subst p1.
  rewrite (proj2 (Z.gtb_lt maxAge 0) Hm).
  set (q := pruneLazy (now - maxAge) (lazyQueue (peerOf pt id))).
  cbn [p_cfg set_queue lazyQueue]. rewrite Z.gtb_ltb, Z.geb_leb.
  destruct ((0 <? _) && (_ <=? len q)); simpl; (split; [done|]); split;
    try (by rewrite peerOf_put, decide_True); intros id' Hne;
    by rewrite peerOf_put, decide_False.
Qed.

Lemma filter_length_impl {A} (f g : A -> bool) l :
  (forall x, x ∈ l -> f x = true -> g x = true) ->
  (length (List.filter f l) <= length (List.filter g l))%nat.
Proof.
  induction l as [|x l IH]; intros Himp; simpl; [lia|].
  assert (IH' := IH (fun y Hy => Himp y ltac:(by right))).
  destruct (f x) eqn:E; [rewrite (Himp x ltac:(left) E); simpl; lia|].
  destruct (g x); simpl; lia.
Qed.

Lemma filter_filter_and {A} (f g : A -> bool) l :
  (forall x, f x = true -> g x = true) ->
  List.filter f (List.filter g l) = List.filter f l.
Proof.
  intros Himp. induction l as [|x l IH]; simpl; [done|].
  destruct (g x) eqn:E; simpl; [by rewrite IH|].
  destruct (f x) eqn:E'; [|done]. by rewrite Himp in E.
Qed.

(** The queue holds the times accepted since the last cutoff, and every window so far is
    within the bound. *)
Record lazy_inv (maxAge B : Z) (p : peerCtx) (last : Z) (acc : list Z) : Prop := {
  li_cap : BackpressureMax (p_cfg p) = B;
  li_times : exists c, c <= last - maxAge /\
    l_queuedAt <$> lazyQueue p = List.filter (fun t => negb (t <? c)) acc;
  li_sorted : times_sorted acc;
  li_last : Forall (fun a => a <= last) acc;
  li_window : forall t, len (List.filter (inWindow t maxAge) acc) <= B;
  li_queue : len (lazyQueue p) <= B
}.

Lemma times_sorted_snoc acc now :
  times_sorted acc -> Forall (fun a => a <= now) acc -> times_sorted (acc ++ [now]).
Proof.
  unfold times_sorted. induction 1 as [|a acc Hs IH Hall]; intros Hl; simpl.
  - repeat constructor.
  - apply Forall_cons in Hl as [Ha Hl]. constructor; [by apply IH|].
    apply Forall_app. split; [done|]. by constructor.
Qed.

Lemma lazy_inv_step maxAge B pt id last acc now e :
  0 < maxAge -> 0 < B -> last <= now ->
  lazy_inv maxAge B (peerOf pt id) last acc ->
  let '(pt', ok) := EnqueueLazy now pt id e maxAge in
  lazy_inv maxAge B (peerOf pt' id) now (if ok then acc ++ [now] else acc).
Proof.
  intros Hm HB Hnow [Hc (c & Hc1 & Hq) Hs Hl Hw Hlen].
  pose proof (EnqueueLazy_peer now pt id e maxAge Hm) as He. cbv zeta in He.
  destruct (EnqueueLazy now pt id e maxAge) as [pt' ok]. destruct He as (Hok & Hp & _).
  set (q := pruneLazy (now - maxAge) (lazyQueue (peerOf pt id))) in *.
  assert (Hq' : l_queuedAt <$> q = List.filter (fun t => negb (t <? now - maxAge)) acc).
  { unfold q. rewrite pruneLazy_times.
    - rewrite Hq. apply filter_filter_and. intros x. rewrite !negb_true_iff, !Z.ltb_ge. lia.
    - rewrite Hq. clear -Hs. unfold times_sorted in *.
      induction Hs as [|a l Hs IH Hall]; simpl; [constructor|].
      destruct (negb (a <? c)); [|done]. constructor; [done|].
      apply Forall_forall. intros x Hx. apply list_elem_of_In, filter_In in Hx as [Hx _].
      rewrite Forall_forall in Hall. apply Hall. by apply list_elem_of_In. }
  assert (Hl' : Forall (fun a => a <= now) acc).
  { eapply Forall_impl; [exact Hl|]. simpl. lia. }
  rewrite Hc in Hok. rewrite (proj2 (Z.ltb_lt 0 B)) in Hok by done. simpl in Hok.
  rewrite Hp. destruct ok; simpl.
  - symmetry in Hok. apply negb_true_iff, Z.leb_gt in Hok.
    assert (Hf : List.filter (fun t => negb (t <? now - maxAge)) (acc ++ [now]) =
                 (l_queuedAt <$> q) ++ [now]).
    { rewrite List.filter_app, Hq'. simpl. rewrite (proj2 (Z.ltb_ge now _)) by lia. done. }
    split.
    + exact Hc.
    + exists (now - maxAge). split; [lia|]. simpl. rewrite fmap_app, Hf. done.
    + by apply times_sorted_snoc.
    + apply Forall_app. split; [done|]. constructor; [lia|constructor].
    + intros t. destruct (Z.lt_ge_cases t now) as [Ht|Ht].
      * rewrite List.filter_app. simpl. unfold inWindow at 2.
        rewrite (proj2 (Z.leb_gt now t)), andb_false_r, app_nil_r by lia. apply Hw.
      * transitivity (len (List.filter (fun t => negb (t <? now - maxAge)) (acc ++ [now]))).
        { unfold len. apply inj_le, filter_length_impl. intros x _. unfold inWindow.
          rewrite andb_true_iff, negb_true_iff, !Z.leb_le, Z.ltb_ge. lia. }
        rewrite Hf. unfold len in *. rewrite length_app, length_fmap. simpl. lia.
    + unfold len in *. simpl. rewrite length_app. simpl. lia.
  - split; [exact Hc| |done|done|done|].
    + exists (now - maxAge). split; [lia|]. simpl. done.
    + simpl. destruct (pruneLazy_suffix (now - maxAge) (lazyQueue (peerOf pt id)))
        as (d & Hd & _). fold q in Hd. rewrite Hd in Hlen. unfold len in *.
      rewrite length_app in Hlen. lia.
Qed.

Lemma lazy_inv_run maxAge B pt id last acc l :
  0 < maxAge -> 0 < B ->
  StronglySorted Z.le (last :: l.*1) ->
  lazy_inv maxAge B (peerOf pt id) last acc ->
  exists last', lazy_inv maxAge B (peerOf (enqueueAll pt id maxAge l).1 id) last'
                  (acc ++ (enqueueAll pt id maxAge l).2).
Proof.
  intros Hm HB. revert pt last acc. induction l as [|[now e] l IH]; intros pt last acc Hs Hi.
  - exists last. simpl. by rewrite app_nil_r.
  - apply StronglySorted_inv in Hs as [Hs Hall]. simpl in Hall.
    apply Forall_cons in Hall as [Hnow _].
    pose proof (lazy_inv_step maxAge B pt id last acc now e Hm HB Hnow Hi) as Hstep.
    simpl. destruct (EnqueueLazy now pt id e maxAge) as [pt1 ok].
    destruct (IH pt1 now _ Hs Hstep) as (last' & H').
    destruct (enqueueAll pt1 id maxAge l) as [pt2 acc2]. exists last'. simpl in *.
    destruct ok; [by rewrite <- app_assoc in H'|done].
Qed.

(** ** The token bucket *)

Lemma i64_le x : - 2 ^ 63 <= x -> i64 x <= x.
Proof.
  unfold i64. intros. pose proof (Z.mod_le (x + 2 ^ 63) (2 ^ 64) ltac:(lia) ltac:(lia)). lia.
Qed.

(** What [ConsumeTokens] does to a started bucket of positive cap. *)
Lemma ConsumeTokens_peer now pt id cost t last :
  let p := peerOf pt id in
  let cap := i64 (BandwidthCap (p_cfg p)) in
  0 < cost -> 0 < cap -> tokens p = t -> lastRefill p = Some last ->
  let '(pt', ok) := ConsumeTokens now pt id cost in
  let add := Z.quot (i64 (cap * timeSub now last)) Second in
  let refill := (0 <? timeSub now last) && (0 <? add) in
  let t1 := if refill then Z.min cap (i64 (t + add)) else t in
  ok = (cost <=? t1) /\
  peerOf pt' id = set_bucket p (if ok then i64 (t1 - cost) else t1)
                    (Some (if refill then now else last)).
Proof.
  intros p cap Hcost Hcap Ht Hlast. unfold ConsumeTokens.
  rewrite (proj2 (Z.leb_gt cost 0) Hcost).
  destruct (Ensure_spec pt id) as (Ep & _).
  destruct (Ensure pt id) as [pt1 p1]. simpl in Ep. subst p1. fold p. fold cap.
  rewrite (proj2 (Z.eqb_neq cap 0)) by lia. rewrite Hlast. simpl. rewrite Hlast. simpl.
  rewrite !Z.gtb_ltb.
  destruct (0 <? timeSub now last); simpl.
  - destruct (0 <? Z.quot _ Second); simpl.
    + assert (Hmin : forall x, (if cap <? x then cap else x) = Z.min cap x).
      { intros x. destruct (cap <? x) eqn:E; lia. }
      rewrite Hmin, Ht.
      rewrite Z.leb_antisym. destruct (_ <? cost); simpl;
        by rewrite peerOf_put, decide_True.
    + rewrite Ht. rewrite Z.leb_antisym. destruct (t <? cost); simpl;
        rewrite peerOf_put, decide_True by done; (split; [done|]);
        unfold set_bucket; destruct p; simpl in *; by subst.
  - rewrite Ht. rewrite Z.leb_antisym. destruct (t <? cost); simpl;
      rewrite peerOf_put, decide_True by done; (split; [done|]);
      unfold set_bucket; destruct p; simpl in *; by subst.
Qed.

(** Sends to one peer: each call's clock reading and cost; the bytes granted. *)
Fixpoint consumeAll (pt : peerTable) (id : NodeID) (l : list (Z * Z)) : peerTable * Z :=
  match l with
  | [] => (pt, 0)
  | (now, cost) :: l' =>
      let '(pt, ok) := ConsumeTokens now pt id cost in
      let '(pt, g) := consumeAll pt id l' in
      (pt, if ok then cost + g else g)
  end.

Lemma refill_bound cap elapsed :
  0 < cap -> 0 < elapsed -> Z.quot (i64 (cap * elapsed)) Second * Second <= cap * elapsed.
Proof.
  intros Hc He. pose proof (i64_le (cap * elapsed)) as Hle.
  assert (0 < cap * elapsed) by nia. specialize (Hle ltac:(lia)).
  set (x := i64 (cap * elapsed)) in *.
  assert (0 < Second) by done.
  destruct (Z.le_gt_cases 0 x) as [Hx|Hx].
  - rewrite Z.quot_div_nonneg by lia. pose proof (Z.mul_div_le x Second). lia.
  - assert (Z.quot x Second <= 0); [|nia].
    rewrite <- (Z.opp_involutive x), Z.quot_opp_l by lia.
    pose proof (Z.quot_pos (- x) Second ltac:(lia) ltac:(lia)). lia.
Qed.

Lemma last_le (l : list Z) now d : d <= now -> List.last l d <= List.last (now :: l) d.
Proof. intros Hd. destruct l as [|x l]; [done|]. simpl. by destruct l. Qed.

Lemma last_default (l : list Z) x d d' : List.last (x :: l) d = List.last (x :: l) d'.
Proof. revert x. induction l as [|y l IH]; intros x; [done|]. apply (IH y). Qed.

Lemma consume_run pt id l t last :
  let cap := i64 (BandwidthCap (p_cfg (peerOf pt id))) in
  0 < cap -> is_i64 t -> tokens (peerOf pt id) = t ->
  lastRefill (peerOf pt id) = Some last ->
  StronglySorted Z.le (last :: l.*1) -> Forall (fun c => 0 < c) l.*2 ->
  (consumeAll pt id l).2 * Second <=
    Z.max 0 t * Second + cap * (List.last l.*1 last - last).
Proof.
  intros cap Hcap. revert pt t last cap Hcap.
  induction l as [|[now cost] l IH]; intros pt t last cap Hcap Ht Et El Hs Hc.
  { simpl. unfold Second, Millisecond. lia. }
  apply StronglySorted_inv in Hs as [Hs Hall]. simpl in Hall.
  apply Forall_cons in Hall as [Hnow Hall]. apply Forall_cons in Hc as [Hcost Hc].
  pose proof (ConsumeTokens_peer now pt id cost t last Hcost Hcap Et El) as Hstep.
  cbn [consumeAll]. destruct (ConsumeTokens now pt id cost) as [pt1 ok].
  cbv zeta in Hstep. fold cap in Hstep.
  set (add := Z.quot (i64 (cap * timeSub now last)) Second) in *.
  set (refill := (0 <? timeSub now last) && (0 <? add)) in *.
  set (t1 := if refill then Z.min cap (i64 (t + add)) else t) in *.
  set (last1 := if refill then now else last) in *.
  destruct Hstep as [Hok Hp].
  assert (Hs1 : last1 <= now /\ last <= last1 /\ t1 * Second <= Z.max 0 t * Second + cap * (last1 - last)
    /\ is_i64 t1).
  { pose proof (i64_range (t + add)) as Hr. pose proof (i64_range (BandwidthCap (p_cfg (peerOf pt id)))) as Hrc.
    fold cap in Hrc. unfold is_i64 in *.
    unfold t1, last1. destruct refill eqn:Er.
    - apply andb_true_iff in Er as [He Ha]. apply Z.ltb_lt in He, Ha.
      pose proof (refill_bound cap (timeSub now last) Hcap He) as Hb. fold add in Hb.
      assert (timeSub now last <= now - last) by (unfold timeSub in *; lia).
      pose proof (i64_le (t + add) ltac:(lia)).
      assert (cap * timeSub now last <= cap * (now - last)) by (apply Z.mul_le_mono_nonneg_l; lia).
      assert (0 < Second) by done. split_and!; [lia|lia| |lia|lia]. nia.
    - assert (0 < Second) by done. split_and!; [lia|lia|nia|lia|lia]. }
  destruct Hs1 as (Hl1 & Hl2 & Ht1 & Hr1).
  set (t2 := if ok then i64 (t1 - cost) else t1) in *.
  assert (Ht2 : is_i64 t2) by (unfold t2; destruct ok; [apply i64_range|done]).
  specialize (IH pt1 t2 last1). rewrite Hp in IH. cbn [p_cfg set_bucket tokens lastRefill] in IH.
  fold cap in IH. specialize (IH Hcap Ht2 eq_refl eq_refl).
  assert (Hsort : StronglySorted Z.le (last1 :: l.*1)).
  { apply StronglySorted_inv in Hs as [Hs Hn]. constructor; [done|].
    eapply Forall_impl; [exact Hn|]. simpl. lia. }
  specialize (IH Hsort Hc).
  destruct (consumeAll pt1 id l) as [pt2 g]. cbn [snd fst fmap list_fmap] in *.
  assert (Hlast : List.last l.*1 last1 <= List.last (now :: l.*1) last).
  { rewrite (last_default _ _ last last1). by apply last_le. }
  assert (Hcl : cap * (List.last l.*1 last1 - last1) <=
                cap * (List.last (now :: l.*1) last - last1))
    by (apply Z.mul_le_mono_nonneg_l; lia).
  assert (0 < Second) by done.
  unfold t2 in IH. destruct ok.
  - symmetry in Hok. apply Z.leb_le in Hok. unfold is_i64 in *.
    rewrite i64_small in IH by (unfold is_i64; lia). nia.
  - nia.
Qed.
