(* ===== verification/PeerSpec.v ===== *)
(** * Properties of the peer table

    The lazy queue bounds the announcements to a peer in every window; the token bucket
    bounds the bytes sent; and what an idle bucket does when it is used again. *)
From S2P Require Import Prelude Types Peer.

(** A configured peer with an empty queue. *)
Definition new_peers (cfg : PerPeerConfig) : peerTable := newPeerTable (Some (fun _ => cfg)).

(** C39: [BackpressureMax] is the number of announcements in any window. Whatever is
    announced to a fresh peer, at a clock that does not run backwards, at most
    [BackpressureMax] announcements are accepted in any closed time window of length
    [maxAge]; the queue never holds more. *)
Theorem lazy_window_bound (pt : peerTable) (id : NodeID) (maxAge : Z)
    (l : list (Z * lazyEntry)) (t : Z) :
  let B := BackpressureMax (configFn pt id) in
  ctxBy pt !! id = None -> 0 < maxAge -> 0 < B -> StronglySorted Z.le l.*1 ->
  let '(pt', accepted) := enqueueAll pt id maxAge l in
  len (List.filter (inWindow t maxAge) accepted) <= B /\ LazyQueueDepth pt' id <= B.
Proof.
  intros B Hnew Hm HB Hs.
  assert (Hp : peerOf pt id = mkPeer id (configFn pt id) [] false 0 None)
    by (unfold peerOf; by rewrite Hnew).
  destruct l as [|[t0 e0] l0] eqn:El.
  { simpl. unfold LazyQueueDepth. rewrite Hnew. split; unfold len; simpl; lia. }
  rewrite <- El in *. assert (Hs' : StronglySorted Z.le (t0 :: l.*1)).
  { subst l. constructor; [done|]. apply StronglySorted_inv in Hs as [_ Hall]. simpl in *.
    constructor; [lia|done]. }
  destruct (lazy_inv_run maxAge B pt id t0 [] l Hm HB Hs') as (last & [_ _ _ _ Hw Hq]).
  { rewrite Hp. split; simpl; [done| |constructor|done| |].
    - exists (t0 - maxAge). split; [lia|done].
    - intros. unfold len. simpl. lia.
    - unfold len. simpl. lia. }
  destruct (enqueueAll pt id maxAge l) as [pt' acc]. simpl in *.
  split; [apply Hw|].
  unfold LazyQueueDepth, peerOf in *. by destruct (ctxBy pt' !! id).
Qed.

(** A bound of two, three announcements in one second, one more a second later. *)
Lemma lazy_window_bound_witness :
  let pt := new_peers (mkPeerConfig Second 2 0 0 0) in
  let e := mkLazy "fleet" "n1" 5 [] 0 in
  let l := [(0, e); (10, e); (20, e); (Second + 5, e)] in
  (enqueueAll pt "p" Second l).2 = [0; 10; Second + 5] /\
  len (List.filter (inWindow (Second + 5) Second) (enqueueAll pt "p" Second l).2) <= 2.
Proof.
  intros pt e l. split; [vm_compute; reflexivity|].
  pose proof (lazy_window_bound pt "p" Second l (Second + 5)) as H. cbv zeta in H.
  destruct (enqueueAll pt "p" Second l) as [pt' acc].
  apply H; [reflexivity|reflexivity|reflexivity|].
  repeat (constructor; try (vm_compute; discriminate)).
Defined.

(** The token bucket bounds the bytes sent to a peer. From a running bucket with
    [t] tokens, refilled last at [last], whatever is sent at a clock that does not run
    backwards, the bytes granted up to the last request are at most the tokens plus the
    cap times the time since [last]. The bound holds across arithmetic overflow. *)
Theorem tokens_conform (pt : peerTable) (id : NodeID) (l : list (Z * Z)) (t last : Z) :
  let cap := i64 (BandwidthCap (p_cfg (peerOf pt id))) in
  0 < cap -> is_i64 t -> tokens (peerOf pt id) = t ->
  lastRefill (peerOf pt id) = Some last ->
  StronglySorted Z.le (last :: l.*1) -> Forall (fun c => 0 < c) l.*2 ->
  (consumeAll pt id l).2 * Second <= Z.max 0 t * Second + cap * (List.last l.*1 last - last).
Proof. apply consume_run. Qed.

Definition bucket (cap t last : Z) : peerTable :=
  put_peer (new_peers (mkPeerConfig 0 0 cap 0 0)) "p"
    (mkPeer "p" (mkPeerConfig 0 0 cap 0 0) [] false t (Some last)).

(** A cap of 1000 bytes per second: 1500 bytes in the first second, not 2100. *)
Lemma tokens_conform_witness :
  let l := [(0, 900); (Second / 2, 600); (Second, 600)] in
  (consumeAll (bucket 1000 1000 0) "p" l).2 = 1500 /\
  (consumeAll (bucket 1000 1000 0) "p" l).2 * Second <= 1000 * Second + 1000 * (Second - 0).
Proof.
  intros l. split; [vm_compute; reflexivity|].
  pose proof (tokens_conform (bucket 1000 1000 0) "p" l 1000 0) as H. cbv zeta in H.
  apply H; [vm_compute; reflexivity|machine|reflexivity|reflexivity|..];
    repeat (constructor; try (vm_compute; first [reflexivity|discriminate])).
Defined.

(** An idle bucket refills, until the multiplication overflows. After an idle time
    [e] whose product with the cap fits an int64, a request that cap and refill cover is
    granted. When the product lies between 2^63 and 2^64, nothing is refilled however
    long the idle time was: a request above the tokens left is refused and the bucket
    stays as it was, so an exhausted peer stays refused until the product wraps round. *)
Theorem idle_bucket (pt : peerTable) (id : NodeID) (now cost t last : Z) :
  let p := peerOf pt id in
  let cap := i64 (BandwidthCap (p_cfg p)) in
  let e := now - last in
  0 < cost -> 0 < cap < 2 ^ 62 -> 0 <= t < 2 ^ 62 -> 0 < e < 2 ^ 63 ->
  tokens p = t -> lastRefill p = Some last ->
  let '(pt', ok) := ConsumeTokens now pt id cost in
  (cap * e < 2 ^ 63 -> cost <= cap -> cost * Second <= cap * e -> ok = true) /\
  (2 ^ 63 <= cap * e < 2 ^ 64 -> ok = (cost <=? t) /\ (t < cost -> peerOf pt' id = p)).
Proof.
  intros p cap e Hcost Hcap Ht He Et El.
  pose proof (ConsumeTokens_peer now pt id cost t last Hcost ltac:(fold p cap; lia) Et El) as Hs.
  destruct (ConsumeTokens now pt id cost) as [pt' ok]. cbv zeta in Hs. fold p cap in Hs.
  assert (Hsub : timeSub now last = e) by (unfold timeSub; lia). rewrite Hsub in Hs.
  destruct Hs as [Hok Hp]. rewrite (proj2 (Z.ltb_lt 0 e)) in * by lia.
  assert (0 < cap * e) by nia. assert (HS : Second = 1000000000) by done.
  split.
  - intros Hfit Hle Hcov. rewrite i64_small in Hok by (unfold is_i64; lia).
    rewrite Z.quot_div_nonneg in Hok by lia.
    assert (Hq : cost <= cap * e / Second < 2 ^ 62).
    { split; [apply Z.div_le_lower_bound; lia|apply Z.div_lt_upper_bound; lia]. }
    rewrite (proj2 (Z.ltb_lt 0 (cap * e / Second))) in Hok by lia. simpl in Hok.
    rewrite i64_small in Hok by (unfold is_i64; lia).
    rewrite Hok. apply Z.leb_le. lia.
  - intros Hov.
    assert (Hneg : i64 (cap * e) = cap * e - 2 ^ 64).
    { unfold i64. rewrite <- (Z.mod_unique (cap * e + 2 ^ 63) (2 ^ 64) 1 (cap * e - 2 ^ 63)); lia. }
    assert (Hq : Z.quot (i64 (cap * e)) Second <= 0).
    { rewrite <- (Z.opp_involutive (i64 (cap * e))), Z.quot_opp_l by lia.
      pose proof (Z.quot_pos (- i64 (cap * e)) Second ltac:(lia) ltac:(lia)). lia. }
    rewrite (proj2 (Z.ltb_ge 0 _)) in * by exact Hq. simpl in *.
    split; [done|]. intros Hlt. rewrite Hp, Hok, (proj2 (Z.leb_gt cost t)) by lia.
    destruct p. unfold set_bucket. simpl in *. by subst.
Qed.

(** A cap of ten million bytes per second: after a second an exhausted peer is served,
    after twenty minutes of silence it is refused one byte. *)
Lemma idle_bucket_witness :
  (ConsumeTokens (2 * Second) (bucket 10000000 0 Second) "p" 1).2 = true /\
  (ConsumeTokens (1201 * Second) (bucket 10000000 0 Second) "p" 1).2 = false.
Proof.
  pose proof (idle_bucket (bucket 10000000 0 Second) "p" (2 * Second) 1 0 Second
    ltac:(machine) ltac:(split; machine) ltac:(split; machine) ltac:(split; machine)
    ltac:(reflexivity) ltac:(reflexivity)) as H1.
  pose proof (idle_bucket (bucket 10000000 0 Second) "p" (1201 * Second) 1 0 Second
    ltac:(machine) ltac:(split; machine) ltac:(split; machine) ltac:(split; machine)
    ltac:(reflexivity) ltac:(reflexivity)) as H2.
  destruct (ConsumeTokens (2 * Second) (bucket 10000000 0 Second) "p" 1) as [pt1 ok1].
  destruct (ConsumeTokens (1201 * Second) (bucket 10000000 0 Second) "p" 1) as [pt2 ok2].
  split.
  - apply H1; vm_compute; first [reflexivity|discriminate].
  - apply H2. vm_compute. split; [discriminate|reflexivity].
Defined.
