(* ===== verification/Codec.v ===== *)
(** * Wire frames (src/codec.go, src/proto)

    The message structs of the generated package, the conversions between [Record] and
    its wire form, and the frame constructors. The protobuf runtime that turns a frame
    into bytes is a parameter, the class [Proto]; what the engine relies on is in
    [ProtoLaws]. A [string] field must be valid UTF-8 to be encoded; a [bytes] field
    need not. An empty [bytes] field is absent on the wire. *)
From S2P Require Import Prelude Types Crypto.

(** ** Messages *)

(** [pb.Record]. *)
Record pbRecord := mkPbRecord {
  pb_Topic : string;
  pb_NodeId : bytes;
  pb_Hlc : Z;
  pb_Body : bytes;
  pb_Tombstone : bool;
  pb_Sig : bytes;
  pb_PubKey : bytes;
  pb_ObserverNodeId : bytes;
  pb_ObservedAtUnixMs : Z;
  pb_Key : string
}.

(** The frame kinds and their messages. The range bounds of a probe distinguish nil from
    a value, as the code does. *)
Inductive Frame :=
  | Frame_Eager (record : option pbRecord) (ttl : Z)
  | Frame_Ihave (topic : string) (nodeId : bytes) (hlc : Z) (bodyHash : bytes) (key : string)
  | Frame_Graft (topic : string) (nodeId : bytes) (hlc : Z) (key : string)
  | Frame_Prune (topic : string)
  | Frame_Merkle (topic : string) (rangeStart rangeEnd : option bytes) (rootHash : bytes)
  | Frame_MerkleRange (topic : string) (recs : list pbRecord) (truncated : bool)
  | Frame_Keepalive
  | Frame_FetchReq (requestId : Z) (hash : bytes)
  | Frame_FetchResp (requestId : Z) (body : bytes) (error : string).

(** [func recordToProto(r Record) *pb.Record]. *)
Definition recordToProto (r : Record_) : pbRecord :=
  mkPbRecord (r_Topic r) (toBytes (r_NodeID r)) (r_HLC r) (r_Body r) (r_Tombstone r)
    (r_Sig r) (r_PubKey r) (toBytes (r_ObserverNodeID r)) (r_ObservedAtUnixMs r) (r_Key r).

(** [func recordFromProto(p *pb.Record) Record]. *)
Definition recordFromProto (p : pbRecord) : Record_ :=
  mkRecord (pb_Topic p) (ofBytes (pb_NodeId p)) (pb_Hlc p) (pb_Body p) (pb_Tombstone p)
    (pb_PubKey p) (pb_Sig p) (pb_Key p) (ofBytes (pb_ObserverNodeId p))
    (pb_ObservedAtUnixMs p).

(** [func bodyHash(r Record) [32]byte]. *)
Definition bodyHash `{Sha256} (r : Record_) : bytes := sha256 (r_Body r).

(** The frame constructors. *)
Definition frameEagerPush (r : Record_) (ttl : Z) : Frame :=
  Frame_Eager (Some (recordToProto r)) ttl.
Definition frameIHave (topic : Topic) (nodeID : NodeID) (key : string) (hlc : Z)
    (h : bytes) : Frame := Frame_Ihave topic (toBytes nodeID) hlc h key.
Definition frameGraft (topic : Topic) (nodeID : NodeID) (key : string) (hlc : Z) : Frame :=
  Frame_Graft topic (toBytes nodeID) hlc key.
Definition framePrune (topic : Topic) : Frame := Frame_Prune topic.
Definition frameKeepalive : Frame := Frame_Keepalive.

(** ** UTF-8

    [utf8.ValidString]: one to four bytes per rune, no overlong forms, no surrogates,
    nothing above U+10FFFF. *)
Definition cont (b : byte) : bool := (128 <=? byteZ b) && (byteZ b <=? 191).

Fixpoint validUTF8 (l : bytes) : bool :=
  match l with
  | [] => true
  | a :: l1 =>
      let x := byteZ a in
      if x <=? 127 then validUTF8 l1 else
      match l1 with
      | [] => false
      | b :: l2 =>
          let y := byteZ b in
          if (194 <=? x) && (x <=? 223) then cont b && validUTF8 l2 else
          match l2 with
          | [] => false
          | c :: l3 =>
              if (224 <=? x) && (x <=? 239) then
                cont b && cont c && negb ((x =? 224) && (y <? 160)) &&
                negb ((x =? 237) && (159 <? y)) && validUTF8 l3
              else
              match l3 with
              | [] => false
              | d :: l4 =>
                  (240 <=? x) && (x <=? 244) && cont b && cont c && cont d &&
                  negb ((x =? 240) && (y <? 144)) && negb ((x =? 244) && (143 <? y)) &&
                  validUTF8 l4
              end
          end
      end
  end.

Definition validString (s : string) : bool := validUTF8 (toBytes s).

(** The string fields of a message. *)
Definition recordEncodable (p : pbRecord) : bool :=
  validString (pb_Topic p) && validString (pb_Key p).

Definition frameEncodable (f : Frame) : bool :=
  match f with
  | Frame_Eager (Some p) _ => recordEncodable p
  | Frame_Eager None _ => true
  | Frame_Ihave topic _ _ _ key => validString topic && validString key
  | Frame_Graft topic _ _ key => validString topic && validString key
  | Frame_Prune topic => validString topic
  | Frame_Merkle topic _ _ _ => validString topic
  | Frame_MerkleRange topic recs _ => validString topic && forallb recordEncodable recs
  | Frame_Keepalive => true
  | Frame_FetchReq _ _ => true
  | Frame_FetchResp _ _ error => validString error
  end.

(** What arrives of a frame: an empty range bound is absent. *)
Definition present (b : option bytes) : option bytes :=
  match b with Some [] => None | _ => b end.

Definition onWire (f : Frame) : Frame :=
  match f with
  | Frame_Merkle topic s e h => Frame_Merkle topic (present s) (present e) h
  | _ => f
  end.

(** [proto.Marshal] and [proto.Unmarshal] on frames; [None] is an error, or a frame of no
    kind, which the engine ignores: such is the decoding of no bytes. *)
Class Proto := {
  marshal : Frame -> option bytes;
  unmarshal : bytes -> option Frame
}.

Class ProtoLaws `{Proto} := {
  marshal_encodable : forall f, is_Some (marshal f) <-> frameEncodable f = true;
  unmarshal_marshal : forall f b, marshal f = Some b -> unmarshal b = Some (onWire f);
  unmarshal_nil : unmarshal [] = None
}.

(** [encodeFrame], [decodeFrame]. *)
Definition encodeFrame `{Proto} (f : Frame) : option bytes := marshal f.
Definition decodeFrame `{Proto} (b : bytes) : option Frame := unmarshal b.

(** ** Lemmas *)

Lemma record_roundtrip r : recordFromProto (recordToProto r) = r.
Proof. destruct r. unfold recordFromProto, recordToProto. simpl. by rewrite !ofBytes_toBytes. Qed.

Lemma proto_roundtrip p : recordToProto (recordFromProto p) = p.
Proof. destruct p. unfold recordFromProto, recordToProto. simpl. by rewrite !toBytes_ofBytes. Qed.

Lemma map_record_roundtrip (l : list Record_) : recordFromProto <$> (recordToProto <$> l) = l.
Proof.
  rewrite <- list_fmap_compose. rewrite <- (list_fmap_id l) at 2.
  apply list_fmap_ext. intros i r _. apply record_roundtrip.
Qed.

(** A record whose strings can be encoded. *)
Definition wireable (r : Record_) : bool :=
  validString (r_Topic r) && validString (r_Key r).

Lemma encodeFrame_decodes `{ProtoLaws} f b :
  encodeFrame f = Some b -> decodeFrame b = Some (onWire f).
Proof. apply unmarshal_marshal. Qed.

Lemma encodeFrame_Some `{ProtoLaws} f : frameEncodable f = true -> is_Some (encodeFrame f).
Proof. apply marshal_encodable. Qed.

(** ** A codec for the examples

    A frame is a list of fields, each a byte string; a field is written byte by byte,
    each byte announced by 1, with 0 at its end. *)
Module ToyProto.
Definition Zbytes (z : Z) : bytes :=
  match z with
  | Z0 => []
  | Zpos p => Byte.x01 :: (fix go p := match p with
      | xH => [] | xO q => Byte.x00 :: go q | xI q => Byte.x01 :: go q end) p
  | Zneg p => Byte.x02 :: (fix go p := match p with
      | xH => [] | xO q => Byte.x00 :: go q | xI q => Byte.x01 :: go q end) p
  end.

Fixpoint bits_pos (l : bytes) : positive :=
  match l with [] => xH | Byte.x00 :: l' => xO (bits_pos l') | _ :: l' => xI (bits_pos l') end.

Definition bytesZ (l : bytes) : Z :=
  match l with
  | [] => 0
  | Byte.x01 :: l' => Zpos (bits_pos l')
  | _ :: l' => Zneg (bits_pos l')
  end.

Lemma bytesZ_Zbytes z : bytesZ (Zbytes z) = z.
Proof. destruct z as [|p|p]; simpl; [done|..]; f_equal; induction p; simpl; congruence. Qed.

Definition boolField (b : bool) : bytes := if b then [Byte.x01] else [].
Definition fieldBool (l : bytes) : bool := match l with [] => false | _ => true end.

Definition optField (o : option bytes) : bytes :=
  match o with None => [] | Some l => l end.
Definition fieldOpt (l : bytes) : option bytes := match l with [] => None | _ => Some l end.

(** Records in a frame: ten fields each. *)
Definition recordFields (p : pbRecord) : list bytes :=
  [toBytes (pb_Topic p); pb_NodeId p; Zbytes (pb_Hlc p); pb_Body p; boolField (pb_Tombstone p);
   pb_Sig p; pb_PubKey p; pb_ObserverNodeId p; Zbytes (pb_ObservedAtUnixMs p);
   toBytes (pb_Key p)].

Fixpoint fieldsRecords (l : list bytes) : list pbRecord :=
  match l with
  | t :: n :: h :: b :: d :: s :: k :: o :: a :: y :: l' =>
      mkPbRecord (ofBytes t) n (bytesZ h) b (fieldBool d) s k o (bytesZ a) (ofBytes y)
      :: fieldsRecords l'
  | _ => []
  end.

Definition fields (f : Frame) : list bytes :=
  match f with
  | Frame_Eager r t => [Byte.x01] :: Zbytes t :: match r with None => [] | Some p => recordFields p end
  | Frame_Ihave t n h b k => [[Byte.x02]; toBytes t; n; Zbytes h; b; toBytes k]
  | Frame_Graft t n h k => [[Byte.x03]; toBytes t; n; Zbytes h; toBytes k]
  | Frame_Prune t => [[Byte.x04]; toBytes t]
  | Frame_Merkle t s e h => [[Byte.x05]; toBytes t; optField s; optField e; h]
  | Frame_MerkleRange t l b => [Byte.x06] :: toBytes t :: boolField b :: mjoin (recordFields <$> l)
  | Frame_Keepalive => [[Byte.x07]]
  | Frame_FetchReq i h => [[Byte.x08]; Zbytes i; h]
  | Frame_FetchResp i b e => [[Byte.x09]; Zbytes i; b; toBytes e]
  end.

Definition ofFields (l : list bytes) : option Frame :=
  match l with
  | [Byte.x01] :: t :: r => Some (Frame_Eager (head (fieldsRecords r)) (bytesZ t))
  | [[Byte.x02]; t; n; h; b; k] => Some (Frame_Ihave (ofBytes t) n (bytesZ h) b (ofBytes k))
  | [[Byte.x03]; t; n; h; k] => Some (Frame_Graft (ofBytes t) n (bytesZ h) (ofBytes k))
  | [[Byte.x04]; t] => Some (Frame_Prune (ofBytes t))
  | [[Byte.x05]; t; s; e; h] => Some (Frame_Merkle (ofBytes t) (fieldOpt s) (fieldOpt e) h)
  | [Byte.x06] :: t :: b :: r => Some (Frame_MerkleRange (ofBytes t) (fieldsRecords r) (fieldBool b))
  | [[Byte.x07]] => Some Frame_Keepalive
  | [[Byte.x08]; i; h] => Some (Frame_FetchReq (bytesZ i) h)
  | [[Byte.x09]; i; b; e] => Some (Frame_FetchResp (bytesZ i) b (ofBytes e))
  | _ => None
  end.

Lemma fieldsRecords_app p l : fieldsRecords (recordFields p ++ l) = p :: fieldsRecords l.
Proof.
  destruct p as [t n h b [] s k o a y]; simpl; by rewrite !bytesZ_Zbytes, !ofBytes_toBytes.
Qed.

Lemma fieldsRecords_recordFields (l : list pbRecord) :
  fieldsRecords (mjoin (recordFields <$> l)) = l.
Proof.
  induction l as [|p l IH]; [done|].
  change (mjoin (recordFields <$> p :: l)) with (recordFields p ++ mjoin (recordFields <$> l)).
  by rewrite fieldsRecords_app, IH.
Qed.

Lemma fieldOpt_optField o : fieldOpt (optField o) = present o.
Proof. by destruct o as [[]|]. Qed.

Lemma ofFields_fields f : ofFields (fields f) = Some (onWire f).
Proof.
  destruct f as [[p|] t| | | |t s e h|t l b| | |]; cbn [fields ofFields onWire];
    rewrite ?bytesZ_Zbytes, ?ofBytes_toBytes, ?fieldOpt_optField; try done.
  - rewrite <- (app_nil_r (recordFields p)). by rewrite fieldsRecords_app.
  - rewrite fieldsRecords_recordFields. by destruct b.
Qed.

Definition writeField (f : bytes) : bytes :=
  mjoin ((fun b => [Byte.x01; b]) <$> f) ++ [Byte.x00].

Fixpoint readFields (cur l : bytes) : list bytes :=
  match l with
  | [] => []
  | Byte.x00 :: l' => rev cur :: readFields [] l'
  | _ :: l' => match l' with [] => [] | b :: l'' => readFields (b :: cur) l'' end
  end.

Lemma readFields_write f cur l :
  readFields cur (writeField f ++ l) = (rev cur ++ f) :: readFields [] l.
Proof.
  unfold writeField. revert cur. induction f as [|b f IH]; intros cur; simpl.
  - by rewrite app_nil_r.
  - rewrite IH. simpl. by rewrite <- app_assoc.
Qed.

Lemma read_write l : readFields [] (mjoin (writeField <$> l)) = l.
Proof.
  induction l as [|f l IH]; [done|].
  change (mjoin (writeField <$> f :: l)) with (writeField f ++ mjoin (writeField <$> l)).
  by rewrite readFields_write, IH.
Qed.

Definition codec : Proto :=
  {| marshal := fun f => if frameEncodable f then Some (mjoin (writeField <$> fields f)) else None;
     unmarshal := fun b => ofFields (readFields [] b) |}.

#[export] Instance laws : @ProtoLaws codec.
Proof.
  split.
  - intros f. cbn [marshal codec]. destruct (frameEncodable f); by split; try done; intros [].
  - intros f b. cbn [marshal unmarshal codec]. destruct (frameEncodable f); [|done].
    intros [= <-]. by rewrite read_write, ofFields_fields.
  - done.
Defined.
End ToyProto.
