(* ===== verification/Engine.v ===== *)
(** * The gossip engine: state, effects, plumtrees (src/plumtrees.go)

    The state the protocol handlers share, as [Wire] assembles it: the record store, the
    peer table, the clock, the admission gate, and the tables of the plumtrees and
    Merkle engines. A handler is a program of the monad [M]: it updates the state and
    lists, in order, the frames it hands to the transport and the records it reports as
    applied. Handlers run one at a time here; within one handler the clock has one
    reading. Send errors are ignored, as the code ignores them. *)
From S2P Require Import Prelude Types Crypto Hlc Sig Crdt Gate Peer Codec.

(** ** State *)

(** The two clocks: [Config.NowFn] in nanoseconds, and [time.Now] in Unix milliseconds,
    which the admission gate and the hybrid logical clock read. *)
Record clock := mkClock { c_now : Z; c_realMs : Z }.

(** [c.NowFn().UnixMilli()]. *)
Definition c_nowMs (c : clock) : Z := c_now c / 1000000.

(** [type ihaveKey struct], [type ihaveEntry struct]. *)
Record ihaveKey := mkIhaveKey {
  ik_topic : Topic; ik_nodeID : NodeID; ik_key : string; ik_hlc : Z }.

Record ihaveEntry := mkIhave {
  ih_announcer : NodeID; ih_bodyHash : bytes; ih_seenAt : Z; ih_grafted : bool }.

#[export] Instance ihaveKey_eq_dec : EqDecision ihaveKey.
Proof. solve_decision. Defined.

#[export] Instance ihaveKey_countable : Countable ihaveKey.
Proof.
  apply (inj_countable' (fun k => (ik_topic k, ik_nodeID k, ik_key k, ik_hlc k))
    (fun '(t, n, y, h) => mkIhaveKey t n y h)). by intros [].
Defined.

(** [plumtreesEngine] and [merkleEngine] with what they share. *)
Record engine := mkEngine {
  localID : NodeID;
  store : recordStore;
  peers : peerTable;
  hlc : Z;
  gate : inboundGate;
  treeDeg : Z;
  eagerTTL : Z;
  graftDelay : Z;
  maxIHaves : Z;
  missingIHaves : gmap ihaveKey ihaveEntry;
  plumPaused : bool;
  probeEvery : Z;
  maxRangeSize : Z;
  probeSalt : Z;
  lastProbe : gmap Topic Z;
  lastReciprocal : gmap string Z;
  merklePaused : bool
}.

Definition set_store (e : engine) (s : recordStore) : engine :=
  mkEngine (localID e) s (peers e) (hlc e) (gate e) (treeDeg e) (eagerTTL e) (graftDelay e)
    (maxIHaves e) (missingIHaves e) (plumPaused e) (probeEvery e) (maxRangeSize e)
    (probeSalt e) (lastProbe e) (lastReciprocal e) (merklePaused e).
Definition set_peers (e : engine) (p : peerTable) : engine :=
  mkEngine (localID e) (store e) p (hlc e) (gate e) (treeDeg e) (eagerTTL e) (graftDelay e)
    (maxIHaves e) (missingIHaves e) (plumPaused e) (probeEvery e) (maxRangeSize e)
    (probeSalt e) (lastProbe e) (lastReciprocal e) (merklePaused e).
Definition set_hlc (e : engine) (h : Z) : engine :=
  mkEngine (localID e) (store e) (peers e) h (gate e) (treeDeg e) (eagerTTL e) (graftDelay e)
    (maxIHaves e) (missingIHaves e) (plumPaused e) (probeEvery e) (maxRangeSize e)
    (probeSalt e) (lastProbe e) (lastReciprocal e) (merklePaused e).
Definition set_gate (e : engine) (g : inboundGate) : engine :=
  mkEngine (localID e) (store e) (peers e) (hlc e) g (treeDeg e) (eagerTTL e) (graftDelay e)
    (maxIHaves e) (missingIHaves e) (plumPaused e) (probeEvery e) (maxRangeSize e)
    (probeSalt e) (lastProbe e) (lastReciprocal e) (merklePaused e).
Definition set_missing (e : engine) (m : gmap ihaveKey ihaveEntry) : engine :=
  mkEngine (localID e) (store e) (peers e) (hlc e) (gate e) (treeDeg e) (eagerTTL e)
    (graftDelay e) (maxIHaves e) m (plumPaused e) (probeEvery e) (maxRangeSize e)
    (probeSalt e) (lastProbe e) (lastReciprocal e) (merklePaused e).
Definition set_paused (e : engine) (b : bool) : engine :=
  mkEngine (localID e) (store e) (peers e) (hlc e) (gate e) (treeDeg e) (eagerTTL e)
    (graftDelay e) (maxIHaves e) (missingIHaves e) b (probeEvery e) (maxRangeSize e)
    (probeSalt e) (lastProbe e) (lastReciprocal e) b.
Definition set_lastProbe (e : engine) (m : gmap Topic Z) : engine :=
  mkEngine (localID e) (store e) (peers e) (hlc e) (gate e) (treeDeg e) (eagerTTL e)
    (graftDelay e) (maxIHaves e) (missingIHaves e) (plumPaused e) (probeEvery e)
    (maxRangeSize e) (probeSalt e) m (lastReciprocal e) (merklePaused e).
Definition set_lastReciprocal (e : engine) (m : gmap string Z) : engine :=
  mkEngine (localID e) (store e) (peers e) (hlc e) (gate e) (treeDeg e) (eagerTTL e)
    (graftDelay e) (maxIHaves e) (missingIHaves e) (plumPaused e) (probeEvery e)
    (maxRangeSize e) (probeSalt e) (lastProbe e) m (merklePaused e).

(** ** Effects and the monad *)

(** What leaves a handler: a frame handed to the transport, a record reported through
    [onApplied], a content request or response passed to the content layer. *)
Inductive effect :=
  | Send (to : NodeID) (frame : bytes)
  | Applied (r : Record_)
  | FetchReq (from : NodeID) (requestId : Z) (hash : bytes)
  | FetchResp (from : NodeID) (requestId : Z) (body : bytes) (error : string).

Definition M (A : Type) : Type := engine -> engine * list effect * A.

#[export] Instance M_ret : MRet M := fun A a e => (e, [], a).
#[export] Instance M_bind : MBind M := fun A B k m e =>
  let '(e1, out1, a) := m e in
  let '(e2, out2, b) := k a e1 in (e2, out1 ++ out2, b).

Definition gets {A} (f : engine -> A) : M A := fun e => (e, [], f e).
Definition modify (f : engine -> engine) : M () := fun e => (f e, [], ()).
Definition emit (x : effect) : M () := fun e => (e, [x], ()).
Definition send (to : NodeID) (frame : bytes) : M () := emit (Send to frame).
Definition skip : M () := mret ().

(** [for _, x := range l { body(x) }]. *)
Fixpoint forEach {A} (l : list A) (body : A -> M ()) : M () :=
  match l with [] => skip | x :: l' => body x ;; forEach l' body end.

(** Sends a frame that may have failed to encode; [if err != nil { return }]. *)
Definition whenEncoded (f : option bytes) (k : bytes -> M ()) : M () :=
  match f with Some frame => k frame | None => skip end.

(** ** Construction *)

(** [const ihaveEntryTTL]. *)
Definition ihaveEntryTTL : Z := 30 * Second.

(** The defaults of [newMerkle]: the probe interval, and the salt of the choice of peer. *)
Definition newMerkle_probeEvery (probeInterval : Z) : Z :=
  if probeInterval <=? 0 then 60 * Second else probeInterval.
Definition newMerkle_probeSalt `{Sha256} (localID : NodeID) : Z :=
  be_get (take 8 (sha256 (toBytes localID))).

(** [newPlumtrees] and [newMerkle], as [Wire] calls them, on the store, the peers and the
    clock that [New] made; [localID] is the identity that the transport gives. *)
Definition newEngine `{Sha256} (id localID : NodeID) (s : recordStore) (p : peerTable) (h : Z)
    (g : inboundGate) (deg delay pending probeInterval : Z) : engine :=
  mkEngine id s p h g
    (if deg <=? 0 then 4 else deg) 8
    (if delay <=? 0 then 200 * Millisecond else delay)
    (if pending >? 0 then pending else 4096) ∅ false
    (newMerkle_probeEvery probeInterval) 64 (newMerkle_probeSalt localID) ∅ ∅ false.

Section plumtrees.
Context `{Sha256} `{Ed25519} `{Proto} `{MapOrder}.

(** ** Tree edges *)

(** [func (e *plumtreesEngine) maxTreeEdges() int]. *)
Definition maxTreeEdges (e : engine) : Z := treeDeg e * 4.

Definition setTreeEdge (id : NodeID) (b : bool) : M () :=
  modify (fun e => set_peers e (SetTreeEdge (peers e) id b)).

(** [func (e *plumtreesEngine) promoteTreeEdgeBounded(from NodeID)]. *)
Definition promoteTreeEdgeBounded (from : NodeID) : M () :=
  edges ← gets (fun e => TreeEdges (peers e));
  if bool_decide (from ∈ edges) then skip else
  n ← gets (fun e => len (TreeEdges (peers e)));
  max ← gets maxTreeEdges;
  if n >=? max then skip else setTreeEdge from true.

(** The promotion order of [bestTreeEdges]. *)
Definition lessPeer (a b : Z * NodeID) : bool :=
  if negb (a.1 =? b.1) then a.1 >? b.1 else String.ltb a.2 b.2.

(** [func (e *plumtreesEngine) bestTreeEdges() []NodeID]. *)
Definition bestTreeEdges : M (list NodeID) :=
  cur ← gets (fun e => TreeEdges (peers e));
  deg ← gets treeDeg;
  if len cur >=? deg then mret cur else
  all ← gets (fun e => NonTreeEdges (peers e));
  pt ← gets peers;
  let all := sort_by (fun id => (PriorityClass (Snapshot pt id), id)) lessPeer all in
  let chosen := take (Z.to_nat (deg - len cur)) all in
  forEach chosen (fun id => setTreeEdge id true) ;;
  mret (cur ++ chosen).

(** ** Push *)

(** [func (e *plumtreesEngine) eagerPushToTreeEdges(r Record)]. *)
Definition eagerPushToTreeEdges (r : Record_) : M () :=
  ttl ← gets eagerTTL;
  whenEncoded (encodeFrame (frameEagerPush r ttl)) (fun frame =>
    edges ← bestTreeEdges;
    forEach edges (fun edge => send edge frame)).

(** [func (e *plumtreesEngine) eagerForward(except NodeID, r Record, ttl uint32)]. *)
Definition eagerForward (except : NodeID) (r : Record_) (ttl : Z) : M () :=
  whenEncoded (encodeFrame (frameEagerPush r ttl)) (fun frame =>
    edges ← gets (fun e => TreeEdges (peers e));
    forEach edges (fun edge => if String.eqb edge except then skip else send edge frame)).

Definition enqueueLazy (c : clock) (p : NodeID) (entry : lazyEntry) (maxAge : Z) : M bool :=
  fun e => let '(pt, ok) := EnqueueLazy (c_now c) (peers e) p entry maxAge in
           (set_peers e pt, [], ok).

Definition consumeTokens (c : clock) (p : NodeID) (cost : Z) : M bool :=
  fun e => let '(pt, ok) := ConsumeTokens (c_now c) (peers e) p cost in
           (set_peers e pt, [], ok).

(** One peer of [lazyPushToNonTreeEdges]. *)
Definition lazyPushTo (c : clock) (r : Record_) (frame : bytes) (p : NodeID) : M () :=
  interval ← gets (fun e => AdaptiveInterval (Snapshot (peers e) p));
  let interval := if interval <=? 0 then Second else interval in
  let entry := mkLazy (r_Topic r) (r_NodeID r) (r_HLC r) (bodyHash r) 0 in
  queued ← enqueueLazy c p entry interval;
  if negb queued then skip else
  granted ← consumeTokens c p (len frame);
  if negb granted then skip else send p frame.

(** [func (e *plumtreesEngine) lazyPushToNonTreeEdges(r Record)]. *)
Definition lazyPushToNonTreeEdges (c : clock) (r : Record_) : M () :=
  p ← gets plumPaused;
  if (p : bool) then skip else
  whenEncoded (encodeFrame (frameIHave (r_Topic r) (r_NodeID r) (r_Key r) (r_HLC r)
                              (bodyHash r))) (fun frame =>
    targets ← gets (fun e => NonTreeEdges (peers e));
    forEach targets (lazyPushTo c r frame)).

(** [func (e *plumtreesEngine) sendPrune(to NodeID, topic Topic)]. *)
Definition sendPrune (to : NodeID) (topic : Topic) : M () :=
  whenEncoded (encodeFrame (framePrune topic)) (fun frame => send to frame).

(** [func (e *plumtreesEngine) Broadcast(r Record)]. *)
Definition Broadcast (c : clock) (r : Record_) : M () :=
  eagerPushToTreeEdges r ;; lazyPushToNonTreeEdges c r.

(** ** The store, the gate and the clock from inside a handler *)

Definition applyExt (c : clock) (r : Record_) : M (bool * bool * bool) :=
  fun e => let '(s, res) := ApplyExt (c_nowMs c) (store e) r in (set_store e s, [], res).

Definition apply (c : clock) (r : Record_) : M (bool * bool) :=
  '(applied, replaced, _) ← applyExt c r; mret (applied, replaced).

Definition gateAdmit (c : clock) (r : Record_) : M bool :=
  fun e => let '(g, err) := Admit (c_realMs c) (gate e) r in
           (set_gate e g, [], bool_decide (err = None)).

Definition observe (c : clock) (remote : Z) : M () :=
  modify (fun e => set_hlc e (Observe (hlc e) remote (c_realMs c))).

(** The signature check of the inbound paths: the record's own public key, of the right
    length. *)
Definition wellSigned (r : Record_) : bool :=
  (len (r_PubKey r) =? PublicKeySize) && verifyRecord r (r_PubKey r).

(** [func (e *plumtreesEngine) Publish(r Record)]. *)
Definition plumPublish (c : clock) (r : Record_) : M () :=
  '(applied, _) ← apply c r;
  if negb applied then skip else
  eagerPushToTreeEdges r ;; lazyPushToNonTreeEdges c r.

(** ** Inbound handlers *)

(** [func (e *plumtreesEngine) handleEager(from NodeID, ep *pb.EagerPush) error]. *)
Definition handleEager (c : clock) (from : NodeID) (record : option pbRecord) (ttl : Z) : M () :=
  match record with
  | None => skip
  | Some p =>
      let r := recordFromProto p in
      if negb (wellSigned r) then skip else
      admitted ← gateAdmit c r;
      if negb admitted then skip else
      observe c (r_HLC r) ;;
      '(applied, replaced, accumulated) ← applyExt c r;
      if negb applied && accumulated && IsObserverAttestation r then
        if ttl >? 1 then
          whenEncoded (encodeFrame (frameEagerPush r (ttl - 1))) (fun frame =>
            edges ← bestTreeEdges;
            forEach edges (fun edge => if String.eqb edge from then skip else send edge frame))
        else skip
      else if negb applied && replaced then sendPrune from (r_Topic r)
      else if negb applied then skip
      else
        promoteTreeEdgeBounded from ;;
        modify (fun e => set_missing e
          (delete (mkIhaveKey (r_Topic r) (r_NodeID r) (r_Key r) (r_HLC r)) (missingIHaves e))) ;;
        emit (Applied r) ;;
        (if ttl >? 1 then eagerForward from r (ttl - 1) else skip) ;;
        lazyPushToNonTreeEdges c r
  end.

(** [copy(bh[:], b)] into a zeroed 32-byte array. *)
Definition copy32 (b : bytes) : bytes := take 32 (b ++ repeat Byte.x00 32).

(** [func (e *plumtreesEngine) handleIHave(from NodeID, ih *pb.IHave) error]. *)
Definition handleIHave (c : clock) (from : NodeID) (topic : Topic) (nodeId : bytes) (h : Z)
    (bh : bytes) (key : string) : M () :=
  let nodeID := ofBytes nodeId in
  cur ← gets (fun e => getRawKeyed (store e) topic nodeID key);
  if match cur with Some r => r_HLC r >=? h | None => false end then skip else
  let k := mkIhaveKey topic nodeID key h in
  modify (fun e =>
    match missingIHaves e !! k with
    | Some _ => e
    | None =>
        if mlen (missingIHaves e) >=? maxIHaves e then e
        else set_missing e (<[k := mkIhave from (copy32 bh) (c_now c) false]> (missingIHaves e))
    end).

(** [func (e *plumtreesEngine) handleGraft(from NodeID, g *pb.Graft) error]. A frame that
    does not encode is sent as no bytes. *)
Definition handleGraft (from : NodeID) (topic : Topic) (nodeId : bytes) (key : string) : M () :=
  promoteTreeEdgeBounded from ;;
  cur ← gets (fun e => getRawKeyed (store e) topic (ofBytes nodeId) key);
  match cur with
  | None => skip
  | Some r =>
      if len (r_Sig r) =? 0 then skip else
      ttl ← gets eagerTTL;
      send from (default [] (encodeFrame (frameEagerPush r ttl)))
  end.

(** [func (e *plumtreesEngine) handlePrune(from NodeID, p *pb.Prune) error]. *)
Definition handlePrune (from : NodeID) : M () := setTreeEdge from false.

(** One entry of [processGrafts]. *)
Definition processGraft (now : Z) (entry : ihaveKey * ihaveEntry) : M () :=
  let '(key, x) := entry in
  delay ← gets graftDelay;
  if timeSub now (ih_seenAt x) >? ihaveEntryTTL then
    modify (fun e => set_missing e (delete key (missingIHaves e)))
  else if ih_grafted x then skip
  else if timeSub now (ih_seenAt x) <? delay then skip
  else
    send (ih_announcer x)
      (default [] (encodeFrame (frameGraft (ik_topic key) (ik_nodeID key) (ik_key key)
                                  (ik_hlc key)))) ;;
    modify (fun e => set_missing e
      (<[key := mkIhave (ih_announcer x) (ih_bodyHash x) (ih_seenAt x) true]> (missingIHaves e))).

(** [func (e *plumtreesEngine) processGrafts(now time.Time)], which is all [Tick] does. *)
Definition processGrafts (now : Z) : M () :=
  entries ← gets (fun e => map_order (missingIHaves e));
  forEach entries (processGraft now).

End plumtrees.
