(* ===== verification/Merkle.v ===== *)
(** * Merkle anti-entropy (src/merkle.go)

    The root over a NodeID range of a topic, the periodic probes, and the two ends of a
    reconciliation: [HandleProbe] answers a differing root with the records of the range,
    [HandleRange] takes them in and asks for the rest. Nil range bounds are [None]. *)
From S2P Require Import Prelude Types Crypto Hlc Sig Crdt Gate Peer Codec Engine.

(** [func bytesLess], [func bytesEqual]. *)
Definition bytesLess (a b : bytes) : bool := lex_less a b.
Definition bytesEqual (a b : bytes) : bool :=
  (len a =? len b) && forallb (fun p => byteZ p.1 =? byteZ p.2) (zip a b).

(** The two range tests of the loops over the records of a topic. *)
Definition inRange (rangeStart rangeEnd : option bytes) (r : Record_) : bool :=
  let nid := toBytes (r_NodeID r) in
  negb (match rangeStart with Some s => bytesLess nid s | None => false end) &&
  negb (match rangeEnd with Some e => bytesLess e nid | None => false end).

Section merkle.
Context `{Sha256} `{Ed25519} `{Proto} `{MapOrder}.

(** The signed records of a topic within a range, in slot order. *)
Definition rangeRecords (s : recordStore) (topic : Topic) (rangeStart rangeEnd : option bytes)
    : list Record_ :=
  List.filter (inRange rangeStart rangeEnd) (topicRecordsSigned s topic).

(** What is hashed of one record. *)
Definition merkleEntry (r : Record_) : bytes :=
  sha256 (toBytes (r_NodeID r)) ++ be_put 8 (r_HLC r) ++ sha256 (r_Sig r).

(** [func topicMerkleRoot(s, topic, rangeStart, rangeEnd) [32]byte]. *)
Definition topicMerkleRoot (s : recordStore) (topic : Topic) (rangeStart rangeEnd : option bytes)
    : bytes := sha256 (mjoin (merkleEntry <$> rangeRecords s topic rangeStart rangeEnd)).

(** [func (m *merkleEngine) sendProbe(to, topic, rangeStart, rangeEnd)]. *)
Definition sendProbe (to : NodeID) (topic : Topic) (rangeStart rangeEnd : option bytes) : M () :=
  root ← gets (fun e => topicMerkleRoot (store e) topic rangeStart rangeEnd);
  whenEncoded (encodeFrame (Frame_Merkle topic rangeStart rangeEnd root)) (fun frame =>
    send to frame).

(** [func (m *merkleEngine) sendRange(to, topic, recs, truncated)]. *)
Definition sendRange (to : NodeID) (topic : Topic) (recs : list Record_) (truncated : bool)
    : M () :=
  whenEncoded (encodeFrame (Frame_MerkleRange topic (recordToProto <$> recs) truncated))
    (fun frame => send to frame).

(** The first topic's worth of probe work in [Tick]. *)
Definition tickTopic (c : clock) (topic : Topic) : M () :=
  last ← gets (fun e => lastProbe e !! topic);
  every ← gets probeEvery;
  if negb (match last with None => true | Some l => timeSub (c_now c) l >=? every end)
  then skip else
  modify (fun e => set_lastProbe e (<[topic := c_now c]> (lastProbe e))) ;;
  targets ← gets (fun e => NonTreeEdges (peers e));
  if len targets =? 0 then skip else
  salt ← gets probeSalt;
  let idx := u64 (u64 (c_nowMs c) + salt) mod len targets in
  match targets !! Z.to_nat idx with
  | Some target => sendProbe target topic None None
  | None => skip
  end.

(** [func (m *merkleEngine) Tick()]. *)
Definition merkleTick (c : clock) : M () :=
  p ← gets merklePaused;
  if (p : bool) then skip else
  topics ← gets (fun e => Topics (store e));
  forEach topics (tickTopic c).

(** [func (m *merkleEngine) ProbePeer(target NodeID)]. *)
Definition merkleProbePeer (target : NodeID) : M () :=
  if String.eqb target "" then skip else
  topics ← gets (fun e => Topics (store e));
  forEach topics (fun topic => sendProbe target topic None None).

(** [func (m *merkleEngine) Roots() map[Topic][32]byte]. *)
Definition Roots (s : recordStore) : gmap Topic bytes :=
  list_to_map ((fun t => (t, topicMerkleRoot s t None None)) <$> Topics s).

(** The loop that moves the split to the end of the key group it landed in. *)
Fixpoint advanceSplit (fuel half : nat) (l : list Record_) : nat :=
  match fuel with
  | O => half
  | S fuel' =>
      match l !! half, l !! (half - 1)%nat with
      | Some a, Some b =>
          if String.eqb (r_NodeID a) (r_NodeID b) then advanceSplit fuel' (S half) l else half
      | _, _ => half
      end
  end.

(** Where [HandleProbe] cuts a range that is too large. *)
Definition splitPoint (l : list Record_) : nat :=
  let half := (length l / 2)%nat in
  let half := if (half <? 1)%nat then 1%nat else half in
  advanceSplit (length l) half l.

(** [string(from) + "\x00" + string(topic)]. *)
Definition reciprocalKey (from : NodeID) (topic : Topic) : string :=
  ofBytes (toBytes from ++ [Byte.x00] ++ toBytes topic).

(** The rate-limited probe back to the prober. *)
Definition reciprocalProbe (c : clock) (from : NodeID) (topic : Topic)
    (rangeStart rangeEnd : option bytes) : M () :=
  let rkey := reciprocalKey from topic in
  last ← gets (fun e => lastReciprocal e !! rkey);
  if match last with None => true | Some l => timeSub (c_now c) l >=? 5 * Second end then
    modify (fun e => set_lastReciprocal e (<[rkey := c_now c]> (lastReciprocal e))) ;;
    sendProbe from topic rangeStart rangeEnd
  else skip.

(** [func (m *merkleEngine) HandleProbe(from NodeID, p *pb.MerkleProbe)]. *)
Definition HandleProbe (c : clock) (from : NodeID) (topic : Topic)
    (rangeStart rangeEnd : option bytes) (rootHash : bytes) : M () :=
  localRoot ← gets (fun e => topicMerkleRoot (store e) topic rangeStart rangeEnd);
  if bytesEqual localRoot rootHash then skip else
  reciprocalProbe c from topic rangeStart rangeEnd ;;
  recs ← gets (fun e => rangeRecords (store e) topic rangeStart rangeEnd);
  max ← gets maxRangeSize;
  if len recs <=? max then
    atts ← gets (fun e => topicAttestations (store e) topic);
    let atts := if len atts >? max then take (Z.to_nat max) atts else atts in
    let recs := match rangeStart, rangeEnd with None, None => recs ++ atts | _, _ => recs end in
    sendRange from topic recs false
  else
    let half := splitPoint recs in
    if (length recs <=? half)%nat then sendRange from topic recs false
    else sendRange from topic (take half recs) true.

(** One record of [HandleRange]. *)
Definition handleRangeRecord (c : clock) (pr : pbRecord) : M () :=
  let rec := recordFromProto pr in
  if negb (wellSigned rec) then skip else
  admitted ← gateAdmit c rec;
  if negb admitted then skip else
  observe c (r_HLC rec) ;;
  '(applied, _) ← apply c rec;
  if (applied : bool) then emit (Applied rec) else skip.

(** [func (m *merkleEngine) HandleRange(from NodeID, hlc *HLC, r *pb.MerkleRange)]. *)
Definition HandleRange (c : clock) (from : NodeID) (topic : Topic) (recs : list pbRecord)
    (truncated : bool) : M () :=
  forEach recs (handleRangeRecord c) ;;
  match last recs with
  | Some l =>
      if truncated then
        let nextStart := pb_NodeId l ++ [Byte.x01] in
        sendProbe from topic (Some nextStart) None
      else skip
  | None => skip
  end.

(** ** Dispatch *)

(** [func (e *plumtreesEngine) ReceiveFrame(from NodeID, raw []byte) error]. *)
Definition ReceiveFrame (c : clock) (from : NodeID) (raw : bytes) : M () :=
  match decodeFrame raw with
  | None => skip
  | Some (Frame_Eager record ttl) => handleEager c from record ttl
  | Some (Frame_Ihave topic nodeId h bh key) => handleIHave c from topic nodeId h bh key
  | Some (Frame_Graft topic nodeId _ key) => handleGraft from topic nodeId key
  | Some (Frame_Prune _) => handlePrune from
  | Some (Frame_Merkle topic s e root) => HandleProbe c from topic s e root
  | Some (Frame_MerkleRange topic recs truncated) => HandleRange c from topic recs truncated
  | Some Frame_Keepalive => skip
  | Some (Frame_FetchReq id h) => emit (FetchReq from id h)
  | Some (Frame_FetchResp id body err) => emit (FetchResp from id body err)
  end.

(** [func (n *nodeImpl) Tick(now time.Time)]. *)
Definition Tick (c : clock) (now : Z) : M () := processGrafts now ;; merkleTick c.

End merkle.
