(* ===== verification/EngineLemmas.v ===== *)
(** * Reasoning about handlers

    [follows R m]: the program [m] takes every state along the preorder [R]; and two such
    preorders: what a handler may do to the store, and the resource bounds. *)
From S2P Require Import Prelude Types Crypto Hlc Sig Crdt CrdtLemmas CrdtInv Gate Peer Codec.
From S2P Require Import Engine Merkle.

Definition follows {A} (R : engine -> engine -> Prop) (m : M A) : Prop :=
  forall e, R e (m e).1.1.

(** ** Rules *)
Section rules.
Context (R : engine -> engine -> Prop) `{!PreOrder R}.

Lemma follows_ret {A} (a : A) : follows R (mret a).
Proof. intros e. simpl. reflexivity. Qed.

Lemma follows_skip : follows R skip.
Proof. apply follows_ret. Qed.

Lemma follows_bind {A B} (m : M A) (k : A -> M B) :
  follows R m -> (forall a, follows R (k a)) -> follows R (m ≫= k).
Proof.
  intros Hm Hk e. unfold mbind, M_bind. specialize (Hm e).
  destruct (m e) as [[e1 o1] a]. specialize (Hk a e1).
  destruct (k a e1) as [[e2 o2] b]. simpl in *. by transitivity e1.
Qed.

Lemma follows_gets {A} (f : engine -> A) : follows R (gets f).
Proof. intros e. simpl. reflexivity. Qed.

Lemma follows_modify f : (forall e, R e (f e)) -> follows R (modify f).
Proof. intros Hf e. apply Hf. Qed.

Lemma follows_emit x : follows R (emit x).
Proof. intros e. simpl. reflexivity. Qed.

Lemma follows_send to f : follows R (send to f).
Proof. apply follows_emit. Qed.

Lemma follows_forEach {A} (l : list A) body :
  (forall x, follows R (body x)) -> follows R (forEach l body).
Proof.
  intros Hb. induction l as [|x l IH]; simpl; [apply follows_skip|].
  apply follows_bind; [apply Hb|]. intros _. exact IH.
Qed.

Lemma follows_whenEncoded o k : (forall f, follows R (k f)) -> follows R (whenEncoded o k).
Proof. intros Hk. destruct o; [apply Hk|apply follows_skip]. Qed.

(** The value of a [gets] may be used to prove the rest. *)
Lemma follows_gets_bind {A B} (f : engine -> A) (k : A -> M B) :
  (forall e, R e (k (f e) e).1.1) -> follows R (gets f ≫= k).
Proof.
  intros Hk e. unfold mbind, M_bind, gets. specialize (Hk e).
  destruct (k (f e) e) as [[e2 o2] b]. done.
Qed.
End rules.

(** ** Running a program

    What the first instructions of a program do to a state. *)
Lemma run_gets {A B} (f : engine -> A) (k : A -> M B) e : (gets f ≫= k) e = k (f e) e.
Proof. unfold mbind, M_bind, gets. by destruct (k (f e) e) as [[? ?] ?]. Qed.

Lemma run_modify {B} (f : engine -> engine) (k : M B) e : (modify f ;; k) e = k (f e).
Proof. unfold mbind, M_bind, modify. by destruct (k (f e)) as [[? ?] ?]. Qed.

Lemma run_ret {A B} (a : A) (k : A -> M B) e : (mret a ≫= k) e = k a e.
Proof. unfold mbind, M_bind, mret, M_ret. by destruct (k a e) as [[? ?] ?]. Qed.

Lemma run_bind {A B} (m : M A) (k : A -> M B) e e1 o1 a :
  m e = (e1, o1, a) ->
  (m ≫= k) e = ((k a e1).1.1, o1 ++ (k a e1).1.2, (k a e1).2).
Proof. unfold mbind, M_bind. intros ->. by destruct (k a e1) as [[? ?] ?]. Qed.

(** Takes a program apart down to its state changes. *)
Ltac follow_step :=
  match goal with
  | |- follows _ (mret _) => apply follows_ret; [apply _]
  | |- follows _ skip => apply follows_skip; [apply _]
  | |- follows _ (gets _) => apply follows_gets; [apply _]
  | |- follows _ (emit _) => apply follows_emit; [apply _]
  | |- follows _ (send _ _) => apply follows_send; [apply _]
  | |- follows _ (_ ≫= _) => apply follows_bind; [apply _| |intros ?]
  | |- follows _ (forEach _ _) => apply follows_forEach; [apply _|intros ?]
  | |- follows _ (whenEncoded _ _) => apply follows_whenEncoded; [apply _|intros ?]
  | |- follows _ (if ?b then _ else _) => destruct b
  | |- follows _ (let '(_, _) := ?x in _) => destruct x
  | |- follows _ (match ?x with _ => _ end) => destruct x
  end.
Ltac follow := repeat (cbv beta zeta; follow_step).

(** ** Invariants and outputs

    [safe I Q m]: from a state that satisfies [I], the program [m] ends in one that does,
    and everything it emits satisfies [Q]. *)
Definition safe {A} (I : engine -> Prop) (Q : effect -> Prop) (m : M A) : Prop :=
  forall e, I e -> I (m e).1.1 /\ Forall Q (m e).1.2.

Section safe_rules.
Context (I : engine -> Prop) (Q : effect -> Prop).

Lemma safe_ret {A} (a : A) : safe I Q (mret a).
Proof. by intros e. Qed.

Lemma safe_skip : safe I Q skip.
Proof. apply safe_ret. Qed.

Lemma safe_bind {A B} (m : M A) (k : A -> M B) :
  safe I Q m -> (forall a, safe I Q (k a)) -> safe I Q (m ≫= k).
Proof.
  intros Hm Hk e He. unfold mbind, M_bind. destruct (Hm e He) as [H1 Ho1].
  destruct (m e) as [[e1 o1] a]. destruct (Hk a e1 H1) as [H2 Ho2].
  destruct (k a e1) as [[e2 o2] b]. split; [done|]. by apply Forall_app.
Qed.

(** The value read comes from a state that satisfies the invariant. *)
Lemma safe_gets {A B} (f : engine -> A) (k : A -> M B) :
  (forall e, I e -> safe I Q (k (f e))) -> safe I Q (gets f ≫= k).
Proof. intros Hk e He. rewrite run_gets. by apply Hk. Qed.

Lemma safe_modify f : (forall e, I e -> I (f e)) -> safe I Q (modify f).
Proof. intros Hf e He. split; [by apply Hf|constructor]. Qed.

Lemma safe_emit x : Q x -> safe I Q (emit x).
Proof. intros Hx e He. split; [done|by constructor]. Qed.

Lemma safe_forEach {A} (l : list A) body :
  (forall x, x ∈ l -> safe I Q (body x)) -> safe I Q (forEach l body).
Proof.
  induction l as [|x l IH]; intros Hb; simpl; [apply safe_skip|].
  apply safe_bind; [apply Hb; left|]. intros _. apply IH. intros y Hy. apply Hb. by right.
Qed.

Lemma safe_whenEncoded o k : (forall f, o = Some f -> safe I Q (k f)) -> safe I Q (whenEncoded o k).
Proof. intros Hk. destruct o; [by apply Hk|apply safe_skip]. Qed.

Lemma safe_weaken {A} (Q' : effect -> Prop) (m : M A) :
  (forall x, Q' x -> Q x) -> safe I Q' m -> safe I Q m.
Proof. intros Hq Hm e He. destruct (Hm e He). split; [done|]. by eapply Forall_impl. Qed.
End safe_rules.

(** Takes a program apart, remembering where the values read come from. *)
Ltac guard_step :=
  match goal with
  | |- safe _ _ (mret _) => apply safe_ret
  | |- safe _ _ skip => apply safe_skip
  | |- safe _ _ (gets _ ≫= _) => apply safe_gets; intros ? ?
  | |- safe _ _ (_ ≫= _) => apply safe_bind; [|intros ?]
  | |- safe _ _ (forEach _ _) => apply safe_forEach; intros ? ?
  | |- safe _ _ (whenEncoded _ _) => apply safe_whenEncoded; intros ? ?
  | |- safe _ _ (if ?b then _ else _) => destruct b eqn:?
  | |- safe _ _ (let '(_, _) := ?x in _) => destruct x eqn:?
  | |- safe _ _ (match ?x with _ => _ end) => destruct x eqn:?
  end.
Ltac guard_ := repeat (cbv beta zeta; guard_step).

(** ** What a handler may do to the store

    Every change is the delivery of records that carry a valid signature under their own
    public key and satisfy the gate. *)

(** The record passes the inbound checks at some clock reading. *)
Definition vouched `{Ed25519} (g : inboundGate) (r : Record_) : Prop :=
  wellSigned r = true /\ exists nowMs, admissible nowMs g r.

Lemma vouched_policy `{Ed25519} g g' r :
  gate_policy g = gate_policy g' -> vouched g r -> vouched g' r.
Proof. intros Hg (Hs & now & Ha). split; [done|]. exists now. by apply (admissible_policy _ g). Qed.

(** A class of records the store may be given, which depends on the gate only through its
    policy and contains everything the inbound checks let through. *)
Class Admission `{Ed25519} := {
  acceptable : inboundGate -> Record_ -> Prop;
  acceptable_policy : forall g g' r,
    gate_policy g = gate_policy g' -> acceptable g r -> acceptable g' r;
  acceptable_vouched : forall g r, vouched g r -> acceptable g r
}.

(** Nothing but what the inbound checks let through. *)
Definition inbound_only `{Ed25519} : Admission :=
  {| acceptable := vouched; acceptable_policy := vouched_policy;
     acceptable_vouched := fun _ _ Hv => Hv |}.

Section evolution.
Context `{Sha256} `{Ed25519} `{Proto} `{MapOrder} `{!Admission}.

Definition evolves (e e' : engine) : Prop :=
  gate_policy (gate e') = gate_policy (gate e) /\
  exists l : list input, store e' = applyAll (store e) l /\
    Forall (fun i => acceptable (gate e) i.2) l.

#[export] Instance evolves_preorder : PreOrder evolves.
Proof.
  split.
  - intros e. split; [done|]. by exists [].
  - intros e1 e2 e3 [Hg1 (l1 & Hs1 & Hl1)] [Hg2 (l2 & Hs2 & Hl2)].
    split; [congruence|]. exists (l1 ++ l2). split; [by rewrite applyAll_app, <- Hs1|].
    apply Forall_app. split; [done|]. eapply Forall_impl; [exact Hl2|].
    intros i. by apply acceptable_policy.
Qed.

(** Steps that leave the store and the policy alone. *)
Lemma evolves_same e e' :
  store e' = store e -> gate_policy (gate e') = gate_policy (gate e) -> evolves e e'.
Proof. intros Hs Hg. split; [done|]. exists []. by rewrite Hs. Qed.

Lemma setTreeEdge_evolves id b : follows evolves (setTreeEdge id b).
Proof. apply follows_modify. intros e. by apply evolves_same. Qed.

Lemma enqueueLazy_evolves c p x a : follows evolves (enqueueLazy c p x a).
Proof.
  intros e. unfold enqueueLazy. destruct (EnqueueLazy _ _ _ _ _). by apply evolves_same.
Qed.

Lemma consumeTokens_evolves c p n : follows evolves (consumeTokens c p n).
Proof.
  intros e. unfold consumeTokens. destruct (ConsumeTokens _ _ _ _). by apply evolves_same.
Qed.

Lemma modify_missing_evolves f :
  (forall e, store (f e) = store e /\ gate (f e) = gate e) -> follows evolves (modify f).
Proof. intros Hf. apply follows_modify. intros e. destruct (Hf e). apply evolves_same; congruence. Qed.

(** The guarded delivery both inbound paths perform. *)
Lemma inbound_evolves {B} c r (k : bool * bool * bool -> M B) (m : M B) :
  wellSigned r = true -> follows evolves m -> (forall res, follows evolves (k res)) ->
  follows evolves (ok ← gateAdmit c r; if negb ok then m else observe c (r_HLC r) ;;
                   res ← applyExt c r; k res).
Proof.
  intros Hsig Hm Hk e. unfold mbind, M_bind, gateAdmit, observe, applyExt, modify.
  pose proof (Admit_policy (c_realMs c) (gate e) r) as Hp.
  pose proof (Admit_None (c_realMs c) (gate e) r) as Hn.
  destruct (Admit (c_realMs c) (gate e) r) as [g err]. simpl in Hp, Hn.
  destruct (decide (err = None)) as [->|Herr].
  - rewrite bool_decide_eq_true_2 by done. cbn [negb set_gate set_hlc hlc store].
    destruct (ApplyExt (c_nowMs c) (store e) r) as [s res] eqn:E.
    match goal with |- context [k res ?x] => set (e1 := x); specialize (Hk res e1) end.
    destruct (k res e1) as [[e2 o2] b]. simpl in *. transitivity e1; [|done].
    split; [exact Hp|]. exists [(c_nowMs c, r)]. simpl. rewrite E. split; [done|].
    constructor; [|constructor]. apply acceptable_vouched. split; [done|].
    exists (c_realMs c). by apply Hn.
  - rewrite bool_decide_eq_false_2 by done. cbn [negb].
    specialize (Hm (set_gate e g)). destruct (m (set_gate e g)) as [[e2 o2] b]. simpl in *.
    transitivity (set_gate e g); [by apply evolves_same|done].
Qed.

Ltac evolve :=
  follow; try first
    [ apply setTreeEdge_evolves | apply enqueueLazy_evolves | apply consumeTokens_evolves
    | apply modify_missing_evolves; intros ?; repeat case_match; by split ].

Lemma promote_evolves from : follows evolves (promoteTreeEdgeBounded from).
Proof. unfold promoteTreeEdgeBounded. evolve. Qed.

Lemma bestTreeEdges_evolves : follows evolves bestTreeEdges.
Proof. unfold bestTreeEdges. evolve. Qed.

Lemma lazyPush_evolves c r : follows evolves (lazyPushToNonTreeEdges c r).
Proof. unfold lazyPushToNonTreeEdges, lazyPushTo. evolve. Qed.

Lemma eagerForward_evolves x r t : follows evolves (eagerForward x r t).
Proof. unfold eagerForward. evolve. Qed.

Lemma sendPrune_evolves to t : follows evolves (sendPrune to t).
Proof. unfold sendPrune. evolve. Qed.

Lemma handleEager_evolves c from rec ttl : follows evolves (handleEager c from rec ttl).
Proof.
  unfold handleEager. destruct rec as [p|]; [|apply follows_skip; apply _]. cbv zeta.
  destruct (wellSigned (recordFromProto p)) eqn:E; simpl negb; cbv iota;
    [|apply follows_skip; apply _].
  apply inbound_evolves; [done|apply follows_skip; apply _|].
  intros [[applied replaced] accumulated].
  evolve; auto using bestTreeEdges_evolves, sendPrune_evolves, promote_evolves,
    eagerForward_evolves, lazyPush_evolves.
Qed.

Lemma handleIHave_evolves c from t n h b k : follows evolves (handleIHave c from t n h b k).
Proof. unfold handleIHave. evolve. Qed.

Lemma handleGraft_evolves from t n k : follows evolves (handleGraft from t n k).
Proof. unfold handleGraft. evolve; auto using promote_evolves. Qed.

Lemma processGrafts_evolves now : follows evolves (processGrafts now).
Proof. unfold processGrafts, processGraft. evolve. Qed.

Lemma sendProbe_evolves to t s x : follows evolves (sendProbe to t s x).
Proof. unfold sendProbe. evolve. Qed.

Lemma HandleProbe_evolves c from t s x h : follows evolves (HandleProbe c from t s x h).
Proof. unfold HandleProbe, reciprocalProbe, sendRange. evolve; auto using sendProbe_evolves. Qed.

Lemma HandleRange_evolves c from t l b : follows evolves (HandleRange c from t l b).
Proof.
  unfold HandleRange. apply follows_bind; [apply _| |].
  - apply follows_forEach; [apply _|]. intros p. unfold handleRangeRecord. cbv zeta.
    destruct (wellSigned (recordFromProto p)) eqn:E; simpl negb; cbv iota;
      [|apply follows_skip; apply _].
    unfold apply.
    pose proof (inbound_evolves c (recordFromProto p)
      (fun '(applied, _, _) => if (applied : bool) then emit (Applied (recordFromProto p)) else skip)
      skip E) as Hi.
    intros e. specialize (Hi ltac:(apply follows_skip; apply _) ltac:(intros [[[] ?] ?]; evolve) e).
    unfold mbind, M_bind, mret, M_ret in *.
    destruct (gateAdmit c (recordFromProto p) e) as [[e1 o1] ok]. destruct ok; simpl in *; [|done].
    destruct (applyExt c (recordFromProto p) _) as [[e2 o2] [[ap re] ac]]. simpl in *.
    by destruct ap.
  - intros _. evolve. apply sendProbe_evolves.
Qed.

Lemma merkleTick_evolves c : follows evolves (merkleTick c).
Proof. unfold merkleTick, tickTopic. evolve; auto using sendProbe_evolves. Qed.

Lemma merkleProbePeer_evolves p : follows evolves (merkleProbePeer p).
Proof. unfold merkleProbePeer. evolve. apply sendProbe_evolves. Qed.

Lemma ReceiveFrame_evolves c from raw : follows evolves (ReceiveFrame c from raw).
Proof.
  unfold ReceiveFrame. follow; auto using handleEager_evolves, handleIHave_evolves,
    handleGraft_evolves, HandleProbe_evolves, HandleRange_evolves, setTreeEdge_evolves.
  apply setTreeEdge_evolves.
Qed.

Lemma Tick_evolves c now : follows evolves (Tick c now).
Proof. unfold Tick. follow; [apply processGrafts_evolves|apply merkleTick_evolves]. Qed.
End evolution.

(** ** The inbound path of an admitted record *)
Section inbound.
Context `{Ed25519} `{MapOrder}.

(** The state in which an admitted record has been merged. *)
Definition merged (c : clock) (e : engine) (r : Record_) : engine :=
  set_store (set_hlc (set_gate e (Admit (c_realMs c) (gate e) r).1)
               (Observe (hlc e) (r_HLC r) (c_realMs c)))
    (ApplyExt (c_nowMs c) (store e) r).1.

(** An inbound handler up to the merge, and one whose record is refused. *)
Lemma inbound_merged {B} c r e (k : bool * bool * bool -> M B) (m : M B) :
  (Admit (c_realMs c) (gate e) r).2 = None ->
  (ok ← gateAdmit c r; if negb ok then m else observe c (r_HLC r) ;; res ← applyExt c r; k res) e
  = k (ApplyExt (c_nowMs c) (store e) r).2 (merged c e r).
Proof.
  intros Hadm. unfold mbind, M_bind, gateAdmit, observe, applyExt, modify, merged.
  destruct (Admit _ _ _) as [g err]. simpl in Hadm. subst err.
  rewrite bool_decide_eq_true_2 by done. cbn [negb set_gate set_hlc hlc store fst snd].
  destruct (ApplyExt _ _ _) as [s res]. cbn [fst snd]. by destruct (k res _) as [[? ?] ?].
Qed.

Lemma inbound_refused {B} c r e (k : M B) (m : M B) :
  (Admit (c_realMs c) (gate e) r).2 <> None ->
  (ok ← gateAdmit c r; if negb ok then m else k) e =
  m (set_gate e (Admit (c_realMs c) (gate e) r).1).
Proof.
  intros Hadm. unfold mbind, M_bind, gateAdmit. destruct (Admit _ _ _) as [g err].
  rewrite bool_decide_eq_false_2 by done. cbn [negb fst].
  by destruct (m (set_gate e g)) as [[? ?] ?].
Qed.

(** [Apply] is [ApplyExt] without the third result. *)
Lemma run_apply {B} c r (k : bool * bool -> M B) e :
  (res ← Engine.apply c r; k res) e = (res ← applyExt c r; k res.1) e.
Proof.
  unfold Engine.apply, mbind, M_bind, mret, M_ret.
  destruct (applyExt c r e) as [[e1 o1] [[ap re] ac]]. simpl.
  destruct (k (ap, re) e1) as [[e2 o2] b]. by rewrite app_nil_r.
Qed.
End inbound.
