(* ===== verification/EngineBounds.v ===== *)
(** * Resource bounds of the engine: lemmas

    The tree edges and the pending announcements a peer can make a node hold, through
    every handler. *)
From S2P Require Import Prelude Types Crypto Hlc Sig Crdt Gate Peer Codec Engine Merkle.
From S2P Require Import EngineLemmas.

(** ** Tree edges *)

Definition isEdge (pt : peerTable) (id : NodeID) : bool :=
  match ctxBy pt !! id with Some p => isTreeEdge p | None => false end.

Section edges.
Context `{MapOrder}.
Implicit Types (pt : peerTable).

Lemma elem_of_TreeEdges_isEdge pt id : id ∈ TreeEdges pt <-> isEdge pt id = true.
Proof.
  rewrite elem_of_TreeEdges. unfold isEdge. destruct (ctxBy pt !! id) as [p|]; [naive_solver|].
  split; [by intros (? & ? & _)|done].
Qed.

Lemma NoDup_TreeEdges pt : NoDup (TreeEdges pt).
Proof.
  pose proof (NoDup_map_order_fst (ctxBy pt)) as Hn. unfold TreeEdges.
  induction (map_order (ctxBy pt)) as [|x l IH]; [constructor|].
  apply NoDup_cons in Hn as [Hx Hn]. simpl. destruct (isTreeEdge x.2); [|auto].
  simpl. constructor; [|auto]. contradict Hx.
  apply list_elem_of_fmap in Hx as (y & Hy & Hin). apply list_elem_of_fmap. exists y.
  split; [done|]. apply list_elem_of_In in Hin. apply filter_In in Hin as [Hin _].
  by apply list_elem_of_In.
Qed.

(** A table whose edges are all old ones or listed. *)
Lemma TreeEdges_le pt pt' extra :
  (forall id, isEdge pt' id = true -> id ∈ extra \/ isEdge pt id = true) ->
  len (TreeEdges pt') <= len extra + len (TreeEdges pt).
Proof.
  intros Hsub. unfold len. rewrite <- Nat2Z.inj_add, <- length_app.
  apply Nat2Z.inj_le, submseteq_length, NoDup_submseteq; [apply NoDup_TreeEdges|].
  intros id. rewrite elem_of_app, !elem_of_TreeEdges_isEdge. apply Hsub.
Qed.

Lemma isEdge_Ensure pt id id' : isEdge (Ensure pt id).1 id' = isEdge pt id'.
Proof.
  unfold Ensure, isEdge. destruct (ctxBy pt !! id) as [p|] eqn:E; [done|]. simpl.
  rewrite lookup_insert. case_decide; subst; [by rewrite E|done].
Qed.

Lemma isEdge_SetTreeEdge pt id b id' :
  isEdge (SetTreeEdge pt id b) id' = if decide (id = id') then b else isEdge pt id'.
Proof.
  unfold SetTreeEdge. pose proof (isEdge_Ensure pt id id') as E.
  destruct (Ensure pt id) as [pt1 p]. simpl in E. unfold isEdge at 1.
  rewrite lookup_put_peer. case_decide; [done|exact E].
Qed.

(** The queue and the bucket leave the edges alone. *)
Lemma isEdge_EnqueueLazy now pt id x age id' :
  isEdge (EnqueueLazy now pt id x age).1 id' = isEdge pt id'.
Proof.
  unfold EnqueueLazy. pose proof (isEdge_Ensure pt id id') as E.
  destruct (Ensure_spec pt id) as (Hp & Hctx & _).
  destruct (Ensure pt id) as [pt1 p]. simpl in *. rewrite <- E.
  assert (Hl : ctxBy pt1 !! id = Some p) by (rewrite Hctx, Hp; apply lookup_insert_eq).
  destruct (age >? 0); destruct (_ && _)%bool; simpl; unfold isEdge; rewrite lookup_put_peer;
    case_decide; subst; by rewrite ?Hl.
Qed.

Lemma isEdge_ConsumeTokens now pt id cost id' :
  isEdge (ConsumeTokens now pt id cost).1 id' = isEdge pt id'.
Proof.
  unfold ConsumeTokens. destruct (cost <=? 0); [done|].
  pose proof (isEdge_Ensure pt id id') as E. destruct (Ensure_spec pt id) as (Hp & Hctx & _).
  destruct (Ensure pt id) as [pt1 p]. simpl in *. rewrite <- E.
  assert (Hl : ctxBy pt1 !! id = Some p) by (rewrite Hctx, Hp; apply lookup_insert_eq).
  destruct (_ =? 0); [done|]. cbv zeta.
  repeat match goal with
  | |- context [match lastRefill p with _ => _ end] => destruct (lastRefill p)
  | |- context [if ?b then _ else _] => destruct b
  end; simpl; unfold isEdge; rewrite lookup_put_peer; case_decide; subst; by rewrite ?Hl.
Qed.

Lemma isEdge_Remove pt id id' : isEdge (Remove pt id) id' = true -> isEdge pt id' = true.
Proof.
  unfold isEdge, Remove. simpl. rewrite lookup_delete. by case_decide.
Qed.
End edges.

(** ** The bounded engine *)

(** A rule for loops that may use that the element is one of the list. *)
Lemma follows_forEach_elem (R : engine -> engine -> Prop) `{!PreOrder R} {A} (l : list A) body :
  (forall x, x ∈ l -> follows R (body x)) -> follows R (forEach l body).
Proof.
  induction l as [|x l IH]; intros Hb; simpl; [by apply follows_skip|].
  apply follows_bind; [done|apply Hb; left|]. intros _. apply IH. intros y Hy.
  apply Hb. by right.
Qed.

Section bounds.
Context `{Sha256} `{Ed25519} `{Proto} `{MapOrder}.

Record bounded (e : engine) : Prop := {
  bd_edges : len (TreeEdges (peers e)) <= maxTreeEdges e;
  bd_ihaves : mlen (missingIHaves e) <= maxIHaves e
}.

(** The bounds are kept, and with them the settings. *)
Definition keeps (e e' : engine) : Prop :=
  treeDeg e' = treeDeg e /\ maxIHaves e' = maxIHaves e /\ (bounded e -> bounded e').

#[export] Instance keeps_preorder : PreOrder keeps.
Proof.
  split.
  - intros e. by split_and!.
  - intros e1 e2 e3 (Ha & Hb & Hc) (Ha' & Hb' & Hc'). split_and!; [congruence..|auto].
Qed.

(** Steps that touch neither table, or only shrink them. *)
Lemma keeps_shrink e e' :
  treeDeg e' = treeDeg e -> maxIHaves e' = maxIHaves e ->
  (forall id, isEdge (peers e') id = true -> isEdge (peers e) id = true) ->
  mlen (missingIHaves e') <= mlen (missingIHaves e) -> keeps e e'.
Proof.
  intros Hd Hm He Hi. split_and!; [done..|]. intros [H1' H2']. split.
  - pose proof (TreeEdges_le (peers e) (peers e') [] ltac:(auto)) as Hl.
    unfold maxTreeEdges in *. rewrite Hd. change (len (@nil NodeID)) with 0 in Hl. lia.
  - lia.
Qed.

Lemma keeps_same e e' :
  treeDeg e' = treeDeg e -> maxIHaves e' = maxIHaves e ->
  peers e' = peers e -> missingIHaves e' = missingIHaves e -> keeps e e'.
Proof. intros ? ? Hp Hm. apply keeps_shrink; rewrite ?Hp, ?Hm; done. Qed.

Lemma enqueueLazy_keeps c p x a : follows keeps (enqueueLazy c p x a).
Proof.
  intros e. unfold enqueueLazy.
  pose proof (isEdge_EnqueueLazy (c_now c) (peers e) p x a) as E.
  destruct (EnqueueLazy _ _ _ _ _) as [pt ok]. apply keeps_shrink; try done.
  intros id. simpl in *. by rewrite E.
Qed.

Lemma consumeTokens_keeps c p n : follows keeps (consumeTokens c p n).
Proof.
  intros e. unfold consumeTokens.
  pose proof (isEdge_ConsumeTokens (c_now c) (peers e) p n) as E.
  destruct (ConsumeTokens _ _ _ _) as [pt ok]. apply keeps_shrink; try done.
  intros id. simpl in *. by rewrite E.
Qed.

Lemma setTreeEdge_off_keeps id : follows keeps (setTreeEdge id false).
Proof.
  apply follows_modify. intros e. apply keeps_shrink; try done.
  intros id'. simpl. rewrite isEdge_SetTreeEdge. by case_decide.
Qed.

Lemma promote_keeps from : follows keeps (promoteTreeEdgeBounded from).
Proof.
  intros e. unfold promoteTreeEdgeBounded. rewrite run_gets.
  destruct (bool_decide _); [reflexivity|]. rewrite !run_gets.
  destruct (len (TreeEdges (peers e)) >=? maxTreeEdges e) eqn:E; [reflexivity|].
  split_and!; [done..|]. intros [H1' H2']. split; [|done].
  pose proof (TreeEdges_le (peers e) (SetTreeEdge (peers e) from true) [from]) as Hl.
  ospecialize (Hl _).
  { intros id. rewrite isEdge_SetTreeEdge. case_decide; [subst; left; left|by right]. }
  change (len [from]) with 1 in Hl. unfold maxTreeEdges in *. simpl. lia.
Qed.

Lemma run_setTreeEdge {B} id b (k : M B) e :
  (setTreeEdge id b ;; k) e = k (set_peers e (SetTreeEdge (peers e) id b)).
Proof. apply run_modify. Qed.

(** Promoting a list of peers. *)
Lemma promote_all l e :
  let e' := (forEach l (fun id => setTreeEdge id true) e).1.1 in
  treeDeg e' = treeDeg e /\ maxIHaves e' = maxIHaves e /\
  missingIHaves e' = missingIHaves e /\
  (forall id, isEdge (peers e') id = true -> id ∈ l \/ isEdge (peers e) id = true).
Proof.
  revert e. induction l as [|x l IH]; intros e; [by split_and!; auto|].
  cbn [forEach]. cbv zeta. rewrite run_setTreeEdge.
  destruct (IH (set_peers e (SetTreeEdge (peers e) x true))) as (Ha & Hb & Hc & Hd).
  split_and!; [exact Ha|exact Hb|exact Hc|]. intros id Hid.
  destruct (Hd id Hid) as [?|He]; [left; by right|]. simpl in He.
  rewrite isEdge_SetTreeEdge in He. case_decide; [subst; left; left|by right].
Qed.

Lemma bestTreeEdges_keeps : follows keeps bestTreeEdges.
Proof.
  intros e. unfold bestTreeEdges. rewrite !run_gets.
  destruct (len (TreeEdges (peers e)) >=? treeDeg e) eqn:E; [reflexivity|].
  rewrite !run_gets. set (l := take _ _).
  assert (Hl : len l <= treeDeg e - len (TreeEdges (peers e))).
  { unfold l, len at 1. rewrite length_take. lia. }
  destruct (promote_all l e) as (Ha & Hb & Hc & Hd).
  destruct (forEach l _ e) as [[e2 o2] u] eqn:Er. rewrite (run_bind _ _ _ _ _ _ Er).
  simpl in *. split_and!; [done..|]. intros [H1' H2']. split; [|by rewrite Hb, Hc].
  pose proof (TreeEdges_le (peers e) (peers e2) l Hd) as Hle. unfold maxTreeEdges. rewrite Ha.
  assert (0 <= len (TreeEdges (peers e))) by (unfold len; lia). lia.
Qed.

(** Handlers that leave both tables alone. *)
Lemma modify_keeps f :
  (forall e, treeDeg (f e) = treeDeg e /\ maxIHaves (f e) = maxIHaves e /\
             peers (f e) = peers e /\ mlen (missingIHaves (f e)) <= mlen (missingIHaves e)) ->
  follows keeps (modify f).
Proof.
  intros Hf. apply follows_modify. intros e. destruct (Hf e) as (Hd & Hm & Hp & Hi).
  apply keeps_shrink; try done. by rewrite Hp.
Qed.

Lemma gateAdmit_keeps c r : follows keeps (gateAdmit c r).
Proof. intros e. unfold gateAdmit. destruct (Admit _ _ _). by apply keeps_same. Qed.

Lemma applyExt_keeps c r : follows keeps (applyExt c r).
Proof. intros e. unfold applyExt. destruct (ApplyExt _ _ _). by apply keeps_same. Qed.

Ltac keep :=
  follow; try first
    [ apply setTreeEdge_off_keeps | apply enqueueLazy_keeps | apply consumeTokens_keeps
    | apply gateAdmit_keeps | apply applyExt_keeps | apply bestTreeEdges_keeps
    | apply promote_keeps
    | match goal with |- follows _ (modify _) => idtac end;
      solve [apply modify_keeps; intros ?; split_and!; simpl;
             first [done | apply mlen_delete_le]] ].

Lemma lazyPush_keeps c r : follows keeps (lazyPushToNonTreeEdges c r).
Proof. unfold lazyPushToNonTreeEdges, lazyPushTo. keep. Qed.

Lemma handleEager_keeps c from rec ttl : follows keeps (handleEager c from rec ttl).
Proof.
  unfold handleEager, observe, sendPrune, eagerForward. keep; apply lazyPush_keeps.
Qed.

Lemma handleIHave_keeps c from t n h b k : follows keeps (handleIHave c from t n h b k).
Proof.
  unfold handleIHave. keep. apply follows_modify. intros e.
  destruct (missingIHaves e !! _) eqn:El; [reflexivity|].
  destruct (_ >=? _) eqn:E; [reflexivity|]. split_and!; [done..|]. intros [H1' H2'].
  split; [done|]. simpl. rewrite mlen_insert, El. lia.
Qed.

Lemma handleGraft_keeps from t n k : follows keeps (handleGraft from t n k).
Proof. unfold handleGraft. keep. Qed.

(** Grafting only rewrites or drops entries. *)
Lemma processGrafts_keeps now : follows keeps (processGrafts now).
Proof.
  intros e. unfold processGrafts. rewrite run_gets.
  set (R := fun e1 e2 => treeDeg e2 = treeDeg e1 /\ maxIHaves e2 = maxIHaves e1 /\
    peers e2 = peers e1 /\
    (dom (missingIHaves e1) ⊆ dom (missingIHaves e) ->
     dom (missingIHaves e2) ⊆ dom (missingIHaves e))).
  assert (PreOrder R).
  { split; [by intros ?|]. intros e1 e2 e3 (?&?&?&?) (?&?&?&?). split_and!; [congruence..|auto]. }
  assert (Hf : follows R (forEach (map_order (missingIHaves e)) (processGraft now))).
  { apply follows_forEach_elem; [apply _|]. intros [k x] Hk%elem_of_map_order.
    apply elem_of_dom_2 in Hk. unfold processGraft.
    follow; apply follows_modify; intros e1; split_and!; try done; simpl; set_solver. }
  destruct (Hf e) as (Ha & Hb & Hc & Hd). apply keeps_shrink; [done..|by rewrite Hc|].
  unfold mlen. rewrite <- !size_dom. apply Nat2Z.inj_le, subseteq_size. by apply Hd.
Qed.

Lemma sendProbe_keeps to t s x : follows keeps (sendProbe to t s x).
Proof. unfold sendProbe. keep. Qed.

Lemma ReceiveFrame_keeps c from raw : follows keeps (ReceiveFrame c from raw).
Proof.
  unfold ReceiveFrame, HandleProbe, reciprocalProbe, sendRange, HandleRange,
    handleRangeRecord, handlePrune, Engine.apply, observe.
  keep; auto using handleEager_keeps, handleIHave_keeps, handleGraft_keeps,
    sendProbe_keeps.
Qed.

Lemma Tick_keeps c now : follows keeps (Tick c now).
Proof.
  unfold Tick, merkleTick, tickTopic. keep; auto using processGrafts_keeps, sendProbe_keeps.
Qed.

Lemma Broadcast_keeps c r : follows keeps (Broadcast c r).
Proof. unfold Broadcast, eagerPushToTreeEdges. keep. apply lazyPush_keeps. Qed.

Lemma plumPublish_keeps c r : follows keeps (plumPublish c r).
Proof. unfold plumPublish, Engine.apply, eagerPushToTreeEdges. keep. apply lazyPush_keeps. Qed.
End bounds.
