(* ===== verification/Push.v ===== *)
(** * What a push does to the peers: lemmas

    The two halves of a push (src/plumtrees.go: bestTreeEdges, lazyPushToNonTreeEdges) as
    exact accounts: which peers become tree edges, which of the others are announced a record
    now, and what that leaves in the queue and the bucket of each. *)
From S2P Require Import Prelude Types Crypto Hlc Sig Crdt Gate Peer Codec Engine Merkle.
From S2P Require Import EngineLemmas EngineBounds.

(** ** The queue and the bucket of one peer *)

(** [EnqueueLazy] and [ConsumeTokens] as functions of the peer alone. *)
Definition enqueue (now : Z) (entry : lazyEntry) (maxAge : Z) (p : peerCtx) : peerCtx * bool :=
  let p := if maxAge >? 0 then set_queue p (pruneLazy (now - maxAge) (lazyQueue p)) else p in
  if (BackpressureMax (p_cfg p) >? 0) && (len (lazyQueue p) >=? BackpressureMax (p_cfg p))
  then (p, false)
  else (set_queue p (lazyQueue p ++ [mkLazy (l_topic entry) (l_nodeID entry) (l_hlc entry)
                                       (l_bodyHash entry) now]), true).

Definition refilled (now cap : Z) (p : peerCtx) : peerCtx :=
  let p := match lastRefill p with
           | None => let t := i64 (EgressTokens (p_cfg p)) in
                     set_bucket p (if t =? 0 then cap else t) (Some now)
           | Some _ => p
           end in
  let elapsed := timeSub now (default now (lastRefill p)) in
  let add := Z.quot (i64 (cap * elapsed)) Second in
  if (elapsed >? 0) && (add >? 0) then
    let t := i64 (tokens p + add) in set_bucket p (if t >? cap then cap else t) (Some now)
  else p.

Definition spend (now cost : Z) (p : peerCtx) : peerCtx * bool :=
  let cap := i64 (BandwidthCap (p_cfg p)) in
  if (cost <=? 0) || (cap =? 0) then (p, true) else
  let p := refilled now cap p in
  if tokens p <? cost then (p, false)
  else (set_bucket p (i64 (tokens p - cost)) (lastRefill p), true).

(** An announcement of [r], of so many bytes, to a peer: the peer afterwards, and whether the
    frame goes out. *)
Definition offer `{Sha256} (now : Z) (r : Record_) (size : Z) (p : peerCtx) : peerCtx * bool :=
  let interval := if AdaptiveInterval (p_cfg p) <=? 0 then Second else AdaptiveInterval (p_cfg p) in
  let '(p, queued) :=
    enqueue now (mkLazy (r_Topic r) (r_NodeID r) (r_HLC r) (bodyHash r) 0) interval p in
  if queued then spend now size p else (p, false).

(** Only this peer changes, as the function says. *)
Definition changes (id : NodeID) (p : peerCtx) (pt pt' : peerTable) : Prop :=
  (forall q, peerOf pt' q = if decide (q = id) then p else peerOf pt q) /\ configFn pt' = configFn pt.

Lemma changes_put pt0 pt id p :
  changes id (peerOf pt0 id) pt0 pt -> changes id p pt0 (put_peer pt id p).
Proof.
  intros [Hp Hc]. split; [|done]. intros q. rewrite peerOf_put.
  destruct (decide (id = q)) as [<-|Hne]; [by rewrite decide_True|].
  by rewrite Hp, decide_False, decide_False by congruence.
Qed.

Lemma changes_Ensure pt id :
  (Ensure pt id).2 = peerOf pt id /\ changes id (peerOf pt id) pt (Ensure pt id).1.
Proof.
  destruct (Ensure_spec pt id) as (Hp & _ & Hc). split; [done|]. split; [|done].
  intros q. rewrite peerOf_Ensure. by case_decide; subst.
Qed.

Lemma EnqueueLazy_changes now pt id entry maxAge :
  let '(pt', ok) := EnqueueLazy now pt id entry maxAge in
  changes id (enqueue now entry maxAge (peerOf pt id)).1 pt pt' /\
  ok = (enqueue now entry maxAge (peerOf pt id)).2.
Proof.
  unfold EnqueueLazy, enqueue. destruct (changes_Ensure pt id) as [Hp Hc].
  destruct (Ensure pt id) as [pt1 p]. cbn [fst snd] in Hp, Hc. subst p. cbv zeta.
  destruct (_ && _)%bool; (split; [by apply changes_put|done]).
Qed.

Lemma ConsumeTokens_changes now pt id cost :
  let '(pt', ok) := ConsumeTokens now pt id cost in
  changes id (spend now cost (peerOf pt id)).1 pt pt' /\ ok = (spend now cost (peerOf pt id)).2.
Proof.
  unfold ConsumeTokens, spend. destruct (cost <=? 0); cbn [orb].
  { split; [|done]. split; [|done]. intros q. by case_decide; subst. }
  destruct (changes_Ensure pt id) as [Hp Hc].
  destruct (Ensure pt id) as [pt1 p]. cbn [fst snd] in Hp, Hc. subst p. cbv zeta.
  destruct (_ =? 0); [done|]. unfold refilled. cbv zeta.
  set (p0 := match lastRefill (peerOf pt id) with None => _ | Some _ => _ end).
  destruct (_ >? 0); cbn [andb];
    [destruct (_ >? 0)|]; (destruct (_ <? cost); (split; [by apply changes_put|done])).
Qed.

Lemma Snapshot_peerOf pt id : Snapshot pt id = p_cfg (peerOf pt id).
Proof. unfold Snapshot, peerOf. by destruct (ctxBy pt !! id). Qed.

Lemma isEdge_peerOf pt id : isEdge pt id = isTreeEdge (peerOf pt id).
Proof. unfold isEdge, peerOf. by destruct (ctxBy pt !! id). Qed.

(** ** The lazy half *)
Section lazy.
Context `{Sha256} `{Ed25519} `{Proto} `{MapOrder}.

Definition ihaveFrame (r : Record_) : option bytes :=
  encodeFrame (frameIHave (r_Topic r) (r_NodeID r) (r_Key r) (r_HLC r) (bodyHash r)).

(** The announcements to these peers, and the peers afterwards. *)
Definition lazySends (now : Z) (r : Record_) (frame : bytes) (pt : peerTable) (l : list NodeID)
    : list effect :=
  (fun q => Send q frame) <$>
    List.filter (fun q => (offer now r (len frame) (peerOf pt q)).2) l.

Definition offered (now : Z) (r : Record_) (frame : bytes) (pt : peerTable) (l : list NodeID)
    (q : NodeID) : peerCtx :=
  if bool_decide (q ∈ l) then (offer now r (len frame) (peerOf pt q)).1 else peerOf pt q.

Lemma lazyPushTo_run c r frame q e :
  let '(e', out, _) := lazyPushTo c r frame q e in
  e' = set_peers e (peers e') /\
  changes q (offer (c_now c) r (len frame) (peerOf (peers e) q)).1 (peers e) (peers e') /\
  out = if (offer (c_now c) r (len frame) (peerOf (peers e) q)).2 then [Send q frame] else [].
Proof.
  unfold lazyPushTo, offer. rewrite run_gets, Snapshot_peerOf. cbv zeta.
  set (interval := if _ <=? 0 then _ else _). set (entry := mkLazy _ _ _ _ _).
  pose proof (EnqueueLazy_changes (c_now c) (peers e) q entry interval) as Henq.
  assert (E1 : enqueueLazy c q entry interval e =
    (set_peers e (EnqueueLazy (c_now c) (peers e) q entry interval).1, [],
     (EnqueueLazy (c_now c) (peers e) q entry interval).2)).
  { unfold enqueueLazy. by destruct (EnqueueLazy _ _ _ _ _). }
  rewrite (run_bind _ _ _ _ _ _ E1). clear E1.
  destruct (EnqueueLazy (c_now c) (peers e) q entry interval) as [pt1 ok]. cbn [fst snd].
  destruct (enqueue _ _ _ _) as [p1 ok']. cbn [fst snd] in Henq. destruct Henq as [Hc1 ->].
  destruct ok'; cbn [negb app]; [|done].
  pose proof (ConsumeTokens_changes (c_now c) pt1 q (len frame)) as Hspend.
  rewrite (proj1 Hc1 q), decide_True in Hspend by done.
  assert (E2 : consumeTokens c q (len frame) (set_peers e pt1) =
    (set_peers e (ConsumeTokens (c_now c) pt1 q (len frame)).1, [],
     (ConsumeTokens (c_now c) pt1 q (len frame)).2)).
  { unfold consumeTokens. by destruct (ConsumeTokens _ _ _ _). }
  rewrite (run_bind _ _ _ _ _ _ E2). clear E2.
  destruct (ConsumeTokens (c_now c) pt1 q (len frame)) as [pt2 ok]. cbn [fst snd].
  destruct (spend _ _ p1) as [p2 ok']. cbn [fst snd] in Hspend. destruct Hspend as [Hc2 ->].
  assert (Hc : changes q p2 (peers e) pt2).
  { split; [|by rewrite (proj2 Hc2), (proj2 Hc1)]. intros x. rewrite (proj1 Hc2), (proj1 Hc1).
    by case_decide. }
  by destruct ok'.
Qed.

Lemma lazyPushTo_all c r frame l e :
  NoDup l ->
  let '(e', out, _) := forEach l (lazyPushTo c r frame) e in
  e' = set_peers e (peers e') /\ out = lazySends (c_now c) r frame (peers e) l /\
  forall q, peerOf (peers e') q = offered (c_now c) r frame (peers e) l q.
Proof.
  intros Hnd. revert e. induction Hnd as [|p l Hp Hnd IH]; intros e; cbn [forEach].
  { split; [by destruct e|]. split; [done|]. intros q. unfold offered.
    by rewrite bool_decide_false by apply not_elem_of_nil. }
  pose proof (lazyPushTo_run c r frame p e) as Henq.
  destruct (lazyPushTo c r frame p e) as [[e1 o1] u] eqn:E1. destruct Henq as (He1 & [Hc _] & ->).
  rewrite (run_bind _ _ _ _ _ _ E1). specialize (IH e1).
  destruct (forEach l _ e1) as [[e2 o2] u2]. destruct IH as (He2 & -> & Hq). cbn [fst snd].
  split; [by rewrite He2, He1|].
  assert (Hsame : forall q, q ∈ l -> peerOf (peers e1) q = peerOf (peers e) q).
  { intros q Hin. rewrite Hc, decide_False; [done|]. by intros ->. }
  split.
  - unfold lazySends. cbn [List.filter].
    replace (List.filter _ l) with
      (List.filter (fun q => (offer (c_now c) r (len frame) (peerOf (peers e) q)).2) l).
    { by destruct (offer _ _ _ (peerOf (peers e) p)).2. }
    clear - Hsame. induction l as [|q l IH]; [done|]. cbn [List.filter].
    rewrite (Hsame q) by left. rewrite IH; [done|]. intros x Hx. apply Hsame. by right.
  - intros q. rewrite Hq. unfold offered. destruct (decide (q = p)) as [->|Hne].
    + rewrite bool_decide_false, bool_decide_true by (done || left). by rewrite Hc, decide_True.
    + rewrite Hc, decide_False by done. do 2 case_bool_decide; set_solver.
Qed.

(** What [lazyPushToNonTreeEdges] sends, and what it leaves of a peer. *)
Definition lazyFrames (c : clock) (r : Record_) (paused : bool) (pt : peerTable) : list effect :=
  if paused then [] else
  match ihaveFrame r with
  | Some frame => lazySends (c_now c) r frame pt (NonTreeEdges pt)
  | None => []
  end.

Definition lazyPeer (c : clock) (r : Record_) (paused : bool) (pt : peerTable) (q : NodeID) : peerCtx :=
  if paused then peerOf pt q else
  match ihaveFrame r with
  | Some frame => offered (c_now c) r frame pt (NonTreeEdges pt) q
  | None => peerOf pt q
  end.

Lemma elem_of_lazyFrames c r paused pt x :
  x ∈ lazyFrames c r paused pt ->
  exists q f, x = Send q f /\ isEdge pt q = false /\ ihaveFrame r = Some f.
Proof.
  unfold lazyFrames. destruct paused; [by intros ?%elem_of_nil|].
  destruct (ihaveFrame r) as [f|]; [|by intros ?%elem_of_nil].
  intros (q & -> & Hq)%list_elem_of_fmap. exists q, f. split; [done|]. split; [|done].
  apply list_elem_of_In, filter_In in Hq as [Hq _]. apply list_elem_of_In in Hq.
  apply elem_of_NonTreeEdges in Hq as (p & Hp & He). unfold isEdge. by rewrite Hp.
Qed.

Lemma offer_edge now r size p : isTreeEdge (offer now r size p).1 = isTreeEdge p.
Proof.
  unfold offer, enqueue. cbv zeta. destruct (_ >? 0); destruct (_ && _)%bool; try done;
    unfold spend, refilled; cbv zeta;
    repeat match goal with
    | |- context [match lastRefill ?p with _ => _ end] => destruct (lastRefill p)
    | |- context [if ?b then _ else _] => destruct b
    end; done.
Qed.

(** Announcements leave the tree edges alone. *)
Lemma isEdge_lazyPeer c r paused pt q : isTreeEdge (lazyPeer c r paused pt q) = isEdge pt q.
Proof.
  rewrite isEdge_peerOf. unfold lazyPeer, offered. destruct paused; [done|].
  destruct (ihaveFrame r); [|done]. case_bool_decide; [apply offer_edge|done].
Qed.

Lemma NoDup_NonTreeEdges pt : NoDup (NonTreeEdges pt).
Proof. apply NoDup_fmap_filter, NoDup_map_order_fst. Qed.

Lemma lazyPush_run c r e :
  let '(e', out, _) := lazyPushToNonTreeEdges c r e in
  e' = set_peers e (peers e') /\ out = lazyFrames c r (plumPaused e) (peers e) /\
  forall q, peerOf (peers e') q = lazyPeer c r (plumPaused e) (peers e) q.
Proof.
  unfold lazyPushToNonTreeEdges, lazyFrames, lazyPeer, ihaveFrame, whenEncoded. rewrite run_gets.
  destruct (plumPaused e); [split; [by destruct e|done]|].
  destruct (encodeFrame _) as [frame|]; [|split; [by destruct e|done]].
  rewrite run_gets. apply lazyPushTo_all, NoDup_NonTreeEdges.
Qed.

(** ** The eager half *)

(** The table after [promoteTreeEdgeBounded]. *)
Definition promoteOne (max : Z) (pt : peerTable) (from : NodeID) : peerTable :=
  if isEdge pt from || (max <=? len (TreeEdges pt)) then pt else SetTreeEdge pt from true.

Lemma promote_run from e :
  promoteTreeEdgeBounded from e =
    (set_peers e (promoteOne (maxTreeEdges e) (peers e) from), [], ()).
Proof.
  unfold promoteTreeEdgeBounded, promoteOne. rewrite run_gets.
  rewrite (bool_decide_ext _ (isEdge (peers e) from = true)) by apply elem_of_TreeEdges_isEdge.
  rewrite <- Z.geb_leb. destruct (isEdge (peers e) from); cbn [orb].
  { rewrite bool_decide_true by done. by destruct e. }
  rewrite bool_decide_false by done. rewrite !run_gets. destruct (_ >=? _); [by destruct e|done].
Qed.

Lemma promoteOne_edges max pt from :
  (forall id, isEdge (promoteOne max pt from) id = isEdge pt id \/ id = from) /\
  (isEdge (promoteOne max pt from) from = true \/ max <= len (TreeEdges pt)).
Proof.
  unfold promoteOne. destruct (isEdge pt from) eqn:Ee; cbn [orb]; [auto|].
  destruct (max <=? len (TreeEdges pt)) eqn:El; [bool_to_prop; auto|].
  split; [intros id; rewrite isEdge_SetTreeEdge; case_decide; auto|left].
  by rewrite isEdge_SetTreeEdge, decide_True.
Qed.

(** [pt'] is [pt] with the best of its peers promoted until there are [deg] tree edges: those
    there are stay, the highest priority classes come first and equal ones by name, and
    nothing else of a peer changes. *)
Record promoted (deg : Z) (pt pt' : peerTable) : Prop := {
  pr_rest : forall q, peerOf pt' q = set_edge (peerOf pt q) (isEdge pt' q);
  pr_dom : dom (ctxBy pt') = dom (ctxBy pt);
  pr_keeps : forall q, isEdge pt q = true -> isEdge pt' q = true;
  pr_count : len (TreeEdges pt') = Z.max (len (TreeEdges pt)) (Z.min deg (mlen (ctxBy pt)));
  pr_best : forall p q, isEdge pt p = false -> isEdge pt' p = true ->
    q ∈ dom (ctxBy pt) -> isEdge pt' q = false ->
    lessPeer (PriorityClass (p_cfg (peerOf pt p)), p) (PriorityClass (p_cfg (peerOf pt q)), q) = true
}.

(** Marking a list of peers as tree edges. *)
Lemma setTreeEdges_run l e :
  let '(e', out, _) := forEach l (fun id => setTreeEdge id true) e in
  e' = set_peers e (peers e') /\ out = [] /\
  (forall q, isEdge (peers e') q = bool_decide (q ∈ l) || isEdge (peers e) q) /\
  (forall q, peerOf (peers e') q = set_edge (peerOf (peers e) q) (isEdge (peers e') q)) /\
  dom (ctxBy (peers e')) = list_to_set l ∪ dom (ctxBy (peers e)).
Proof.
  revert e. induction l as [|p l IH]; intros e; cbn [forEach].
  { split_and!; [by destruct e|done| | |set_solver]; intros q.
    - by rewrite bool_decide_false by apply not_elem_of_nil.
    - rewrite isEdge_peerOf. by destruct (peerOf (peers e) q). }
  rewrite run_setTreeEdge. set (e1 := set_peers e _). specialize (IH e1).
  destruct (forEach l _ e1) as [[e2 o2] u]. destruct IH as (He2 & -> & Hedge & Hrest & Hdom).
  assert (Hp1 : forall q, peerOf (peers e1) q =
    if decide (q = p) then set_edge (peerOf (peers e) p) true else peerOf (peers e) q).
  { intros q. unfold e1, SetTreeEdge. cbn [peers set_peers]. destruct (changes_Ensure (peers e) p) as [Hp Hc].
    destruct (Ensure (peers e) p) as [pt1 p1]. cbn [fst snd] in *. subst p1.
    apply (proj1 (changes_put _ _ _ (set_edge (peerOf (peers e) p) true) Hc)). }
  split_and!; [by rewrite He2|done| | |].
  - intros q. rewrite Hedge, isEdge_peerOf, Hp1, isEdge_peerOf. case_decide as Eq.
    + subst. cbn. rewrite orb_true_r, bool_decide_true by by left. done.
    + do 2 case_bool_decide; set_solver.
  - intros q. rewrite Hrest, Hp1. by case_decide; subst.
  - rewrite Hdom. unfold e1, SetTreeEdge. cbn [peers set_peers].
    destruct (Ensure_spec (peers e) p) as (_ & Hc & _).
    destruct (Ensure (peers e) p) as [pt1 p1]. cbn [fst snd ctxBy put_peer] in *.
    rewrite Hc, !dom_insert_L. set_solver.
Qed.

Lemma lessPeer_irrefl x : lessPeer x x = false.
Proof. unfold lessPeer. rewrite Z.eqb_refl. cbn. apply sltb_irrefl. Qed.
Lemma lessPeer_trans x y z : lessPeer x y = true -> lessPeer y z = true -> lessPeer x z = true.
Proof.
  unfold lessPeer. destruct (x.1 =? y.1) eqn:E1, (y.1 =? z.1) eqn:E2, (x.1 =? z.1) eqn:E3;
    cbn [negb]; bool_to_prop; try lia. apply sltb_trans.
Qed.
Lemma lessPeer_tri x y : lessPeer x y = true \/ x = y \/ lessPeer y x = true.
Proof.
  unfold lessPeer. destruct x as [c1 a], y as [c2 b]. cbn [fst snd].
  destruct (c1 =? c2) eqn:E1, (c2 =? c1) eqn:E2; cbn [negb]; bool_to_prop; try lia.
  destruct (sltb_trichotomy a b) as [?|[->|?]]; [by left| |by right; right].
  right. left. by subst.
Qed.

Lemma edges_split pt : len (TreeEdges pt) + len (NonTreeEdges pt) = mlen (ctxBy pt).
Proof.
  unfold TreeEdges, NonTreeEdges, len, mlen. rewrite !length_fmap, <- length_map_order.
  induction (map_order (ctxBy pt)) as [|x l IH]; [done|]. cbn [List.filter].
  destruct (isTreeEdge x.2); cbn [negb length] in *; lia.
Qed.

Lemma promoted_refl deg pt : deg <= len (TreeEdges pt) -> promoted deg pt pt.
Proof.
  intros Hdeg. split; try done; [|lia|intros; congruence].
  intros q. rewrite isEdge_peerOf. by destruct (peerOf pt q).
Qed.

(** The candidates for promotion, best first. *)
Definition candidates (pt : peerTable) : list NodeID :=
  sort_by (fun id => (PriorityClass (Snapshot pt id), id)) lessPeer (NonTreeEdges pt).

Lemma candidates_spec pt :
  candidates pt ≡ₚ NonTreeEdges pt /\ NoDup (candidates pt) /\
  (forall q, q ∈ candidates pt <-> q ∈ dom (ctxBy pt) /\ isEdge pt q = false) /\
  StronglySorted (fun x y => lessPeer (PriorityClass (Snapshot pt x), x)
                               (PriorityClass (Snapshot pt y), y) = true) (candidates pt).
Proof.
  unfold candidates. set (key := fun id : NodeID => _).
  assert (Hall : sort_by key lessPeer (NonTreeEdges pt) ≡ₚ NonTreeEdges pt) by apply sort_by_perm.
  split; [done|]. split; [rewrite Hall; apply NoDup_NonTreeEdges|]. split.
  - intros q. rewrite Hall, elem_of_NonTreeEdges, elem_of_dom. unfold isEdge.
    destruct (ctxBy pt !! q); naive_solver.
  - apply (sort_by_strict key lessPeer lessPeer_irrefl lessPeer_trans lessPeer_tri).
    apply NoDup_fmap_2_strong; [|apply NoDup_NonTreeEdges]. intros x y _ _ Exy. by injection Exy.
Qed.

(** [bestTreeEdges] promotes, and returns exactly the tree edges it leaves. *)
Lemma bestTreeEdges_run e :
  let '(e', out, edges) := bestTreeEdges e in
  e' = set_peers e (peers e') /\ out = [] /\ edges ≡ₚ TreeEdges (peers e') /\
  promoted (treeDeg e) (peers e) (peers e').
Proof.
  unfold bestTreeEdges. rewrite !run_gets. destruct (_ >=? _) eqn:Edeg.
  { split_and!; [by destruct e|done..|]. apply promoted_refl. lia. }
  rewrite !run_gets. set (pt := peers e). fold (candidates pt).
  destruct (candidates_spec pt) as (Hall & Hn & Hnon & Hsorted).
  set (all := candidates pt) in *. set (k := Z.to_nat _).
  pose proof (setTreeEdges_run (take k all) e) as Hs.
  destruct (forEach (take k all) _ e) as [[e1 o1] u] eqn:Ef. destruct Hs as (He1 & -> & Hedge & Hrest & Hdom).
  rewrite (run_bind _ _ _ _ _ _ Ef). cbn. fold pt in Hedge, Hrest, Hdom.
  rewrite <- (take_drop k all) in Hn, Hsorted. apply NoDup_app in Hn as (Hn1 & _).
  assert (Hchosen : forall q, q ∈ take k all -> q ∈ dom (ctxBy pt) /\ isEdge pt q = false).
  { intros q Hq. apply Hnon. rewrite <- (take_drop k all). apply elem_of_app. by left. }
  assert (Hperm : TreeEdges pt ++ take k all ≡ₚ TreeEdges (peers e1)).
  { apply NoDup_Permutation; [|apply NoDup_TreeEdges|].
    - apply NoDup_app. split_and!; [apply NoDup_TreeEdges| |done].
      intros q Ht Hq. apply elem_of_TreeEdges_isEdge in Ht. destruct (Hchosen q Hq). congruence.
    - intros q. rewrite elem_of_app, !elem_of_TreeEdges_isEdge, Hedge.
      case_bool_decide; naive_solver. }
  split_and!; [done|done|done|]. split; [done| | | |].
  - rewrite Hdom. apply set_eq. intros q. rewrite elem_of_union, elem_of_list_to_set.
    split; [|by right]. intros [Hq|?]; [by apply Hchosen|done].
  - intros q Hq. by rewrite Hedge, Hq, orb_true_r.
  - apply Permutation_length in Hperm. unfold len in *. rewrite <- Hperm, length_app, length_take.
    pose proof (edges_split pt) as Hsplit. apply Permutation_length in Hall. unfold len in Hsplit.
    unfold k, pt, len in *. bool_to_prop. lia.
  - intros p q Hp Hp' Hq Hq'. rewrite Hedge, Hp, orb_false_r in Hp'. apply bool_decide_eq_true_1 in Hp'.
    rewrite Hedge in Hq'. apply orb_false_iff in Hq' as [Hq1%bool_decide_eq_false_1 Hq2].
    rewrite <- !Snapshot_peerOf.
    refine (StronglySorted_app_1_elem_of _ _ _ p q Hsorted Hp' _).
    assert (Hin : q ∈ all) by (by apply Hnon). rewrite <- (take_drop k all) in Hin.
    apply elem_of_app in Hin as [?|?]; done.
Qed.
End lazy.
