(* ===== verification/Outbound.v ===== *)
(** * What leaves a node: lemmas

    Every frame a handler emits, with the records it carries. For any predicate [V] on
    records: through every handler, only records in [V] are sent or reported, given a store
    that was filled with such records and frames whose validly signed records are such. *)
From S2P Require Import Prelude Types Crypto Hlc Sig Crdt CrdtLemmas CrdtInv Gate Peer Codec.
From S2P Require Import Engine Merkle EngineLemmas.

(** The records a frame carries. *)
Definition frameRecords (f : Frame) : list pbRecord :=
  match f with
  | Frame_Eager (Some p) _ => [p]
  | Frame_MerkleRange _ recs _ => recs
  | _ => []
  end.

Lemma elem_of_take_list {A} (x : A) n l : x ∈ take n l -> x ∈ l.
Proof. intros (i & Hi & _)%elem_of_take. by apply list_elem_of_lookup_2 in Hi. Qed.

Section outbound.
Context `{Sha256} `{Ed25519} `{Proto} `{MapOrder} (V : Record_ -> Prop) (g0 : inboundGate).

(** Everything in the store goes back to records that [V] vouches for. *)
Definition sound (s : recordStore) : Prop :=
  exists hist, Forall (fun r => V r) hist /\
    forall t ts, byTopic s !! t = Some ts -> provenance hist s t ts.

Lemma sound_ApplyExt nowMs s r :
  sound s -> V r -> sound (ApplyExt nowMs s r).1.
Proof.
  intros (hist & Hh & Hp) Hr. exists (hist ++ [r]). split; [by apply Forall_app_2; [|constructor]|].
  intros t ts Hts. pose proof (provenance_run hist s [(nowMs, r)]) as Hrun.
  simpl in Hrun. pose proof (ApplyExt_config nowMs s r) as Hc.
  destruct (ApplyExt nowMs s r) as [s' res]. simpl in *.
  apply (provenance_mono (hist ++ [r]) _ s); [done|done|]. by apply Hrun.
Qed.

(** What the store holds with a signature is vouched for. *)
Lemma sound_slot s t k r ts :
  sound s -> byTopic s !! t = Some ts -> records ts !! k = Some r -> r_Sig r <> [] ->
  V r.
Proof.
  intros (hist & Hh & Hp) Hts Hr Hsig. destruct (Hp t ts Hts) as [Hj _].
  rewrite Forall_forall in Hh. destruct (Hj k r Hr) as [(Hin & _)|(He & _)]; [auto|].
  destruct Hsig. by rewrite He.
Qed.

Lemma sound_raw s t n y r :
  sound s -> getRawKeyed s t n y = Some r -> r_Sig r <> [] -> V r.
Proof.
  unfold getRawKeyed. intros Hs Hr. destruct (byTopic s !! t) as [ts|] eqn:E; [|done].
  by apply (sound_slot s t (mkKey n y) r ts).
Qed.

Lemma sound_where s t keep r :
  sound s -> r ∈ topicRecordsWhere s t keep -> keep r = true /\
  (r_Sig r <> [] -> V r).
Proof.
  intros Hs. unfold topicRecordsWhere.
  destruct (byTopic s !! t) as [ts|] eqn:E; [|by intros ?%not_elem_of_nil].
  rewrite elem_of_sort_by, list_elem_of_In, filter_In, <- list_elem_of_In.
  intros [Hin Hk]. split; [done|]. apply list_elem_of_fmap in Hin as ([k x] & -> & Hin).
  apply elem_of_map_order in Hin. by apply (sound_slot s t k _ ts).
Qed.

Lemma sound_range s t a b r : sound s -> r ∈ rangeRecords s t a b -> V r.
Proof.
  intros Hs. unfold rangeRecords. rewrite list_elem_of_In, filter_In, <- list_elem_of_In.
  intros [Hin _]. destruct (sound_where _ _ _ _ Hs Hin) as [Hk Hsig]. apply Hsig.
  intros He. rewrite He in Hk. done.
Qed.

Lemma sound_attestation s t a : sound s -> a ∈ topicAttestations s t -> V a.
Proof.
  intros (hist & Hh & Hp). unfold topicAttestations.
  destruct (byTopic s !! t) as [ts|] eqn:E; [|by intros ?%not_elem_of_nil].
  rewrite elem_of_sort_by, list_elem_of_join. intros (l & Ha & Hl).
  apply list_elem_of_fmap in Hl as ([n W] & -> & HW). apply elem_of_map_order in HW.
  apply list_elem_of_fmap in Ha as ([o a'] & -> & Ho). apply elem_of_map_order in Ho.
  destruct (Hp t ts E) as [_ Hw]. destruct (Hw n W o a' HW Ho) as (Hin & _).
  rewrite Forall_forall in Hh. by apply Hh.
Qed.

(** ** The handlers *)

(** The store is sound and the gate applies the policy of [g0]. *)
Definition sound_engine (e : engine) : Prop :=
  sound (store e) /\ gate_policy (gate e) = gate_policy g0.

(** A frame of vouched records, or an empty one: a push or a graft request that
    failed to encode is sent as no bytes. *)
Definition vouchedFrame (frame : bytes) : Prop :=
  frame = [] \/ exists f, encodeFrame f = Some frame /\
    Forall (fun p => V (recordFromProto p)) (frameRecords f).

Definition vouchedEffect (x : effect) : Prop :=
  match x with
  | Send _ frame => vouchedFrame frame
  | Applied r => V r
  | _ => True
  end.

Abbreviation guarded := (safe sound_engine vouchedEffect).

Lemma guarded_store_same (f : engine -> engine) :
  (forall e, store (f e) = store e /\ gate (f e) = gate e) -> guarded (modify f).
Proof.
  intros Hf. apply safe_modify. intros e. unfold sound_engine. by destruct (Hf e) as [-> ->].
Qed.

Lemma guarded_fun {A} (m : M A) :
  (forall e, store (m e).1.1 = store e /\ gate (m e).1.1 = gate e /\ (m e).1.2 = []) -> guarded m.
Proof.
  intros Hm e He. destruct (Hm e) as (Hs & Hg & Ho). unfold sound_engine. rewrite Hs, Hg, Ho.
  by split; [|constructor].
Qed.

Lemma guarded_enqueue c p x a : guarded (enqueueLazy c p x a).
Proof. apply guarded_fun. intros e. unfold enqueueLazy. by destruct (EnqueueLazy _ _ _ _ _). Qed.
Lemma guarded_consume c p n : guarded (consumeTokens c p n).
Proof. apply guarded_fun. intros e. unfold consumeTokens. by destruct (ConsumeTokens _ _ _ _). Qed.

(** Past the gate, a record satisfies its policy. *)
Lemma guarded_gate c r (m : M ()) :
  ((exists nowMs, admissible nowMs g0 r) -> guarded m) ->
  guarded (ok ← gateAdmit c r; if negb ok then skip else m).
Proof.
  intros Hm e [Hs Hg]. unfold gateAdmit, mbind, M_bind.
  pose proof (Admit_policy (c_realMs c) (gate e) r) as Hp.
  pose proof (Admit_None (c_realMs c) (gate e) r) as Hn.
  destruct (Admit (c_realMs c) (gate e) r) as [g err]. cbn [fst snd] in Hp, Hn.
  assert (He : sound_engine (set_gate e g)) by (split; [done|cbn; congruence]).
  case_bool_decide as Ee; cbn [negb].
  - destruct Hm with (e := set_gate e g) as [H1' H2']; [|done|].
    + exists (c_realMs c). apply (admissible_policy _ (gate e)); [done|]. by apply Hn.
    + destruct (m (set_gate e g)) as [[e2 o2] u]. by rewrite app_nil_l.
  - by split; [|constructor].
Qed.

Lemma guarded_applyExt c r : V r -> guarded (applyExt c r).
Proof.
  intros Hr e [He Hg]. unfold applyExt.
  pose proof (sound_ApplyExt (c_nowMs c) (store e) r He Hr) as Hs.
  destruct (ApplyExt _ _ _). by split; [|constructor].
Qed.

Lemma guarded_send p f frame :
  encodeFrame f = Some frame ->
  Forall (fun p => V (recordFromProto p)) (frameRecords f) ->
  guarded (send p frame).
Proof. intros. apply safe_emit. right. by exists f. Qed.

Lemma guarded_send_default p f :
  Forall (fun p => V (recordFromProto p)) (frameRecords f) ->
  guarded (send p (default [] (encodeFrame f))).
Proof. intros. apply safe_emit. destruct (encodeFrame f) eqn:E; [right; by exists f|by left]. Qed.

Lemma eager_vouched r ttl :
  V r ->
  Forall (fun p => V (recordFromProto p)) (frameRecords (frameEagerPush r ttl)).
Proof. intros Hr. constructor; [|constructor]. by rewrite record_roundtrip. Qed.

(** The invariant of the states a program reads, as its two parts. *)
Ltac open_states :=
  repeat match goal with Hx : sound_engine _ |- _ => destruct Hx end.

Ltac outbound :=
  guard_; open_states; try first
    [ apply guarded_enqueue | apply guarded_consume
    | match goal with |- safe _ _ (modify _) => idtac end; apply guarded_store_same; intros ?;
      by repeat case_match
    | match goal with |- safe _ _ (setTreeEdge _ _) => idtac end; by apply guarded_store_same
    | match goal with E : encodeFrame ?f = Some _ |- safe _ _ (send _ _) =>
        apply (guarded_send _ f _ E); first [by constructor | by apply eager_vouched] end ].

Lemma guarded_best : guarded bestTreeEdges.
Proof. unfold bestTreeEdges. outbound. Qed.

Lemma guarded_promote from : guarded (promoteTreeEdgeBounded from).
Proof. unfold promoteTreeEdgeBounded. outbound. Qed.

Lemma guarded_lazy c r : guarded (lazyPushToNonTreeEdges c r).
Proof. unfold lazyPushToNonTreeEdges, lazyPushTo. outbound. Qed.

Lemma guarded_eager_best from r ttl : V r ->
  guarded (whenEncoded (encodeFrame (frameEagerPush r ttl)) (fun frame =>
    edges ← bestTreeEdges;
    forEach edges (fun edge => if String.eqb edge from then skip else send edge frame))).
Proof. intros Hr. outbound. apply guarded_best. Qed.

Lemma guarded_eager_all r : V r -> guarded (eagerPushToTreeEdges r).
Proof. intros Hr. unfold eagerPushToTreeEdges. outbound. apply guarded_best. Qed.

Lemma guarded_forward from r ttl : V r -> guarded (eagerForward from r ttl).
Proof. intros Hr. unfold eagerForward. outbound. Qed.

Lemma guarded_prune to t : guarded (sendPrune to t).
Proof. unfold sendPrune. outbound. Qed.

Lemma guarded_applied r : V r -> guarded (emit (Applied r)).
Proof. intros Hr. by apply safe_emit. Qed.

Lemma guarded_broadcast c r : V r -> guarded (Broadcast c r).
Proof.
  intros Hr. unfold Broadcast. outbound; [by apply guarded_eager_all|apply guarded_lazy].
Qed.

Lemma guarded_plumPublish c r : V r -> guarded (plumPublish c r).
Proof.
  intros Hr. unfold plumPublish, Engine.apply.
  outbound; auto using guarded_applyExt, guarded_eager_all, guarded_lazy.
Qed.

(** A record off the wire that passes the signature check and the gate is vouched for. *)
Definition vouchable (p : pbRecord) : Prop :=
  wellSigned (recordFromProto p) = true ->
  (exists nowMs, admissible nowMs g0 (recordFromProto p)) -> V (recordFromProto p).

Lemma guarded_handleEager c from p ttl :
  (forall p', p = Some p' -> vouchable p') -> guarded (handleEager c from p ttl).
Proof.
  intros Hp. unfold handleEager, observe. destruct p as [p|]; [|apply safe_skip]. cbv zeta.
  destruct (wellSigned (recordFromProto p)) eqn:Hr; cbn [negb]; cbv iota; [|apply safe_skip].
  apply guarded_gate. intros Hadm. specialize (Hp p eq_refl Hr Hadm).
  outbound; auto using guarded_applyExt, guarded_best, guarded_prune, guarded_promote,
    guarded_applied, guarded_forward, guarded_lazy.
Qed.

Lemma guarded_handleIHave c from t n h b k : guarded (handleIHave c from t n h b k).
Proof. unfold handleIHave. outbound. Qed.

Lemma guarded_handleGraft from t n k : guarded (handleGraft from t n k).
Proof.
  unfold handleGraft. outbound; [apply guarded_promote|].
  apply guarded_send_default, eager_vouched. eapply sound_raw; [|eassumption|]; [eassumption|].
  intros He. by rewrite He in *.
Qed.

Lemma guarded_processGrafts now : guarded (processGrafts now).
Proof. unfold processGrafts, processGraft. outbound. by apply guarded_send_default. Qed.

Lemma guarded_sendProbe to t a b : guarded (sendProbe to t a b).
Proof. unfold sendProbe. outbound. Qed.

Lemma guarded_sendRange to t recs b :
  (forall r, r ∈ recs -> V r) -> guarded (sendRange to t recs b).
Proof.
  intros Hr. unfold sendRange. guard_. eapply guarded_send; [eassumption|].
  simpl. apply Forall_fmap, Forall_forall. intros r Hin. simpl. rewrite record_roundtrip. auto.
Qed.

Lemma guarded_handleProbe c from t a b h : guarded (HandleProbe c from t a b h).
Proof.
  unfold HandleProbe, reciprocalProbe. outbound; try apply guarded_sendProbe.
  all: apply guarded_sendRange; intros r Hr.
  all: repeat case_match; try apply elem_of_app in Hr as [Hr|Hr];
    repeat match goal with Hx : _ ∈ take _ _ |- _ => apply elem_of_take_list in Hx end;
    eauto using sound_range, sound_attestation.
Qed.

Lemma guarded_handleRange c from t recs b :
  Forall vouchable recs -> guarded (HandleRange c from t recs b).
Proof.
  intros Hall. rewrite Forall_forall in Hall.
  unfold HandleRange. outbound; try apply guarded_sendProbe.
  unfold handleRangeRecord, Engine.apply, observe. cbv zeta.
  match goal with Hin : ?p ∈ recs |- _ => specialize (Hall p Hin) end.
  destruct (wellSigned _) eqn:Hsig; cbn [negb]; cbv iota; [|apply safe_skip].
  apply guarded_gate. intros Hadm. specialize (Hall Hsig Hadm).
  outbound; auto using guarded_applyExt, guarded_applied.
Qed.

(** The frame carries only vouchable records. *)
Definition vouchableFrame (raw : bytes) : Prop :=
  forall f, decodeFrame raw = Some f -> Forall vouchable (frameRecords f).

Lemma guarded_receive c from raw : vouchableFrame raw -> guarded (ReceiveFrame c from raw).
Proof.
  intros Hraw. unfold ReceiveFrame, handlePrune.
  destruct (decodeFrame raw) as [f|] eqn:Ef; [|apply safe_ret || apply safe_skip].
  apply Hraw in Ef. destruct f; cbn [frameRecords] in Ef.
  all: outbound; auto using guarded_handleEager, guarded_handleIHave,
    guarded_handleGraft, guarded_handleProbe, guarded_handleRange.
  all: try by apply safe_emit.
  apply guarded_handleEager. intros p' ->. by apply Forall_cons in Ef as [? _].
Qed.

Lemma guarded_tick c now : guarded (Tick c now).
Proof.
  unfold Tick, merkleTick, tickTopic. outbound; [apply guarded_processGrafts|].
  apply guarded_sendProbe.
Qed.

Lemma guarded_probePeer p : guarded (merkleProbePeer p).
Proof. unfold merkleProbePeer. outbound. apply guarded_sendProbe. Qed.
End outbound.
