(* ===== verification/Node.v ===== *)
(** * The node (src/node.go)

    Construction and wiring, the lifecycle flags, local publication, tenant rebinding, and
    the background tick. A [nodeImpl] holds the engine of Engine.v; before [Wire] its
    plumtrees and Merkle engines are nil in the code, which [wired] tells. The callback
    lists for role and tenant changes are left out; so is the content layer, which is
    reached through effects. *)
From S2P Require Import Prelude Types Crypto Hlc Sig Crdt Gate Peer Codec Engine Merkle.

(** [type Config struct], the fields the model uses. *)
Record Config := mkConfig {
  NodeID_ : NodeID;
  PrivKey : bytes;
  PerPeerConfigFn : option (NodeID -> PerPeerConfig);
  MaxRecordBytes : Z;
  TreeDegree : Z;
  GraftDelay : Z;
  MerkleProbeInterval : Z;
  TrustCheck : option (Record_ -> option string);
  RequireNodeKeyBinding : bool;
  MaxClockSkew : Z;
  MaxTopics : Z;
  MaxRecordsPerTopic : Z;
  MaxKeysPerNodePerTopic : Z;
  MaxAttestationsPerTarget : Z;
  MaxPendingIHaves : Z;
  TopicTTL : option (Topic -> Z)
}.

Definition PrivateKeySize : Z := 64.

(** [type nodeImpl struct]. *)
Record nodeImpl := mkNode {
  n_cfg : Config;
  n_engine : engine;
  started : bool;
  wired : bool;
  stopped : bool;
  n_paused : bool;
  n_role : Z;
  n_tenant : string
}.

Definition set_engine (n : nodeImpl) (e : engine) : nodeImpl :=
  mkNode (n_cfg n) e (started n) (wired n) (stopped n) (n_paused n) (n_role n) (n_tenant n).

(** What a call returns: nil, an error, or a nil dereference. *)
Inductive outcome := Nil | Error (e : Err) | Panic.

Section node.
Context `{Sha256} `{Ed25519} `{Proto} `{MapOrder}.

(** [func New(cfg Config) (Node, error)]; [realMs] is the wall clock [NewHLC] reads. *)
Definition New (realMs : Z) (cfg : Config) : nodeImpl + Err :=
  if negb (len (PrivKey cfg) =? PrivateKeySize) then inr ErrInvalidConfig else
  let id := if String.eqb (NodeID_ cfg) "" then nodeIDFromPub (ed_public (PrivKey cfg))
            else NodeID_ cfg in
  let maxBody := if MaxRecordBytes cfg <=? 0 then 16384 else MaxRecordBytes cfg in
  let deg := if TreeDegree cfg <=? 0 then 4 else TreeDegree cfg in
  let cfg := mkConfig id (PrivKey cfg) (PerPeerConfigFn cfg) maxBody deg (GraftDelay cfg)
    (MerkleProbeInterval cfg) (TrustCheck cfg) (RequireNodeKeyBinding cfg) (MaxClockSkew cfg)
    (MaxTopics cfg) (MaxRecordsPerTopic cfg) (MaxKeysPerNodePerTopic cfg)
    (MaxAttestationsPerTarget cfg) (MaxPendingIHaves cfg) (TopicTTL cfg) in
  let s := setCaps newRecordStore (MaxTopics cfg) (MaxRecordsPerTopic cfg)
             (MaxKeysPerNodePerTopic cfg) (MaxAttestationsPerTarget cfg) in
  let gate0 := newInboundGate (mkGateConfig 0 0 false None) in
  inl (mkNode cfg
    (newEngine id id s (newPeerTable (PerPeerConfigFn cfg)) (NewHLC realMs) gate0 0 0 0 0)
    false false false false 0 "").

(** [func Wire(n Node, t Transport) error], with the transport's own identity and current peers. *)
Definition Wire (n : nodeImpl) (localID : NodeID) (transportPeers : list NodeID) : nodeImpl * outcome :=
  if wired n then (n, Error ErrAlreadyWired) else
  let cfg := n_cfg n in
  let g := newInboundGate (mkGateConfig (MaxRecordBytes cfg) (MaxClockSkew cfg)
             (RequireNodeKeyBinding cfg) (TrustCheck cfg)) in
  let pt := foldl (fun pt p => (Ensure pt p).1) (peers (n_engine n)) transportPeers in
  let e := newEngine (NodeID_ cfg) localID (store (n_engine n)) pt (hlc (n_engine n)) g
             (TreeDegree cfg) (GraftDelay cfg) (MaxPendingIHaves cfg) (MerkleProbeInterval cfg) in
  (mkNode cfg e (started n) true (stopped n) (n_paused n) (n_role n) (n_tenant n), Nil).

(** [func (n *nodeImpl) Start(ctx) error] up to the point where it waits. *)
Definition Start (n : nodeImpl) : nodeImpl * outcome :=
  if negb (wired n) then (n, Error ErrInvalidConfig) else
  if stopped n then (n, Error ErrStopped) else
  if started n then (n, Error ErrAlreadyStarted) else
  (mkNode (n_cfg n) (n_engine n) true (wired n) (stopped n) (n_paused n) (n_role n)
     (n_tenant n), Nil).

(** [func (n *nodeImpl) Stop() error]. *)
Definition Stop (n : nodeImpl) : nodeImpl * outcome :=
  (mkNode (n_cfg n) (n_engine n) (started n) (wired n) true (n_paused n) (n_role n)
     (n_tenant n), Nil).

(** [Pause], [Resume]: the flag and, once wired, the flags of both engines. *)
Definition setPaused (n : nodeImpl) (b : bool) : nodeImpl * outcome :=
  if Bool.eqb (n_paused n) b then (n, Nil) else
  let e := if wired n then set_paused (n_engine n) b else n_engine n in
  (mkNode (n_cfg n) e (started n) (wired n) (stopped n) b (n_role n) (n_tenant n), Nil).
Definition Pause (n : nodeImpl) : nodeImpl * outcome := setPaused n true.
Definition Resume (n : nodeImpl) : nodeImpl * outcome := setPaused n false.

(** [func (n *nodeImpl) SetRole(role Role) error]. *)
Definition SetRole (n : nodeImpl) (role : Z) : nodeImpl * outcome :=
  (mkNode (n_cfg n) (n_engine n) (started n) (wired n) (stopped n) (n_paused n) role
     (n_tenant n), Nil).

(** Runs a handler of the engine inside the node. *)
Definition onEngine {A} (n : nodeImpl) (m : M A) : nodeImpl * list effect * A :=
  let '(e, out, a) := m (n_engine n) in (set_engine n e, out, a).

(** [n.hlc.Now()]. *)
Definition hlcNow (c : clock) : M Z :=
  fun e => let '(stamp, h) := Now (hlc e) (c_realMs c) in (set_hlc e h, [], stamp).

(** A record of this node, stamped and signed. *)
Definition newRecord (c : clock) (n : nodeImpl) (topic : Topic) (node : NodeID) (key : string)
    (body : bytes) (tomb : bool) (observer : NodeID) (at_ : Z) : M Record_ :=
  stamp ← hlcNow c;
  mret (signRecord (mkRecord topic node stamp body tomb [] [] key observer at_)
          (PrivKey (n_cfg n))).

(** The tail of every owner publication: plumtrees, then the accepted-change stream. *)
Definition publishOwn (c : clock) (n : nodeImpl) (topic : Topic) (key : string)
    (body : bytes) (tomb : bool) : nodeImpl * list effect * outcome :=
  let '(n1, _, r) := onEngine n (newRecord c n topic (NodeID_ (n_cfg n)) key body tomb "" 0) in
  if negb (wired n) then (n1, [], Panic) else
  let '(n2, out, _) := onEngine n1 (plumPublish c r ;; emit (Applied r)) in
  (n2, out, Nil).

(** [func (n *nodeImpl) PublishKeyed(topic, key, body) error]. *)
Definition PublishKeyed (c : clock) (n : nodeImpl) (topic : Topic) (key : string) (body : bytes)
    : nodeImpl * list effect * outcome :=
  if stopped n then (n, [], Error ErrStopped) else
  if len body >? MaxRecordBytes (n_cfg n) then (n, [], Error ErrTooLarge) else
  if slen key >? MaxKeyBytes then (n, [], Error ErrTooLarge) else
  publishOwn c n topic key body false.

(** [func (n *nodeImpl) Publish(topic, body) error]. *)
Definition Publish (c : clock) (n : nodeImpl) (topic : Topic) (body : bytes)
    : nodeImpl * list effect * outcome := PublishKeyed c n topic "" body.

(** [func (n *nodeImpl) PublishKeyedTombstone(topic, key) error]. *)
Definition PublishKeyedTombstone (c : clock) (n : nodeImpl) (topic : Topic) (key : string)
    : nodeImpl * list effect * outcome :=
  if stopped n then (n, [], Error ErrStopped) else
  if slen key >? MaxKeyBytes then (n, [], Error ErrTooLarge) else
  publishOwn c n topic key [] true.

(** [func (n *nodeImpl) PublishTombstone(topic) error]. *)
Definition PublishTombstone (c : clock) (n : nodeImpl) (topic : Topic)
    : nodeImpl * list effect * outcome := PublishKeyedTombstone c n topic "".

(** Applies locally and reports the record when it took effect. *)
Definition applyAndReport (c : clock) (r : Record_) : M () :=
  '(applied, _) ← apply c r;
  if (applied : bool) then emit (Applied r) else skip.

(** [func (n *nodeImpl) PublishObserverTombstone(topic, target) error]. *)
Definition PublishObserverTombstone (c : clock) (n : nodeImpl) (topic : Topic) (target : NodeID)
    : nodeImpl * list effect * outcome :=
  if stopped n then (n, [], Error ErrStopped) else
  let id := NodeID_ (n_cfg n) in
  if String.eqb target "" || String.eqb target id then (n, [], Nil) else
  let '(n1, _, r) := onEngine n (newRecord c n topic target "" [] true id (c_nowMs c)) in
  let '(n2, out, _) := onEngine n1 (applyAndReport c r) in
  if negb (wired n) then (n2, out, Panic) else
  let '(n3, out2, _) := onEngine n2 (Broadcast c r) in
  (n3, out ++ out2, Nil).

(** The node's own slots, over all topics: what [SetTenant] retires. *)
Definition ownRecords (s : recordStore) (id : NodeID) : list Record_ :=
  mjoin ((fun e => (map_order (slotsOf id (records e.2))).*2) <$> map_order (byTopic s)).

(** One record of [SetTenant]. *)
Definition retire (c : clock) (n : nodeImpl) (r : Record_) : M () :=
  tomb ← newRecord c n (r_Topic r) (NodeID_ (n_cfg n)) (r_Key r) [] true "" 0;
  applyAndReport c tomb ;;
  if wired n then Broadcast c tomb else skip.

(** [func (n *nodeImpl) SetTenant(tenantID string) error]. *)
Definition SetTenant (c : clock) (n : nodeImpl) (tenantID : string)
    : nodeImpl * list effect * outcome :=
  if String.eqb (n_tenant n) tenantID then (n, [], Nil) else
  let n := mkNode (n_cfg n) (n_engine n) (started n) (wired n) (stopped n) (n_paused n)
             (n_role n) tenantID in
  let mine := ownRecords (store (n_engine n)) (NodeID_ (n_cfg n)) in
  let '(n, out, _) := onEngine n (forEach mine (retire c n)) in
  (n, out, Nil).

(** The transport callbacks [Wire] installs. *)
Definition OnReceive (c : clock) (n : nodeImpl) (from : NodeID) (frame : bytes)
    : nodeImpl * list effect :=
  if stopped n then (n, []) else (onEngine n (ReceiveFrame c from frame)).1.

Definition OnPeerJoin (n : nodeImpl) (id : NodeID) : nodeImpl :=
  set_engine n (set_peers (n_engine n) (Ensure (peers (n_engine n)) id).1).

Definition OnPeerLeave (n : nodeImpl) (id : NodeID) : nodeImpl :=
  set_engine n (set_peers (n_engine n) (Remove (peers (n_engine n)) id)).

(** [func (n *nodeImpl) ProbePeer(peer NodeID)]. *)
Definition ProbePeer (n : nodeImpl) (peer : NodeID) : nodeImpl * list effect :=
  if stopped n || negb (wired n) then (n, []) else (onEngine n (merkleProbePeer peer)).1.

(** [func (n *nodeImpl) Tick(now time.Time)] of a wired node. *)
Definition nodeTick (c : clock) (n : nodeImpl) (now : Z) : nodeImpl * list effect :=
  if negb (wired n) then (n, []) else (onEngine n (Tick c now)).1.

(** One tick of [runTickLoop] at time [t], with the time of the last sweep. *)
Definition tickLoopStep (c : clock) (n : nodeImpl) (lastReap : option Z) (t : Z)
    : nodeImpl * option Z * list effect :=
  let '(n, out) := nodeTick c n t in
  match TopicTTL (n_cfg n) with
  | Some ttl =>
      if match lastReap with None => true | Some l => timeSub t l >=? 30 * Second end then
        let s := (reapExpired (store (n_engine n)) (t / 1000000) (Some ttl)).1 in
        (set_engine n (set_store (n_engine n) s), Some t, out)
      else (n, lastReap, out)
  | None => (n, lastReap, out)
  end.

(** [func (n *nodeImpl) SetObserverRoleCheck], [SetObserverQuorum]. *)
Definition nodeSetObserverRoleCheck (n : nodeImpl) (fn : option (NodeID -> bytes -> bool))
    : nodeImpl :=
  set_engine n (set_store (n_engine n) (SetObserverRoleCheck (store (n_engine n)) fn)).
Definition nodeSetObserverQuorum (n : nodeImpl) (k w : Z) : nodeImpl :=
  set_engine n (set_store (n_engine n) (SetObserverQuorum (store (n_engine n)) k w)).
End node.
