(* ===== verification/Samples.v ===== *)
(** * Sample nodes and frames

    Small concrete nodes, records and frames, on which the examples of the properties
    evaluate: the toy digest, the toy signature scheme and the toy wire format. *)
From S2P Require Import Prelude Types Crypto Hlc Sig Crdt Gate Peer Codec Engine Merkle Node.

(** ** Sample nodes *)

(** The identities of the examples: key pair number [i] and its NodeID. *)
Definition key_of (i : Z) : bytes := ToyEd25519.key i.
Definition id_of (i : Z) : NodeID := nodeIDFromPub (drop 32 (key_of i)).

(** A node with key pair [i], key binding on and the other settings at their defaults. *)
Definition sample_config (i : Z) : Config :=
  mkConfig "" (key_of i) None 0 0 0 0 None true 0 0 0 0 0 0 None.

Section samples.
#[local] Existing Instances ToySha256.hash ToyEd25519.scheme ToyProto.codec std_order.

Definition sample_node (i : Z) (known : list NodeID) : nodeImpl :=
  match New 0 (sample_config i) with
  | inl n => (Wire n (id_of i) known).1
  | inr _ => mkNode (sample_config i) (newEngine "" "" newRecordStore (newPeerTable None) 0
               (newInboundGate (mkGateConfig 0 0 false None)) 0 0 0 0)
               false false false false 0 ""
  end.

Definition signed (i : Z) (r : Record_) : Record_ := signRecord r (key_of i).

Definition own_record (i hlc : Z) (key body : string) : Record_ :=
  signed i (mkRecord "fleet" (id_of i) hlc (toBytes body) false [] [] key "" 0).

Definition attest (i target hlc at_ : Z) : Record_ :=
  signed i (mkRecord "fleet" (id_of target) hlc [] true [] [] "" (id_of i) at_).

Definition eager (r : Record_) (ttl : Z) : bytes :=
  default [] (encodeFrame (frameEagerPush r ttl)).

Definition at_ms (ms : Z) : clock := mkClock (ms * 1000000) ms.

(** A peer's record and two attestations against it, as frames from a neighbour. *)
Definition evicted_node : nodeImpl :=
  let n := sample_node 1 [id_of 2] in
  let n := (OnReceive (at_ms 1000) n (id_of 2) (eager (own_record 3 5 "" "up") 8)).1 in
  let n := (OnReceive (at_ms 2000) n (id_of 2) (eager (attest 4 3 7 1500) 8)).1 in
  (OnReceive (at_ms 2001) n (id_of 2) (eager (attest 5 3 8 2500) 8)).1.
End samples.
