(* ===== verification/EngineSpec.v ===== *)
(** * Properties of the gossip engine

    What the inbound handlers do, branch by branch, and what leaves a node. *)
From S2P Require Import Prelude Types Crypto Hlc Sig Crdt CrdtLemmas CrdtInv Gate Peer Codec.
From S2P Require Import Engine Merkle EngineLemmas EngineBounds Push Node Samples.

(** ** Pushes *)
Section push.
Context `{Sha256} `{Ed25519} `{Proto} `{MapOrder}.

(** A frame to a list of peers, but the sender. *)
Definition sendsTo (frame : bytes) (l : list NodeID) : list effect := (fun p => Send p frame) <$> l.

Definition others (from : NodeID) (l : list NodeID) : list NodeID :=
  List.filter (fun p => negb (String.eqb p from)) l.

Lemma forEach_sends (frame : bytes) from l e :
  forEach l (fun edge => if String.eqb edge from then skip else send edge frame) e =
  (e, sendsTo frame (others from l), ()).
Proof.
  induction l as [|p l IH]; [done|]. cbn [forEach]. unfold mbind, M_bind.
  simpl. destruct (String.eqb p from); simpl; rewrite IH; done.
Qed.

(** The encoding of an eager push, or no frame at all. *)
Definition eagerFrames (r : Record_) (ttl : Z) (l : list NodeID) : list effect :=
  match encodeFrame (frameEagerPush r ttl) with
  | Some frame => sendsTo frame l
  | None => []
  end.

Lemma eagerForward_run from r ttl e :
  eagerForward from r ttl e = (e, eagerFrames r ttl (others from (TreeEdges (peers e))), ()).
Proof.
  unfold eagerForward, eagerFrames, whenEncoded.
  destruct (encodeFrame _); [|done]. rewrite run_gets. apply forEach_sends.
Qed.
End push.

(** ** Eager push *)

(** The key of the announcement a record answers. *)
Definition announcedAs (r : Record_) : ihaveKey :=
  mkIhaveKey (r_Topic r) (r_NodeID r) (r_Key r) (r_HLC r).

Section eager.
Context `{Sha256} `{Ed25519} `{Proto} `{MapOrder}.

Lemma others_perm from (pt pt' : peerTable) :
  (forall id, isEdge pt' id = isEdge pt id) ->
  others from (TreeEdges pt) ≡ₚ others from (TreeEdges pt').
Proof.
  intros He. unfold others. apply NoDup_Permutation.
  - apply NoDup_ListNoDup, List.NoDup_filter, NoDup_ListNoDup, NoDup_TreeEdges.
  - apply NoDup_ListNoDup, List.NoDup_filter, NoDup_ListNoDup, NoDup_TreeEdges.
  - intros id. rewrite !list_elem_of_In, !filter_In, <- !list_elem_of_In.
    by rewrite !elem_of_TreeEdges_isEdge, He.
Qed.

(** What follows the merge of a record that took effect. *)
Lemma applied_run c from r ttl e1 :
  let pt := promoteOne (maxTreeEdges e1) (peers e1) from in
  let '(e', out, _) :=
    (promoteTreeEdgeBounded from ;;
     modify (fun e => set_missing e (delete (announcedAs r) (missingIHaves e))) ;;
     emit (Applied r) ;;
     (if ttl >? 1 then eagerForward from r (ttl - 1) else skip) ;;
     lazyPushToNonTreeEdges c r) e1 in
  (exists targets,
     out = Applied r :: (if ttl >? 1 then eagerFrames r (ttl - 1) targets else []) ++
                        lazyFrames c r (plumPaused e1) pt /\
     targets ≡ₚ others from (TreeEdges (peers e'))) /\
  e' = set_peers (set_missing e1 (delete (announcedAs r) (missingIHaves e1))) (peers e') /\
  (forall q, peerOf (peers e') q = lazyPeer c r (plumPaused e1) pt q) /\
  (forall q, isEdge (peers e') q = isEdge pt q).
Proof.
  intros pt. rewrite (run_bind _ _ _ _ _ _ (promote_run from e1)), run_modify. fold pt.
  set (e3 := set_missing _ _).
  rewrite (run_bind (emit (Applied r)) _ e3 e3 [Applied r] () eq_refl).
  set (fwd := if ttl >? 1 then eagerFrames r (ttl - 1) (others from (TreeEdges (peers e3))) else []).
  assert (Hfwd : (if ttl >? 1 then eagerForward from r (ttl - 1) else skip) e3 = (e3, fwd, ())).
  { unfold fwd. destruct (ttl >? 1); [apply eagerForward_run|done]. }
  rewrite (run_bind _ _ e3 e3 fwd () Hfwd).
  pose proof (lazyPush_run c r e3) as Hl.
  destruct (lazyPushToNonTreeEdges c r e3) as [[e4 o4] u4]. destruct Hl as (He4 & -> & Hq).
  assert (Hsame : forall q, isEdge (peers e4) q = isEdge pt q).
  { intros q. by rewrite isEdge_peerOf, Hq, isEdge_lazyPeer. }
  cbn [fst snd app]. split_and!; [|by rewrite He4|done|done].
  exists (others from (TreeEdges (peers e3))). split; [done|]. apply others_perm. intros q.
  by rewrite Hsame.
Qed.

Lemma bestTreeEdges_silent e : (bestTreeEdges e).1.2 = [].
Proof.
  assert (Hs : safe (fun _ => True) (fun _ => False) bestTreeEdges).
  { unfold bestTreeEdges. guard_. unfold setTreeEdge. by apply safe_modify. }
  destruct (Hs e I) as [_ Ho]. by destruct (bestTreeEdges e).1.2; [|apply Forall_cons in Ho as [? _]].
Qed.

(** C15: what an eager push does, on every branch. A record whose signature does not verify
    changes nothing. One the gate refuses changes the gate's counters only. Otherwise the
    record is merged into the store and its stamp observed, and:
    - applied: the sender is promoted to a tree edge unless the bound is reached, the
      matching announcement is no longer missing, the record is reported exactly once, and,
      while hops remain, forwarded with one hop less to exactly the tree edges other than
      the sender; of the other peers exactly those with room in their queue and tokens for
      the frame get an announcement;
    - a duplicate: the sender gets a prune, and nothing else happens;
    - an attestation counted for the first time but below quorum: it is not reported, and
      while hops remain it goes on to the best tree edges other than the sender;
    - otherwise nothing is sent. *)
Theorem handleEager_spec (c : clock) (from : NodeID) (p : pbRecord) (ttl : Z) (e : engine) :
  let r := recordFromProto p in
  let '(e', out, _) := handleEager c from (Some p) ttl e in
  let g := Admit (c_realMs c) (gate e) r in
  let '(applied, replaced, accumulated) := (ApplyExt (c_nowMs c) (store e) r).2 in
  let e1 := merged c e r in
  (wellSigned r = false -> e' = e /\ out = []) /\
  (wellSigned r = true -> g.2 <> None -> e' = set_gate e g.1 /\ out = []) /\
  (wellSigned r = true -> g.2 = None ->
   (applied = true ->
     let pt := promoteOne (maxTreeEdges e) (peers e) from in
     (exists targets,
        out = Applied r :: (if ttl >? 1 then eagerFrames r (ttl - 1) targets else []) ++
                           lazyFrames c r (plumPaused e) pt /\
        targets ≡ₚ others from (TreeEdges (peers e'))) /\
     e' = set_peers (set_missing e1 (delete (announcedAs r) (missingIHaves e))) (peers e') /\
     (forall q, peerOf (peers e') q = lazyPeer c r (plumPaused e) pt q) /\
     (forall id, isEdge (peers e') id = isEdge (peers e) id \/ id = from) /\
     (isEdge (peers e') from = true \/ maxTreeEdges e <= len (TreeEdges (peers e)))) /\
   (applied = false -> accumulated = true -> IsObserverAttestation r = true ->
     (ttl <= 1 -> e' = e1 /\ out = []) /\
     (1 < ttl -> out = eagerFrames r (ttl - 1) (others from (bestTreeEdges e1).2) /\
        e' = match encodeFrame (frameEagerPush r (ttl - 1)) with
             | Some _ => (bestTreeEdges e1).1.1 | None => e1 end)) /\
   (applied = false -> accumulated && IsObserverAttestation r = false -> replaced = true ->
     e' = e1 /\ out = match encodeFrame (framePrune (r_Topic r)) with
                      | Some f => [Send from f] | None => [] end) /\
   (applied = false -> accumulated && IsObserverAttestation r = false -> replaced = false ->
     e' = e1 /\ out = [])).
Proof.
  intros r. unfold handleEager. fold r. cbv zeta.
  destruct (wellSigned r) eqn:Hsig; cbn [negb]; cbv iota.
  2:{ simpl. destruct (ApplyExt _ _ _).2 as [[? ?] ?]. split_and!; done. }
  destruct (Admit (c_realMs c) (gate e) r).2 as [err|] eqn:Hadm.
  { rewrite inbound_refused by (by rewrite Hadm). simpl.
    destruct (ApplyExt _ _ _).2 as [[? ?] ?]. split_and!; done. }
  rewrite (inbound_merged c r e) by done.
  destruct (ApplyExt (c_nowMs c) (store e) r).2 as [[applied replaced] accumulated].
  set (e1 := merged c e r). destruct applied; cbn [negb andb]; cbv iota.
  { pose proof (applied_run c from r ttl e1) as Ha. cbv zeta in Ha. unfold announcedAs in Ha at 1.
    match type of Ha with match ?m with _ => _ end => destruct m as [[e' out] u] end.
    destruct Ha as (Hout & He' & Hq & Hedge).
    destruct (promoteOne_edges (maxTreeEdges e1) (peers e1) from) as [Hold Hfrom].
    split; [done|]. split; [done|]. intros _ _. split; [|by split_and!]. intros _.
    split; [exact Hout|]. split; [exact He'|]. split; [exact Hq|].
    split; [intros id; rewrite Hedge; apply Hold|rewrite Hedge; exact Hfrom]. }
  destruct accumulated, (IsObserverAttestation r); cbn [andb]; cbv iota.
  { destruct (ttl >? 1) eqn:Ht.
    - unfold whenEncoded, eagerFrames.
      destruct (encodeFrame (frameEagerPush r (ttl - 1))) as [frame|].
      + destruct (bestTreeEdges e1) as [[e2 o2] l] eqn:Eb.
        rewrite (run_bind _ _ _ _ _ _ Eb), forEach_sends.
        pose proof (bestTreeEdges_silent e1) as Ho. rewrite Eb in Ho. simpl in Ho. subst o2.
        split_and!; try done; intros _ _; split_and!; try done;
        intros _ _ _; (split; [intros; lia|done]).
      + split_and!; try done; intros _ _; split_and!; try done;
        intros _ _ _; (split; [intros; lia|done]).
    - split_and!; try done; intros _ _; split_and!; try done;
        intros _ _ _; (split; [done|intros; lia]). }
  all: destruct replaced; [|split_and!; try done; intros _ _; split_and!; done].
  all: unfold sendPrune, whenEncoded; destruct (encodeFrame (framePrune (r_Topic r))).
  all: split_and!; try done; intros _ _; split_and!; done.
Qed.
End eager.

(** A neighbour pushes a record with eight hops to go to a node with three other
    neighbours, one of them a tree edge: it is reported, forwarded to that edge with
    seven hops, and announced to the others; the neighbour becomes a tree edge. *)
Lemma handleEager_spec_witness :
  let _ := std_order in let _ := ToyProto.codec in
  let _ := ToySha256.hash in let _ := ToyEd25519.scheme in
  let r := own_record 3 5 "" "up" in
  let c := at_ms 1000 in
  let e0 := n_engine (sample_node 1 (id_of <$> [2; 4; 5; 6])) in
  let e := set_peers e0 (SetTreeEdge (peers e0) (id_of 4) true) in
  let '(e', out, _) := handleEager c (id_of 2) (Some (recordToProto r)) 8 e in
  wellSigned r = true /\ (Admit (c_realMs c) (gate e) r).2 = None /\
  (ApplyExt (c_nowMs c) (store e) r).2 = (true, false, false) /\
  (exists targets,
     out = Applied r :: eagerFrames r 7 targets ++
             lazyFrames c r false (SetTreeEdge (peers e) (id_of 2) true) /\
     length out = 4%nat /\ targets ≡ₚ others (id_of 2) (TreeEdges (peers e'))) /\
  isEdge (peers e') (id_of 2) = true.
Proof.
  intros o1 o2 o3 o4 r c e0 e.
  pose proof (handleEager_spec c (id_of 2) (recordToProto r) 8 e) as Hs. cbv zeta in Hs.
  assert (Hr : recordFromProto (recordToProto r) = r) by (vm_compute; reflexivity).
  rewrite Hr in Hs.
  assert (Hsig : wellSigned r = true) by (vm_compute; reflexivity).
  assert (Hadm : (Admit (c_realMs c) (gate e) r).2 = None) by (vm_compute; reflexivity).
  assert (Happ : (ApplyExt (c_nowMs c) (store e) r).2 = (true, false, false))
    by (vm_compute; reflexivity).
  assert (Hlen : length (handleEager c (id_of 2) (Some (recordToProto r)) 8 e).1.2 = 4%nat)
    by (vm_compute; reflexivity).
  assert (Hedge : isEdge (peers (handleEager c (id_of 2) (Some (recordToProto r)) 8 e).1.1)
                    (id_of 2) = true) by (vm_compute; reflexivity).
  rewrite Happ in Hs.
  destruct (handleEager c (id_of 2) (Some (recordToProto r)) 8 e) as [[e' out] u] eqn:Er.
  change (length out = 4%nat) in Hlen. change (isEdge (peers e') (id_of 2) = true) in Hedge.
  split; [exact Hsig|]. split; [exact Hadm|]. split; [exact Happ|]. split; [|exact Hedge].
  destruct Hs as (_ & _ & Hs). destruct (Hs Hsig Hadm) as (Ha & _).
  destruct (Ha eq_refl) as ((targets & Hout & Ht) & _).
  exists targets. split; [exact Hout|]. split; [exact Hlen|exact Ht].
Defined.

(** ** Repair of a missed push *)

Section repair.
Context `{Sha256} `{Ed25519} `{ProtoLaws} `{MapOrder}.

(** A loop emits what the body of one of its elements emits. *)
Lemma forEach_emits {A} (I : engine -> Prop) (l : list A) body a x e :
  (forall y, y ∈ l -> forall e, I e -> I (body y e).1.1) ->
  (forall e, I e -> x ∈ (body a e).1.2) -> a ∈ l -> I e -> x ∈ (forEach l body e).1.2.
Proof.
  intros Hb Hx. revert e. induction l as [|y l IH]; intros e Ha He; [by apply not_elem_of_nil in Ha|].
  cbn [forEach]. destruct (body y e) as [[e1 o1] u] eqn:Ey. rewrite (run_bind _ _ _ _ _ _ Ey).
  cbn [fst snd]. apply elem_of_app. apply elem_of_cons in Ha as [->|Ha].
  - left. specialize (Hx e He). by rewrite Ey in Hx.
  - right. apply IH; [|done|].
    + intros z Hz. apply Hb. by right.
    + specialize (Hb y ltac:(left) e He). by rewrite Ey in Hb.
Qed.

(** The settings and the store of an engine. *)
Definition steady (e e' : engine) : Prop :=
  store e' = store e /\ gate e' = gate e /\ graftDelay e' = graftDelay e.

Lemma Tick_steady c now e : steady e (Tick c now e).1.1.
Proof.
  assert (Hs : safe (steady e) (fun _ => True) (Tick c now)).
  { unfold Tick, processGrafts, processGraft, merkleTick, tickTopic, sendProbe. guard_.
    all: try match goal with |- safe _ _ (modify _) => idtac end.
    all: first [by apply safe_emit | by apply safe_modify]. }
  by apply Hs.
Qed.

(** A due announcement is grafted. *)
Lemma Tick_grafts c now e k x :
  missingIHaves e !! k = Some x -> ih_grafted x = false ->
  graftDelay e <= timeSub now (ih_seenAt x) <= ihaveEntryTTL ->
  Send (ih_announcer x) (default [] (encodeFrame (frameGraft (ik_topic k) (ik_nodeID k)
    (ik_key k) (ik_hlc k)))) ∈ (Tick c now e).1.2.
Proof.
  intros Hk Hg Ht. unfold Tick.
  set (y := Send _ _).
  assert (Hin : y ∈ (processGrafts now e).1.2).
  { unfold processGrafts. rewrite run_gets.
    apply (forEach_emits (fun e' => graftDelay e' = graftDelay e) _ _ (k, x)); [..|done].
    - intros [k' x'] _ e' He'. unfold processGraft. rewrite run_gets.
      repeat (case_match; [done|]). done.
    - intros e' He'. unfold processGraft. rewrite run_gets, He', Hg.
      destruct (timeSub now (ih_seenAt x) >? ihaveEntryTTL) eqn:E1; [lia|].
      destruct (timeSub now (ih_seenAt x) <? graftDelay e) eqn:E2; [lia|]. left.
    - by apply elem_of_map_order. }
  destruct (processGrafts now e) as [[e1 o1] u] eqn:Er. rewrite (run_bind _ _ _ _ _ _ Er).
  apply elem_of_app. by left.
Qed.

(** An announcement of a record the store lacks is remembered. *)
Lemma handleIHave_pending c from r e :
  (forall cur, slot (store e) (r_Topic r) (keyOf r) = Some cur -> r_HLC cur < r_HLC r) ->
  missingIHaves e !! announcedAs r = None -> mlen (missingIHaves e) < maxIHaves e ->
  (handleIHave c from (r_Topic r) (toBytes (r_NodeID r)) (r_HLC r) (bodyHash r) (r_Key r) e).1.1 =
  set_missing e (<[announcedAs r := mkIhave from (copy32 (bodyHash r)) (c_now c) false]>
                   (missingIHaves e)).
Proof.
  intros Hlack Hnew Hroom. unfold handleIHave. rewrite ofBytes_toBytes, run_gets.
  rewrite <- slot_getRawKeyed. change (mkKey (r_NodeID r) (r_Key r)) with (keyOf r).
  destruct (match slot _ _ _ with Some _ => _ | None => _ end) eqn:E.
  { destruct (slot (store e) (r_Topic r) (keyOf r)) as [cur|]; [|done].
    specialize (Hlack cur eq_refl). lia. }
  unfold modify. fold (announcedAs r). cbn [fst]. rewrite Hnew.
  destruct (_ >=? _) eqn:E2; [lia|done].
Qed.

(** A graft request for a signed record is answered with it. *)
Lemma handleGraft_answers from r e :
  slot (store e) (r_Topic r) (keyOf r) = Some r -> r_Sig r <> [] ->
  Send from (default [] (encodeFrame (frameEagerPush r (eagerTTL e)))) ∈
    (handleGraft from (r_Topic r) (toBytes (r_NodeID r)) (r_Key r) e).1.2.
Proof.
  intros Hslot Hsig. unfold handleGraft.
  assert (Hsafe : safe (fun e' => store e' = store e /\ eagerTTL e' = eagerTTL e) (fun _ => True)
    (promoteTreeEdgeBounded from)).
  { unfold promoteTreeEdgeBounded, setTreeEdge. guard_. by apply safe_modify. }
  destruct (Hsafe e ltac:(done)) as [[Hs Ht] _].
  destruct (promoteTreeEdgeBounded from e) as [[e1 o1] u] eqn:Er.
  rewrite (run_bind _ _ _ _ _ _ Er), run_gets, ofBytes_toBytes. cbn [fst snd] in *.
  rewrite Hs, <- slot_getRawKeyed. change (mkKey (r_NodeID r) (r_Key r)) with (keyOf r).
  rewrite Hslot. assert ((len (r_Sig r) =? 0) = false) as -> by (by destruct (r_Sig r)).
  rewrite run_gets, Ht. apply elem_of_app. right. left.
Qed.

(** An owner record that is well signed, admitted, newer than the slot and within the caps
    is in the slot after the push, and no longer missing. *)
Lemma handleEager_stores c from r ttl e :
  wellSigned r = true -> (Admit (c_realMs c) (gate e) r).2 = None ->
  IsObserverAttestation r = false -> room (store e) r = true ->
  (forall cur, slot (store e) (r_Topic r) (keyOf r) = Some cur -> newer r cur = true) ->
  let e' := (handleEager c from (Some (recordToProto r)) ttl e).1.1 in
  slot (store e') (r_Topic r) (keyOf r) = Some r /\ missingIHaves e' !! announcedAs r = None.
Proof.
  intros Hsig Hadm Hown Hroom Hnewer. unfold handleEager. rewrite record_roundtrip.
  cbv zeta. rewrite Hsig. cbn [negb]. cbv iota. rewrite (inbound_merged c r e) by done.
  pose proof (ApplyExt_owner_room (c_nowMs c) (store e) r Hown Hroom) as Hs. unfold merged.
  destruct (ApplyExt (c_nowMs c) (store e) r) as [s res]. cbn [fst snd].
  destruct Hs as (Hres & Hslot & _).
  assert (exists replaced, res = (true, replaced, false)) as [replaced ->].
  { rewrite Hres. destruct (slot (store e) (r_Topic r) (keyOf r)) as [cur|]; [|eauto].
    rewrite Hnewer by done. eauto. }
  cbn [negb andb]. cbv iota. clear Hres.
  match goal with |- context [set_store ?x s] => set (e1 := set_store x s) end.
  pose proof (applied_run c from r ttl e1) as Ha. cbv zeta in Ha. fold (announcedAs r).
  match type of Ha with match ?m with _ => _ end => destruct m as [[e' out] u] end.
  destruct Ha as (_ & He' & _). cbn [fst]. rewrite He'.
  split; [|simpl; apply lookup_delete_eq].
  change (store (set_peers (set_missing e1 _) (peers e'))) with s.
  rewrite Hslot, decide_True by done. unfold join.
  destruct (slot (store e) (r_Topic r) (keyOf r)) as [cur|]; [|done].
  by rewrite Hnewer.
Qed.

(** C8: a missed push is repaired. Node [A] holds a signed record that node [B] lacks, and
    announces it to [B], which has room for one more announcement. Then at any tick of [B]
    that comes after the graft delay and within thirty seconds, [B] asks [A] for the
    record, [A] answers with it, and if [B] admits it, it is in [B]'s store and no longer
    missing. *)
Theorem graft_repairs (A B : engine) (a b : NodeID) (r : Record_) (c0 c1 c2 c3 : clock) (now : Z) :
  wireable r = true ->
  slot (store A) (r_Topic r) (keyOf r) = Some r -> r_Sig r <> [] ->
  (forall cur, slot (store B) (r_Topic r) (keyOf r) = Some cur -> r_HLC cur < r_HLC r) ->
  missingIHaves B !! announcedAs r = None -> mlen (missingIHaves B) < maxIHaves B ->
  graftDelay B <= timeSub now (c_now c0) <= ihaveEntryTTL ->
  wellSigned r = true -> (Admit (c_realMs c3) (gate B) r).2 = None ->
  IsObserverAttestation r = false -> room (store B) r = true ->
  exists ihave graft push,
    encodeFrame (frameIHave (r_Topic r) (r_NodeID r) (r_Key r) (r_HLC r) (bodyHash r)) = Some ihave /\
    let B1 := (ReceiveFrame c0 a ihave B).1.1 in
    let B2 := (Tick c1 now B1).1.1 in
    let B3 := (ReceiveFrame c3 a push B2).1.1 in
    Send a graft ∈ (Tick c1 now B1).1.2 /\
    Send b push ∈ (ReceiveFrame c2 b graft A).1.2 /\
    slot (store B3) (r_Topic r) (keyOf r) = Some r /\
    missingIHaves B3 !! announcedAs r = None.
Proof.
  intros Hw HA Hsig Hlack Hnew Hroom Htime Hsigned Hadm Hown Hcap.
  apply andb_true_iff in Hw as Hv. destruct Hv as [Hv1 Hv2].
  destruct (encodeFrame_Some (frameIHave (r_Topic r) (r_NodeID r) (r_Key r) (r_HLC r) (bodyHash r)))
    as [ihave Hihave]; [by apply andb_true_iff|].
  destruct (encodeFrame_Some (frameGraft (r_Topic r) (r_NodeID r) (r_Key r) (r_HLC r)))
    as [graft Hgraft]; [by apply andb_true_iff|].
  destruct (encodeFrame_Some (frameEagerPush r (eagerTTL A))) as [push Hpush].
  { simpl. unfold recordEncodable. simpl. by rewrite Hv1, Hv2. }
  exists ihave, graft, push. split; [done|]. cbv zeta.
  assert (HB1 : (ReceiveFrame c0 a ihave B).1.1 =
    set_missing B (<[announcedAs r := mkIhave a (copy32 (bodyHash r)) (c_now c0) false]>
                     (missingIHaves B))).
  { unfold ReceiveFrame. rewrite (encodeFrame_decodes _ _ Hihave). by apply handleIHave_pending. }
  rewrite HB1. set (B1 := set_missing B _).
  destruct (Tick_steady c1 now B1) as (Hst & Hg & _).
  assert (Hgr : Send a graft ∈ (Tick c1 now B1).1.2).
  { pose proof (Tick_grafts c1 now B1 (announcedAs r)
      (mkIhave a (copy32 (bodyHash r)) (c_now c0) false)) as Ht.
    cbn [ih_announcer ih_grafted ih_seenAt announcedAs ik_topic ik_nodeID ik_key ik_hlc] in Ht.
    rewrite Hgraft in Ht. apply Ht; [apply lookup_insert_eq|done|done]. }
  split; [exact Hgr|]. split.
  - unfold ReceiveFrame. rewrite (encodeFrame_decodes _ _ Hgraft).
    pose proof (handleGraft_answers b r A HA Hsig) as Ha. by rewrite Hpush in Ha.
  - unfold ReceiveFrame. rewrite (encodeFrame_decodes _ _ Hpush).
    apply handleEager_stores; rewrite ?Hst, ?Hg; try done.
    intros cur Hcur. unfold newer. specialize (Hlack cur Hcur).
    destruct (r_HLC r >? r_HLC cur) eqn:E; [done|lia].
Qed.
End repair.

(** Node 2 holds a record of node 3 that its neighbour, node 1, has missed. *)
Lemma graft_repairs_witness :
  let _ := std_order in let _ := ToyProto.codec in
  let _ := ToySha256.hash in let _ := ToyEd25519.scheme in
  let r := own_record 3 5 "" "up" in
  let A := n_engine (OnReceive (at_ms 1000) (sample_node 2 [id_of 3; id_of 1]) (id_of 3)
                       (eager r 8)).1 in
  let B := n_engine (sample_node 1 [id_of 2]) in
  exists ihave graft push,
    encodeFrame (frameIHave (r_Topic r) (r_NodeID r) (r_Key r) (r_HLC r) (bodyHash r)) = Some ihave /\
    let B1 := (ReceiveFrame (at_ms 1000) (id_of 2) ihave B).1.1 in
    let B2 := (Tick (at_ms 1500) (1500 * Millisecond) B1).1.1 in
    let B3 := (ReceiveFrame (at_ms 1700) (id_of 2) push B2).1.1 in
    Send (id_of 2) graft ∈ (Tick (at_ms 1500) (1500 * Millisecond) B1).1.2 /\
    Send (id_of 1) push ∈ (ReceiveFrame (at_ms 1600) (id_of 1) graft A).1.2 /\
    slot (store B3) (r_Topic r) (keyOf r) = Some r /\
    missingIHaves B3 !! announcedAs r = None.
Proof.
  intros o1 o2 o3 o4 r A B.
  refine (@graft_repairs ToySha256.hash ToyEd25519.scheme ToyProto.codec ToyProto.laws std_order
    A B (id_of 2) (id_of 1) r (at_ms 1000) (at_ms 1500) (at_ms 1600) (at_ms 1700)
    (1500 * Millisecond) _ _ _ _ _ _ _ _ _ _ _).
  - vm_compute. reflexivity.
  - vm_compute. reflexivity.
  - vm_compute. discriminate.
  - intros cur Hcur. vm_compute in Hcur. discriminate.
  - vm_compute. reflexivity.
  - vm_compute. reflexivity.
  - split; vm_compute; discriminate.
  - vm_compute. reflexivity.
  - vm_compute. reflexivity.
  - vm_compute. reflexivity.
  - vm_compute. reflexivity.
Defined.
