(* ===== verification/SyncLemmas.v ===== *)
(** * Reconciliation: lemmas

    What roots determine; slots only advance; room for a batch of records; the two ends of a pull; the cursor. *)
From S2P Require Import Prelude Types Crypto Hlc Sig Crdt CrdtLemmas CrdtInv CrdtReads Gate Peer.
From S2P Require Import Codec Engine Merkle EngineLemmas.

(** ** Roots *)

(** What a root depends on, of one record. *)
Definition stampOf (r : Record_) : NodeID * Z * bytes := (r_NodeID r, r_HLC r, r_Sig r).

(** Hashing two lists of records met a collision: between two NodeIDs, two signatures, or
    the two concatenations. *)
Definition collision `{Sha256} (l1 l2 : list Record_) : Prop :=
  (exists r1 r2, r1 ∈ l1 /\ r2 ∈ l2 /\
     (collides (toBytes (r_NodeID r1)) (toBytes (r_NodeID r2)) \/
      collides (r_Sig r1) (r_Sig r2))) \/
  collides (mjoin (merkleEntry <$> l1)) (mjoin (merkleEntry <$> l2)).

Section roots.
Context `{Sha256Laws}.

Lemma merkleEntry_length r : length (merkleEntry r) = 72%nat.
Proof. unfold merkleEntry. by rewrite !length_app, !sha256_length, length_be_put. Qed.

Lemma merkleEntry_inj r1 r2 :
  is_u64 (r_HLC r1) -> is_u64 (r_HLC r2) -> merkleEntry r1 = merkleEntry r2 ->
  stampOf r1 = stampOf r2 \/ collides (toBytes (r_NodeID r1)) (toBytes (r_NodeID r2)) \/
  collides (r_Sig r1) (r_Sig r2).
Proof.
  intros H1 H2 E. unfold merkleEntry in E.
  apply app_inj_1 in E as [E1 E]; [|by rewrite !sha256_length].
  apply app_inj_1 in E as [E2 E3]; [|by rewrite !length_be_put].
  apply be_put_inj in E2; [|exact H1|exact H2].
  apply sha256_inj_or in E1 as [E1%toBytes_inj|?]; [|by right; left].
  apply sha256_inj_or in E3 as [E3|?]; [|by right; right].
  left. unfold stampOf. congruence.
Qed.

Lemma entries_inj l1 l2 :
  Forall (fun r => is_u64 (r_HLC r)) l1 -> Forall (fun r => is_u64 (r_HLC r)) l2 ->
  mjoin (merkleEntry <$> l1) = mjoin (merkleEntry <$> l2) ->
  stampOf <$> l1 = stampOf <$> l2 \/
  exists r1 r2, r1 ∈ l1 /\ r2 ∈ l2 /\
    (collides (toBytes (r_NodeID r1)) (toBytes (r_NodeID r2)) \/
     collides (r_Sig r1) (r_Sig r2)).
Proof.
  intros F1. revert l2. induction F1 as [|r1 l1 Hr1 F1 IH]; intros [|r2 l2] F2 E; [by left|..].
  - apply (f_equal length) in E.
    change (mjoin (merkleEntry <$> r2 :: l2)) with (merkleEntry r2 ++ mjoin (merkleEntry <$> l2)) in E.
    rewrite length_app, merkleEntry_length in E. simpl in E. lia.
  - apply (f_equal length) in E.
    change (mjoin (merkleEntry <$> r1 :: l1)) with (merkleEntry r1 ++ mjoin (merkleEntry <$> l1)) in E.
    rewrite length_app, merkleEntry_length in E. simpl in E. lia.
  - apply Forall_cons in F2 as [Hr2 F2].
    change (merkleEntry r1 ++ mjoin (merkleEntry <$> l1) =
            merkleEntry r2 ++ mjoin (merkleEntry <$> l2)) in E.
    apply app_inj_1 in E as [E1 E2]; [|by rewrite !merkleEntry_length].
    apply merkleEntry_inj in E1 as [E1|Hc]; [|right; exists r1, r2; auto using list_elem_of_here|done..].
    destruct (IH l2 F2 E2) as [E|(x & y & Hx & Hy & Hc)].
    + left. rewrite !fmap_cons. by rewrite E1, E.
    + right. exists x, y. auto using list_elem_of_further.
Qed.

(** Equal roots mean equal stamps, or a collision that was met. *)
Lemma roots_inj (O1 O2 : MapOrder) s1 s2 t a b :
  Forall (fun r => is_u64 (r_HLC r)) (@rangeRecords O1 s1 t a b) ->
  Forall (fun r => is_u64 (r_HLC r)) (@rangeRecords O2 s2 t a b) ->
  @topicMerkleRoot _ O1 s1 t a b = @topicMerkleRoot _ O2 s2 t a b ->
  stampOf <$> @rangeRecords O1 s1 t a b = stampOf <$> @rangeRecords O2 s2 t a b \/
  collision (@rangeRecords O1 s1 t a b) (@rangeRecords O2 s2 t a b).
Proof.
  intros F1 F2 E. unfold topicMerkleRoot in E.
  apply sha256_inj_or in E as [E|?]; [|by right; right].
  destruct (entries_inj _ _ F1 F2 E); [by left|by right; left].
Qed.
End roots.

Lemma elem_of_rangeRecords `{MapOrder} s t a b r :
  wf_store s ->
  r ∈ rangeRecords s t a b <->
  slot s t (keyOf r) = Some r /\ r_Sig r <> [] /\ inRange a b r = true.
Proof.
  intros Hwf. unfold rangeRecords, topicRecordsSigned.
  rewrite list_filter_elem, elem_of_topicRecordsWhere by done.
  assert ((len (r_Sig r) >? 0) = true <-> r_Sig r <> []).
  { unfold len. rewrite Z.gtb_lt. destruct (r_Sig r); simpl; split; intros; try done; lia. }
  tauto.
Qed.

(** Equal signed slots give equal ranges, whatever the iteration orders. *)
Lemma rangeRecords_ext (O1 O2 : MapOrder) s1 s2 t a b :
  wf_store s1 -> wf_store s2 ->
  (forall k r, r_Sig r <> [] -> slot s1 t k = Some r <-> slot s2 t k = Some r) ->
  @rangeRecords O1 s1 t a b = @rangeRecords O2 s2 t a b.
Proof.
  intros W1 W2 Hs. apply slot_sorted_unique.
  - by apply StronglySorted_filter, topicRecordsWhere_sorted.
  - by apply StronglySorted_filter, topicRecordsWhere_sorted.
  - intros r. rewrite !elem_of_rangeRecords by done. naive_solver.
Qed.

(** ** Slots only advance *)
Section advance.
Context `{MapOrder}.

(** The store holds [r] or something newer. *)
Definition holds (s : recordStore) (t : Topic) (r : Record_) : Prop :=
  exists cur, slot s t (keyOf r) = Some cur /\ newer r cur = false.

Lemma holds_ApplyExt nowMs s t x r : holds s t r -> holds (ApplyExt nowMs s x).1 t r.
Proof.
  intros (cur & Hk & Hn). destruct (slot_advances nowMs s x t (keyOf r) cur Hk) as (cur' & Hk' & Hc).
  exists cur'. split; [done|]. destruct Hc as [->|Hc]; [done|].
  destruct (newer r cur') eqn:E; [|done]. pose proof (newer_trans _ _ _ E Hc). congruence.
Qed.

(** ** Room for a batch *)

(** The records of one node. *)
Definition ofNode (node : NodeID) (l : list Record_) : list Record_ :=
  List.filter (fun r => String.eqb (r_NodeID r) node) l.

(** The owner records [l] of the topic fit under every cap. *)
Record fits (s : recordStore) (t : Topic) (l : list Record_) : Prop := {
  fit_topic : topic_capped s t = false;
  fit_records : mlen (records (topicOf s t)) + len l <= maxRecordsPerTopic s;
  fit_keys : maxKeysPerNode s <= 0 \/
    forall node, mlen (slotsOf node (records (topicOf s t))) + len (ofNode node l)
                 <= maxKeysPerNode s
}.

Lemma len_cons {A} (x : A) l : len (x :: l) = 1 + len l.
Proof. unfold len. simpl. lia. Qed.

Lemma len_pos {A} (l : list A) : 0 <= len l.
Proof. unfold len. lia. Qed.

Lemma ofNode_cons node r l :
  len (ofNode node (r :: l)) = (if String.eqb (r_NodeID r) node then 1 else 0) + len (ofNode node l).
Proof. unfold ofNode. simpl. destruct (String.eqb _ _); [by rewrite len_cons|lia]. Qed.

Lemma fits_room s r l : fits s (r_Topic r) (r :: l) -> room s r = true.
Proof.
  intros [Ht Hr Hk]. rewrite len_cons in Hr. pose proof (len_pos l).
  assert (Hk' : maxKeysPerNode s <= 0 \/
    mlen (slotsOf (r_NodeID r) (records (topicOf s (r_Topic r)))) < maxKeysPerNode s).
  { destruct Hk as [?|Hk]; [by left|right]. specialize (Hk (r_NodeID r)).
    rewrite ofNode_cons, String.eqb_refl in Hk. pose proof (len_pos (ofNode (r_NodeID r) l)). lia. }
  clear Hk. unfold room, topic_capped, topicOf in *.
  destruct (byTopic s !! r_Topic r) as [ts|]; simpl in *.
  - destruct (records ts !! keyOf r); [done|].
    apply andb_true_iff. rewrite Z.ltb_lt, orb_true_iff, Z.leb_le, Z.ltb_lt. split; [lia|done].
  - change (mlen (∅ : gmap recordKey Record_)) with 0 in Hr.
    apply andb_true_iff. rewrite !Z.ltb_lt. lia.
Qed.

Lemma slotsOf_insert_le node k r (m : gmap recordKey Record_) :
  mlen (slotsOf node (<[k := r]> m)) <=
    mlen (slotsOf node m) + (if String.eqb (k_NodeID k) node then 1 else 0).
Proof.
  unfold slotsOf. rewrite map_filter_insert. case_decide as Hn; simpl in Hn.
  - rewrite (proj2 (String.eqb_eq _ _) Hn), mlen_insert. case_match; lia.
  - rewrite (proj2 (String.eqb_neq _ _) Hn).
    pose proof (mlen_subseteq (filter (fun kv : recordKey * Record_ => k_NodeID kv.1 = node) (delete k m))
      (filter (fun kv : recordKey * Record_ => k_NodeID kv.1 = node) m)) as Hs.
    ospecialize (Hs _); [by apply map_filter_subseteq_mono, delete_subseteq|]. lia.
Qed.

Lemma fits_ApplyExt nowMs s r l :
  IsObserverAttestation r = false -> fits s (r_Topic r) (r :: l) ->
  fits (ApplyExt nowMs s r).1 (r_Topic r) l /\ holds (ApplyExt nowMs s r).1 (r_Topic r) r.
Proof.
  intros Ho Hf. pose proof (fits_room s r l Hf) as Hroom.
  destruct Hf as [Ht Hr Hk]. destruct (room_topic s r Hroom) as [_ Hroom'].
  rewrite ApplyExt_unfold, Ht. unfold applyTopic. rewrite Ho.
  destruct (applyOwner_room nowMs s (topicOf s (r_Topic r)) r Hroom') as (ts' & Ea & Hrec & _).
  rewrite Ea. cbn [fst].
  assert (Htop : topicOf (set_byTopic s (<[r_Topic r := ts']> (byTopic s))) (r_Topic r) = ts')
    by (rewrite topicOf_insert; by rewrite decide_True).
  split; [split|].
  - unfold topic_capped. simpl. by rewrite lookup_insert_eq.
  - rewrite Htop, Hrec, mlen_insert. rewrite len_cons in Hr. simpl. case_match; lia.
  - destruct Hk as [?|Hk]; [by left|right]. intros node. rewrite Htop, Hrec.
    pose proof (slotsOf_insert_le node (keyOf r) (join (records (topicOf s (r_Topic r)) !! keyOf r) r)
      (records (topicOf s (r_Topic r)))) as Hle. simpl in Hle. specialize (Hk node).
    rewrite ofNode_cons in Hk. cbn [maxKeysPerNode set_byTopic]. lia.
  - unfold holds. rewrite slot_topicOf, Htop, Hrec, lookup_insert_eq. eexists. split; [done|].
    unfold join. destruct (records _ !! keyOf r) as [cur|]; [|apply newer_irrefl].
    destruct (newer r cur) eqn:E; [apply newer_irrefl|done].
Qed.
End advance.

(** ** The cursor *)

(** A range is cut at the end of a node's records. *)
Lemma advanceSplit_spec fuel half (l : list Record_) :
  (1 <= half <= length l)%nat -> (length l - half <= fuel)%nat ->
  (half <= advanceSplit fuel half l <= length l)%nat /\
  (forall x y, l !! (advanceSplit fuel half l - 1)%nat = Some x ->
     l !! advanceSplit fuel half l = Some y -> r_NodeID x <> r_NodeID y).
Proof.
  revert half. induction fuel as [|fuel IH]; intros half Hh Hf; simpl.
  - split; [lia|]. intros x y _ Hy. apply lookup_lt_Some in Hy. lia.
  - destruct (l !! half) as [a|] eqn:Ea.
    2:{ split; [lia|]. intros x y _ Hy. congruence. }
    pose proof (lookup_lt_Some _ _ _ Ea) as Hlt.
    destruct (l !! (half - 1)%nat) as [b|] eqn:Eb.
    2:{ apply lookup_ge_None in Eb. lia. }
    destruct (String.eqb (r_NodeID a) (r_NodeID b)) eqn:E.
    + destruct (IH (S half)) as [H1' H2']; [lia..|]. split; [lia|done].
    + apply String.eqb_neq in E. split; [lia|]. intros x y Hx Hy. congruence.
Qed.

Lemma splitPoint_spec (l : list Record_) :
  l <> [] ->
  (1 <= splitPoint l <= length l)%nat /\
  (forall x y, l !! (splitPoint l - 1)%nat = Some x -> l !! splitPoint l = Some y ->
     r_NodeID x <> r_NodeID y).
Proof.
  intros Hl. assert (0 < length l)%nat by (destruct l; [done|simpl; lia]).
  pose proof (Nat.Div0.div_le_upper_bound (length l) 2 (length l)) as Hd.
  pose proof (Nat.div_str_pos (length l) 2). unfold splitPoint.
  destruct (Nat.ltb_spec (length l / 2) 1) as [Hlt|Hge].
  - destruct (advanceSplit_spec (length l) 1 l); [lia..|]. split; [lia|done].
  - destruct (advanceSplit_spec (length l) (length l / 2) l); [lia..|]. split; [lia|done].
Qed.

(** No NodeID lies strictly between another one and that one followed by the byte 1. *)
Definition cursor_safe (l : list Record_) : Prop :=
  forall x y, x ∈ l -> y ∈ l -> blt (toBytes (r_NodeID x)) (toBytes (r_NodeID y)) = true ->
    blt (toBytes (r_NodeID y)) (toBytes (r_NodeID x) ++ [Byte.x01]) = false.

Definition nextStart (x : Record_) : bytes := toBytes (r_NodeID x) ++ [Byte.x01].

Lemma slot_sorted_lookup l i j x y :
  slot_sorted l -> l !! i = Some x -> l !! j = Some y -> (i < j)%nat ->
  lessRecordKey (keyOf x) (keyOf y) = true.
Proof.
  intros Hs. revert i j. induction Hs as [|z l Hs IH Hall]; intros i j Hi Hj Hij; [done|].
  destruct i as [|i], j as [|j]; try lia.
  - simpl in *. simplify_eq. rewrite Forall_forall in Hall. apply Hall.
    by eapply list_elem_of_lookup_2.
  - simpl in *. apply (IH i j); [done..|lia].
Qed.

Lemma lessRecordKey_node a b :
  lessRecordKey (keyOf a) (keyOf b) = true ->
  r_NodeID a = r_NodeID b \/ blt (toBytes (r_NodeID a)) (toBytes (r_NodeID b)) = true.
Proof.
  unfold lessRecordKey. simpl. destruct (String.eqb (r_NodeID a) (r_NodeID b)) eqn:E.
  - left. by apply String.eqb_eq.
  - simpl. right. by rewrite blt_toBytes.
Qed.

Lemma blt_le_trans a b c : blt a b = true -> blt c b = false -> blt a c = true.
Proof.
  intros H1 H2. destruct (blt_trichotomy b c) as [H|[<-|H]]; [|done|congruence].
  eauto using blt_trans.
Qed.

Lemma StronglySorted_drop {A} (R : A -> A -> Prop) n l :
  StronglySorted R l -> StronglySorted R (drop n l).
Proof.
  intros Hs. revert n. induction Hs as [|x l Hs IH Hall]; intros [|n]; simpl; try constructor; auto.
Qed.

Lemma inRange_from (a : option bytes) r :
  inRange a None r = match a with Some s => negb (blt (toBytes (r_NodeID r)) s) | None => true end.
Proof.
  unfold inRange, bytesLess. rewrite andb_true_r. destruct a as [s|]; [|done].
  by rewrite lex_less_blt.
Qed.

(** What the next probe asks for is exactly what was not sent. *)
Lemma range_resumes (l : list Record_) a h x :
  slot_sorted l -> cursor_safe l ->
  let cur := List.filter (inRange a None) l in
  cur !! (h - 1)%nat = Some x -> (1 <= h <= length cur)%nat ->
  (forall y, cur !! h = Some y -> r_NodeID x <> r_NodeID y) ->
  List.filter (inRange (Some (nextStart x)) None) l = drop h cur.
Proof.
  intros Hs Hsafe cur Hx Hh Hcut.
  assert (Hcur : slot_sorted cur) by (by apply StronglySorted_filter).
  assert (Hxl : x ∈ l /\ inRange a None x = true)
    by (apply list_filter_elem; by eapply list_elem_of_lookup_2).
  assert (Hbelow : forall i y, cur !! i = Some y -> (i < h)%nat ->
    blt (toBytes (r_NodeID y)) (nextStart x) = true).
  { intros i y Hy Hi. assert (Hxn : blt (toBytes (r_NodeID x)) (nextStart x) = true)
      by (by apply blt_app_r).
    destruct (decide (i = (h - 1)%nat)) as [->|Hne]; [congruence|].
    destruct (lessRecordKey_node y x) as [->|Hlt]; [|done|eauto using blt_trans].
    apply (slot_sorted_lookup cur i (h - 1)); [done..|lia]. }
  assert (Habove : forall i y, cur !! i = Some y -> (h <= i)%nat ->
    blt (toBytes (r_NodeID y)) (nextStart x) = false).
  { intros i y Hy Hi. destruct (cur !! h) as [z|] eqn:Hz.
    2:{ apply lookup_ge_None in Hz. apply lookup_lt_Some in Hy. lia. }
    assert (Hxz : blt (toBytes (r_NodeID x)) (toBytes (r_NodeID z)) = true).
    { destruct (lessRecordKey_node x z) as [E|?]; [|by destruct (Hcut z eq_refl)|done].
      apply (slot_sorted_lookup cur (h - 1) h); [done..|lia]. }
    assert (Hyl : y ∈ l /\ inRange a None y = true)
      by (apply list_filter_elem; by eapply list_elem_of_lookup_2).
    apply Hsafe; [apply Hxl|apply Hyl|].
    destruct (decide (i = h)) as [->|Hne]; [congruence|].
    destruct (lessRecordKey_node z y) as [<-|Hlt]; [|done|eauto using blt_trans].
    apply (slot_sorted_lookup cur h i); [done..|lia]. }
  apply slot_sorted_unique; [by apply StronglySorted_filter|by apply StronglySorted_drop|].
  intros r. rewrite list_filter_elem, inRange_from, negb_true_iff. split.
  - intros [Hr Hge]. assert (Hrc : r ∈ cur).
    { apply list_filter_elem. split; [done|]. rewrite inRange_from. destruct a as [s|]; [|done].
      destruct Hxl as [_ Hxs]. rewrite inRange_from in Hxs. apply negb_true_iff in Hxs.
      apply negb_true_iff. destruct (blt (toBytes (r_NodeID r)) s) eqn:E; [|done].
      assert (blt (toBytes (r_NodeID r)) (nextStart x) = true); [|congruence].
      apply (blt_trans _ (toBytes (r_NodeID x))); [by apply (blt_le_trans _ s)|by apply blt_app_r]. }
    apply list_elem_of_lookup_1 in Hrc as [i Hi].
    destruct (Nat.lt_ge_cases i h) as [Hlt|Hle].
    { specialize (Hbelow i r Hi Hlt). congruence. }
    apply (list_elem_of_lookup_2 _ (i - h)). rewrite lookup_drop.
    by replace (h + (i - h))%nat with i by lia.
  - intros Hr. apply list_elem_of_lookup_1 in Hr as [i Hi]. rewrite lookup_drop in Hi.
    split; [|apply (Habove _ _ Hi); lia].
    apply list_elem_of_lookup_2 in Hi. by apply list_filter_elem in Hi as [? _].
Qed.

(** ** The two ends of a pull *)

(** The frames of a run to one peer, and the last of them. *)
Definition framesTo (to : NodeID) (out : list effect) : list bytes :=
  omap (fun x => match x with Send p f => if String.eqb p to then Some f else None
                            | _ => None end) out.
Definition lastFrame (to : NodeID) (out : list effect) : option bytes := last (framesTo to out).

Lemma bytesEqual_eq a b : bytesEqual a b = true <-> a = b.
Proof.
  unfold bytesEqual. revert b. induction a as [|x a IH]; intros [|y b]; try done.
  unfold len in *. simpl. specialize (IH b). split.
  - intros E. bool_to_prop. f_equal; [by apply byteZ_inj|]. apply IH.
    apply andb_true_iff. split; [apply Z.eqb_eq|done].
    apply Pos.eqb_eq in H. lia.
  - intros [= -> ->]. destruct IH as [_ IH]. specialize (IH eq_refl).
    rewrite Z.eqb_refl in IH |- *. rewrite Pos.eqb_refl. done.
Qed.

Section ends.
Context `{Sha256} `{Ed25519} `{ProtoLaws} `{MapOrder}.

Lemma framesTo_app to o1 o2 : framesTo to (o1 ++ o2) = framesTo to o1 ++ framesTo to o2.
Proof. apply omap_app. Qed.

Lemma framesTo_send to f : framesTo to [Send to f] = [f].
Proof. unfold framesTo. simpl. by rewrite String.eqb_refl. Qed.

(** A reciprocal probe leaves the store alone. *)
Lemma reciprocalProbe_store c from t a b e :
  store (reciprocalProbe c from t a b e).1.1 = store e /\
  maxRangeSize (reciprocalProbe c from t a b e).1.1 = maxRangeSize e.
Proof.
  assert (Hs : safe (fun e' => store e' = store e /\ maxRangeSize e' = maxRangeSize e)
    (fun _ => True) (reciprocalProbe c from t a b)).
  { unfold reciprocalProbe, sendProbe. guard_; first [by apply safe_emit | by apply safe_modify]. }
  by apply Hs.
Qed.

(** The answer to a probe that starts at [start] and whose root differs: the first [n]
    records of the range, all of them unless it says that there are more. *)
Lemma HandleProbe_answers c from t start h e :
  topicMerkleRoot (store e) t start None <> h -> 0 < maxRangeSize e ->
  let l := rangeRecords (store e) t start None in
  let res := HandleProbe c from t start None h e in
  exists n extra more,
    store res.1.1 = store e /\ maxRangeSize res.1.1 = maxRangeSize e /\
    (forall frame, encodeFrame (Frame_MerkleRange t (recordToProto <$> take n l ++ extra) more) =
       Some frame -> lastFrame from res.1.2 = Some frame) /\
    (forall x, x ∈ extra -> x ∈ topicAttestations (store e) t) /\
    ((more = false /\ n = length l) \/
     (more = true /\ extra = [] /\ n = splitPoint l /\ (1 <= n < length l)%nat)).
Proof.
  intros Hroot Hmax l res. unfold res, HandleProbe. rewrite run_gets.
  destruct (bytesEqual _ h) eqn:E; [by apply bytesEqual_eq in E|].
  destruct (reciprocalProbe_store c from t start None e) as [Hs Hm].
  destruct (reciprocalProbe c from t start None e) as [[e1 o1] u] eqn:Er.
  rewrite (run_bind _ _ _ _ _ _ Er). cbn [fst snd] in *. rewrite !run_gets, Hs, Hm. fold l.
  assert (Hsend : forall n extra more,
    let r := sendRange from t (take n l ++ extra) more e1 in
    store r.1.1 = store e /\ maxRangeSize r.1.1 = maxRangeSize e /\
    (forall frame, encodeFrame (Frame_MerkleRange t (recordToProto <$> take n l ++ extra) more) =
       Some frame -> lastFrame from (o1 ++ r.1.2) = Some frame)).
  { intros n extra more r. unfold r, sendRange. destruct (encodeFrame _) as [f|]; simpl; [|by auto].
    split_and!; [done..|]. intros frame [= <-]. unfold lastFrame.
    by rewrite framesTo_app, framesTo_send, last_snoc. }
  destruct (len l <=? maxRangeSize e) eqn:El.
  - rewrite run_gets, Hs.
    exists (length l), (match start with None => if len (topicAttestations (store e) t) >? maxRangeSize e
        then take (Z.to_nat (maxRangeSize e)) (topicAttestations (store e) t)
        else topicAttestations (store e) t | Some _ => [] end), false.
    assert (Heq : forall extra, (match start with None => l ++ extra | Some _ => l end) =
      take (length l) l ++ match start with None => extra | Some _ => [] end).
    { intros extra. rewrite firstn_all. destruct start; [by rewrite app_nil_r|done]. }
    rewrite Heq. destruct (Hsend (length l) (match start with None =>
        if len (topicAttestations (store e) t) >? maxRangeSize e
        then take (Z.to_nat (maxRangeSize e)) (topicAttestations (store e) t)
        else topicAttestations (store e) t | Some _ => [] end) false) as (H1' & H2' & H3').
    split_and!; try done; [|by left].
    intros x Hx. destruct start; [by apply not_elem_of_nil in Hx|].
    case_match; [|done]. apply elem_of_take in Hx as (i & Hi & _). by eapply list_elem_of_lookup_2.
  - destruct (splitPoint_spec l) as [Hb _].
    { intros Hl. rewrite Hl in El. change (len (@nil Record_)) with 0 in El. lia. }
    destruct (length l <=? splitPoint l)%nat eqn:Ep.
    + exists (length l), [], false. destruct (Hsend (length l) [] false) as (H1' & H2' & H3').
      rewrite firstn_all, app_nil_r in *. split_and!; try done; [|by left].
      intros x Hx. by apply not_elem_of_nil in Hx.
    + exists (splitPoint l), [], true. destruct (Hsend (splitPoint l) [] true) as (H1' & H2' & H3').
      rewrite app_nil_r in *. apply Nat.leb_gt in Ep. split_and!; try done.
      * intros x Hx. by apply not_elem_of_nil in Hx.
      * right. split_and!; [done..|apply Hb|exact Ep].
Qed.

(** *** The receiver *)

(** An owner record of the topic that the receiver will take. *)
Record transferable (t : Topic) (nowMs : Z) (g : inboundGate) (r : Record_) : Prop := {
  tr_topic : r_Topic r = t;
  tr_owner : IsObserverAttestation r = false;
  tr_signed : wellSigned r = true;
  tr_admitted : admissible nowMs g r;
  tr_hlc : is_u64 (r_HLC r)
}.

(** The stamps of the signed records fit their encoding. *)
Definition stamps_fit (s : recordStore) (t : Topic) : Prop :=
  forall k r, slot s t k = Some r -> r_Sig r <> [] -> is_u64 (r_HLC r).

(** The receiver can take the records [l]. *)
Record ready (g : inboundGate) (t : Topic) (l : list Record_) (e : engine) : Prop := {
  rd_wf : wf_store (store e);
  rd_stamps : stamps_fit (store e) t;
  rd_fits : fits (store e) t l;
  rd_gate : gate_policy (gate e) = gate_policy g
}.

Lemma handleRangeRecord_run c r e :
  wellSigned r = true -> (Admit (c_realMs c) (gate e) r).2 = None ->
  (handleRangeRecord c (recordToProto r) e).1.1 = merged c e r.
Proof.
  intros Hs Ha. unfold handleRangeRecord. rewrite record_roundtrip. cbv zeta. rewrite Hs.
  cbn [negb]. cbv iota.
  unfold Engine.apply, mbind, M_bind, mret, M_ret, gateAdmit, observe, applyExt, modify, merged.
  destruct (Admit (c_realMs c) (gate e) r) as [g err]. simpl in Ha. subst err.
  rewrite bool_decide_eq_true_2 by done. cbn [negb set_gate set_hlc hlc store fst snd].
  destruct (ApplyExt _ _ _) as [s [[ap re] ac]]. cbn [fst snd]. by destruct ap.
Qed.

(** Whatever it is given, the receiver keeps what it holds, and sends nothing. *)
Lemma take_keeps c ps e :
  (forall t r, holds (store e) t r ->
     holds (store (forEach ps (handleRangeRecord c) e).1.1) t r) /\
  Forall (fun x => exists r, x = Applied r) (forEach ps (handleRangeRecord c) e).1.2.
Proof.
  apply (safe_forEach (fun e' => forall t r, holds (store e) t r -> holds (store e') t r)
    (fun x => exists r, x = Applied r)); [|done].
  intros p _. unfold handleRangeRecord, Engine.apply, observe. guard_.
  - intros e' He. unfold gateAdmit. destruct (Admit _ _ _). by split; [|constructor].
  - by apply safe_modify.
  - intros e' He. unfold applyExt.
    pose proof (fun t r Hr => holds_ApplyExt (c_nowMs c) (store e') t (recordFromProto p) r (He t r Hr))
      as Hh.
    destruct (ApplyExt _ _ _). by split; [|constructor].
  - apply safe_emit. eauto.
Qed.

Lemma ready_step c t g l r e :
  transferable t (c_realMs c) g r -> ready g t (r :: l) e ->
  let e' := (handleRangeRecord c (recordToProto r) e).1.1 in
  ready g t l e' /\ holds (store e') t r.
Proof.
  intros [Ht Ho Hs Ha Hu] [Hwf Hst Hf Hg] e'. subst t. unfold e'.
  rewrite handleRangeRecord_run; [|done|].
  2:{ apply Admit_None. by apply (admissible_policy _ g). }
  unfold merged. cbn [store set_store gate].
  destruct (fits_ApplyExt (c_nowMs c) (store e) r l Ho Hf) as [Hf' Hh].
  split; [split|done].
  - by apply wf_ApplyExt.
  - intros k r' Hk Hsig. cbn [store set_store] in Hk.
    rewrite slot_ApplyExt_owner in Hk; [|done|by apply fits_room in Hf].
    case_decide as Hd; [|by eapply Hst].
    unfold join in Hk. destruct (slot (store e) (r_Topic r) (keyOf r)) as [cur|] eqn:Ec;
      [|by simplify_eq].
    destruct (newer r cur); simplify_eq; [done|by eapply Hst].
  - done.
  - cbn [gate set_store set_hlc set_gate]. by rewrite Admit_policy.
Qed.

(** The records of one answer. *)
Lemma take_records c t g l e rest :
  Forall (transferable t (c_realMs c) g) l -> ready g t (l ++ rest) e ->
  let e' := (forEach (recordToProto <$> l) (handleRangeRecord c) e).1.1 in
  ready g t rest e' /\ Forall (holds (store e') t) l.
Proof.
  intros Hl. revert e. induction Hl as [|r l Hr Hl IH]; intros e He e'.
  - by split; [|constructor].
  - destruct (ready_step c t g (l ++ rest) r e Hr He) as [He1 Hh].
    unfold e'. cbn [fmap list_fmap forEach].
    destruct (handleRangeRecord c (recordToProto r) e) as [[e1 o1] u] eqn:E1. cbn [fst] in *.
    rewrite (run_bind _ _ _ _ _ _ E1). cbn [fst].
    destruct (IH e1 He1) as [He2 Hall].
    split; [exact He2|]. constructor; [|exact Hall]. by apply take_keeps.
Qed.
End ends.

(** ** A pull

    [pull fuel c a b frame A B]: node [a], with engine [A], has sent the probe [frame] to
    node [b], with engine [B]. [b] handles it; [a] handles the answer, which is the last
    frame [b] sends it; and when [a] asks for more, the exchange goes on. *)
Section pull.
Context `{Sha256Laws} `{Ed25519} `{ProtoLaws} `{MapOrder}.

Fixpoint pull (fuel : nat) (c : clock) (a b : NodeID) (frame : bytes) (A B : engine)
    : engine * engine :=
  match fuel with
  | O => (A, B)
  | S fuel' =>
      let '(B1, outB, _) := ReceiveFrame c a frame B in
      match lastFrame a outB with
      | None => (A, B1)
      | Some answer =>
          let '(A1, outA, _) := ReceiveFrame c b answer A in
          match lastFrame b outA with
          | None => (A1, B1)
          | Some next => pull fuel' c a b next A1 B1
          end
      end
  end.

(** The probe of [A] for the records of the topic from [start] on. *)
Definition probeFrame (t : Topic) (start : option bytes) (A : engine) : option bytes :=
  encodeFrame (Frame_Merkle t start None (topicMerkleRoot (store A) t start None)).

Lemma framesTo_applied to out :
  Forall (fun x => exists r, x = Applied r) out -> framesTo to out = [].
Proof.
  induction 1 as [|x out (r & ->) _ IH]; [done|]. unfold framesTo in *. simpl. exact IH.
Qed.

Lemma forEach_app {A} (l1 l2 : list A) body e :
  (forEach (l1 ++ l2) body e).1.1 = (forEach l2 body (forEach l1 body e).1.1).1.1.
Proof.
  revert e. induction l1 as [|x l1 IH]; intros e; [done|]. simpl app. cbn [forEach].
  destruct (body x e) as [[e1 o1] u] eqn:E. rewrite !(run_bind _ _ _ _ _ _ E). apply IH.
Qed.

Lemma sendProbe_run to t a b e :
  sendProbe to t a b e =
  (e, match encodeFrame (Frame_Merkle t a b (topicMerkleRoot (store e) t a b)) with
      | Some f => [Send to f] | None => [] end, ()).
Proof. unfold sendProbe. rewrite run_gets. by destruct (encodeFrame _). Qed.

(** The receiving end of one answer. *)
Lemma HandleRange_takes c from t g l rest extra more A :
  Forall (transferable t (c_realMs c) g) l -> ready g t (l ++ rest) A ->
  (more = true -> extra = [] /\ l <> []) -> validString t = true ->
  let res := HandleRange c from t (recordToProto <$> l ++ extra) more A in
  Forall (holds (store res.1.1) t) l /\
  (forall r, holds (store A) t r -> holds (store res.1.1) t r) /\
  (more = false -> lastFrame from res.1.2 = None) /\
  (forall x, more = true -> last l = Some x ->
     ready g t rest res.1.1 /\ is_Some (probeFrame t (Some (nextStart x)) res.1.1) /\
     lastFrame from res.1.2 = probeFrame t (Some (nextStart x)) res.1.1).
Proof.
  intros Hl HA Hmore Ht res. unfold res, HandleRange. clear res.
  set (all := recordToProto <$> l ++ extra).
  destruct (take_keeps c all A) as [Hkeep Hquiet].
  assert (Hall : Forall (holds (store (forEach all (handleRangeRecord c) A).1.1) t) l /\
    (extra = [] -> ready g t rest (forEach all (handleRangeRecord c) A).1.1)).
  { unfold all. rewrite fmap_app, forEach_app.
    destruct (take_records c t g l A rest Hl HA) as [Hready Hh].
    set (e1 := (forEach (recordToProto <$> l) (handleRangeRecord c) A).1.1) in *.
    split; [|by intros ->].
    eapply Forall_impl; [exact Hh|]. intros r. apply (take_keeps c (recordToProto <$> extra) e1). }
  destruct Hall as [Hall Hready].
  destruct (forEach all (handleRangeRecord c) A) as [[e1 o1] u] eqn:Er. cbn [fst snd] in *.
  rewrite (run_bind _ _ _ _ _ _ Er).
  destruct more.
  - destruct (Hmore eq_refl) as [-> Hne]. unfold all. rewrite app_nil_r, fmap_last.
    destruct (last l) as [x|] eqn:El; [|by apply last_None in El].
    change (recordToProto <$> Some x) with (Some (recordToProto x)). cbv iota beta zeta.
    change (pb_NodeId (recordToProto x) ++ [Byte.x01])
      with (nextStart x).
    rewrite sendProbe_run. fold (probeFrame t (Some (nextStart x)) e1).
    assert (is_Some (probeFrame t (Some (nextStart x)) e1)) as [f Hf]
      by (apply encodeFrame_Some; exact Ht).
    rewrite Hf. cbn [fst snd]. split_and!; [exact Hall|intros r; apply Hkeep|done|].
    intros x' _ [= <-]. rewrite Hf. split_and!; [by apply Hready|eauto|].
    unfold lastFrame. by rewrite framesTo_app, framesTo_send, last_snoc.
  - assert (Hskip : (match last all with Some _ => skip | None => skip end) e1 = (e1, [], ()))
      by (by destruct (last all)).
    rewrite Hskip. cbn [fst snd]. split_and!; [exact Hall|intros r; apply Hkeep| |done].
    intros _. unfold lastFrame. by rewrite framesTo_app, framesTo_applied.
Qed.

(** What a pull needs of the responder: its signed records of the topic are owner records
    the receiver will take, everything it sends can be encoded, and the cursor cannot
    step over one of its NodeIDs. *)
Record servable (c : clock) (t : Topic) (g : inboundGate) (B : engine) : Prop := {
  sv_wf : wf_store (store B);
  sv_max : 0 < maxRangeSize B;
  sv_topic : validString t = true;
  sv_records : Forall (transferable t (c_realMs c) g) (topicRecordsSigned (store B) t);
  sv_wire : forall r, r ∈ topicRecordsSigned (store B) t \/ r ∈ topicAttestations (store B) t ->
    wireable r = true;
  sv_cursor : cursor_safe (topicRecordsSigned (store B) t)
}.

(** The two nodes ended up with equal roots over different records: a SHA-256 collision, or
    one signature on two slots of the same node. *)
Definition misled (t : Topic) (A B : engine) : Prop :=
  (exists start, collision (rangeRecords (store A) t start None)
                           (rangeRecords (store B) t start None)) \/
  (exists r1 r2, slot (store A) t (keyOf r1) = Some r1 /\ slot (store B) t (keyOf r2) = Some r2 /\
     r_Sig r1 = r_Sig r2 /\ r_Sig r2 <> [] /\ keyOf r1 <> keyOf r2).

Lemma Forall_or_escape {A} (P : A -> Prop) (Q : Prop) l :
  (forall x, x ∈ l -> P x \/ Q) -> Forall P l \/ Q.
Proof.
  induction l as [|x l IH]; intros Hl; [left; constructor|].
  destruct (Hl x ltac:(left)) as [Hx|?]; [|by right].
  destruct IH as [?|?]; [|left; by constructor|by right]. intros y Hy. apply Hl. by right.
Qed.

Lemma elem_of_range_signed s t a b r : r ∈ rangeRecords s t a b -> r ∈ topicRecordsSigned s t.
Proof. unfold rangeRecords. intros [? _]%list_filter_elem. done. Qed.

(** Equal roots: the prober holds everything, or has been misled. *)
Lemma equal_roots_hold c t g l start A B :
  ready g t l A -> servable c t g B ->
  topicMerkleRoot (store B) t start None = topicMerkleRoot (store A) t start None ->
  Forall (holds (store A) t) (rangeRecords (store B) t start None) \/ misled t A B.
Proof.
  intros [HwA Hst _ _] HB E. destruct HB as [HwB _ _ Hrec _ _].
  rewrite Forall_forall in Hrec.
  destruct (roots_inj _ _ (store A) (store B) t start None) as [Es|Hc];
    [| |done| |right; left; by exists start].
  - apply Forall_forall. intros r Hr. apply elem_of_rangeRecords in Hr as (Hs & Hsig & _); [|done].
    by apply (Hst (keyOf r)).
  - apply Forall_forall. intros r Hr. apply elem_of_range_signed in Hr. by apply Hrec.
  - apply Forall_or_escape. intros r Hr.
    assert (Hin : stampOf r ∈ stampOf <$> rangeRecords (store A) t start None).
    { rewrite Es. apply list_elem_of_fmap. eauto. }
    apply list_elem_of_fmap in Hin as (r' & Heq & Hr'). unfold stampOf in Heq.
    injection Heq as _ Hh Hsig.
    apply elem_of_rangeRecords in Hr as (HsB & Hne & _); [|done].
    apply elem_of_rangeRecords in Hr' as (HsA & _ & _); [|done].
    destruct (decide (keyOf r' = keyOf r)) as [Ek|Ek].
    + left. exists r'. rewrite <- Ek. split; [done|]. unfold newer, sigLess.
      by rewrite Hh, Hsig, lex_less_blt, blt_irrefl, Z.gtb_ltb, Z.ltb_irrefl, andb_false_r.
    + right. right. exists r', r. by split_and!.
Qed.

(** The whole exchange, from any cursor. *)
Lemma pull_from m c a b t g start frame A B :
  let l := rangeRecords (store B) t start None in
  servable c t g B -> ready g t l A -> present start = start ->
  probeFrame t start A = Some frame -> (length l < m)%nat ->
  let res := pull m c a b frame A B in
  store res.2 = store B /\ (forall r, holds (store A) t r -> holds (store res.1) t r) /\
  (Forall (holds (store res.1) t) l \/ misled t res.1 B).
Proof.
  revert start frame A B. induction m as [|m IH]; intros start frame A B l HB HA Hst Hf Hm;
    [lia|]. cbn [pull]. cbv zeta.
  assert (Hrf : ReceiveFrame c a frame B =
    HandleProbe c a t start None (topicMerkleRoot (store A) t start None) B).
  { unfold ReceiveFrame. rewrite (encodeFrame_decodes _ _ Hf). simpl. by rewrite Hst. }
  rewrite Hrf. clear Hrf.
  destruct (decide (topicMerkleRoot (store B) t start None = topicMerkleRoot (store A) t start None))
    as [Eroot|Hroot].
  { unfold HandleProbe. rewrite run_gets, (proj2 (bytesEqual_eq _ _) Eroot). cbn.
    split_and!; [done|done|]. by apply (equal_roots_hold c t g l start A B). }
  destruct (HandleProbe_answers c a t start _ B Hroot (sv_max _ _ _ _ HB))
    as (n & extra & more & HsB & HmB & Hans & Hextra & Hcase).
  destruct (HandleProbe c a t start None _ B) as [[B1 outB] u]. cbn [fst snd] in *. fold l in Hans, Hcase.
  assert (Hl : forall r, r ∈ l -> r ∈ topicRecordsSigned (store B) t)
    by (intros r; apply elem_of_range_signed).
  destruct (encodeFrame_Some (Frame_MerkleRange t (recordToProto <$> take n l ++ extra) more))
    as [answer Hanswer].
  { simpl. rewrite (sv_topic _ _ _ _ HB). simpl. apply forallb_forall. intros p Hp.
    apply list_elem_of_In, list_elem_of_fmap in Hp as (r & -> & Hr).
    assert (Hw : wireable r = true); [|exact Hw].
    apply (sv_wire _ _ _ _ HB). apply elem_of_app in Hr as [Hr|Hr]; [left|right; auto].
    apply Hl. apply elem_of_take in Hr as (i & Hi & _). by eapply list_elem_of_lookup_2. }
  rewrite (Hans answer Hanswer).
  assert (Hrf : ReceiveFrame c b answer A =
    HandleRange c b t (recordToProto <$> take n l ++ extra) more A).
  { unfold ReceiveFrame. by rewrite (encodeFrame_decodes _ _ Hanswer). }
  rewrite Hrf. clear Hrf.
  assert (Hgood : Forall (transferable t (c_realMs c) g) (take n l)).
  { apply Forall_take, Forall_forall. intros r Hr. pose proof (sv_records _ _ _ _ HB) as Hg.
    rewrite Forall_forall in Hg. auto. }
  rewrite <- (take_drop n l) in HA.
  assert (Hmore : more = true -> extra = [] /\ take n l <> []).
  { intros ->. destruct Hcase as [[? _]|(_ & -> & _ & Hn)]; [done|]. split; [done|].
    intros E%(f_equal length). rewrite length_take in E. simpl in E. lia. }
  destruct (HandleRange_takes c b t g (take n l) (drop n l) extra more A Hgood HA Hmore
    (sv_topic _ _ _ _ HB)) as (Hholds & Hkeep & Hdone & Hnext).
  destruct (HandleRange c b t _ more A) as [[A1 outA] u']. cbn [fst snd] in *.
  destruct Hcase as [[-> ->]|(-> & -> & -> & Hn)].
  - rewrite (Hdone eq_refl). cbn. split_and!; [done|done|left]. by rewrite firstn_all in Hholds.
  - destruct (l !! (splitPoint l - 1)%nat) as [x|] eqn:Ex.
    2:{ apply lookup_ge_None in Ex. lia. }
    assert (Hlast : last (take (splitPoint l) l) = Some x).
    { rewrite last_lookup, length_take. rewrite lookup_take_lt by lia.
      by replace (pred (splitPoint l `min` length l)) with (splitPoint l - 1)%nat by lia. }
    destruct (Hnext x eq_refl Hlast) as (HA1 & [next Hp] & ->). rewrite Hp.
    assert (Hrest : rangeRecords (store B1) t (Some (nextStart x)) None = drop (splitPoint l) l).
    { rewrite HsB. apply (range_resumes (topicRecordsSigned (store B) t) start (splitPoint l) x).
      - apply topicRecordsWhere_sorted, (sv_wf _ _ _ _ HB).
      - apply (sv_cursor _ _ _ _ HB).
      - exact Ex.
      - unfold rangeRecords in l. fold l. lia.
      - intros y Hy. apply (splitPoint_spec l) with (y := y); [by intros E; rewrite E in Hn; simpl in Hn; lia|done|done]. }
    assert (HB1 : servable c t g B1).
    { destruct HB as [? ? ? ? ? ?]. split; rewrite ?HsB, ?HmB; done. }
    destruct (IH (Some (nextStart x)) next A1 B1) as (HsR & HkR & HhR).
    + exact HB1.
    + by rewrite Hrest.
    + unfold nextStart. simpl. by destruct (toBytes (r_NodeID x)).
    + exact Hp.
    + rewrite Hrest, length_drop. lia.
    + split_and!; [congruence|auto|]. rewrite Hrest in HhR.
      destruct HhR as [HhR|Hmis].
      * left. rewrite <- (take_drop (splitPoint l) l). apply Forall_app. split; [|done].
        eapply Forall_impl; [exact Hholds|]. intros r. apply HkR.
      * right. unfold misled in *. by rewrite HsB in Hmis.
Qed.
End pull.
