(* ===== verification/MerkleSpec.v ===== *)
(** * Properties of anti-entropy

    What equal roots mean, and that a pull transfers every record of the peer. *)
From S2P Require Import Prelude Types Crypto Hlc Sig Crdt CrdtLemmas CrdtInv CrdtReads Gate Peer.
From S2P Require Import Codec Engine Merkle EngineLemmas SyncLemmas Node Samples.

(** C33: a root stands for the signed records of its range. Two nodes whose slots hold the
    same signed records compute the same root, whatever unsigned tombstones they hold and
    in whatever order their maps are iterated. Conversely, two nodes that compute the same
    root hold signed records with the same NodeIDs, stamps and signatures, in the same
    order, unless computing the two roots hashed two different messages to one digest. *)
Theorem merkle_root_exact `{Sha256Laws} (O1 O2 : MapOrder) (s1 s2 : recordStore) (t : Topic)
    (a b : option bytes) :
  wf_store s1 -> wf_store s2 ->
  ((forall k r, r_Sig r <> [] -> slot s1 t k = Some r <-> slot s2 t k = Some r) ->
   @topicMerkleRoot _ O1 s1 t a b = @topicMerkleRoot _ O2 s2 t a b) /\
  (Forall (fun r => is_u64 (r_HLC r)) (@rangeRecords O1 s1 t a b ++ @rangeRecords O2 s2 t a b) ->
   @topicMerkleRoot _ O1 s1 t a b = @topicMerkleRoot _ O2 s2 t a b ->
   stampOf <$> @rangeRecords O1 s1 t a b = stampOf <$> @rangeRecords O2 s2 t a b \/
   collision (@rangeRecords O1 s1 t a b) (@rangeRecords O2 s2 t a b)).
Proof.
  intros W1 W2. split.
  - intros Hs. unfold topicMerkleRoot. by rewrite (rangeRecords_ext O1 O2 s1 s2).
  - intros [F1 F2]%Forall_app E. by apply roots_inj.
Qed.

(** Two nodes with the records of one peer, one of which also holds an unsigned tombstone
    and iterates its maps backwards, agree on the root. *)
Lemma merkle_root_exact_witness :
  let _ := ToySha256.hash in
  let r := own_record 3 5 "" "up" in
  let s1 := (@ApplyExt std_order 1000 newRecordStore r).1 in
  let tomb := synthTombstone "fleet" (id_of 4) "" 9 in
  let s2 := (@ApplyExt rev_order 1000 (@ApplyExt rev_order 1000 newRecordStore tomb).1 r).1 in
  s1 <> s2 /\ @topicMerkleRoot _ std_order s1 "fleet" None None =
              @topicMerkleRoot _ rev_order s2 "fleet" None None.
Proof.
  intros o r s1 tomb s2.
  assert (W1 : wf_store s1) by (apply wf_ApplyExt, wf_newRecordStore).
  assert (W2 : wf_store s2) by (apply wf_ApplyExt, wf_ApplyExt, wf_newRecordStore).
  split.
  { intros E. apply (f_equal (fun s => mlen (records (topicOf s "fleet")))) in E.
    vm_compute in E. discriminate. }
  apply (@merkle_root_exact ToySha256.hash ToySha256.laws std_order rev_order s1 s2 "fleet" None None W1 W2).
  intros k r' Hsig. unfold s1, s2.
  rewrite !slot_ApplyExt_owner; try (vm_compute; reflexivity).
  change (slot newRecordStore (r_Topic r) (keyOf r)) with (@None Record_).
  change (slot newRecordStore (r_Topic tomb) (keyOf tomb)) with (@None Record_).
  change (slot newRecordStore (r_Topic r) k) with (@None Record_).
  change (slot newRecordStore "fleet" k) with (@None Record_).
  assert (Hne : keyOf r <> keyOf tomb) by (intros E; vm_compute in E; discriminate).
  rewrite (decide_False (P := r_Topic r = r_Topic tomb /\ keyOf r = keyOf tomb)) by tauto.
  destruct (decide ("fleet"%string = r_Topic r /\ k = keyOf r)) as [Hk|Hk]; [done|].
  case_decide; [|done]. split; intros E; [discriminate|]. exfalso. apply Hsig.
  injection E as <-. reflexivity.
Defined.

(** ** Pulls *)

(** C7: a pull transfers everything. Node [a] pulls a topic from node [b]: it probes, [b]
    answers with the records of the range or with a first part of them, cut at the end of
    a node's records, and [a] asks for the rest from there on. If [b]'s signed records are
    owner records that [a]'s gate admits and that fit in [a]'s store, and no NodeID of
    [b]'s lies between another one and the cursor after it, then after as many exchanges
    as [b] has records, and one more, [a] holds every signed record of [b]'s or something
    newer in its slot, has lost nothing, and [b] is unchanged; or else equal roots misled
    it, by a collision of SHA-256 or by one signature on two slots. *)
Theorem pull_complete `{Sha256Laws} `{Ed25519} `{ProtoLaws} `{MapOrder} (c : clock) (a b : NodeID)
    (t : Topic) (A B : engine) :
  let l := topicRecordsSigned (store B) t in
  servable c t (gate A) B -> wf_store (store A) -> stamps_fit (store A) t ->
  fits (store A) t l ->
  exists frame, probeFrame t None A = Some frame /\
    let res := pull (S (length l)) c a b frame A B in
    store res.2 = store B /\
    (forall r, holds (store A) t r -> holds (store res.1) t r) /\
    (Forall (holds (store res.1) t) l \/ misled t res.1 B).
Proof.
  intros l HB Hwf Hst Hfit.
  destruct (encodeFrame_Some (Frame_Merkle t None None (topicMerkleRoot (store A) t None None)))
    as [frame Hf]; [exact (sv_topic _ _ _ _ HB)|].
  assert (Hl : rangeRecords (store B) t None None = l).
  { unfold rangeRecords. fold l. clear. induction l as [|r l IH]; [done|]. simpl. by rewrite IH. }
  exists frame. split; [exact Hf|].
  pose proof (pull_from (S (length l)) c a b t (gate A) None frame A B) as Hp.
  rewrite Hl in Hp. apply Hp; [exact HB| |done|exact Hf|lia]. by split.
Qed.

(** The hypotheses of a pull, as tests. *)
Definition transferableb `{Ed25519} (t : Topic) (nowMs : Z) (g : inboundGate) (r : Record_) : bool :=
  String.eqb (r_Topic r) t && negb (IsObserverAttestation r) && wellSigned r &&
  (match (Admit nowMs g r).2 with None => true | Some _ => false end) &&
  (0 <=? r_HLC r) && (r_HLC r <? 2 ^ 64) && wireable r.

Definition cursor_safeb (l : list Record_) : bool :=
  forallb (fun x => forallb (fun y =>
    negb (blt (toBytes (r_NodeID x)) (toBytes (r_NodeID y))) ||
    negb (blt (toBytes (r_NodeID y)) (nextStart x))) l) l.

Lemma transferableb_spec `{Ed25519} t nowMs g r :
  transferableb t nowMs g r = true -> transferable t nowMs g r /\ wireable r = true.
Proof.
  unfold transferableb. rewrite !andb_true_iff, String.eqb_eq, negb_true_iff, Z.leb_le, Z.ltb_lt.
  intros [[[[[[Ht Ho] Hs] Ha] Hl] Hu] Hw]. split; [|exact Hw]. split; [done..| |by split].
  apply Admit_None. by destruct (Admit nowMs g r).2.
Qed.

Lemma forallb_elem {A} (f : A -> bool) l x : forallb f l = true -> x ∈ l -> f x = true.
Proof. rewrite forallb_forall. intros Hf Hx. apply Hf. by apply list_elem_of_In. Qed.

Lemma cursor_safeb_spec l : cursor_safeb l = true -> cursor_safe l.
Proof.
  intros Hl x y Hx Hy Hlt. pose proof (forallb_elem _ _ x Hl Hx) as Hxl.
  pose proof (forallb_elem _ _ y Hxl Hy) as Hxy. cbv beta in Hxy. rewrite Hlt in Hxy.
  by apply negb_true_iff in Hxy.
Qed.

(** Node 1, which holds nothing, pulls the records of seventy peers from node 2: more than
    fit in one answer. *)
Definition seventy : list Record_ :=
  (fun i => own_record (3 + i) (100 + i) "" "up") <$> seqZ 0 70.

Section seventy.
#[local] Existing Instances ToySha256.hash ToySha256.laws ToyEd25519.scheme ToyProto.codec ToyProto.laws std_order.

Definition puller : engine := n_engine (sample_node 1 [id_of 2]).
Definition holder : engine :=
  let e := n_engine (sample_node 2 [id_of 1]) in
  set_store e (applyAll (store e) ((fun r => (1000, r)) <$> seventy)).

Lemma seventy_checks :
  let l := topicRecordsSigned (store holder) "fleet" in
  length l = 70%nat /\ forallb (transferableb "fleet" 1000 (gate puller)) l = true /\
  cursor_safeb l = true /\ forallb (fun x => len (ofNode (r_NodeID x) l) =? 1) l = true /\
  topicAttestations (store holder) "fleet" = [] /\ maxRangeSize holder = 64.
Proof.
  intros l. split; [|split; [|split; [|split; [|split]]]]; vm_compute; reflexivity.
Qed.

Lemma holder_servable : servable (at_ms 1000) "fleet" (gate puller) holder.
Proof.
  destruct seventy_checks as (Hlen & Hall & Hcur & Hkeys & Hatt & Hmax).
  set (l := topicRecordsSigned (store holder) "fleet") in *.
  assert (Hgood : forall r, r ∈ l -> transferable "fleet" 1000 (gate puller) r /\ wireable r = true).
  { intros r Hr. apply transferableb_spec. exact (forallb_elem _ _ r Hall Hr). }
  split; fold l; rewrite ?Hatt, ?Hmax.
  - apply wf_applyAll, wf_newRecordStore.
  - reflexivity.
  - reflexivity.
  - apply Forall_forall. intros r Hr. exact (proj1 (Hgood r Hr)).
  - intros r [Hr|Hr]; [exact (proj2 (Hgood r Hr))|destruct (not_elem_of_nil r Hr)].
  - exact (cursor_safeb_spec l Hcur).
Qed.

(** One record each of seventy nodes fits in an empty store. *)
Lemma seventy_fit s l :
  s = newRecordStore -> length l = 70%nat ->
  forallb (fun x => len (ofNode (r_NodeID x) l) =? 1) l = true -> fits s "fleet" l.
Proof.
  intros -> Hlen Hkeys. split.
  - done.
  - unfold len. rewrite Hlen. done.
  - right. intros node. change (0 + len (ofNode node l) <= 4096).
    destruct (ofNode node l) as [|x l'] eqn:E; [done|].
    assert (Hx : x ∈ ofNode node l) by (rewrite E; left).
    apply list_filter_elem in Hx as [Hx Hn]. apply String.eqb_eq in Hn.
    apply (forallb_elem _ _ x Hkeys) in Hx. rewrite Hn, E in Hx. apply Z.eqb_eq in Hx.
    by rewrite Hx.
Qed.

Lemma puller_fits : fits (store puller) "fleet" (topicRecordsSigned (store holder) "fleet").
Proof.
  destruct seventy_checks as (Hlen & _ & _ & Hkeys & _ & _).
  apply seventy_fit; [vm_compute; reflexivity|exact Hlen|exact Hkeys].
Qed.

Lemma pull_complete_witness :
  let l := topicRecordsSigned (store holder) "fleet" in
  exists frame, probeFrame "fleet" None puller = Some frame /\
    let res := pull (S (length l)) (at_ms 1000) (id_of 1) (id_of 2) frame puller holder in
    store res.2 = store holder /\
    (forall r, holds (store puller) "fleet" r -> holds (store res.1) "fleet" r) /\
    (Forall (holds (store res.1) "fleet") l \/ misled "fleet" res.1 holder).
Proof.
  apply (pull_complete (at_ms 1000) (id_of 1) (id_of 2) "fleet" puller holder).
  - apply holder_servable.
  - assert (store puller = newRecordStore) as -> by (vm_compute; reflexivity).
    apply wf_newRecordStore.
  - assert (store puller = newRecordStore) as -> by (vm_compute; reflexivity).
    intros k r Hk. discriminate Hk.
  - apply puller_fits.
Defined.
End seventy.
