(* ===== verification/NodeLemmas.v ===== *)
(** * Runs of a node

    The steps a wired node takes, and what any run of them may have put into its store:
    records that passed the inbound checks, and the node's own signed records. *)
From S2P Require Import Prelude Types Crypto Hlc Sig Crdt CrdtLemmas CrdtInv CrdtReads Gate Peer.
From S2P Require Import Codec Engine Merkle EngineLemmas Node.
From stdpp Require Import relations.
#[local] Open Scope Z_scope.

(** ** Provenance through a sweep *)

Lemma provenance_kept `{MapOrder} hist s s' t ts nowMs ttl :
  config s = config s' -> provenance hist s t ts -> provenance hist s' t (kept nowMs ttl ts).
Proof.
  intros Hc Hp. apply (provenance_mono hist hist _ _ _ _ Hc (fun _ Hx => Hx)) in Hp as [Hr Hw].
  split.
  - intros k r. rewrite kept_records. destruct (records ts !! k) as [r'|] eqn:E; [|done].
    case_match; [done|]. intros [= <-]. auto.
  - intros n W o a. rewrite kept_attestations. apply Hw.
Qed.

Lemma reap_config s nowMs ttl : config (reapExpired s nowMs ttl).1 = config s.
Proof. by destruct ttl. Qed.

Lemma provenance_reap `{MapOrder} hist s nowMs ttl :
  (forall t ts, byTopic s !! t = Some ts -> provenance hist s t ts) ->
  forall t ts, byTopic (reapExpired s nowMs (Some ttl)).1 !! t = Some ts ->
    provenance hist (reapExpired s nowMs (Some ttl)).1 t ts.
Proof.
  intros Hs t ts Hts. pose proof (reap_topicOf s nowMs ttl t) as Htop.
  assert (Ht : topicOf (reapExpired s nowMs (Some ttl)).1 t = ts)
    by (unfold topicOf; by rewrite Hts).
  rewrite <- Ht, Htop. apply (provenance_kept hist s); [by rewrite reap_config|].
  simpl in Hts. rewrite map_lookup_imap in Hts. unfold topicOf.
  destruct (byTopic s !! t) as [ts0|] eqn:E; [|done]. by apply Hs.
Qed.

Section node.
Context `{Sha256} `{Ed25519Laws} `{Proto} `{MapOrder}.

(** ** The node's own records *)

Lemma newRecord_run c n topic node key body tomb observer at_ e :
  exists stamp h, newRecord c n topic node key body tomb observer at_ e =
    (set_hlc e h, [], signRecord (mkRecord topic node stamp body tomb [] [] key observer at_)
                        (PrivKey (n_cfg n))).
Proof.
  unfold newRecord, mbind, M_bind, hlcNow. destruct (Now (hlc e) (c_realMs c)) as [stamp h].
  by exists stamp, h.
Qed.

Lemma wellSigned_signRecord r priv : ed_key priv -> wellSigned (signRecord r priv) = true.
Proof.
  intros Hk. unfold wellSigned. cbn [r_PubKey signRecord].
  unfold len, PublicKeySize. rewrite ed_public_length by done. simpl.
  by apply verify_signRecord.
Qed.

(** What the store of a node with configuration [cfg] may be given. *)
Definition legit (cfg : Config) (g : inboundGate) (r : Record_) : Prop :=
  wellSigned r = true /\
  ((exists nowMs, admissible nowMs g r) \/
   (r_PubKey r = ed_public (PrivKey cfg) /\ bindID r = NodeID_ cfg)).

Program Definition node_admission (cfg : Config) : Admission :=
  {| acceptable := legit cfg |}.
Next Obligation.
  intros cfg g g' r Hg [Hs [(now & Ha)|Hl]]; (split; [done|]); [left|by right].
  exists now. by apply (admissible_policy _ g).
Qed.
Next Obligation. intros cfg g r [Hs Ha]. split; [done|by left]. Qed.

Lemma legit_own cfg g r :
  ed_key (PrivKey cfg) -> bindID r = NodeID_ cfg -> legit cfg g (signRecord r (PrivKey cfg)).
Proof.
  intros Hk Hb. split; [by apply wellSigned_signRecord|]. right. by split.
Qed.

(** ** Local publication *)
Section local.
Context (cfg : Config).
#[local] Existing Instance node_admission | 0.

Lemma set_hlc_evolves e h : @evolves _ _ (node_admission cfg) e (set_hlc e h).
Proof. by apply evolves_same. Qed.

Lemma applyExt_evolves c r :
  (forall g, legit cfg g r) -> follows (@evolves _ _ (node_admission cfg)) (applyExt c r).
Proof.
  intros Hr e. unfold applyExt. destruct (ApplyExt (c_nowMs c) (store e) r) as [s res] eqn:E.
  simpl. split; [done|]. exists [(c_nowMs c, r)]. simpl. rewrite E. split; [done|].
  constructor; [apply Hr|constructor].
Qed.

Lemma Broadcast_evolves c r : follows (@evolves _ _ (node_admission cfg)) (Broadcast c r).
Proof.
  unfold Broadcast, eagerPushToTreeEdges. follow; [apply bestTreeEdges_evolves|apply lazyPush_evolves].
Qed.

Lemma plumPublish_evolves c r :
  (forall g, legit cfg g r) -> follows (@evolves _ _ (node_admission cfg)) (plumPublish c r).
Proof.
  intros Hr. unfold plumPublish, Engine.apply, eagerPushToTreeEdges.
  follow; auto using applyExt_evolves, bestTreeEdges_evolves, lazyPush_evolves.
Qed.

Lemma applyAndReport_evolves c r :
  (forall g, legit cfg g r) -> follows (@evolves _ _ (node_admission cfg)) (applyAndReport c r).
Proof. intros Hr. unfold applyAndReport, Engine.apply. follow; auto using applyExt_evolves. Qed.

Lemma retire_evolves c n r :
  ed_key (PrivKey cfg) -> n_cfg n = cfg ->
  follows (@evolves _ _ (node_admission cfg)) (retire c n r).
Proof.
  intros Hk Hn e. unfold retire. unfold mbind at 1, M_bind at 1.
  destruct (newRecord_run c n (r_Topic r) (NodeID_ (n_cfg n)) (r_Key r) [] true "" 0 e)
    as (stamp & h & ->). rewrite Hn.
  set (tomb := signRecord _ _).
  assert (Hl : forall g, legit cfg g tomb) by (intros g; by apply legit_own).
  set (m := applyAndReport c tomb ;; _).
  assert (Hm : follows (@evolves _ _ (node_admission cfg)) m).
  { unfold m. follow; [by apply applyAndReport_evolves|apply Broadcast_evolves]. }
  specialize (Hm (set_hlc e h)). destruct (m (set_hlc e h)) as [[e2 o2] u]. simpl in *.
  transitivity (set_hlc e h); [apply set_hlc_evolves|done].
Qed.
End local.

(** ** Steps and runs *)

Inductive nstep (n : nodeImpl) : nodeImpl -> Prop :=
  | step_receive c from frame : nstep n (OnReceive c n from frame).1
  | step_tick c lastReap t : nstep n (tickLoopStep c n lastReap t).1.1
  | step_publish c topic key body : nstep n (PublishKeyed c n topic key body).1.1
  | step_tombstone c topic key : nstep n (PublishKeyedTombstone c n topic key).1.1
  | step_observer c topic target : nstep n (PublishObserverTombstone c n topic target).1.1
  | step_tenant c tenant : nstep n (SetTenant c n tenant).1.1
  | step_join id : nstep n (OnPeerJoin n id)
  | step_leave id : nstep n (OnPeerLeave n id)
  | step_probe id : nstep n (ProbePeer n id).1
  | step_pause b : nstep n (setPaused n b).1
  | step_role r : nstep n (SetRole n r).1
  | step_start : nstep n (Start n).1
  | step_stop : nstep n (Stop n).1.

(** Engine-level change of a step: an [evolves] with the node's own records, or a sweep. *)
Definition ndelta (n n' : nodeImpl) : Prop :=
  n_cfg n' = n_cfg n /\ wired n' = wired n /\
  (@evolves _ _ (node_admission (n_cfg n)) (n_engine n) (n_engine n') \/
   exists e1 nowMs ttl, TopicTTL (n_cfg n) = Some ttl /\
     @evolves _ _ (node_admission (n_cfg n)) (n_engine n) e1 /\
     n_engine n' = set_store e1 (reapExpired (store e1) nowMs (Some ttl)).1).

Lemma onEngine_delta {A} n n' (m : M A) :
  n_cfg n' = n_cfg n -> wired n' = wired n -> n_engine n' = n_engine n ->
  follows (@evolves _ _ (node_admission (n_cfg n))) m ->
  ndelta n (onEngine n' m).1.1 /\
  @evolves _ _ (node_admission (n_cfg n)) (n_engine n) (n_engine (onEngine n' m).1.1) /\
  n_cfg (onEngine n' m).1.1 = n_cfg n /\ wired (onEngine n' m).1.1 = wired n.
Proof.
  intros Hc Hw He Hm. unfold onEngine. specialize (Hm (n_engine n')). rewrite He in *.
  destruct (m (n_engine n)) as [[e out] a]. simpl in *. split; [|done].
  split_and!; [done|done|by left].
Qed.

Lemma publishOwn_delta c n topic key body tomb :
  ed_key (PrivKey (n_cfg n)) -> ndelta n (publishOwn c n topic key body tomb).1.1.
Proof.
  intros Hk. unfold publishOwn, onEngine.
  destruct (newRecord_run c n topic (NodeID_ (n_cfg n)) key body tomb "" 0 (n_engine n))
    as (stamp & h & ->).
  set (r := signRecord _ _). assert (Hl : forall g, legit (n_cfg n) g r).
  { intros g. apply legit_own; [done|]. unfold bindID, IsObserverAttestation. simpl.
    by rewrite andb_false_r. }
  destruct (wired n) eqn:Hw; simpl negb; cbv iota.
  - assert (Hm : follows (@evolves _ _ (node_admission (n_cfg n)))
      (plumPublish c r ;; emit (Applied r))) by (follow; by apply plumPublish_evolves).
    specialize (Hm (set_hlc (n_engine n) h)). cbn [n_engine set_engine].
    destruct ((plumPublish c r ;; emit (Applied r)) (set_hlc (n_engine n) h)) as [[e2 o2] u].
    simpl in *. split_and!; [done|done|left].
    transitivity (set_hlc (n_engine n) h); [apply set_hlc_evolves|done].
  - split_and!; [done|done|left]. apply set_hlc_evolves.
Qed.

Lemma ndelta_refl n : ndelta n n.
Proof. split_and!; [done|done|left; reflexivity]. Qed.

Lemma ndelta_engine n n' :
  n_cfg n' = n_cfg n -> wired n' = wired n ->
  @evolves _ _ (node_admission (n_cfg n)) (n_engine n) (n_engine n') -> ndelta n n'.
Proof. intros. split_and!; [done|done|by left]. Qed.

Lemma observer_delta c n topic target :
  ed_key (PrivKey (n_cfg n)) -> NodeID_ (n_cfg n) <> "" ->
  ndelta n (PublishObserverTombstone c n topic target).1.1.
Proof.
  intros Hk Hid. unfold PublishObserverTombstone, onEngine.
  destruct (stopped n); [apply ndelta_refl|]. destruct (_ || _)%bool; [apply ndelta_refl|].
  destruct (newRecord_run c n topic target "" [] true (NodeID_ (n_cfg n)) (c_nowMs c) (n_engine n))
    as (stamp & h & ->).
  cbn [fst snd n_engine set_engine wired].
  set (r := signRecord _ _). assert (Hl : forall g, legit (n_cfg n) g r).
  { intros g. apply legit_own; [done|]. unfold bindID, IsObserverAttestation. simpl.
    by rewrite (proj2 (String.eqb_neq _ _) Hid). }
  pose proof (applyAndReport_evolves (n_cfg n) c r Hl (set_hlc (n_engine n) h)) as H1'.
  destruct (applyAndReport c r (set_hlc (n_engine n) h)) as [[e1 o1] u1].
  cbn [fst snd n_engine set_engine wired] in *.
  assert (Hev : @evolves _ _ (node_admission (n_cfg n)) (n_engine n) e1).
  { transitivity (set_hlc (n_engine n) h); [apply set_hlc_evolves|done]. }
  destruct (wired n) eqn:Hw; simpl negb; cbv iota; [|apply ndelta_engine; [done|simpl; congruence|done]].
  pose proof (Broadcast_evolves (n_cfg n) c r e1) as H2'.
  destruct (Broadcast c r e1) as [[e2 o2] u2]. cbn [fst snd] in *.
  apply ndelta_engine; [done|simpl; congruence|]. by transitivity e1.
Qed.

Lemma tenant_delta c n tenant :
  ed_key (PrivKey (n_cfg n)) -> ndelta n (SetTenant c n tenant).1.1.
Proof.
  intros Hk. unfold SetTenant. destruct (String.eqb _ _); [apply ndelta_refl|].
  set (n1 := mkNode _ _ _ _ _ _ _ tenant).
  pose proof (onEngine_delta n n1 (forEach (ownRecords (store (n_engine n1)) (NodeID_ (n_cfg n1)))
    (retire c n1)) eq_refl eq_refl eq_refl) as (Hd & _).
  { apply follows_forEach; [apply _|]. intros r. by apply retire_evolves. }
  destruct (onEngine n1 _) as [[n2 out] u]. done.
Qed.

Lemma tick_delta c n lastReap t : ndelta n (tickLoopStep c n lastReap t).1.1.
Proof.
  unfold tickLoopStep, nodeTick. destruct (wired n) eqn:Hw; simpl negb; cbv iota.
  - pose proof (onEngine_delta n n (Tick c t) eq_refl eq_refl eq_refl (Tick_evolves c t))
      as (Hd & He & Hc & Hw').
    destruct (onEngine n (Tick c t)) as [[n1 out] u]. cbn [fst] in *. rewrite Hc.
    destruct (TopicTTL (n_cfg n)) as [ttl|] eqn:Ettl; [|done].
    destruct (match lastReap with None => true | Some l => timeSub t l >=? 30 * Second end);
      [|done].
    split_and!; [done|done|right]. exists (n_engine n1), (t / 1000000), ttl. by split_and!.
  - destruct (TopicTTL (n_cfg n)) as [ttl|] eqn:Ettl; [|apply ndelta_refl].
    destruct (match lastReap with None => true | Some l => timeSub t l >=? 30 * Second end);
      [|apply ndelta_refl].
    split_and!; [done|done|right]. exists (n_engine n), (t / 1000000), ttl.
    split_and!; [done|reflexivity|done].
Qed.

Lemma nstep_delta n n' :
  ed_key (PrivKey (n_cfg n)) -> NodeID_ (n_cfg n) <> "" -> nstep n n' -> ndelta n n'.
Proof.
  intros Hk Hid Hs. destruct Hs.
  - unfold OnReceive. destruct (stopped n); [apply ndelta_refl|].
    pose proof (onEngine_delta n n (ReceiveFrame c from frame) eq_refl eq_refl eq_refl
      (ReceiveFrame_evolves c from frame)) as (Hd & _).
    by destruct (onEngine n _) as [[n2 out] u].
  - apply tick_delta.
  - unfold PublishKeyed. destruct (stopped n); [apply ndelta_refl|].
    destruct (_ >? _); [apply ndelta_refl|]. destruct (_ >? _); [apply ndelta_refl|].
    by apply publishOwn_delta.
  - unfold PublishKeyedTombstone. destruct (stopped n); [apply ndelta_refl|].
    destruct (_ >? _); [apply ndelta_refl|]. by apply publishOwn_delta.
  - by apply observer_delta.
  - by apply tenant_delta.
  - apply ndelta_engine; [done|done|by apply evolves_same].
  - apply ndelta_engine; [done|done|by apply evolves_same].
  - unfold ProbePeer. destruct (_ || _)%bool; [apply ndelta_refl|].
    pose proof (onEngine_delta n n (merkleProbePeer id) eq_refl eq_refl eq_refl
      (merkleProbePeer_evolves id)) as (Hd & _).
    by destruct (onEngine n _) as [[n2 out] u].
  - unfold setPaused. destruct (Bool.eqb _ _); [apply ndelta_refl|].
    apply ndelta_engine; [done|done|]. simpl. destruct (wired n); by apply evolves_same.
  - apply ndelta_engine; [done|done|reflexivity].
  - unfold Start. destruct (negb _); [apply ndelta_refl|]. destruct (stopped n); [apply ndelta_refl|].
    destruct (started n); [apply ndelta_refl|]. apply ndelta_engine; [done|done|reflexivity].
  - apply ndelta_engine; [done|done|reflexivity].
Qed.

(** ** The invariant of a run *)

(** With [hist] the records given to the store so far. *)
Record node_inv (n0 n : nodeImpl) (hist : list Record_) : Prop := {
  ni_cfg : n_cfg n = n_cfg n0;
  ni_policy : gate_policy (gate (n_engine n)) = gate_policy (gate (n_engine n0));
  ni_config : config (store (n_engine n)) = config (store (n_engine n0));
  ni_hist : Forall (legit (n_cfg n0) (gate (n_engine n0))) hist;
  ni_prov : forall t ts, byTopic (store (n_engine n)) !! t = Some ts ->
    provenance hist (store (n_engine n)) t ts
}.

Lemma node_inv_evolves n0 n n' hist :
  node_inv n0 n hist -> n_cfg n' = n_cfg n ->
  @evolves _ _ (node_admission (n_cfg n)) (n_engine n) (n_engine n') ->
  exists hist', node_inv n0 n' hist'.
Proof.
  intros [Hc Hp Hcfg Hh Hprov] Hc' [Hg (l & Hs & Hl)]. exists (hist ++ l.*2). split.
  - congruence.
  - congruence.
  - by rewrite Hs, applyAll_config.
  - apply Forall_app. split; [done|]. apply Forall_fmap. eapply Forall_impl; [exact Hl|].
    intros i Hi. simpl in *. rewrite Hc in Hi.
    by apply (@acceptable_policy _ (node_admission (n_cfg n0)) _ _ _ Hp).
  - intros t ts Hts. rewrite Hs in *.
    apply (provenance_mono (hist ++ l.*2) _ (store (n_engine n))); [by rewrite applyAll_config|done|].
    by apply provenance_run.
Qed.

Lemma node_inv_run n0 n n' hist :
  ed_key (PrivKey (n_cfg n0)) -> NodeID_ (n_cfg n0) <> "" ->
  node_inv n0 n hist -> rtc nstep n n' -> exists hist', node_inv n0 n' hist'.
Proof.
  intros Hk Hid Hi Hr. revert hist Hi. induction Hr as [n|n n1 n2 Hs Hr IH]; intros hist Hi; [eauto|].
  pose proof (ni_cfg _ _ _ Hi) as Hc.
  destruct (nstep_delta n n1) as (Hc1 & _ & [He|(e1 & nowMs & ttl & _ & He & Hreap)]);
    [by rewrite Hc|by rewrite Hc|done| |].
  - destruct (node_inv_evolves n0 n n1 hist Hi Hc1 He) as (hist' & Hi'). eauto.
  - destruct (node_inv_evolves n0 n (set_engine n e1) hist Hi eq_refl He) as (hist' & [Ha Hb Hd Hf Hg]).
    apply (IH hist'). cbn [n_engine set_engine n_cfg] in *. split.
    + congruence.
    + by rewrite Hreap.
    + rewrite Hreap. cbn [store set_store]. by rewrite reap_config.
    + done.
    + rewrite Hreap. cbn [store set_store]. by apply provenance_reap.
Qed.

(** A node whose store is still empty. *)
Lemma node_inv_fresh n : byTopic (store (n_engine n)) = ∅ -> node_inv n n [].
Proof. intros He. split; try done. intros t ts. by rewrite He. Qed.
End node.
