(* ===== verification/PublishSpec.v ===== *)
(** * What publishing does

    The owner publications of src/node.go on every branch: what is refused, what is signed
    and stored, who is told, and what is reported. *)
From S2P Require Import Prelude Types Crypto Hlc Sig Crdt CrdtLemmas CrdtInv Gate Peer Codec.
From S2P Require Import Engine Merkle EngineLemmas EngineBounds Push Node NodeLemmas EngineSpec.
From S2P Require Import Samples.

Section push.
Context `{Sha256} `{Ed25519} `{Proto} `{MapOrder}.

Lemma forEach_send_all (frame : bytes) l e :
  forEach l (fun edge => send edge frame) e = (e, sendsTo frame l, ()).
Proof.
  induction l as [|p l IH]; [done|]. cbn [forEach]. unfold mbind, M_bind. simpl. by rewrite IH.
Qed.

Lemma eagerPush_run r e :
  let '(e', out, _) := eagerPushToTreeEdges r e in
  e' = set_peers e (peers e') /\
  (match encodeFrame (frameEagerPush r (eagerTTL e)) with
   | Some _ => promoted (treeDeg e) (peers e) (peers e')
   | None => peers e' = peers e
   end) /\
  exists targets, out = eagerFrames r (eagerTTL e) targets /\ targets ≡ₚ TreeEdges (peers e').
Proof.
  unfold eagerPushToTreeEdges, eagerFrames. rewrite run_gets. unfold whenEncoded.
  destruct (encodeFrame _) as [frame|]; [|split; [by destruct e|]; split; [done|by eexists]].
  pose proof (bestTreeEdges_run e) as Hb.
  destruct (bestTreeEdges e) as [[e1 o1] edges] eqn:Eb. destruct Hb as (He1 & -> & Hperm & Hpr).
  rewrite (run_bind _ _ _ _ _ _ Eb), forEach_send_all. split; [done|]. split; [done|]. by exists edges.
Qed.

(** What pushing a record does, from a node [e] to the peers [pt']. First the best peers are
    promoted until there are enough tree edges, and each tree edge gets the record; then each
    other peer with room in its queue and tokens for the frame gets an announcement, unless
    the engine is paused, and queues and buckets are left as these offers leave them. A frame
    that does not encode is not sent, and if the push does not encode nobody is promoted. *)
Definition pushes (c : clock) (e : engine) (r : Record_) (pt' : peerTable) (out : list effect) : Prop :=
  exists pt targets,
    (match encodeFrame (frameEagerPush r (eagerTTL e)) with
     | Some _ => promoted (treeDeg e) (peers e) pt
     | None => pt = peers e
     end) /\
    targets ≡ₚ TreeEdges pt /\
    out = eagerFrames r (eagerTTL e) targets ++ lazyFrames c r (plumPaused e) pt /\
    forall q, peerOf pt' q = lazyPeer c r (plumPaused e) pt q.

Lemma Broadcast_run c r e :
  let '(e', out, _) := Broadcast c r e in
  e' = set_peers e (peers e') /\ pushes c e r (peers e') out.
Proof.
  unfold Broadcast. pose proof (eagerPush_run r e) as Hp.
  destruct (eagerPushToTreeEdges r e) as [[e1 o1] u] eqn:Ep.
  destruct Hp as (He1 & Hpr & targets & -> & Hperm). rewrite (run_bind _ _ _ _ _ _ Ep).
  pose proof (lazyPush_run c r e1) as Hl.
  destruct (lazyPushToNonTreeEdges c r e1) as [[e2 o2] u2]. destruct Hl as (He2 & -> & Hq).
  assert (Hpause : plumPaused e1 = plumPaused e) by (by rewrite He1). rewrite Hpause in *.
  split; [by rewrite He2, He1|]. by exists (peers e1), targets.
Qed.

(** [plumtreesEngine.Publish]: the merge, and the push of what took effect. *)
Lemma plumPublish_run c r e :
  let '(s, (applied, _, _)) := ApplyExt (c_nowMs c) (store e) r in
  let '(e', out, _) := plumPublish c r e in
  e' = set_peers (set_store e s) (peers e') /\
  if applied then pushes c e r (peers e') out else out = [] /\ peers e' = peers e.
Proof.
  unfold plumPublish. rewrite run_apply.
  destruct (ApplyExt (c_nowMs c) (store e) r) as [s [[applied replaced] acc]] eqn:E.
  rewrite (run_bind (applyExt c r) _ e (set_store e s) [] (applied, replaced, acc))
    by (unfold applyExt; by rewrite E).
  destruct applied; cbn [negb fst app]; [|done].
  pose proof (Broadcast_run c r (set_store e s)) as Hb. unfold Broadcast in Hb.
  destruct ((eagerPushToTreeEdges r ;; lazyPushToNonTreeEdges c r) (set_store e s)) as [[e' out] u].
  exact Hb.
Qed.
End push.

(** ** The theorem *)

(** C27 [PublishKeyed] on every branch. A stopped node refuses, and a body or a key over its
    limit is refused; then nothing changes and nothing leaves. Otherwise the clock is
    advanced, and the record of this topic, key and body, stamped with the new reading and
    signed, is merged into the store. If the merge takes effect, the best peers become tree
    edges until there are enough of them, the record is pushed to exactly the tree edges, and
    announced to exactly those of the other peers that have room in their queue and tokens for
    the frame. Whether or not it takes effect,
    the call returns nil and the record is reported as applied to the subscribers, last and
    exactly once: a publication that the store refuses (at a cap, or behind a tombstone) is
    delivered locally, but neither stored nor sent. An unwired node fails after it took a
    stamp. *)
Theorem PublishKeyed_spec `{Sha256, Ed25519, Proto, MapOrder} (c : clock) (n : nodeImpl)
    (topic : Topic) (key : string) (body : bytes) :
  let e := n_engine n in
  let '(stamp, h) := Now (hlc e) (c_realMs c) in
  let r := signRecord (mkRecord topic (NodeID_ (n_cfg n)) stamp body false [] [] key "" 0)
             (PrivKey (n_cfg n)) in
  let '(s, (applied, _, _)) := ApplyExt (c_nowMs c) (store e) r in
  let '(n', out, res) := PublishKeyed c n topic key body in
  if stopped n then n' = n /\ out = [] /\ res = Error ErrStopped
  else if (MaxRecordBytes (n_cfg n) <? len body) || (MaxKeyBytes <? slen key)
  then n' = n /\ out = [] /\ res = Error ErrTooLarge
  else if wired n then
    res = Nil /\
    n' = set_engine n (set_peers (set_store (set_hlc e h) s) (peers (n_engine n'))) /\
    exists sent, out = sent ++ [Applied r] /\
      if applied then pushes c e r (peers (n_engine n')) sent
      else sent = [] /\ peers (n_engine n') = peers e
  else res = Panic /\ out = [] /\ n' = set_engine n (set_hlc e h).
Proof.
  cbv zeta. destruct (Now _ _) as [stamp h] eqn:En. set (r := signRecord _ _).
  unfold PublishKeyed, publishOwn. rewrite !Z.gtb_ltb.
  pose proof (plumPublish_run c r (set_hlc (n_engine n) h)) as Hp. cbn [store set_hlc] in Hp.
  destruct (ApplyExt (c_nowMs c) (store (n_engine n)) r) as [s [[applied replaced] acc]].
  destruct (stopped n); [done|]. destruct (_ <? len body); cbn [orb]; [done|].
  destruct (_ <? slen key); [done|].
  assert (Hr : newRecord c n topic (NodeID_ (n_cfg n)) key body false "" 0 (n_engine n) =
    (set_hlc (n_engine n) h, [], r)).
  { unfold newRecord, mbind, M_bind, hlcNow. by rewrite En. }
  unfold onEngine at 1. rewrite Hr. destruct (wired n); cbn [negb]; cbv iota; [|done].
  unfold onEngine. cbn [n_engine set_engine].
  destruct (plumPublish c r (set_hlc (n_engine n) h)) as [[e1 o1] u] eqn:Ep.
  rewrite (run_bind _ _ _ _ _ _ Ep). cbn [emit fst snd n_engine set_engine].
  destruct Hp as [He1 Hp]. split; [done|]. split; [by rewrite He1|]. exists o1. split; [done|].
  exact Hp.
Qed.

Section examples.
#[local] Existing Instances ToySha256.hash ToyEd25519.scheme ToyProto.codec std_order.

(** A node that may hold one record per topic publishes two: the second call returns nil and
    reports its record, which is not in the store. *)
Definition crowded : nodeImpl :=
  let cfg := mkConfig "" (key_of 1) None 0 0 0 0 None true 0 0 1 0 0 0 None in
  match New 0 cfg with
  | inl n => (PublishKeyed (at_ms 1) (Wire n (id_of 1) [id_of 2]).1 "fleet" "a" []).1.1
  | inr _ => sample_node 1 []
  end.

Example refused_publication :
  let '(n', out, res) := PublishKeyed (at_ms 2) crowded "fleet" "b" [] in
  res = Nil /\ length out = 1%nat /\ GetKeyed (store (n_engine n')) "fleet" (id_of 1) "b" = None.
Proof. vm_compute. done. Qed.
End examples.
