(* ===== verification/NodeOutbound.v ===== *)
(** * The actions of a node, and what they let in and out

    A node's life as a sequence of actions, each with the effects it has. For any predicate
    [V] on records that holds of what the node signs and of what frames bring it, [V] holds
    of everything its store goes back to and of every record it sends or reports. *)
From S2P Require Import Prelude Types Crypto Hlc Sig Crdt CrdtLemmas CrdtInv Gate Peer Codec.
From S2P Require Import Engine Merkle EngineLemmas Outbound Node NodeLemmas.
From stdpp Require Import relations.
#[local] Open Scope Z_scope.

(** The calls of the public API, of the transport and of the tick loop. *)
Inductive action :=
  | DoReceive (c : clock) (from : NodeID) (frame : bytes)
  | DoTick (c : clock) (lastReap : option Z) (t : Z)
  | DoPublish (c : clock) (topic : Topic) (key : string) (body : bytes)
  | DoTombstone (c : clock) (topic : Topic) (key : string)
  | DoObserver (c : clock) (topic : Topic) (target : NodeID)
  | DoTenant (c : clock) (tenant : string)
  | DoJoin (id : NodeID)
  | DoLeave (id : NodeID)
  | DoProbe (id : NodeID)
  | DoPause (b : bool)
  | DoRole (role : Z)
  | DoStart
  | DoStop.

Section actions.
Context `{Sha256} `{Ed25519} `{Proto} `{MapOrder}.

Definition perform (a : action) (n : nodeImpl) : nodeImpl * list effect :=
  match a with
  | DoReceive c from frame => OnReceive c n from frame
  | DoTick c lastReap t => let '(n, _, out) := tickLoopStep c n lastReap t in (n, out)
  | DoPublish c topic key body => (PublishKeyed c n topic key body).1
  | DoTombstone c topic key => (PublishKeyedTombstone c n topic key).1
  | DoObserver c topic target => (PublishObserverTombstone c n topic target).1
  | DoTenant c tenant => (SetTenant c n tenant).1
  | DoJoin id => (OnPeerJoin n id, [])
  | DoLeave id => (OnPeerLeave n id, [])
  | DoProbe id => ProbePeer n id
  | DoPause b => ((setPaused n b).1, [])
  | DoRole r => ((SetRole n r).1, [])
  | DoStart => ((Start n).1, [])
  | DoStop => ((Stop n).1, [])
  end.

(** The records an action may sign in a state: its own topic, key and body, or a tombstone
    for one of the node's slots, under some stamp. *)
Definition authors (n : nodeImpl) (a : action) (r : Record_) : Prop :=
  let cfg := n_cfg n in
  let own topic key body tomb stamp :=
    signRecord (mkRecord topic (NodeID_ cfg) stamp body tomb [] [] key "" 0) (PrivKey cfg) in
  match a with
  | DoPublish _ topic key body => exists stamp, r = own topic key body false stamp
  | DoTombstone _ topic key => exists stamp, r = own topic key [] true stamp
  | DoTenant _ _ => exists r0 stamp, r0 ∈ ownRecords (store (n_engine n)) (NodeID_ cfg) /\
      r = own (r_Topic r0) (r_Key r0) [] true stamp
  | DoObserver c topic target => exists stamp,
      r = signRecord (mkRecord topic target stamp [] true [] [] "" (NodeID_ cfg) (c_nowMs c))
            (PrivKey cfg)
  | _ => False
  end.

Lemma nstep_perform n n' : nstep n n' -> exists a, n' = (perform a n).1.
Proof.
  intros [c from frame|c l t|c topic key body|c topic key|c topic target|c tenant|id|id|id|b|r| |].
  - by exists (DoReceive c from frame).
  - exists (DoTick c l t). cbn. by destruct (tickLoopStep c n l t) as [[??]?].
  - by exists (DoPublish c topic key body).
  - by exists (DoTombstone c topic key).
  - by exists (DoObserver c topic target).
  - by exists (DoTenant c tenant).
  - by exists (DoJoin id).
  - by exists (DoLeave id).
  - by exists (DoProbe id).
  - by exists (DoPause b).
  - by exists (DoRole r).
  - by exists DoStart.
  - by exists DoStop.
Qed.

Lemma perform_nstep a n : nstep n (perform a n).1.
Proof.
  destruct a; cbn [perform fst].
  2: { pose proof (step_tick n c lastReap t) as Hs.
       by destruct (tickLoopStep c n lastReap t) as [[??]?]. }
  all: constructor.
Qed.

Lemma onEngine_cfg {A} n (m : M A) : n_cfg (onEngine n m).1.1 = n_cfg n.
Proof. unfold onEngine. by destruct (m (n_engine n)) as [[e out] x]. Qed.

Lemma publishOwn_cfg c n topic key body tomb :
  n_cfg (publishOwn c n topic key body tomb).1.1 = n_cfg n.
Proof.
  unfold publishOwn. set (m := newRecord _ _ _ _ _ _ _ _ _). pose proof (onEngine_cfg n m) as E.
  destruct (onEngine n m) as [[n1 o1] r]. cbn in E. destruct (negb (wired n)); [done|].
  set (m2 := (_ ;; _)). pose proof (onEngine_cfg n1 m2) as E2.
  destruct (onEngine n1 m2) as [[n2 o2] u]. cbn in *. congruence.
Qed.

Lemma observer_cfg c n topic target :
  n_cfg (PublishObserverTombstone c n topic target).1.1 = n_cfg n.
Proof.
  unfold PublishObserverTombstone. destruct (stopped n); [done|]. destruct (_ || _)%bool; [done|].
  set (m := newRecord _ _ _ _ _ _ _ _ _). pose proof (onEngine_cfg n m) as E.
  destruct (onEngine n m) as [[n1 o1] r]. cbn in E.
  pose proof (onEngine_cfg n1 (applyAndReport c r)) as E2.
  destruct (onEngine n1 (applyAndReport c r)) as [[n2 o2] u]. cbn in E2.
  destruct (negb (wired n)); [cbn; congruence|].
  pose proof (onEngine_cfg n2 (Broadcast c r)) as E3.
  destruct (onEngine n2 (Broadcast c r)) as [[n3 o3] u3]. cbn in *. congruence.
Qed.

Lemma nodeTick_cfg c n t : n_cfg (nodeTick c n t).1 = n_cfg n.
Proof.
  unfold nodeTick. destruct (negb (wired n)); [done|].
  pose proof (onEngine_cfg n (Tick c t)) as E. by destruct (onEngine n (Tick c t)) as [[??]?].
Qed.

Lemma perform_cfg a n : n_cfg (perform a n).1 = n_cfg n.
Proof.
  destruct a; cbn [perform fst].
  - unfold OnReceive. destruct (stopped n); [done|].
    pose proof (onEngine_cfg n (ReceiveFrame c from frame)) as E.
    by destruct (onEngine n _) as [[??]?].
  - unfold tickLoopStep. pose proof (nodeTick_cfg c n t) as E.
    destruct (nodeTick c n t) as [n1 out]. cbn in E. destruct (TopicTTL (n_cfg n1)); [|done].
    by destruct (match lastReap with None => true | Some l => timeSub t l >=? 30 * Second end).
  - unfold PublishKeyed. destruct (stopped n); [done|]. destruct (_ >? _); [done|].
    destruct (_ >? _); [done|]. apply publishOwn_cfg.
  - unfold PublishKeyedTombstone. destruct (stopped n); [done|]. destruct (_ >? _); [done|].
    apply publishOwn_cfg.
  - apply observer_cfg.
  - unfold SetTenant. destruct (String.eqb _ _); [done|]. set (n1 := mkNode _ _ _ _ _ _ _ tenant).
    set (m := forEach _ _). pose proof (onEngine_cfg n1 m) as E.
    by destruct (onEngine n1 m) as [[n2 o] u].
  - done.
  - done.
  - unfold ProbePeer. destruct (_ || _)%bool; [done|].
    pose proof (onEngine_cfg n (merkleProbePeer id)) as E. by destruct (onEngine n _) as [[??]?].
  - unfold setPaused. by destruct (Bool.eqb _ _).
  - done.
  - unfold Start. by destruct (negb _), (stopped n), (started n).
  - done.
Qed.
End actions.

Section guarded.
Context `{Sha256} `{Ed25519} `{Proto} `{MapOrder} (V : Record_ -> Prop) (g0 : inboundGate).

Lemma onEngine_guarded {A} n (m : M A) :
  sound_engine V g0 (n_engine n) -> safe (sound_engine V g0) (vouchedEffect V) m ->
  sound_engine V g0 (n_engine (onEngine n m).1.1) /\ Forall (vouchedEffect V) (onEngine n m).1.2.
Proof.
  intros Hs Hm. unfold onEngine. destruct (Hm _ Hs). by destruct (m (n_engine n)) as [[e out] a].
Qed.

Lemma applyAndReport_guarded c r :
  V r -> safe (sound_engine V g0) (vouchedEffect V) (applyAndReport c r).
Proof.
  intros Hr. unfold applyAndReport, Engine.apply.
  guard_; [by apply guarded_applyExt|by apply guarded_applied].
Qed.

Lemma retire_guarded c n r :
  (forall stamp, V (signRecord (mkRecord (r_Topic r) (NodeID_ (n_cfg n)) stamp [] true [] []
                      (r_Key r) "" 0) (PrivKey (n_cfg n)))) ->
  safe (sound_engine V g0) (vouchedEffect V) (retire c n r).
Proof.
  intros HV e He. unfold retire.
  destruct (newRecord_run c n (r_Topic r) (NodeID_ (n_cfg n)) (r_Key r) [] true "" 0 e)
    as (stamp & h & Hrun).
  rewrite (run_bind _ _ _ _ _ _ Hrun). set (tomb := signRecord _ _).
  assert (Ht : V tomb) by apply HV.
  simpl. revert He. change (sound_engine V g0 e) with (sound_engine V g0 (set_hlc e h)). intros He.
  match goal with |- context [(?m (set_hlc e h)).1.1] =>
    assert (Hm : safe (sound_engine V g0) (vouchedEffect V) m) end.
  { guard_; [by apply applyAndReport_guarded|by apply guarded_broadcast]. }
  by apply Hm.
Qed.

Lemma publishOwn_guarded c n topic key body tomb :
  (forall stamp, V (signRecord (mkRecord topic (NodeID_ (n_cfg n)) stamp body tomb [] [] key "" 0)
                      (PrivKey (n_cfg n)))) ->
  sound_engine V g0 (n_engine n) ->
  sound_engine V g0 (n_engine (publishOwn c n topic key body tomb).1.1) /\
  Forall (vouchedEffect V) (publishOwn c n topic key body tomb).1.2.
Proof.
  intros HV Hs. unfold publishOwn, onEngine at 1 3.
  destruct (newRecord_run c n topic (NodeID_ (n_cfg n)) key body tomb "" 0 (n_engine n))
    as (stamp & h & ->).
  set (r := signRecord _ _). assert (Hr : V r) by apply HV.
  destruct (negb (wired n)); [by split; [|constructor]|].
  match goal with |- context [onEngine ?n1 ?m] =>
    destruct (onEngine_guarded n1 m) as [Hs' Ho]; [exact Hs| |by destruct (onEngine n1 m) as [[? ?] ?]]
  end.
  guard_; [by apply guarded_plumPublish|by apply guarded_applied].
Qed.

Lemma observer_guarded c n topic target :
  (forall r, authors n (DoObserver c topic target) r -> V r) ->
  sound_engine V g0 (n_engine n) ->
  sound_engine V g0 (n_engine (PublishObserverTombstone c n topic target).1.1) /\
  Forall (vouchedEffect V) (PublishObserverTombstone c n topic target).1.2.
Proof.
  intros HV Hs. unfold PublishObserverTombstone. destruct (stopped n); [by split; [|constructor]|].
  destruct (_ || _)%bool; [by split; [|constructor]|]. unfold onEngine at 1 4.
  destruct (newRecord_run c n topic target "" [] true (NodeID_ (n_cfg n)) (c_nowMs c) (n_engine n))
    as (stamp & h & ->).
  set (r := signRecord _ _).
  assert (Hr : V r) by (apply HV; cbn; by exists stamp).
  match goal with |- context [onEngine ?n1 (applyAndReport c r)] =>
    destruct (onEngine_guarded n1 _ Hs (applyAndReport_guarded c r Hr)) as [H1' Ho1];
    destruct (onEngine n1 (applyAndReport c r)) as [[n2 o1] u1] end.
  destruct (negb (wired n)); [done|].
  destruct (onEngine_guarded n2 _ H1' (guarded_broadcast V g0 c r Hr)) as [H2' Ho2].
  destruct (onEngine n2 (Broadcast c r)) as [[n3 o2] u2]. split; [done|]. by apply Forall_app.
Qed.

Lemma sound_reap s nowMs ttl : sound V s -> sound V (reapExpired s nowMs (Some ttl)).1.
Proof.
  intros (hist & Hh & Hp). exists hist. split; [done|]. by apply provenance_reap.
Qed.

Lemma tick_guarded c n l t :
  sound_engine V g0 (n_engine n) ->
  sound_engine V g0 (n_engine (tickLoopStep c n l t).1.1) /\
  Forall (vouchedEffect V) (tickLoopStep c n l t).2.
Proof.
  intros Hs. unfold tickLoopStep.
  assert (sound_engine V g0 (n_engine (nodeTick c n t).1) /\ Forall (vouchedEffect V) (nodeTick c n t).2)
    as [Ht Ho].
  { unfold nodeTick. destruct (negb (wired n)); [by split; [|constructor]|].
    destruct (onEngine_guarded n _ Hs (guarded_tick V g0 c t)) as [H1' Ho].
    by destruct (onEngine n _) as [[? ?] ?]. }
  destruct (nodeTick c n t) as [n1 out]. cbn [fst snd] in *.
  destruct (TopicTTL (n_cfg n1)); [|done].
  destruct (match l with None => true | Some l => timeSub t l >=? 30 * Second end); [|done].
  destruct Ht as [Ht Hg]. split; [|done]. split; [by apply sound_reap|done].
Qed.

(** What an action brings from outside. *)
Definition incoming (a : action) : Prop :=
  match a with DoReceive _ _ frame => vouchableFrame V g0 frame | _ => True end.

Lemma perform_guarded a n :
  (forall r, authors n a r -> V r) -> incoming a -> sound_engine V g0 (n_engine n) ->
  sound_engine V g0 (n_engine (perform a n).1) /\ Forall (vouchedEffect V) (perform a n).2.
Proof.
  intros HV Hin Hs.
  assert (Hsame : sound_engine V g0 (n_engine n) /\ Forall (vouchedEffect V) []) by by split.
  destruct a; cbn [perform].
  - unfold OnReceive. destruct (stopped n); [done|].
    destruct (onEngine_guarded n _ Hs (guarded_receive V g0 c from frame Hin)) as [Hs' Ho].
    by destruct (onEngine n _) as [[? ?] ?].
  - pose proof (tick_guarded c n lastReap t Hs) as [Ht Ho].
    by destruct (tickLoopStep c n lastReap t) as [[? ?] ?].
  - unfold PublishKeyed. destruct (stopped n); [done|]. destruct (_ >? _); [done|].
    destruct (_ >? _); [done|]. apply publishOwn_guarded; [|done]. intros stamp. apply HV. by exists stamp.
  - unfold PublishKeyedTombstone. destruct (stopped n); [done|]. destruct (_ >? _); [done|].
    apply publishOwn_guarded; [|done]. intros stamp. apply HV. by exists stamp.
  - by apply observer_guarded.
  - unfold SetTenant. destruct (String.eqb _ _); [done|].
    match goal with |- context [onEngine ?n1 ?m] =>
      destruct (onEngine_guarded n1 m) as [Hs' Ho];
        [exact Hs| |by destruct (onEngine n1 m) as [[? ?] ?]]
    end.
    apply safe_forEach. intros r Hr. apply retire_guarded. intros stamp. apply HV. by exists r, stamp.
  - done.
  - done.
  - unfold ProbePeer. destruct (_ || _)%bool; [done|].
    destruct (onEngine_guarded n _ Hs (guarded_probePeer V g0 id)) as [Hs' Ho].
    by destruct (onEngine n _) as [[? ?] ?].
  - unfold setPaused. destruct (Bool.eqb _ _); [done|]. split; [|constructor]. cbn.
    by destruct (wired n).
  - done.
  - unfold Start. by destruct (negb _), (stopped n), (started n).
  - done.
Qed.
End guarded.
