(* ===== verification/Network.v ===== *)
(** * Nodes over a hostile network

    Any number of nodes that follow the code, over a network that delivers any frame it has
    seen to anyone, any number of times, in any order, under any sender's name, or never,
    and that adds frames of its own. What it cannot do is sign with a node's key: a record
    of an added frame that verifies under the key of one of the nodes has the signing bytes
    of a record that node signed. *)
From S2P Require Import Prelude Types Crypto Hlc Sig Crdt CrdtLemmas CrdtInv Gate Peer Codec.
From S2P Require Import Engine Merkle EngineLemmas Outbound Node NodeLemmas NodeOutbound.
From stdpp Require Import relations.
#[local] Open Scope Z_scope.

(** The nodes by their identity, the frames seen so far with sender and addressee, and the
    actions taken so far, each with the identity and the state of the node that took it. *)
Record net := mkNet {
  sites : gmap NodeID nodeImpl;
  soup : list (NodeID * NodeID * bytes);
  log : list (NodeID * nodeImpl * action)
}.

Section network.
Context `{Sha256} `{Ed25519} `{Proto} `{MapOrder}.

(** The frames an action hands to the transport of node [i]. *)
Definition sentBy (i : NodeID) (out : list effect) : list (NodeID * NodeID * bytes) :=
  omap (fun x => match x with Send to frame => Some (i, to, frame) | _ => None end) out.

(** If [r] verifies under the key of a node, that node signed a record with its bytes. *)
Definition unforged (nodes : gmap NodeID nodeImpl) (l : list (NodeID * nodeImpl * action)) (r : Record_)
    : Prop :=
  forall j n, nodes !! j = Some n -> r_PubKey r = ed_public (PrivKey (n_cfg n)) ->
    exists m a r', (j, m, a) ∈ l /\ n_cfg m = n_cfg n /\ authors m a r' /\
      signableBytes r = signableBytes r'.

(** What can be vouched for. *)
Definition genuine (nodes : gmap NodeID nodeImpl) (l : list (NodeID * nodeImpl * action)) (r : Record_)
    : Prop :=
  wellSigned r = true /\ unforged nodes l r.

Inductive net_step (g : net) : net -> Prop :=
  | net_action i n a :
      sites g !! i = Some n ->
      match a with
      | DoReceive _ from frame => (from, i, frame) ∈ soup g
      | _ => True
      end ->
      net_step g (mkNet (<[i := (perform a n).1]> (sites g))
                    (soup g ++ sentBy i (perform a n).2) (log g ++ [(i, n, a)]))
  | net_readdress from to from' to' frame :
      (from, to, frame) ∈ soup g ->
      net_step g (mkNet (sites g) (soup g ++ [(from', to', frame)]) (log g))
  | net_inject from to frame :
      (forall f p, decodeFrame frame = Some f -> p ∈ frameRecords f ->
         wellSigned (recordFromProto p) = true ->
         unforged (sites g) (log g) (recordFromProto p)) ->
      net_step g (mkNet (sites g) (soup g ++ [(from, to, frame)]) (log g)).

(** Nodes with keys of their own, named by them, before anything has happened. *)
Definition initial `{!Ed25519Laws} (g : net) : Prop :=
  soup g = [] /\ log g = [] /\
  forall i n, sites g !! i = Some n ->
    ed_key (PrivKey (n_cfg n)) /\ NodeID_ (n_cfg n) = i /\
    i = nodeIDFromPub (ed_public (PrivKey (n_cfg n))) /\
    byTopic (store (n_engine n)) = ∅.
End network.
