(* ===== verification/NodeSpec.v ===== *)
(** * Properties of the node

    What can enter the store of a node at all, what its local publications do, and the
    lifecycle. *)
From S2P Require Import Prelude Types Crypto Hlc Sig Crdt CrdtLemmas CrdtInv Gate Peer Codec.
From S2P Require Import Engine Merkle EngineLemmas EngineBounds Outbound Node NodeLemmas NodeOutbound.
From S2P Require Import Samples.
From stdpp Require Import relations.
#[local] Open Scope Z_scope.

(** ** Authenticity *)

(** [a] is an attestation of observer [o] that [n] is dead, signed by the key it carries
    and accepted by the role check. *)
Definition testimony `{Ed25519} (s : recordStore) (t : Topic) (n o : NodeID) (a : Record_) : Prop :=
  IsObserverAttestation a = true /\ r_Topic a = t /\ r_NodeID a = n /\
  r_ObserverNodeID a = o /\ wellSigned a = true /\ role_ok s a = true.

(** C1: nothing enters a node's store unsigned, and no peer is evicted without a quorum of
    keys. Take a node whose store is empty and let it run: any frames from any peers,
    ticks, sweeps, publications and tenant changes, in any order. Every slot then holds
    either an owner record that is validly signed under the key it carries and was
    admitted by the gate (or is the node's own), or a tombstone supported by at least K
    signed and role-checked attestations of distinct observers. With key binding on,
    those K attestations are signed by K different keys, each the key its observer's
    NodeID encodes. *)
Theorem store_authentic `{Sha256} `{Ed25519Laws} `{Proto} `{MapOrder} (n0 n : nodeImpl)
    (t : Topic) (k : recordKey) (r : Record_) :
  let cfg := n_cfg n0 in
  let s0 := store (n_engine n0) in
  let g := gate (n_engine n0) in
  ed_key (PrivKey cfg) -> NodeID_ cfg <> "" -> byTopic s0 = ∅ ->
  rtc nstep n0 n -> slot (store (n_engine n)) t k = Some r ->
  (IsObserverAttestation r = false /\ r_Topic r = t /\ keyOf r = k /\ wellSigned r = true /\
   ((exists nowMs, admissible nowMs g r) \/ r_PubKey r = ed_public (PrivKey cfg))) \/
  (r = synthTombstone t (k_NodeID k) (k_Key k) (r_HLC r) /\
   exists W : gmap NodeID Record_, observerQuorum s0 <= mlen W /\
     (forall o a, W !! o = Some a -> testimony s0 t (k_NodeID k) o a) /\
     (binding g = true -> NodeID_ cfg = nodeIDFromPub (ed_public (PrivKey cfg)) ->
      (forall o a, W !! o = Some a -> o = nodeIDFromPub (r_PubKey a)) /\
      (forall o1 o2 a1 a2, W !! o1 = Some a1 -> W !! o2 = Some a2 -> o1 <> o2 ->
         r_PubKey a1 <> r_PubKey a2))).
Proof.
  intros cfg s0 g Hk Hid He Hrun. unfold slot.
  destruct (byTopic (store (n_engine n)) !! t) as [ts|] eqn:Ets; [|done]. intros Hr.
  destruct (node_inv_run n0 n0 n [] Hk Hid (node_inv_fresh n0 He) Hrun)
    as (hist & [_ _ Hcfg Hh Hprov]).
  rewrite Forall_forall in Hh. destruct (Hprov t ts Ets) as [Hrec _].
  destruct (Hrec k r Hr) as [(Hin & Ho & Ht & Hkey)|(Hs & W & newest & Hq & _ & _ & HW)].
  - left. destruct (Hh r Hin) as [Hsig Hor]. split_and!; try done.
    destruct Hor as [?|[? _]]; auto.
  - right. split; [done|]. exists W. rewrite (config_quorum _ _ Hcfg) in Hq. split; [done|].
    assert (Htest : forall o a, W !! o = Some a ->
      a ∈ hist /\ testimony s0 t (k_NodeID k) o a).
    { intros o a Hoa. destruct (HW o a Hoa) as ((Hin & Hatt & Hta & Hna & Hob & Hrole) & _).
      destruct (Hh a Hin) as [Hsig _]. split; [done|]. split_and!; try done.
      by rewrite <- (config_role_ok _ _ _ Hcfg). }
    split; [intros o a Hoa; by apply Htest|]. intros Hbind Hown.
    assert (Hkey : forall o a, W !! o = Some a -> o = nodeIDFromPub (r_PubKey a)).
    { intros o a Hoa. destruct (Htest o a Hoa) as (Hin & Hatt & _ & _ & Hob & _).
      destruct (Hh a Hin) as [_ [(now & Hadm)|[Hpub Hb]]]; unfold bindID in *.
      - destruct (adm_binding _ _ _ Hadm Hbind) as [_ Hb]. unfold bindID in Hb.
        rewrite Hatt in Hb. congruence.
      - rewrite Hatt in Hb. rewrite <- Hob, Hb, Hpub. exact Hown. }
    split; [done|]. intros o1 o2 a1 a2 H1' H2' Hne Heq. apply Hne.
    rewrite (Hkey o1 a1 H1'), (Hkey o2 a2 H2'). by rewrite Heq.
Qed.

(** Two observers with different keys evict a peer; the tombstone is in its slot. *)
Lemma store_authentic_witness :
  slot (store (n_engine evicted_node)) "fleet" (mkKey (id_of 3) "") =
    Some (synthTombstone "fleet" (id_of 3) "" 9) /\
  exists W : gmap NodeID Record_, 2 <= mlen W /\
    (forall o a, W !! o = Some a ->
      @testimony ToyEd25519.scheme newRecordStore "fleet" (id_of 3) o a) /\
    (forall o1 o2 a1 a2, W !! o1 = Some a1 -> W !! o2 = Some a2 -> o1 <> o2 ->
       r_PubKey a1 <> r_PubKey a2).
Proof.
  assert (Hslot : slot (store (n_engine evicted_node)) "fleet" (mkKey (id_of 3) "") =
    Some (synthTombstone "fleet" (id_of 3) "" 9)) by (vm_compute; reflexivity).
  split; [exact Hslot|].
  pose proof (@store_authentic ToySha256.hash ToyEd25519.scheme ToyEd25519.laws ToyProto.codec
    std_order (sample_node 1 [id_of 2]) evicted_node "fleet" (mkKey (id_of 3) "")
    (synthTombstone "fleet" (id_of 3) "" 9)) as Hauth.
  cbv zeta in Hauth.
  destruct Hauth as [(_ & _ & _ & Hsig & _)|(_ & W & Hq & Htest & Hkeys)].
  - vm_compute. reflexivity.
  - vm_compute. discriminate.
  - vm_compute. reflexivity.
  - unfold evicted_node. eapply rtc_l; [apply step_receive|].
    eapply rtc_l; [apply step_receive|]. eapply rtc_l; [apply step_receive|]. apply rtc_refl.
  - exact Hslot.
  - exfalso. vm_compute in Hsig. discriminate Hsig.
  - exists W. split; [exact Hq|]. split; [exact Htest|].
    apply Hkeys; vm_compute; reflexivity.
Defined.

(** ** What leaves a node *)

(** The effects of the steps of a node. *)
Inductive nemits `{Sha256} `{Ed25519} `{Proto} `{MapOrder} (n : nodeImpl) (x : effect) : Prop :=
  | emit_receive c from frame : x ∈ (OnReceive c n from frame).2 -> nemits n x
  | emit_tick c lastReap t : x ∈ (tickLoopStep c n lastReap t).2 -> nemits n x
  | emit_publish c topic key body : x ∈ (PublishKeyed c n topic key body).1.2 -> nemits n x
  | emit_tombstone c topic key : x ∈ (PublishKeyedTombstone c n topic key).1.2 -> nemits n x
  | emit_observer c topic target : x ∈ (PublishObserverTombstone c n topic target).1.2 -> nemits n x
  | emit_tenant c tenant : x ∈ (SetTenant c n tenant).1.2 -> nemits n x
  | emit_probe id : x ∈ (ProbePeer n id).2 -> nemits n x.

Lemma nemits_perform `{Sha256} `{Ed25519} `{Proto} `{MapOrder} n x :
  nemits n x -> exists a, x ∈ (perform a n).2.
Proof.
  intros [c from frame Hx|c l t Hx|c topic key body Hx|c topic key Hx|c topic target Hx
    |c tenant Hx|id Hx].
  - by exists (DoReceive c from frame).
  - exists (DoTick c l t). cbn. by destruct (tickLoopStep c n l t) as [[??]?].
  - by exists (DoPublish c topic key body).
  - by exists (DoTombstone c topic key).
  - by exists (DoObserver c topic target).
  - by exists (DoTenant c tenant).
  - by exists (DoProbe id).
Qed.

Lemma authors_signed `{Sha256, Ed25519Laws, Proto, MapOrder} n a r :
  ed_key (PrivKey (n_cfg n)) -> authors n a r -> wellSigned r = true.
Proof.
  intros Hk. destruct a; cbn; try done; naive_solver eauto using wellSigned_signRecord.
Qed.

(** C16: what a node sends, its peers can verify. Take a node whose store is empty and let
    it run. Every frame it then hands to the transport, whatever makes it send one, is
    the encoding of a frame in which every record carries a valid signature under its own
    key (or is no bytes at all, when a push or a graft request fails to encode), and every
    record it reports is validly signed: tombstones synthesised by a quorum, which have no
    signature, never travel and are never reported. *)
Theorem sends_only_signed `{Sha256} `{Ed25519Laws} `{Proto} `{MapOrder} (n0 n : nodeImpl)
    (x : effect) :
  ed_key (PrivKey (n_cfg n0)) -> NodeID_ (n_cfg n0) <> "" ->
  byTopic (store (n_engine n0)) = ∅ -> rtc nstep n0 n -> nemits n x ->
  match x with
  | Send _ frame => frame = [] \/ exists f, encodeFrame f = Some frame /\
      Forall (fun p => wellSigned (recordFromProto p) = true) (frameRecords f)
  | Applied r => wellSigned r = true
  | FetchReq _ _ _ | FetchResp _ _ _ _ => True
  end.
Proof.
  intros Hk Hid He Hrun Hx.
  destruct (node_inv_run n0 n0 n [] Hk Hid (node_inv_fresh n0 He) Hrun) as (hist & Hi).
  apply nemits_perform in Hx as [a Hx].
  destruct (perform_guarded (fun r => wellSigned r = true) (gate (n_engine n)) a n) as [_ Ho].
  - intros r. apply authors_signed. by rewrite (ni_cfg _ _ _ Hi).
  - destruct a; try done. intros f _. apply Forall_forall. by intros p _ ?.
  - split; [|done]. exists hist. split; [|apply (ni_prov _ _ _ Hi)].
    eapply Forall_impl; [apply (ni_hist _ _ _ Hi)|]. by intros r [? _].
  - rewrite Forall_forall in Ho. apply (Ho x Hx).
Qed.

(** The node that evicted a peer answers a probe of the evicted peer's topic. *)
Lemma sends_only_signed_witness :
  let _ := std_order in let _ := ToyProto.codec in
  let _ := ToySha256.hash in let _ := ToyEd25519.scheme in
  exists frame, nemits evicted_node (Send (id_of 2) frame) /\
    exists f, encodeFrame f = Some frame /\
      Forall (fun p => wellSigned (recordFromProto p) = true) (frameRecords f).
Proof.
  intros o1 o2 o3 o4.
  set (probe := default [] (encodeFrame (Frame_Merkle "fleet" None None []))).
  destruct (OnReceive (at_ms 3000) evicted_node (id_of 2) probe).2 as [|x l] eqn:Eo;
    [vm_compute in Eo; discriminate|].
  destruct x as [to frame| | |]; try (vm_compute in Eo; discriminate).
  assert (to = id_of 2) as -> by (vm_compute in Eo; vm_compute; congruence).
  assert (Hx : nemits evicted_node (Send (id_of 2) frame)).
  { apply (emit_receive _ _ (at_ms 3000) (id_of 2) probe). rewrite Eo. left. }
  exists frame. split; [exact Hx|].
  pose proof (@sends_only_signed ToySha256.hash ToyEd25519.scheme ToyEd25519.laws ToyProto.codec
    std_order (sample_node 1 [id_of 2]) evicted_node (Send (id_of 2) frame)) as Hs.
  destruct Hs as [Hnil|Hf].
  - vm_compute. reflexivity.
  - vm_compute. discriminate.
  - vm_compute. reflexivity.
  - unfold evicted_node. eapply rtc_l; [apply step_receive|].
    eapply rtc_l; [apply step_receive|]. eapply rtc_l; [apply step_receive|]. apply rtc_refl.
  - exact Hx.
  - exfalso. subst frame. vm_compute in Eo. discriminate.
  - exact Hf.
Defined.

(** ** Resources *)

Section resources.
Context `{Sha256} `{Ed25519} `{Proto} `{MapOrder}.

Lemma onEngine_keeps {A} n n' (m : M A) :
  n_engine n' = n_engine n -> follows keeps m ->
  keeps (n_engine n) (n_engine (onEngine n' m).1.1).
Proof.
  intros He Hm. unfold onEngine. rewrite He. specialize (Hm (n_engine n)).
  by destruct (m (n_engine n)) as [[e out] a].
Qed.

Lemma newRecord_keeps c n topic node key body tomb observer at_ :
  follows keeps (newRecord c n topic node key body tomb observer at_).
Proof.
  unfold newRecord. follow. intros e. unfold hlcNow. destruct (Now _ _). by apply keeps_same.
Qed.

Lemma applyAndReport_keeps c r : follows keeps (applyAndReport c r).
Proof. unfold applyAndReport, Engine.apply. follow. apply applyExt_keeps. Qed.

Lemma retire_keeps c n r : follows keeps (retire c n r).
Proof.
  unfold retire. follow; auto using newRecord_keeps, applyAndReport_keeps, Broadcast_keeps.
Qed.

Lemma publishOwn_keeps c n topic key body tomb :
  keeps (n_engine n) (n_engine (publishOwn c n topic key body tomb).1.1).
Proof.
  unfold publishOwn.
  pose proof (onEngine_keeps n n _ eq_refl
    (newRecord_keeps c n topic (NodeID_ (n_cfg n)) key body tomb "" 0)) as H1'.
  destruct (onEngine n _) as [[n1 o1] r]. destruct (negb (wired n)); [done|].
  pose proof (onEngine_keeps n1 n1 (plumPublish c r ;; emit (Applied r)) eq_refl
    ltac:(follow; apply plumPublish_keeps)) as H2'.
  destruct (onEngine n1 _) as [[n2 o2] u]. simpl in *. by transitivity (n_engine n1).
Qed.

Lemma observer_keeps c n topic target :
  keeps (n_engine n) (n_engine (PublishObserverTombstone c n topic target).1.1).
Proof.
  unfold PublishObserverTombstone. destruct (stopped n); [reflexivity|].
  destruct (_ || _)%bool; [reflexivity|].
  pose proof (onEngine_keeps n n _ eq_refl
    (newRecord_keeps c n topic target "" [] true (NodeID_ (n_cfg n)) (c_nowMs c))) as H1'.
  destruct (onEngine n _) as [[n1 o1] r].
  pose proof (onEngine_keeps n1 n1 _ eq_refl (applyAndReport_keeps c r)) as H2'.
  destruct (onEngine n1 _) as [[n2 o2] u]. simpl in *.
  destruct (negb (wired n)); [by transitivity (n_engine n1)|].
  pose proof (onEngine_keeps n2 n2 _ eq_refl (Broadcast_keeps c r)) as H3'.
  destruct (onEngine n2 _) as [[n3 o3] u']. simpl in *.
  by repeat (etransitivity; [eassumption|]).
Qed.

Lemma tick_keeps c n lastReap t :
  keeps (n_engine n) (n_engine (tickLoopStep c n lastReap t).1.1).
Proof.
  unfold tickLoopStep, nodeTick.
  assert (Hs : forall n s, keeps (n_engine n) (n_engine (set_engine n (set_store (n_engine n) s))))
    by (intros; by apply keeps_same).
  destruct (negb (wired n)).
  - repeat case_match; first [apply Hs | reflexivity].
  - pose proof (onEngine_keeps n n _ eq_refl (Tick_keeps c t)) as H1'.
    destruct (onEngine n _) as [[n1 o1] u]. simpl in *.
    repeat case_match; try done; (transitivity (n_engine n1); [exact H1'|apply Hs]).
Qed.

Lemma nstep_keeps n n' : nstep n n' -> keeps (n_engine n) (n_engine n').
Proof.
  intros []; try reflexivity.
  - unfold OnReceive. destruct (stopped n); [reflexivity|].
    pose proof (onEngine_keeps n n _ eq_refl (ReceiveFrame_keeps c from frame)) as Hk.
    by destruct (onEngine n _) as [[n1 o1] u].
  - apply tick_keeps.
  - unfold PublishKeyed. repeat case_match; try reflexivity. apply publishOwn_keeps.
  - unfold PublishKeyedTombstone. repeat case_match; try reflexivity. apply publishOwn_keeps.
  - apply observer_keeps.
  - unfold SetTenant. case_match; [reflexivity|]. set (n1 := mkNode _ _ _ _ _ _ _ tenant).
    set (m := forEach _ _).
    pose proof (onEngine_keeps n n1 m eq_refl) as Hk. ospecialize (Hk _).
    { apply follows_forEach; [apply _|]. apply retire_keeps. }
    by destruct (onEngine n1 _) as [[n2 o2] u].
  - apply keeps_shrink; try done. simpl. intros id'. by rewrite isEdge_Ensure.
  - apply keeps_shrink; try done. simpl. intros id'. apply isEdge_Remove.
  - unfold ProbePeer. case_match; [reflexivity|].
    pose proof (onEngine_keeps n n (merkleProbePeer id) eq_refl) as Hk. ospecialize (Hk _).
    { unfold merkleProbePeer. follow. apply sendProbe_keeps. }
    by destruct (onEngine n _) as [[n1 o1] u].
  - unfold setPaused. case_match; [reflexivity|]. simpl.
    destruct (wired n); [by apply keeps_same|reflexivity].
  - unfold Start. repeat case_match; reflexivity.
Qed.
End resources.

Lemma isEdge_foldl_Ensure pt l id :
  isEdge (foldl (fun pt p => (Ensure pt p).1) pt l) id = isEdge pt id.
Proof. revert pt. induction l as [|p l IH]; intros pt; simpl; [done|]. by rewrite IH, isEdge_Ensure. Qed.

Lemma no_edges `{MapOrder} pt : (forall id, isEdge pt id = false) -> len (TreeEdges pt) = 0.
Proof.
  intros Hpt. replace (TreeEdges pt) with (@nil NodeID); [done|]. symmetry.
  apply elem_of_nil_inv. intros id. rewrite elem_of_TreeEdges_isEdge. by rewrite Hpt.
Qed.

(** The degree and the table size a configuration asks for. *)
Definition degreeOf (cfg : Config) : Z := if TreeDegree cfg <=? 0 then 4 else TreeDegree cfg.
Definition pendingOf (cfg : Config) : Z :=
  if MaxPendingIHaves cfg >? 0 then MaxPendingIHaves cfg else 4096.

(** C17: no peer can make a node hold more than it is configured for. In every state a
    wired node can reach, whatever frames it is sent and whatever it does itself, at most
    four times the configured degree of its peers are tree edges, and the table of
    announced but missing records has at most the configured number of entries. *)
Theorem resources_bounded `{Sha256} `{Ed25519} `{Proto} `{MapOrder} (realMs : Z) (cfg : Config)
    (n n0 n' : nodeImpl) (localID : NodeID) (known : list NodeID) :
  New realMs cfg = inl n -> Wire n localID known = (n0, Nil) -> rtc nstep n0 n' ->
  len (TreeEdges (peers (n_engine n'))) <= 4 * degreeOf cfg /\
  mlen (missingIHaves (n_engine n')) <= pendingOf cfg.
Proof.
  intros Hnew Hwire Hrun.
  assert (H0' : keeps (n_engine n0) (n_engine n')).
  { clear Hwire Hnew. induction Hrun as [|x y z Hs _ IH]; [reflexivity|].
    etransitivity; [by apply nstep_keeps|done]. }
  unfold New in Hnew. destruct (negb _); [done|]. injection Hnew as <-.
  unfold Wire in Hwire. cbn [wired] in Hwire. injection Hwire as <-.
  destruct H0' as (Hd & Hm & Hb).
  cbn [n_engine n_cfg newEngine treeDeg maxIHaves TreeDegree MaxPendingIHaves peers] in Hd, Hm.
  assert (Hdeg : treeDeg (n_engine n') = degreeOf cfg).
  { rewrite Hd. unfold degreeOf. destruct (TreeDegree cfg <=? 0) eqn:E; [done|by rewrite E]. }
  assert (Hpos : 0 <= degreeOf cfg) by (unfold degreeOf; destruct (TreeDegree cfg <=? 0) eqn:?; lia).
  assert (Hpend : 0 <= pendingOf cfg) by (unfold pendingOf; destruct (MaxPendingIHaves cfg >? 0) eqn:?; lia).
  destruct Hb as [H1' H2'].
  - split; cbn [n_engine n_cfg newEngine peers missingIHaves maxIHaves MaxPendingIHaves].
    + rewrite no_edges; [|intros id; by rewrite isEdge_foldl_Ensure].
      unfold maxTreeEdges. simpl. simpl in Hd. lia.
    + done.
  - unfold maxTreeEdges in H1'. rewrite Hdeg in H1'. rewrite Hm in H2'.
    split; [lia|exact H2'].
Qed.

(** A node of degree 1 with six known peers, five of which graft it: four become tree
    edges. *)
Lemma resources_bounded_witness :
  let cfg := mkConfig "" (key_of 1) None 0 1 0 0 None true 0 0 0 0 0 0 None in
  let known := id_of <$> [2; 3; 4; 5; 6; 7] in
  let _ := std_order in let _ := ToyProto.codec in
  let _ := ToySha256.hash in let _ := ToyEd25519.scheme in
  exists n n0 n', New 0 cfg = inl n /\ Wire n (id_of 1) known = (n0, Nil) /\ rtc nstep n0 n' /\
    len (TreeEdges (peers (n_engine n'))) = 4 /\
    len (TreeEdges (peers (n_engine n'))) <= 4 * degreeOf cfg /\
    mlen (missingIHaves (n_engine n')) <= pendingOf cfg.
Proof.
  intros cfg known o1 o2 o3 o4.
  destruct (New 0 cfg) as [n|] eqn:Hn; [|vm_compute in Hn; discriminate].
  destruct (Wire n (id_of 1) known) as [n0 res] eqn:Hw.
  set (graft := default [] (encodeFrame (frameGraft "fleet" (id_of 1) "" 1))).
  set (recv := fun n p => (OnReceive (mkClock 0 0) n (id_of p) graft).1).
  assert (Hrun : rtc nstep n0 (foldl recv n0 [2; 3; 4; 5; 6])).
  { unfold foldl, recv. do 5 (eapply rtc_l; [apply step_receive|]). apply rtc_refl. }
  assert (Hres : res = Nil).
  { vm_compute in Hn. injection Hn as <-. vm_compute in Hw. congruence. }
  subst res. exists n, n0, (foldl recv n0 [2; 3; 4; 5; 6]).
  split; [done|]. split; [done|]. split; [exact Hrun|]. split.
  - vm_compute in Hn. injection Hn as <-. vm_compute in Hw. injection Hw as <-.
    vm_compute. reflexivity.
  - exact (resources_bounded 0 cfg n n0 _ (id_of 1) known Hn Hw Hrun).
Defined.
