(* ===== verification/NetworkSpec.v ===== *)
(** * No node can be impersonated

    The composition of the signatures, the gate, the engine, the store and the codec: in a
    network of nodes, what a node stores in the slot of another is what that other node
    published there. *)
From S2P Require Import Prelude Types Crypto Hlc Sig Crdt CrdtLemmas CrdtInv Gate Peer Codec.
From S2P Require Import Engine Merkle EngineLemmas Outbound Node NodeLemmas NodeOutbound Network.
From S2P Require Import Samples.
From stdpp Require Import relations.
#[local] Open Scope Z_scope.

Section invariant.
Context `{Sha256} `{Ed25519Laws} `{ProtoLaws} `{MapOrder}.

(** Nodes with the same configurations vouch for the same records. *)
Definition same_cfgs (s s' : gmap NodeID nodeImpl) : Prop :=
  forall i n', s' !! i = Some n' -> exists n, s !! i = Some n /\ n_cfg n' = n_cfg n.

Lemma genuine_mono s s' l l' r :
  same_cfgs s s' -> (forall x, x ∈ l -> x ∈ l') -> genuine s l r -> genuine s' l' r.
Proof.
  intros Hs Hl [Hsig Hu]. split; [done|]. intros j n' Hj Hk.
  destruct (Hs j n' Hj) as (n & Hn & E). rewrite E in *.
  destruct (Hu j n Hn Hk) as (m & a & r' & Ha & Hr). exists m, a, r'. split; [by apply Hl|done].
Qed.

Lemma sound_mono (V V' : Record_ -> Prop) s : (forall r, V r -> V' r) -> sound V s -> sound V' s.
Proof.
  intros HV (hist & Hh & Hp). exists hist. split; [|done].
  eapply Forall_impl; [exact Hh|exact HV].
Qed.

(** The frame brings only genuine records, as far as they verify. *)
Definition genuineFrame (s : gmap NodeID nodeImpl) (l : list (NodeID * nodeImpl * action))
    (frame : bytes) : Prop :=
  forall f, decodeFrame frame = Some f ->
    Forall (fun p => wellSigned (recordFromProto p) = true -> genuine s l (recordFromProto p))
      (frameRecords f).

(** What the store of a node with gate [g0] goes back to: with key binding on, records of
    the identity their key encodes. *)
Definition keeps (g0 : inboundGate) (s : gmap NodeID nodeImpl)
    (l : list (NodeID * nodeImpl * action)) (r : Record_) : Prop :=
  genuine s l r /\
  (binding g0 = true -> len (r_PubKey r) = PublicKeySize /\ bindID r = nodeIDFromPub (r_PubKey r)).

(** What is sent can be received. *)
Lemma sent_genuine g0 s l frame : vouchedFrame (keeps g0 s l) frame -> genuineFrame s l frame.
Proof.
  intros [->|(f & Ef & Hall)] f' Ef'.
  - unfold decodeFrame in Ef'. by rewrite unmarshal_nil in Ef'.
  - rewrite (encodeFrame_decodes _ _ Ef) in Ef'. injection Ef' as <-.
    assert (frameRecords (onWire f) = frameRecords f) as -> by by destruct f.
    eapply Forall_impl; [exact Hall|]. by intros p [Hp _] _.
Qed.

Lemma received_vouchable g0 s l frame :
  genuineFrame s l frame -> vouchableFrame (keeps g0 s l) g0 frame.
Proof.
  intros Hf f Ef. eapply Forall_impl; [exact (Hf f Ef)|]. intros p Hp Hsig [now Hadm].
  split; [auto|]. apply (adm_binding _ _ _ Hadm).
Qed.

(** The invariant of a network that started as [g0]: the nodes are those of [g0], further
    on in their runs; their stores go back to genuine records; every frame in flight brings
    only such. *)
Record net_inv (g0 g : net) : Prop := {
  nv_sites : forall i n, sites g !! i = Some n ->
    exists n0, sites g0 !! i = Some n0 /\ n_cfg n = n_cfg n0 /\
      sound_engine (keeps (gate (n_engine n0)) (sites g) (log g)) (gate (n_engine n0)) (n_engine n);
  nv_soup : forall from to frame, (from, to, frame) ∈ soup g ->
    genuineFrame (sites g) (log g) frame;
  nv_log : forall i m a, (i, m, a) ∈ log g ->
    exists n0, sites g0 !! i = Some n0 /\ n_cfg m = n_cfg n0
}.

Lemma own_key g0 g i n :
  initial g0 -> net_inv g0 g -> sites g !! i = Some n ->
  ed_key (PrivKey (n_cfg n)) /\ NodeID_ (n_cfg n) = i /\
  i = nodeIDFromPub (ed_public (PrivKey (n_cfg n))).
Proof.
  intros (_ & _ & Hini) [Hs _ _] Hn. destruct (Hs i n Hn) as (n0 & Hn0 & -> & _).
  by destruct (Hini i n0 Hn0) as (? & ? & ? & _).
Qed.

Lemma slen_nodeID pub : length pub = 32%nat -> slen (nodeIDFromPub pub) = 64.
Proof.
  intros Hl. rewrite slen_toBytes. unfold nodeIDFromPub, len.
  by rewrite toBytes_ofBytes, length_encodeHex, Hl.
Qed.

Lemma own_keeps g0 g i n a r :
  initial g0 -> net_inv g0 g -> sites g !! i = Some n -> authors n a r ->
  forall gt, keeps gt (sites g) (log g ++ [(i, n, a)]) r.
Proof.
  intros Hini Hinv Hn Ha gt.
  destruct (own_key g0 g i n Hini Hinv Hn) as (Hk & Hid & Hi).
  assert (r_PubKey r = ed_public (PrivKey (n_cfg n)) /\ wellSigned r = true /\
          bindID r = NodeID_ (n_cfg n)) as (Hpub & Hsig & Hbind).
  { assert (Hne : String.eqb (NodeID_ (n_cfg n)) "" = false).
    { apply String.eqb_neq. intros E. rewrite Hid, Hi in E. apply (f_equal slen) in E.
      rewrite slen_nodeID in E; [done|by apply ed_public_length]. }
    destruct a; cbn in Ha; try done.
    1,2,3: destruct Ha as [stamp ->].
    4: destruct Ha as (? & ? & _ & ->).
    all: split; [done|split; [by apply wellSigned_signRecord|]].
    all: unfold bindID, IsObserverAttestation; cbn; by rewrite ?Hne. }
  split.
  - split; [done|]. intros j n' Hj Hjk. rewrite Hpub in Hjk.
    destruct (own_key g0 g j n' Hini Hinv Hj) as (_ & _ & Hji).
    assert (j = i) as -> by (rewrite Hji, Hi; congruence). assert (n' = n) as -> by congruence.
    exists n, a, r. split_and!; [|done..]. apply elem_of_app. right. by apply list_elem_of_singleton.
  - intros _. rewrite Hpub, Hbind, Hid. split; [|done].
    unfold len, PublicKeySize. by rewrite ed_public_length.
Qed.

Lemma genuineFrame_mono s s' l l' frame :
  (forall r, genuine s l r -> genuine s' l' r) -> genuineFrame s l frame -> genuineFrame s' l' frame.
Proof.
  intros HV Hf f Ef. eapply Forall_impl; [exact (Hf f Ef)|]. intros p Hp Hs. auto.
Qed.

Lemma net_inv_soup g0 g frame x :
  net_inv g0 g -> genuineFrame (sites g) (log g) frame ->
  net_inv g0 (mkNet (sites g) (soup g ++ [(x, frame)]) (log g)).
Proof.
  intros [Hs Hsoup Hlog] Hf. split; cbn [sites soup log]; [done| |done].
  intros from to fr [Hold|Hnew%list_elem_of_singleton]%elem_of_app; [by eapply Hsoup|].
  by injection Hnew as _ ->.
Qed.

Lemma net_inv_action g0 g i n a :
  initial g0 -> net_inv g0 g -> sites g !! i = Some n ->
  match a with DoReceive _ from frame => (from, i, frame) ∈ soup g | _ => True end ->
  net_inv g0 (mkNet (<[i := (perform a n).1]> (sites g)) (soup g ++ sentBy i (perform a n).2)
                (log g ++ [(i, n, a)])).
Proof.
  intros Hini Hinv Hn Hin. pose proof (own_keeps g0 g i n a) as Hown.
  pose proof Hinv as [Hs Hsoup Hlog].
  set (l := log g ++ [(i, n, a)]). set (ss := <[i := (perform a n).1]> (sites g)).
  assert (Hsame : same_cfgs (sites g) ss).
  { intros j n' Hj. unfold ss in Hj. destruct (decide (i = j)) as [<-|].
    - rewrite lookup_insert_eq in Hj. injection Hj as <-. exists n. by rewrite perform_cfg.
    - rewrite lookup_insert_ne in Hj by done. by exists n'. }
  assert (Hl : forall x, x ∈ log g -> x ∈ l) by (intros; apply elem_of_app; by left).
  assert (Hmono : forall r, genuine (sites g) (log g) r -> genuine ss l r)
    by (intros r; by apply genuine_mono).
  assert (Hkeep : forall gt r, keeps gt (sites g) (log g) r -> keeps gt ss l r)
    by (intros gt r [? ?]; split; auto).
  destruct (Hs i n Hn) as (n0 & Hn0 & Ecfg & Hsound & Hgate).
  destruct (perform_guarded (keeps (gate (n_engine n0)) ss l) (gate (n_engine n0)) a n)
    as [Hsound' Hout].
  - intros r Hr. destruct (Hown r Hini Hinv Hn Hr (gate (n_engine n0))) as [Hg Hb].
    split; [|done]. by apply (genuine_mono (sites g) ss l l).
  - destruct a; try done. apply received_vouchable. eapply genuineFrame_mono; [exact Hmono|].
    by eapply Hsoup.
  - split; [|done]. eapply sound_mono; [|exact Hsound]. apply Hkeep.
  - split; cbn [sites soup log].
    + intros j n' Hj. unfold ss in Hj. destruct (decide (i = j)) as [<-|].
      * rewrite lookup_insert_eq in Hj. injection Hj as <-. exists n0.
        split_and!; [done|by rewrite perform_cfg|done..].
      * rewrite lookup_insert_ne in Hj by done.
        destruct (Hs j n' Hj) as (n0' & Hn0' & Ecfg' & Hsound'' & Hgate').
        exists n0'. split_and!; [done..|split; [|done]]. eapply sound_mono; [|exact Hsound'']. apply Hkeep.
    + intros from to frame [Hold|Hnew]%elem_of_app.
      * eapply genuineFrame_mono; [exact Hmono|]. by eapply Hsoup.
      * apply (sent_genuine (gate (n_engine n0))). unfold sentBy in Hnew.
        apply list_elem_of_omap in Hnew as (x & Hx & Ex).
        rewrite Forall_forall in Hout. specialize (Hout x Hx).
        destruct x; try done. by injection Ex as <- <- <-.
    + intros j m b [Hold|Hnew%list_elem_of_singleton]%elem_of_app; [by eapply Hlog|].
      injection Hnew as -> -> ->. by exists n0.
Qed.

Lemma net_inv_run g0 g : initial g0 -> rtc net_step g0 g -> net_inv g0 g.
Proof.
  intros Hini. apply (rtc_ind_r (net_inv g0)).
  - destruct Hini as (Hsoup & Hlog & Hini). split.
    + intros i n Hn. destruct (Hini i n Hn) as (_ & _ & _ & He). exists n.
      split_and!; [done|done|split; [|done]].
      exists []. split; [constructor|]. intros t ts. by rewrite He.
    + rewrite Hsoup. by intros ? ? ? ?%elem_of_nil.
    + rewrite Hlog. by intros ? ? ? ?%elem_of_nil.
  - intros g1 g2 _ Hstep IH.
    destruct Hstep as [i n a Hn Hin|from to from' to' frame Hin|from to frame Hf].
    + by apply net_inv_action.
    + apply net_inv_soup; [done|]. by eapply nv_soup.
    + apply net_inv_soup; [done|]. intros f Ef. apply Forall_forall. intros p Hp Hsig.
      split; [done|]. by eapply Hf.
Qed.

(** The length of the signing bytes bounds every variable part. *)
Lemma signableBytes_bounds r :
  len (toBytes (r_Topic r)) <= len (signableBytes r) /\
  len (r_Body r) <= len (signableBytes r) /\
  len (toBytes (r_ObserverNodeID r)) <= len (signableBytes r) /\
  len (toBytes (r_Key r)) <= len (signableBytes r).
Proof.
  unfold signableBytes, len. cbv zeta.
  destruct (0 <? Z.of_nat (length (toBytes (r_Key r)))) eqn:E; bool_to_prop;
    rewrite !length_app; simpl; lia.
Qed.

(** Signing bytes short enough for the length prefixes determine the fields of records
    whose NodeIDs and keys have one length. *)
Lemma signed_fields r1 r2 :
  len (signableBytes r2) < 2 ^ 16 -> slen (r_NodeID r1) = slen (r_NodeID r2) ->
  len (r_PubKey r1) = len (r_PubKey r2) -> signableBytes r1 = signableBytes r2 ->
  r_Topic r1 = r_Topic r2 /\ r_NodeID r1 = r_NodeID r2 /\ r_Tombstone r1 = r_Tombstone r2 /\
  r_Body r1 = r_Body r2 /\ r_ObserverNodeID r1 = r_ObserverNodeID r2 /\ r_Key r1 = r_Key r2.
Proof.
  intros Hlen Hn Hp E.
  pose proof (signableBytes_bounds r1) as (Ht1 & Hb1 & Ho1 & Hk1).
  pose proof (signableBytes_bounds r2) as (Ht2 & Hb2 & Ho2 & Hk2).
  rewrite E in *. revert E. unfold signableBytes. cbv zeta. rewrite !slen_toBytes in *.
  rewrite !(u16_len (toBytes (r_Topic _))), !(u16_len (toBytes (r_ObserverNodeID _))),
    !u32_len by lia.
  intros E. apply (prefixed_inj 2) in E as [Et E]; [|lia|lia].
  apply app_inj_1 in E as [En E]; [|unfold len in Hn; lia].
  apply app_inj_1 in E as [_ E]; [|by rewrite !length_be_put].
  apply app_inj_1 in E as [[= Eb%bool_byte_inj] E]; [|done].
  apply (prefixed_inj 4) in E as [Ebody E]; [|lia|lia].
  apply app_inj_1 in E as [_ E]; [|unfold len in Hp; lia].
  apply (prefixed_inj 2) in E as [Eo E]; [|lia|lia].
  apply app_inj_1 in E as [_ Ek]; [|by rewrite !length_be_put].
  apply key_suffix_inj, toBytes_inj in Ek; [|lia|lia].
  apply toBytes_inj in Et, En, Eo. done.
Qed.
End invariant.

(** The sizes of what an action signs: topic, key and body together below 32 KiB (the
    default limit of a body is 16 KiB), and targets that are NodeIDs. *)
Definition modest `{MapOrder} (n : nodeImpl) (a : action) : Prop :=
  match a with
  | DoPublish _ topic key body => slen topic + slen key + len body < 2 ^ 15
  | DoTombstone _ topic key => slen topic + slen key < 2 ^ 15
  | DoObserver _ topic target => slen topic < 2 ^ 15 /\ slen target = 64
  | DoTenant _ _ => forall r, r ∈ ownRecords (store (n_engine n)) (NodeID_ (n_cfg n)) ->
      slen (r_Topic r) + slen (r_Key r) < 2 ^ 15
  | _ => True
  end.

(** ** The theorem *)

(** The action publishes this in the slot [key] of the topic. *)
Definition publishes `{MapOrder} (m : nodeImpl) (a : action) (t : Topic) (key : string)
    (body : bytes) (tomb : bool) : Prop :=
  match a with
  | DoPublish _ topic key' body' => topic = t /\ key' = key /\ body' = body /\ tomb = false
  | DoTombstone _ topic key' => topic = t /\ key' = key /\ body = [] /\ tomb = true
  | DoTenant _ _ => body = [] /\ tomb = true /\
      exists r, r ∈ ownRecords (store (n_engine m)) (NodeID_ (n_cfg m)) /\
        r_Topic r = t /\ r_Key r = key
  | _ => False
  end.

Section theorem.
Context `{Sha256} `{Ed25519Laws} `{ProtoLaws} `{MapOrder}.

Lemma len_slen s : len (toBytes s) = slen s.
Proof. by rewrite slen_toBytes. Qed.

Lemma modest_bytes n a r :
  slen (NodeID_ (n_cfg n)) = 64 -> ed_key (PrivKey (n_cfg n)) ->
  modest n a -> authors n a r ->
  len (signableBytes r) < 2 ^ 16 /\ slen (r_NodeID r) = 64 /\ len (r_PubKey r) = PublicKeySize.
Proof.
  intros Hid Hk Hm Ha. pose proof (ed_public_length (PrivKey (n_cfg n)) Hk) as Hpub.
  assert (Hlen : forall r : Record_, length (r_PubKey r) = 32%nat -> slen (r_NodeID r) = 64 ->
    slen (r_Topic r) + slen (r_Key r) + len (r_Body r) < 2 ^ 15 ->
    slen (r_ObserverNodeID r) <= 64 -> len (signableBytes r) < 2 ^ 16).
  { intros r1 Hp Hn Hs Ho. rewrite !slen_toBytes in *. unfold signableBytes, len in *. cbv zeta.
    destruct (0 <? Z.of_nat (length (toBytes (r_Key r1)))); rewrite !length_app, !length_be_put;
      cbn [length]; lia. }
  assert (Hnil : slen "" = 0) by done.
  destruct a; cbn [authors modest] in *; try done.
  - destruct Ha as [stamp ->]. split_and!; [|done|unfold len; cbn; by rewrite Hpub].
    apply Hlen; cbn; [done|done|lia|lia].
  - destruct Ha as [stamp ->]. split_and!; [|done|unfold len; cbn; by rewrite Hpub].
    apply Hlen; cbn; [done|done|unfold len; cbn; lia|lia].
  - destruct Ha as [stamp ->]. destruct Hm as [Ht Hn].
    split_and!; [|done|unfold len; cbn; by rewrite Hpub].
    apply Hlen; cbn; [done|done|unfold len; cbn; lia|lia].
  - destruct Ha as (r0 & stamp & Hin & ->). specialize (Hm r0 Hin).
    split_and!; [|done|unfold len; cbn; by rewrite Hpub].
    apply Hlen; cbn; [done|done|unfold len; cbn; lia|lia].
Qed.

(** A genuine record of a node, of the right shape, has the fields of one that the node
    signed in an action of the log. *)
Lemma genuine_fields g0 g j nj r :
  initial g0 -> net_inv g0 g -> (forall p m a, (p, m, a) ∈ log g -> modest m a) ->
  sites g !! j = Some nj -> genuine (sites g) (log g) r ->
  r_PubKey r = ed_public (PrivKey (n_cfg nj)) -> slen (r_NodeID r) = 64 ->
  exists m a r', (j, m, a) ∈ log g /\ NodeID_ (n_cfg m) = j /\ authors m a r' /\
    r_Topic r = r_Topic r' /\ r_NodeID r = r_NodeID r' /\ r_Tombstone r = r_Tombstone r' /\
    r_Body r = r_Body r' /\ r_ObserverNodeID r = r_ObserverNodeID r' /\ r_Key r = r_Key r'.
Proof.
  intros Hini Hinv Hmod Hj [Hsig Hu] Hpub Hn.
  destruct (own_key g0 g j nj Hini Hinv Hj) as (Hk & Hid & Hji).
  destruct (Hu j nj Hj Hpub) as (m & a & r' & Hin & Ecfg & Ha & E).
  exists m, a, r'. split; [done|]. split; [by rewrite Ecfg|]. split; [done|].
  destruct (modest_bytes m a r') as (Hlen & Hn' & Hp'); [..|by eapply Hmod|done|].
  - rewrite Ecfg, Hid, Hji. by apply slen_nodeID, ed_public_length.
  - by rewrite Ecfg.
  - apply signed_fields; [done|congruence| |done]. rewrite Hpub, Hp'. unfold len, PublicKeySize.
    by rewrite ed_public_length.
Qed.
(** With key binding, a record that names a node as its signer carries the node's key. *)
Lemma signer_key g0 g gt a no :
  initial g0 -> net_inv g0 g -> binding gt = true -> keeps gt (sites g) (log g) a ->
  sites g !! bindID a = Some no -> r_PubKey a = ed_public (PrivKey (n_cfg no)).
Proof.
  intros Hini Hinv Hb [_ Hbind] Hno. destruct (Hbind Hb) as [Hl E].
  destruct (own_key g0 g _ no Hini Hinv Hno) as (Hk & _ & Ekey). rewrite E in Ekey.
  apply (f_equal pubFromNodeID) in Ekey. unfold len, PublicKeySize in Hl.
  rewrite !pub_of_nodeID in Ekey; [congruence|by apply ed_public_length|lia].
Qed.

(** An attestation in a node's name was made by the node. *)
Lemma attestation_made g0 g gt a no j :
  initial g0 -> net_inv g0 g -> (forall p m a, (p, m, a) ∈ log g -> modest m a) ->
  binding gt = true -> keeps gt (sites g) (log g) a -> IsObserverAttestation a = true ->
  r_NodeID a = j -> slen j = 64 -> sites g !! r_ObserverNodeID a = Some no ->
  exists m c, (r_ObserverNodeID a, m, DoObserver c (r_Topic a) j) ∈ log g.
Proof.
  intros Hini Hinv Hmod Hb Hk Hatt <- Hl Hno.
  assert (bindID a = r_ObserverNodeID a) as Ebind by (unfold bindID; by rewrite Hatt).
  rewrite <- Ebind in Hno.
  destruct (genuine_fields g0 g _ no a Hini Hinv Hmod Hno (proj1 Hk))
    as (m & b & r' & Hlog & Hm & Hr' & Et & En & Etomb & Ebody & Eobs & Ekey); [|done|].
  { by apply (signer_key g0 g gt). }
  assert (Hne : r_ObserverNodeID r' <> "").
  { rewrite <- Eobs. unfold IsObserverAttestation in Hatt. intros E'. rewrite E' in Hatt.
    by rewrite andb_false_r in Hatt. }
  rewrite Ebind in Hlog. destruct b; cbn in Hr'; try done.
  1,2: by destruct Hr' as [stamp ->].
  2: by destruct Hr' as (r0 & stamp & _ & ->).
  destruct Hr' as [stamp ->]. cbn in Et, En. exists m, c. by rewrite Et, En.
Qed.

(** An owner record in a node's name was published by the node. *)
Lemma record_published g0 g gt r j nj :
  initial g0 -> net_inv g0 g -> (forall p m a, (p, m, a) ∈ log g -> modest m a) ->
  binding gt = true -> keeps gt (sites g) (log g) r -> IsObserverAttestation r = false ->
  r_NodeID r = j -> sites g !! j = Some nj ->
  exists m a, (j, m, a) ∈ log g /\
    publishes m a (r_Topic r) (r_Key r) (r_Body r) (r_Tombstone r).
Proof.
  intros Hini Hinv Hmod Hb Hk Ho <- Hj.
  destruct (own_key g0 g _ nj Hini Hinv Hj) as (Hkj & _ & Hjkey).
  assert (Hlj : slen (r_NodeID r) = 64) by (rewrite Hjkey; by apply slen_nodeID, ed_public_length).
  assert (bindID r = r_NodeID r) as Ebind by (unfold bindID; by rewrite Ho).
  destruct (genuine_fields g0 g _ nj r Hini Hinv Hmod Hj (proj1 Hk))
    as (m & a & r' & Hlog & Hm & Ha & Et & En & Etomb & Ebody & Eobs & Ekey); [|done|].
  { apply (signer_key g0 g gt); [done..|]. by rewrite Ebind. }
  exists m, a. split; [done|]. rewrite Et, Ebody, Etomb, Ekey.
  destruct a; cbn in Ha |- *; try done.
  - by destruct Ha as [stamp ->].
  - by destruct Ha as [stamp ->].
  - exfalso. destruct Ha as [stamp ->]. cbn in Etomb, Eobs. unfold IsObserverAttestation in Ho.
    rewrite Etomb, Eobs, Hm in Ho. simpl in Ho. apply negb_false_iff, String.eqb_eq in Ho.
    by rewrite Ho in Hlj.
  - destruct Ha as (r0 & stamp & Hr0 & ->). cbn. split_and!; [done..|]. by exists r0.
Qed.
End theorem.

(** C2 No impersonation. In a network of nodes with keys of their own, against an adversary
    who controls every frame but cannot sign with their keys, take a node with key binding
    on and a slot of its store that belongs to one of the nodes. If the slot holds a signed
    record, its owner published exactly that: one of the owner's calls of [PublishKeyed],
    [PublishKeyedTombstone] or [SetTenant] has this topic, key and body. If it holds a
    synthesised tombstone, at least K distinct observers attested the death, and every one
    of them that is a node of the network called [PublishObserverTombstone] on the owner.
    Titles and bodies must be of modest size, and NodeIDs are those of keys. *)
Theorem nothing_forged `{Sha256, Ed25519Laws, ProtoLaws, MapOrder} (g0 g : net)
    (i j : NodeID) (ni nj : nodeImpl) (t : Topic) (key : string) (r : Record_) :
  initial g0 -> rtc net_step g0 g ->
  (forall p m a, (p, m, a) ∈ log g -> modest m a) ->
  sites g !! i = Some ni -> sites g !! j = Some nj -> binding (gate (n_engine ni)) = true ->
  slot (store (n_engine ni)) t (mkKey j key) = Some r ->
  (exists m a, (j, m, a) ∈ log g /\ publishes m a t key (r_Body r) (r_Tombstone r)) \/
  (r = synthTombstone t j key (r_HLC r) /\
   exists W : gmap NodeID Record_, observerQuorum (store (n_engine ni)) <= mlen W /\
     forall o a, W !! o = Some a -> r_ObserverNodeID a = o /\ wellSigned a = true /\
       o = nodeIDFromPub (r_PubKey a) /\
       forall no, sites g !! o = Some no ->
         exists m c, (o, m, DoObserver c t j) ∈ log g).
Proof.
  intros Hini Hrun Hmod Hi Hj Hb Hslot. pose proof (net_inv_run g0 g Hini Hrun) as Hinv.
  destruct (own_key g0 g j nj Hini Hinv Hj) as (Hkj & _ & Hjkey).
  destruct (nv_sites _ _ Hinv i ni Hi) as (n0 & _ & _ & (hist & Hh & Hprov) & Hgate).
  assert (Hb0 : binding (gate (n_engine n0)) = true) by (unfold gate_policy in Hgate; congruence).
  rewrite Forall_forall in Hh. unfold slot in Hslot.
  destruct (byTopic (store (n_engine ni)) !! t) as [ts|] eqn:Ets; [|done].
  destruct (Hprov t ts Ets) as [Hrec _].
  destruct (Hrec _ r Hslot) as [(Hin & Ho & <- & Ek)|(Hs & W & newest & Hq & _ & _ & HW)].
  - left. injection Ek as Enode <-. apply (record_published g0 g (gate (n_engine n0)) r j nj); try done. by apply Hh.
  - right. split; [done|]. exists W. split; [done|]. intros o a Ha.
    destruct (HW o a Ha) as ((Hin & Hatt & <- & Hna & <- & Hrole) & _).
    destruct (Hh a Hin) as [Hg Hbind]. destruct (Hbind Hb0) as [_ E].
    split_and!; [done|apply Hg|unfold bindID in E; by rewrite Hatt in E|].
    intros no Hno. eapply attestation_made; [done..|by apply Hh|done|done| |done].
    rewrite Hjkey. by apply slen_nodeID, ed_public_length.
Qed.

Lemma log_action g p m a : (p, m, a) ∈ log g -> a ∈ snd <$> log g.
Proof. intros Hin. apply list_elem_of_fmap. by exists (p, m, a). Qed.

Section examples.
#[local] Existing Instances ToySha256.hash ToyEd25519.scheme ToyEd25519.laws ToyProto.codec
  ToyProto.laws std_order.

(** Two nodes; the first publishes, and the network delivers its push to the second. *)
Definition net0 : net :=
  mkNet {[ id_of 1 := sample_node 1 [id_of 2]; id_of 2 := sample_node 2 [id_of 1] ]} [] [].
Definition act (i : NodeID) (a : action) (g : net) : net :=
  match sites g !! i with
  | Some n => mkNet (<[i := (perform a n).1]> (sites g)) (soup g ++ sentBy i (perform a n).2)
                (log g ++ [(i, n, a)])
  | None => g
  end.
Definition publication : action := DoPublish (at_ms 1000) "fleet" "k" (toBytes "up").
Definition pushed : bytes := default [] ((fun x => x.2) <$> head (soup (act (id_of 1) publication net0))).
Definition delivery : action := DoReceive (at_ms 1001) (id_of 1) pushed.
Definition net2 : net := act (id_of 2) delivery (act (id_of 1) publication net0).

Lemma act_step i n a g :
  sites g !! i = Some n ->
  match a with DoReceive _ from frame => (from, i, frame) ∈ soup g | _ => True end ->
  net_step g (act i a g).
Proof. intros E Hin. unfold act. rewrite E. by apply net_action. Qed.

Lemma net0_initial : initial net0.
Proof.
  split; [reflexivity|]. split; [reflexivity|]. intros i n Hn. cbn [sites net0] in Hn.
  apply lookup_insert_Some in Hn as [[<- <-]|[_ Hn]].
  - repeat split; vm_compute; reflexivity.
  - apply lookup_singleton_Some in Hn as [<- <-]. repeat split; vm_compute; reflexivity.
Qed.

Lemma net2_reached : rtc net_step net0 net2.
Proof.
  apply (rtc_l _ _ (act (id_of 1) publication net0)); [|apply rtc_once].
  - apply (act_step _ (sample_node 1 [id_of 2])); [vm_compute; reflexivity|exact I].
  - unfold net2. apply (act_step _ (sample_node 2 [id_of 1])); [vm_compute; reflexivity|].
    apply list_elem_of_In. vm_compute. left. reflexivity.
Qed.

(** What the second node then holds in the slot of the first was published there. *)
Lemma nothing_forged_witness :
  exists r, slot (store (n_engine (default (sample_node 0 []) (sites net2 !! id_of 2))))
              "fleet" (mkKey (id_of 1) "k") = Some r /\
    ((exists m a, (id_of 1, m, a) ∈ log net2 /\
        publishes m a "fleet" "k" (r_Body r) (r_Tombstone r)) \/
     r = synthTombstone "fleet" (id_of 1) "k" (r_HLC r)).
Proof.
  destruct (slot (store (n_engine (default (sample_node 0 []) (sites net2 !! id_of 2))))
    "fleet" (mkKey (id_of 1) "k")) as [r|] eqn:Er; [|vm_compute in Er; discriminate].
  exists r. split; [reflexivity|].
  destruct (sites net2 !! id_of 2) as [n2|] eqn:E2; [|vm_compute in E2; discriminate].
  destruct (sites net2 !! id_of 1) as [n1|] eqn:E1; [|vm_compute in E1; discriminate].
  destruct (nothing_forged net0 net2 (id_of 2) (id_of 1) n2 n1 "fleet" "k" r)
    as [Hpub|[Hs _]]; [|..|left; exact Hpub|right; exact Hs].
  - exact net0_initial.
  - exact net2_reached.
  - intros p m a Hin.
    pose proof (log_action _ _ _ _ Hin) as Ha.
    replace (snd <$> log net2) with [publication; delivery] in Ha by (vm_compute; reflexivity).
    apply elem_of_cons in Ha as [->|Ha]; [vm_compute; reflexivity|].
    apply list_elem_of_singleton in Ha as ->. exact I.
  - exact E2.
  - exact E1.
  - transitivity (binding (gate (n_engine (default (sample_node 0 []) (sites net2 !! id_of 2)))));
      [by rewrite E2|vm_compute; reflexivity].
  - exact Er.
Defined.
End examples.
