(* ===== verification/Durable.v ===== *)
(** * Stores only move forward

    A node's store along its runs, and in a network: the view of Replica.v goes up. *)
From S2P Require Import Prelude Types Crypto Hlc Sig Crdt CrdtLemmas CrdtInv CrdtReads Replica.
From S2P Require Import Gate Peer Codec Engine Merkle EngineLemmas Node NodeLemmas NodeOutbound.
From S2P Require Import Network NetworkSpec Samples.
From stdpp Require Import relations.
#[local] Open Scope Z_scope.

(** Sweeps leave the topic alone. *)
Definition untimed (cfg : Config) (t : Topic) : Prop :=
  forall ttl, TopicTTL cfg = Some ttl -> ttl t <= 0.

Section durable.
Context `{Sha256} `{Ed25519Laws} `{ProtoLaws} `{MapOrder}.

(** The slots of the untimed topics only go up. *)
Definition forward (n n' : nodeImpl) : Prop :=
  n_cfg n' = n_cfg n /\
  forall t k, untimed (n_cfg n) t -> slots (store (n_engine n)) (t, k) ⊑ slots (store (n_engine n')) (t, k).

#[export] Instance forward_preorder : PreOrder forward.
Proof.
  split; [intros n; split; [done|reflexivity]|].
  intros n1 n2 n3 [E1 H1'] [E2 H2']. split; [congruence|]. intros t k Hu.
  etrans; [by apply H1'|]. apply H2'. by rewrite E1.
Qed.

Lemma reap_untimed s nowMs ttl t k :
  ttl t <= 0 -> slots (reapExpired s nowMs (Some ttl)).1 (t, k) = slots s (t, k).
Proof.
  intros Ht. unfold slots. cbn [fst snd]. rewrite !slot_topicOf, reap_topicOf, kept_records.
  rewrite (proj2 (Z.ltb_ge _ _)) by done. by case_match.
Qed.

Lemma ndelta_forward n n' : ndelta n n' -> forward n n'.
Proof.
  intros (Ec & _ & [(_ & l & Es & _)|(e1 & nowMs & ttl & Ettl & (_ & l & Es & _) & Hreap)]);
    (split; [done|]); intros t k Hu.
  - rewrite Es. apply slots_inflate_all.
  - rewrite Hreap. cbn [store set_store]. rewrite reap_untimed by (by apply Hu). rewrite Es. apply slots_inflate_all.
Qed.

Lemma perform_forward a n :
  ed_key (PrivKey (n_cfg n)) -> NodeID_ (n_cfg n) <> "" -> forward n (perform a n).1.
Proof. intros Hk Hid. apply ndelta_forward, nstep_delta; [done|done|apply perform_nstep]. Qed.

(** Every site of a network after a run, against the same site before. *)
Lemma net_forward g0 g g' i n :
  initial g0 -> rtc net_step g0 g -> rtc net_step g g' -> sites g !! i = Some n ->
  exists n', sites g' !! i = Some n' /\ forward n n'.
Proof.
  intros Hini H0' Hrun Hn. revert g' Hrun.
  apply (rtc_ind_r (fun g' => exists n', sites g' !! i = Some n' /\ forward n n') g).
  - exists n. split; [done|reflexivity].
  - intros g1 g2 Hg1 Hstep (n1 & Hn1 & Hf).
    destruct Hstep as [j nj a Hj _|from to from' to' frame _|from to frame _]; [|by eauto..].
    cbn [sites]. destruct (decide (j = i)) as [->|]; [|rewrite lookup_insert_ne by done; by eauto].
    assert (nj = n1) as -> by congruence. rewrite lookup_insert_eq. eexists. split; [done|].
    etrans; [exact Hf|].
    assert (Hinv : net_inv g0 g1) by (apply net_inv_run; [done|by transitivity g]).
    destruct (own_key g0 g1 i n1 Hini Hinv Hn1) as (Hk & Hid & Hi).
    apply perform_forward; [done|]. intros E. rewrite Hid, Hi in E.
    apply (f_equal slen) in E. rewrite slen_nodeID in E; [done|by apply ed_public_length].
Qed.
End durable.

(** C3: no node of a network ever forgets or goes back. Take a record a node holds at any
    moment, in a topic without TTL, and let the network run on, the adversary controlling
    every frame and the node publishing, retiring its own records, being attested against,
    pausing or losing its peers. The slot is never empty again, and what it holds never
    loses to the record: it is the record, or one with a later clock, or one with the same
    clock and a signature that is not smaller. *)
Theorem nothing_lost `{Sha256, Ed25519Laws, ProtoLaws, MapOrder} (g0 g g' : net)
    (i : NodeID) (n : nodeImpl) (t : Topic) (k : recordKey) (r : Record_) :
  initial g0 -> rtc net_step g0 g -> rtc net_step g g' ->
  sites g !! i = Some n -> untimed (n_cfg n) t -> slot (store (n_engine n)) t k = Some r ->
  exists n' r', sites g' !! i = Some n' /\ slot (store (n_engine n')) t k = Some r' /\
    newer r r' = false.
Proof.
  intros Hini H0' Hrun Hn Hu Hr.
  destruct (net_forward g0 g g' i n Hini H0' Hrun Hn) as (n' & Hn' & _ & Hup).
  specialize (Hup t k Hu). rewrite slot_le in Hup. destruct (Hup r Hr) as (r' & Hr' & Hne).
  by exists n', r'.
Qed.

Section examples.
#[local] Existing Instances ToySha256.hash ToyEd25519.scheme ToyEd25519.laws ToyProto.codec
  ToyProto.laws std_order.

(** The second node, which holds a record of the first, then gets its retirement. *)
Definition retirement : action := DoTombstone (at_ms 2000) "fleet" "k".
Definition net3 : net := act (id_of 1) retirement net2.
Definition pushed' : bytes := default [] ((fun x => x.2) <$> last (soup net3)).
Definition delivery' : action := DoReceive (at_ms 2001) (id_of 1) pushed'.
Definition net4 : net := act (id_of 2) delivery' net3.

Definition site2 (g : net) : nodeImpl := default (sample_node 0 []) (sites g !! id_of 2).
Definition held (n : nodeImpl) : option Record_ :=
  slot (store (n_engine n)) "fleet" (mkKey (id_of 1) "k").

Lemma site2_lookup g : (if sites g !! id_of 2 is Some _ then true else false) = true ->
  sites g !! id_of 2 = Some (site2 g).
Proof. unfold site2. by destruct (sites g !! id_of 2). Qed.

Lemma nothing_lost_witness :
  exists r r', held (site2 net2) = Some r /\ r_Tombstone r = false /\
    (exists n', sites net4 !! id_of 2 = Some n' /\ held n' = Some r' /\ newer r r' = false) /\
    (r_Tombstone <$> held (site2 net4)) = Some true.
Proof.
  destruct (held (site2 net2)) as [r|] eqn:Er; [|vm_compute in Er; discriminate].
  destruct (nothing_lost net0 net2 net4 (id_of 2) (site2 net2) "fleet" (mkKey (id_of 1) "k") r)
    as (n' & r' & Hn' & Hr' & Hne).
  - exact net0_initial.
  - exact net2_reached.
  - apply (rtc_l _ _ net3); [|apply rtc_once].
    + apply (act_step _ (default (sample_node 0 []) (sites net2 !! id_of 1)));
        [vm_compute; reflexivity|exact I].
    + apply (act_step _ (site2 net3)); [apply site2_lookup; vm_compute; reflexivity|].
      apply list_elem_of_In. vm_compute. tauto.
  - apply site2_lookup. vm_compute. reflexivity.
  - intros ttl Httl. vm_compute in Httl. discriminate.
  - exact Er.
  - exists r, r'. split; [reflexivity|]. split.
    + transitivity (default true (r_Tombstone <$> held (site2 net2)));
        [by rewrite Er|vm_compute; reflexivity].
    + split; [exists n'; by split_and!|vm_compute; reflexivity].
Defined.
End examples.
