(* ===== verification/Reports.v ===== *)
(** * No silent change

    What the record store does to a slot, a handler reports: the records handed to
    [recordAccepted], which feeds the accepted-change stream and the subscribers, account
    for every change of every slot but expiry. *)
From S2P Require Import Prelude Types Crypto Hlc Sig Crdt CrdtLemmas CrdtInv CrdtReads Gate Peer.
From S2P Require Import Codec Engine Merkle EngineLemmas Node NodeLemmas NodeOutbound Samples.
#[local] Open Scope Z_scope.

(** The record accounts for what a slot now holds: it is that record, or the tombstone that
    a quorum of attestations against the owner synthesised when this one came in. *)
Definition explains (r : Record_) (t : Topic) (k : recordKey) (o : option Record_) : Prop :=
  r_Topic r = t /\ r_NodeID r = k_NodeID k /\
  ((keyOf r = k /\ o = Some r) \/
   (IsObserverAttestation r = true /\
    exists h, o = Some (synthTombstone t (k_NodeID k) (k_Key k) h))).

(** From store [s] to store [s'], every change is accounted for by one of [rs]. *)
Definition accounted (s : recordStore) (rs : list Record_) (s' : recordStore) : Prop :=
  forall t k, slot s' t k = slot s t k \/ exists r, r ∈ rs /\ explains r t k (slot s' t k).

Lemma accounted_refl s rs : accounted s rs s.
Proof. intros t k. by left. Qed.

Lemma accounted_trans s rs s1 rs' s2 :
  accounted s rs s1 -> accounted s1 rs' s2 -> accounted s (rs ++ rs') s2.
Proof.
  intros H1 H2 t k. destruct (H2 t k) as [E|(r & Hr & He)].
  - rewrite E. destruct (H1 t k) as [?|(r & Hr & He)]; [by left|right].
    exists r. split; [apply elem_of_app; by left|done].
  - right. exists r. split; [apply elem_of_app; by right|done].
Qed.

Lemma accounted_mono s rs rs' s' : rs ⊆ rs' -> accounted s rs s' -> accounted s rs' s'.
Proof. intros Hin Hs t k. destruct (Hs t k) as [?|(r & Hr & He)]; [by left|right; eauto]. Qed.

Lemma accounted_same s s' rs : (forall t k, slot s' t k = slot s t k) -> accounted s rs s'.
Proof. intros Hs t k. by left. Qed.

#[export] Hint Resolve accounted_refl : swarm.

(** ** The store *)
Section store.
Context `{MapOrder}.

(** An attestation that changes a slot is reported as applied. *)
Lemma attestation_changes nowMs s ts a k :
  let '(_, ts', (applied, _, _)) := applyAttestationLocked nowMs s ts a in
  records ts' !! k = records ts !! k \/
  (applied = true /\ k_NodeID k = r_NodeID a /\
   exists h, records ts' !! k = Some (synthTombstone (r_Topic a) (r_NodeID a) (k_Key k) h)).
Proof.
  destruct (admits nowMs s ts a) eqn:Ha.
  2: { pose proof (attest_rejected nowMs s ts a Ha) as Hr.
       destruct (applyAttestationLocked nowMs s ts a) as [[s1 ts1] [[ap re] ac]].
       destruct Hr as (_ & _ & Hrec & _). left. by rewrite Hrec. }
  rewrite attest_admitted by done. set (W := witnesses s ts a).
  pose proof (settle_below s ts a W) as Hb. pose proof (settle_quorum s ts a W) as Hq.
  cbv zeta in Hq. destruct (settle s ts a W) as [ts' [[ap re] ac]]. cbn [fst snd] in *.
  destruct (Z.lt_ge_cases (mlen W) (observerQuorum s)) as [Hlt|Hge].
  { left. by destruct (Hb Hlt) as (_ & -> & _). }
  destruct (Hq Hge) as (_ & _ & _ & Hap & Habs & Hpres).
  destruct (nodePresent ts (r_NodeID a)) eqn:Hp.
  - rewrite Hpres by done. destruct (records ts !! k) as [cur|] eqn:Ek; [|by left].
    destruct (bool_decide (k_NodeID k = r_NodeID a) && entombed (synthHLC W) cur) eqn:Et; [|by left].
    bool_to_prop. right. split; [apply Hap; right; by exists k, cur|]. split; [done|eauto].
  - rewrite Habs by done. rewrite lookup_insert. case_decide as Hk; [|by left]. subst k. right.
    split; [apply Hap; by left|]. split; [done|eauto].
Qed.

Lemma owner_changes nowMs s ts r k :
  let '(_, ts', (applied, _, _)) := applyOwner nowMs s ts r in
  records ts' !! k = records ts !! k \/
  (applied = true /\ keyOf r = k /\ records ts' !! k = Some r).
Proof.
  unfold applyOwner. destruct (records ts !! keyOf r) as [cur|] eqn:Ec.
  - destruct (newer r cur); [|by left]. rewrite stampRestored_records. cbn.
    rewrite lookup_insert. case_decide; [by right|by left].
  - destruct (_ >=? maxRecordsPerTopic s); [by left|].
    destruct ((maxKeysPerNode s >? 0) && _); [by left|]. rewrite stampRestored_records. cbn.
    rewrite lookup_insert. case_decide; [by right|by left].
Qed.

Lemma ApplyExt_accounted nowMs s r :
  let '(s', (applied, _, _)) := ApplyExt nowMs s r in
  accounted s (if (applied : bool) then [r] else []) s'.
Proof.
  destruct (ApplyExt nowMs s r) as [s' [[ap re] ac]] eqn:E. intros t k.
  destruct (decide (t = r_Topic r)) as [->|Ht].
  2: { left. unfold slot. pose proof (ApplyExt_other nowMs s r t Ht) as Ho. rewrite E in Ho.
       cbn [fst] in Ho. by rewrite Ho. }
  rewrite ApplyExt_unfold in E.
  destruct (topic_capped s (r_Topic r)); [injection E as <- _ _ _; by left|].
  rewrite !slot_topicOf. unfold applyTopic in E. destruct (IsObserverAttestation r) eqn:Ho.
  - pose proof (attestation_changes nowMs s (topicOf s (r_Topic r)) r k) as Hc.
    destruct (applyAttestationLocked _ _ _ r) as [[s1 ts1] [[ap1 re1] ac1]].
    injection E as <- <- <- <-. rewrite topicOf_insert, decide_True by done.
    destruct Hc as [->|(-> & Hk & h & ->)]; [by left|right]. exists r. split; [left|].
    split; [done|]. split; [done|right]. split; [done|]. exists h. by rewrite Hk.
  - pose proof (owner_changes nowMs s (topicOf s (r_Topic r)) r k) as Hc.
    destruct (applyOwner _ _ _ r) as [[s1 ts1] [[ap1 re1] ac1]].
    injection E as <- <- <- <-. rewrite topicOf_insert, decide_True by done.
    destruct Hc as [->|(-> & <- & ->)]; [by left|right]. exists r. split; [left|].
    split_and!; [done..|by left].
Qed.
End store.

(** ** Handlers *)

(** The records a handler reports, in order. *)
Definition reported (out : list effect) : list Record_ :=
  omap (fun x => match x with Applied r => Some r | _ => None end) out.

Lemma elem_of_reported r out : r ∈ reported out <-> Applied r ∈ out.
Proof.
  unfold reported. rewrite list_elem_of_omap. split.
  - intros (x & Hx & E). destruct x; try done. by injection E as ->.
  - intros Hx. by exists (Applied r).
Qed.

Definition reports {A} (m : M A) : Prop :=
  forall e, accounted (store e) (reported (m e).1.2) (store (m e).1.1).

(** The store stays; the changes are accounted for by one record; it is reported. *)
Definition same_store (e e' : engine) : Prop := store e' = store e.
Definition changed_by (r : Record_) (e e' : engine) : Prop := accounted (store e) [r] (store e').
Definition emits {A} (r : Record_) (m : M A) : Prop := forall e, Applied r ∈ (m e).1.2.

#[export] Instance same_store_preorder : PreOrder same_store.
Proof. split; [done|]. unfold same_store. intros e1 e2 e3. congruence. Qed.

#[export] Instance changed_by_preorder r : PreOrder (changed_by r).
Proof.
  split; [intros e; apply accounted_refl|]. intros e1 e2 e3 H1 H2.
  eapply accounted_mono; [|by eapply accounted_trans]. intros x. set_solver.
Qed.

Lemma reports_quiet {A} (m : M A) : follows same_store m -> reports m.
Proof. intros Hm e. apply accounted_same. intros t k. by rewrite (Hm e). Qed.

Lemma reports_bind {A B} (m : M A) (k : A -> M B) :
  reports m -> (forall a, reports (k a)) -> reports (m ≫= k).
Proof.
  intros Hm Hk e. unfold mbind, M_bind. specialize (Hm e). destruct (m e) as [[e1 o1] a].
  specialize (Hk a e1). destruct (k a e1) as [[e2 o2] b]. unfold reported in *. cbn [fst snd] in *. rewrite omap_app.
  by eapply accounted_trans.
Qed.

Lemma reports_forEach {A} (l : list A) body : (forall x, reports (body x)) -> reports (forEach l body).
Proof.
  intros Hb. induction l as [|x l IH]; simpl; [apply reports_quiet, follows_skip; apply _|].
  by apply reports_bind.
Qed.

Lemma emits_bind_l {A B} r (m : M A) (k : A -> M B) : emits r m -> emits r (m ≫= k).
Proof.
  intros Hm e. unfold mbind, M_bind. specialize (Hm e). destruct (m e) as [[e1 o1] a].
  destruct (k a e1) as [[e2 o2] b]. apply elem_of_app. by left.
Qed.

Lemma emits_bind_r {A B} r (m : M A) (k : A -> M B) : (forall a, emits r (k a)) -> emits r (m ≫= k).
Proof.
  intros Hk e. unfold mbind, M_bind. destruct (m e) as [[e1 o1] a]. specialize (Hk a e1).
  destruct (k a e1) as [[e2 o2] b]. apply elem_of_app. by right.
Qed.

Lemma emits_emit r : emits r (emit (Applied r)).
Proof. intros e. left. Qed.

(** A call that may change the store, with a result that tells whether it did. *)
Definition delivers {A} (r : Record_) (flag : A -> bool) (m : M A) : Prop :=
  forall e, accounted (store e) (if flag (m e).2 then [r] else []) (store (m e).1.1).

Lemma reports_deliver {A B} r (flag : A -> bool) (m : M A) (k : A -> M B) :
  delivers r flag m -> (forall a, follows same_store (k a)) ->
  (forall a, flag a = true -> emits r (k a)) -> reports (m ≫= k).
Proof.
  intros Hm Hq He e. unfold mbind, M_bind. specialize (Hm e). destruct (m e) as [[e1 o1] a].
  specialize (Hq a e1). specialize (He a). cbn [fst snd] in *.
  destruct (k a e1) as [[e2 o2] b] eqn:Ek. cbn [fst snd] in *. rewrite Hq.
  eapply accounted_mono; [|exact Hm]. intros x Hx. apply elem_of_reported, elem_of_app.
  destruct (flag a); [|by apply elem_of_nil in Hx]. apply list_elem_of_singleton in Hx as ->.
  right. specialize (He eq_refl e1). by rewrite Ek in He.
Qed.

Lemma reports_owing {A B} r (m : M A) (k : A -> M B) :
  follows (changed_by r) m -> (forall a, follows same_store (k a)) -> (forall a, emits r (k a)) ->
  reports (m ≫= k).
Proof.
  intros Hm Hq He. apply (reports_deliver r (fun _ => true)); [exact Hm|done|].
  intros a _. apply He.
Qed.

Section handlers.
Context `{Sha256} `{Ed25519} `{Proto} `{MapOrder}.

Lemma applyExt_delivers c r : delivers r (fun res => res.1.1) (applyExt c r).
Proof.
  intros e. unfold applyExt. pose proof (ApplyExt_accounted (c_nowMs c) (store e) r) as Ha.
  by destruct (ApplyExt (c_nowMs c) (store e) r) as [s [[ap re] ac]].
Qed.

Lemma apply_delivers c r : delivers r fst (apply c r).
Proof.
  intros e. unfold apply, mbind, M_bind. pose proof (applyExt_delivers c r e) as Ha.
  by destruct (applyExt c r e) as [[e1 o1] [[ap re] ac]].
Qed.

Lemma applyExt_changed_by c r : follows (changed_by r) (applyExt c r).
Proof.
  intros e. pose proof (applyExt_delivers c r e) as Ha. eapply accounted_mono; [|exact Ha].
  case_match; [done|]. by intros x ?%elem_of_nil.
Qed.

Ltac quiet := follow; try (apply follows_modify; done); try (by intros ?).

Lemma setTreeEdge_quiet id b : follows same_store (setTreeEdge id b).
Proof. unfold setTreeEdge. quiet. Qed.

Lemma promote_quiet from : follows same_store (promoteTreeEdgeBounded from).
Proof. unfold promoteTreeEdgeBounded, setTreeEdge. quiet. Qed.

Lemma bestTreeEdges_quiet : follows same_store bestTreeEdges.
Proof. unfold bestTreeEdges, setTreeEdge. quiet. Qed.

Lemma enqueueLazy_quiet c p entry a : follows same_store (enqueueLazy c p entry a).
Proof. intros e. unfold enqueueLazy. by destruct (EnqueueLazy _ _ _ _ _). Qed.

Lemma consumeTokens_quiet c p cost : follows same_store (consumeTokens c p cost).
Proof. intros e. unfold consumeTokens. by destruct (ConsumeTokens _ _ _ _). Qed.

Lemma lazyPush_quiet c r : follows same_store (lazyPushToNonTreeEdges c r).
Proof.
  unfold lazyPushToNonTreeEdges, lazyPushTo.
  quiet; auto using enqueueLazy_quiet, consumeTokens_quiet.
Qed.

Lemma eagerPush_quiet r : follows same_store (eagerPushToTreeEdges r).
Proof. unfold eagerPushToTreeEdges. quiet; apply bestTreeEdges_quiet. Qed.

Lemma Broadcast_quiet c r : follows same_store (Broadcast c r).
Proof. unfold Broadcast. quiet; auto using eagerPush_quiet, lazyPush_quiet. Qed.

Lemma gateAdmit_quiet c r : follows same_store (gateAdmit c r).
Proof. intros e. unfold gateAdmit. by destruct (Admit _ _ _). Qed.

Lemma observe_quiet c h : follows same_store (observe c h).
Proof. unfold observe. quiet. Qed.

Lemma sendProbe_quiet to topic a b : follows same_store (sendProbe to topic a b).
Proof. unfold sendProbe. quiet. Qed.

Lemma plumPublish_changed_by c r : follows (changed_by r) (plumPublish c r).
Proof.
  assert (Hq : forall A (m : M A), follows same_store m -> follows (changed_by r) m).
  { intros A m Hm e. apply accounted_same. intros t k. by rewrite (Hm e). }
  unfold plumPublish, apply. follow; auto using applyExt_changed_by, eagerPush_quiet, lazyPush_quiet.
Qed.

Lemma handleEager_reports c from record ttl : reports (handleEager c from record ttl).
Proof.
  unfold handleEager. destruct record as [p|]; [|apply reports_quiet; quiet].
  destruct (negb _); [apply reports_quiet; quiet|].
  apply reports_bind; [apply reports_quiet, gateAdmit_quiet|]. intros admitted.
  destruct (negb admitted); [apply reports_quiet; quiet|].
  apply reports_bind; [apply reports_quiet, observe_quiet|]. intros _.
  apply (reports_deliver (recordFromProto p) (fun res => res.1.1)); [apply applyExt_delivers|..].
  - intros [[ap re] ac]. unfold eagerForward, sendPrune.
    quiet; auto using bestTreeEdges_quiet, promote_quiet, lazyPush_quiet.
  - intros [[ap re] ac]. cbn. intros ->. cbn.
    do 2 (apply emits_bind_r; intros _). apply emits_bind_l, emits_emit.
Qed.

Lemma applyAndReport_reports c r : reports (applyAndReport c r).
Proof.
  unfold applyAndReport. apply (reports_deliver r fst); [apply apply_delivers|..].
  - intros [ap re]. quiet.
  - intros [ap re]. cbn. intros ->. apply emits_emit.
Qed.

Lemma handleRangeRecord_reports c pr : reports (handleRangeRecord c pr).
Proof.
  unfold handleRangeRecord. destruct (negb _); [apply reports_quiet; quiet|].
  apply reports_bind; [apply reports_quiet, gateAdmit_quiet|]. intros admitted.
  destruct (negb admitted); [apply reports_quiet; quiet|].
  apply reports_bind; [apply reports_quiet, observe_quiet|]. intros _.
  apply applyAndReport_reports.
Qed.

Lemma ReceiveFrame_reports c from raw : reports (ReceiveFrame c from raw).
Proof.
  unfold ReceiveFrame. destruct (decodeFrame raw) as [[]|]; try (apply reports_quiet; quiet; fail).
  - apply handleEager_reports.
  - apply reports_quiet. unfold handleIHave. quiet. intros e. unfold same_store. cbn. by repeat case_match.
  - apply reports_quiet. unfold handleGraft. quiet. apply promote_quiet.
  - apply reports_quiet. unfold HandleProbe, reciprocalProbe, sendRange.
    quiet; apply sendProbe_quiet.
  - unfold HandleRange. apply reports_bind; [apply reports_forEach, handleRangeRecord_reports|].
    intros _. apply reports_quiet. quiet. apply sendProbe_quiet.
Qed.

Lemma Tick_quiet c now : follows same_store (Tick c now).
Proof.
  unfold Tick, processGrafts, processGraft, merkleTick, tickTopic. quiet; apply sendProbe_quiet.
Qed.

Lemma newRecord_quiet c n topic node key body tomb observer at_ :
  follows same_store (newRecord c n topic node key body tomb observer at_).
Proof.
  intros e. destruct (newRecord_run c n topic node key body tomb observer at_ e) as (h & x & ->). done.
Qed.

Lemma retire_reports c n r : reports (retire c n r).
Proof.
  unfold retire. apply reports_bind; [apply reports_quiet, newRecord_quiet|]. intros tomb.
  apply reports_bind; [apply applyAndReport_reports|]. intros _.
  apply reports_quiet. destruct (wired n); [apply Broadcast_quiet|quiet].
Qed.

(** ** Actions *)

Definition accounts (n : nodeImpl) (res : nodeImpl * list effect) : Prop :=
  accounted (store (n_engine n)) (reported res.2) (store (n_engine res.1)).

Lemma onEngine_accounts {A} n n' (m : M A) :
  n_engine n' = n_engine n -> reports m -> accounts n (onEngine n' m).1.
Proof.
  intros He Hm. unfold onEngine, accounts. rewrite He. specialize (Hm (n_engine n)).
  by destruct (m (n_engine n)) as [[e out] a].
Qed.

Lemma accounts_same n n' out : store (n_engine n') = store (n_engine n) -> accounts n (n', out).
Proof. intros E. apply accounted_same. intros t k. cbn. by rewrite E. Qed.

Lemma newRecord_on c n topic node key body tomb observer at_ :
  let n1 := (onEngine n (newRecord c n topic node key body tomb observer at_)).1.1 in
  store (n_engine n1) = store (n_engine n) /\ wired n1 = wired n.
Proof.
  unfold onEngine.
  destruct (newRecord_run c n topic node key body tomb observer at_ (n_engine n)) as (h & x & ->).
  done.
Qed.

Lemma accounts_from n n1 res :
  store (n_engine n1) = store (n_engine n) -> accounts n1 res -> accounts n res.
Proof. unfold accounts. by intros ->. Qed.

Lemma publishOwn_accounts c n topic key body tomb :
  accounts n (publishOwn c n topic key body tomb).1.
Proof.
  unfold publishOwn. pose proof (newRecord_on c n topic (NodeID_ (n_cfg n)) key body tomb "" 0) as Hn.
  destruct (onEngine n _) as [[n1 o1] r]. destruct Hn as [Hn _]. cbn [fst] in Hn.
  destruct (negb (wired n)); [by apply accounts_same|].
  apply (accounts_from n n1); [done|].
  pose proof (onEngine_accounts n1 n1 (plumPublish c r ;; emit (Applied r)) eq_refl) as Ha.
  destruct (onEngine n1 _) as [[n2 o2] u]. apply Ha.
  apply (reports_owing r); [apply plumPublish_changed_by|..]; intros _; [quiet|apply emits_emit].
Qed.

Lemma observer_accounts c n topic target :
  accounts n (PublishObserverTombstone c n topic target).1.
Proof.
  unfold PublishObserverTombstone. destruct (stopped n); [by apply accounts_same|].
  destruct (_ || _)%bool; [by apply accounts_same|].
  pose proof (newRecord_on c n topic target "" [] true (NodeID_ (n_cfg n)) (c_nowMs c)) as Hn.
  destruct (onEngine n _) as [[n1 o1] r]. destruct Hn as [Hn _]. cbn [fst] in Hn.
  pose proof (onEngine_accounts n1 n1 _ eq_refl (applyAndReport_reports c r)) as Ha.
  destruct (onEngine n1 (applyAndReport c r)) as [[n2 o2] u]. cbn [fst] in Ha.
  apply (accounts_from n n1); [done|]. destruct (negb (wired n)); [done|].
  pose proof (onEngine_accounts n2 n2 (Broadcast c r) eq_refl (reports_quiet _ (Broadcast_quiet c r))) as Hb.
  destruct (onEngine n2 _) as [[n3 o3] v]. unfold accounts, reported in *. cbn [fst snd] in *.
  rewrite omap_app. by eapply accounted_trans.
Qed.

Lemma tenant_accounts c n tenant : accounts n (SetTenant c n tenant).1.
Proof.
  unfold SetTenant. destruct (String.eqb _ _); [by apply accounts_same|].
  set (n1 := mkNode _ _ _ _ _ _ _ tenant). set (m := forEach _ _).
  pose proof (onEngine_accounts n n1 m eq_refl) as Ha.
  destruct (onEngine n1 m) as [[n2 o2] u]. apply Ha. apply reports_forEach. intros r.
  apply retire_reports.
Qed.

(** Every action but a tick. *)
Lemma perform_accounts a n :
  match a with DoTick _ _ _ => True | _ => accounts n (perform a n) end.
Proof.
  destruct a; cbn [perform]; try done; try (by apply accounts_same).
  - unfold OnReceive. destruct (stopped n); [by apply accounts_same|].
    apply onEngine_accounts; [done|apply ReceiveFrame_reports].
  - unfold PublishKeyed. repeat (case_match; [by apply accounts_same|]). apply publishOwn_accounts.
  - unfold PublishKeyedTombstone. repeat (case_match; [by apply accounts_same|]).
    apply publishOwn_accounts.
  - apply observer_accounts.
  - apply tenant_accounts.
  - unfold ProbePeer. case_match; [by apply accounts_same|]. apply onEngine_accounts; [done|].
    apply reports_quiet. unfold merkleProbePeer. quiet. apply sendProbe_quiet.
  - unfold setPaused. case_match; apply accounts_same; [done|]. cbn. by destruct (wired n).
  - unfold Start. apply accounts_same. by repeat case_match.
Qed.

Lemma nodeTick_store c n t : store (n_engine (nodeTick c n t).1) = store (n_engine n).
Proof.
  unfold nodeTick. destruct (negb _); [done|]. unfold onEngine. pose proof (Tick_quiet c t (n_engine n)) as Hq.
  destruct (Tick c t (n_engine n)) as [[e out] u]. apply Hq.
Qed.

Lemma tick_expires c n lastReap now t k :
  let n' := (tickLoopStep c n lastReap now).1.1 in
  slot (store (n_engine n')) t k = slot (store (n_engine n)) t k \/
  (slot (store (n_engine n')) t k = None /\
   exists ttl r, TopicTTL (n_cfg n) = Some ttl /\ 0 < ttl t /\
     slot (store (n_engine n)) t k = Some r /\
     expired (now / 1000000) (Milliseconds (ttl t)) r = true).
Proof.
  unfold tickLoopStep. pose proof (nodeTick_store c n now) as Es. pose proof (nodeTick_cfg c n now) as Ec.
  destruct (nodeTick c n now) as [n1 out]. cbn [fst] in *. rewrite Ec, <- Es.
  destruct (TopicTTL (n_cfg n)) as [ttl|] eqn:Ettl; [|by left].
  destruct (match lastReap with None => true | Some l => timeSub now l >=? 30 * Second end);
    [|by left].
  cbn [fst n_engine set_engine store set_store].
  rewrite !slot_topicOf, reap_topicOf, kept_records.
  destruct (records (topicOf (store (n_engine n1)) t) !! k) as [r|]; [|by left].
  destruct ((0 <? ttl t) && _) eqn:E; [|by left]. bool_to_prop. right. split; [done|].
  by exists ttl, r.
Qed.
End handlers.

(** C9: no silent change. Whatever a node does and whatever reaches it, if the content of
    a slot of its store is different afterwards, then in that call the node has reported a
    record that accounts for it, which is what its accepted-change stream and its
    subscribers are told: the record that is now in the slot, or the attestation that
    completed the quorum whose tombstone is. The one exception is a record that has outlived
    the TTL of its topic, which the sweep of the tick loop removes. *)
Theorem no_silent_change `{Sha256} `{Ed25519} `{Proto} `{MapOrder} (a : action) (n : nodeImpl)
    (t : Topic) (k : recordKey) :
  let before := slot (store (n_engine n)) t k in
  let after := slot (store (n_engine (perform a n).1)) t k in
  after <> before ->
  (exists r, Applied r ∈ (perform a n).2 /\ explains r t k after) \/
  (after = None /\
   exists c lastReap now ttl r, a = DoTick c lastReap now /\ TopicTTL (n_cfg n) = Some ttl /\
     0 < ttl t /\ before = Some r /\ expired (now / 1000000) (Milliseconds (ttl t)) r = true).
Proof.
  cbv zeta. intros Hne. pose proof (perform_accounts a n) as Ha.
  destruct a as [|c l now| | | | | | | | | | |].
  2: { clear Ha. pose proof (tick_expires c n l now t k) as He. cbn [perform] in *.
       destruct (tickLoopStep c n l now) as [[n' l'] out]. cbn [fst snd] in *.
       destruct He as [?|(Hnone & ttl & r & He)]; [done|]. right. split; [done|].
       by exists c, l, now, ttl, r. }
  all: destruct (Ha t k) as [?|(r & Hr & He)]; [done|]; left; exists r;
    (split; [by apply elem_of_reported|done]).
Qed.

(** The attestation that completes a quorum: the tombstone is reported through it. *)
Lemma no_silent_change_witness :
  let _ := std_order in let _ := ToyProto.codec in
  let _ := ToySha256.hash in let _ := ToyEd25519.scheme in
  let n := (OnReceive (at_ms 1000) (sample_node 1 [id_of 2]) (id_of 2)
              (eager (own_record 3 5 "" "up") 8)).1 in
  let n := (OnReceive (at_ms 2000) n (id_of 2) (eager (attest 4 3 7 1500) 8)).1 in
  let a := DoReceive (at_ms 2001) (id_of 2) (eager (attest 5 3 8 2500) 8) in
  let after := slot (store (n_engine (perform a n).1)) "fleet" (mkKey (id_of 3) "") in
  r_Tombstone <$> slot (store (n_engine n)) "fleet" (mkKey (id_of 3) "") = Some false /\
  (r_Tombstone <$> after) = Some true /\
  exists r, Applied r ∈ (perform a n).2 /\ explains r "fleet" (mkKey (id_of 3) "") after.
Proof.
  intros o1 o2 o3 o4 n0 n a after.
  assert (Hb : (r_Tombstone <$> slot (store (n_engine n)) "fleet" (mkKey (id_of 3) "")) = Some false)
    by (vm_compute; reflexivity).
  assert (Ha : (r_Tombstone <$> after) = Some true) by (vm_compute; reflexivity).
  split; [exact Hb|]. split; [exact Ha|].
  destruct (@no_silent_change o3 o4 o2 o1 a n "fleet" (mkKey (id_of 3) "")) as [Hr|(Hnone & _)].
  - intros E. fold after in E. rewrite <- E in Hb. rewrite Ha in Hb. discriminate Hb.
  - exact Hr.
  - exfalso. fold after in Hnone. rewrite Hnone in Ha. discriminate Ha.
Defined.
