(* ===== verification/Watch.v ===== *)
(** * Role and tenant watchers (src/node.go: SetRole, SetTenant, OnRoleChange, OnTenantChange)

    A value that is swapped atomically, and the callbacks that are told of its changes under
    a mutex that the swap does not take. A step is what one goroutine does between two
    synchronisation points, so any number of calls may overlap. *)
From S2P Require Import Prelude.
From stdpp Require Import relations.

Section watch.
Context {V : Type} `{EqDecision V}.

(** A registration of a callback, numbered. *)
Abbreviation callback := nat.

(** [w_current] is [n.role] or [n.tenant]; [w_watchers] is [n.onRoleChange] or
    [n.onTenantChange]; [w_swapped] the changes whose goroutine has not yet got the mutex;
    [w_turn] the change of the goroutine that holds it, with the callbacks it has still to
    call; [w_told] every call, in order. [w_changes] is a history that no code keeps. *)
Record watched := mkWatched {
  w_current : V;
  w_watchers : list callback;
  w_swapped : list (V * V);
  w_turn : option ((V * V) * list callback);
  w_told : list (callback * (V * V));
  w_changes : list (V * V)
}.

Inductive step (s : watched) : watched -> Prop :=
  (* Swap; the call returns when the value is the old one *)
  | step_swap_same :
      step s s
  | step_swap v :
      v <> w_current s ->
      step s (mkWatched v (w_watchers s) (w_swapped s ++ [(w_current s, v)]) (w_turn s)
                (w_told s) (w_changes s ++ [(w_current s, v)]))
  (* Lock; the loop ranges over the callbacks registered by now *)
  | step_lock l1 c l2 :
      w_turn s = None -> w_swapped s = l1 ++ c :: l2 ->
      step s (mkWatched (w_current s) (w_watchers s) (l1 ++ l2) (Some (c, w_watchers s))
                (w_told s) (w_changes s))
  | step_call c f todo :
      w_turn s = Some (c, f :: todo) ->
      step s (mkWatched (w_current s) (w_watchers s) (w_swapped s) (Some (c, todo))
                (w_told s ++ [(f, c)]) (w_changes s))
  | step_unlock c :
      w_turn s = Some (c, []) ->
      step s (mkWatched (w_current s) (w_watchers s) (w_swapped s) None (w_told s) (w_changes s))
  (* OnRoleChange, OnTenantChange *)
  | step_register f :
      w_turn s = None -> f ∉ w_watchers s ->
      step s (mkWatched (w_current s) (w_watchers s ++ [f]) (w_swapped s) None (w_told s)
                (w_changes s)).

(** No call is under way. *)
Definition idle (s : watched) : Prop := w_swapped s = [] /\ w_turn s = None.

(** A call that nothing overlaps. *)
Definition setValue (s : watched) (v : V) : watched :=
  if decide (w_current s = v) then s else
  let c := (w_current s, v) in
  mkWatched v (w_watchers s) (w_swapped s) (w_turn s)
    (w_told s ++ ((fun f => (f, c)) <$> w_watchers s)) (w_changes s ++ [c]).

(** What a callback has been called with, in order. *)
Definition calls (f : callback) (s : watched) : list (V * V) :=
  omap (fun x => if decide (x.1 = f) then Some x.2 else None) (w_told s).

(** Changes that lead from one value to another without a gap. *)
Fixpoint path (v : V) (l : list (V * V)) (w : V) : Prop :=
  match l with
  | [] => v = w
  | c :: l => c.1 = v /\ c.1 <> c.2 /\ path c.2 l w
  end.

(** The changes a callback has not been told of yet. *)
Definition owed (f : callback) (s : watched) : list (V * V) :=
  match w_turn s with
  | Some (c, todo) => if decide (f ∈ todo) then [c] else []
  | None => []
  end ++ w_swapped s.

Lemma idle_owed f s : idle s -> owed f s = [].
Proof. intros [E1 E2]. unfold owed. by rewrite E1, E2. Qed.

Lemma path_snoc v l w c : path v l w -> c.1 = w -> c.1 <> c.2 -> path v (l ++ [c]) c.2.
Proof. revert v. induction l as [|x l IH]; intros v; cbn; naive_solver. Qed.

(** What a run keeps, for a callback registered before it started. *)
Record watching (f : callback) (s0 s : watched) (cs ds : list (V * V)) : Prop := {
  wg_nodup : NoDup (w_watchers s);
  wg_in : f ∈ w_watchers s;
  wg_todo : forall c todo, w_turn s = Some (c, todo) -> NoDup todo;
  wg_changes : w_changes s = w_changes s0 ++ cs;
  wg_calls : calls f s = calls f s0 ++ ds;
  wg_path : path (w_current s0) cs (w_current s);
  wg_owed : ds ++ owed f s ≡ₚ cs
}.

Lemma calls_snoc f g c s told' :
  w_told s = told' ++ [(g, c)] ->
  calls f s = omap (fun x => if decide (x.1 = f) then Some x.2 else None) told' ++
              (if decide (g = f) then [c] else []).
Proof. intros E. unfold calls. rewrite E, omap_app. cbn. by destruct (decide (g = f)). Qed.

Lemma watching_step f s0 s s' cs ds :
  watching f s0 s cs ds -> step s s' -> exists cs' ds', watching f s0 s' cs' ds'.
Proof.
  intros [Hnd Hin Htodo Hch Hcalls Hpath Howed] Hs.
  destruct Hs as [|v Hv|l1 c l2 Ht Hsw|c g todo Ht|c Ht|g Ht Hg].
  - by exists cs, ds.
  - exists (cs ++ [(w_current s, v)]), ds. split; try done.
    + cbn. by rewrite Hch, (assoc_L (++)).
    + apply (path_snoc _ _ _ (w_current s, v)) in Hpath; naive_solver.
    + unfold owed in *. cbn. by rewrite (assoc_L (++)), (assoc_L (++)), <- Howed, !(assoc_L (++)).
  - exists cs, ds. split; try done.
    + cbn. by intros c' todo [= <- <-].
    + rewrite <- Howed. unfold owed. cbn. rewrite Ht, Hsw, decide_True by done. cbn.
      by rewrite Permutation_middle.
  - pose proof (Htodo _ _ Ht) as [Hg Hnd']%NoDup_cons.
    exists cs, (ds ++ (if decide (g = f) then [c] else [])). split; try done.
    + cbn. by intros c' todo' [= <- <-].
    + rewrite (calls_snoc f g c _ (w_told s)) by done. fold (calls f s).
      by rewrite Hcalls, (assoc_L (++)).
    + rewrite <- Howed. unfold owed. cbn. rewrite Ht. destruct (decide (g = f)) as [->|Hne].
      * rewrite (decide_False (P := f ∈ todo)) by done. rewrite decide_True by left.
        cbn. by rewrite <- (assoc_L (++)).
      * rewrite app_nil_r. destruct (decide (f ∈ todo)) as [Hf|Hf].
        { by rewrite decide_True by (by right). }
        rewrite decide_False; [done|]. intros [->|?]%elem_of_cons; done.
  - exists cs, ds. split; try done. rewrite <- Howed. unfold owed. cbn. rewrite Ht.
    by rewrite decide_False by (by intros ?%elem_of_nil).
  - exists cs, ds. split; try done.
    + cbn. apply NoDup_app. split_and!; [done| |apply NoDup_singleton].
      intros x Hx ->%list_elem_of_singleton. done.
    + cbn. apply elem_of_app. by left.
    + rewrite <- Howed. unfold owed. cbn. by rewrite Ht.
Qed.

Lemma watching_run f s0 s :
  idle s0 -> NoDup (w_watchers s0) -> f ∈ w_watchers s0 -> rtc step s0 s ->
  exists cs ds, watching f s0 s cs ds.
Proof.
  intros Hi Hnd Hin. apply (rtc_ind_r (fun s => exists cs ds, watching f s0 s cs ds)).
  - exists [], []. split; rewrite ?app_nil_r; try done.
    + destruct Hi as [_ ->]. done.
    + by rewrite (idle_owed f s0 Hi).
  - intros s1 s2 _ Hs (cs & ds & Hw). by eapply watching_step.
Qed.

(** ** Calls that do not overlap *)

Lemma told_once f (c : V * V) l :
  f ∈ l -> NoDup l ->
  omap (fun x : callback * (V * V) => if decide (x.1 = f) then Some x.2 else None)
    ((fun g => (g, c)) <$> l) = [c].
Proof.
  intros Hin Hnd. induction Hnd as [|g l Hg Hnd IH]; [by apply elem_of_nil in Hin|].
  cbn. destruct (decide (g = f)) as [->|Hne].
  - f_equal. clear IH Hin. induction l as [|x l IH]; [done|]. cbn.
    apply not_elem_of_cons in Hg as [Hx Hl]. rewrite decide_False by done. apply IH; [done|].
    by apply NoDup_cons in Hnd as [].
  - apply elem_of_cons in Hin as [->|Hin]; [done|]. by apply IH.
Qed.

Lemma step_tell c todo s :
  w_turn s = Some (c, todo) ->
  rtc step s (mkWatched (w_current s) (w_watchers s) (w_swapped s) (Some (c, []))
                (w_told s ++ ((fun f => (f, c)) <$> todo)) (w_changes s)).
Proof.
  revert s. induction todo as [|f todo IH]; intros s Ht.
  - cbn. rewrite app_nil_r, <- Ht. by destruct s.
  - eapply rtc_l; [by apply step_call|]. etrans; [apply IH; done|].
    cbn. by rewrite <- (assoc_L (++)).
Qed.

Lemma setValue_run s v : idle s -> rtc step s (setValue s v).
Proof.
  intros [Hsw Ht]. unfold setValue. destruct (decide (w_current s = v)) as [|Hne]; [done|].
  eapply rtc_l; [by apply (step_swap s v)|].
  eapply rtc_l; [by apply (step_lock _ [] (w_current s, v) []); cbn; rewrite ?Hsw|].
  etrans; [by apply step_tell|]. apply rtc_once.
  set (s' := mkWatched _ _ _ (Some _) _ _).
  pose proof (step_unlock s' (w_current s, v) eq_refl) as Hu. cbn in *. by rewrite Hsw, Ht.
Qed.

Lemma setValue_idle s v : idle s -> idle (setValue s v).
Proof. intros Hi. unfold setValue. by destruct (decide (w_current s = v)). Qed.

Lemma setValue_spec f s v :
  f ∈ w_watchers s -> NoDup (w_watchers s) ->
  exists cs, calls f (setValue s v) = calls f s ++ cs /\ w_watchers (setValue s v) = w_watchers s /\
    path (w_current s) cs v /\ w_current (setValue s v) = v.
Proof.
  intros Hin Hnd. unfold setValue. destruct (decide (w_current s = v)) as [->|Hne].
  - exists []. by rewrite app_nil_r.
  - exists [(w_current s, v)]. split_and!; try done. unfold calls. cbn [w_told].
    by rewrite omap_app, told_once.
Qed.

Lemma path_app v l1 w l2 x : path v l1 w -> path w l2 x -> path v (l1 ++ l2) x.
Proof. revert v. induction l1 as [|c l1 IH]; intros v; cbn; naive_solver. Qed.

Lemma setValues_spec f s vs :
  f ∈ w_watchers s -> NoDup (w_watchers s) ->
  exists cs, calls f (foldl setValue s vs) = calls f s ++ cs /\
    path (w_current s) cs (w_current (foldl setValue s vs)).
Proof.
  revert s. induction vs as [|v vs IH]; intros s Hin Hnd; cbn [foldl].
  - exists []. by rewrite app_nil_r.
  - destruct (setValue_spec f s v Hin Hnd) as (cs & Hc & Hw & Hp & Hv).
    destruct (IH (setValue s v)) as (cs' & Hc' & Hp'); [by rewrite Hw..|].
    exists (cs ++ cs'). rewrite Hc', Hc, (assoc_L (++)). split; [done|].
    rewrite Hv in Hp'. by eapply path_app.
Qed.
End watch.
Arguments watched : clear implicits.

(** C22: a role or tenant watcher is told of every change, each exactly once. Take a moment
    when no call is under way and a callback registered by then, and let any number of
    goroutines set values and register callbacks, in any interleaving. The changes form a
    path without a gap from the old value to the current one; the callback has been called
    with each of them once, up to the ones still owed to it, and none is owed once no call
    is under way. Calls that do not overlap are told in order, so the last one named the
    current value. Calls that overlap may be told out of order: the mutex is taken after
    the value has changed, and a watcher can end up having last heard of an older one. *)
Theorem watchers_told {V} `{EqDecision V} :
  (forall f (s0 s : watched V), idle s0 -> NoDup (w_watchers s0) -> f ∈ w_watchers s0 ->
     rtc step s0 s ->
     exists cs ds, path (w_current s0) cs (w_current s) /\ calls f s = calls f s0 ++ ds /\
       ds ++ owed f s ≡ₚ cs /\ (idle s -> ds ≡ₚ cs)) /\
  (forall f (s0 : watched V) vs, idle s0 -> NoDup (w_watchers s0) -> f ∈ w_watchers s0 ->
     let s := foldl setValue s0 vs in
     rtc step s0 s /\ w_current s = default (w_current s0) (last vs) /\
     exists cs, calls f s = calls f s0 ++ cs /\ path (w_current s0) cs (w_current s)) /\
  (forall a b c : V, a <> b -> b <> c ->
     exists s, rtc step (mkWatched a [0%nat] [] None [] []) s /\ idle s /\ w_current s = c /\
       calls 0 s = [(b, c); (a, b)]).
Proof.
  split; [|split].
  - intros f s0 s Hi Hnd Hin Hrun.
    destruct (watching_run f s0 s Hi Hnd Hin Hrun) as (cs & ds & [_ _ _ _ Hc Hp Ho]).
    exists cs, ds. split_and!; try done. intros Hid. by rewrite <- Ho, idle_owed, app_nil_r.
  - intros f s0 vs Hi Hnd Hin. cbv zeta. split_and!.
    + clear Hin Hnd. revert s0 Hi. induction vs as [|v vs IH]; intros s0 Hi; cbn [foldl]; [done|].
      etrans; [by apply setValue_run|]. by apply IH, setValue_idle.
    + clear. revert s0. induction vs as [|v vs IH]; intros s0; cbn [foldl]; [done|].
      rewrite IH. assert (Hv : w_current (setValue s0 v) = v)
        by (unfold setValue; by destruct (decide (w_current s0 = v))).
      rewrite Hv, last_cons. by destruct (last vs).
    + by apply setValues_spec.
  - intros a b c Hab Hbc.
    exists (mkWatched c [0%nat] [] None [(0%nat, (b, c)); (0%nat, (a, b))] [(a, b); (b, c)]).
    split; [|done].
    eapply rtc_l; [apply (step_swap _ b); cbn; congruence|].
    eapply rtc_l; [apply (step_swap _ c); cbn; congruence|]. cbn.
    eapply rtc_l; [apply (step_lock _ [(a, b)] (b, c) []); done|]. cbn.
    eapply rtc_l; [by apply step_call|]. eapply rtc_l; [by apply (step_unlock _ (b, c))|]. cbn.
    eapply rtc_l; [apply (step_lock _ [] (a, b) []); done|]. cbn.
    eapply rtc_l; [by apply step_call|]. eapply rtc_l; [by apply (step_unlock _ (a, b))|]. done.
Qed.
