(* ===== verification/Registry.v ===== *)
(** * Subscriptions of a node (src/node.go: subs, Subscribe, deliverToSubs)

    The map of subscribers by topic and handle, against its abstract specification: a list
    of subscriptions, each in force from the call of [Subscribe] until its closure is
    called. Every operation is one section under [subsMu], so a run of any number of
    goroutines is a sequence of them. *)
From S2P Require Import Prelude Types.

(** A subscriber's function, by a number. *)
Abbreviation subscriber := nat.

(** [n.subs] and [n.subSeq]. *)
Record registry := mkRegistry {
  subs : gmap Topic (gmap Z subscriber);
  subSeq : Z
}.

Definition newRegistry : registry := mkRegistry ∅ 0.

(** [func (n *nodeImpl) Subscribe(topic, sub)] up to the replay: a nil subscriber is
    refused; else the handle its closure keeps. *)
Definition Subscribe (g : registry) (topic : Topic) (sub : option subscriber)
    : registry * (Z + Err) :=
  match sub with
  | None => (g, inr ErrInvalidConfig)
  | Some f =>
      let id := u64 (subSeq g + 1) in
      (mkRegistry (<[topic := <[id := f]> (default ∅ (subs g !! topic))]> (subs g)) id, inl id)
  end.

(** The closure [Subscribe] returns. *)
Definition unsubscribe (topic : Topic) (id : Z) (g : registry) : registry :=
  match subs g !! topic with
  | Some m => mkRegistry (<[topic := delete id m]> (subs g)) (subSeq g)
  | None => g
  end.

(** The callbacks [deliverToSubs] copies under the lock, and then calls one after the
    other. *)
Definition recipients `{MapOrder} (g : registry) (topic : Topic) : list subscriber :=
  (map_order (default ∅ (subs g !! topic))).*2.

(** ** Runs *)

(** [Unsub i] calls the closure of the [i]-th subscription. *)
Inductive op := Sub (topic : Topic) (f : option subscriber) | Unsub (i : nat).

(** The registry with the closures returned so far, each its topic and handle. *)
Definition exec (s : registry * list (Topic * Z)) (o : op) : registry * list (Topic * Z) :=
  let '(g, closures) := s in
  match o with
  | Sub topic f =>
      match Subscribe g topic f with
      | (g', inl id) => (g', closures ++ [(topic, id)])
      | (g', inr _) => (g', closures)
      end
  | Unsub i =>
      match closures !! i with
      | Some (topic, id) => (unsubscribe topic id g, closures)
      | None => s
      end
  end.

(** The specification: the subscriptions in order, with whether they are in force. *)
Definition specExec (l : list (Topic * subscriber * bool)) (o : op)
    : list (Topic * subscriber * bool) :=
  match o with
  | Sub topic (Some f) => l ++ [(topic, f, true)]
  | Sub _ None => l
  | Unsub i => alter (fun x => (x.1, false)) i l
  end.

(** Who is to be told of a record on a topic. *)
Definition inForce (l : list (Topic * subscriber * bool)) (topic : Topic) : list subscriber :=
  omap (fun '(t, f, b) => if (b : bool) && bool_decide (t = topic) then Some f else None) l.

(** ** The refinement *)

(** Handle and function of the subscriptions in force on a topic. *)
Definition entries (topic : Topic) (l : list (Topic * subscriber * bool)) : list (Z * subscriber) :=
  omap (fun '(id, (t, f, b)) => if (b : bool) && bool_decide (t = topic) then Some (id, f) else None)
    (imap (fun i x => (Z.of_nat i + 1, x)) l).

Lemma entries_snoc topic l t f b :
  entries topic (l ++ [(t, f, b)]) =
  entries topic l ++ (if b && bool_decide (t = topic) then [(len l + 1, f)] else []).
Proof.
  unfold entries. rewrite imap_app, omap_app. f_equal. cbn. rewrite Nat.add_0_r.
  unfold len. by destruct (b && _).
Qed.

Lemma entries_snd topic l : (entries topic l).*2 = inForce l topic.
Proof.
  induction l as [|[[t f] b] l IH] using rev_ind; [done|].
  rewrite entries_snoc, fmap_app, IH. unfold inForce. rewrite omap_app. cbn. f_equal.
  by destruct (b && _).
Qed.

Lemma elem_of_entries topic l id f :
  (id, f) ∈ entries topic l <-> 1 <= id /\ l !! Z.to_nat (id - 1) = Some (topic, f, true).
Proof.
  unfold entries. rewrite list_elem_of_omap. split.
  - intros ([id' [[t f'] b]] & Hin & E). apply elem_of_lookup_imap in Hin as (i & x & [= -> <-] & Hi).
    destruct b; cbn in E; [|done]. case_bool_decide; [|done]. injection E as <- <-. subst.
    split; [lia|]. by replace (Z.to_nat (Z.of_nat i + 1 - 1)) with i by lia.
  - intros [Hid Hl]. exists (id, (topic, f, true)). split.
    + apply elem_of_lookup_imap. exists (Z.to_nat (id - 1)), (topic, f, true). split; [|done].
      f_equal. lia.
    + cbn. by rewrite bool_decide_eq_true_2.
Qed.

Lemma NoDup_inForce topic l : NoDup (entries topic l).*1.
Proof.
  induction l as [|[[t f] b] l IH] using rev_ind; [constructor|].
  rewrite entries_snoc, fmap_app. apply NoDup_app. split; [done|].
  destruct (b && _); cbn; (split; [|repeat constructor; apply not_elem_of_nil]);
    intros id Hid; [|apply not_elem_of_nil].
  intros ->%list_elem_of_singleton. apply list_elem_of_fmap in Hid as ([id' f'] & E & Hin). cbn in E.
  subst id'. apply elem_of_entries in Hin as [_ Hl]. apply lookup_lt_Some in Hl.
  unfold len in Hl. lia.
Qed.

Record tracks (g : registry) (closures : list (Topic * Z)) (l : list (Topic * subscriber * bool))
    : Prop := {
  tr_seq : subSeq g = len l;
  tr_closures : closures = imap (fun i x => (x.1.1, Z.of_nat i + 1)) l;
  tr_subs : forall t id f, default ∅ (subs g !! t) !! id = Some f <-> (id, f) ∈ entries t l
}.

Lemma tracks_init : tracks newRegistry [] [].
Proof. split; try done. intros t id f. cbn. split; [done|]. by intros ?%elem_of_nil. Qed.

Lemma tracks_Sub g closures l topic f :
  tracks g closures l -> len l + 1 < 2 ^ 64 ->
  tracks (Subscribe g topic (Some f)).1 (closures ++ [(topic, len l + 1)]) (l ++ [(topic, f, true)]).
Proof.
  intros [Hs Hc Ht] Hlt. cbn.
  assert (E : u64 (subSeq g + 1) = len l + 1) by (rewrite Hs; apply u64_small; unfold is_u64, len in *; lia).
  split; cbn.
  - rewrite E. unfold len. rewrite length_app. cbn. lia.
  - rewrite imap_app, <- Hc. cbn. by rewrite Nat.add_0_r.
  - intros t id f'. rewrite entries_snoc, elem_of_app, <- Ht, E. cbn.
    rewrite lookup_insert. case_decide as Hd.
    + subst t. rewrite bool_decide_eq_true_2 by done. cbn. rewrite lookup_insert, list_elem_of_singleton.
      case_decide as Hid.
      * subst id. split; [intros [= ->]; by right|]. intros [Hin|[= ->]]; [|done].
        apply Ht, elem_of_entries in Hin as [_ Hl]. apply lookup_lt_Some in Hl. unfold len in Hl. lia.
      * naive_solver.
    + rewrite bool_decide_eq_false_2 by done. cbn. split; [by left|].
      by intros [?|?%elem_of_nil].
Qed.

Lemma entries_alter t l i id f :
  (id, f) ∈ entries t (alter (fun x => (x.1, false)) i l) <->
  (id, f) ∈ entries t l /\ id <> Z.of_nat i + 1.
Proof.
  rewrite !elem_of_entries. destruct (decide (Z.to_nat (id - 1) = i)) as [<-|Hne].
  - rewrite list_lookup_alter_eq. split; [|naive_solver lia].
    intros [Hid Hl]. destruct (l !! _) as [[[t' f'] b]|]; done.
  - rewrite list_lookup_alter_ne by done. naive_solver lia.
Qed.

Lemma tracks_Unsub g closures l i :
  tracks g closures l ->
  tracks (exec (g, closures) (Unsub i)).1 closures (alter (fun x => (x.1, false)) i l).
Proof.
  intros [Hs Hc Ht]. cbn. rewrite Hc, list_lookup_imap.
  assert (Himap : imap (fun i x => (x.1.1, Z.of_nat i + 1)) (alter (fun x => (x.1, false)) i l) =
                  imap (fun i (x : Topic * subscriber * bool) => (x.1.1, Z.of_nat i + 1)) l).
  { apply list_eq. intros j. rewrite !list_lookup_imap. destruct (decide (i = j)) as [<-|].
    - rewrite list_lookup_alter_eq. by destruct (l !! i) as [[[??]?]|].
    - by rewrite list_lookup_alter_ne. }
  assert (Hlen : len (alter (fun x : Topic * subscriber * bool => (x.1, false)) i l) = len l)
    by (unfold len; by rewrite length_alter).
  destruct (l !! i) as [[[t f] b]|] eqn:El; cbn.
  - split.
    + unfold unsubscribe. rewrite Hlen. by destruct (subs g !! t).
    + done.
    + intros t' id f'. rewrite entries_alter, <- Ht. unfold unsubscribe.
      destruct (subs g !! t) as [m|] eqn:Em; cbn.
      * rewrite lookup_insert. case_decide as Hd; [subst t'|].
        -- rewrite Em. cbn. rewrite lookup_delete. case_decide; naive_solver.
        -- split; [|by intros []]. intros Hin. split; [done|]. intros ->.
           apply Ht, elem_of_entries in Hin as [_ Hl].
           replace (Z.to_nat (Z.of_nat i + 1 - 1)) with i in Hl by lia. congruence.
      * split; [|by intros []]. intros Hin. split; [done|]. intros ->.
        pose proof Hin as Hin'. apply Ht, elem_of_entries in Hin as [_ Hl].
        replace (Z.to_nat (Z.of_nat i + 1 - 1)) with i in Hl by lia.
        assert (t' = t) as -> by congruence. by rewrite Em in Hin'.
  - assert (alter (fun x : Topic * subscriber * bool => (x.1, false)) i l = l) as ->.
    { apply list_eq. intros j. destruct (decide (i = j)) as [<-|].
      - by rewrite list_lookup_alter_eq, El.
      - by rewrite list_lookup_alter_ne. }
    split; done.
Qed.

Lemma tracks_recipients `{MapOrder} g closures l t :
  tracks g closures l -> recipients g t ≡ₚ inForce l t.
Proof.
  intros [_ _ Ht]. unfold recipients. rewrite <- entries_snd. f_equiv. apply NoDup_Permutation.
  - apply (NoDup_fmap_1 fst), NoDup_map_order_fst.
  - apply (NoDup_fmap_1 fst), NoDup_inForce.
  - intros [id f]. by rewrite elem_of_map_order, Ht.
Qed.

Lemma closures_exec_unsub s i : (exec s (Unsub i)).2 = s.2.
Proof. destruct s as [g cl]. cbn. by destruct (cl !! i) as [[??]|]. Qed.

Lemma tracks_run ops g closures l :
  tracks g closures l -> len l + len ops < 2 ^ 64 ->
  let '(g', closures') := foldl exec (g, closures) ops in tracks g' closures' (foldl specExec l ops).
Proof.
  revert g closures l. induction ops as [|o ops IH]; intros g closures l Ht Hlt; [done|].
  assert (Hlen : len (o :: ops) = 1 + len ops) by (unfold len; cbn; lia). rewrite Hlen in Hlt.
  assert (Hpos : 0 <= len ops) by (unfold len; lia).
  destruct o as [topic [f|]|i]; cbn [foldl].
  - assert (E : exec (g, closures) (Sub topic (Some f)) =
      ((Subscribe g topic (Some f)).1, closures ++ [(topic, u64 (subSeq g + 1))])) by done.
    assert (Hid : u64 (subSeq g + 1) = len l + 1).
    { rewrite (tr_seq _ _ _ Ht). apply u64_small. unfold is_u64, len in *. lia. }
    rewrite E, Hid. apply IH; [apply tracks_Sub; [done|lia]|].
    cbn [specExec]. unfold len in *. rewrite length_app. cbn. lia.
  - apply IH; [done|cbn [specExec]; lia].
  - pose proof (tracks_Unsub g closures l i Ht) as Hu. pose proof (closures_exec_unsub (g, closures) i) as Hc.
    destruct (exec (g, closures) (Unsub i)) as [g1 c1]. cbn in Hc, Hu. subst c1.
    apply IH; [done|]. unfold len in *. cbn. rewrite length_alter. lia.
Qed.
