(* ===== verification/Hooks.v ===== *)
(** * The application's side of a node (src/node.go, src/testing.go)

    A node with what the application has registered with it: subscribers, role and tenant
    watchers, the pause and resume hooks and the accepted-change stream. An operation
    returns what the application and the transport see of it, in order. The callbacks are
    numbered; they run in the call here, and what they do is the application's. *)
From S2P Require Import Prelude Types Crypto Hlc Sig Crdt Gate Peer Codec Engine Merkle Node.
From S2P Require Import EngineLemmas NodeOutbound Reports Watch Registry Samples.
#[local] Open Scope Z_scope.

Inductive event :=
  | Wired (x : effect)
  | Accepted (r : Record_)
  | Told (f : subscriber) (r : Record_)
  | RoleChanged (f : nat) (prev next : Z)
  | TenantChanged (f : nat) (prev next : string)
  | Paused
  | Resumed.

(** [h_onAccepted], [h_onPaused] and [h_onResumed] tell whether the Config sets the hook. *)
Record hooked := mkHooked {
  h_node : nodeImpl;
  h_registry : registry;
  h_onRoleChange : list nat;
  h_onTenantChange : list nat;
  h_onAccepted : bool;
  h_onPaused : bool;
  h_onResumed : bool
}.

Definition set_node (h : hooked) (n : nodeImpl) : hooked :=
  mkHooked n (h_registry h) (h_onRoleChange h) (h_onTenantChange h) (h_onAccepted h)
    (h_onPaused h) (h_onResumed h).
Definition set_registry (h : hooked) (g : registry) : hooked :=
  mkHooked (h_node h) g (h_onRoleChange h) (h_onTenantChange h) (h_onAccepted h)
    (h_onPaused h) (h_onResumed h).

(** [func (n *nodeImpl) OnRoleChange], [OnTenantChange]. *)
Definition OnRoleChange (h : hooked) (f : nat) : hooked :=
  mkHooked (h_node h) (h_registry h) (h_onRoleChange h ++ [f]) (h_onTenantChange h)
    (h_onAccepted h) (h_onPaused h) (h_onResumed h).
Definition OnTenantChange (h : hooked) (f : nat) : hooked :=
  mkHooked (h_node h) (h_registry h) (h_onRoleChange h) (h_onTenantChange h ++ [f])
    (h_onAccepted h) (h_onPaused h) (h_onResumed h).

(** [SelfRole], [Role], [Tenant], [PerPeerConfig] and the reads, which delegate. *)
Definition SelfRole (h : hooked) : Z := n_role (h_node h).
Definition Role (h : hooked) : Z := n_role (h_node h).
Definition Tenant (h : hooked) : string := n_tenant (h_node h).
Definition nodePerPeerConfig (h : hooked) (peer : NodeID) : PerPeerConfig :=
  Snapshot (peers (n_engine (h_node h))) peer.

Definition nodeStore (h : hooked) : recordStore := store (n_engine (h_node h)).

Section hooks.
Context `{Sha256} `{Ed25519} `{Proto} `{MapOrder}.

Definition nodeGet (h : hooked) (topic : Topic) (node : NodeID) : option Record_ :=
  Get (nodeStore h) topic node.
Definition nodeGetKeyed (h : hooked) (topic : Topic) (node : NodeID) (key : string)
    : option Record_ := GetKeyed (nodeStore h) topic node key.
Definition nodeNodeRecords (h : hooked) (topic : Topic) (node : NodeID) : list Record_ :=
  NodeRecords (nodeStore h) topic node.
Definition nodeTopicRecords (h : hooked) (topic : Topic) : list Record_ :=
  TopicRecords (nodeStore h) topic.
Definition nodeTopics (h : hooked) : list Topic := Topics (nodeStore h).

(** [rawStoreView] of src/testing.go: reads that include tombstones. *)
Definition rawTopicRecords (h : hooked) (topic : Topic) : list Record_ :=
  topicRecordsAll (nodeStore h) topic.

(** [func (n *nodeImpl) deliverToSubs(r Record)]. *)
Definition deliverToSubs (h : hooked) (r : Record_) : list event :=
  (fun f => Told f r) <$> recipients (h_registry h) (r_Topic r).

(** [func (n *nodeImpl) recordAccepted(r Record)]; the clone is equal as a value. *)
Definition recordAccepted (h : hooked) (r : Record_) : list event :=
  (if h_onAccepted h then [Accepted r] else []) ++ deliverToSubs h r.

(** The effects of the node, with the calls of [recordAccepted] carried out. *)
Definition report (h : hooked) (out : list effect) : list event :=
  mjoin ((fun x => match x with Applied r => recordAccepted h r | _ => [Wired x] end) <$> out).

(** [func (n *nodeImpl) SetRole(role Role) error]. *)
Definition hookedSetRole (h : hooked) (role : Z) : hooked * list event :=
  let prev := n_role (h_node h) in
  let h' := set_node h (SetRole (h_node h) role).1 in
  if prev =? role then (h', [])
  else (h', (fun f => RoleChanged f prev role) <$> h_onRoleChange h).

(** [func (n *nodeImpl) SetTenant(tenantID string) error]. *)
Definition hookedSetTenant (c : clock) (h : hooked) (tenant : string) : hooked * list event :=
  let prev := n_tenant (h_node h) in
  let '(n, out, _) := SetTenant c (h_node h) tenant in
  if String.eqb prev tenant then (set_node h n, [])
  else (set_node h n,
        report h out ++ ((fun f => TenantChanged f prev tenant) <$> h_onTenantChange h)).

(** [Pause], [Resume]. *)
Definition hookedSetPaused (h : hooked) (b : bool) : hooked * list event :=
  let h' := set_node h (setPaused (h_node h) b).1 in
  if Bool.eqb (n_paused (h_node h)) b then (h', []) else
  (h', if b then (if h_onPaused h then [Paused] else [])
       else (if h_onResumed h then [Resumed] else [])).

(** Any call of the public API, of the transport or of the tick loop. *)
Definition hookedPerform (a : action) (h : hooked) : hooked * list event :=
  match a with
  | DoRole role => hookedSetRole h role
  | DoTenant c tenant => hookedSetTenant c h tenant
  | DoPause b => hookedSetPaused h b
  | _ => let '(n, out) := perform a (h_node h) in (set_node h n, report h out)
  end.

(** The hooks are beside the node: underneath, the same actions. *)
Lemma hookedPerform_node a h : h_node (hookedPerform a h).1 = (perform a (h_node h)).1.
Proof.
  destruct a; cbn [hookedPerform]; try (by destruct (perform _ _)).
  - cbn [perform]. unfold hookedSetTenant. destruct (SetTenant _ _ _) as [[n out] o].
    by destruct (String.eqb _ _).
  - cbn [perform]. unfold hookedSetPaused. by destruct (Bool.eqb _ _).
  - cbn [perform]. unfold hookedSetRole. by destruct (_ =? _).
Qed.

Lemma elem_of_report h out e :
  e ∈ report h out <->
  (exists r, Applied r ∈ out /\ e ∈ recordAccepted h r) \/
  (exists x, x ∈ out /\ e = Wired x /\ forall r, x <> Applied r).
Proof.
  unfold report. rewrite list_elem_of_join. split.
  - intros (l & He & (x & -> & Hx)%list_elem_of_fmap). destruct x.
    2: { left. eauto. }
    all: apply list_elem_of_singleton in He as ->; right; eexists; by split_and!.
  - intros [(r & Hr & He)|(x & Hx & -> & Hn)].
    + exists (recordAccepted h r). split; [done|]. apply list_elem_of_fmap. by exists (Applied r).
    + exists [Wired x]. split; [by left|]. apply list_elem_of_fmap. exists x. split; [|done].
      destruct x; try done. by destruct (Hn r).
Qed.

Lemma SetTenant_same c n tenant :
  String.eqb (n_tenant n) tenant = true -> SetTenant c n tenant = (n, [], Nil).
Proof. unfold SetTenant. by intros ->. Qed.

(** What the store applied in an action is told to the application. *)
Lemma hookedPerform_events a h :
  exists post, (hookedPerform a h).2 = report h (perform a (h_node h)).2 ++ post /\
    (forall e, e ∈ post -> forall f r, e <> Told f r /\ e <> Accepted r).
Proof.
  assert (Hdone : forall out, exists post, report h out = report h out ++ post /\
    (forall e, e ∈ post -> forall f r, e <> Told f r /\ e <> Accepted r)).
  { intros out. exists []. rewrite app_nil_r. split; [done|by intros e ?%elem_of_nil]. }
  destruct a; unfold hookedPerform; try (destruct (perform _ _) as [n out]; apply Hdone).
  - cbn [perform]. unfold hookedSetTenant.
    pose proof (fun E => f_equal (fun x => x.1.2) (SetTenant_same c (h_node h) tenant E)) as Hs.
    destruct (SetTenant c (h_node h) tenant) as [[n out] o].
    destruct (String.eqb (n_tenant (h_node h)) tenant) eqn:E.
    + cbn in *. rewrite Hs by done. apply (Hdone []).
    + eexists. split; [done|]. intros e (f & -> & _)%list_elem_of_fmap. done.
  - exists (hookedSetPaused h b).2. split; [done|].
    unfold hookedSetPaused. intros e. destruct (Bool.eqb _ _); [by intros ?%elem_of_nil|].
    destruct b; [destruct (h_onPaused h)|destruct (h_onResumed h)];
      first [by intros ->%list_elem_of_singleton | by intros ?%elem_of_nil].
  - exists (hookedSetRole h role).2. split; [done|].
    unfold hookedSetRole. intros e. destruct (_ =? _); [by intros ?%elem_of_nil|].
    cbn. by intros (f & -> & _)%list_elem_of_fmap.
Qed.
End hooks.

(** ** Who is told what *)

(** The calls of subscribers, and of the accepted-change hook, among events. *)
Definition tellings (es : list event) : list (subscriber * Record_) :=
  omap (fun e => match e with Told f r => Some (f, r) | _ => None end) es.
Definition acceptances (es : list event) : list Record_ :=
  omap (fun e => match e with Accepted r => Some r | _ => None end) es.

Lemma tellings_deliver (h : hooked) r l :
  tellings ((fun f => Told f r) <$> l) = (fun f => (f, r)) <$> l.
Proof. induction l as [|f l IH]; [done|]. cbn. by rewrite <- IH. Qed.

Lemma acceptances_deliver r (l : list subscriber) : acceptances ((fun f => Told f r) <$> l) = [].
Proof. by induction l. Qed.

Lemma report_cons `{MapOrder} h x out :
  report h (x :: out) =
  match x with Applied r => recordAccepted h r | _ => [Wired x] end ++ report h out.
Proof. done. Qed.

Lemma report_tellings `{MapOrder} h l out :
  (forall t, recipients (h_registry h) t ≡ₚ l t) ->
  tellings (report h out) ≡ₚ r ← reported out; (fun f => (f, r)) <$> l (r_Topic r).
Proof.
  intros Hl. induction out as [|x out IH]; [done|]. rewrite report_cons. unfold tellings.
  rewrite omap_app. fold tellings. destruct x; try exact IH.
  change (reported (Applied r :: out)) with (r :: reported out). rewrite bind_cons.
  f_equiv; [|exact IH]. unfold recordAccepted. rewrite omap_app. fold tellings.
  unfold deliverToSubs. change (omap _ ?x) with (tellings x) at 2.
  rewrite tellings_deliver, Hl by done. by destruct (h_onAccepted h).
Qed.

Lemma report_acceptances `{MapOrder} h out :
  acceptances (report h out) = if h_onAccepted h then reported out else [].
Proof.
  induction out as [|x out IH]; [by destruct (h_onAccepted h)|]. rewrite report_cons.
  unfold acceptances. rewrite omap_app. change (omap _ (report h out)) with (acceptances (report h out)).
  rewrite IH. destruct x; try (by destruct (h_onAccepted h)).
  unfold recordAccepted, deliverToSubs. rewrite omap_app.
  change (omap _ ((fun f => Told f r) <$> ?l)) with (acceptances ((fun f => Told f r) <$> l)).
  rewrite acceptances_deliver. by destruct (h_onAccepted h).
Qed.

Lemma post_silent (post : list event) :
  (forall e, e ∈ post -> forall f r, e <> Told f r /\ e <> Accepted r) ->
  tellings post = [] /\ acceptances post = [].
Proof.
  induction post as [|e post IH]; intros Hp; [done|].
  destruct IH as [E1 E2]; [intros e' He'; apply Hp; by right|].
  unfold tellings, acceptances in *. cbn. rewrite E1, E2.
  specialize (Hp e ltac:(left)). destruct e; try done.
  - by destruct (Hp 0%nat r) as [_ []].
  - by destruct (Hp f r) as [[] _].
Qed.

(** C20: subscriptions are independent of one another. Take a node on which any number of
    goroutines have subscribed and unsubscribed, in any order, a closure possibly called
    more than once and subscribers refused when nil, fewer than [2^64] times; a
    subscription is in force from its [Subscribe] to the first call of its closure. In
    whatever the node does next, each record it reports is handed to exactly the
    subscriptions in force on the record's topic, once each, whatever the order in which Go
    walks the map, and to the accepted-change hook once, in the order of the changes. *)
Theorem subscriptions_served `{Sha256} `{Ed25519} `{Proto} `{MapOrder} (ops : list op)
    (h : hooked) (a : action) :
  h_registry h = (foldl exec (newRegistry, []) ops).1 -> len ops < 2 ^ 64 ->
  let '(h', events) := hookedPerform a h in
  let changes := reported (perform a (h_node h)).2 in
  h_node h' = (perform a (h_node h)).1 /\
  tellings events ≡ₚ
    (r ← changes; (fun f => (f, r)) <$> inForce (foldl specExec [] ops) (r_Topic r)) /\
  acceptances events = if h_onAccepted h then changes else [].
Proof.
  intros Hreg Hlen. pose proof (hookedPerform_node a h) as Hn.
  destruct (hookedPerform_events a h) as (post & He & Hpost).
  destruct (hookedPerform a h) as [h' events]. cbn [fst snd] in *. subst events.
  pose proof (tracks_run ops newRegistry [] [] tracks_init) as Ht.
  ospecialize (Ht _); [unfold len in *; cbn; lia|].
  destruct (foldl exec _ ops) as [g cl]. cbn [fst] in Hreg. subst g.
  destruct (post_silent post Hpost) as [E1 E2].
  split; [done|]. unfold tellings, acceptances in *. rewrite !omap_app, E1, E2, !app_nil_r. split.
  - apply report_tellings. intros t. by eapply tracks_recipients.
  - apply report_acceptances.
Qed.

(** Four subscriptions, one nil, one over by now, one on another topic: one is told. *)
Lemma subscriptions_served_witness :
  let _ := std_order in let _ := ToyProto.codec in
  let _ := ToySha256.hash in let _ := ToyEd25519.scheme in
  let ops := [Sub "fleet" (Some 7%nat); Sub "fleet" None; Sub "fleet" (Some 8%nat); Unsub 0;
              Sub "other" (Some 9%nat); Unsub 0] in
  let h := mkHooked (sample_node 1 [id_of 2]) (foldl exec (newRegistry, []) ops).1 [] [] true
             false false in
  let a := DoPublish (at_ms 1000) "fleet" "k" (toBytes "up") in
  let events := (hookedPerform a h).2 in
  length (reported (perform a (h_node h)).2) = 1%nat /\ (tellings events).*1 = [8%nat] /\
  tellings events ≡ₚ (r ← reported (perform a (h_node h)).2;
    (fun f => (f, r)) <$> inForce (foldl specExec [] ops) (r_Topic r)).
Proof.
  intros o1 o2 o3 o4 ops h a events. split; [vm_compute; reflexivity|].
  split; [vm_compute; reflexivity|].
  pose proof (@subscriptions_served o3 o4 o2 o1 ops h a eq_refl) as Hs.
  assert (Hl : len ops < 2 ^ 64) by (vm_compute; reflexivity). specialize (Hs Hl).
  unfold events. destruct (hookedPerform a h) as [h' es]. apply Hs.
Defined.
