(* ===== verification/Alias.v ===== *)
(** * Byte slices (src/harden.go: cloneRecord; the copies of src/node.go and src/crdt.go)

    Elsewhere in the development a [[]byte] is its content. Here it is a reference into a
    memory that the application can write to through every slice it can reach. The copies the
    code makes keep the library's records apart from it; the two callbacks that are given the
    very slices which the store keeps, TrustCheck and the observer role check, do not. *)
From S2P Require Import Prelude Types.
From stdpp Require Import relations fin_maps fin_sets.

(** Buffers by address; a slice is nil or a buffer. *)
Abbreviation ref := positive.
Abbreviation memory := (gmap ref bytes).
Abbreviation slice := (option ref).

(** What a slice reads as. *)
Definition content (m : memory) (s : slice) : bytes :=
  match s with Some l => default [] (m !! l) | None => [] end.

(** A [Record] in memory: its scalar fields, those of [sr_rest] that are not bytes, and its
    three slices. *)
Record srecord := mkSrecord {
  sr_rest : Record_;
  sr_Body : slice;
  sr_PubKey : slice;
  sr_Sig : slice
}.

(** The record as a value. *)
Definition value (m : memory) (r : srecord) : Record_ :=
  let x := sr_rest r in
  mkRecord (r_Topic x) (r_NodeID x) (r_HLC x) (content m (sr_Body r)) (r_Tombstone x)
    (content m (sr_PubKey r)) (content m (sr_Sig r)) (r_Key x) (r_ObserverNodeID x)
    (r_ObservedAtUnixMs x).

(** [append([]byte(nil), b...)]: nil when there is nothing to copy. *)
Definition appendNil (m : memory) (b : bytes) : memory * slice :=
  match b with
  | [] => (m, None)
  | _ => let l := fresh (dom m) in (<[l := b]> m, Some l)
  end.

(** [if s != nil { s = append([]byte(nil), s...) }]. *)
Definition cloneSlice (m : memory) (s : slice) : memory * slice :=
  match s with None => (m, None) | Some _ => appendNil m (content m s) end.

(** [func cloneRecord(r Record) Record]. *)
Definition cloneRecord (m : memory) (r : srecord) : memory * srecord :=
  let '(m, body) := cloneSlice m (sr_Body r) in
  let '(m, sig) := cloneSlice m (sr_Sig r) in
  let '(m, pub) := cloneSlice m (sr_PubKey r) in
  (m, mkSrecord (sr_rest r) body pub sig).

(** [PublishKeyed] with the caller's [body]: it copies the body, and [signRecord] appends
    the key and the signature [r] carries to slices that are nil. *)
Definition publishRecord (m : memory) (r : Record_) (body : slice) : memory * srecord :=
  let '(m, body) := appendNil m (content m body) in
  let '(m, pub) := appendNil m (r_PubKey r) in
  let '(m, sig) := appendNil m (r_Sig r) in
  (m, mkSrecord r body pub sig).

(** A record decoded from a frame, which allocates all three. *)
Definition build (m : memory) (r : Record_) : memory * srecord :=
  let '(m, body) := appendNil m (r_Body r) in
  let '(m, pub) := appendNil m (r_PubKey r) in
  let '(m, sig) := appendNil m (r_Sig r) in
  (m, mkSrecord r body pub sig).

(** The buffers of a slice, of a record. *)
Definition srefs (s : slice) : gset ref := match s with Some l => {[l]} | None => ∅ end.
Definition refs (r : srecord) : gset ref := srefs (sr_Body r) ∪ srefs (sr_PubKey r) ∪ srefs (sr_Sig r).

(** Which slices of a record the application was given: none, the key (by the observer role
    check), or all three (by TrustCheck). *)
Inductive exposure := Private | KeyShown | Shown.
#[export] Instance exposure_dec : EqDecision exposure.
Proof. solve_decision. Defined.

Definition shows (e : exposure) (r : srecord) : gset ref :=
  match e with Private => ∅ | KeyShown => srefs (sr_PubKey r) | Shown => refs r end.
Definition hidden (e : exposure) (r : srecord) : gset ref :=
  match e with
  | Private => refs r
  | KeyShown => srefs (sr_Body r) ∪ srefs (sr_Sig r)
  | Shown => ∅
  end.

(** The memory, the records the library holds (in its store and its witness sets, or on
    their way there), each once, and the buffers the application can reach. *)
Abbreviation cell := (exposure * srecord)%type.
Record world := mkWorld { mem : memory; held : list cell; reach : gset ref }.

Inductive label := Take (e : exposure) (r : Record_) | Drop (i : nat) | Give (r : Record_)
  | RoleCheck (i : nat) | App.

(** The role check leaves a record at least key-shown. *)
Definition keyShown (e : exposure) : exposure := match e with Shown => Shown | _ => KeyShown end.

(** Whether the node is configured with a TrustCheck and with an observer role check. *)
Record checks := mkChecks { trustCheck : bool; roleCheck : bool }.

Section steps.
Context (cfg : checks).

Inductive step (w : world) : label -> world -> Prop :=
  (* the application allocates, and writes through any slice it can reach *)
  | step_make b l :
      mem w !! l = None -> step w App (mkWorld (<[l := b]> (mem w)) (held w) ({[l]} ∪ reach w))
  | step_write l b old :
      l ∈ reach w -> mem w !! l = Some old -> length b = length old ->
      step w App (mkWorld (<[l := b]> (mem w)) (held w) (reach w))
  (* Publish with a body the application can reach *)
  | step_publish r body :
      srefs body ⊆ reach w -> r_Body r = content (mem w) body ->
      step w (Take Private r)
        (mkWorld (publishRecord (mem w) r body).1
           (held w ++ [(Private, (publishRecord (mem w) r body).2)]) (reach w))
  (* a record decoded from a frame and admitted, by the TrustCheck if there is one *)
  | step_decode r :
      let e := if trustCheck cfg then Shown else Private in
      step w (Take e r)
        (mkWorld (build (mem w) r).1 (held w ++ [(e, (build (mem w) r).2)])
           (shows e (build (mem w) r).2 ∪ reach w))
  (* a tombstone synthesised, which has no slices *)
  | step_synth r :
      r_Body r = [] -> r_PubKey r = [] -> r_Sig r = [] ->
      step w (Take Private r)
        (mkWorld (mem w) (held w ++ [(Private, mkSrecord r None None None)]) (reach w))
  (* an attestation given to the observer role check *)
  | step_role i e r :
      roleCheck cfg = true -> held w !! i = Some (e, r) -> IsObserverAttestation (sr_rest r) = true ->
      step w (RoleCheck i)
        (mkWorld (mem w) (<[i := (keyShown e, r)]> (held w)) (srefs (sr_PubKey r) ∪ reach w))
  (* a slot overwritten, evicted or swept *)
  | step_drop i :
      step w (Drop i) (mkWorld (mem w) (delete i (held w)) (reach w))
  (* Get, GetKeyed, NodeRecords, TopicRecords, the replay of Subscribe, recordAccepted *)
  | step_give i e r :
      held w !! i = Some (e, r) ->
      step w (Give (value (mem w) r))
        (mkWorld (cloneRecord (mem w) r).1 (held w) (refs (cloneRecord (mem w) r).2 ∪ reach w)).
End steps.

(** The records held, as values with what was shown of them. *)
Abbreviation shown_value := (exposure * Record_)%type.
Definition values (w : world) : list shown_value := prod_map id (value (mem w)) <$> held w.

(** What a write of the application can change of a record: nothing of a private one, the
    bytes of the key of one shown to the role check, those of the body, the key and the
    signature of one shown to TrustCheck; no length, and no other field. *)
Definition altered (v v' : shown_value) : Prop :=
  let '(e, r) := v in
  v'.1 = e /\
  exists body key sg,
    v'.2 = mkRecord (r_Topic r) (r_NodeID r) (r_HLC r) body (r_Tombstone r) key sg (r_Key r)
             (r_ObserverNodeID r) (r_ObservedAtUnixMs r) /\
    length body = length (r_Body r) /\ length key = length (r_PubKey r) /\
    length sg = length (r_Sig r) /\
    (e = Private -> key = r_PubKey r) /\ (e <> Shown -> body = r_Body r /\ sg = r_Sig r).

(** The specification, in which a record is a value with what was shown of it. *)
Definition spec (l : label) (vs vs' : list shown_value) : Prop :=
  match l with
  | Take e r => vs' = vs ++ [(e, r)]
  | Drop i => vs' = delete i vs
  | Give r => r ∈ vs.*2 /\ vs' = vs
  | RoleCheck i =>
      exists e r, vs !! i = Some (e, r) /\ IsObserverAttestation r = true /\
        vs' = <[i := (keyShown e, r)]> vs
  | App => Forall2 altered vs vs'
  end.

(** What can have been shown, with these checks. *)
Definition showable (cfg : checks) (v : shown_value) : Prop :=
  match v.1 with
  | Private => True
  | KeyShown => roleCheck cfg = true /\ IsObserverAttestation v.2 = true
  | Shown => trustCheck cfg = true
  end.

Definition start : world := mkWorld ∅ [] ∅.

(** ** Separation *)

(** The records share no buffer. *)
Definition apart (Xs : list (gset ref)) : Prop :=
  forall i j X Y, Xs !! i = Some X -> Xs !! j = Some Y -> i <> j -> X ## Y.

Record separate (w : world) : Prop := {
  se_hidden : forall e r, (e, r) ∈ held w -> hidden e r ## reach w;
  se_alloc : forall e r, (e, r) ∈ held w -> refs r ⊆ dom (mem w);
  se_reach : reach w ⊆ dom (mem w);
  se_key : forall e r, (e, r) ∈ held w ->
    srefs (sr_PubKey r) ## srefs (sr_Body r) ∪ srefs (sr_Sig r);
  se_apart : apart (refs ∘ snd <$> held w)
}.

Lemma hidden_refs e r : hidden e r ⊆ refs r.
Proof. destruct e; unfold hidden, refs; set_solver. Qed.

Lemma shows_refs e r : shows e r ⊆ refs r.
Proof. destruct e; unfold shows, refs; set_solver. Qed.

Lemma apart_snoc Xs X : apart Xs -> (forall Y, Y ∈ Xs -> Y ## X) -> apart (Xs ++ [X]).
Proof.
  intros HX HY i j Y Z [Hi|[Hgi Hi]]%lookup_app_Some [Hj|[Hgj Hj]]%lookup_app_Some Hne.
  - by eapply HX.
  - apply list_lookup_singleton_Some in Hj as [_ <-]. by eapply HY, list_elem_of_lookup_2.
  - apply list_lookup_singleton_Some in Hi as [_ <-]. symmetry. by eapply HY, list_elem_of_lookup_2.
  - apply list_lookup_singleton_Some in Hi as [Hi _], Hj as [Hj _]. lia.
Qed.

Lemma apart_delete Xs k : apart Xs -> apart (delete k Xs).
Proof.
  intros HX i j X Y Hi Hj Hne.
  assert (Hd : forall i X, delete k Xs !! i = Some X ->
    Xs !! (if decide (i < k)%nat then i else S i) = Some X).
  { clear. intros i X. destruct (decide (i < k)%nat); [by rewrite list_lookup_delete_lt|].
    by rewrite list_lookup_delete_ge by lia. }
  apply (HX _ _ _ _ (Hd _ _ Hi) (Hd _ _ Hj)). repeat case_decide; lia.
Qed.

(** [m'] extends [m]. *)
Lemma content_extends m m' s : m ⊆ m' -> srefs s ⊆ dom m -> content m' s = content m s.
Proof.
  intros Hm Hs. destruct s as [l|]; [|done]. cbn in *.
  assert (is_Some (m !! l)) as [b Hb] by (apply elem_of_dom; set_solver).
  by rewrite Hb, (lookup_weaken _ _ _ _ Hb Hm).
Qed.

Lemma value_extends m m' r : m ⊆ m' -> refs r ⊆ dom m -> value m' r = value m r.
Proof. unfold refs, value. intros Hm Hr. rewrite !(content_extends m m'); set_solver. Qed.

Lemma appendNil_spec m b :
  let '(m', s) := appendNil m b in
  m ⊆ m' /\ content m' s = b /\ srefs s ## dom m /\ srefs s ⊆ dom m'.
Proof.
  unfold appendNil. destruct b as [|x b]; [cbn; set_solver|].
  pose proof (is_fresh (dom m)) as Hf. split_and!; cbn.
  - by apply insert_subseteq, not_elem_of_dom.
  - by rewrite lookup_insert_eq.
  - set_solver.
  - rewrite dom_insert. set_solver.
Qed.

(** A copy is equal, in memory that nothing else refers to. *)
Definition fresh_copy (m m' : memory) (r' : srecord) (v : Record_) : Prop :=
  m ⊆ m' /\ value m' r' = v /\ refs r' ## dom m /\ refs r' ⊆ dom m' /\
  srefs (sr_PubKey r') ## srefs (sr_Body r') ∪ srefs (sr_Sig r').

Lemma dom_sub (m m' : memory) : m ⊆ m' -> dom m ⊆ dom m'.
Proof. apply subseteq_dom. Qed.

(** Three copies one after the other, whatever their order. *)
Lemma three_copies m m1 m2 m3 s1 s2 s3 b1 b2 b3 :
  m ⊆ m1 /\ content m1 s1 = b1 /\ srefs s1 ## dom m /\ srefs s1 ⊆ dom m1 ->
  m1 ⊆ m2 /\ content m2 s2 = b2 /\ srefs s2 ## dom m1 /\ srefs s2 ⊆ dom m2 ->
  m2 ⊆ m3 /\ content m3 s3 = b3 /\ srefs s3 ## dom m2 /\ srefs s3 ⊆ dom m3 ->
  m ⊆ m3 /\ content m3 s1 = b1 /\ content m3 s2 = b2 /\ content m3 s3 = b3 /\
  srefs s1 ∪ srefs s2 ∪ srefs s3 ## dom m /\ srefs s1 ∪ srefs s2 ∪ srefs s3 ⊆ dom m3 /\
  srefs s2 ## srefs s1 ∪ srefs s3 /\ srefs s3 ## srefs s1 ∪ srefs s2.
Proof.
  intros (Hm1 & Hc1 & Hd1 & Hs1) (Hm2 & Hc2 & Hd2 & Hs2) (Hm3 & Hc3 & Hd3 & Hs3).
  assert (Hm13 : m1 ⊆ m3) by (by etrans).
  pose proof (dom_sub _ _ Hm1). pose proof (dom_sub _ _ Hm2). pose proof (dom_sub _ _ Hm3).
  split_and!.
  - by etrans.
  - by rewrite (content_extends m1 m3).
  - by rewrite (content_extends m2 m3).
  - done.
  - set_solver.
  - set_solver.
  - set_solver.
  - set_solver.
Qed.

Lemma cloneSlice_spec m s :
  srefs s ⊆ dom m ->
  let '(m', s') := cloneSlice m s in
  m ⊆ m' /\ content m' s' = content m s /\ srefs s' ## dom m /\ srefs s' ⊆ dom m'.
Proof.
  intros Hs. unfold cloneSlice. destruct s as [l|]; [|cbn; set_solver]. apply appendNil_spec.
Qed.

Lemma build_spec m r : let '(m', r') := build m r in fresh_copy m m' r' r.
Proof.
  unfold build. pose proof (appendNil_spec m (r_Body r)) as H1.
  destruct (appendNil m (r_Body r)) as [m1 s1]. pose proof (appendNil_spec m1 (r_PubKey r)) as H2.
  destruct (appendNil m1 (r_PubKey r)) as [m2 s2]. pose proof (appendNil_spec m2 (r_Sig r)) as H3.
  destruct (appendNil m2 (r_Sig r)) as [m3 s3].
  destruct (three_copies _ _ _ _ _ _ _ _ _ _ H1 H2 H3) as (Hm & E1 & E2 & E3 & Hd & Hs & Hk & _).
  unfold fresh_copy, refs, value. cbn. rewrite E1, E2, E3. by destruct r.
Qed.

Lemma cloneRecord_spec m r :
  refs r ⊆ dom m -> let '(m', r') := cloneRecord m r in fresh_copy m m' r' (value m r).
Proof.
  intros Hr. assert (srefs (sr_Body r) ⊆ dom m /\ srefs (sr_Sig r) ⊆ dom m /\
    srefs (sr_PubKey r) ⊆ dom m) as (Hb & Hg & Hp) by (unfold refs in Hr; set_solver).
  clear Hr. unfold cloneRecord. pose proof (cloneSlice_spec m (sr_Body r) Hb) as H1.
  destruct (cloneSlice m (sr_Body r)) as [m1 s1]. pose proof (proj1 H1) as Hm1.
  pose proof (cloneSlice_spec m1 (sr_Sig r) (transitivity Hg (dom_sub _ _ Hm1))) as H2.
  destruct (cloneSlice m1 (sr_Sig r)) as [m2 s2]. pose proof (transitivity Hm1 (proj1 H2)) as Hm2.
  pose proof (cloneSlice_spec m2 (sr_PubKey r) (transitivity Hp (dom_sub _ _ Hm2))) as H3.
  destruct (cloneSlice m2 (sr_PubKey r)) as [m3 s3].
  destruct (three_copies _ _ _ _ _ _ _ _ _ _ H1 H2 H3) as (Hm & E1 & E2 & E3 & Hd & Hs & _ & Hk).
  unfold fresh_copy, refs, value. cbn. clear H1 H2 H3.
  rewrite E1, E2, E3, (content_extends m m1), (content_extends m m2) by done.
  assert (Hu : srefs s1 ∪ srefs s3 ∪ srefs s2 = srefs s1 ∪ srefs s2 ∪ srefs s3)
    by (clear; set_solver).
  by rewrite Hu.
Qed.

Lemma held_alloc w e r : separate w -> (e, r) ∈ held w -> refs r ⊆ dom (mem w).
Proof. intros Hw Hr. by eapply se_alloc. Qed.

Lemma values_extends w m' :
  separate w -> mem w ⊆ m' -> prod_map id (value m') <$> held w = values w.
Proof.
  intros Hw Hm. unfold values. apply list_fmap_ext. intros i [e r] Hi. unfold prod_map. cbn.
  f_equal. apply value_extends; [done|].
  apply (held_alloc w e); [done|]. by eapply list_elem_of_lookup_2.
Qed.

(** ** Every step keeps them apart *)

Lemma separate_take w m' r' v e :
  separate w -> fresh_copy (mem w) m' r' v ->
  let w' := mkWorld m' (held w ++ [(e, r')]) (shows e r' ∪ reach w) in
  separate w' /\ values w' = values w ++ [(e, v)].
Proof.
  intros Hw (Hm & Hv & Hd & Hs & Hk). pose proof (dom_sub _ _ Hm) as Hdom.
  pose proof (shows_refs e r') as Hsh. cbv zeta. split.
  - assert (Hcell : forall (P : exposure -> srecord -> Prop), P e r' ->
      (forall e0 r0, (e0, r0) ∈ held w -> P e0 r0) ->
      forall e0 r0, (e0, r0) ∈ held w ++ [(e, r')] -> P e0 r0).
    { intros P HP HQ e0 r0 [Hin|[= -> ->]%list_elem_of_singleton]%elem_of_app; auto. }
    destruct Hw as [Hh Ha Hr Hkey Hap]. split; cbn [mem held reach].
    + apply Hcell.
      * assert (Hown : hidden e r' ## shows e r')
          by (destruct e; unfold hidden, shows, refs; clear -Hk; set_solver).
        pose proof (hidden_refs e r'). set_solver.
      * intros e0 r0 Hin. pose proof (Hh _ _ Hin). pose proof (Ha _ _ Hin).
        pose proof (hidden_refs e0 r0). set_solver.
    + apply Hcell; [done|]. intros e0 r0 Hin. pose proof (Ha _ _ Hin). set_solver.
    + set_solver.
    + by apply Hcell.
    + rewrite fmap_app. apply apart_snoc; [done|].
      intros Y ([e0 r0] & -> & Hin)%list_elem_of_fmap. pose proof (Ha _ _ Hin). cbn. set_solver.
  - unfold values. cbn [mem held]. rewrite fmap_app. f_equal; [by apply values_extends|].
    cbn. by rewrite Hv.
Qed.

Lemma publishRecord_build m r body :
  r_Body r = content m body -> publishRecord m r body = build m r.
Proof. unfold publishRecord, build. by intros ->. Qed.

Lemma synth_copy m r :
  r_Body r = [] -> r_PubKey r = [] -> r_Sig r = [] ->
  fresh_copy m m (mkSrecord r None None None) r.
Proof. destruct r. cbn. intros -> -> ->. unfold fresh_copy, refs. cbn. set_solver. Qed.

Lemma altered_refl v : altered v v.
Proof. destruct v as [e r]. split; [done|]. exists (r_Body r), (r_PubKey r), (r_Sig r). by destruct r. Qed.

(** A write changes what a slice reads as only if it is to its buffer, and never its length. *)
Lemma content_write (m : memory) l b old s :
  m !! l = Some old -> length b = length old ->
  length (content (<[l := b]> m) s) = length (content m s) /\
  (l ∉ srefs s -> content (<[l := b]> m) s = content m s).
Proof.
  intros Hold Hlen. destruct s as [l'|]; [|done]. cbn. destruct (decide (l = l')) as [<-|Hne].
  - rewrite lookup_insert_eq, Hold. split; [exact Hlen | set_solver].
  - by rewrite lookup_insert_ne.
Qed.

Lemma altered_write (m : memory) l b old e r :
  m !! l = Some old -> length b = length old -> l ∉ hidden e r ->
  altered (e, value m r) (e, value (<[l := b]> m) r).
Proof.
  intros Hold Hlen Hl. split; [done|].
  exists (content (<[l:=b]> m) (sr_Body r)), (content (<[l:=b]> m) (sr_PubKey r)),
    (content (<[l:=b]> m) (sr_Sig r)).
  split; [done|]. cbn [snd value r_Body r_PubKey r_Sig].
  split_and!; try (by apply (content_write _ _ _ old)).
  - intros ->. apply (content_write _ _ _ old); [done..|]. unfold hidden, refs in Hl. set_solver.
  - intros Hne. split; apply (content_write _ _ _ old); try done;
      destruct e; try done; unfold hidden, refs in Hl; set_solver.
Qed.

Lemma separate_write w l b old :
  separate w -> l ∈ reach w -> mem w !! l = Some old -> length b = length old ->
  let w' := mkWorld (<[l := b]> (mem w)) (held w) (reach w) in
  separate w' /\ Forall2 altered (values w) (values w').
Proof.
  intros Hw Hl Hold Hlen. cbv zeta. split.
  - destruct Hw as [Hh Ha Hr Hk Hap]. split; cbn [mem held reach]; try done;
      [intros e r Hin; specialize (Ha e r Hin)|]; rewrite dom_insert; set_solver.
  - unfold values. cbn [mem held]. apply Forall2_fmap, Forall_Forall2_diag, Forall_forall.
    intros [e r] Hin. apply (altered_write _ _ _ old); [done..|].
    pose proof (se_hidden w Hw e r Hin). set_solver.
Qed.

Lemma separate_role w i e r :
  separate w -> held w !! i = Some (e, r) ->
  separate (mkWorld (mem w) (<[i := (keyShown e, r)]> (held w)) (srefs (sr_PubKey r) ∪ reach w)).
Proof.
  intros [Hh Ha Hr Hk Hap] Hi. pose proof (list_elem_of_lookup_2 _ _ _ Hi) as Hin.
  assert (Hold : forall j e' r', <[i := (keyShown e, r)]> (held w) !! j = Some (e', r') ->
    exists e0, held w !! j = Some (e0, r') /\ hidden e' r' ⊆ hidden e0 r').
  { intros j e' r' [(-> & [= <- <-] & _)|[_ Hj]]%list_lookup_insert_Some; [|eauto].
    exists e. split; [done|]. destruct e; unfold keyShown, hidden, refs; set_solver. }
  split; cbn [mem held reach].
  - intros e' r' [j Hj]%list_elem_of_lookup_1. destruct (decide (i = j)) as [<-|Hne].
    + rewrite list_lookup_insert_eq in Hj by (by eapply lookup_lt_Some). injection Hj as <- <-.
      specialize (Hh _ _ Hin). specialize (Hk _ _ Hin).
      destruct e; unfold keyShown, hidden, refs in *; set_solver.
    + rewrite list_lookup_insert_ne in Hj by done.
      specialize (Hh _ _ (list_elem_of_lookup_2 _ _ _ Hj)).
      assert (Hx : refs r' ## refs r).
      { apply (Hap j i); [by rewrite list_lookup_fmap, Hj | by rewrite list_lookup_fmap, Hi | done]. }
      pose proof (hidden_refs e' r'). unfold refs in Hx at 2. set_solver.
  - intros e' r' [j Hj]%list_elem_of_lookup_1. destruct (Hold _ _ _ Hj) as (e0 & H0 & _).
    by eapply Ha, list_elem_of_lookup_2.
  - specialize (Ha _ _ Hin). unfold refs in Ha. set_solver.
  - intros e' r' [j Hj]%list_elem_of_lookup_1. destruct (Hold _ _ _ Hj) as (e0 & H0 & _).
    by eapply Hk, list_elem_of_lookup_2.
  - rewrite list_fmap_insert, list_insert_id; [done|]. by rewrite list_lookup_fmap, Hi.
Qed.

Lemma separate_drop w i : separate w -> separate (mkWorld (mem w) (delete i (held w)) (reach w)).
Proof.
  intros [Hh Ha Hr Hk Hap].
  assert (Hsub : forall c, c ∈ delete i (held w) -> c ∈ held w).
  { intros c. by apply (sublist_subseteq _ _ (sublist_delete _ _)). }
  split; cbn [mem held reach]; eauto. rewrite list_fmap_delete. by apply apart_delete.
Qed.

Lemma separate_give w i e r :
  separate w -> held w !! i = Some (e, r) ->
  let w' := mkWorld (cloneRecord (mem w) r).1 (held w) (refs (cloneRecord (mem w) r).2 ∪ reach w) in
  separate w' /\ values w' = values w.
Proof.
  intros Hw Hi. cbv zeta.
  pose proof (cloneRecord_spec (mem w) r (held_alloc w e r Hw (list_elem_of_lookup_2 _ _ _ Hi))) as Hc.
  destruct (cloneRecord (mem w) r) as [m' r']. destruct Hc as (Hm & Hv & Hd & Hs & _).
  pose proof (dom_sub _ _ Hm) as Hdom. cbn [fst snd]. split; [|by apply (values_extends w)].
  destruct Hw as [Hh Ha Hr Hk Hap]. split; cbn [mem held reach]; try done.
  - intros e0 r0 Hin. pose proof (hidden_refs e0 r0). specialize (Hh _ _ Hin).
    specialize (Ha _ _ Hin). set_solver.
  - intros e0 r0 Hin. specialize (Ha _ _ Hin). set_solver.
  - set_solver.
Qed.

Lemma separate_make w l b :
  separate w -> mem w !! l = None ->
  let w' := mkWorld (<[l := b]> (mem w)) (held w) ({[l]} ∪ reach w) in
  separate w' /\ values w' = values w.
Proof.
  intros Hw Hl. assert (Hm : mem w ⊆ <[l := b]> (mem w)) by (by apply insert_subseteq).
  split; [|by apply (values_extends w)].
  destruct Hw as [Hh Ha Hr Hk Hap]. pose proof (proj2 (not_elem_of_dom (mem w) l) Hl).
  split; cbn [mem held reach]; try done.
  - intros e r Hin. pose proof (hidden_refs e r). specialize (Hh _ _ Hin).
    specialize (Ha _ _ Hin). set_solver.
  - intros e r Hin. specialize (Ha _ _ Hin). rewrite dom_insert. set_solver.
  - rewrite dom_insert. set_solver.
Qed.

Lemma separate_step cfg w l w' :
  separate w -> step cfg w l w' -> separate w' /\ spec l (values w) (values w').
Proof.
  intros Hw Hs.
  destruct Hs as [b l Hl|l b old Hl Hold Hlen|r body _ Hb|r e|r Hb Hk Hg|i e r _ Hi Hatt|i|i e r Hi];
    cbn [spec].
  - destruct (separate_make w l b Hw Hl) as [Hsep ->]. split; [exact Hsep|].
    apply Forall_Forall2_diag, Forall_true, altered_refl.
  - by apply (separate_write w l b old).
  - rewrite publishRecord_build by done.
    pose proof (build_spec (mem w) r) as Hc. destruct (build (mem w) r) as [m' r'].
    pose proof (separate_take w m' r' r Private Hw Hc) as Ht. cbn [shows] in Ht.
    by rewrite (left_id_L ∅ (∪)) in Ht.
  - pose proof (build_spec (mem w) r) as Hc. destruct (build (mem w) r) as [m' r'].
    by apply separate_take.
  - pose proof (separate_take w (mem w) _ r Private Hw (synth_copy (mem w) r Hb Hk Hg)) as Ht.
    cbn [shows] in Ht. by rewrite (left_id_L ∅ (∪)) in Ht.
  - split; [by apply (separate_role w i e)|]. exists e, (value (mem w) r).
    unfold values. cbn [mem held]. rewrite list_lookup_fmap, Hi, list_fmap_insert. done.
  - split; [by apply separate_drop|]. unfold values. cbn [mem held]. apply list_fmap_delete.
  - destruct (separate_give w i e r Hw Hi) as (Hsep & Hv). split; [exact Hsep|].
    rewrite Hv. split; [|done]. apply list_elem_of_fmap. exists (e, value (mem w) r).
    split; [done|]. apply list_elem_of_fmap. exists (e, r). split; [done|].
    by eapply list_elem_of_lookup_2.
Qed.

Lemma showable_altered cfg v v' : altered v v' -> showable cfg v -> showable cfg v'.
Proof.
  destruct v as [e r]. intros (E & body & key & sg & E' & _). unfold showable. rewrite E, E'.
  by destruct e.
Qed.

Lemma showable_step cfg w l w' :
  separate w -> step cfg w l w' -> Forall (showable cfg) (values w) -> Forall (showable cfg) (values w').
Proof.
  intros Hw Hs Hall. pose proof (separate_step cfg w l w' Hw Hs) as [_ Hspec].
  destruct l as [e r|i|r|i|]; cbn [spec] in Hspec.
  - rewrite Hspec. apply Forall_app. split; [done|]. apply Forall_singleton. unfold showable.
    inversion Hs; subst; cbn; try done. by destruct (trustCheck cfg) eqn:E.
  - rewrite Hspec. by apply Forall_delete.
  - by destruct Hspec as [_ ->].
  - destruct Hspec as (e & r & Hi & Hatt & ->). apply Forall_insert; [done|].
    assert (roleCheck cfg = true) by (by inversion Hs).
    pose proof (Forall_lookup_1 _ _ _ _ Hall Hi) as Hv. unfold showable in *. cbn in *.
    by destruct e.
  - revert Hall. induction Hspec as [|v v' vs vs' Hv Hvs IH]; intros Hall; [constructor|].
    apply Forall_cons in Hall as [H1 H2]. constructor; [by eapply showable_altered | auto].
Qed.

(** C21: what a mutating caller or consumer can change of the records the library holds. Let
    the application allocate buffers, publish them, and write to any byte it can reach, at any
    moment, those of its own bodies, of every record it was ever given and of what its
    TrustCheck and role check were shown included; and let the library take, show, hand out
    and drop records, in any order. Then a record taken has the content it had at the call,
    and one handed out has the content held. A write leaves a record that was never shown as
    it is, and of one that was, it changes only bytes of the slices shown: the key of an
    attestation the role check saw, the body, key and signature of a record the TrustCheck
    saw. Only the checks that are configured show anything, so with neither the records never
    change; and what was not shown is out of the application's reach. *)
Theorem bytes_are_values (cfg : checks) (w w' : world) (l : label) :
  rtc (fun a b => exists l, step cfg a l b) start w -> step cfg w l w' ->
  spec l (values w) (values w') /\ Forall (showable cfg) (values w') /\
  (forall e r, (e, r) ∈ held w' -> hidden e r ## reach w').
Proof.
  intros Hrun Hs.
  assert (Hw : separate w /\ Forall (showable cfg) (values w)).
  { revert Hrun. apply (rtc_ind_r (fun w => separate w /\ Forall (showable cfg) (values w))).
    - split; [|constructor]. split; try (by intros ? ? ?%elem_of_nil); [done|]. by intros [|i].
    - intros w1 w2 _ [l' Hs'] [Hw Hall]. split; [by apply (separate_step cfg w1 l')|].
      by apply (showable_step cfg w1 l'). }
  destruct Hw as [Hw Hall]. destruct (separate_step cfg w l w' Hw Hs) as [Hw' Hv].
  split; [exact Hv|]. split; [by apply (showable_step cfg w l)|]. apply (se_hidden w' Hw').
Qed.

(** Publishing a buffer, reading the record back, and scribbling over both: the record stays.
    No check is configured. *)
Lemma bytes_are_values_witness :
  let body := [Byte.x01; Byte.x02] in
  let r := mkRecord "fleet" "n" 5 body false [Byte.x03] [Byte.x04] "" "" 0 in
  exists w w', values w = [(Private, r)] /\ step (mkChecks false false) w App w' /\
    size (reach w') = 4%nat /\ Forall2 altered (values w) (values w').
Proof.
  intros body r.
  pose (w1 := mkWorld {[ 1%positive := body ]} [] {[ 1%positive ]}).
  pose (b := Some 1%positive : slice).
  pose (w2 := mkWorld (publishRecord (mem w1) r b).1
                (held w1 ++ [(Private, (publishRecord (mem w1) r b).2)]) (reach w1)).
  pose (x := (default (Private, mkSrecord r None None None) (held w2 !! 0%nat)).2).
  pose (w3 := mkWorld (cloneRecord (mem w2) x).1 (held w2) (refs (cloneRecord (mem w2) x).2 ∪ reach w2)).
  pose (l := default 1%positive (sr_Sig (cloneRecord (mem w2) x).2)).
  pose (w4 := mkWorld (<[l := [Byte.xff]]> (mem w3)) (held w3) (reach w3)).
  assert (Hs : step (mkChecks false false) w3 App w4).
  { apply (step_write _ w3 l [Byte.xff] [Byte.x04]); [|vm_compute; reflexivity|reflexivity].
    apply (bool_decide_unpack _). vm_compute. exact I. }
  destruct (bytes_are_values (mkChecks false false) w3 w4 App) as (Hv & _); [|exact Hs|].
  - apply (rtc_l _ _ w1); [|apply (rtc_l _ _ w2); [|apply rtc_once]].
    + exists App. apply (step_make _ start body 1%positive). reflexivity.
    + exists (Take Private r). apply (step_publish _ w1 r b); [|reflexivity].
      apply (bool_decide_unpack _). vm_compute. exact I.
    + exists (Give (value (mem w2) x)). apply (step_give _ w2 0 Private x). reflexivity.
  - exists w3, w4. split; [vm_compute; reflexivity|]. split; [exact Hs|].
    split; [vm_compute; reflexivity|exact Hv].
Defined.

(** The leak: a record decoded from a frame and shown to a TrustCheck that writes over the
    body it was given, after the signature was verified. The record held has another body. *)
Example trustCheck_alters_record :
  let r := mkRecord "fleet" "n" 5 [Byte.x01] false [Byte.x03] [Byte.x04] "" "" 0 in
  exists w w', step (mkChecks true false) start (Take Shown r) w /\
    step (mkChecks true false) w App w' /\ values w = [(Shown, r)] /\
    r_Body <$> (values w').*2 = [[Byte.xff]].
Proof.
  intros r.
  pose (w := mkWorld (build ∅ r).1 ([] ++ [(Shown, (build ∅ r).2)]) (shows Shown (build ∅ r).2 ∪ ∅)).
  pose (l := default 1%positive (sr_Body (build ∅ r).2)).
  exists w, (mkWorld (<[l := [Byte.xff]]> (mem w)) (held w) (reach w)).
  split; [exact (step_decode (mkChecks true false) start r)|].
  split; [|split; vm_compute; reflexivity].
  apply (step_write _ w l [Byte.xff] [Byte.x01]); [|vm_compute; reflexivity|reflexivity].
  apply (bool_decide_unpack _). vm_compute. exact I.
Qed.
