(* ===== verification/Topics.v ===== *)
(** * Topic names (src/topics.go)

    The helpers that build topic names, and the decimal conversion they use. *)
From S2P Require Import Prelude Types.
#[local] Open Scope string_scope.
#[local] Infix "++" := String.append : string_scope.

(** ** Decimal conversion *)

(** The loop of [uint64ToDec]: the digits written so far, most significant first. The buffer
    has room for [room] more. *)
Fixpoint decLoop (room : nat) (v : Z) (buf : bytes) : option bytes :=
  match room with
  | O => if (v >? 0)%Z then None else Some buf
  | S room' =>
      if (v >? 0)%Z then decLoop room' (v / 10) (byteOfZ (48 + v mod 10) :: buf) else Some buf
  end.

(** [func uint64ToDec(v uint64) string]; [None] in the loop is a write before the buffer's
    start, which panics. *)
Definition uint64ToDec_checked (v : Z) : option string :=
  if (v =? 0)%Z then Some "0" else ofBytes <$> decLoop 20 v [].
Definition uint64ToDec (v : Z) : string := default "" (uint64ToDec_checked v).

(** ** Topics *)

Definition FleetPeerTopic : Topic := "fleet.peer".
Definition FleetContentAdvertTopic : Topic := "fleet.content.advert".

Definition AgentPolicyTopic (tenantID : string) : Topic := "agent.policy." ++ tenantID.
Definition AgentTrustTopic (tenantID : string) : Topic := "agent.trust." ++ tenantID.
Definition AgentKeysTopic (tenantID : string) : Topic := "agent.keys." ++ tenantID.
Definition AgentBlocklistsTopic (tenantID : string) : Topic := "agent.blocklists." ++ tenantID.
Definition AgentAssetsTopic (tenantID : string) : Topic := "agent.assets." ++ tenantID.
Definition AgentRulesTopic (tenantID ruleType : string) : Topic :=
  "agent.rules." ++ tenantID ++ "." ++ ruleType.
Definition AgentDriversTopic (tenantID platform : string) : Topic :=
  "agent.drivers." ++ tenantID ++ "." ++ platform.
Definition AgentVouchersTopic (tenantID : string) : Topic := "agent.vouchers." ++ tenantID.
Definition AgentTUFMetaTopic (channel : string) : Topic := "agent.tuf-meta." ++ channel.
Definition AgentFIMBaselinesTopic (tenantID pathHashHex : string) : Topic :=
  "agent.fim-baselines." ++ tenantID ++ "." ++ pathHashHex.
Definition AgentOSQueryPacksTopic (tenantID : string) : Topic :=
  "agent.osquery-packs." ++ tenantID.
Definition AgentLiveQueryCacheTopic (tenantID : string) : Topic :=
  "agent.livequery-cache." ++ tenantID.
Definition AgentForensicIndexTopic (tenantID : string) : Topic :=
  "agent.forensic-index." ++ tenantID.
Definition AgentContentAdvertTopic (tenantID : string) : Topic :=
  "agent.content.advert." ++ tenantID.
Definition AgentDDNSTopic (tenantID : string) : Topic := "agent.ddns." ++ tenantID.
Definition AgentQuarantineTopic (tenantID : string) : Topic := "agent.quarantine." ++ tenantID.
Definition AgentDHCPTopic (tenantID segment : string) : Topic :=
  "agent.dhcp." ++ tenantID ++ "." ++ segment.
Definition AgentDiscoveredAssetsTopic (tenantID : string) : Topic :=
  "agent.discovered-assets." ++ tenantID.
Definition AgentPrintersTopic (tenantID : string) : Topic := "agent.printers." ++ tenantID.
Definition AgentServiceStateTopic (tenantID : string) : Topic :=
  "agent.service-state." ++ tenantID.
Definition AgentInventoryDeltasTopic (tenantID : string) : Topic :=
  "agent.inventory-deltas." ++ tenantID.
Definition AgentRevokedKeysTopic (tenantID : string) : Topic := "agent.revoked-keys." ++ tenantID.
Definition AgentNetworkPSKTopic (tenantID : string) (epoch : Z) : Topic :=
  "agent.network-psk." ++ tenantID ++ "." ++ uint64ToDec epoch.
Definition AgentTrustPinsTopic (tenantID : string) : Topic := "agent.trust-pins." ++ tenantID.
Definition AgentTLSPinsTopic (tenantID domain : string) : Topic :=
  "agent.tls-pins." ++ tenantID ++ "." ++ domain.
Definition AgentIntegrityAlertTopic (tenantID : string) : Topic :=
  "agent.integrity-alert." ++ tenantID.
Definition AgentSessionTopic (tenantID deviceID : string) : Topic :=
  "agent.session." ++ tenantID ++ "." ++ deviceID.
Definition AgentConsentTopic (tenantID userID : string) : Topic :=
  "agent.consent." ++ tenantID ++ "." ++ userID.
Definition AgentRemoteSessionsTopic (tenantID : string) : Topic :=
  "agent.remote-sessions." ++ tenantID.
Definition AgentTunnelsTopic (tenantID : string) : Topic := "agent.tunnels." ++ tenantID.
Definition AgentHealthTopic (tenantID : string) : Topic := "agent.health." ++ tenantID.
Definition AgentEventTopic (tenantID eventType : string) : Topic :=
  "agent.event." ++ tenantID ++ "." ++ eventType.
Definition AgentThreatSignalTopic (tenantID : string) : Topic :=
  "agent.threat-signal." ++ tenantID.
Definition AgentDNSCacheTopic (tenantID : string) : Topic := "agent.dns-cache." ++ tenantID.

(** ** Edge service roles *)

Definition EdgeRoleTelemetryAggregator : string := "telemetry-aggregator".
Definition EdgeRoleOTelExporter : string := "otel-exporter".
Definition EdgeRoleC2Cache : string := "c2-cache".
Definition EdgeRoleSignalingRelay : string := "signaling-relay".
Definition EdgeRoleSNMPDiscoverer : string := "snmp-discoverer".
Definition EdgeRoleTUFCache : string := "tuf-cache".
Definition EdgeRoleDDNSPublisher : string := "ddns-publisher".
Definition EdgeRoleDHCPBridge : string := "dhcp-bridge".
Definition EdgeRolePrintRelay : string := "print-relay".
Definition EdgeRoleBlocklistPublisher : string := "blocklist-publisher".
Definition EdgeRoleAssetPublisher : string := "asset-publisher".

(** [func AllEdgeRoles() []string]. *)
Definition AllEdgeRoles : list string :=
  [EdgeRoleTelemetryAggregator; EdgeRoleOTelExporter; EdgeRoleC2Cache; EdgeRoleSignalingRelay;
   EdgeRoleSNMPDiscoverer; EdgeRoleTUFCache; EdgeRoleDDNSPublisher; EdgeRoleDHCPBridge;
   EdgeRolePrintRelay; EdgeRoleBlocklistPublisher; EdgeRoleAssetPublisher].
