(* ===== verification/TopicsSpec.v ===== *)
(** * Topic names determine what they name

    The helpers build distinct names for distinct arguments as long as tenants contain no
    dot, and the decimal conversion is exact. *)
From S2P Require Import Prelude Types Topics.
#[local] Open Scope string_scope.
#[local] Infix "++" := String.append : string_scope.

(** ** The helpers as one function *)

(** A call of a helper. *)
Inductive AgentTopic :=
  | Policy (tenantID : string)
  | Trust (tenantID : string)
  | Keys (tenantID : string)
  | Blocklists (tenantID : string)
  | Assets (tenantID : string)
  | Rules (tenantID ruleType : string)
  | Drivers (tenantID platform : string)
  | Vouchers (tenantID : string)
  | TUFMeta (channel : string)
  | FIMBaselines (tenantID pathHashHex : string)
  | OSQueryPacks (tenantID : string)
  | LiveQueryCache (tenantID : string)
  | ForensicIndex (tenantID : string)
  | ContentAdvert (tenantID : string)
  | DDNS (tenantID : string)
  | Quarantine (tenantID : string)
  | DHCP (tenantID segment : string)
  | DiscoveredAssets (tenantID : string)
  | Printers (tenantID : string)
  | ServiceState (tenantID : string)
  | InventoryDeltas (tenantID : string)
  | RevokedKeys (tenantID : string)
  | NetworkPSK (tenantID : string) (epoch : Z)
  | TrustPins (tenantID : string)
  | TLSPins (tenantID domain : string)
  | IntegrityAlert (tenantID : string)
  | Session (tenantID deviceID : string)
  | Consent (tenantID userID : string)
  | RemoteSessions (tenantID : string)
  | Tunnels (tenantID : string)
  | Health (tenantID : string)
  | Event (tenantID eventType : string)
  | ThreatSignal (tenantID : string)
  | DNSCache (tenantID : string).

Definition agentTopic (t : AgentTopic) : Topic :=
  match t with
  | Policy tenantID => AgentPolicyTopic tenantID
  | Trust tenantID => AgentTrustTopic tenantID
  | Keys tenantID => AgentKeysTopic tenantID
  | Blocklists tenantID => AgentBlocklistsTopic tenantID
  | Assets tenantID => AgentAssetsTopic tenantID
  | Rules tenantID ruleType => AgentRulesTopic tenantID ruleType
  | Drivers tenantID platform => AgentDriversTopic tenantID platform
  | Vouchers tenantID => AgentVouchersTopic tenantID
  | TUFMeta channel => AgentTUFMetaTopic channel
  | FIMBaselines tenantID pathHashHex => AgentFIMBaselinesTopic tenantID pathHashHex
  | OSQueryPacks tenantID => AgentOSQueryPacksTopic tenantID
  | LiveQueryCache tenantID => AgentLiveQueryCacheTopic tenantID
  | ForensicIndex tenantID => AgentForensicIndexTopic tenantID
  | ContentAdvert tenantID => AgentContentAdvertTopic tenantID
  | DDNS tenantID => AgentDDNSTopic tenantID
  | Quarantine tenantID => AgentQuarantineTopic tenantID
  | DHCP tenantID segment => AgentDHCPTopic tenantID segment
  | DiscoveredAssets tenantID => AgentDiscoveredAssetsTopic tenantID
  | Printers tenantID => AgentPrintersTopic tenantID
  | ServiceState tenantID => AgentServiceStateTopic tenantID
  | InventoryDeltas tenantID => AgentInventoryDeltasTopic tenantID
  | RevokedKeys tenantID => AgentRevokedKeysTopic tenantID
  | NetworkPSK tenantID epoch => AgentNetworkPSKTopic tenantID epoch
  | TrustPins tenantID => AgentTrustPinsTopic tenantID
  | TLSPins tenantID domain => AgentTLSPinsTopic tenantID domain
  | IntegrityAlert tenantID => AgentIntegrityAlertTopic tenantID
  | Session tenantID deviceID => AgentSessionTopic tenantID deviceID
  | Consent tenantID userID => AgentConsentTopic tenantID userID
  | RemoteSessions tenantID => AgentRemoteSessionsTopic tenantID
  | Tunnels tenantID => AgentTunnelsTopic tenantID
  | Health tenantID => AgentHealthTopic tenantID
  | Event tenantID eventType => AgentEventTopic tenantID eventType
  | ThreatSignal tenantID => AgentThreatSignalTopic tenantID
  | DNSCache tenantID => AgentDNSCacheTopic tenantID
  end.

(** The family of a topic: the part of its name between the first two dots. *)
Definition family (t : AgentTopic) : string :=
  match t with
  | Policy _ => "policy"
  | Trust _ => "trust"
  | Keys _ => "keys"
  | Blocklists _ => "blocklists"
  | Assets _ => "assets"
  | Rules _ _ => "rules"
  | Drivers _ _ => "drivers"
  | Vouchers _ => "vouchers"
  | TUFMeta _ => "tuf-meta"
  | FIMBaselines _ _ => "fim-baselines"
  | OSQueryPacks _ => "osquery-packs"
  | LiveQueryCache _ => "livequery-cache"
  | ForensicIndex _ => "forensic-index"
  | ContentAdvert _ => "content"
  | DDNS _ => "ddns"
  | Quarantine _ => "quarantine"
  | DHCP _ _ => "dhcp"
  | DiscoveredAssets _ => "discovered-assets"
  | Printers _ => "printers"
  | ServiceState _ => "service-state"
  | InventoryDeltas _ => "inventory-deltas"
  | RevokedKeys _ => "revoked-keys"
  | NetworkPSK _ _ => "network-psk"
  | TrustPins _ => "trust-pins"
  | TLSPins _ _ => "tls-pins"
  | IntegrityAlert _ => "integrity-alert"
  | Session _ _ => "session"
  | Consent _ _ => "consent"
  | RemoteSessions _ => "remote-sessions"
  | Tunnels _ => "tunnels"
  | Health _ => "health"
  | Event _ _ => "event"
  | ThreatSignal _ => "threat-signal"
  | DNSCache _ => "dns-cache"
  end.

(** What follows the family. *)
Definition scopeOf (t : AgentTopic) : string :=
  match t with
  | Policy tenantID => tenantID
  | Trust tenantID => tenantID
  | Keys tenantID => tenantID
  | Blocklists tenantID => tenantID
  | Assets tenantID => tenantID
  | Rules tenantID ruleType => tenantID ++ "." ++ ruleType
  | Drivers tenantID platform => tenantID ++ "." ++ platform
  | Vouchers tenantID => tenantID
  | TUFMeta channel => channel
  | FIMBaselines tenantID pathHashHex => tenantID ++ "." ++ pathHashHex
  | OSQueryPacks tenantID => tenantID
  | LiveQueryCache tenantID => tenantID
  | ForensicIndex tenantID => tenantID
  | ContentAdvert tenantID => "advert." ++ tenantID
  | DDNS tenantID => tenantID
  | Quarantine tenantID => tenantID
  | DHCP tenantID segment => tenantID ++ "." ++ segment
  | DiscoveredAssets tenantID => tenantID
  | Printers tenantID => tenantID
  | ServiceState tenantID => tenantID
  | InventoryDeltas tenantID => tenantID
  | RevokedKeys tenantID => tenantID
  | NetworkPSK tenantID epoch => tenantID ++ "." ++ uint64ToDec epoch
  | TrustPins tenantID => tenantID
  | TLSPins tenantID domain => tenantID ++ "." ++ domain
  | IntegrityAlert tenantID => tenantID
  | Session tenantID deviceID => tenantID ++ "." ++ deviceID
  | Consent tenantID userID => tenantID ++ "." ++ userID
  | RemoteSessions tenantID => tenantID
  | Tunnels tenantID => tenantID
  | Health tenantID => tenantID
  | Event tenantID eventType => tenantID ++ "." ++ eventType
  | ThreatSignal tenantID => tenantID
  | DNSCache tenantID => tenantID
  end.

(** The tenant or channel a topic is scoped to. *)
Definition tenantOf (t : AgentTopic) : string :=
  match t with
  | Policy x => x
  | Trust x => x
  | Keys x => x
  | Blocklists x => x
  | Assets x => x
  | Rules x _ => x
  | Drivers x _ => x
  | Vouchers x => x
  | TUFMeta x => x
  | FIMBaselines x _ => x
  | OSQueryPacks x => x
  | LiveQueryCache x => x
  | ForensicIndex x => x
  | ContentAdvert x => x
  | DDNS x => x
  | Quarantine x => x
  | DHCP x _ => x
  | DiscoveredAssets x => x
  | Printers x => x
  | ServiceState x => x
  | InventoryDeltas x => x
  | RevokedKeys x => x
  | NetworkPSK x _ => x
  | TrustPins x => x
  | TLSPins x _ => x
  | IntegrityAlert x => x
  | Session x _ => x
  | Consent x _ => x
  | RemoteSessions x => x
  | Tunnels x => x
  | Health x => x
  | Event x _ => x
  | ThreatSignal x => x
  | DNSCache x => x
  end.

(** ** Decimal conversion *)

(** The value of a string of decimal digits. *)
Definition parseDec (l : bytes) : Z := foldl (fun acc b => acc * 10 + (byteZ b - 48))%Z 0%Z l.

Definition digitOf (d : Z) : byte := byteOfZ (48 + d).

Lemma digitOf_value d : (0 <= d < 10)%Z -> (byteZ (digitOf d) - 48 = d)%Z.
Proof. intros Hd. unfold digitOf. rewrite byteZ_of, Z.mod_small; lia. Qed.

Lemma parseDec_acc l a :
  foldl (fun acc b => acc * 10 + (byteZ b - 48))%Z a l = (a * 10 ^ len l + parseDec l)%Z.
Proof.
  unfold parseDec, len. revert a. induction l as [|b l IH]; intros a; cbn [foldl length]; [lia|].
  rewrite IH, (IH (0 * 10 + _)%Z), Nat2Z.inj_succ, Z.pow_succ_r by lia. lia.
Qed.

Lemma parseDec_cons b l : parseDec (b :: l) = ((byteZ b - 48) * 10 ^ len l + parseDec l)%Z.
Proof. unfold parseDec at 1. cbn [foldl]. rewrite parseDec_acc. lia. Qed.

(** The loop stays inside the buffer while the value has no more digits than there is room,
    and what it has written is the value. *)
Lemma decLoop_value room v buf :
  (0 <= v < 10 ^ Z.of_nat room)%Z ->
  exists digits, decLoop room v buf = Some (digits ++ buf)%list /\
    parseDec digits = v /\ (length digits <= room)%nat /\
    Forall (fun b => 48 <= byteZ b < 58)%Z digits /\
    (v = 0%Z -> digits = []) /\
    ((0 < v)%Z -> exists b l, digits = b :: l /\ (48 < byteZ b)%Z).
Proof.
  revert v buf. induction room as [|room IH]; intros v buf Hv; cbn [decLoop].
  { change (10 ^ Z.of_nat 0)%Z with 1%Z in Hv. assert (v = 0%Z) as -> by lia. exists [].
    split_and!; [done|done|simpl; lia|done|done|lia]. }
  destruct (v >? 0)%Z eqn:E; [|].
  2: { exists []. rewrite Z.gtb_ltb in E. bool_to_prop.
       split_and!; [done|unfold parseDec; cbn; lia|simpl; lia|done|done|lia]. }
  rewrite Z.gtb_ltb in E. bool_to_prop.
  rewrite Nat2Z.inj_succ, Z.pow_succ_r in Hv by lia.
  assert (Hd : (0 <= v / 10 < 10 ^ Z.of_nat room)%Z).
  { split; [apply Z.div_pos; lia|]. apply Z.div_lt_upper_bound; lia. }
  pose proof (Z.mod_pos_bound v 10 ltac:(lia)) as Hm.
  pose proof (Z.div_mod v 10 ltac:(lia)) as Hdm. fold (digitOf (v mod 10)).
  destruct (IH (v / 10)%Z (digitOf (v mod 10) :: buf) Hd) as (ds & -> & Hp & Hl & Hall & Hzero & Hlead).
  pose proof (digitOf_value _ Hm) as Hval.
  exists (ds ++ [digitOf (v mod 10)])%list. split_and!.
  - by rewrite <- app_assoc.
  - unfold parseDec in *. rewrite foldl_app, Hp. cbn [foldl]. lia.
  - rewrite length_app. simpl. lia.
  - apply Forall_app. split; [done|]. constructor; [lia|constructor].
  - lia.
  - intros _. destruct (decide (0 < v / 10)%Z) as [Hpos|Hz].
    + destruct (Hlead Hpos) as (b & l & -> & Hb). by eexists _, _.
    + rewrite Hzero by lia. eexists _, []. split; [reflexivity|]. lia.
Qed.

Lemma uint64ToDec_facts v :
  is_u64 v ->
  exists s, uint64ToDec_checked v = Some s /\ uint64ToDec v = s /\
    parseDec (toBytes s) = v /\ (1 <= String.length s <= 20)%nat /\
    Forall (fun b => 48 <= byteZ b < 58)%Z (toBytes s) /\
    ((0 < v)%Z -> exists b l, toBytes s = b :: l /\ (48 < byteZ b)%Z).
Proof.
  intros Hv. unfold uint64ToDec, uint64ToDec_checked. destruct (v =? 0)%Z eqn:E; bool_to_prop.
  { subst. exists "0". split_and!; [done..|simpl; lia|simpl; lia| |lia].
    constructor; [vm_compute; split; [congruence|done]|constructor]. }
  destruct (decLoop_value 20 v []) as (ds & -> & Hp & Hl & Hall & _ & Hlead).
  { unfold is_u64 in Hv. change (10 ^ Z.of_nat 20)%Z with 100000000000000000000%Z. lia. }
  destruct (Hlead ltac:(unfold is_u64 in Hv; lia)) as (b & l & -> & Hb).
  exists (ofBytes (b :: l)). rewrite app_nil_r. cbn [fmap option_fmap option_map default].
  rewrite <- length_toBytes, toBytes_ofBytes. cbn [length] in *.
  split_and!; [done|done|done|lia|lia|done|]. intros _. by exists b, l.
Qed.

Lemma uint64ToDec_inj v w : is_u64 v -> is_u64 w -> uint64ToDec v = uint64ToDec w -> v = w.
Proof.
  intros (s & _ & -> & <- & _)%uint64ToDec_facts (s' & _ & -> & <- & _)%uint64ToDec_facts. congruence.
Qed.

(** ** Families and scopes *)

(** The string has no dot. *)
Definition dotless (s : string) : bool := negb (bool_decide ("."%byte ∈ toBytes s)).

Lemma toBytes_append a b : toBytes (a ++ b) = (toBytes a ++ toBytes b)%list.
Proof.
  induction a as [|c a IH]; [done|]. cbn [String.append].
  change (Strings.Ascii.byte_of_ascii c :: toBytes (a ++ b) =
          Strings.Ascii.byte_of_ascii c :: (toBytes a ++ toBytes b)%list).
  by rewrite IH.
Qed.

(** What precedes the first dot is determined. *)
Lemma first_dot (a b x y : bytes) :
  "."%byte ∉ a -> "."%byte ∉ b -> (a ++ "."%byte :: x = b ++ "."%byte :: y)%list -> a = b /\ x = y.
Proof.
  revert b. induction a as [|c a IH]; intros [|d b] Ha Hb E; injection E.
  - done.
  - intros _ <-. destruct Hb. left.
  - intros _ ->. destruct Ha. left.
  - intros Et ->. apply not_elem_of_cons in Ha as [_ Ha], Hb as [_ Hb].
    by destruct (IH b Ha Hb Et) as [-> ->].
Qed.

Lemma split_dot a b x y :
  dotless a = true -> dotless b = true -> a ++ "." ++ x = b ++ "." ++ y -> a = b /\ x = y.
Proof.
  unfold dotless. intros Ha Hb E. bool_to_prop.
  apply (f_equal toBytes) in E. rewrite !toBytes_append in E.
  apply first_dot in E as [E1%toBytes_inj E2%toBytes_inj]; [done..].
Qed.

Lemma append_cancel a x y : a ++ x = a ++ y -> x = y.
Proof. induction a as [|c a IH]; [done|]. intros [= E]. auto. Qed.

Lemma agentTopic_parts t : agentTopic t = "agent." ++ family t ++ "." ++ scopeOf t.
Proof. by destruct t. Qed.

Lemma family_dotless t : dotless (family t) = true.
Proof. by destruct t. Qed.

Lemma agentTopic_split t1 t2 :
  agentTopic t1 = agentTopic t2 -> family t1 = family t2 /\ scopeOf t1 = scopeOf t2.
Proof.
  rewrite !agentTopic_parts. intros E%append_cancel. apply split_dot; [apply family_dotless..|done].
Qed.

(** The arguments are machine integers where the code has them. *)
Definition inRange (t : AgentTopic) : Prop :=
  match t with NetworkPSK _ epoch => is_u64 epoch | _ => True end.

(** Topic names determine what they name: calls of the topic helpers whose tenant (or
    channel) contains no dot return the same name only if they are the same call, with the
    same arguments; records of one tenant's topic never reach a subscriber of another's.
    The decimal epoch in a name is exact: the conversion never leaves its 20-byte buffer,
    writes digits only, without leading zero, and parses back to the value. *)
Theorem topics_determined (t1 t2 : AgentTopic) (v : Z) :
  dotless (tenantOf t1) = true -> dotless (tenantOf t2) = true -> inRange t1 -> inRange t2 ->
  is_u64 v ->
  (agentTopic t1 = agentTopic t2 -> t1 = t2) /\
  agentTopic t1 <> FleetPeerTopic /\ agentTopic t1 <> FleetContentAdvertTopic /\
  exists s, uint64ToDec_checked v = Some s /\ parseDec (toBytes s) = v /\
    (1 <= String.length s <= 20)%nat /\ Forall (fun b => 48 <= byteZ b < 58)%Z (toBytes s) /\
    ((0 < v)%Z -> exists b l, toBytes s = b :: l /\ (48 < byteZ b)%Z).
Proof.
  intros Hd1 Hd2 Hr1 Hr2 Hv. split.
  { intros [Ef Es]%agentTopic_split.
    destruct t1, t2; cbn [family] in Ef; try discriminate Ef; clear Ef; cbn [scopeOf] in Es;
      try (apply append_cancel in Es); try (by f_equal);
      cbn [tenantOf] in Hd1, Hd2; destruct (split_dot _ _ _ _ Hd1 Hd2 Es) as [-> Ea];
      f_equal; try exact Ea.
    apply uint64ToDec_inj; [exact Hr1|exact Hr2|exact Ea]. }
  split; [rewrite agentTopic_parts; discriminate|].
  split; [rewrite agentTopic_parts; discriminate|].
  destruct (uint64ToDec_facts v Hv) as (s & E & _ & Hrest). by exists s.
Qed.

Lemma topics_determined_witness :
  agentTopic (Rules "acme" "yara") <> agentTopic (Rules "acme" "capa") /\
  uint64ToDec_checked 18446744073709551615 = Some "18446744073709551615".
Proof.
  destruct (topics_determined (Rules "acme" "yara") (Rules "acme" "capa") 18446744073709551615)
    as (Hinj & _); [reflexivity..|exact I|exact I|machine|].
  split; [|vm_compute; reflexivity]. intros E%Hinj. discriminate E.
Defined.

(** A dot in a tenant name breaks the separation: two tenants share a topic. *)
Example tenants_share_topic :
  agentTopic (TLSPins "acme" "eu.example") = agentTopic (TLSPins "acme.eu" "example").
Proof. reflexivity. Qed.

Example edge_roles_distinct : NoDup AllEdgeRoles.
Proof. apply (bool_decide_unpack _). vm_compute. exact I. Qed.
