(* ===== verification/Content.v ===== *)
(** * Content (src/manifest.go, src/content_impl.go)

    Chunking and signed manifests, the advert index, and fetching. The protobuf messages of
    this layer go through a codec of their own. What a peer answers to a request is an
    input: any answer, or none before the deadline. *)
From S2P Require Import Prelude Types Crypto Hlc Sig Crdt Gate Peer Codec Engine Merkle Node Topics.

(** ** Messages *)

(** [pb.Manifest] and [pb.ContentAdvert], the fields the code uses. *)
Record Manifest := mkManifest {
  mf_sig : manifestSig;
  mf_Sig : bytes
}.

Record ContentAdvert := mkAdvert {
  ad_Hash : bytes;
  ad_Holder : bytes;
  ad_ExpiresAt : Z;
  ad_Size : Z
}.

(** [proto.Marshal] and [proto.Unmarshal] on these messages: they fail on strings that are
    not UTF-8, and on malformed input. *)
Class ContentProto := {
  marshalManifest : Manifest -> option bytes;
  unmarshalManifest : bytes -> option Manifest;
  marshalAdvert : ContentAdvert -> option bytes;
  unmarshalAdvert : bytes -> option ContentAdvert
}.

Class ContentProtoLaws `{ContentProto} := {
  marshalManifest_encodable : forall m,
    validString (m_Filename (mf_sig m)) = true -> validString (m_Mime (mf_sig m)) = true ->
    is_Some (marshalManifest m);
  unmarshal_marshalManifest : forall m b,
    marshalManifest m = Some b -> unmarshalManifest b = Some m;
  marshalAdvert_encodable : forall a, is_Some (marshalAdvert a);
  unmarshal_marshalAdvert : forall a b, marshalAdvert a = Some b -> unmarshalAdvert b = Some a
}.

(** ** Manifests *)
Section manifests.
Context `{Sha256} `{Ed25519} `{ContentProto}.

(** The loop of [ChunkBlob] from index [i]. With an [int] of 64 bits the sums of the code do
    not wrap: the length of a slice in memory is far below 2^63 - 2^32, and [chunkSize] is a
    uint32. *)
Fixpoint chunkLoop (fuel : nat) (i : Z) (body : bytes) (chunkSize : Z) : list bytes :=
  match fuel with
  | O => []
  | S fuel' =>
      if negb (i <? len body) then [] else
      let end_ := if i + chunkSize >? len body then len body else i + chunkSize in
      take (Z.to_nat (end_ - i)) (drop (Z.to_nat i) body)
        :: chunkLoop fuel' (i + chunkSize) body chunkSize
  end.

(** [func ChunkBlob(body []byte, chunkSize uint32) ([][32]byte, [][]byte)]. *)
Definition ChunkBlob (body : bytes) (chunkSize : Z) : list bytes * list bytes :=
  if chunkSize =? 0 then ([], []) else
  let chunks := chunkLoop (length body) 0 body chunkSize in
  (sha256 <$> chunks, chunks).

(** [func BuildSignedManifest(body, chunkSize, filename, mime, priv)] at time [now]; [None]
    is an encoding error. *)
Definition BuildSignedManifest (now : Z) (body : bytes) (chunkSize : Z) (filename mime : string)
    (priv : bytes) : option (bytes * bytes * list bytes * list bytes) :=
  let chunkSize := if chunkSize =? 0 then 2 ^ 20 else chunkSize in
  let '(chunkHashes, chunks) := ChunkBlob body chunkSize in
  let publisher := nodeIDFromPub (ed_public priv) in
  let m := mkManifestSig (sha256 body) (u64 (len body)) chunkSize chunkHashes filename mime now
             (toBytes publisher) in
  match marshalManifest (mkManifest m (ed_sign priv (signableManifestBytes m))) with
  | Some b => Some (b, sha256 b, chunkHashes, chunks)
  | None => None
  end.

(** [func verifyContentHash(hash [32]byte, body []byte) bool]. *)
Definition verifyContentHash (hash body : bytes) : bool := bool_decide (sha256 body = hash).

(** [func verifyManifestSig(m *pb.Manifest) bool]. *)
Definition verifyManifestSig (m : Manifest) : bool :=
  if len (mf_Sig m) =? 0 then false else
  match pubFromNodeID (ofBytes (m_Publisher (mf_sig m))) with
  | None => false
  | Some pub => ed_verify pub (signableManifestBytes (mf_sig m)) (mf_Sig m)
  end.
End manifests.

(** ** The advert index *)

(** [contentTopicImpl.holders]. *)
Abbreviation holderIndex := (gmap bytes (gmap NodeID Z)).

(** [func (c *contentTopicImpl) onAdvertRecord(r Record) error] at time [now]. *)
Definition onAdvertRecord `{ContentProto} (now : Z) (idx : holderIndex) (r : Record_) : holderIndex :=
  if r_Tombstone r then idx else
  match unmarshalAdvert (r_Body r) with
  | None => idx
  | Some advert =>
      if negb (len (ad_Hash advert) =? 32) then idx else
      let hash := ad_Hash advert in
      let holder := ofBytes (ad_Holder advert) in
      let holder := if String.eqb holder "" then r_NodeID r else holder in
      if ad_ExpiresAt advert <=? now then
        match idx !! hash with
        | None => idx
        | Some m =>
            let m := delete holder m in
            if mlen m =? 0 then delete hash idx else <[hash := m]> idx
        end
      else
        let m := default ∅ (idx !! hash) in
        <[hash := <[holder := ad_ExpiresAt advert]> m]> idx
  end.

(** [func (c *contentTopicImpl) Holders(hash [32]byte) []NodeID] at time [now]. *)
Definition Holders `{MapOrder} (now : Z) (idx : holderIndex) (hash : bytes)
    : holderIndex * list NodeID :=
  match idx !! hash with
  | None => (idx, [])
  | Some m =>
      let kept := filter (fun e => (e.2 <=? now) = false) m in
      let out := (List.filter (fun e => negb (e.2 <=? now)) (map_order m)).*1 in
      (if mlen kept =? 0 then delete hash idx else <[hash := kept]> idx, out)
  end.

(** ** Fetching *)

(** [ContentProvider]: what the application holds. *)
Record ContentProvider := mkProvider {
  Has : bytes -> bool;
  Read : bytes -> bytes + string;
  Size : bytes -> option Z
}.

(** The errors of a fetch: a sentinel of the package, the text a peer or the code gives, or
    the error of the context. *)
Inductive fetchError := Known (e : Err) | Text (s : string) | CtxErr.

(** What comes of request number [id]: a body, an error (of the transport, or sent by the
    peer), or the end of the context. *)
Inductive reply := Body (b : bytes) | Failed (e : string) | Expired.

(** [contentTopicImpl]; [c_sent] lists the requests sent, in order. *)
Record content := mkContent {
  c_self : NodeID;
  c_provider : option ContentProvider;
  c_holders : holderIndex;
  c_reqCount : Z;
  c_sent : list (NodeID * Z * bytes)
}.

(** What a fetch depends on, as a function of the number of the latest request: the time,
    how a request of a hash from a holder ends, the adverts delivered while it waits, and
    whether the context of the fetch, or the one given to [FetchBlob], is over after it. *)
Record world := mkWorld {
  w_now : Z -> Z;
  w_answer : NodeID -> Z -> bytes -> reply;
  w_adverts : Z -> list Record_;
  w_over : Z -> bool;
  w_callerOver : Z -> bool
}.

Definition set_holders (c : content) idx : content :=
  mkContent (c_self c) (c_provider c) idx (c_reqCount c) (c_sent c).

Section fetching.
Context `{Sha256} `{Ed25519} `{ContentProto} `{MapOrder} (w : world).

(** [func (c *contentTopicImpl) requestFromHolder(ctx, holder, hash)]. *)
Definition requestFromHolder (c : content) (holder : NodeID) (hash : bytes)
    : content * (bytes + fetchError) :=
  let reqID := u64 (c_reqCount c + 1) in
  let idx := foldl (onAdvertRecord (w_now w reqID)) (c_holders c) (w_adverts w reqID) in
  let c := mkContent (c_self c) (c_provider c) idx reqID
             (c_sent c ++ [(holder, reqID, hash)]) in
  (c, match w_answer w holder reqID hash with
      | Body b => inl b
      | Failed e => inr (Text e)
      | Expired => inr CtxErr
      end).

(** The local short cut of [Fetch]. *)
Definition fetchLocal (c : content) (hash : bytes) : option bytes :=
  match c_provider c with
  | Some p =>
      if Has p hash then
        match Read p hash with
        | inl body => if verifyContentHash hash body then Some body else None
        | inr _ => None
        end
      else None
  | None => None
  end.

(** The loop of [Fetch] over the holders. *)
Fixpoint fetchLoop (c : content) (hash : bytes) (holders : list NodeID)
    (lastErr : option fetchError) : content * (bytes + fetchError) :=
  match holders with
  | [] => (c, inr (default (Known ErrNoHolders) lastErr))
  | holder :: rest =>
      if String.eqb holder (c_self c) then
        match fetchLocal c hash with
        | Some body => (c, inl body)
        | None => fetchLoop c hash rest lastErr
        end
      else
        let '(c, res) := requestFromHolder c holder hash in
        match res with
        | inl body =>
            if verifyContentHash hash body then (c, inl body)
            else if w_over w (c_reqCount c) then (c, inr CtxErr)
            else fetchLoop c hash rest (Some (Known ErrHashMismatch))
        | inr err =>
            if w_over w (c_reqCount c) then (c, inr CtxErr)
            else fetchLoop c hash rest (Some err)
        end
  end.

(** [func (c *contentTopicImpl) Fetch(ctx, hash [32]byte) ([]byte, error)]. *)
Definition Fetch (c : content) (hash : bytes) : content * (bytes + fetchError) :=
  let '(idx, holders) := Holders (w_now w (c_reqCount c)) (c_holders c) hash in
  let c := set_holders c idx in
  match holders with
  | [] => (c, inr (Known ErrNoHolders))
  | _ => fetchLoop c hash holders None
  end.

(** What [FetchBlob] has done so far: the writes to [out], the calls of [progress]. *)
Record blobOut := mkBlob { b_written : bytes; b_received : Z; b_progress : list (Z * Z) }.

(** An [io.Writer]: the second bytes are written after the first, either all of them, or as
    many as the number says, with an error. *)
Definition writer : Type := bytes -> bytes -> option (nat * string).

(** The loop of [FetchBlob] over the chunk hashes. The running digest is that of what has
    been written, as every write before has succeeded. *)
Fixpoint blobLoop (c : content) (total : Z) (out : writer)
    (chunks : list bytes) (o : blobOut) : content * blobOut * option fetchError :=
  match chunks with
  | [] => (c, o, None)
  | chunkHash :: rest =>
      if w_callerOver w (c_reqCount c) then (c, o, Some CtxErr) else
      if negb (len chunkHash =? 32)
      then (c, o, Some (Text "swarm: manifest chunk hash length invalid")) else
      let '(c, res) := Fetch c chunkHash in
      match res with
      | inr err => (c, o, Some err)
      | inl body =>
          match out (b_written o) body with
          | Some (n, e) =>
              (c, mkBlob (b_written o ++ take n body) (b_received o) (b_progress o), Some (Text e))
          | None =>
              let received := u64 (b_received o + u64 (len body)) in
              blobLoop c total out rest
                (mkBlob (b_written o ++ body) received (b_progress o ++ [(received, total)]))
          end
      end
  end.

(** [func (c *contentTopicImpl) FetchBlob(ctx, manifestHash, out, progress) error]: [None] is
    a nil error, or a nil [out]. *)
Definition FetchBlob (c : content) (manifestHash : bytes) (out : option writer)
    : content * blobOut * option fetchError :=
  let o := mkBlob [] 0 [] in
  match out with
  | None => (c, o, Some (Text "swarm: FetchBlob requires non-nil out writer"))
  | Some out =>
  let '(c, res) := Fetch c manifestHash in
  match res with
  | inr err => (c, o, Some err)
  | inl manifestBody =>
      match unmarshalManifest manifestBody with
      | None => (c, o, Some (Text "swarm: malformed manifest body"))
      | Some m =>
          if negb (verifyManifestSig m)
          then (c, o, Some (Text "swarm: manifest signature verification failed")) else
          if negb (len (m_BlobHash (mf_sig m)) =? 32)
          then (c, o, Some (Text "swarm: manifest blob_hash length invalid")) else
          let '(c, o, err) :=
            blobLoop c (m_TotalSize (mf_sig m)) out (m_Chunks (mf_sig m)) o in
          match err with
          | Some _ => (c, o, err)
          | None =>
              if bool_decide (sha256 (b_written o) = m_BlobHash (mf_sig m)) then (c, o, None)
              else (c, o, Some (Known ErrHashMismatch))
          end
      end
  end
  end.

(** [func (c *contentTopicImpl) handleFetchRequest(from, req)]: the response. *)
Definition handleFetchRequest (c : content) (reqID : Z) (hash : bytes) : Frame :=
  if negb (len hash =? 32) then Frame_FetchResp reqID [] "invalid hash length" else
  match c_provider c with
  | None => Frame_FetchResp reqID [] "no local provider"
  | Some p =>
      if negb (Has p hash) then Frame_FetchResp reqID [] "not held" else
      match Read p hash with
      | inl body => Frame_FetchResp reqID body ""
      | inr err => Frame_FetchResp reqID [] err
      end
  end.

(** What the requester makes of a response. *)
Definition replyOf (f : Frame) : reply :=
  match f with
  | Frame_FetchResp _ body err => if String.eqb err "" then Body body else Failed err
  | _ => Expired
  end.

(** The adverts of [Announce] and [Withdraw], and their publication. *)
Definition announceAdvert (c : content) (now : Z) (hash : bytes) : ContentAdvert :=
  let size := match c_provider c with
              | Some p => default 0 (Size p hash)
              | None => 0
              end in
  mkAdvert hash (toBytes (c_self c)) (i64 (now + 6 * 3600 * Second)) size.
Definition withdrawAdvert (c : content) (now : Z) (hash : bytes) : ContentAdvert :=
  mkAdvert hash (toBytes (c_self c)) (i64 (now - 1)) 0.
End fetching.

Section announcing.
Context `{Sha256} `{Ed25519} `{Proto} `{ContentProto} `{MapOrder}.

(** [func (c *contentTopicImpl) Announce(hash [32]byte) error], at the real time [realNow]. *)
Definition Announce (clk : clock) (realNow : Z) (c : content) (n : nodeImpl) (hash : bytes)
    : nodeImpl * list effect * option outcome :=
  match marshalAdvert (announceAdvert c realNow hash) with
  | None => (n, [], None)
  | Some body => let '(n, out, res) := Publish clk n FleetContentAdvertTopic body in (n, out, Some res)
  end.

(** [func (c *contentTopicImpl) Withdraw(hash [32]byte) error]. *)
Definition Withdraw (clk : clock) (realNow : Z) (c : content) (n : nodeImpl) (hash : bytes)
    : nodeImpl * list effect * option outcome :=
  match marshalAdvert (withdrawAdvert c realNow hash) with
  | None => (n, [], None)
  | Some body => let '(n, out, res) := Publish clk n FleetContentAdvertTopic body in (n, out, Some res)
  end.
End announcing.

(** ** A codec to evaluate with

    The fields of a message one after the other, as in [ToyProto]. *)
Module ToyContent.
Import ToyProto.

Definition manifestFields (m : Manifest) : list bytes :=
  let s := mf_sig m in
  [m_BlobHash s; Zbytes (m_TotalSize s); Zbytes (m_ChunkSize s); toBytes (m_Filename s);
   toBytes (m_Mime s); Zbytes (m_PublishedAt s); m_Publisher s; mf_Sig m] ++ m_Chunks s.

Definition ofManifestFields (l : list bytes) : option Manifest :=
  match l with
  | h :: t :: c :: f :: m :: a :: p :: s :: chunks =>
      Some (mkManifest (mkManifestSig h (bytesZ t) (bytesZ c) chunks (ofBytes f) (ofBytes m)
                          (bytesZ a) p) s)
  | _ => None
  end.

Definition advertFields (a : ContentAdvert) : list bytes :=
  [ad_Hash a; ad_Holder a; Zbytes (ad_ExpiresAt a); Zbytes (ad_Size a)].

Definition ofAdvertFields (l : list bytes) : option ContentAdvert :=
  match l with
  | [h; o; e; s] => Some (mkAdvert h o (bytesZ e) (bytesZ s))
  | _ => None
  end.

Definition codec : ContentProto :=
  {| marshalManifest := fun m =>
       if validString (m_Filename (mf_sig m)) && validString (m_Mime (mf_sig m))
       then Some (mjoin (writeField <$> manifestFields m)) else None;
     unmarshalManifest := fun b => ofManifestFields (readFields [] b);
     marshalAdvert := fun a => Some (mjoin (writeField <$> advertFields a));
     unmarshalAdvert := fun b => ofAdvertFields (readFields [] b) |}.

Lemma read_manifest m : ofManifestFields (manifestFields m) = Some m.
Proof.
  destruct m as [[] sg]. cbn -[ofBytes toBytes Zbytes bytesZ].
  by rewrite !bytesZ_Zbytes, !ofBytes_toBytes.
Qed.

Lemma read_advert a : ofAdvertFields (advertFields a) = Some a.
Proof.
  destruct a. cbn -[Zbytes bytesZ]. by rewrite !bytesZ_Zbytes.
Qed.

#[export] Instance laws : @ContentProtoLaws codec.
Proof.
  split.
  - intros m E1 E2. cbn [marshalManifest codec]. by rewrite E1, E2.
  - intros m b. cbn [marshalManifest unmarshalManifest codec]. destruct (_ && _); [|done].
    intros <-%(inj Some). by rewrite (read_write (manifestFields m)), read_manifest.
  - done.
  - intros a b. cbn [marshalAdvert unmarshalAdvert codec]. intros <-%(inj Some).
    by rewrite (read_write (advertFields a)), read_advert.
Defined.
End ToyContent.
