(* ===== verification/ContentSpec.v ===== *)
(** * What publishing and fetching content guarantee

    [BuildSignedManifest] splits a blob into chunks that reassemble to it, under a manifest
    that verifies. [FetchBlob] never writes a byte that the manifest does not vouch for,
    whatever the peers answer, and it succeeds as soon as one live holder of every piece is
    honest. *)
From S2P Require Import Prelude Types Crypto Hlc Sig Crdt Gate Peer Codec Engine Merkle Node.
From S2P Require Import Content Samples.

(** ** Chunking *)
Section chunking.
Context (body : bytes) (cs : Z) (Hcs : 0 < cs).

(** The chunk that starts at offset [i]. *)
Definition piece (i : Z) : bytes := take (Z.to_nat cs) (drop (Z.to_nat i) body).

Lemma chunk_piece i :
  0 <= i < len body ->
  take (Z.to_nat ((if i + cs >? len body then len body else i + cs) - i)) (drop (Z.to_nat i) body)
  = piece i.
Proof using Hcs.
  intros Hi. unfold piece, len in *. destruct (_ >? _) eqn:E; [|f_equal; lia].
  rewrite Z.gtb_ltb in E. bool_to_prop. rewrite !take_ge; rewrite ?length_drop; [done|lia..].
Qed.

Lemma piece_drop i : 0 <= i -> piece i ++ drop (Z.to_nat (i + cs)) body = drop (Z.to_nat i) body.
Proof using Hcs.
  intros Hi. unfold piece. rewrite <- (take_drop (Z.to_nat cs) (drop (Z.to_nat i) body)) at 2.
  rewrite drop_drop. do 2 f_equal. lia.
Qed.

Lemma chunkLoop_step fuel i :
  0 <= i < len body ->
  chunkLoop (S fuel) i body cs = piece i :: chunkLoop fuel (i + cs) body cs.
Proof using Hcs.
  intros Hi. cbn [chunkLoop]. destruct (i <? len body) eqn:E; bool_to_prop; [|lia].
  cbn [negb]. by rewrite chunk_piece.
Qed.

Lemma chunkLoop_end fuel i : len body <= i -> chunkLoop fuel i body cs = [].
Proof using.
  destruct fuel; [done|]. cbn [chunkLoop]. intros. destruct (i <? len body) eqn:E; [|done].
  bool_to_prop. lia.
Qed.

Lemma chunkLoop_join fuel i :
  0 <= i -> len body - i <= Z.of_nat fuel -> mjoin (chunkLoop fuel i body cs) = drop (Z.to_nat i) body.
Proof using Hcs.
  revert i. induction fuel as [|fuel IH]; intros i Hi Hf.
  - rewrite drop_ge; [done|]. unfold len in Hf. lia.
  - destruct (decide (i < len body)).
    + rewrite chunkLoop_step by lia.
      change (piece i ++ mjoin (chunkLoop fuel (i + cs) body cs) = drop (Z.to_nat i) body).
      rewrite IH by lia. by apply piece_drop.
    + rewrite chunkLoop_end by lia. rewrite drop_ge; [done|]. unfold len in *. lia.
Qed.

Lemma chunkLoop_lookup fuel i k c :
  0 <= i -> chunkLoop fuel i body cs !! k = Some c ->
  c = piece (i + Z.of_nat k * cs) /\ c <> [].
Proof using Hcs.
  revert i k. induction fuel as [|fuel IH]; intros i k Hi; [done|].
  destruct (decide (i < len body)); [|by rewrite chunkLoop_end by lia].
  rewrite chunkLoop_step by lia. destruct k as [|k].
  - intros [= <-]. split; [f_equal; lia|]. intros E%(f_equal length).
    unfold piece, len in *. rewrite length_take, length_drop in E. simpl in E. lia.
  - intros E. apply IH in E as [-> Hne]; [|lia]. split; [f_equal; lia|].
    done.
Qed.

Lemma chunkLoop_count fuel i :
  0 <= i -> len body - i <= Z.of_nat fuel -> i <= len body ->
  len (chunkLoop fuel i body cs) = (len body - i + cs - 1) / cs.
Proof using Hcs.
  revert i. induction fuel as [|fuel IH]; intros i Hi Hf Hl.
  - replace (len body - i) with 0 by lia. symmetry. apply Z.div_small. lia.
  - destruct (decide (i < len body)).
    + rewrite chunkLoop_step by lia. unfold len at 1. cbn [length]. rewrite Nat2Z.inj_succ.
      change (Z.of_nat (length ?l)) with (len l).
      destruct (decide (i + cs <= len body)).
      * rewrite IH by lia. replace (len body - i + cs - 1) with
          (len body - (i + cs) + cs - 1 + 1 * cs) by lia. rewrite Z.div_add by lia. lia.
      * rewrite chunkLoop_end by lia. apply Z.div_unique with (len body - i - 1); unfold len in *; cbn; lia.
    + replace i with (len body) by lia. rewrite chunkLoop_end by lia. symmetry.
      apply Z.div_small. lia.
Qed.
End chunking.

(** ** Manifests *)
Section manifests.
Context `{Sha256Laws} `{Ed25519Laws} `{ContentProtoLaws}.

(** The manifest of [BuildSignedManifest], before it is encoded. *)
Definition manifestOf (now : Z) (body : bytes) (cs : Z) (filename mime : string) (priv : bytes)
    : Manifest :=
  let cs := if cs =? 0 then 2 ^ 20 else cs in
  let m := mkManifestSig (sha256 body) (u64 (len body)) cs (ChunkBlob body cs).1 filename mime
             now (toBytes (nodeIDFromPub (ed_public priv))) in
  mkManifest m (ed_sign priv (signableManifestBytes m)).

Lemma BuildSignedManifest_eq now body cs fn mime priv mb mh hashes chunks :
  BuildSignedManifest now body cs fn mime priv = Some (mb, mh, hashes, chunks) ->
  marshalManifest (manifestOf now body cs fn mime priv) = Some mb /\ mh = sha256 mb /\
  ChunkBlob body (if cs =? 0 then 2 ^ 20 else cs) = (hashes, chunks).
Proof.
  unfold BuildSignedManifest, manifestOf. destruct (ChunkBlob _ _) as [hs cks] eqn:E.
  cbv zeta. cbn [fst]. destruct (marshalManifest _); [|done]. by intros [= -> <- -> ->].
Qed.

Lemma manifestOf_verifies now body cs fn mime priv :
  ed_key priv -> verifyManifestSig (manifestOf now body cs fn mime priv) = true.
Proof.
  intros Hk. unfold verifyManifestSig, manifestOf. cbn [mf_Sig mf_sig m_Publisher].
  unfold len. rewrite ed_sign_length by done. cbn [Z.of_nat Z.eqb].
  rewrite ofBytes_toBytes, pub_of_nodeID by (by apply ed_public_length). simpl.
  by apply ed_verify_sign.
Qed.

Lemma ChunkBlob_spec body cs hashes chunks :
  0 < cs -> ChunkBlob body cs = (hashes, chunks) ->
  mjoin chunks = body /\ hashes = sha256 <$> chunks /\
  len chunks = (len body + cs - 1) / cs /\
  (forall k c, chunks !! k = Some c -> c = piece body cs (Z.of_nat k * cs) /\ c <> []).
Proof.
  intros Hcs. unfold ChunkBlob. destruct (cs =? 0) eqn:E; bool_to_prop; [lia|].
  intros [= <- <-]. repeat apply conj; [|done|..].
  - by rewrite chunkLoop_join by (unfold len; lia).
  - rewrite chunkLoop_count by (unfold len; lia). by rewrite Z.sub_0_r.
  - intros k c Hc. by apply chunkLoop_lookup in Hc.
Qed.

(** C34 [BuildSignedManifest] succeeds on valid file names. The chunks it returns reassemble
    to the body; each but the last has the chunk size and none is empty; there are as many
    as the code reserves; the hashes are those of the chunks, in order. The encoded manifest
    decodes to one that lists these hashes, names the digest and size of the body and the
    signer, and passes the verification of [FetchBlob]; its digest is the address
    returned. *)
Theorem BuildSignedManifest_spec now body cs fn mime priv :
  ed_key priv -> 0 <= cs < 2 ^ 32 -> len body < 2 ^ 63 ->
  validString fn = true -> validString mime = true ->
  let size := if cs =? 0 then 2 ^ 20 else cs in
  exists mb hashes chunks m,
    BuildSignedManifest now body cs fn mime priv = Some (mb, sha256 mb, hashes, chunks) /\
    mjoin chunks = body /\ hashes = sha256 <$> chunks /\
    len chunks = (len body + size - 1) / size /\
    (forall k c, chunks !! k = Some c ->
       c <> [] /\ len c <= size /\ (S k < length chunks -> len c = size)%nat) /\
    unmarshalManifest mb = Some m /\ verifyManifestSig m = true /\
    m_Chunks (mf_sig m) = hashes /\ m_BlobHash (mf_sig m) = sha256 body /\
    m_TotalSize (mf_sig m) = len body /\ m_ChunkSize (mf_sig m) = size /\
    pubFromNodeID (ofBytes (m_Publisher (mf_sig m))) = Some (ed_public priv).
Proof.
  intros Hk Hcs Hb Hfn Hmime size.
  destruct (ChunkBlob body size) as [hashes chunks] eqn:E.
  assert (Hsize : 0 < size) by (unfold size; destruct (cs =? 0) eqn:?; bool_to_prop; lia).
  destruct (marshalManifest_encodable (manifestOf now body cs fn mime priv)) as [mb Hmb];
    [done..|].
  exists mb, hashes, chunks, (manifestOf now body cs fn mime priv).
  destruct (ChunkBlob_spec _ _ _ _ Hsize E) as (Hj & Hh & Hc & Hp).
  split.
  { unfold BuildSignedManifest. fold size. rewrite E. unfold manifestOf in Hmb. fold size in Hmb.
    rewrite E in Hmb. cbn [fst] in Hmb. by rewrite Hmb. }
  repeat apply conj; try done.
  - intros k c Hk'. pose proof (lookup_lt_Some _ _ _ Hk') as Hlt.
    destruct (Hp k c Hk') as [-> Hne]. repeat apply conj; [done|..].
    + unfold piece, len. rewrite length_take. lia.
    + intros HS. destruct (lookup_lt_is_Some_2 chunks (S k) HS) as [c' Hc'].
      destruct (Hp _ _ Hc') as [-> Hne']. unfold piece, len in *. rewrite length_take, length_drop.
      enough (Z.of_nat (S k) * size < len body) by (unfold len in *; lia).
      destruct (decide (Z.of_nat (S k) * size < len body)); [done|]. destruct Hne'.
      rewrite drop_ge; [by rewrite take_nil|]. unfold len in *. lia.
  - by apply unmarshal_marshalManifest.
  - by apply manifestOf_verifies.
  - unfold manifestOf. fold size. by rewrite E.
  - unfold manifestOf. cbn. apply u64_small. unfold is_u64, len in *. lia.
  - unfold manifestOf. cbn [mf_sig m_Publisher]. rewrite ofBytes_toBytes.
    apply pub_of_nodeID. by apply ed_public_length.
Qed.
End manifests.

(** ** Fetching *)
Section fetching.
Context `{Sha256} `{Ed25519} `{ContentProto} `{MapOrder} (w : world).

(** Where the bytes of a fetch can come from: an answer to a request, or the local
    provider. *)
Definition source (c : content) (hash b : bytes) : Prop :=
  (exists p id, w_answer w p id hash = Body b) \/
  (exists prov, c_provider c = Some prov /\ Read prov hash = inl b).

(** What no fetch changes. *)
Definition same_site (c c' : content) : Prop :=
  c_self c' = c_self c /\ c_provider c' = c_provider c.

Lemma same_site_refl c : same_site c c.
Proof. done. Qed.
Lemma same_site_trans c1 c2 c3 : same_site c1 c2 -> same_site c2 c3 -> same_site c1 c3.
Proof. unfold same_site. intros [-> ->] [-> ->]. done. Qed.
Lemma source_site c c' hash b : same_site c c' -> source c' hash b -> source c hash b.
Proof. unfold source. by intros [_ ->]. Qed.

Lemma fetchLocal_sound c hash b :
  fetchLocal c hash = Some b -> sha256 b = hash /\ source c hash b.
Proof.
  unfold fetchLocal, verifyContentHash. destruct (c_provider c) as [p|] eqn:Ep; [|done].
  destruct (Has p hash); [|done]. destruct (Read p hash) eqn:Er; [|done].
  case_bool_decide; [|done]. intros [= <-]. split; [done|]. right. by exists p.
Qed.

Lemma fetchLoop_sound c hash holders lastErr c' res :
  fetchLoop w c hash holders lastErr = (c', res) ->
  same_site c c' /\ forall b, res = inl b -> sha256 b = hash /\ source c hash b.
Proof.
  revert c lastErr. induction holders as [|p rest IH]; intros c lastErr; cbn [fetchLoop].
  { intros [= <- <-]. split; [done|]. intros b. by destruct lastErr. }
  destruct (String.eqb p (c_self c)).
  - destruct (fetchLocal c hash) as [b|] eqn:El.
    + intros [= <- <-]. split; [done|]. intros b' [= <-]. by apply fetchLocal_sound.
    + by apply IH.
  - unfold requestFromHolder. cbv zeta.
    set (c1 := mkContent _ _ _ _ _). assert (Hs1 : same_site c c1) by done.
    destruct (w_answer w p _ hash) as [b|e|] eqn:Ea; cbn [verifyContentHash].
    1: unfold verifyContentHash; case_bool_decide.
    1: { intros [= <- <-]. split; [done|]. intros b' [= <-]. split; [done|]. left. eauto. }
    all: destruct (w_over w _); [by intros [= <- <-]|].
    all: intros [Hs Hb]%IH; split; [done|]; intros b' ->.
    all: destruct (Hb b' eq_refl) as [? Hsrc]; split; [done|exact (source_site _ _ _ _ Hs1 Hsrc)].
Qed.

Lemma Fetch_sound c hash c' res :
  Fetch w c hash = (c', res) ->
  same_site c c' /\ forall b, res = inl b -> sha256 b = hash /\ source c hash b.
Proof.
  unfold Fetch. destruct (Holders _ _ _) as [idx holders]. destruct holders.
  - by intros [= <- <-].
  - apply (fetchLoop_sound (set_holders c idx)).
Qed.

(** Nothing, or the first bytes of a body whose digest is the chunk hash after those. *)
Definition partial (bodies chunks : list bytes) (part : bytes) : Prop :=
  part = [] \/
  exists b, part `prefix_of` b /\ (sha256 <$> bodies ++ [b]) `prefix_of` chunks.

Lemma blobLoop_sound c total out chunks o c' o' err :
  blobLoop w c total out chunks o = (c', o', err) ->
  exists bodies part,
    b_written o' = b_written o ++ mjoin bodies ++ part /\
    (sha256 <$> bodies) `prefix_of` chunks /\ partial bodies chunks part /\
    (err = None -> part = [] /\ sha256 <$> bodies = chunks) /\
    Forall (fun b => source c (sha256 b) b) bodies.
Proof.
  revert c o. induction chunks as [|h rest IH]; intros c o; cbn [blobLoop].
  { intros [= <- <- <-]. exists [], []. cbn. rewrite app_nil_r. split_and!; [done|done|by left|done..]. }
  assert (Hnone : forall e, exists (bodies : list bytes) part,
    b_written o = b_written o ++ mjoin bodies ++ part /\
    (sha256 <$> bodies) `prefix_of` h :: rest /\ partial bodies (h :: rest) part /\
    (Some e = @None fetchError -> part = [] /\ sha256 <$> bodies = h :: rest) /\
    Forall (fun b => source c (sha256 b) b) bodies).
  { intros e. exists [], []. cbn. rewrite app_nil_r.
    split_and!; [done|apply prefix_nil|by left|done..]. }
  destruct (w_callerOver w _); [intros [= <- <- <-]; apply Hnone|].
  destruct (negb _); [intros [= <- <- <-]; apply Hnone|].
  destruct (Fetch w c h) as [c1 res] eqn:Ef. apply Fetch_sound in Ef as [Hs Hb].
  destruct res as [b|e]; [|intros [= <- <- <-]; apply Hnone].
  destruct (Hb b eq_refl) as [<- Hsrc]. destruct (out _ _) as [[n e]|].
  { intros [= <- <- <-]. exists [], (take n b). split_and!; [done|apply prefix_nil| |done..].
    right. exists b. split; [apply prefix_take|]. cbn. apply prefix_cons, prefix_nil. }
  intros (bodies & part & Ew & Hp & Hpart & Hfull & Hall)%IH.
  exists (b :: bodies), part. cbn [b_written] in Ew. split_and!.
  - rewrite Ew. cbn. by rewrite <- !app_assoc.
  - by apply prefix_cons.
  - destruct Hpart as [->|(x & Hx & Hpre)]; [by left|right]. exists x. split; [done|].
    by apply prefix_cons.
  - intros ->. destruct (Hfull eq_refl) as [-> Hf]. cbn. by rewrite Hf.
  - constructor; [done|]. eapply Forall_impl; [exact Hall|]. cbv beta. intros.
    by eapply source_site.
Qed.

(** C10 [FetchBlob] against any peers and any writer. Whatever is written to [out], even by a
    fetch that fails, are whole bodies whose digests are the first chunk hashes of a manifest
    with the requested digest and a valid signature, and, if it is the writer that fails,
    the first bytes of the body of the next chunk hash. When there is no error, all its chunks are
    written, in order, and the digest of what was written is the one the manifest names; if
    the address was that of a manifest built by [BuildSignedManifest], what was written is
    its body, or a collision of SHA-256 is at hand. *)
Theorem FetchBlob_sound `{!ContentProtoLaws} c h out c' o err :
  FetchBlob w c h out = (c', o, err) ->
  (b_written o = [] /\ err <> None) \/
  exists mb m bodies part,
    sha256 mb = h /\ unmarshalManifest mb = Some m /\ verifyManifestSig m = true /\
    b_written o = mjoin bodies ++ part /\ (sha256 <$> bodies) `prefix_of` m_Chunks (mf_sig m) /\
    partial bodies (m_Chunks (mf_sig m)) part /\
    (err = None ->
       part = [] /\ sha256 <$> bodies = m_Chunks (mf_sig m) /\
       sha256 (b_written o) = m_BlobHash (mf_sig m) /\
       forall now body cs fn mime priv mb0 hashes chunks,
         BuildSignedManifest now body cs fn mime priv = Some (mb0, h, hashes, chunks) ->
         b_written o = body \/ collides (b_written o) body \/ collides mb mb0).
Proof.
  unfold FetchBlob. destruct out as [out|]; [|intros [= <- <- <-]; by left].
  destruct (Fetch w c h) as [c1 res] eqn:Ef.
  apply Fetch_sound in Ef as [_ Hb]. destruct res as [mb|e]; [|intros [= <- <- <-]; by left].
  destruct (Hb mb eq_refl) as [Hh _].
  destruct (unmarshalManifest mb) as [m|] eqn:Em; [|intros [= <- <- <-]; by left].
  destruct (verifyManifestSig m) eqn:Ev; cbn [negb]; [|intros [= <- <- <-]; by left].
  destruct (negb _); [intros [= <- <- <-]; by left|].
  destruct (blobLoop _ _ _ _ _ _) as [[c2 o2] err2] eqn:El.
  apply blobLoop_sound in El as (bodies & part & Ew & Hp & Hpart & Hfull & _). cbn in Ew.
  intros E. right. exists mb, m, bodies, part.
  assert (o = o2 /\ (err = None -> err2 = None /\ sha256 (b_written o2) = m_BlobHash (mf_sig m)))
    as [-> Hdone].
  { destruct err2; [by injection E as <- <- <-|]. case_bool_decide; by injection E as <- <- <-. }
  split_and!; [done..|]. intros ->. destruct (Hdone eq_refl) as [-> Hd].
  destruct (Hfull eq_refl) as [Hpart0 Hbodies]. split_and!; [done..|]. intros * (Hm & -> & _)%BuildSignedManifest_eq.
  apply sha256_inj_or in Hh as [->|?]; [|by right; right].
  apply unmarshal_marshalManifest in Hm. rewrite Em in Hm. injection Hm as ->.
  cbn in Hd. apply sha256_inj_or in Hd as [?|?]; [by left|by right; left].
Qed.
End fetching.

(** ** Availability *)

(** The holder an advert names. *)
Definition namedHolder (a : ContentAdvert) (r : Record_) : NodeID :=
  if String.eqb (ofBytes (ad_Holder a)) "" then r_NodeID r else ofBytes (ad_Holder a).

(** The index lists [p] as a holder of [hash] until after [T]. *)
Definition listed (T : Z) (idx : holderIndex) (p : NodeID) (hash : bytes) : Prop :=
  exists m e, idx !! hash = Some m /\ m !! p = Some e /\ T < e.

(** The site holds the content of [hash]. *)
Definition holds `{Sha256} (c : content) (hash : bytes) : Prop :=
  exists prov b, c_provider c = Some prov /\ Has prov hash = true /\ Read prov hash = inl b /\
    sha256 b = hash.

Section index.
Context `{ContentProto} (T : Z).

Lemma onAdvertRecord_listed now idx r p hash :
  (forall a, r_Tombstone r = false -> unmarshalAdvert (r_Body r) = Some a ->
     namedHolder a r = p -> T < ad_ExpiresAt a) -> now <= T ->
  listed T idx p hash -> listed T (onAdvertRecord now idx r) p hash.
Proof.
  intros Hr Hnow (m & e & Em & Ee & He). unfold onAdvertRecord.
  destruct (r_Tombstone r); [by exists m, e|].
  destruct (unmarshalAdvert (r_Body r)) as [a|] eqn:Ea; [|by exists m, e].
  specialize (Hr a eq_refl eq_refl). fold (namedHolder a r).
  destruct (negb _); [by exists m, e|]. cbv zeta. fold (namedHolder a r).
  set (q := namedHolder a r) in *. destruct (ad_ExpiresAt a <=? now) eqn:El; bool_to_prop.
  - assert (q <> p) by (intros ->; specialize (Hr eq_refl); lia).
    destruct (idx !! ad_Hash a) as [m'|] eqn:Em'; [|by exists m, e].
    destruct (decide (ad_Hash a = hash)) as [E|].
    + rewrite E, Em in Em'. injection Em' as <-.
      assert (delete q m !! p = Some e) as Ed by by rewrite lookup_delete_ne.
      destruct (mlen (delete q m) =? 0) eqn:Ez; bool_to_prop.
      * apply mlen_zero in Ez. by rewrite Ez in Ed.
      * exists (delete q m), e. rewrite E, lookup_insert_eq. done.
    + exists m, e. destruct (mlen _ =? 0); by rewrite ?lookup_delete_ne, ?lookup_insert_ne.
  - destruct (decide (ad_Hash a = hash)) as [->|].
    + rewrite Em. cbn [default]. destruct (decide (q = p)) as [->|].
      * exists (<[p := ad_ExpiresAt a]> m), (ad_ExpiresAt a). rewrite !lookup_insert_eq.
        split_and!; [done..|by apply Hr].
      * exists (<[q := ad_ExpiresAt a]> m), e. by rewrite lookup_insert_eq, lookup_insert_ne.
    + exists m, e. by rewrite lookup_insert_ne.
Qed.

Lemma Holders_listed `{MapOrder} now idx p hash hash' :
  now <= T -> listed T idx p hash' ->
  listed T (Holders now idx hash).1 p hash' /\
  (hash = hash' -> p ∈ (Holders now idx hash).2).
Proof.
  intros Hnow (m & e & Em & Ee & He). unfold Holders.
  destruct (idx !! hash) as [m'|] eqn:Em'.
  2: { split; [by exists m, e|]. intros ->. congruence. }
  cbn [fst snd]. destruct (decide (hash = hash')) as [->|Hne].
  - rewrite Em in Em'. injection Em' as <-.
    assert (Hk : filter (fun e => (e.2 <=? now) = false) m !! p = Some e).
    { apply map_lookup_filter_Some. split; [done|]. cbn. apply Z.leb_gt. lia. }
    split.
    + destruct (mlen _ =? 0) eqn:Ez; bool_to_prop.
      * apply mlen_zero in Ez. by rewrite Ez in Hk.
      * eexists _, e. rewrite lookup_insert_eq. split_and!; [reflexivity|exact Hk|done].
    + intros _. apply list_elem_of_fmap. exists (p, e). split; [done|].
      apply list_elem_of_In, filter_In. rewrite <- list_elem_of_In. cbn. split.
      * by apply elem_of_map_order.
      * rewrite negb_true_iff. apply Z.leb_gt. lia.
  - split; [|done]. exists m, e.
    destruct (mlen _ =? 0); by rewrite ?lookup_delete_ne, ?lookup_insert_ne.
Qed.
End index.

Section availability.
Context `{Sha256Laws} `{Ed25519Laws} `{ContentProtoLaws} `{MapOrder} (w : world).
Context (T : Z) (me : NodeID) (peers : NodeID -> option content).

(** Nothing ends early: the time stays below [T], the contexts stay open. *)
Definition patient : Prop :=
  forall n, w_now w n <= T /\ w_over w n = false /\ w_callerOver w n = false.

(** The sites of [peers] answer as [handleFetchRequest] does, and no advert that arrives
    names one of them, or the node itself, with an expiry before [T]. *)
Definition peers_answer : Prop :=
  (forall p cp id hash, p <> me -> peers p = Some cp ->
     w_answer w p id hash = replyOf (handleFetchRequest cp id hash)) /\
  (forall n r a, r ∈ w_adverts w n -> unmarshalAdvert (r_Body r) = Some a ->
     namedHolder a r = me \/ is_Some (peers (namedHolder a r)) -> T < ad_ExpiresAt a).

(** Some holder of [hash] that is listed beyond [T], the node itself or one of [peers],
    holds its content. *)
Definition available (c : content) (hash : bytes) : Prop :=
  exists p cp, listed T (c_holders c) p hash /\ holds cp hash /\
    (p = me /\ cp = c \/ p <> me /\ peers p = Some cp).

Context (Hpatient : patient) (Hpeers : peers_answer).

Lemma adverts_listed n idx p hash :
  p = me \/ is_Some (peers p) -> listed T idx p hash ->
  listed T (foldl (onAdvertRecord (w_now w n)) idx (w_adverts w n)) p hash.
Proof using Hpatient Hpeers.
  intros Hp. destruct Hpeers as [_ Hadv]. destruct (Hpatient n) as [Hnow _].
  assert (Hin : forall r, r ∈ w_adverts w n -> r ∈ w_adverts w n) by done. revert Hin idx.
  generalize (w_adverts w n) at 1 3 as l. induction l as [|r l IH]; intros Hin idx Hl; [done|].
  cbn [foldl]. apply IH; [intros; apply Hin; by right|].
  apply onAdvertRecord_listed; [|done|done]. intros a _ Ea <-.
  eapply Hadv; [apply Hin; by left|done|done].
Qed.

Lemma fetchLoop_listed c hash holders lastErr p hash' :
  p = me \/ is_Some (peers p) -> listed T (c_holders c) p hash' ->
  listed T (c_holders (fetchLoop w c hash holders lastErr).1) p hash'.
Proof using Hpatient Hpeers.
  intros Hp. revert c lastErr. induction holders as [|q rest IH]; intros c lastErr Hl; [done|].
  cbn [fetchLoop]. destruct (String.eqb q (c_self c)).
  - destruct (fetchLocal c hash); [done|by apply IH].
  - unfold requestFromHolder. cbv zeta. cbn [c_reqCount].
    apply (adverts_listed (u64 (c_reqCount c + 1))) in Hl; [|done].
    destruct (Hpatient (u64 (c_reqCount c + 1))) as (_ & -> & _).
    destruct (w_answer _ _ _ _); [destruct (verifyContentHash _ _); [exact Hl|]|..]; by apply IH.
Qed.

Lemma Fetch_listed c hash p hash' :
  p = me \/ is_Some (peers p) -> listed T (c_holders c) p hash' ->
  listed T (c_holders (Fetch w c hash).1) p hash'.
Proof using Hpatient Hpeers.
  intros Hp Hl. unfold Fetch. destruct (Hpatient (c_reqCount c)) as [Hnow _].
  destruct (Holders_listed T _ _ p hash hash' Hnow Hl) as [Hl' _].
  destruct (Holders _ _ _) as [idx holders]. destruct holders; [done|].
  by apply (fetchLoop_listed (set_holders c idx)).
Qed.

(** What a site that holds the content sends back. *)
Lemma holds_answer c id hash :
  holds c hash -> exists b, replyOf (handleFetchRequest c id hash) = Body b /\ sha256 b = hash.
Proof using All.
  intros (prov & b & Ep & Eh & Er & <-). exists b. unfold handleFetchRequest.
  unfold len. rewrite sha256_length, Ep, Eh, Er. done.
Qed.

Lemma holds_local c hash : holds c hash -> is_Some (fetchLocal c hash).
Proof using.
  intros (prov & b & Ep & Eh & Er & Hb). unfold fetchLocal, verifyContentHash.
  rewrite Ep, Eh, Er, bool_decide_true by done. by eexists.
Qed.

Lemma fetchLoop_live c hash holders lastErr p cp :
  c_self c = me -> p ∈ holders -> holds cp hash ->
  (p = me /\ c_provider cp = c_provider c \/ p <> me /\ peers p = Some cp) ->
  exists b, (fetchLoop w c hash holders lastErr).2 = inl b.
Proof using All.
  intros Hme Hp Hh Hsite. revert c lastErr Hme Hp Hsite.
  induction holders as [|q rest IH]; intros c lastErr Hme Hp Hsite; [by apply elem_of_nil in Hp|].
  cbn [fetchLoop]. rewrite Hme.
  destruct (decide (q = me)) as [->|Hq].
  - rewrite String.eqb_refl. destruct (fetchLocal c hash) as [b|] eqn:El; [by exists b|].
    apply elem_of_cons in Hp as [->|Hp]; [|by apply IH].
    destruct Hsite as [[_ E]|[]]; [|done].
    assert (holds c hash) as Hc.
    { destruct Hh as (prov & b & Ep & Hrest). exists prov, b. by rewrite <- E. }
    destruct (holds_local c hash Hc). congruence.
  - apply String.eqb_neq in Hq as Hq'. rewrite Hq'. unfold requestFromHolder. cbv zeta.
    cbn [c_reqCount]. destruct (Hpatient (u64 (c_reqCount c + 1))) as (_ & -> & _).
    apply elem_of_cons in Hp as [->|Hp].
    + destruct Hsite as [[-> _]|[_ Ep]]; [done|]. destruct Hpeers as [Ha _].
      rewrite (Ha _ _ _ _ Hq Ep).
      destruct (holds_answer cp (u64 (c_reqCount c + 1)) hash Hh) as (b & -> & Hb).
      unfold verifyContentHash. rewrite bool_decide_true by done. by exists b.
    + destruct (w_answer _ _ _ _); [destruct (verifyContentHash _ _); [by eexists|]|..];
        by apply IH.
Qed.

Lemma Fetch_live c hash :
  c_self c = me -> available c hash -> exists b, (Fetch w c hash).2 = inl b.
Proof using All.
  intros Hme (p & cp & Hl & Hh & Hsite). unfold Fetch.
  destruct (Hpatient (c_reqCount c)) as [Hnow _].
  destruct (Holders_listed T _ _ p hash hash Hnow Hl) as [_ Hin].
  destruct (Holders _ _ _) as [idx holders]. specialize (Hin eq_refl). cbn [snd] in Hin.
  destruct holders as [|q rest]; [by apply elem_of_nil in Hin|].
  eapply fetchLoop_live; [done|exact Hin|exact Hh|].
  destruct Hsite as [[-> ->]|?]; [by left|by right].
Qed.

Lemma available_Fetch c hash hash' :
  c_self c = me -> available c hash' -> available (Fetch w c hash).1 hash'.
Proof using Hpatient Hpeers.
  intros Hme (p & cp & Hl & Hh & Hsite).
  destruct (Fetch w c hash) as [c' res] eqn:Ef. destruct (Fetch_sound _ _ _ _ _ Ef) as [[_ Ep] _].
  exists p, (if decide (p = me) then c' else cp).
  replace c' with (Fetch w c hash).1 at 1 by (by rewrite Ef). split_and!.
  - apply Fetch_listed; [|done]. destruct Hsite as [[-> _]|[_ ->]]; [by left|by right].
  - case_decide; [|done]. destruct Hsite as [[_ ->]|[]]; [|done].
    destruct Hh as (prov & b & E & Hrest). exists prov, b. by rewrite Ep.
  - case_decide; [by left|]. right. by destruct Hsite as [[]|].
Qed.

Lemma blobLoop_live c total (out : writer) chunks o :
  c_self c = me -> (forall x y, out x y = None) ->
  Forall (fun h => length h = 32%nat /\ available c h) chunks ->
  exists c' o', blobLoop w c total out chunks o = (c', o', None).
Proof using All.
  intros Hme Hout. revert c o Hme.
  induction chunks as [|h rest IH]; intros c o Hme Hall; cbn [blobLoop]; [by eauto|].
  apply Forall_cons in Hall as [[Hlen Hav] Hall].
  destruct (Hpatient (c_reqCount c)) as (_ & _ & ->). unfold len at 1. rewrite Hlen.
  cbn [Z.of_nat negb Z.eqb Pos.eqb Pos.of_succ_nat Pos.succ].
  destruct (Fetch_live c h Hme Hav) as [b Eb].
  assert (Hkeep := fun h' => available_Fetch c h h' Hme).
  destruct (Fetch w c h) as [c' res] eqn:Ef. cbn in Eb, Hkeep. subst res. rewrite Hout.
  destruct (Fetch_sound _ _ _ _ _ Ef) as [[Es _] _].
  apply IH; [congruence|]. eapply Forall_impl; [exact Hall|]. naive_solver.
Qed.
End availability.

Lemma uncollided_bodies `{Sha256} (sourced : bytes -> bytes -> Prop) (bodies chunks : list bytes) :
  (forall x y, x ∈ chunks -> sourced (sha256 x) y -> ~ collides x y) ->
  Forall (fun b => sourced (sha256 b) b) bodies ->
  sha256 <$> bodies = sha256 <$> chunks -> bodies = chunks.
Proof.
  revert bodies. induction chunks as [|x chunks IH]; intros [|b bodies] Hnc Hall; try done.
  intros [= Eb E]. apply Forall_cons in Hall as [Hb Hall]. f_equal.
  - symmetry. rewrite Eb in Hb. destruct (sha256_inj_or x b) as [|Hc]; [done..|].
    destruct (Hnc x b); [by left|done..].
  - apply IH; [|done..]. intros x' y Hx. apply Hnc. by right.
Qed.

(** C11 [FetchBlob] succeeds when it can: if for the manifest and for every chunk one of the
    listed holders is a site that holds it and answers as [handleFetchRequest] does,
    whatever the other holders answer and in whatever order they are tried, if time and the
    contexts do not run out, the writer does not fail, and no answer is a SHA-256 collision
    with a piece of the blob, then a blob published by [BuildSignedManifest] is written
    whole. *)
Theorem FetchBlob_live `{Sha256Laws, Ed25519Laws, ContentProtoLaws, MapOrder} w T peers c
    now body cs fn mime priv mb h hashes chunks (out : writer) :
  ed_key priv -> 0 <= cs ->
  BuildSignedManifest now body cs fn mime priv = Some (mb, h, hashes, chunks) ->
  patient w T -> peers_answer w T (c_self c) peers ->
  Forall (available T (c_self c) peers c) (h :: hashes) ->
  (forall x y, out x y = None) ->
  (forall x y, x ∈ mb :: chunks -> source w c (sha256 x) y -> ~ collides x y) ->
  exists c' o, FetchBlob w c h (Some out) = (c', o, None) /\ b_written o = body.
Proof.
  intros Hk Hcs Hbuild Hpat Hpeers Hall Hout Hnc.
  apply BuildSignedManifest_eq in Hbuild as (Hm & -> & Hck).
  pose proof (manifestOf_verifies now body cs fn mime priv Hk) as Hver.
  apply unmarshal_marshalManifest in Hm.
  set (m := manifestOf now body cs fn mime priv) in *.
  assert (Hbh : m_BlobHash (mf_sig m) = sha256 body) by done.
  assert (Hchunks : m_Chunks (mf_sig m) = hashes) by (unfold m, manifestOf; cbn; by rewrite Hck).
  apply ChunkBlob_spec in Hck as (Hj & Hh & _);
    [|destruct (cs =? 0) eqn:?; bool_to_prop; lia].
  apply Forall_cons in Hall as [Hav Hall].
  destruct (Fetch_live w T _ peers Hpat Hpeers c _ eq_refl Hav) as [b Eb].
  assert (Hkeep := fun h' => available_Fetch w T _ peers Hpat Hpeers c (sha256 mb) h' eq_refl).
  unfold FetchBlob. destruct (Fetch w c (sha256 mb)) as [c1 res] eqn:Ef. cbn in Eb, Hkeep.
  subst res. destruct (Fetch_sound _ _ _ _ _ Ef) as [Hs Hb].
  destruct (Hb b eq_refl) as [E Hsrc].
  assert (b = mb) as ->.
  { destruct (sha256_inj_or mb b) as [->|Hc]; [done..|]. destruct (Hnc mb b); [by left|done..]. }
  rewrite Hm, Hver, Hbh. unfold len. rewrite sha256_length. cbn [negb Z.eqb Pos.eqb Z.of_nat
    Pos.of_succ_nat Pos.succ]. rewrite Hchunks.
  destruct (blobLoop_live w T _ peers Hpat Hpeers c1 (m_TotalSize (mf_sig m)) out hashes
    (mkBlob [] 0 []) (proj1 Hs) Hout) as (c2 & o2 & El).
  { rewrite Hh in *. apply Forall_fmap, Forall_forall. intros x Hx. split; [apply sha256_length|].
    apply Hkeep. rewrite Forall_fmap, Forall_forall in Hall. by apply Hall. }
  rewrite El. apply blobLoop_sound in El as (bodies & part & Ew & _ & _ & Hfull & Hsrcs).
  destruct (Hfull eq_refl) as [-> Hbodies]. rewrite app_nil_r in Ew. cbn in Ew.
  assert (bodies = chunks) as ->.
  { apply (uncollided_bodies (source w c)).
    - intros x y Hx. apply Hnc. by right.
    - eapply Forall_impl; [exact Hsrcs|]. cbv beta. intros y. by apply source_site.
    - by rewrite <- Hh. }
  rewrite Ew, Hj. rewrite bool_decide_true by done. exists c2, o2. split; [done|]. by rewrite Ew, Hj.
Qed.

(** ** Examples *)

(** A provider of the given bodies. *)
Definition provider_of `{Sha256} (l : list bytes) : ContentProvider :=
  let find h := List.find (fun b => bool_decide (sha256 b = h)) l in
  mkProvider (fun h => match find h with Some _ => true | None => false end)
    (fun h => match find h with Some b => inl b | None => inr "not held" end)
    (fun h => len <$> find h).

Lemma find_provider `{Sha256} l h b : Read (provider_of l) h = inl b -> b ∈ l /\ sha256 b = h.
Proof.
  cbn. destruct (List.find _ l) as [b'|] eqn:E; [|done]. intros [= <-].
  apply find_some in E as [Hin E]. bool_to_prop. by rewrite list_elem_of_In.
Qed.

Lemma provider_answers `{Sha256} l c id hash y :
  c_provider c = Some (provider_of l) -> replyOf (handleFetchRequest c id hash) = Body y -> y ∈ l.
Proof.
  intros Ep. unfold handleFetchRequest. rewrite Ep. destruct (negb _); [done|].
  destruct (negb _); [done|]. destruct (Read _ _) as [b|e] eqn:E.
  - intros [= ->]. by apply find_provider in E as [? _].
  - cbn in E. destruct (List.find _ l); [done|]. injection E as <-. done.
Qed.

Section examples.
#[local] Existing Instances ToySha256.hash ToySha256.laws ToyEd25519.scheme ToyEd25519.laws ToyContent.codec
  ToyContent.laws std_order.

(** A blob of two chunks, a holder of all of it, and a holder that answers anything with
    the same junk. *)
Definition sample_built : bytes * bytes * list bytes * list bytes :=
  default ([], [], [], []) (BuildSignedManifest 7 (toBytes "abc") 2 "f" "m" (key_of 1)).
Definition sample_pieces : list bytes := sample_built.1.1.1 :: sample_built.2.
Definition sample_holder : content := mkContent "p" (Some (provider_of sample_pieces)) ∅ 0 [].
Definition sample_client : content :=
  mkContent "me" None
    (list_to_map ((fun b => (sha256 b, {[ "p" := 100; "liar" := 100 ]})) <$> sample_pieces)) 0 [].
Definition sample_world : world :=
  mkWorld (fun _ => 10)
    (fun p id hash => if String.eqb p "p" then replyOf (handleFetchRequest sample_holder id hash)
                      else Body (toBytes "junk"))
    (fun _ => []) (fun _ => false) (fun _ => false).
Definition sample_fetch : content * blobOut * option fetchError :=
  FetchBlob sample_world sample_client sample_built.1.1.2 (Some (fun _ _ => None)).

Example sample_fetched : b_written sample_fetch.1.2 = toBytes "abc" /\ sample_fetch.2 = None.
Proof. vm_compute. done. Qed.

(** No two of the bodies in play have the same digest. *)
Lemma sample_no_collision x y :
  x ∈ toBytes "junk" :: sample_pieces -> y ∈ toBytes "junk" :: sample_pieces -> ~ collides x y.
Proof.
  intros Hx Hy [Hne E]. destruct Hne.
  assert (Hall : forallb (fun x => forallb (fun y =>
    negb (bool_decide (sha256 x = sha256 y)) || bool_decide (x = y))
    (toBytes "junk" :: sample_pieces)) (toBytes "junk" :: sample_pieces) = true)
    by (vm_compute; reflexivity).
  rewrite forallb_forall in Hall. specialize (Hall x (proj1 (list_elem_of_In _ _) Hx)). cbv beta in Hall.
  rewrite forallb_forall in Hall. specialize (Hall y (proj1 (list_elem_of_In _ _) Hy)). cbv beta in Hall.
  bool_to_prop. destruct Hall as [Hf|Hf]; bool_to_prop; done.
Qed.

Lemma BuildSignedManifest_spec_witness :
  ed_key (key_of 1) /\
  exists mb hashes chunks,
    BuildSignedManifest 7 (toBytes "abc") 2 "f" "m" (key_of 1) =
      Some (mb, sha256 mb, hashes, chunks) /\ mjoin chunks = toBytes "abc".
Proof.
  split; [vm_compute; reflexivity|].
  destruct (BuildSignedManifest_spec 7 (toBytes "abc") 2 "f" "m" (key_of 1))
    as (mb & hashes & chunks & m & E & Ej & _);
    [vm_compute; reflexivity|lia|machine|vm_compute; reflexivity..|].
  exists mb, hashes, chunks. split; [exact E|exact Ej].
Defined.

Lemma FetchBlob_sound_witness :
  exists c o mb bodies, sample_fetch = (c, o, None) /\ sha256 mb = sample_built.1.1.2 /\
    b_written o = mjoin bodies.
Proof.
  destruct sample_fetch as [[c o] err] eqn:E.
  assert (err = None) as -> by (replace err with sample_fetch.2 by (by rewrite E); vm_compute; reflexivity).
  destruct (FetchBlob_sound _ _ _ _ _ _ _ E) as [[_ []]|
    (mb & m & bodies & part & Eh & _ & _ & Ew & _ & _ & Hdone)]; [reflexivity|].
  destruct (Hdone eq_refl) as [-> _]. rewrite app_nil_r in Ew.
  exists c, o, mb, bodies. split; [reflexivity|]. split; [exact Eh|exact Ew].
Defined.

Lemma sample_answers p id hash y :
  w_answer sample_world p id hash = Body y -> y ∈ toBytes "junk" :: sample_pieces.
Proof.
  cbn [w_answer sample_world]. destruct (String.eqb p "p"); intros E.
  - right. exact (provider_answers _ sample_holder _ _ _ eq_refl E).
  - assert (y = toBytes "junk") as -> by congruence. left.
Qed.

Lemma sample_available x :
  x ∈ sample_pieces ->
  available 50 "me" (fun p => if String.eqb p "p" then Some sample_holder else None)
    sample_client (sha256 x).
Proof.
  intros Hx. exists "p", sample_holder.
  assert (Hall : Forall (fun x =>
    c_holders sample_client !! sha256 x = Some {[ "p" := 100; "liar" := 100 ]} /\
    Read (provider_of sample_pieces) (sha256 x) = inl x /\
    Has (provider_of sample_pieces) (sha256 x) = true) sample_pieces).
  { apply Forall_forall. intros y Hy. vm_compute in Hy.
    repeat (apply elem_of_cons in Hy as [->|Hy]; [vm_compute; done|]).
    by apply elem_of_nil in Hy. }
  rewrite Forall_forall in Hall. destruct (Hall x Hx) as (El & Er & Eh). split_and!.
  - exists {[ "p" := 100; "liar" := 100 ]}, 100. split_and!; [exact El|reflexivity|lia].
  - exists (provider_of sample_pieces), x. split_and!; [reflexivity|exact Eh|exact Er|reflexivity].
  - right. split; [discriminate|reflexivity].
Qed.

Lemma FetchBlob_live_witness :
  exists c o, sample_fetch = (c, o, None) /\ b_written o = toBytes "abc".
Proof.
  unfold sample_fetch. apply (FetchBlob_live sample_world 50
    (fun p => if String.eqb p "p" then Some sample_holder else None) sample_client
    7 (toBytes "abc") 2 "f" "m" (key_of 1)
    sample_built.1.1.1 sample_built.1.1.2 sample_built.1.2 sample_built.2 (fun _ _ => None)).
  - vm_compute. reflexivity.
  - lia.
  - vm_compute. reflexivity.
  - intros n. cbn. split; [lia|split; reflexivity].
  - split.
    + intros p cp id hash _. cbn [w_answer sample_world]. destruct (String.eqb p "p"); [|discriminate].
      intros E. apply (inj Some) in E. rewrite E. reflexivity.
    + intros n r a Hr. cbn in Hr. by apply elem_of_nil in Hr.
  - replace (sample_built.1.1.2 :: sample_built.1.2) with (sha256 <$> sample_pieces)
      by (vm_compute; reflexivity).
    apply Forall_fmap, Forall_forall. exact sample_available.
  - reflexivity.
  - intros x y Hx [(p & id & E)|(prov & E & _)].
    + apply sample_no_collision; [right; exact Hx|by apply sample_answers in E].
    + discriminate E.
Defined.
End examples.
