(* ===== verification/Discovery.v ===== *)
(** * Discovering content: the node and its content layer together

    A node with its content layer, wired as [Wire] wires them: the subscription of the advert
    topic, in place before the first frame, feeds the index, and content requests are
    answered from the provider (src/node.go: Wire; src/content_impl.go: ensureSubscribed,
    SetProvider, onAdvertRecord, handleFetchRequest). *)
From S2P Require Import Prelude Types Crypto Hlc Sig Crdt CrdtLemmas CrdtInv Gate Peer Codec.
From S2P Require Import Engine Merkle EngineLemmas Push EngineSpec Node NodeLemmas PublishSpec.
From S2P Require Import NodeOutbound Reports Topics Registry Content ContentSpec Samples.
#[local] Open Scope Z_scope.

(** A node and its content layer. *)
Record site := mkSite { st_node : nodeImpl; st_content : content }.

(** [func (c *contentTopicImpl) ensureSubscribed()] with [subOnce] and the node's
    registry; [advertSub] numbers [onAdvertRecord]. *)
Definition ensureSubscribed (subOnce : bool) (advertSub : subscriber) (g : registry)
    : bool * registry :=
  if subOnce then (true, g)
  else (true, (Subscribe g FleetContentAdvertTopic (Some advertSub)).1).

(** [func (c *contentTopicImpl) SetProvider(p ContentProvider) error]. *)
Definition SetProvider (c : content) (p : option ContentProvider) : content :=
  mkContent (c_self c) p (c_holders c) (c_reqCount c) (c_sent c).

(** [newContentTopic] and the registry it leaves: the layer of [Wire]. *)
Definition newContentTopic (id : NodeID) (advertSub : subscriber) (g : registry)
    : content * registry :=
  (mkContent id None ∅ 0 [], (ensureSubscribed false advertSub g).2).

Section site.
Context `{Sha256} `{Ed25519} `{Proto} `{ContentProto} `{MapOrder}.

(** What the subscription of the advert topic makes of the records reported. *)
Definition indexAdverts (now : Z) (c : content) (rs : list Record_) : content :=
  set_holders c (foldl (onAdvertRecord now) (c_holders c)
    (List.filter (fun r => String.eqb (r_Topic r) FleetContentAdvertTopic) rs)).

(** The requests among the effects, answered. *)
Definition serve (c : content) (out : list effect) : list effect :=
  mjoin ((fun x =>
    match x with
    | FetchReq from id hash =>
        match encodeFrame (handleFetchRequest c id hash) with
        | Some raw => [Send from raw]
        | None => []
        end
    | _ => [x]
    end) <$> out).

(** Any call of the node's API, of the transport or of the tick loop, at the time [now] of
    the real clock. *)
Definition siteAct (now : Z) (a : action) (s : site) : site * list effect :=
  let '(n, out) := perform a (st_node s) in
  (mkSite n (indexAdverts now (st_content s) (reported out)), serve (st_content s) out).

(** [Announce] of the content layer. *)
Definition siteAnnounce (c : clock) (now : Z) (hash : bytes) (s : site)
    : site * list effect * option outcome :=
  let '(n, out, res) := Announce c now (st_content s) (st_node s) hash in
  (mkSite n (indexAdverts now (st_content s) (reported out)), out, res).

(** [Withdraw] of the content layer. *)
Definition siteWithdraw (c : clock) (now : Z) (hash : bytes) (s : site)
    : site * list effect * option outcome :=
  let '(n, out, res) := Withdraw c now (st_content s) (st_node s) hash in
  (mkSite n (indexAdverts now (st_content s) (reported out)), out, res).

(** ** What an announcement sends *)

Lemma elem_of_serve c x out : x ∈ out -> (forall f i h, x <> FetchReq f i h) -> x ∈ serve c out.
Proof.
  intros Hx Hn. unfold serve. apply list_elem_of_join. exists [x]. split; [left|].
  apply list_elem_of_fmap. exists x. split; [|done]. destruct x; try done. by destruct (Hn from requestId hash).
Qed.

(** The record a publication signs. *)
Definition ownRecord (n : nodeImpl) (topic : Topic) (key : string) (stamp : Z) (body : bytes) : Record_ :=
  signRecord (mkRecord topic (NodeID_ (n_cfg n)) stamp body false [] [] key "" 0) (PrivKey (n_cfg n)).

Lemma PublishKeyed_sends `{!ProtoLaws} c n topic key body n' out to frame record ttl :
  PublishKeyed c n topic key body = (n', out, Nil) ->
  Send to frame ∈ out -> decodeFrame frame = Some (Frame_Eager record ttl) ->
  exists stamp, record = Some (recordToProto (ownRecord n topic key stamp body)).
Proof.
  unfold PublishKeyed, publishOwn. destruct (stopped n); [done|].
  destruct (_ >? _); [done|]. destruct (_ >? _); [done|].
  destruct (newRecord_run c n topic (NodeID_ (n_cfg n)) key body false "" 0 (n_engine n))
    as (stamp & h & Hr).
  unfold onEngine at 1. rewrite Hr. fold (ownRecord n topic key stamp body).
  set (r := ownRecord _ _ _ _ _). destruct (negb (wired n)); [done|].
  unfold onEngine. cbn [n_engine set_engine].
  pose proof (plumPublish_run c r (set_hlc (n_engine n) h)) as Hp.
  destruct (ApplyExt _ _ r) as [s [[applied replaced] acc]].
  destruct (plumPublish c r (set_hlc (n_engine n) h)) as [[e1 o1] u] eqn:Ep.
  rewrite (run_bind _ _ _ _ _ _ Ep). cbn [emit fst snd]. intros [= _ <-] Hin Hdec.
  exists stamp. apply elem_of_app in Hin as [Hin|Hin%list_elem_of_singleton]; [|done].
  destruct Hp as [_ Hp]. destruct applied.
  2: { destruct Hp as [-> _]. by apply elem_of_nil in Hin. }
  destruct Hp as (pt & targets & _ & _ & -> & _). apply elem_of_app in Hin as [Hin|Hin].
  - unfold eagerFrames in Hin. destruct (encodeFrame _) as [f|] eqn:Ef; [|by apply elem_of_nil in Hin].
    apply list_elem_of_fmap in Hin as (p & [= _ ->] & _).
    rewrite (encodeFrame_decodes _ _ Ef) in Hdec. by injection Hdec as <- _.
  - apply elem_of_lazyFrames in Hin as (p & f & [= _ ->] & _ & Ef).
    rewrite (encodeFrame_decodes _ _ Ef) in Hdec. done.
Qed.

(** ** What its delivery reports *)

Lemma reported_sends (out : list effect) :
  (forall x, x ∈ out -> exists to f, x = Send to f) -> reported out = [].
Proof.
  induction out as [|x out IH]; intros Hs; [done|].
  destruct (Hs x ltac:(left)) as (to & f & ->). apply IH. intros y Hy. apply Hs. by right.
Qed.

Lemma eagerFrames_sends r ttl l x : x ∈ eagerFrames r ttl l -> exists to f, x = Send to f.
Proof.
  unfold eagerFrames. destruct (encodeFrame _); [|by intros ?%elem_of_nil].
  intros (p & -> & _)%list_elem_of_fmap. eauto.
Qed.

(** A push of a record that takes effect reports it, and nothing else. *)
Lemma handleEager_reported c from r ttl e :
  wellSigned r = true -> (Admit (c_realMs c) (gate e) r).2 = None ->
  IsObserverAttestation r = false -> room (store e) r = true ->
  (forall cur, slot (store e) (r_Topic r) (keyOf r) = Some cur -> newer r cur = true) ->
  reported (handleEager c from (Some (recordToProto r)) ttl e).1.2 = [r].
Proof.
  intros Hsig Hadm Hown Hroom Hnewer. unfold handleEager. rewrite record_roundtrip.
  cbv zeta. rewrite Hsig. cbn [negb]. cbv iota. rewrite (inbound_merged c r e) by done.
  pose proof (ApplyExt_owner_room (c_nowMs c) (store e) r Hown Hroom) as Hs. unfold merged.
  destruct (ApplyExt (c_nowMs c) (store e) r) as [s res]. cbn [fst snd].
  destruct Hs as (Hres & _). set (e1 := set_store _ s).
  assert (exists replaced, res = (true, replaced, false)) as [replaced ->].
  { rewrite Hres. destruct (slot (store e) (r_Topic r) (keyOf r)) as [cur|]; [|eauto].
    rewrite Hnewer by done. eauto. }
  cbn [negb andb]. cbv iota. clear Hres.
  pose proof (applied_run c from r ttl e1) as Ha. cbv zeta in Ha. fold (announcedAs r).
  match type of Ha with match ?m with _ => _ end => destruct m as [[e' out] u] end.
  destruct Ha as ((targets & -> & _) & _). cbn [fst snd].
  change (reported (Applied r :: ?x)) with (r :: reported x). f_equal. apply reported_sends.
  intros x [Hx|Hx]%elem_of_app.
  - destruct (ttl >? 1); [by eapply eagerFrames_sends|by apply elem_of_nil in Hx].
  - apply elem_of_lazyFrames in Hx as (p & f & -> & _). eauto.
Qed.
End site.

(** ** The index after the delivery *)
Section index.
Context `{ContentProtoLaws} `{MapOrder}.

(** An advert that names its holder and is not over is in the index until it is. *)
Lemma advert_listed now idx r a b :
  marshalAdvert a = Some b -> r_Body r = b -> r_Tombstone r = false -> len (ad_Hash a) = 32 ->
  ofBytes (ad_Holder a) <> "" -> now < ad_ExpiresAt a ->
  forall T, T < ad_ExpiresAt a ->
  listed T (onAdvertRecord now idx r) (ofBytes (ad_Holder a)) (ad_Hash a).
Proof.
  intros Hm Hb Ht Hl Hne Hnow T HT. unfold onAdvertRecord.
  rewrite Ht, Hb, (unmarshal_marshalAdvert _ _ Hm), Hl. cbn [Z.eqb negb Pos.eqb].
  rewrite (proj2 (String.eqb_neq _ _) Hne), (proj2 (Z.leb_gt _ _) Hnow). cbv zeta.
  eexists _, (ad_ExpiresAt a). by rewrite !lookup_insert_eq.
Qed.
End index.

Section answers.
Context `{Sha256} `{Ed25519} `{ProtoLaws} `{ContentProto} `{MapOrder}.

(** A site that holds the content of a request answers with it. *)
Lemma site_answers now c s j req id hash prov b :
  stopped (st_node s) = false -> encodeFrame (Frame_FetchReq id hash) = Some req ->
  c_provider (st_content s) = Some prov -> Has prov hash = true -> Read prov hash = inl b ->
  len hash = 32 ->
  exists raw, Send j raw ∈ (siteAct now (DoReceive c j req) s).2 /\
    decodeFrame raw = Some (Frame_FetchResp id b "").
Proof.
  intros Hs Hreq Hprov Hhas Hread Hlen.
  destruct (encodeFrame_Some (Frame_FetchResp id b "")) as [raw Hraw]; [done|].
  exists raw. split; [|by rewrite (encodeFrame_decodes _ _ Hraw)].
  unfold siteAct. cbn [perform]. unfold OnReceive, onEngine. rewrite Hs.
  unfold ReceiveFrame. rewrite (encodeFrame_decodes _ _ Hreq). cbn [onWire emit fst snd].
  unfold serve. cbn. unfold handleFetchRequest. rewrite Hlen, Hprov, Hhas, Hread. cbn.
  rewrite Hraw. left.
Qed.

Lemma onEngine_stopped {A} n (m : M A) : stopped (onEngine n m).1.1 = stopped n.
Proof. unfold onEngine. by destruct (m (n_engine n)) as [[e out] x]. Qed.

Lemma PublishKeyed_stopped c n topic key body :
  stopped (PublishKeyed c n topic key body).1.1 = stopped n.
Proof.
  unfold PublishKeyed, publishOwn. destruct (stopped n) eqn:Es; [done|].
  destruct (_ >? _); [done|]. destruct (_ >? _); [done|]. set (m1 := newRecord _ _ _ _ _ _ _ _ _).
  pose proof (onEngine_stopped n m1) as E1. destruct (onEngine n m1) as [[n1 o1] r].
  cbn [fst] in E1. destruct (negb (wired n)); [cbn; congruence|].
  set (m2 := (_ ;; _)). pose proof (onEngine_stopped n1 m2) as E2.
  destruct (onEngine n1 m2) as [[n2 o2] u]. cbn [fst] in *. congruence.
Qed.
End answers.

(** C12: what is announced is found, and served. A site announces content, the call returns
    nil, and one of the pushes it sends arrives at another site, by whatever peer, which
    admits the advert, has room for it and holds nothing newer in its slot. Then from that
    call on and until the six hours of the advert are over, the other site lists the
    announcer as a holder, unless later adverts change that; and any request for the content
    that reaches the announcer, while its provider has it, is answered with it. *)
Theorem announce_discovered `{Sha256, Ed25519Laws, ProtoLaws, ContentProtoLaws, MapOrder}
    (A A' B : site) (hash frame : bytes) (i j : NodeID) (cA cB : clock) (nowA nowB ttl : Z)
    (out : list effect) (p : pbRecord) :
  let self := NodeID_ (n_cfg (st_node A)) in
  let r := recordFromProto p in
  let expiry := nowA + 6 * 3600 * Second in
  ed_key (PrivKey (n_cfg (st_node A))) -> c_self (st_content A) = self -> self <> "" ->
  len hash = 32 -> is_i64 expiry ->
  siteAnnounce cA nowA hash A = (A', out, Some Nil) ->
  Send j frame ∈ out -> decodeFrame frame = Some (Frame_Eager (Some p) ttl) ->
  stopped (st_node B) = false -> (Admit (c_realMs cB) (gate (n_engine (st_node B))) r).2 = None ->
  room (store (n_engine (st_node B))) r = true ->
  (forall cur, slot (store (n_engine (st_node B))) (r_Topic r) (keyOf r) = Some cur ->
     newer r cur = true) ->
  nowB < expiry ->
  (forall later, later < expiry ->
     let B' := (siteAct nowB (DoReceive cB i frame) B).1 in
     self ∈ (Holders later (c_holders (st_content B')) hash).2) /\
  (forall now c q id req prov b,
     encodeFrame (Frame_FetchReq id hash) = Some req ->
     c_provider (st_content A) = Some prov -> Has prov hash = true -> Read prov hash = inl b ->
     exists raw, Send q raw ∈ (siteAct now (DoReceive c q req) A').2 /\
       decodeFrame raw = Some (Frame_FetchResp id b "")).
Proof.
  intros self r expiry Hk Hself Hne Hlen Hexp Hann Hin Hdec Hst Hadm Hroom Hnewer Hnow.
  unfold siteAnnounce, Announce in Hann. set (a := announceAdvert (st_content A) nowA hash) in Hann.
  destruct (marshalAdvert a) as [body|] eqn:Ea; [|done]. unfold Publish in Hann.
  destruct (PublishKeyed cA (st_node A) FleetContentAdvertTopic "" body) as [[n' out'] res] eqn:Ep.
  injection Hann as <- -> ->.
  destruct (PublishKeyed_sends _ _ _ _ _ _ _ _ _ _ _ Ep Hin Hdec) as [stamp Er].
  injection Er as ->. subst r. rewrite record_roundtrip in *. set (r := ownRecord _ _ _ _ _) in *.
  assert (Hx : ad_ExpiresAt a = expiry) by (by apply i64_small).
  split.
  - intros later Hlater. unfold siteAct. cbn [perform]. unfold OnReceive, onEngine. rewrite Hst.
    unfold ReceiveFrame. rewrite Hdec.
    pose proof (handleEager_reported cB i r ttl (n_engine (st_node B))) as Hrep.
    ospecialize (Hrep _ Hadm _ Hroom Hnewer); [by apply wellSigned_signRecord|done|].
    destruct (handleEager cB i _ ttl _) as [[e' o'] u]. cbn [fst snd] in Hrep |- *. rewrite Hrep.
    unfold indexAdverts. cbn.
    pose proof (advert_listed nowB (c_holders (st_content B)) r a body Ea eq_refl eq_refl Hlen) as Hl.
    assert (Eh : ofBytes (ad_Holder a) = self) by (unfold a, announceAdvert; cbn [ad_Holder]; by rewrite ofBytes_toBytes).
    rewrite Eh, Hx in Hl. specialize (Hl Hne Hnow later Hlater).
    by apply (Holders_listed later later _ _ hash hash (Z.le_refl later) Hl).
  - intros now c q id req prov b Hreq Hprov Hhas Hread.
    eapply site_answers; try done. cbn [st_node].
    pose proof (PublishKeyed_stopped cA (st_node A) FleetContentAdvertTopic "" body) as Hs.
    rewrite Ep in Hs. cbn [fst] in Hs. rewrite Hs. clear -Ep.
    unfold PublishKeyed in Ep. by destruct (stopped (st_node A)).
Qed.

Section examples.
#[local] Existing Instances ToySha256.hash ToyEd25519.scheme ToyEd25519.laws ToyProto.codec
  ToyProto.laws ToyContent.codec ToyContent.laws std_order.

(** Two neighbours, the first with a provider. *)
Definition blob_hash : bytes := repeat Byte.x07 32.
Definition announcer : site :=
  mkSite (sample_node 1 [id_of 2])
    (SetProvider (newContentTopic (id_of 1) 0 newRegistry).1
       (Some (mkProvider (fun h => bool_decide (h = blob_hash)) (fun _ => inl (toBytes "blob"))
                (fun _ => Some 4)))).
Definition seeker : site :=
  mkSite (sample_node 2 [id_of 1]) (newContentTopic (id_of 2) 0 newRegistry).1.
Definition announced : site * list effect * option outcome :=
  siteAnnounce (at_ms 1000) 1000 blob_hash announcer.
Definition advertFrame : bytes :=
  default [] (head (omap (fun x => match x with Send _ f => Some f | _ => None end) announced.1.2)).
Definition advertRecord : pbRecord :=
  match decodeFrame advertFrame with
  | Some (Frame_Eager (Some p) _) => p
  | _ => recordToProto (own_record 1 0 "" "")
  end.

Lemma announce_discovered_witness :
  let B' := (siteAct 2000 (DoReceive (at_ms 1001) (id_of 1) advertFrame) seeker).1 in
  id_of 1 ∈ (Holders 3000 (c_holders (st_content B')) blob_hash).2.
Proof.
  destruct (announce_discovered announcer announced.1.1 seeker blob_hash advertFrame (id_of 1)
    (id_of 2) (at_ms 1000) (at_ms 1001) 1000 2000 8 announced.1.2 advertRecord) as [Hfound _].
  - vm_compute. reflexivity.
  - vm_compute. reflexivity.
  - vm_compute. discriminate.
  - vm_compute. reflexivity.
  - machine.
  - vm_compute. reflexivity.
  - apply list_elem_of_In. vm_compute. left. reflexivity.
  - vm_compute. reflexivity.
  - vm_compute. reflexivity.
  - vm_compute. reflexivity.
  - vm_compute. reflexivity.
  - intros cur Hcur. vm_compute in Hcur. discriminate.
  - vm_compute. reflexivity.
  - apply (Hfound 3000). vm_compute. reflexivity.
Defined.
End examples.
