(* ===== verification/Rpc.v ===== *)
(** * Requests and responses of the content layer (src/content_impl.go)

    [requestFromHolder] in any number of goroutines, and [handleFetchResponse] in any number
    of others, interleaved at every access to what they share: the request counter, the pool
    of channels, the map of pending requests and the channels themselves. The fields [assigned],
    [received], [drained] and [late] only record what has happened. *)
From S2P Require Import Prelude Types.
#[local] Open Scope Z_scope.

(** [pb.ContentFetchResponse]. *)
Record response := mkResponse { resp_id : Z; resp_body : bytes; resp_error : string }.

(** A response in memory, with the number of the handler it came in with. *)
Abbreviation packet := (nat * response)%type.

(** A channel, by its number; its buffer has room for one response. *)
Abbreviation chan := nat.

(** Where [requestFromHolder] is: at its start, after [reqCount.Add], after [chanPool.Get],
    with its entry in [pending], then, with what [select] gave it ([None]: the context ended or
    the frame could not be sent), before and after the [delete] and the drain of the deferred
    function, and returned. *)
Inductive pc :=
  | PStart
  | PId (id : Z)
  | PChan (id : Z) (ch : chan)
  | PWait (id : Z) (ch : chan)
  | PResult (id : Z) (ch : chan) (r : option packet)
  | PDeleted (id : Z) (ch : chan) (r : option packet)
  | PDrained (id : Z) (ch : chan) (r : option packet)
  | PDone (id : Z) (r : option packet).

(** Where [handleFetchResponse] is: before the lookup, before the send, returned. *)
Inductive hpc := HStart (r : packet) | HSend (r : packet) (ch : chan) | HDone.

(** The shared state; the channel each identifier was registered with, the packets that came
    in, the requests that have drained their channel, and the packets sent to a channel when
    the request they answer had drained it. *)
Record sys := mkSys {
  issued : Z;
  pending : gmap Z chan;
  pool : list chan;
  nextChan : chan;
  buffer : gmap chan packet;
  fetchers : gmap nat pc;
  handlers : gmap nat hpc;
  assigned : gmap Z chan;
  received : list packet;
  drained : gset Z;
  late : gset nat
}.

Definition init : sys := mkSys 0 ∅ [] 0 ∅ ∅ ∅ ∅ [] ∅ ∅.

Definition set_fetcher (s : sys) (t : nat) (p : pc) : sys :=
  mkSys (issued s) (pending s) (pool s) (nextChan s) (buffer s) (<[t := p]> (fetchers s))
    (handlers s) (assigned s) (received s) (drained s) (late s).
Definition set_handler (s : sys) (h : nat) (p : hpc) : sys :=
  mkSys (issued s) (pending s) (pool s) (nextChan s) (buffer s) (fetchers s)
    (<[h := p]> (handlers s)) (assigned s) (received s) (drained s) (late s).
Definition set_buffer (s : sys) (b : gmap chan packet) : sys :=
  mkSys (issued s) (pending s) (pool s) (nextChan s) b (fetchers s)
    (handlers s) (assigned s) (received s) (drained s) (late s).
Definition set_pool (s : sys) (p : list chan) (n : chan) : sys :=
  mkSys (issued s) (pending s) p n (buffer s) (fetchers s) (handlers s) (assigned s) (received s)
    (drained s) (late s).
Definition set_log (s : sys) (d : gset Z) (l : gset nat) : sys :=
  mkSys (issued s) (pending s) (pool s) (nextChan s) (buffer s) (fetchers s) (handlers s)
    (assigned s) (received s) d l.

Inductive step (s : sys) : sys -> Prop :=
  | spawn_fetch t : fetchers s !! t = None -> step s (set_fetcher s t PStart)
  | spawn_handler h r : handlers s !! h = None ->
      step s (mkSys (issued s) (pending s) (pool s) (nextChan s) (buffer s) (fetchers s)
                (<[h := HStart (h, r)]> (handlers s)) (assigned s) (received s ++ [(h, r)]) (drained s)
                (late s))
  | fetch_add t : fetchers s !! t = Some PStart ->
      step s (mkSys (issued s + 1) (pending s) (pool s) (nextChan s) (buffer s)
                (<[t := PId (u64 (issued s + 1))]> (fetchers s)) (handlers s) (assigned s)
                (received s) (drained s) (late s))
  | fetch_get_pooled t id l1 ch l2 : fetchers s !! t = Some (PId id) -> pool s = l1 ++ ch :: l2 ->
      step s (set_fetcher (set_pool s (l1 ++ l2) (nextChan s)) t (PChan id ch))
  | fetch_get_new t id : fetchers s !! t = Some (PId id) ->
      step s (set_fetcher (set_pool s (pool s) (S (nextChan s))) t (PChan id (nextChan s)))
  | fetch_register t id ch : fetchers s !! t = Some (PChan id ch) ->
      step s (mkSys (issued s) (<[id := ch]> (pending s)) (pool s) (nextChan s) (buffer s)
                (<[t := PWait id ch]> (fetchers s)) (handlers s) (<[id := ch]> (assigned s))
                (received s) (drained s) (late s))
  | fetch_response t id ch r : fetchers s !! t = Some (PWait id ch) -> buffer s !! ch = Some r ->
      step s (set_fetcher (set_buffer s (delete ch (buffer s))) t (PResult id ch (Some r)))
  | fetch_give_up t id ch : fetchers s !! t = Some (PWait id ch) ->
      step s (set_fetcher s t (PResult id ch None))
  | fetch_delete t id ch r : fetchers s !! t = Some (PResult id ch r) ->
      step s (mkSys (issued s) (delete id (pending s)) (pool s) (nextChan s) (buffer s)
                (<[t := PDeleted id ch r]> (fetchers s)) (handlers s) (assigned s) (received s) (drained s) (late s))
  | fetch_drain t id ch r : fetchers s !! t = Some (PDeleted id ch r) ->
      step s (set_log (set_fetcher (set_buffer s (delete ch (buffer s))) t (PDrained id ch r))
                ({[id]} ∪ drained s) (late s))
  | fetch_put t id ch r : fetchers s !! t = Some (PDrained id ch r) ->
      step s (set_fetcher (set_pool s (ch :: pool s) (nextChan s)) t (PDone id r))
  | pool_drop l1 ch l2 : pool s = l1 ++ ch :: l2 -> step s (set_pool s (l1 ++ l2) (nextChan s))
  | handler_found h r ch : handlers s !! h = Some (HStart r) -> pending s !! resp_id r.2 = Some ch ->
      step s (set_handler s h (HSend r ch))
  | handler_unknown h r : handlers s !! h = Some (HStart r) -> pending s !! resp_id r.2 = None ->
      step s (set_handler s h HDone)
  | handler_send h r ch : handlers s !! h = Some (HSend r ch) -> buffer s !! ch = None ->
      step s (set_log (set_handler (set_buffer s (<[ch := r]> (buffer s))) h HDone)
                (drained s) (if decide (resp_id r.2 ∈ drained s) then {[r.1]} ∪ late s else late s))
  | handler_full h r ch r' : handlers s !! h = Some (HSend r ch) -> buffer s !! ch = Some r' ->
      step s (set_handler s h HDone).
