(* ===== verification/RpcSpec.v ===== *)
(** * Which response a request gets

    The invariant of the correlation of responses with requests, and what it leaves open: a
    channel from the pool can still be written by a handler that looked up its former owner. *)
From S2P Require Import Prelude Types Rpc.
From stdpp Require Import relations.
#[local] Open Scope Z_scope.








(** ** Steps that move one request without touching what it shares *)





(** ** Steps that take or give *)












(** ** Every run *)






(** ** What the drain guarantees *)


















(** ** An example: a late handler *)


(** Takes a step and evaluates the state it leads to. *)
Tactic Notation "go" uconstr(c) :=
  eapply rtc_l; [eapply c; vm_compute; reflexivity|];
  match goal with |- rtc step ?x _ => let y := eval vm_compute in x in change x with y end.


