(* ===== verification/Sim.v ===== *)
(** * The network simulator (src/sim/sim.go)

    A virtual clock, directed edges with latency, jitter and loss, and a priority queue of
    frames in flight: the binary heap of [container/heap] on [pendingHeap]. The participants
    are behind an interface, the class [SimNode]; the random source is a parameter. *)
From S2P Require Import Prelude Types Crypto.
From Stdlib Require Import QArith.
#[local] Open Scope Z_scope.

(** [type Frame struct], [type Edge struct], [type pendingFrame struct]. *)
Record simFrame := mkSimFrame { f_From : string; f_To : string; f_Body : bytes }.

Record Edge := mkEdge {
  e_From : string; e_To : string; LatencyMs : Z; JitterMs : Z; LossPct : Q; BandwidthBps : Z }.

Record pendingFrame := mkPending { deliveryAt : Z; frame : simFrame; index : Z }.

(** ** The heap *)

Definition setIndex (p : pendingFrame) (i : Z) : pendingFrame :=
  mkPending (deliveryAt p) (frame p) i.

(** [pendingHeap.Less], [pendingHeap.Swap]; an index out of range panics. *)
Definition heapLess (h : list pendingFrame) (i j : nat) : bool :=
  match h !! i, h !! j with
  | Some a, Some b => deliveryAt a <? deliveryAt b
  | _, _ => false
  end.

Definition heapSwap (h : list pendingFrame) (i j : nat) : list pendingFrame :=
  match h !! i, h !! j with
  | Some a, Some b => <[j := setIndex a (Z.of_nat j)]> (<[i := setIndex b (Z.of_nat i)]> h)
  | _, _ => h
  end.

(** [heap.up], [heap.down]: at most as many iterations as there are elements. *)
Definition parent (j : nat) : nat := ((j - 1) / 2)%nat.

Fixpoint heapUp (fuel : nat) (h : list pendingFrame) (j : nat) : list pendingFrame :=
  match fuel with
  | O => h
  | S fuel' =>
      let i := parent j in
      if (i =? j)%nat || negb (heapLess h j i) then h else heapUp fuel' (heapSwap h i j) i
  end.

Fixpoint heapDown (fuel : nat) (h : list pendingFrame) (i n : nat) : list pendingFrame :=
  match fuel with
  | O => h
  | S fuel' =>
      let j1 := (2 * i + 1)%nat in
      if (n <=? j1)%nat then h else
      let j2 := (j1 + 1)%nat in
      let j := if (j2 <? n)%nat && heapLess h j2 j1 then j2 else j1 in
      if negb (heapLess h j i) then h else heapDown fuel' (heapSwap h i j) j n
  end.

(** [heap.Push], [heap.Pop], with [pendingHeap.Push] and [pendingHeap.Pop]. *)
Definition heapPush (h : list pendingFrame) (x : pendingFrame) : list pendingFrame :=
  let h' := h ++ [setIndex x (len h)] in
  heapUp (length h') h' (length h' - 1).

Definition heapPop (h : list pendingFrame) : list pendingFrame * option pendingFrame :=
  let n := (length h - 1)%nat in
  let h' := heapDown n (heapSwap h 0 n) 0 n in
  (take n h', (fun p => setIndex p (-1)) <$> h' !! n).

(** ** The mesh *)

(** [type Node interface]: its identity, one virtual tick, the arrival of a frame. Its method
    [Records] is for the assertions of tests. *)
Class SimNode (S : Type) := {
  node_ID : S -> string;
  node_Step : Z -> S -> S * list simFrame * option string;
  node_Receive : Z -> simFrame -> S -> S * option string
}.

(** The type rand.Rand of math/rand. *)
Class Rng (R : Type) := {
  rng_new : Z -> R;
  rng_Float64 : R -> R * Q;
  rng_Intn : Z -> R -> R * Z
}.

Class RngLaws (R : Type) `{Rng R} := {
  Float64_range : forall r, (0 <= (rng_Float64 r).2)%Q /\ ((rng_Float64 r).2 < 1)%Q;
  Intn_range : forall n r, 0 < n -> 0 <= (rng_Intn n r).2 < n
}.

Section mesh.
Context {S R : Type} `{SimNode S} `{Rng R} `{MapOrder}.

(** [type Mesh struct]. *)
Record Mesh := mkMesh {
  nodes : gmap string S;
  edges : gmap string (gmap string Edge);
  pendingFrames : list pendingFrame;
  now : Z;
  rng : R
}.

Definition set_nodes (m : Mesh) (ns : gmap string S) : Mesh :=
  mkMesh ns (edges m) (pendingFrames m) (now m) (rng m).
Definition set_pending (m : Mesh) (h : list pendingFrame) (r : R) : Mesh :=
  mkMesh (nodes m) (edges m) h (now m) r.

(** [NewMesh], [AddNode], [AddEdge]. *)
Definition NewMesh (seed : Z) : Mesh := mkMesh ∅ ∅ [] 0 (rng_new seed).

Definition AddNode (m : Mesh) (n : S) : Mesh := set_nodes m (<[node_ID n := n]> (nodes m)).

Definition AddEdge (m : Mesh) (e : Edge) : Mesh :=
  mkMesh (nodes m) (<[e_From e := <[e_To e := e]> (default ∅ (edges m !! e_From e))]> (edges m))
    (pendingFrames m) (now m) (rng m).

(** The method [NodeIDs] of [Mesh]. *)
Definition NodeIDs (m : Mesh) : list string :=
  sort_by (fun id => id) String.ltb (map_order (nodes m)).*1.

(** The method [FullMesh] of [Mesh]. *)
Definition FullMesh (m : Mesh) (latencyMs jitterMs : Z) (lossPct : Q) : Mesh :=
  let ids := NodeIDs m in
  foldl (fun m a =>
    foldl (fun m b =>
      if String.eqb a b then m
      else AddEdge m (mkEdge a b latencyMs jitterMs lossPct 0)) m ids) m ids.

Definition edgeOf (m : Mesh) (from to : string) : option Edge :=
  match edges m !! from with Some out => out !! to | None => None end.

(** The method [sendFrame] of [Mesh]. [Intn] panics on an argument that is not positive: a
    jitter of 2^62 or more. *)
Definition sendFrame (now : Z) (m : Mesh) (f : simFrame) : Mesh :=
  match edgeOf m (f_From f) (f_To f) with
  | None => m
  | Some edge =>
      let '(r, lost) :=
        if Qlt_le_dec 0 (LossPct edge) then
          let '(r, x) := rng_Float64 (rng m) in
          (r, if Qlt_le_dec x (LossPct edge) then true else false)
        else (rng m, false) in
      if (lost : bool) then set_pending m (pendingFrames m) r else
      let delay := LatencyMs edge in
      let '(r, delay) :=
        if 0 <? JitterMs edge then
          let '(r, x) := rng_Intn (i64 (2 * JitterMs edge + 1)) r in
          (r, i64 (delay + i64 (x - JitterMs edge)))
        else (r, delay) in
      let delay := if delay <? 1 then 1 else delay in
      set_pending m (heapPush (pendingFrames m) (mkPending (i64 (now + delay)) f 0)) r
  end.

Inductive stepError :=
  | StepError (id : string) (err : string)
  | RecvError (to from : string) (err : string).

Record StepSummary := mkSummary {
  s_Now : Z; FramesSent : Z; FramesDelivered : Z; FramesInFlight : Z; Errors : list stepError }.

(** The first loop of [Step]: one node. *)
Definition stepNode (now : Z) (st : Mesh * StepSummary) (id : string) : Mesh * StepSummary :=
  let '(m, s) := st in
  match nodes m !! id with
  | None => (m, s)
  | Some n =>
      let '(n', out, err) := node_Step now n in
      let errs := match err with Some e => [StepError id e] | None => [] end in
      (foldl (sendFrame now) (set_nodes m (<[id := n']> (nodes m))) out,
       mkSummary (s_Now s) (FramesSent s + len out) (FramesDelivered s) (FramesInFlight s)
         (Errors s ++ errs))
  end.

(** The second loop of [Step]: the frames that are due. Each iteration pops one. *)
Fixpoint deliverDue (fuel : nat) (now : Z) (m : Mesh) (s : StepSummary) : Mesh * StepSummary :=
  match fuel with
  | O => (m, s)
  | Datatypes.S fuel' =>
      match pendingFrames m with
      | [] => (m, s)
      | head :: _ =>
          if deliveryAt head >? now then (m, s) else
          let m := set_pending m (heapPop (pendingFrames m)).1 (rng m) in
          match nodes m !! f_To (frame head) with
          | None => deliverDue fuel' now m s
          | Some target =>
              let '(target', err) := node_Receive now (frame head) target in
              let errs := match err with
                          | Some e => [RecvError (f_To (frame head)) (f_From (frame head)) e]
                          | None => []
                          end in
              deliverDue fuel' now
                (set_nodes m (<[f_To (frame head) := target']> (nodes m)))
                (mkSummary (s_Now s) (FramesSent s) (FramesDelivered s + 1) (FramesInFlight s)
                   (Errors s ++ errs))
          end
      end
  end.

(** The method [Step] of [Mesh]; the error it returns is always nil. *)
Definition Step (m : Mesh) : Mesh * StepSummary :=
  let now := i64 (now m + 1) in
  let m := mkMesh (nodes m) (edges m) (pendingFrames m) now (rng m) in
  let '(m, s) := foldl (stepNode now) (m, mkSummary now 0 0 0 []) (NodeIDs m) in
  let '(m, s) := deliverDue (length (pendingFrames m)) now m s in
  (m, mkSummary (s_Now s) (FramesSent s) (FramesDelivered s) (len (pendingFrames m)) (Errors s)).

(** The method [Run] of [Mesh]: the steps taken, and whether the predicate was met. *)
Fixpoint runLoop (left : nat) (i : Z) (m : Mesh) (predicate : Mesh -> bool) : Mesh * Z * bool :=
  match left with
  | O => (m, i, false)
  | Datatypes.S left' =>
      if predicate m then (m, i, true) else runLoop left' (i + 1) (Step m).1 predicate
  end.

Definition Run (m : Mesh) (maxSteps : Z) (predicate : Mesh -> bool) : Mesh * Z * bool :=
  let '(m, i, ok) := runLoop (Z.to_nat maxSteps) 0 m predicate in
  (m, if ok then i else maxSteps, ok).
End mesh.
Arguments Mesh : clear implicits.

(** [HashFrame], [VirtualTime.Duration]. *)
Definition HashFrame `{Sha256} (f : simFrame) : bytes := sha256 (f_Body f).
Definition Duration (v : Z) : Z := i64 (v * Millisecond).
