(* ===== verification/SimHeap.v ===== *)
(** * The queue of frames in flight is a priority queue

    The array of [pendingHeap] under the sift loops of [container/heap]: the heap order, the
    contents as a multiset, and the index each frame keeps of its own position. *)
From S2P Require Import Prelude Types Crypto Sim.
#[local] Open Scope nat_scope.

(** The time of the frame at a position. *)
Definition timeAt (h : list pendingFrame) (i : nat) : Z := default 0%Z (deliveryAt <$> h !! i).

(** A frame in flight, without the position it is stored at. *)
Definition flight (p : pendingFrame) : Z * simFrame := (deliveryAt p, frame p).
Abbreviation flights h := (flight <$> h).

(** The first [n] positions are in heap order. *)
Definition ordered (n : nat) (h : list pendingFrame) : Prop :=
  forall i, 0 < i < n -> (timeAt h (parent i) <= timeAt h i)%Z.

(** Every frame knows its position. *)
Definition indexed (h : list pendingFrame) : Prop :=
  forall i p, h !! i = Some p -> index p = Z.of_nat i.

(** ** Positions *)

Lemma parent_lt i : 0 < i -> parent i < i.
Proof. unfold parent. intros. apply Nat.Div0.div_lt_upper_bound. lia. Qed.

Lemma parent_le i : parent i <= i.
Proof. unfold parent. apply Nat.Div0.div_le_upper_bound. lia. Qed.

Lemma parent_child i k : 0 < k -> parent k = i <-> k = 2 * i + 1 \/ k = 2 * i + 2.
Proof.
  unfold parent. intros. split.
  - intros <-. pose proof (Nat.div_mod_eq (k - 1) 2). pose proof (Nat.mod_upper_bound (k - 1) 2). lia.
  - intros [-> | ->]; [replace (2 * i + 1 - 1) with (i * 2) by lia; apply Nat.div_mul; lia|].
    replace (2 * i + 2 - 1) with (1 + i * 2) by lia. rewrite Nat.div_add by lia. reflexivity.
Qed.

(** ** [heapSwap] *)

Lemma heapSwap_lookup h i j k :
  i < length h -> j < length h ->
  heapSwap h i j !! k =
    (fun p => setIndex p (Z.of_nat k)) <$>
      (h !! (if decide (k = j) then i else if decide (k = i) then j else k)) \/
  (k <> i /\ k <> j /\ heapSwap h i j !! k = h !! k).
Proof.
  intros [a Ha]%lookup_lt_is_Some_2 [b Hb]%lookup_lt_is_Some_2. unfold heapSwap. rewrite Ha, Hb.
  pose proof (lookup_lt_Some _ _ _ Ha). pose proof (lookup_lt_Some _ _ _ Hb).
  destruct (decide (k = j)) as [-> | ?].
  { left. rewrite list_lookup_insert_eq, Ha by (rewrite length_insert; lia). reflexivity. }
  rewrite list_lookup_insert_ne by congruence.
  destruct (decide (k = i)) as [-> | ?]; [left; rewrite list_lookup_insert_eq, Hb by lia; reflexivity|].
  right. rewrite list_lookup_insert_ne by congruence. auto.
Qed.

Lemma length_heapSwap h i j : length (heapSwap h i j) = length h.
Proof. unfold heapSwap. repeat case_match; rewrite ?length_insert; reflexivity. Qed.

Lemma timeAt_swap h i j k :
  i < length h -> j < length h ->
  timeAt (heapSwap h i j) k =
    timeAt h (if decide (k = j) then i else if decide (k = i) then j else k).
Proof.
  intros Hi Hj. unfold timeAt. destruct (heapSwap_lookup h i j k Hi Hj) as [-> | (Ni & Nj & ->)].
  - by destruct (h !! _).
  - by rewrite !decide_False.
Qed.

Lemma flights_swap h i j : flights (heapSwap h i j) ≡ₚ flights h.
Proof.
  unfold heapSwap. destruct (h !! i) as [a|] eqn:Ha, (h !! j) as [b|] eqn:Hb; try done.
  rewrite !list_fmap_insert. change (flight (setIndex ?p _)) with (flight p).
  apply Permutation_insert_swap; rewrite list_lookup_fmap; [rewrite Ha | rewrite Hb]; done.
Qed.

Lemma indexed_swap h i j : indexed h -> indexed (heapSwap h i j).
Proof.
  intros Hx k p Hp. unfold heapSwap in Hp.
  destruct (h !! i) as [a|] eqn:Ha, (h !! j) as [b|] eqn:Hb; eauto.
  apply list_lookup_insert_Some in Hp as [(-> & <- & _) | [_ Hp]]; [done|].
  apply list_lookup_insert_Some in Hp as [(-> & <- & _) | [_ Hp]]; [done | eauto].
Qed.

(** ** The sift loops *)

Lemma heapLess_spec h i j :
  i < length h -> j < length h -> heapLess h i j = (timeAt h i <? timeAt h j)%Z.
Proof.
  intros [a Ha]%lookup_lt_is_Some_2 [b Hb]%lookup_lt_is_Some_2.
  unfold heapLess, timeAt. rewrite Ha, Hb. reflexivity.
Qed.

(** The comparison of two positions after a swap, by which of the two each of them is. *)
Ltac swapped :=
  rewrite !timeAt_swap by lia;
  repeat match goal with |- context [decide (?x = ?y)] => destruct (decide (x = y)) end;
  subst; try congruence; try lia.

Lemma heapUp_ordered fuel h j n :
  j < n <= length h -> j <= fuel ->
  (forall i, 0 < i < n -> i <> j -> (timeAt h (parent i) <= timeAt h i)%Z) ->
  (forall i, 0 < i < n -> parent i = j -> 0 < j -> (timeAt h (parent j) <= timeAt h i)%Z) ->
  ordered n (heapUp fuel h j).
Proof.
  revert h j. induction fuel as [|fuel IH]; intros h j Hj Hfuel Hothers Hkids; cbn [heapUp].
  { intros i Hi. apply Hothers; lia. }
  destruct (Nat.eqb_spec (parent j) j) as [Heq | Hne]; cbn [orb].
  { destruct j; [|pose proof (parent_lt (S j)); lia]. intros i Hi. apply Hothers; lia. }
  pose proof (parent_le j). rewrite heapLess_spec by lia.
  destruct (Z.ltb_spec (timeAt h j) (timeAt h (parent j))) as [Hless | Hge]; cbn [negb].
  - apply IH; rewrite ?length_heapSwap; try lia.
    + intros k Hk Hki. pose proof (parent_lt k ltac:(lia)). swapped.
      * apply (Hkids k); lia.
      * specialize (Hothers k Hk ltac:(congruence)). rewrite e in Hothers. lia.
      * apply Hothers; lia.
    + intros k Hk Hki Hi. pose proof (parent_lt k ltac:(lia)). pose proof (parent_lt _ Hi).
      pose proof (Hothers (parent j) ltac:(lia) ltac:(lia)). swapped.
      specialize (Hothers k Hk ltac:(congruence)). rewrite Hki in Hothers. lia.
  - intros i Hi. destruct (decide (i = j)) as [-> | ?]; [lia|]. apply Hothers; lia.
Qed.

(** The child [heap.down] compares with: one whose time is smallest. *)
Definition smaller (h : list pendingFrame) (i n : nat) : nat :=
  if (2 * i + 1 + 1 <? n) && heapLess h (2 * i + 1 + 1) (2 * i + 1)
  then 2 * i + 1 + 1 else 2 * i + 1.

Lemma smaller_spec h i n :
  2 * i + 1 < n <= length h ->
  0 < smaller h i n < n /\ parent (smaller h i n) = i /\
  forall k, 0 < k < n -> parent k = i -> (timeAt h (smaller h i n) <= timeAt h k)%Z.
Proof.
  intros Hn.
  assert (Hpar : parent (smaller h i n) = i).
  { apply parent_child; unfold smaller; case_match; lia. }
  split; [|split; [done|]].
  { unfold smaller. destruct (Nat.ltb_spec (2 * i + 1 + 1) n); cbn [andb]; try case_match; lia. }
  intros k Hk Hki%parent_child; [|lia]. clear Hpar. unfold smaller.
  destruct (Nat.ltb_spec (2 * i + 1 + 1) n); cbn [andb].
  - rewrite heapLess_spec by lia. case_match; bool_to_prop; destruct Hki as [-> | ->];
      rewrite <- ?Nat.add_assoc in *; cbn [Nat.add] in *; lia.
  - destruct Hki as [-> | ->]; lia.
Qed.

Lemma heapDown_ordered fuel h i n :
  n <= length h -> n <= fuel + i ->
  (forall k, 0 < k < n -> parent k <> i -> (timeAt h (parent k) <= timeAt h k)%Z) ->
  (forall k, 0 < k < n -> parent k = i -> 0 < i -> (timeAt h (parent i) <= timeAt h k)%Z) ->
  ordered n (heapDown fuel h i n).
Proof.
  revert h i. induction fuel as [|fuel IH]; intros h i Hn Hfuel Hothers Hkids; cbn [heapDown].
  { intros k Hk. apply Hothers; [lia|]. pose proof (parent_lt k). lia. }
  destruct (Nat.leb_spec n (2 * i + 1)).
  { intros k Hk. apply Hothers; [lia|]. intros ?%parent_child; lia. }
  fold (smaller h i n). destruct (smaller_spec h i n) as (Hj & Hpar & Hmin); [lia|].
  set (j := smaller h i n) in *. clearbody j. pose proof (parent_lt j ltac:(lia)).
  rewrite heapLess_spec by lia.
  destruct (Z.ltb_spec (timeAt h j) (timeAt h i)) as [Hless | Hge]; cbn [negb].
  - apply IH; rewrite ?length_heapSwap; try lia.
    + intros k Hk Hkj. pose proof (parent_lt k ltac:(lia)). swapped;
        first [apply Hmin; [lia | done] | apply Hkids; [lia | done | lia]
              | apply Hothers; [lia | congruence]].
    + intros k Hk Hkj _. pose proof (parent_lt k ltac:(lia)). rewrite Hpar.
      swapped; apply Hothers; [lia | congruence].
  - intros k Hk. destruct (decide (parent k = i)) as [Hki | ?]; [|by apply Hothers].
    rewrite Hki. specialize (Hmin k Hk Hki). lia.
Qed.

(** Both loops only swap. *)
Section swaps.
Context (P : list pendingFrame -> Prop) (Hswap : forall h i j, P h -> P (heapSwap h i j)).

Lemma heapUp_ind fuel h j : P h -> P (heapUp fuel h j).
Proof. revert h j. induction fuel; intros h j ?; cbn [heapUp]; [done|]. case_match; auto. Qed.

Lemma heapDown_ind fuel h i n : P h -> P (heapDown fuel h i n).
Proof. revert h i. induction fuel; intros h i ?; cbn [heapDown]; [done|]. repeat case_match; auto. Qed.
End swaps.

Lemma heapDown_above fuel h i n k : i < n -> n <= k -> heapDown fuel h i n !! k = h !! k.
Proof.
  revert h i. induction fuel as [|fuel IH]; intros h i Hi Hk; cbn [heapDown]; [done|].
  destruct (Nat.leb_spec n (2 * i + 1)); [done|]. fold (smaller h i n).
  assert (smaller h i n < n).
  { unfold smaller. destruct (Nat.ltb_spec (2 * i + 1 + 1) n); cbn [andb]; try case_match; lia. }
  case_match; [done|]. rewrite IH by lia. unfold heapSwap. repeat case_match; try done.
  rewrite !list_lookup_insert_ne by lia. reflexivity.
Qed.

(** ** The queue *)

Definition heap (h : list pendingFrame) : Prop := ordered (length h) h /\ indexed h.

Lemma heap_nil : heap [].
Proof. split; [intros i Hi; cbn in Hi; lia | intros i p Hp; discriminate]. Qed.

Lemma ordered_root n h i : ordered n h -> i < n -> (timeAt h 0 <= timeAt h i)%Z.
Proof.
  intros Hord. induction i as [i IH] using lt_wf_ind. intros Hi.
  destruct (decide (i = 0)) as [-> | ?]; [done|]. pose proof (parent_lt i ltac:(lia)).
  specialize (IH (parent i) ltac:(lia) ltac:(lia)). specialize (Hord i ltac:(lia)). lia.
Qed.

Lemma timeAt_prefix h h' k i : take k h = take k h' -> i < k -> timeAt h i = timeAt h' i.
Proof.
  intros Heq Hi. unfold timeAt.
  rewrite <- (lookup_take_lt h k i Hi), <- (lookup_take_lt h' k i Hi), Heq. reflexivity.
Qed.

Lemma ordered_prefix n h h' : take n h = take n h' -> ordered n h -> ordered n h'.
Proof.
  intros Heq Hord i Hi. pose proof (parent_le i).
  rewrite <- !(timeAt_prefix h h' n) by (done || lia). auto.
Qed.

Lemma length_flights h : length (flights h) = length h.
Proof. apply length_fmap. Qed.

Lemma heapPush_heap h x : heap h -> heap (heapPush h x).
Proof.
  intros [Hord Hidx]. unfold heapPush. set (h1 := h ++ [_]).
  assert (Hlen : length h1 = length h + 1) by (unfold h1; rewrite length_app; reflexivity).
  assert (Hpre : ordered (length h) h1).
  { eapply ordered_prefix; [|exact Hord]. unfold h1. rewrite take_app_length, take_ge; done. }
  split.
  - replace (length (heapUp _ _ _)) with (length h1).
    + apply heapUp_ordered; try lia.
      * intros i Hi Hne. apply Hpre. lia.
      * intros i Hi Hpar. pose proof (parent_lt i). lia.
    + rewrite <- !length_flights. apply Permutation_length. symmetry.
      apply (heapUp_ind (fun h => flights h ≡ₚ flights h1)); [|done].
      intros ? i j <-. apply flights_swap.
  - apply heapUp_ind; [intros; by apply indexed_swap|].
    intros i p [Hp | [Hge Hp]]%lookup_app_Some; [eauto|].
    apply list_lookup_singleton_Some in Hp as [Hi <-]. cbn. unfold len. f_equal. lia.
Qed.

Lemma heapPush_flights h x : flights (heapPush h x) ≡ₚ flight x :: flights h.
Proof.
  unfold heapPush. apply (heapUp_ind (fun h' => flights h' ≡ₚ flight x :: flights h)).
  - intros ? i j <-. apply flights_swap.
  - rewrite fmap_app. change (flights [setIndex x (len h)]) with [flight x].
    symmetry. apply Permutation_cons_append.
Qed.

(** The head leaves, and only it; no frame that stays is due earlier. *)
Lemma heapPop_spec h p :
  heap h -> head h = Some p ->
  exists h' q, heapPop h = (h', Some q) /\ flight q = flight p /\ index q = (-1)%Z /\ heap h' /\
    flight p :: flights h' ≡ₚ flights h /\ Forall (fun q => (deliveryAt p <= deliveryAt q)%Z) h'.
Proof.
  intros [Hord Hidx] Hhd. assert (H0 : h !! 0 = Some p) by (by destruct h).
  assert (Hlen : 0 < length h) by (destruct h; [done | cbn; lia]).
  unfold heapPop. set (n := length h - 1). set (h1 := heapSwap h 0 n).
  set (h2 := heapDown n h1 0 n).
  assert (Hperm : flights h2 ≡ₚ flights h).
  { apply (heapDown_ind (fun h' => flights h' ≡ₚ flights h)); [|apply flights_swap].
    intros ? i j <-. apply flights_swap. }
  assert (Hlen2 : length h2 = length h) by (rewrite <- !length_flights; by apply Permutation_length).
  assert (Hlen1 : length h1 = length h) by apply length_heapSwap.
  assert (Hidx2 : indexed h2).
  { apply heapDown_ind; [intros; by apply indexed_swap | by apply indexed_swap]. }
  assert (Hlast : exists q, h2 !! n = Some q /\ flight q = flight p).
  { assert (Hh2 : h2 !! n = h1 !! n).
    { destruct (decide (n = 0)) as [Hz | ?]; [|apply heapDown_above; lia].
      unfold h2. rewrite Hz. reflexivity. }
    rewrite Hh2. destruct (heapSwap_lookup h 0 n n) as [Hl | (? & ? & _)]; [lia | lia | | lia].
    fold h1 in Hl. rewrite Hl, decide_True, H0 by done. eauto. }
  destruct Hlast as (q & Hq & Hqp). rewrite Hq.
  assert (Hsplit : h2 = take n h2 ++ [q]).
  { rewrite <- (take_drop n h2) at 1. f_equal. rewrite (drop_S _ _ _ Hq).
    rewrite drop_ge by lia. reflexivity. }
  assert (Hperm' : flight p :: flights (take n h2) ≡ₚ flights h).
  { rewrite <- Hperm, Permutation_cons_append, <- Hqp. rewrite Hsplit at 2.
    rewrite fmap_app. reflexivity. }
  exists (take n h2), (setIndex q (-1)). repeat split; try done.
  - rewrite length_take, Hlen2, Nat.min_l by lia.
    eapply (ordered_prefix n h2); [by rewrite take_take, Nat.min_id|].
    apply heapDown_ordered; [lia | lia | | lia].
    intros k Hk Hne. pose proof (parent_lt k ltac:(lia)). unfold h1. swapped.
    apply Hord. lia.
  - intros i r Hr. apply Hidx2. by apply lookup_take_Some in Hr as [? _].
  - apply Forall_forall. intros r Hr.
    assert (Hin : flight r ∈ flights h) by (rewrite <- Hperm'; right; by apply list_elem_of_fmap_2).
    apply list_elem_of_fmap in Hin as (r' & Hr' & Hin).
    apply list_elem_of_lookup in Hin as [i Hi].
    pose proof (ordered_root _ _ i Hord (lookup_lt_Some _ _ _ Hi)) as Hmin.
    unfold timeAt in Hmin. rewrite H0, Hi in Hmin. cbn in Hmin.
    apply (f_equal fst) in Hr'. cbn in Hr'. lia.
Qed.
