(* ===== verification/SimLemmas.v ===== *)
(** * The simulator's loops

    What [sendFrame] schedules, what the two loops of [Step] do to the nodes and to the queue,
    and the invariant of a mesh. *)
From S2P Require Import Prelude Types Crypto Sim SimHeap.
From Stdlib Require Import QArith Lqa.
#[local] Open Scope Z_scope.

Section lemmas.
Context {S R : Type} `{SimNode S} `{Rng R} `{!RngLaws R} `{MapOrder}.
Implicit Types m : Mesh S R.

(** The delays of the links are at most [D], and no time overflows. *)
Definition linksBounded (D : Z) m : Prop :=
  1 <= D < 2 ^ 60 /\
  forall a b e, edgeOf m a b = Some e ->
    0 <= LatencyMs e /\ JitterMs e < 2 ^ 60 /\ LatencyMs e + Z.max 0 (JitterMs e) <= D.

(** The queue is a heap of frames that are due later than now, and at most [D] later. *)
Definition meshOK (D : Z) m : Prop :=
  linksBounded D m /\ heap (pendingFrames m) /\ 0 <= now m < 2 ^ 60 /\
  Forall (fun p => now m < deliveryAt p <= now m + D) (pendingFrames m).

(** ** [sendFrame] *)

Definition hasEdge m (f : simFrame) : Prop := is_Some (edgeOf m (f_From f) (f_To f)).

#[global] Instance hasEdge_dec m f : Decision (hasEdge m f) := _.

(** A link that loses nothing. *)
Definition lossless m (f : simFrame) : Prop :=
  forall e, edgeOf m (f_From f) (f_To f) = Some e -> (LossPct e <= 0)%Q.

(** The parts of the mesh that no frame changes. *)
Definition same_links m m' : Prop := edges m' = edges m /\ now m' = now m.

#[global] Instance same_links_preorder : PreOrder same_links.
Proof. split; [done | intros ??? [] []; split; congruence]. Qed.

(** From [m] to [m'] the frames [new] have been queued, for [fs] sent at [t]. *)
Definition queued (D t : Z) m m' (fs : list simFrame) (new : list (Z * simFrame)) : Prop :=
  same_links m m' /\ heap (pendingFrames m') /\
  flights (pendingFrames m') ≡ₚ new ++ flights (pendingFrames m) /\
  Forall (fun x => t < x.1 <= t + D) new /\
  sublist new.*2 (filter (hasEdge m) fs) /\
  (Forall (lossless m) fs -> new.*2 = filter (hasEdge m) fs).

Lemma delay_range D t m a b e r r' x :
  linksBounded D m -> edgeOf m a b = Some e ->
  (if 0 <? JitterMs e then
     let '(r, x) := rng_Intn (i64 (2 * JitterMs e + 1)) r in
     (r, i64 (LatencyMs e + i64 (x - JitterMs e)))
   else (r, LatencyMs e)) = (r', x) ->
  0 <= t < 2 ^ 61 ->
  t < i64 (t + (if x <? 1 then 1 else x)) <= t + D.
Proof.
  intros [HD Hall] He Hx Ht. destruct (Hall _ _ _ He) as (HL & HJ & HLJ).
  assert (Hxr : x <= D /\ - 2 ^ 60 <= x).
  { destruct (Z.ltb_spec 0 (JitterMs e)) as [Hpos | _]; [|injection Hx as _ <-; lia].
    rewrite i64_small in Hx by (unfold is_i64; lia).
    pose proof (Intn_range (2 * JitterMs e + 1) r ltac:(lia)) as Hr.
    destruct (rng_Intn _ r) as [r1 y]. cbn in Hr. injection Hx as _ <-.
    rewrite (i64_small (y - _)) by (unfold is_i64; lia).
    rewrite i64_small by (unfold is_i64; lia). lia. }
  rewrite i64_small by (unfold is_i64; destruct (x <? 1); lia).
  destruct (Z.ltb_spec x 1); lia.
Qed.

Lemma nodes_sendFrame t m f : nodes (sendFrame t m f) = nodes m.
Proof. unfold sendFrame. repeat case_match; reflexivity. Qed.

Lemma nodes_sendAll t m fs : nodes (foldl (sendFrame t) m fs) = nodes m.
Proof.
  revert m. induction fs as [|f fs IH]; intros m; cbn [foldl]; [done|].
  by rewrite IH, nodes_sendFrame.
Qed.

(** A frame that is not queued, whatever was drawn. *)
Lemma queued_none D t m r fs :
  heap (pendingFrames m) -> (Forall (lossless m) fs -> filter (hasEdge m) fs = []) ->
  queued D t m (set_pending m (pendingFrames m) r) fs [].
Proof.
  intros Hh Hnone. unfold queued. do 3 (split; [done|]). split; [constructor|].
  split; [apply sublist_nil_l|]. intros Hf. by rewrite Hnone.
Qed.

Lemma sendFrame_queued D t m f :
  linksBounded D m -> heap (pendingFrames m) -> 0 <= t < 2 ^ 61 ->
  exists new, queued D t m (sendFrame t m f) [f] new.
Proof.
  intros Hl Hh Ht. unfold sendFrame.
  destruct (edgeOf m (f_From f) (f_To f)) as [e|] eqn:He.
  2: { exists []. destruct m. apply queued_none; [done|]. intros _. rewrite filter_cons_False; [done|].
       unfold hasEdge. rewrite He. by intros [? ?]. }
  assert (Hedge : filter (hasEdge m) [f] = [f]).
  { rewrite filter_cons_True; [done|]. unfold hasEdge. eauto. }
  set (draw := if Qlt_le_dec _ _ then _ else _).
  assert (Hlossy : draw.2 = true -> ~ (LossPct e <= 0)%Q).
  { unfold draw. destruct (Qlt_le_dec 0 (LossPct e)); [|done]. intros _ ?. lra. }
  destruct draw as [r [|]]; cbn [snd] in Hlossy.
  { exists []. apply queued_none; [done|]. intros [Hfree _]%Forall_cons.
    destruct Hlossy; [done|]. by apply Hfree. }
  destruct (if 0 <? JitterMs e then _ else _) as [r' x] eqn:Hx.
  pose proof (delay_range _ _ _ _ _ _ _ _ _ Hl He Hx Ht) as Hrange.
  exists [(i64 (t + (if x <? 1 then 1 else x)), f)]. unfold queued. rewrite Hedge.
  split; [done|]. split; [by apply heapPush_heap|].
  split; [apply heapPush_flights|]. split; [by apply Forall_singleton|]. done.
Qed.

Lemma same_links_edgeOf m m' a b : same_links m m' -> edgeOf m' a b = edgeOf m a b.
Proof. intros [He _]. unfold edgeOf. by rewrite He. Qed.

Lemma linksBounded_edges D m m' : edges m' = edges m -> linksBounded D m -> linksBounded D m'.
Proof. intros He [HD Hall]. split; [done|]. intros a b e. unfold edgeOf. rewrite He. apply Hall. Qed.

Lemma linksBounded_same D m m' : same_links m m' -> linksBounded D m -> linksBounded D m'.
Proof. intros [He _]. by apply linksBounded_edges. Qed.

Lemma filter_hasEdge_same m m' (fs : list simFrame) :
  same_links m m' -> filter (hasEdge m') fs = filter (hasEdge m) fs.
Proof.
  intros Hs. apply list_filter_iff. intros f. unfold hasEdge.
  by rewrite (same_links_edgeOf _ _ _ _ Hs).
Qed.

Lemma lossless_same m m' f : same_links m m' -> lossless m' f <-> lossless m f.
Proof. intros Hs. unfold lossless. by setoid_rewrite (same_links_edgeOf _ _ _ _ Hs). Qed.

Lemma queued_app D t m1 m2 m3 fs1 fs2 new1 new2 :
  queued D t m1 m2 fs1 new1 -> queued D t m2 m3 fs2 new2 ->
  queued D t m1 m3 (fs1 ++ fs2) (new1 ++ new2).
Proof.
  intros (Hs & _ & Hp & Ht & Hsub & Hall) (Hs' & Hh & Hp' & Ht' & Hsub' & Hall').
  rewrite (filter_hasEdge_same _ _ _ Hs) in Hsub', Hall'.
  split; [by etrans|]. split; [done|]. split; [|split; [|split]].
  - rewrite Hp', Hp, !app_assoc. f_equiv. apply Permutation_app_comm.
  - by apply Forall_app.
  - rewrite fmap_app, filter_app. by apply sublist_app.
  - intros [Hl1 Hl2]%Forall_app. rewrite fmap_app, filter_app, Hall, Hall'; try done.
    eapply Forall_impl; [exact Hl2|]. intros f. apply (lossless_same _ _ _ Hs).
Qed.

Lemma sendAll_queued D t m fs :
  linksBounded D m -> heap (pendingFrames m) -> 0 <= t < 2 ^ 61 ->
  exists new, queued D t m (foldl (sendFrame t) m fs) fs new.
Proof.
  intros Hl Hh Ht. revert m Hl Hh. induction fs as [|f fs IH]; intros m Hl Hh; cbn [foldl].
  { exists []. destruct m. by apply queued_none. }
  destruct (sendFrame_queued D t m f Hl Hh Ht) as (new & Hq).
  destruct (IH (sendFrame t m f)) as (new' & Hq').
  - eapply linksBounded_same; [apply Hq | done].
  - apply Hq.
  - eexists. apply (queued_app _ _ _ _ _ [f] fs _ _ Hq Hq').
Qed.

(** ** The first loop of [Step] *)

(** The nodes after their tick, and what they hand over, in the order of the identities. *)
Definition ticked (t : Z) (ns : gmap string S) (ids : list string) : gmap string S :=
  map_imap (fun id n => Some (if decide (id ∈ ids) then (node_Step t n).1.1 else n)) ns.

Definition handed (t : Z) (ns : gmap string S) (ids : list string) : list simFrame :=
  ids ≫= fun id => match ns !! id with Some n => (node_Step t n).1.2 | None => [] end.

Lemma lookup_ticked t ns ids id :
  ticked t ns ids !! id =
    (fun n => if decide (id ∈ ids) then (node_Step t n).1.1 else n) <$> ns !! id.
Proof. unfold ticked. rewrite map_lookup_imap. by destruct (ns !! id). Qed.

Lemma handed_insert t ns ids id n : id ∉ ids -> handed t (<[id := n]> ns) ids = handed t ns ids.
Proof.
  intros Hid. unfold handed. induction ids as [|j ids IH]; cbn [mbind list_bind]; [done|].
  rewrite IH by set_solver. rewrite lookup_insert_ne by set_solver. done.
Qed.

Lemma ticked_insert t ns ids id n :
  id ∉ ids -> ns !! id = Some n ->
  ticked t (<[id := (node_Step t n).1.1]> ns) ids = ticked t ns (id :: ids).
Proof.
  intros Hid Hn. apply map_eq. intros j. rewrite !lookup_ticked.
  destruct (decide (j = id)) as [-> | Hne].
  - rewrite lookup_insert_eq, Hn. cbn [fmap option_fmap option_map].
    rewrite decide_False, decide_True by set_solver. done.
  - rewrite lookup_insert_ne by done. destruct (ns !! j); [|done]. cbn [fmap option_fmap option_map].
    f_equal. apply decide_ext. set_solver.
Qed.

Lemma stepNodes_spec D t ids m s :
  NoDup ids -> linksBounded D m -> heap (pendingFrames m) -> 0 <= t < 2 ^ 61 ->
  exists new m' s', foldl (stepNode t) (m, s) ids = (m', s') /\
    nodes m' = ticked t (nodes m) ids /\
    queued D t m m' (handed t (nodes m) ids) new /\
    s_Now s' = s_Now s /\ FramesSent s' = FramesSent s + len (handed t (nodes m) ids) /\
    FramesDelivered s' = FramesDelivered s.
Proof.
  intros Hnd Hl Hh Ht. revert m s Hl Hh. induction Hnd as [|id ids Hid Hnd IH]; intros m s Hl Hh.
  { exists [], m, s. split; [done|]. split.
    - apply map_eq. intros j. rewrite lookup_ticked. by destruct (nodes m !! j).
    - split; [destruct m; by apply queued_none|]. split; [done|]. split; [|done]. unfold handed, len. cbn. lia. }
  cbn [foldl]. unfold stepNode at 2. unfold handed. cbn [mbind list_bind].
  change (mbind _ ids) with (handed t (nodes m) ids).
  destruct (nodes m !! id) as [n|] eqn:Hn.
  - destruct (node_Step t n) as [[n' out] err] eqn:Hstep. cbn [fst snd].
    set (m1 := set_nodes m (<[id:=n']> (nodes m))).
    destruct (sendAll_queued D t m1 out Hl Hh Ht) as (new1 & Hq).
    set (m2 := foldl (sendFrame t) m1 out) in *.
    assert (Hn2 : nodes m2 = <[id := n']> (nodes m)) by apply nodes_sendAll.
    edestruct (IH m2) as (new2 & m3 & s3 & -> & Hn3 & Hq3 & Hs).
    { eapply linksBounded_same; [apply Hq | done]. }
    { apply Hq. }
    exists (new1 ++ new2), m3, s3. split; [done|]. split; [|split].
    + rewrite Hn3, Hn2. replace n' with (node_Step t n).1.1 by (by rewrite Hstep).
      by apply ticked_insert.
    + rewrite Hn2, handed_insert in Hq3 by done. eapply queued_app; [exact Hq | exact Hq3].
    + rewrite Hn2, handed_insert in Hs by done. cbn in Hs.
      unfold len in *. rewrite length_app. lia.
  - destruct (IH m s Hl Hh) as (new & m' & s' & -> & Hn' & Hq & Hs).
    exists new, m', s'. split; [done|]. split; [|done]. rewrite Hn'. apply map_eq. intros j.
    rewrite !lookup_ticked. destruct (decide (j = id)) as [-> | ?]; [by rewrite Hn|].
    destruct (nodes m !! j); [|done]. cbn [fmap option_fmap option_map]. f_equal.
    apply decide_ext. set_solver.
Qed.

(** ** The second loop of [Step] *)

Definition receive (t : Z) (ns : gmap string S) (f : simFrame) : gmap string S :=
  match ns !! f_To f with Some n => <[f_To f := (node_Receive t f n).1]> ns | None => ns end.

Definition known (ns : gmap string S) (f : simFrame) : Prop := is_Some (ns !! f_To f).

#[global] Instance known_dec ns f : Decision (known ns f) := _.

Lemma dom_receive t ns f : dom (receive t ns f) = dom ns.
Proof.
  unfold receive. destruct (ns !! f_To f) eqn:He; [|done]. apply dom_insert_lookup_L. eauto.
Qed.

Lemma known_dom ns ns' (fs : list simFrame) :
  dom ns = dom ns' -> filter (known ns) fs = filter (known ns') fs.
Proof.
  intros Hd. apply list_filter_iff. intros f. unfold known. by rewrite <- !elem_of_dom, Hd.
Qed.

Lemma deliverDue_spec fuel t m s :
  heap (pendingFrames m) -> (length (pendingFrames m) <= fuel)%nat ->
  exists (due : list (Z * simFrame)) m' s', deliverDue fuel t m s = (m', s') /\
    Forall (fun x => x.1 <= t) due /\ Forall (fun p => t < deliveryAt p) (pendingFrames m') /\
    due ++ flights (pendingFrames m') ≡ₚ flights (pendingFrames m) /\
    StronglySorted Z.le due.*1 /\
    nodes m' = foldl (receive t) (nodes m) due.*2 /\
    same_links m m' /\ heap (pendingFrames m') /\
    s_Now s' = s_Now s /\ FramesSent s' = FramesSent s /\
    FramesDelivered s' = FramesDelivered s + len (filter (known (nodes m)) due.*2).
Proof.
  revert m s. induction fuel as [|fuel IH]; intros m s Hh Hfuel; cbn [deliverDue].
  { exists [], m, s. destruct (pendingFrames m) eqn:Hp; [|cbn in Hfuel; lia].
    repeat (split; [solve [done | constructor]|]). unfold len. cbn. lia. }
  destruct (pendingFrames m) as [|p h] eqn:Hp.
  { exists [], m, s. rewrite Hp. repeat (split; [solve [done | constructor]|]). unfold len. cbn. lia. }
  destruct (heapPop_spec (p :: h) p Hh eq_refl) as (h' & q & Hpop & _ & _ & Hh' & Hperm & Hmin).
  destruct (Z.gtb_spec (deliveryAt p) t) as [Hlate | Hdue].
  { exists [], m, s. rewrite Hp. split; [done|]. split; [constructor|]. split.
    - assert (Hall : Forall (fun x => t < x.1) (flights (p :: h))).
      { rewrite <- Hperm. constructor; [exact Hlate|]. apply Forall_fmap.
        eapply Forall_impl; [exact Hmin|]. unfold len. cbn. lia. }
      rewrite Forall_fmap in Hall. exact Hall.
    - repeat (split; [solve [done | constructor]|]). unfold len. cbn. lia. }
  rewrite Hpop. cbn [fst].
  assert (Hlen : (length h' <= fuel)%nat).
  { apply Permutation_length in Hperm. cbn in Hperm, Hfuel. rewrite !length_fmap in Hperm. lia. }
  (** Whatever becomes of the frame, the rest of the loop starts from [m1]. *)
  assert (Hgo : forall ns s1,
    ns = receive t (nodes m) (frame p) -> s_Now s1 = s_Now s -> FramesSent s1 = FramesSent s ->
    FramesDelivered s1 = FramesDelivered s + len (filter (known (nodes m)) [frame p]) ->
    exists due m' s',
      deliverDue fuel t (set_nodes (set_pending m h' (rng m)) ns) s1 = (m', s') /\
      Forall (fun x => x.1 <= t) due /\ Forall (fun p => t < deliveryAt p) (pendingFrames m') /\
      due ++ flights (pendingFrames m') ≡ₚ flights (p :: h) /\
      StronglySorted Z.le due.*1 /\
      nodes m' = foldl (receive t) (nodes m) due.*2 /\
      same_links m m' /\ heap (pendingFrames m') /\
      s_Now s' = s_Now s /\ FramesSent s' = FramesSent s /\
      FramesDelivered s' = FramesDelivered s + len (filter (known (nodes m)) due.*2)).
  { intros ns s1 -> Hs1 Hs2 Hs3.
    destruct (IH (set_nodes (set_pending m h' (rng m)) (receive t (nodes m) (frame p))) s1 Hh' Hlen)
      as (due & m' & s' & -> & Hd & Hk & Hpm & Hsort & Hn & Hsame & Hheap & H1s & H2s & H3s).
    exists (flight p :: due), m', s'. cbn [pendingFrames set_nodes set_pending] in Hpm, H3s.
    assert (Hperm2 : (flight p :: due) ++ flights (pendingFrames m') ≡ₚ flights (p :: h)).
    { cbn [app]. rewrite Hpm. exact Hperm. }
    split; [done|]. split; [by constructor|]. split; [done|]. split; [done|]. split.
    { cbn. constructor; [done|]. apply Forall_fmap.
      assert (Hle : Forall (fun x : Z * simFrame => deliveryAt p <= x.1)
                      (due ++ flights (pendingFrames m'))).
      { rewrite Hpm. by apply Forall_fmap. }
      by apply Forall_app in Hle as [? _]. }
    split; [exact Hn|]. split; [exact Hsame|]. split; [done|]. split; [congruence|].
    split; [congruence|]. rewrite H3s, Hs3. cbn [nodes set_nodes].
    rewrite (known_dom (receive t (nodes m) (frame p)) (nodes m)) by apply dom_receive.
    change ((flight p :: due).*2) with ([frame p] ++ due.*2).
    rewrite filter_app. unfold len. rewrite length_app. lia. }
  change (nodes (set_pending m h' (rng m))) with (nodes m).
  destruct (nodes m !! f_To (frame p)) as [n|] eqn:Hn.
  - destruct (node_Receive t (frame p) n) as [n' err] eqn:Hr. apply Hgo; try done.
    + unfold receive. by rewrite Hn, Hr.
    + cbn [FramesDelivered]. rewrite filter_cons_True by (unfold known; eauto). done.
  - destruct (Hgo (nodes m) s) as (due & m' & s' & Hrun & Hrest); try done.
    + unfold receive. by rewrite Hn.
    + rewrite filter_cons_False; [unfold len; cbn; lia|]. unfold known. rewrite Hn. by intros [? ?].
    + exists due, m', s'. split; [exact Hrun | exact Hrest].
Qed.
End lemmas.

(** ** Links *)

Section links.
Context {S R : Type}.

Lemma edgeOf_AddEdge (m : Mesh S R) e a b :
  edgeOf (AddEdge m e) a b =
    if decide (a = e_From e /\ b = e_To e) then Some e else edgeOf m a b.
Proof.
  unfold edgeOf, AddEdge. cbn [edges]. destruct (decide (a = e_From e)) as [-> | Ha].
  - rewrite lookup_insert_eq. destruct (decide (b = e_To e)) as [-> | Hb].
    + rewrite lookup_insert_eq, decide_True; done.
    + rewrite lookup_insert_ne by done. rewrite decide_False by tauto.
      destruct (edges m !! e_From e); [done | apply lookup_empty].
  - rewrite lookup_insert_ne by done. rewrite decide_False by tauto. done.
Qed.

Lemma AddEdge_ok D (m : Mesh S R) e :
  meshOK D m -> 0 <= LatencyMs e -> JitterMs e < 2 ^ 60 -> LatencyMs e + Z.max 0 (JitterMs e) <= D ->
  meshOK D (AddEdge m e).
Proof.
  intros [[HD Hl] Hok] H1 H2 H3. split; [|exact Hok]. split; [exact HD|]. intros a b e'.
  rewrite edgeOf_AddEdge. case_decide; [intros [= <-]; done | apply Hl].
Qed.
End links.
