(* ===== verification/StubNode.v ===== *)
(** * The flooding node (src/sim/stub_node.go)

    A node of the simulator that forwards every payload it has not seen to its peers. The JSON
    encoding of its records (encoding/json) is a parameter. *)
From S2P Require Import Prelude Types Crypto Sim.
#[local] Open Scope Z_scope.

(** [type Record struct] of src/sim/sim.go; [wireRecord] has the same fields. *)
Record simRecord := mkSimRecord {
  sr_Topic : string; sr_NodeID : string; sr_HLC : Z; sr_Body : bytes; sr_Tombstone : bool }.

(** [json.Marshal] and [json.Unmarshal] at the type [wireRecord]. *)
Class Json := {
  json_Marshal : simRecord -> bytes;
  json_Unmarshal : bytes -> simRecord + string
}.

(** Strings of ASCII characters, which JSON carries unchanged (others may be replaced). *)
Definition ascii (s : string) : bool := forallb (fun b => byteZ b <? 128) (toBytes s).

Class JsonLaws `{Json} := {
  json_roundtrip : forall r, ascii (sr_Topic r) = true -> ascii (sr_NodeID r) = true ->
    is_u64 (sr_HLC r) -> json_Unmarshal (json_Marshal r) = inl r
}.

Record StubNode := mkStub {
  stub_id : string;
  stub_peers : list string;
  stub_records : gmap string (gmap string simRecord);
  stub_pending : list simFrame;
  stub_delivered : gset bytes
}.

Section stub.
Context `{Sha256} `{Json} `{MapOrder}.

Definition encodeRecord (r : simRecord) : bytes := json_Marshal r.
Definition decodeRecord (data : bytes) : simRecord + string := json_Unmarshal data.

Definition NewStubNode (id : string) (peers : list string) : StubNode := mkStub id peers ∅ [] ∅.

(** [n.records[topic][node] = r]. *)
Definition putRecord (recs : gmap string (gmap string simRecord)) (r : simRecord)
    : gmap string (gmap string simRecord) :=
  <[sr_Topic r := <[sr_NodeID r := r]> (default ∅ (recs !! sr_Topic r))]> recs.

Definition getRecord (recs : gmap string (gmap string simRecord)) (topic node : string)
    : option simRecord :=
  match recs !! topic with Some byNode => byNode !! node | None => None end.

(** The frames with payload [b] for the peers that [skip] does not exclude. *)
Definition floodFrames (id : string) (skip : string -> bool) (peers : list string) (b : bytes)
    : list simFrame :=
  omap (fun peer => if skip peer then None else Some (mkSimFrame id peer b)) peers.

(** The method [Publish] of [StubNode]. *)
Definition stubPublish (topic : string) (hlc : Z) (body : bytes) (n : StubNode) : StubNode :=
  let r := mkSimRecord topic (stub_id n) hlc body false in
  let payload := encodeRecord r in
  mkStub (stub_id n) (stub_peers n) (putRecord (stub_records n) r)
    (stub_pending n ++
       floodFrames (stub_id n) (fun peer => String.eqb peer (stub_id n)) (stub_peers n) payload)
    ({[ sha256 payload ]} ∪ stub_delivered n).

(** The method [Step] of [StubNode]. *)
Definition stubStep (_ : Z) (n : StubNode) : StubNode * list simFrame * option string :=
  (mkStub (stub_id n) (stub_peers n) (stub_records n) [] (stub_delivered n), stub_pending n, None).

(** The method [Receive] of [StubNode]. A topic's map is created before the comparison. *)
Definition stubReceive (_ : Z) (f : simFrame) (n : StubNode) : StubNode * option string :=
  let hash := sha256 (f_Body f) in
  if decide (hash ∈ stub_delivered n) then (n, None) else
  let delivered := {[ hash ]} ∪ stub_delivered n in
  match decodeRecord (f_Body f) with
  | inr err =>
      (mkStub (stub_id n) (stub_peers n) (stub_records n) (stub_pending n) delivered, Some err)
  | inl r =>
      let byNode := default ∅ (stub_records n !! sr_Topic r) in
      let byNode :=
        match byNode !! sr_NodeID r with
        | Some existing => if sr_HLC r >? sr_HLC existing then <[sr_NodeID r := r]> byNode else byNode
        | None => <[sr_NodeID r := r]> byNode
        end in
      (mkStub (stub_id n) (stub_peers n) (<[sr_Topic r := byNode]> (stub_records n))
         (stub_pending n ++
            floodFrames (stub_id n)
              (fun peer => String.eqb peer (stub_id n) || String.eqb peer (f_From f))
              (stub_peers n) (f_Body f))
         delivered, None)
  end.

(** The method [Records] of [StubNode]. *)
Definition stubRecords (n : StubNode) : gmap string (list simRecord) :=
  (fun byNode => (map_order byNode).*2) <$> stub_records n.

#[export] Instance StubNode_node : SimNode StubNode :=
  {| node_ID := stub_id; node_Step := stubStep; node_Receive := stubReceive |}.
End stub.
