(* ===== verification/SimSamples.v ===== *)
(** * A sample mesh

    A toy encoding of records, a random source that always draws zero, and a line of three
    flooding nodes, on which the examples of the simulator's properties evaluate. *)
From S2P Require Import Prelude Types Crypto Sim SimHeap SimLemmas StubNode.
From Stdlib Require Import QArith.
#[local] Open Scope Z_scope.

Module ToyJson.
(** The strings end at a byte that is not ASCII. *)
Definition mark : byte := byteOfZ 255.

Fixpoint span (l : bytes) : bytes * bytes :=
  match l with
  | [] => ([], [])
  | b :: l' => if byteZ b <? 128 then (b :: (span l').1, (span l').2) else ([], l')
  end.

Lemma span_app s l : forallb (fun b => byteZ b <? 128) s = true -> span (s ++ mark :: l) = (s, l).
Proof.
  induction s as [|b s IH]; cbn [forallb app span]; [intros _; reflexivity|].
  intros [-> Hs]%andb_true_iff. by rewrite IH.
Qed.

Definition marshal (r : simRecord) : bytes :=
  toBytes (sr_Topic r) ++ mark :: toBytes (sr_NodeID r) ++ mark ::
    be_put 8 (sr_HLC r) ++ (if sr_Tombstone r then x01 else x00) :: sr_Body r.

Definition unmarshal (b : bytes) : simRecord + string :=
  let '(t, b) := span b in
  let '(n, b) := span b in
  match drop 8 b with
  | d :: body =>
      inl (mkSimRecord (ofBytes t) (ofBytes n) (be_get (take 8 b)) body (Byte.eqb d x01))
  | [] => inr "short"%string
  end.

#[export] Instance json : Json := {| json_Marshal := marshal; json_Unmarshal := unmarshal |}.

#[export] Instance laws : JsonLaws.
Proof.
  split. intros [t n h b d] Ht Hn Hh.
  unfold json_Unmarshal, json_Marshal, json, unmarshal, marshal.
  cbn [sr_Topic sr_NodeID sr_HLC sr_Body sr_Tombstone] in *.
  rewrite (span_app (toBytes t)) by exact Ht. rewrite (span_app (toBytes n)) by exact Hn.
  rewrite drop_app_length', take_app_length' by (by rewrite length_be_put).
  rewrite be_get_put, Z.mod_small, !ofBytes_toBytes by exact Hh. by destruct d.
Qed.
End ToyJson.

Module ToyRng.
#[export] Instance rng : Rng () :=
  {| rng_new _ := (); rng_Float64 _ := ((), 0%Q); rng_Intn _ _ := ((), 0) |}.
#[export] Instance laws : RngLaws ().
Proof. split; cbn; [split; [discriminate | reflexivity] | lia]. Qed.
End ToyRng.

(** ** A line of three nodes *)

Module Line.
Import ToyJson ToyRng.
#[local] Existing Instances ToySha256.hash std_order.

Definition link (a b : string) : Edge := mkEdge a b 2 1 0 0.

Definition line : Mesh StubNode () :=
  AddEdge (AddEdge (AddEdge (AddEdge
    (AddNode (AddNode (AddNode (NewMesh 7)
       (NewStubNode "a" ["b"])) (NewStubNode "b" ["a"; "c"])) (NewStubNode "c" ["b"]))
    (link "a" "b")) (link "b" "a")) (link "b" "c")) (link "c" "b").

(** The node at the end of the line has a payload to send. *)
Definition busy : Mesh StubNode () :=
  set_nodes line
    (<["a" := stubPublish "fleet" 5 (toBytes "up") (NewStubNode "a" ["b"])]> (nodes line)).

Lemma line_meshOK : meshOK 3 line.
Proof.
  unfold line. repeat (apply AddEdge_ok; [|cbn; lia..]).
  split; [split; [lia|]|]; [intros a b e He; discriminate He|].
  split; [apply heap_nil|]. split; [cbn; lia | constructor].
Qed.
End Line.
