(* ===== verification/SimSpec.v ===== *)
(** * What the simulator promises

    The queue refines a bag from which a frame due first is taken; a step delivers exactly the
    frames that are due, at the tick they are due; a run stops at the first state that meets
    its predicate. *)
From S2P Require Import Prelude Types Crypto Sim SimHeap SimLemmas StubNode SimSamples.
From Stdlib Require Import QArith.
#[local] Open Scope Z_scope.

(** ** The queue as a bag *)

Inductive queueOp := QPush (x : pendingFrame) | QPop.

(** The bag: what an operation may answer and leave. *)
Inductive bagStep : list (Z * simFrame) -> queueOp -> option (Z * simFrame) ->
    list (Z * simFrame) -> Prop :=
  | bag_push b x b' : b' ≡ₚ flight x :: b -> bagStep b (QPush x) None b'
  | bag_empty : bagStep [] QPop None []
  | bag_pop b x b' :
      b ≡ₚ x :: b' -> Forall (fun y => x.1 <= y.1) b' -> bagStep b QPop (Some x) b'.

Inductive bagRun : list (Z * simFrame) -> list queueOp -> list (option (Z * simFrame)) ->
    list (Z * simFrame) -> Prop :=
  | bag_nil b : bagRun b [] [] b
  | bag_cons b op out b' ops outs b'' :
      bagStep b op out b' -> bagRun b' ops outs b'' -> bagRun b (op :: ops) (out :: outs) b''.

(** The code: [Step] calls [heap.Pop] on a queue that is not empty. *)
Definition queueStep (h : list pendingFrame) (op : queueOp) :
    list pendingFrame * option pendingFrame :=
  match op with
  | QPush x => (heapPush h x, None)
  | QPop => match h with [] => (h, None) | _ => heapPop h end
  end.

Fixpoint queueRun (h : list pendingFrame) (ops : list queueOp) :
    list pendingFrame * list (option pendingFrame) :=
  match ops with
  | [] => (h, [])
  | op :: ops =>
      let '(h, out) := queueStep h op in
      let '(h, outs) := queueRun h ops in (h, out :: outs)
  end.

Lemma queueStep_bag h op :
  heap h -> exists h' out, queueStep h op = (h', out) /\ heap h' /\
    bagStep (flights h) op (option_map flight out) (flights h').
Proof.
  intros Hh. destruct op as [x|]; cbn [queueStep].
  - eexists _, _. split; [done|]. split; [by apply heapPush_heap|].
    apply bag_push, heapPush_flights.
  - destruct h as [|p h]; [eexists _, _; split; [done|]; split; [done | constructor]|].
    destruct (heapPop_spec (p :: h) p Hh eq_refl) as (h' & q & -> & Hq & _ & Hh' & Hperm & Hmin).
    eexists _, _. split; [done|]. split; [done|]. cbn [option_map]. rewrite Hq.
    apply bag_pop; [by symmetry|]. by apply Forall_fmap.
Qed.

(** C32: whatever is pushed and popped, starting from an empty queue, the array that the sift
    loops maintain answers as a bag of frames does from which a pop takes one that is due
    first, each exactly once; the array stays in heap order and every frame in it carries its
    position in the field index. *)
Theorem queue_refines_bag (ops : list queueOp) :
  exists h outs, queueRun [] ops = (h, outs) /\ heap h /\
    bagRun [] ops (option_map flight <$> outs) (flights h).
Proof.
  assert (Hgen : forall h, heap h -> exists h' outs, queueRun h ops = (h', outs) /\ heap h' /\
    bagRun (flights h) ops (option_map flight <$> outs) (flights h')).
  { induction ops as [|op ops IH]; intros h Hh; cbn [queueRun].
    { eexists _, _. split; [done|]. split; [done | constructor]. }
    destruct (queueStep_bag h op Hh) as (h1 & out & -> & Hh1 & Hstep).
    destruct (IH h1 Hh1) as (h2 & outs & -> & Hh2 & Hrun).
    eexists _, _. split; [done|]. split; [done|]. econstructor; eassumption. }
  exact (Hgen [] heap_nil).
Qed.

Lemma bag_split {A} (P : A -> Prop) `{forall x, Decision (P x)} (a b c d : list A) :
  a ++ b ≡ₚ c ++ d -> Forall P a -> Forall (fun x => ~ P x) b -> Forall (fun x => ~ P x) c ->
  exists e, d ≡ₚ a ++ e /\ b ≡ₚ e ++ c.
Proof.
  intros Hp Ha Hb Hc. exists (filter (fun x => ~ P x) d).
  assert (Hyes : forall l, Forall P l -> filter P l = l /\ filter (fun x => ~ P x) l = []).
  { induction 1 as [|x l Hx _ [IH1 IH2]]; [done|].
    rewrite !filter_cons, IH1, IH2, decide_True, decide_False by tauto. done. }
  assert (Hno : forall l, Forall (fun x => ~ P x) l ->
    filter P l = [] /\ filter (fun x => ~ P x) l = l).
  { induction 1 as [|x l Hx _ [IH1 IH2]]; [done|].
    rewrite !filter_cons, IH1, IH2, decide_False, decide_True by tauto. done. }
  pose proof (filter_Permutation P _ _ Hp) as Hin.
  pose proof (filter_Permutation (fun x => ~ P x) _ _ Hp) as Hout.
  rewrite !filter_app in Hin, Hout. destruct (Hyes a Ha) as [Ha1 Ha2].
  destruct (Hno b Hb) as [Hb1 Hb2], (Hno c Hc) as [Hc1 Hc2].
  rewrite Ha1, Hb1, Hc1, app_nil_r in Hin. rewrite Ha2, Hb2, Hc2 in Hout.
  cbn [app] in Hin, Hout. split; [|by rewrite Hout, Permutation_app_comm].
  rewrite Hin. apply filter_complement.
Qed.

Section step.
Context {S R : Type} `{SimNode S} `{Rng R} `{!RngLaws R} `{MapOrder}.
Implicit Types m : Mesh S R.

Lemma elem_of_NodeIDs m id : id ∈ NodeIDs m <-> is_Some (nodes m !! id).
Proof.
  unfold NodeIDs. rewrite elem_of_sort_by, list_elem_of_fmap. split.
  - intros ((k & n) & -> & Hkn%elem_of_map_order). eauto.
  - intros [n Hn]. exists (id, n). split; [done|]. by apply elem_of_map_order.
Qed.

Lemma NoDup_NodeIDs m : NoDup (NodeIDs m).
Proof. unfold NodeIDs. rewrite sort_by_perm. apply NoDup_map_order_fst. Qed.

(** Every node ticks once. *)
Definition afterTick (t : Z) m : gmap string S := (fun n => (node_Step t n).1.1) <$> nodes m.

Lemma ticked_all t m : ticked t (nodes m) (NodeIDs m) = afterTick t m.
Proof.
  apply map_eq. intros id. unfold afterTick. rewrite lookup_ticked, lookup_fmap.
  destruct (nodes m !! id) as [n|] eqn:Hn; [|done]. cbn [fmap option_fmap option_map].
  rewrite decide_True; [done|]. apply elem_of_NodeIDs. eauto.
Qed.

Definition sentAt (t : Z) m : list simFrame := handed t (nodes m) (NodeIDs m).

(** What a step does with the frames: those it delivers, those it leaves in flight, and those
    it adds. *)
Definition step_account (D : Z) (m m' : Mesh S R) (s : StepSummary) : Prop :=
  let t := now m + 1 in
  exists due later new,
    flights (pendingFrames m) ≡ₚ due ++ later /\
    Forall (fun x => x.1 = t) due /\ Forall (fun x => t < x.1) later /\
    flights (pendingFrames m') ≡ₚ later ++ new /\
    Forall (fun x => t < x.1 <= t + D) new /\
    sublist new.*2 (filter (hasEdge m) (sentAt t m)) /\
    (Forall (lossless m) (sentAt t m) -> new.*2 = filter (hasEdge m) (sentAt t m)) /\
    nodes m' = foldl (receive t) (afterTick t m) due.*2 /\
    s_Now s = t /\ FramesSent s = len (sentAt t m) /\
    FramesDelivered s = len (filter (known (nodes m)) due.*2) /\
    FramesInFlight s = len later + len new /\
    meshOK D m' /\ now m' = t /\ edges m' = edges m.

Lemma Step_accounts D m m' s :
  meshOK D m -> now m + 1 < 2 ^ 60 -> Step m = (m', s) -> step_account D m m' s.
Proof.
  intros (Hl & Hh & Hnow & Hfut) Hmax Hstep. unfold step_account.
  set (t := now m + 1). revert Hstep. unfold Step.
  rewrite i64_small by (unfold is_i64; lia). fold t. set (m0 := mkMesh _ _ _ _ _).
  destruct (stepNodes_spec D t (NodeIDs m) m0 (mkSummary t 0 0 0 []))
    as (new & m1 & s1 & Hfold & Hn1 & (Hs1 & Hh1 & Hp1 & Hr1 & Hsub & Hall) & H1a & H1b & H1c);
    [apply NoDup_NodeIDs | exact Hl | exact Hh | lia|].
  change (NodeIDs m0) with (NodeIDs m). rewrite Hfold.
  destruct (deliverDue_spec (length (pendingFrames m1)) t m1 s1 Hh1 (Nat.le_refl _))
    as (due & m2 & s2 & -> & Hdue & Hlate & Hp2 & _ & Hn2 & Hs2 & Hh2 & H2a & H2b & H2c).
  intros [= <- <-]. cbn [now edges nodes pendingFrames m0] in *.
  rewrite Hp1 in Hp2.
  destruct (bag_split (fun x => x.1 <= t) due (flights (pendingFrames m2)) new
    (flights (pendingFrames m)) Hp2 Hdue) as (later & Hsplit & Hrest).
  { apply Forall_fmap. eapply Forall_impl; [exact Hlate|]. cbn. lia. }
  { eapply Forall_impl; [exact Hr1|]. cbn. lia. }
  assert (Hfut' : Forall (fun x : Z * simFrame => t <= x.1 <= now m + D) (due ++ later)).
  { rewrite <- Hsplit. apply Forall_fmap. eapply Forall_impl; [exact Hfut|]. cbn. lia. }
  apply Forall_app in Hfut' as [Hfd Hfl].
  assert (Hlater : Forall (fun x : Z * simFrame => t < x.1) (later ++ new)).
  { rewrite <- Hrest. apply Forall_fmap. exact Hlate. }
  assert (Hsame : same_links m0 m2) by (etrans; [exact Hs1 | exact Hs2]).
  exists due, later, new. cbn [pendingFrames nodes] in *. split; [exact Hsplit|].
  split. { apply Forall_forall. intros x Hx. rewrite Forall_forall in Hfd, Hdue.
           specialize (Hfd x Hx). specialize (Hdue x Hx). cbn in *. lia. }
  split; [by apply Forall_app in Hlater as [? _]|]. split; [exact Hrest|].
  split; [exact Hr1|]. split; [exact Hsub|]. split; [exact Hall|].
  assert (Hn1' : nodes m1 = afterTick t m) by (rewrite Hn1; apply ticked_all).
  split; [rewrite Hn2, Hn1'; done|]. split; [cbn in *; congruence|].
  split; [cbn in *; rewrite H2b, H1b; done|].
  split. { cbn in *. rewrite H2c, H1c, Hn1', (known_dom _ (nodes m)); [done|]. apply dom_fmap_L. }
  split. { cbn. apply Permutation_length in Hrest. unfold len.
           rewrite length_fmap, length_app in Hrest. lia. }
  destruct Hsame as [He Hnw]. cbn in He, Hnw.
  split; [|done]. split; [by eapply linksBounded_edges|].
  split; [exact Hh2|]. cbn [now pendingFrames]. rewrite Hnw. split; [lia|].
  assert (Hin : Forall (fun x : Z * simFrame => t < x.1 <= t + D) (flights (pendingFrames m2))).
  { rewrite Hrest. apply Forall_app. split; [|exact Hr1].
    apply Forall_app in Hlater as [Hlater _]. rewrite Forall_forall in *.
    intros x Hx. specialize (Hfl x Hx). specialize (Hlater x Hx). cbn in *. lia. }
  rewrite Forall_fmap in Hin. exact Hin.
Qed.

(** C31: a step of a mesh whose links have a delay of at most [D]. The frames in flight are
    those due now and later ones; exactly those due at this very tick are received, once each,
    in the order of their times, by the nodes after every node has ticked once; the later ones
    stay; of the frames the ticks hand over those with a link that are not lost join them, due
    after this tick and within [D] (all of them where no link loses anything); the counters of
    the summary are the numbers of these frames; and the mesh invariant holds again. *)
Theorem Step_spec D m m' s :
  meshOK D m -> now m + 1 < 2 ^ 60 -> Step m = (m', s) ->
  let t := now m + 1 in
  exists due later new,
    flights (pendingFrames m) ≡ₚ due ++ later /\
    Forall (fun x => x.1 = t) due /\ Forall (fun x => t < x.1) later /\
    flights (pendingFrames m') ≡ₚ later ++ new /\
    Forall (fun x => t < x.1 <= t + D) new /\
    sublist new.*2 (filter (hasEdge m) (sentAt t m)) /\
    (Forall (lossless m) (sentAt t m) -> new.*2 = filter (hasEdge m) (sentAt t m)) /\
    nodes m' = foldl (receive t) (afterTick t m) due.*2 /\
    s_Now s = t /\ FramesSent s = len (sentAt t m) /\
    FramesDelivered s = len (filter (known (nodes m)) due.*2) /\
    FramesInFlight s = len later + len new /\
    meshOK D m' /\ now m' = t /\ edges m' = edges m.
Proof. exact (Step_accounts D m m' s). Qed.
End step.

(** One frame leaves, and is in flight. *)
Lemma Step_spec_witness :
  meshOK 3 Line.busy /\
  let '(m', s) := @Step _ _ (@StubNode_node ToySha256.hash ToyJson.json) ToyRng.rng std_order Line.busy in
  FramesSent s = 1 /\ FramesInFlight s = 1 /\ meshOK 3 m'.
Proof.
  split; [exact Line.line_meshOK|].
  destruct (@Step _ _ (@StubNode_node ToySha256.hash ToyJson.json) ToyRng.rng std_order Line.busy)
    as [m' s] eqn:Hs.
  pose proof (@Step_spec _ _ _ _ ToyRng.laws std_order 3 Line.busy m' s Line.line_meshOK
    ltac:(cbn; lia) Hs) as (due & later & new & _ & _ & _ & _ & _ & _ & _ & _ & _ & _ & _ & _ & Hok & _).
  split; [|split; [|exact Hok]].
  - apply (f_equal snd) in Hs. cbn [snd] in Hs. subst s. vm_compute. reflexivity.
  - apply (f_equal snd) in Hs. cbn [snd] in Hs. subst s. vm_compute. reflexivity.
Defined.

(** ** A run *)

Section run.
Context {S R : Type} `{SimNode S} `{Rng R} `{MapOrder}.
Implicit Types m : Mesh S R.

(** The mesh after [k] steps. *)
Definition after (k : nat) m : Mesh S R := Nat.iter k (fun m => (Step m).1) m.

Lemma after_S k m : after (Datatypes.S k) m = after k (Step m).1.
Proof. unfold after. by rewrite Nat.iter_succ_r. Qed.

Lemma after_add j k m : after (j + k) m = after j (after k m).
Proof. unfold after. apply Nat.iter_add. Qed.

Lemma runLoop_spec left i m predicate :
  let '(m', i', ok) := runLoop left i m predicate in
  exists k, (k <= left)%nat /\ m' = after k m /\ i' = i + Z.of_nat k /\
    (forall j, (j < k)%nat -> predicate (after j m) = false) /\
    if ok then (k < left)%nat /\ predicate m' = true else k = left.
Proof.
  revert i m. induction left as [|left IH]; intros i m; cbn [runLoop].
  { exists 0%nat. repeat split; lia. }
  destruct (predicate m) eqn:Hp.
  { exists 0%nat. repeat split; try lia. exact Hp. }
  specialize (IH (i + 1) (Step m).1). destruct (runLoop _ _ _ _) as [[m' i'] ok].
  destruct IH as (k & Hk & -> & -> & Hbefore & Hok).
  exists (Datatypes.S k). rewrite after_S. repeat split; try lia.
  - intros [|j] Hj; [exact Hp|]. rewrite after_S. apply Hbefore. lia.
  - destruct ok; [|lia]. destruct Hok. split; [lia | done].
Qed.

(** C40: a run ends, after [k] steps of which there are at most [maxSteps]; the predicate was
    false before each of them; either it holds in the last state, which is reached in fewer
    than [maxSteps] steps and whose number is answered, or all the steps were made and
    [maxSteps] is answered with an error. (In the second case the last state is not tested.) *)
Theorem Run_spec m maxSteps predicate :
  let '(m', i, ok) := Run m maxSteps predicate in
  exists k, m' = after k m /\ Z.of_nat k <= Z.max 0 maxSteps /\
    (forall j, (j < k)%nat -> predicate (after j m) = false) /\
    if ok then i = Z.of_nat k /\ i < maxSteps /\ predicate m' = true
    else i = maxSteps /\ Z.of_nat k = Z.max 0 maxSteps.
Proof.
  unfold Run. pose proof (runLoop_spec (Z.to_nat maxSteps) 0 m predicate) as Hrun.
  destruct (runLoop _ _ _ _) as [[m' i] ok]. destruct Hrun as (k & Hk & Hm & Hi & Hb & Hok).
  exists k. split; [exact Hm|]. split; [lia|]. split; [exact Hb|].
  destruct ok; [destruct Hok; repeat split; try lia; done | split; lia].
Qed.
End run.
