(* ===== verification/FloodSpec.v ===== *)
(** * Flooding reaches everyone

    One publication in a mesh of flooding nodes: the invariant that whoever has the payload
    owes it to its peers, and the time by which it has arrived. *)
From S2P Require Import Prelude Types Crypto Sim SimHeap SimLemmas SimSpec StubNode SimSamples.
From Stdlib Require Import QArith.
#[local] Open Scope Z_scope.

(** ** What a node does with a frame *)

Section receive.
Context `{Sha256} `{Json} `{MapOrder}.

Lemma elem_of_floodFrames id skip peers b f :
  f ∈ floodFrames id skip peers b <->
    exists p, p ∈ peers /\ skip p = false /\ f = mkSimFrame id p b.
Proof.
  unfold floodFrames. rewrite list_elem_of_omap. split.
  - intros (p & Hp & Hf). destruct (skip p) eqn:Hs; [done|]. injection Hf as <-. eauto.
  - intros (p & Hp & Hs & ->). exists p. rewrite Hs. done.
Qed.

Lemma getRecord_insert recs topic byNode t id :
  getRecord (<[topic := byNode]> recs) t id =
    if decide (t = topic) then byNode !! id else getRecord recs t id.
Proof.
  unfold getRecord. case_decide as Ht; [subst; by rewrite lookup_insert_eq|].
  by rewrite lookup_insert_ne.
Qed.

Lemma getRecord_default recs topic id : default ∅ (recs !! topic) !! id = getRecord recs topic id.
Proof. unfold getRecord. destruct (recs !! topic); [done|]. cbn. apply lookup_empty. Qed.

(** A slot holds a record at least as new as [hlc]. *)
Definition slotNewer (n : StubNode) (topic id : string) (hlc : Z) : Prop :=
  exists r, getRecord (stub_records n) topic id = Some r /\ hlc <= sr_HLC r.

(** The slot of [r] after the comparison is as new as [r] and as what it held; no other slot
    changes. *)
Lemma newer_wins n n' r :
  stub_records n' =
    <[sr_Topic r :=
        let byNode := default ∅ (stub_records n !! sr_Topic r) in
        match byNode !! sr_NodeID r with
        | Some existing => if sr_HLC r >? sr_HLC existing then <[sr_NodeID r := r]> byNode else byNode
        | None => <[sr_NodeID r := r]> byNode
        end]> (stub_records n) ->
  slotNewer n' (sr_Topic r) (sr_NodeID r) (sr_HLC r) /\
  (forall topic id hlc, slotNewer n topic id hlc -> slotNewer n' topic id hlc).
Proof.
  intros Hn'. unfold slotNewer. cbn zeta in Hn'.
  rewrite Hn'. rewrite getRecord_default. setoid_rewrite getRecord_insert. split.
  - rewrite decide_True by done.
    destruct (getRecord _ _ _) as [e|] eqn:He; [|rewrite lookup_insert_eq; eauto with lia].
    destruct (Z.gtb_spec (sr_HLC r) (sr_HLC e)).
    + rewrite lookup_insert_eq. exists r. split; [done | lia].
    + rewrite getRecord_default, He. eauto.
  - intros topic id hlc (r0 & Hr0 & Hle). case_decide as Ht; [|eauto]. subst topic.
    destruct (decide (id = sr_NodeID r)) as [-> | Hne].
    + rewrite Hr0. destruct (Z.gtb_spec (sr_HLC r) (sr_HLC r0)).
      * rewrite lookup_insert_eq. exists r. split; [done | lia].
      * rewrite getRecord_default. eauto.
    + exists r0. split; [|done].
      repeat case_match; rewrite ?lookup_insert_ne, ?getRecord_default by done; done.
Qed.

(** A slot holds what it held, or the record that came in. *)
Lemma record_source recs r topic id r0 :
  getRecord
    (<[sr_Topic r :=
        let byNode := default ∅ (recs !! sr_Topic r) in
        match byNode !! sr_NodeID r with
        | Some existing => if sr_HLC r >? sr_HLC existing then <[sr_NodeID r := r]> byNode else byNode
        | None => <[sr_NodeID r := r]> byNode
        end]> recs) topic id = Some r0 ->
  getRecord recs topic id = Some r0 \/ r0 = r.
Proof.
  rewrite getRecord_insert. case_decide as Ht; [subst topic|by left]. cbv zeta.
  assert (Hins : <[sr_NodeID r := r]> (default ∅ (recs !! sr_Topic r)) !! id = Some r0 ->
    getRecord recs (sr_Topic r) id = Some r0 \/ r0 = r).
  { intros [[_ ->] | [_ Hr]]%lookup_insert_Some; [by right|left]. by rewrite <- getRecord_default. }
  repeat case_match; try exact Hins; intros Hr; left; by rewrite <- getRecord_default.
Qed.

Record received (f : simFrame) (n n' : StubNode) : Prop := {
  rcv_id : stub_id n' = stub_id n;
  rcv_peers : stub_peers n' = stub_peers n;
  rcv_delivered : stub_delivered n' = {[ sha256 (f_Body f) ]} ∪ stub_delivered n;
  rcv_pending : forall f', f' ∈ stub_pending n' <->
    f' ∈ stub_pending n \/
    ((sha256 (f_Body f) ∉ stub_delivered n) /\ (exists r, decodeRecord (f_Body f) = inl r) /\
     exists p, p ∈ stub_peers n /\ p <> stub_id n /\ p <> f_From f /\
       f' = mkSimFrame (stub_id n) p (f_Body f));
  rcv_keeps : forall topic id hlc, slotNewer n topic id hlc -> slotNewer n' topic id hlc;
  rcv_takes : forall r, sha256 (f_Body f) ∉ stub_delivered n -> decodeRecord (f_Body f) = inl r ->
    slotNewer n' (sr_Topic r) (sr_NodeID r) (sr_HLC r);
  rcv_source : forall topic id r, getRecord (stub_records n') topic id = Some r ->
    getRecord (stub_records n) topic id = Some r \/ decodeRecord (f_Body f) = inl r
}.

Lemma stubReceive_received t f n : received f n (stubReceive t f n).1.
Proof.
  unfold stubReceive. case_decide as Hin; cbn [fst].
  { split; try done; [set_solver| |by left]. intros f'. split; [tauto|].
    intros [? | (? & _)]; done. }
  destruct (decodeRecord (f_Body f)) as [r|e] eqn:Hd; cbn [fst].
  2: { split; try done; [|congruence|by left]. intros f'. split; [tauto|].
       intros [? | (_ & [r ?] & _)]; [done | congruence]. }
  set (n' := mkStub _ _ _ _ _). destruct (newer_wins n n' r) as [Htakes Hkeeps]; [done|].
  split; try done; [|intros r0 _ Hr; rewrite Hd in Hr; by injection Hr as <-
    |intros topic id r0 [? | ->]%record_source; [by left | by right]].
  intros f'. cbn. rewrite elem_of_app, elem_of_floodFrames. f_equiv. split.
  - intros (p & Hp & [Hs1 Hs2]%orb_false_iff & ->). split; [done|]. split; [eauto|].
    exists p. apply String.eqb_neq in Hs1, Hs2. done.
  - intros (_ & _ & p & Hp & ? & ? & ->). exists p.
    rewrite orb_false_iff, !String.eqb_neq. done.
Qed.
End receive.

(** ** The invariant of one publication *)

Section flood.
Context `{Sha256} `{Json} `{MapOrder}.
Context (r : simRecord) (peersOf : string -> list string) (K : simRecord -> Prop).

Abbreviation payload := (encodeRecord r).
Definition ours (f : simFrame) : Prop := sha256 (f_Body f) = sha256 payload.

Implicit Types (ns : gmap string StubNode) (air : list (Z * simFrame)).

Definition has ns (id : string) : Prop :=
  exists n, ns !! id = Some n /\ sha256 payload ∈ stub_delivered n.

#[global] Instance has_dec ns id : Decision (has ns id).
Proof.
  destruct (ns !! id) as [n|] eqn:Hn; [|right; intros (? & ? & _); congruence].
  destruct (decide (sha256 payload ∈ stub_delivered n)); [left; exists n; done|].
  right. intros (? & ? & ?). congruence.
Defined.

(** Every frame with the hash of the payload is the payload, from a node that has it; every
    node that has it has the record, or a newer one. *)
Definition faithful ns air : Prop :=
  (forall id n, ns !! id = Some n ->
     stub_id n = id /\ stub_peers n = peersOf id /\
     (forall f, f ∈ stub_pending n -> ours f ->
        f_Body f = payload /\ f_From f = id /\ has ns id /\ f_To f ∈ peersOf id /\ f_To f <> id) /\
     (has ns id -> slotNewer n (sr_Topic r) (sr_NodeID r) (sr_HLC r))) /\
  (forall x, x ∈ air -> ours x.2 -> f_Body x.2 = payload /\ has ns (f_From x.2)).

(** The records in the slots, and those that frames carry, are from [K]. *)
Definition sourced ns air : Prop :=
  (forall id n, ns !! id = Some n ->
     (forall topic o r0, getRecord (stub_records n) topic o = Some r0 -> K r0) /\
     (forall f r0, f ∈ stub_pending n -> decodeRecord (f_Body f) = inl r0 -> K r0)) /\
  (forall x r0, x ∈ air -> decodeRecord (f_Body x.2) = inl r0 -> K r0).

(** [p] has the payload, or it is on its way and due by [t]; what is still queued at a node
    is due by [T]. *)
Definition owed ns air (p : string) (t T : Z) : Prop :=
  has ns p \/
  (exists x, x ∈ air /\ f_To x.2 = p /\ ours x.2 /\ x.1 <= t) \/
  (T <= t /\ exists q n f, ns !! q = Some n /\ f ∈ stub_pending n /\ f_To f = p /\ ours f).

(** Whoever has it owes it to its peers. *)
Definition spread ns air (T : Z) : Prop :=
  forall id p, has ns id -> p ∈ peersOf id -> p <> id -> owed ns air p T T.

(** ** The arrival of a frame *)

Lemma receive_stub t ns f :
  receive t ns f = ns /\ ns !! f_To f = None \/
  exists n n', ns !! f_To f = Some n /\ received f n n' /\
    receive t ns f = <[f_To f := n']> ns.
Proof.
  unfold receive. destruct (ns !! f_To f) as [n|] eqn:Hn; [right | by left].
  exists n, (stubReceive t f n).1. split; [done|]. split; [apply stubReceive_received | done].
Qed.

Lemma has_receive t ns f id :
  has (receive t ns f) id <-> has ns id \/ (is_Some (ns !! id) /\ f_To f = id /\ ours f).
Proof.
  destruct (receive_stub t ns f) as [[-> Hn] | (n & n' & Hn & Hr & ->)].
  { split; [tauto|]. intros [? | (Hs & <- & _)]; [done|]. rewrite Hn in Hs. by destruct Hs. }
  unfold has, ours. destruct (decide (id = f_To f)) as [-> | Hne].
  - rewrite lookup_insert_eq, Hn. split.
    + intros (? & [= <-] & Hin). rewrite (rcv_delivered _ _ _ Hr) in Hin.
      apply elem_of_union in Hin as [Hin%elem_of_singleton | Hin]; [right | left]; eauto.
    + intros Hor. exists n'. split; [done|]. rewrite (rcv_delivered _ _ _ Hr), elem_of_union.
      destruct Hor as [(? & [= <-] & Hin) | (_ & _ & ->)]; [by right|].
      left. by apply elem_of_singleton.
  - rewrite lookup_insert_ne by done. split; [tauto|]. intros [? | (_ & ? & _)]; congruence.
Qed.

Lemma sourced_receive t ns x air : sourced ns (x :: air) -> sourced (receive t ns x.2) air.
Proof.
  intros [Hns Hair]. split; [|intros y r0 Hy; apply Hair; by right].
  destruct (receive_stub t ns x.2) as [[-> _] | (n & n' & Hn & Hr & ->)]; [exact Hns|].
  intros id m [[<- <-] | [_ Hm]]%lookup_insert_Some; [|by apply (Hns id)].
  destruct (Hns _ _ Hn) as [Hslots Hpend]. split.
  - intros topic o r0 [Ho | Hd]%(rcv_source _ _ _ Hr); [eauto|]. apply (Hair x); [left | done].
  - intros f r0 [Hf | (_ & _ & p & _ & _ & _ & ->)]%(rcv_pending _ _ _ Hr); [eauto|].
    apply (Hair x). left.
Qed.

Context (Hdec : decodeRecord payload = inl r).

Lemma faithful_receive t ns x air :
  faithful ns (x :: air) -> faithful (receive t ns x.2) air.
Proof.
  intros [Hns Hair]. set (f := x.2).
  assert (Hx : ours f -> f_Body f = payload /\ has ns (f_From f)) by (apply Hair; left).
  assert (Hmono : forall id, has ns id -> has (receive t ns f) id).
  { intros id ?. apply has_receive. tauto. }
  split.
  2: { intros y Hy Ho. destruct (Hair y) as [? ?]; [by right | done|]. split; [done | auto]. }
  destruct (receive_stub t ns f) as [[Heq Hn] | (n & n' & Hn & Hr & Heq)].
  { rewrite Heq. exact Hns. }
  intros id m Hm. rewrite Heq in Hm.
  destruct (decide (id = f_To f)) as [-> | Hne].
  - rewrite lookup_insert_eq in Hm. injection Hm as <-.
    destruct (Hns _ _ Hn) as (Hid & Hpeers & Hpend & Hslot).
    rewrite (rcv_id _ _ _ Hr), (rcv_peers _ _ _ Hr). split; [done|]. split; [done|]. split.
    + intros g Hg Ho. apply (rcv_pending _ _ _ Hr) in Hg as [Hg | (_ & _ & p & Hp & Hpid & _ & ->)].
      * destruct (Hpend g Hg Ho) as (? & ? & ? & ?). auto.
      * unfold ours in *. cbn in *. destruct Hx as [? _]; [done|]. split; [done|]. split; [done|].
        split; [apply has_receive; right; eauto|]. split; congruence.
    + intros Hhas. apply has_receive in Hhas.
      destruct (decide (sha256 payload ∈ stub_delivered n)) as [Hin | Hnin].
      { apply (rcv_keeps _ _ _ Hr), Hslot. exists n. done. }
      destruct Hhas as [(n0 & Hn0 & Hin) | (_ & _ & Ho)]; [congruence|].
      destruct (Hx Ho) as [Hb _].
      apply (rcv_takes _ _ _ Hr); [unfold ours in Ho; congruence | by rewrite Hb].
  - rewrite lookup_insert_ne in Hm by done. destruct (Hns id m Hm) as (? & ? & Hpend & Hslot).
    split; [done|]. split; [done|]. split.
    + intros g Hg Ho. destruct (Hpend g Hg Ho) as (? & ? & ? & ?). auto.
    + intros [Hh | (_ & ? & _)]%has_receive; [auto | congruence].
Qed.

Lemma owed_receive t ns x air p u T :
  owed ns (x :: air) p u T -> is_Some (ns !! p) -> owed (receive t ns x.2) air p u T.
Proof.
  intros [Hp | [(y & Hy & Hto & Ho & Hle) | (HT & q & n & f & Hn & Hf & Hto & Ho)]] Hs.
  - left. apply has_receive. by left.
  - apply elem_of_cons in Hy as [-> | Hy].
    + left. apply has_receive. by right.
    + right. left. eauto.
  - right. right. split; [done|].
    destruct (receive_stub t ns x.2) as [[-> _] | (m & m' & Hm & Hr & ->)]; [eauto 10|].
    destruct (decide (q = f_To x.2)) as [-> | Hne].
    + exists (f_To x.2), m', f. rewrite lookup_insert_eq. split; [done|].
      split; [|done]. apply (rcv_pending _ _ _ Hr). left. congruence.
    + exists q, n, f. rewrite lookup_insert_ne; done.
Qed.

(** Every peer of a node is a node. *)
Definition closed ns : Prop :=
  forall id p, is_Some (ns !! id) -> p ∈ peersOf id -> is_Some (ns !! p).

Lemma has_node ns id : has ns id -> is_Some (ns !! id).
Proof. intros (n & Hn & _). eauto. Qed.

Lemma spread_receive t ns x air T :
  closed ns -> faithful ns (x :: air) -> spread ns (x :: air) T ->
  spread (receive t ns x.2) air T.
Proof.
  intros Hcl [Hns Hair] Hsp id p Hid Hp Hne. set (f := x.2) in *.
  destruct (decide (has ns id)) as [Hold | Hnew].
  { apply owed_receive; [exact (Hsp id p Hold Hp Hne) | eapply Hcl; [by eapply has_node | done]]. }
  apply has_receive in Hid as [? | ([n0 Hn0] & Hto & Ho)]; [done|].
  destruct (Hair x) as [Hb Hfrom]; [left | done|]. fold f in Hb, Hfrom.
  destruct (decide (p = f_From f)) as [-> | Hpf]; [left; apply has_receive; by left|].
  right. right. split; [done|].
  destruct (receive_stub t ns f) as [[_ Hn] | (n & n' & Hn & Hr & ->)]; [congruence|].
  destruct (Hns _ _ Hn) as (Hid & Hpeers & _).
  exists (f_To f), n', (mkSimFrame (f_To f) p (f_Body f)). rewrite lookup_insert_eq.
  split; [done|]. split; [|done]. apply (rcv_pending _ _ _ Hr). right. split; [|split].
  - unfold ours in Ho. rewrite Ho. intros Hin. apply Hnew. exists n. split; [congruence | done].
  - exists r. by rewrite Hb.
  - exists p. rewrite Hpeers, Hid. split; [congruence|]. split; [congruence|]. done.
Qed.

(** ** The arrival of all frames that are due *)

Lemma is_Some_receive t ns f id : is_Some (receive t ns f !! id) <-> is_Some (ns !! id).
Proof. by rewrite <- !elem_of_dom, dom_receive. Qed.

Lemma closed_receive t ns f : closed ns -> closed (receive t ns f).
Proof. intros Hcl id p. rewrite !is_Some_receive. apply Hcl. Qed.

Lemma receives t ns due air T :
  closed ns -> faithful ns (due ++ air) -> sourced ns (due ++ air) -> spread ns (due ++ air) T ->
  let ns' := foldl (receive t) ns due.*2 in
  closed ns' /\ faithful ns' air /\ sourced ns' air /\ spread ns' air T /\
  forall p u, is_Some (ns !! p) -> owed ns (due ++ air) p u T -> owed ns' air p u T.
Proof.
  revert ns. induction due as [|x due IH]; intros ns Hcl Hf Hk Hsp; [done|].
  destruct (IH (receive t ns x.2)) as (H1' & H2' & Hk' & H3' & H4').
  - by apply closed_receive.
  - by apply faithful_receive.
  - by apply sourced_receive.
  - by apply spread_receive.
  - split; [exact H1'|]. split; [exact H2'|]. split; [exact Hk'|]. split; [exact H3'|].
    intros p u Hp Ho. apply H4'; [by apply is_Some_receive|]. by apply owed_receive.
Qed.

(** ** The tick of every node *)

Context {R : Type} `{Rng R} `{!RngLaws R}.
Implicit Types m : Mesh StubNode R.

Lemma has_tick t m id : has (afterTick t m) id <-> has (nodes m) id.
Proof.
  unfold has, afterTick. setoid_rewrite lookup_fmap_Some. split.
  - intros (? & (n & <- & Hn) & Hin). eauto.
  - intros (n & Hn & Hin). eauto 10.
Qed.

Lemma elem_of_sentAt t m f :
  f ∈ sentAt t m <-> exists id n, nodes m !! id = Some n /\ f ∈ stub_pending n.
Proof.
  unfold sentAt, handed. rewrite list_elem_of_bind. split.
  - intros (id & Hf & _). destruct (nodes m !! id) as [n|] eqn:Hn; [eauto|].
    by apply elem_of_nil in Hf.
  - intros (id & n & Hn & Hf). exists id. rewrite Hn. split; [done|].
    apply elem_of_NodeIDs. eauto.
Qed.

Lemma faithful_tick t m air (new : list (Z * simFrame)) :
  (forall f, f ∈ new.*2 -> f ∈ sentAt t m) ->
  faithful (nodes m) air -> faithful (afterTick t m) (air ++ new).
Proof.
  intros Hnew [Hns Hair]. split.
  - intros id n Hn. unfold afterTick in Hn. apply lookup_fmap_Some in Hn as (n0 & <- & Hn).
    destruct (Hns id n0 Hn) as (? & ? & _ & Hslot). cbn. split; [done|]. split; [done|].
    split; [|by rewrite has_tick]. intros f Hf. by apply elem_of_nil in Hf.
  - intros x Hx Ho. rewrite has_tick. apply elem_of_app in Hx as [Hx | Hx]; [by apply Hair|].
    assert (Hs : x.2 ∈ sentAt t m) by (apply Hnew; by apply list_elem_of_fmap_2).
    apply elem_of_sentAt in Hs as (id & n & Hn & Hf).
    destruct (Hns id n Hn) as (_ & _ & Hpend & _).
    destruct (Hpend _ Hf Ho) as (? & -> & ? & _). done.
Qed.

Lemma sourced_tick t m air (new : list (Z * simFrame)) :
  (forall f, f ∈ new.*2 -> f ∈ sentAt t m) ->
  sourced (nodes m) air -> sourced (afterTick t m) (air ++ new).
Proof.
  intros Hnew [Hns Hair]. split.
  - intros id n Hn. unfold afterTick in Hn. apply lookup_fmap_Some in Hn as (n0 & <- & Hn).
    destruct (Hns id n0 Hn) as [Hslots _]. split; [exact Hslots|].
    intros f r0 Hf. by apply elem_of_nil in Hf.
  - intros x r0 [Hx | Hx]%elem_of_app; [by apply Hair|].
    assert (Hs : x.2 ∈ sentAt t m) by (apply Hnew; by apply list_elem_of_fmap_2).
    apply elem_of_sentAt in Hs as (id & n & Hn & Hf). by apply (Hns id n Hn).
Qed.

(** Nothing is queued at a node any more: the time [T] for queued frames may move on. *)
Lemma owed_tick D t m air new p u T :
  Forall (fun x => t < x.1 <= t + D) new -> t + D <= T ->
  (forall f, f ∈ sentAt t m -> ours f -> f ∈ new.*2) ->
  owed (nodes m) air p u T -> forall T', owed (afterTick t m) (air ++ new) p u T'.
Proof.
  intros Hr HT Hall [Hp | [(y & Hy & Hrest) | (Hle & q & n & f & Hn & Hf & Hto & Ho)]] T'.
  - left. by apply has_tick.
  - right. left. exists y. rewrite elem_of_app. auto.
  - right. left. assert (Hs : f ∈ new.*2) by (apply Hall; [apply elem_of_sentAt; eauto | done]).
    apply list_elem_of_fmap in Hs as (x & -> & Hx). exists x. rewrite elem_of_app.
    split; [by right|]. split; [done|]. split; [done|].
    rewrite Forall_forall in Hr. specialize (Hr x Hx). cbn in Hr. lia.
Qed.

(** ** A step of the mesh *)

Lemma owed_air ns air air' p u T :
  (forall x, x ∈ air -> x ∈ air') -> owed ns air p u T -> owed ns air' p u T.
Proof. intros Ha [? | [(x & ? & ?) | ?]]; [by left | right; left; eauto | by right; right]. Qed.

Lemma spread_air ns air air' T :
  (forall x, x ∈ air -> x ∈ air') -> spread ns air T -> spread ns air' T.
Proof. intros Ha Hs id p ???. eapply owed_air; eauto. Qed.

Lemma faithful_air ns air air' :
  (forall x, x ∈ air' -> x ∈ air) -> faithful ns air -> faithful ns air'.
Proof. intros Ha [Hn Hf]. split; [exact Hn|]. intros x ?. apply Hf. auto. Qed.

Lemma sourced_air ns air air' : (forall x, x ∈ air' -> x ∈ air) -> sourced ns air -> sourced ns air'.
Proof. intros Ha [Hn Hf]. split; [exact Hn|]. intros x r0 ?. apply Hf. auto. Qed.

Definition owedIn (D : Z) m (p : string) (u : Z) : Prop :=
  owed (nodes m) (flights (pendingFrames m)) p u (now m + 1 + D).

(** Links that lose nothing join a node to its peers. *)
Definition wired m : Prop :=
  (forall a b e, edgeOf m a b = Some e -> (LossPct e <= 0)%Q) /\
  (forall id p, is_Some (nodes m !! id) -> p ∈ peersOf id -> p <> id -> is_Some (edgeOf m id p)).

Definition flooding (D : Z) m : Prop :=
  meshOK D m /\ wired m /\ closed (nodes m) /\
  faithful (nodes m) (flights (pendingFrames m)) /\
  sourced (nodes m) (flights (pendingFrames m)) /\
  spread (nodes m) (flights (pendingFrames m)) (now m + 1 + D).

Lemma sent_ours D t m f : flooding D m -> f ∈ sentAt t m -> ours f -> hasEdge m f.
Proof.
  intros (_ & [_ Hedge] & _ & [Hns _] & _) Hf Ho.
  apply elem_of_sentAt in Hf as (id & n & Hn & Hf). destruct (Hns id n Hn) as (_ & _ & Hpend & _).
  destruct (Hpend f Hf Ho) as (_ & Hfrom & _ & Hp & Hne). unfold hasEdge. rewrite Hfrom.
  apply Hedge; [eauto | done | done].
Qed.

Lemma wired_step m m' :
  edges m' = edges m -> dom (nodes m') = dom (nodes m) -> wired m -> wired m'.
Proof.
  intros He Hd [Hl Hp]. unfold wired, edgeOf. rewrite He. split; [exact Hl|].
  intros id p. rewrite <- elem_of_dom, Hd, elem_of_dom. apply Hp.
Qed.

Lemma closed_dom ns ns' : dom ns' = dom ns -> closed ns -> closed ns'.
Proof. intros Hd Hc id p. rewrite <- !elem_of_dom, Hd, !elem_of_dom. apply Hc. Qed.

Lemma dom_receives t ns fs : dom (foldl (receive t) ns fs) = dom ns.
Proof.
  revert ns. induction fs as [|f fs IH]; intros ns; cbn [foldl]; [done|].
  by rewrite IH, dom_receive.
Qed.

Lemma flooding_step D m :
  flooding D m -> now m + 1 < 2 ^ 60 ->
  let m' := (Step m).1 in
  flooding D m' /\ now m' = now m + 1 /\ dom (nodes m') = dom (nodes m) /\
  forall p u, is_Some (nodes m !! p) -> owedIn D m p u -> owedIn D m' p u.
Proof.
  intros Hfl Hmax. pose proof Hfl as (Hok & Hw & Hcl & Hfa & Hk & Hsp).
  destruct (Step m) as [m' s] eqn:Hstep.
  destruct (Step_accounts D m m' s Hok Hmax Hstep)
    as (due & later & new & Hp & _ & _ & Hp' & Hr & Hsub & Hall & Hn & _ & _ & _ & _ & Hok' & Hnow & He).
  cbn [fst]. set (t := now m + 1) in *.
  assert (Hsent : forall f, f ∈ sentAt t m -> ours f -> f ∈ new.*2).
  { intros f Hf Ho. rewrite Hall; [apply list_elem_of_filter; split; [by eapply sent_ours | done]|].
    apply Forall_forall. intros g _ e. apply Hw. }
  assert (Hnew : forall f, f ∈ new.*2 -> f ∈ sentAt t m).
  { intros f Hf. by apply (elem_of_sublist _ _ _ Hf), list_elem_of_filter in Hsub as [_ ?]. }
  assert (Hdom : dom (afterTick t m) = dom (nodes m)) by apply dom_fmap_L.
  assert (Hair : forall x, x ∈ due ++ later ++ new <-> x ∈ flights (pendingFrames m) ++ new).
  { intros x. rewrite !elem_of_app, Hp, elem_of_app. tauto. }
  assert (Hair' : forall x, x ∈ later ++ new <-> x ∈ flights (pendingFrames m'))
    by (intros x; by rewrite Hp').
  assert (Hmove : forall p u, owedIn D m p u ->
    owed (afterTick t m) (due ++ later ++ new) p u (now m' + 1 + D)).
  { intros p u Ho. eapply owed_air; [intros x; apply Hair|].
    eapply (owed_tick D t _ _ _ _ _ (now m + 1 + D)); [exact Hr | lia | exact Hsent | exact Ho]. }
  destruct (receives t (afterTick t m) due (later ++ new) (now m' + 1 + D)) as (Hc2 & Hf2 & Hk2 & Hs2 & Ho2).
  { by eapply closed_dom. }
  { eapply faithful_air; [intros x; apply Hair|]. apply faithful_tick; done. }
  { eapply sourced_air; [intros x; apply Hair|]. apply sourced_tick; done. }
  { intros id p Hid%has_tick Hpeer Hne.
    assert (Ho : owedIn D m p (now m' + 1 + D)).
    { destruct (Hsp id p Hid Hpeer Hne) as [? | [(x & ? & ? & ? & ?) | [? ?]]];
        [by left | right; left; exists x; repeat split; try done; lia | right; right; split; [lia | done]]. }
    by apply Hmove. }
  rewrite <- Hn in *.
  assert (Hdom' : dom (nodes m') = dom (nodes m)) by (rewrite Hn, dom_receives; done).
  split; [split; [exact Hok'|]|].
  - split; [by eapply wired_step|]. split; [done|].
    split; [eapply faithful_air; [|exact Hf2]; intros x; apply Hair'|].
    split; [eapply sourced_air; [|exact Hk2]; intros x; apply Hair'|].
    eapply spread_air; [|exact Hs2]. intros x. apply Hair'.
  - split; [done|]. split; [done|]. intros p u Hpn Ho.
    eapply owed_air; [intros x; apply Hair'|]. apply Ho2; [|by apply Hmove].
    rewrite <- elem_of_dom, Hdom, elem_of_dom. done.
Qed.

(** What is due has arrived. *)
Lemma owed_arrived D m p u : meshOK D m -> owedIn D m p u -> u <= now m -> has (nodes m) p.
Proof.
  intros (Hl & _ & _ & Hfut) [? | [(x & Hx & _ & _ & Hle) | (Hle & _)]] Hu; [done | |].
  - apply list_elem_of_fmap in Hx as (q & -> & Hq). rewrite Forall_forall in Hfut.
    specialize (Hfut q Hq). cbn in *. lia.
  - destruct Hl. lia.
Qed.

Lemma flooding_after D m k :
  flooding D m -> now m + Z.of_nat k < 2 ^ 60 ->
  flooding D (after k m) /\ now (after k m) = now m + Z.of_nat k /\
  dom (nodes (after k m)) = dom (nodes m) /\
  forall p u, is_Some (nodes m !! p) -> owedIn D m p u -> owedIn D (after k m) p u.
Proof.
  intros Hf. induction k as [|k IH]; intros Hmax; [split; [exact Hf|]; split; [cbn; lia|]; done|].
  destruct IH as (Hf' & Hn & Hd & Ho); [lia|].
  destruct (flooding_step D (after k m) Hf') as (Hf2 & Hn2 & Hd2 & Ho2); [lia|].
  change (after (S k) m) with (Step (after k m)).1. split; [done|]. split; [lia|].
  split; [congruence|]. intros p u Hp Hop. apply Ho2; [|by apply Ho].
  by rewrite <- elem_of_dom, Hd, elem_of_dom.
Qed.

(** One hop takes at most [D + 1] steps. *)
Lemma flooding_hop D m id p :
  flooding D m -> now m + (D + 1) < 2 ^ 60 ->
  has (nodes m) id -> p ∈ peersOf id -> p <> id ->
  has (nodes (after (Z.to_nat (D + 1)) m)) p.
Proof.
  intros Hf Hmax Hid Hp Hne. pose proof Hf as (Hok & _ & Hcl & _ & _ & Hsp).
  assert (HD : 1 <= D) by (destruct Hok as [[[? _] _] _]; done).
  destruct (flooding_after D m (Z.to_nat (D + 1))) as (Hf' & Hn & _ & Ho); [done | lia|].
  eapply (owed_arrived D _ p (now m + 1 + D)); [apply Hf' | | lia].
  apply Ho; [eapply Hcl; [by eapply has_node | done] | by apply (Hsp id)].
Qed.
End flood.

(** ** A publication *)

Section publication.
Context `{Sha256} `{Json} `{!JsonLaws} `{MapOrder} {R : Type} `{Rng R} `{!RngLaws R}.
Implicit Types m : Mesh StubNode R.

Definition peersIn (ns : gmap string StubNode) (id : string) : list string :=
  match ns !! id with Some n => stub_peers n | None => [] end.

(** [p] is [k] hops from [o]. *)
Inductive hops (ns : gmap string StubNode) (o : string) : nat -> string -> Prop :=
  | hops_here : hops ns o 0 o
  | hops_next k q p : hops ns o k q -> p ∈ peersIn ns q -> p <> q -> hops ns o (S k) p.

(** A mesh of flooding nodes under their own names, whose peers are nodes, joined by links
    that lose nothing. *)
Definition floodMesh (D : Z) m : Prop :=
  meshOK D m /\ (forall id n, nodes m !! id = Some n -> stub_id n = id) /\
  wired (peersIn (nodes m)) m /\ closed (peersIn (nodes m)) (nodes m).

(** Nothing with the hash of [b] has been seen. *)
Definition unseen (b : bytes) m : Prop :=
  (forall id n, nodes m !! id = Some n -> (sha256 b ∉ stub_delivered n) /\
     Forall (fun f => sha256 (f_Body f) <> sha256 b) (stub_pending n)) /\
  Forall (fun q => sha256 (f_Body (frame q)) <> sha256 b) (pendingFrames m).

(** The records of a mesh: those in slots, and those that queued or flying frames carry. *)
Definition known_record m (r0 : simRecord) : Prop :=
  (exists id n, nodes m !! id = Some n /\
     ((exists topic o, getRecord (stub_records n) topic o = Some r0) \/
      (exists f, f ∈ stub_pending n /\ decodeRecord (f_Body f) = inl r0))) \/
  (exists q, q ∈ pendingFrames m /\ decodeRecord (f_Body (frame q)) = inl r0).

Definition published m (o : string) (n : StubNode) (topic : string) (hlc : Z) (body : bytes)
    : Mesh StubNode R :=
  set_nodes m (<[o := stubPublish topic hlc body n]> (nodes m)).

Lemma slot_putRecord n r recs pend del :
  slotNewer (mkStub (stub_id n) (stub_peers n) (putRecord recs r) pend del)
    (sr_Topic r) (sr_NodeID r) (sr_HLC r).
Proof.
  unfold slotNewer, putRecord. cbn. setoid_rewrite getRecord_insert. rewrite decide_True by done.
  rewrite lookup_insert_eq. eauto with lia.
Qed.

Lemma flooding_published D m o n topic hlc body :
  floodMesh D m -> nodes m !! o = Some n ->
  let r := mkSimRecord topic o hlc body false in
  unseen (encodeRecord r) m -> decodeRecord (encodeRecord r) = inl r ->
  flooding r (peersIn (nodes m)) (fun r0 => r0 = r \/ known_record m r0) D
    (published m o n topic hlc body) /\
  has r (nodes (published m o n topic hlc body)) o.
Proof.
  intros (Hok & Hids & Hw & Hcl) Hn r [Hun Hair] Hdec. pose proof (Hids _ _ Hn) as Hid.
  set (n' := stubPublish topic hlc body n). set (ns' := <[o := n']> (nodes m)).
  assert (Hrec : mkSimRecord topic (stub_id n) hlc body false = r) by (by rewrite Hid).
  assert (Hdom : dom ns' = dom (nodes m)) by (apply dom_insert_lookup_L; eauto).
  assert (Hhas : has r ns' o).
  { exists n'. unfold ns'. rewrite lookup_insert_eq. split; [done|].
    unfold n', stubPublish. cbn. rewrite Hrec. set_solver. }
  assert (Hold : forall id, id <> o -> ~ has r ns' id).
  { intros id Hne (n0 & Hn0 & Hin). unfold ns' in Hn0. rewrite lookup_insert_ne in Hn0 by done.
    by destruct (Hun id n0 Hn0). }
  assert (Hpend : forall f, f ∈ stub_pending n' ->
    f ∈ stub_pending n \/
    exists p, p ∈ stub_peers n /\ p <> o /\ f = mkSimFrame o p (encodeRecord r)).
  { intros f. unfold n', stubPublish. cbn. rewrite Hrec, elem_of_app, elem_of_floodFrames.
    intros [? | (p & Hp & Hne%String.eqb_neq & ->)]; [by left|]. right. exists p. by rewrite <- Hid. }
  split; [|exact Hhas]. split; [exact Hok|]. split; [by eapply (wired_step (peersIn (nodes m)) m)|].
  split; [by eapply closed_dom|]. split; [split|split; [split|]].
  - intros id n0 Hn0. unfold published, ns' in Hn0. cbn [nodes set_nodes] in Hn0.
    destruct (decide (id = o)) as [-> | Hne].
    + rewrite lookup_insert_eq in Hn0. injection Hn0 as <-. unfold peersIn. rewrite Hn.
      split; [exact Hid|]. split; [done|]. split.
      * intros f [Hf | (p & Hp & Hpo & ->)]%Hpend Ho; [|done].
        destruct (Hun o n Hn) as [_ Hf']. rewrite Forall_forall in Hf'. by destruct (Hf' f Hf).
      * intros _. pose proof (slot_putRecord n r) as Hs. unfold stubPublish. rewrite Hrec. apply Hs.
    + rewrite lookup_insert_ne in Hn0 by done. unfold peersIn. rewrite Hn0.
      split; [by apply Hids|]. split; [done|]. split.
      * intros f Hf Ho. destruct (Hun id n0 Hn0) as [_ Hf']. rewrite Forall_forall in Hf'.
        by destruct (Hf' f Hf).
      * intros Hh. by destruct (Hold id Hne).
  - intros x (q & -> & Hq)%list_elem_of_fmap Ho. rewrite Forall_forall in Hair.
    by destruct (Hair q Hq).
  - intros id n0 Hn0. cbn [published nodes set_nodes] in Hn0.
    apply lookup_insert_Some in Hn0 as [[<- <-] | [_ Hn0]].
    2: { split; intros; right; left; exists id, n0; eauto 6. }
    split.
    + intros t' o' r0. unfold n', stubPublish. cbn. rewrite Hrec. unfold putRecord.
      rewrite getRecord_insert. case_decide as Ht; [|right; left; exists o, n; eauto 6].
      intros [[_ <-] | [_ Hr0]]%lookup_insert_Some; [by left|].
      rewrite getRecord_default in Hr0. right. left. exists o, n. eauto 6.
    + intros f r0 [Hf | (p & _ & _ & ->)]%Hpend Hd; [right; left; exists o, n; eauto 6|].
      cbn in Hd. rewrite Hdec in Hd. injection Hd as <-. by left.
  - intros x r0 (q & -> & Hq)%list_elem_of_fmap Hd. right. right. eauto.
  - intros id p Hid' Hp Hne. destruct (decide (id = o)) as [-> | Hio]; [|by destruct (Hold id Hio)].
    right. right. split; [lia|]. exists o, n', (mkSimFrame o p (encodeRecord r)).
    cbn [published nodes set_nodes]. rewrite lookup_insert_eq. split; [done|].
    split; [|done]. unfold n', stubPublish. cbn. rewrite Hrec, elem_of_app, elem_of_floodFrames.
    right. exists p. unfold peersIn in Hp. rewrite Hn in Hp. rewrite Hid, String.eqb_neq. done.
Qed.

(** C29: flooding converges. In a mesh of flooding nodes whose links lose nothing and take at
    most [D] ticks, whatever other payloads are on their way, a payload that no node has seen
    and that [o] publishes has reached every node that is [k] hops from [o] after
    [k * (D + 1)] steps. The slot of [o] for the topic holds there the very record published,
    or a record of at least its clock that was already in the mesh when it was published. *)
Theorem flood_converges D m o n topic hlc body k p :
  let r := mkSimRecord topic o hlc body false in
  floodMesh D m -> nodes m !! o = Some n -> unseen (encodeRecord r) m ->
  ascii topic = true -> ascii o = true -> is_u64 hlc ->
  hops (nodes m) o k p -> now m + Z.of_nat k * (D + 1) < 2 ^ 60 ->
  exists n' r',
    nodes (after (k * Z.to_nat (D + 1)) (published m o n topic hlc body)) !! p = Some n' /\
    sha256 (encodeRecord r) ∈ stub_delivered n' /\
    getRecord (stub_records n') topic o = Some r' /\
    (r' = r \/ hlc <= sr_HLC r' /\ known_record m r').
Proof.
  intros r Hm Hn Hun Ht Ho Hh Hhops.
  assert (Hdec : decodeRecord (encodeRecord r) = inl r) by (by apply json_roundtrip).
  destruct (flooding_published D m o n topic hlc body Hm Hn Hun Hdec) as [Hf0 Hhas0].
  fold r in Hf0, Hhas0. set (K := fun r0 => r0 = r \/ known_record m r0) in Hf0.
  set (m0 := published m o n topic hlc body) in *.
  assert (HD : 1 <= D) by (destruct Hm as [[[[? _] _] _] _]; done).
  assert (Hgoal : now m + Z.of_nat k * (D + 1) < 2 ^ 60 ->
    flooding r (peersIn (nodes m)) K D (after (k * Z.to_nat (D + 1)) m0) /\
    now (after (k * Z.to_nat (D + 1)) m0) = now m + Z.of_nat k * (D + 1) /\
    has r (nodes (after (k * Z.to_nat (D + 1)) m0)) p).
  { induction Hhops as [|k q p _ IH Hp Hne]; intros Hmax; [split; [done|]; split; [cbn; lia | done]|].
    destruct IH as (Hf & Hnow & Hq); [lia|].
    rewrite Nat.mul_succ_l, Nat.add_comm, after_add.
    destruct (flooding_after r (peersIn (nodes m)) K Hdec D _ (Z.to_nat (D + 1)) Hf)
      as (Hf' & Hnow' & _); [lia|].
    split; [done|]. split; [lia|].
    apply (flooding_hop r (peersIn (nodes m)) K Hdec D _ q p Hf); [rewrite Hnow; lia | done | done | done]. }
  intros Hmax. destruct (Hgoal Hmax) as ((_ & _ & _ & [Hfa _] & [Hk _] & _) & _ & Hhas).
  pose proof Hhas as (n' & Hn' & Hin).
  destruct (Hfa p n' Hn') as (_ & _ & _ & Hslot). destruct (Hslot Hhas) as (r' & Hr' & Hle).
  exists n', r'. split; [done|]. split; [done|]. split; [done|].
  destruct (proj1 (Hk p n' Hn') _ _ _ Hr') as [? | ?]; [by left | by right].
Qed.
End publication.

(** ** An example: a line of three nodes *)

Module LineSpec.
Import ToyJson ToyRng Line.
#[local] Existing Instances ToySha256.hash std_order.

Lemma line_nodes id n :
  nodes line !! id = Some n ->
  (id = "a" /\ n = NewStubNode "a" ["b"]) \/ (id = "b" /\ n = NewStubNode "b" ["a"; "c"]) \/
  (id = "c" /\ n = NewStubNode "c" ["b"]).
Proof.
  unfold line. cbn [nodes AddEdge AddNode set_nodes NewMesh]. cbn [node_ID StubNode_node stub_id NewStubNode].
  rewrite !lookup_insert_Some, lookup_empty. naive_solver.
Qed.

Lemma line_peer id p :
  is_Some (nodes line !! id) -> p ∈ peersIn (nodes line) id ->
  (id = "a" /\ p = "b") \/ (id = "b" /\ p = "a") \/ (id = "b" /\ p = "c") \/ (id = "c" /\ p = "b").
Proof.
  intros [n [[-> _] | [[-> _] | [-> _]]]%line_nodes].
  - change (peersIn (nodes line) "a") with ["b"]. set_solver.
  - change (peersIn (nodes line) "b") with ["a"; "c"]. set_solver.
  - change (peersIn (nodes line) "c") with ["b"]. set_solver.
Qed.

Lemma line_ok : floodMesh 3 line.
Proof.
  split; [|split; [|split; [split|]]].
  - exact line_meshOK.
  - intros id n [[-> ->] | [[-> ->] | [-> ->]]]%line_nodes; reflexivity.
  - intros a b e. unfold line. rewrite !edgeOf_AddEdge. repeat case_decide;
      try (intros [= <-]; cbn; discriminate).
  - intros id p Hid Hp _. destruct (line_peer id p Hid Hp) as [[-> ->] | [[-> ->] | [[-> ->] | [-> ->]]]];
      eexists; reflexivity.
  - intros id p Hid Hp. destruct (line_peer id p Hid Hp) as [[-> ->] | [[-> ->] | [[-> ->] | [-> ->]]]];
      eexists; reflexivity.
Qed.

Lemma line_unseen b : unseen b line.
Proof.
  split; [|constructor].
  intros id n [[-> ->] | [[-> ->] | [-> ->]]]%line_nodes; (split; [set_solver | constructor]).
Qed.

Lemma line_unknown r0 : ~ known_record line r0.
Proof.
  intros [(id & n & [[-> ->] | [[-> ->] | [-> ->]]]%line_nodes & [(topic & o & Hr) | (f & Hf & _)])
         | (q & Hq & _)]; try (by apply elem_of_nil in Hf); try (by apply elem_of_nil in Hq);
    unfold getRecord in Hr; cbn in Hr; by rewrite lookup_empty in Hr.
Qed.

(** From one end of the line to the other: 2 hops, so 8 steps, after which the record
    published is there. *)
Lemma flood_converges_witness :
  exists n',
    nodes (after 8 (published line "a" (NewStubNode "a" ["b"]) "fleet" 5 (toBytes "up"))) !! "c" = Some n' /\
    sha256 (encodeRecord (mkSimRecord "fleet" "a" 5 (toBytes "up") false)) ∈ stub_delivered n' /\
    getRecord (stub_records n') "fleet" "a" = Some (mkSimRecord "fleet" "a" 5 (toBytes "up") false).
Proof.
  destruct (flood_converges 3 line "a" (NewStubNode "a" ["b"]) "fleet" 5 (toBytes "up") 2 "c"
    line_ok eq_refl (line_unseen _) eq_refl eq_refl ltac:(unfold is_u64; lia)
    ltac:(apply (hops_next _ _ 1 "b");
          [apply (hops_next _ _ 0 "a"); [constructor | left | discriminate]
          | right; left | discriminate])
    ltac:(cbn; lia)) as (n' & r' & Hn & Hd & Hr & [-> | [_ Hk]]).
  - exists n'. split; [exact Hn|]. split; [exact Hd | exact Hr].
  - exfalso. exact (line_unknown r' Hk).
Defined.
End LineSpec.
