(* ===== verification/SwarmNode.v ===== *)
(** * A real node in the simulator (src/sim/swarm_node.go)

    The bridge between the node with its content layer and the mesh of Sim.v: a transport that
    queues what the node sends and hands it what arrives, and the node's virtual clock. The key
    pair that [NewSwarmNode] draws is an argument; the wall clock that parts of the node still
    read is a parameter, in nanoseconds, by the number of the call. [Start], which the code
    runs in a goroutine, is a call of its own, at any later time. *)
From S2P Require Import Prelude Types Crypto Hlc Sig Crdt Gate Peer Codec Engine Merkle Node.
From S2P Require Import NodeOutbound Reports Registry Content Discovery Sim StubNode.
#[local] Open Scope Z_scope.

(** [type simTransport struct]: the peers as registered, the simulator's name of each, and
    the frames that wait for the next step. *)
Record simTransport := mkTransport {
  localID : NodeID;
  t_peers : list NodeID;
  peerByID : gmap NodeID string;
  outbound : list simFrame
}.

(** [type SwarmNode struct]; [calls] counts the calls of the wrapped node. *)
Record SwarmNode := mkSwarm {
  sw_id : string;
  swarmID : NodeID;
  sw_site : site;
  tport : simTransport;
  virtTime : Z;
  sw_priv : bytes;
  calls : nat
}.

Definition sw_node (n : SwarmNode) : nodeImpl := st_node (sw_site n).

Definition newSimTransport (local : NodeID) : simTransport := mkTransport local [] ∅ [].

(** [Send], [Broadcast] and [Peers] of [simTransport]. *)
Definition tSend (from : string) (to : NodeID) (body : bytes) (t : simTransport) : simTransport :=
  match peerByID t !! to with
  | Some target =>
      mkTransport (localID t) (t_peers t) (peerByID t)
        (outbound t ++ [mkSimFrame from target body])
  | None => t
  end.

Definition tBroadcast `{MapOrder} (from : string) (body : bytes) (t : simTransport) : simTransport :=
  mkTransport (localID t) (t_peers t) (peerByID t)
    (outbound t ++ ((fun e => mkSimFrame from e.2 body) <$> map_order (peerByID t))).

Definition tPeers (t : simTransport) : list NodeID := t_peers t.

(** The method [DrainOutbound] of [simTransport]. *)
Definition DrainOutbound (t : simTransport) : simTransport * list simFrame :=
  (mkTransport (localID t) (t_peers t) (peerByID t) [], outbound t).

(** What the node hands to its transport while it handles a call. *)
Definition transmit (from : string) (out : list effect) (t : simTransport) : simTransport :=
  foldl (fun t x => match x with Send to body => tSend from to body t | _ => t end) t out.

(** [nodeIDFromPub] of this file. *)
Definition simHexDigit (i : Z) : byte :=
  nth (Z.to_nat i) (toBytes "0123456789abcdef") x00.

Definition simNodeIDFromPub (pub : bytes) : string :=
  ofBytes (mjoin ((fun b => [simHexDigit (Z.shiftr (byteZ b) 4);
                             simHexDigit (Z.land (byteZ b) 15)]) <$> pub)).

Section swarm.
Context `{Sha256} `{Ed25519} `{Proto} `{ContentProto} `{MapOrder}.
Context (wall : nat -> Z).

(** [virtualNow], the wall clock at this call, and the two as the node reads them. *)
Definition virtualNow (n : SwarmNode) : Z := virtTime n * 1000000.
Definition realNow (n : SwarmNode) : Z := wall (calls n).
Definition clockOf (n : SwarmNode) : clock := mkClock (virtualNow n) (realNow n / 1000000).

(** The state after a call of the node, with what it sent queued. *)
Definition called (n : SwarmNode) (res : site * list effect) : SwarmNode :=
  mkSwarm (sw_id n) (swarmID n) res.1 (transmit (sw_id n) res.2 (tport n)) (virtTime n) (sw_priv n)
    (S (calls n)).

(** A call of the node's API. *)
Definition swarmCall (api : clock -> action) (n : SwarmNode) : SwarmNode :=
  called n (siteAct (realNow n) (api (clockOf n)) (sw_site n)).

(** The configuration of [NewSwarmNode]. *)
Definition swarmConfig (id : NodeID) (priv : bytes) : Config :=
  mkConfig id priv None 0 4 (50 * Millisecond) (200 * Millisecond) None false 0 0 0 0 0 0 None.

(** [NewSwarmNode]; [None]: it panics. *)
Definition NewSwarmNode (id : string) (priv : bytes) : option SwarmNode :=
  let sid := simNodeIDFromPub (ed_public priv) in
  match New (wall 0 / 1000000) (swarmConfig sid priv) with
  | inr _ => None
  | inl n =>
      match Wire n (localID (newSimTransport sid)) (tPeers (newSimTransport sid)) with
      | (n, Nil) =>
          let s := mkSite n (newContentTopic sid 0 newRegistry).1 in
          Some (mkSwarm id sid s (newSimTransport sid) 0 priv 1)
      | (_, _) => None
      end
  end.

(** The method [Step] of [SwarmNode]. *)
Definition swarmStep (now : Z) (n : SwarmNode) : SwarmNode * list simFrame * option string :=
  let n := mkSwarm (sw_id n) (swarmID n) (sw_site n) (tport n) now (sw_priv n) (calls n) in
  let '(node, out) := nodeTick (clockOf n) (sw_node n) (now * 1000000) in
  let n := called n (mkSite node (indexAdverts (realNow n) (st_content (sw_site n)) (reported out)),
                     serve (st_content (sw_site n)) out) in
  let '(t, out) := DrainOutbound (tport n) in
  (mkSwarm (sw_id n) (swarmID n) (sw_site n) t (virtTime n) (sw_priv n) (calls n), out, None).

(** The identity [DeliverInbound] finds for a sender: the first in the order of the map. *)
Definition senderOf (t : simTransport) (from : string) : NodeID :=
  match list_find (fun e => e.2 = from) (map_order (peerByID t)) with
  | Some (_, (id, _)) => id
  | None => ""
  end.

(** [Receive] of [SwarmNode] and [DeliverInbound] of [simTransport]. A content request is
    answered by the content layer. *)
Definition swarmReceive (_ : Z) (f : simFrame) (n : SwarmNode) : SwarmNode * option string :=
  let from := senderOf (tport n) (f_From f) in
  if String.eqb from "" then (n, None) else
  (swarmCall (fun c => DoReceive c from (f_Body f)) n, None).

(** The method [RegisterPeer] of [simTransport]. *)
Definition RegisterPeer (simID : string) (id : NodeID) (n : SwarmNode) : SwarmNode :=
  let t := tport n in
  let t := mkTransport (localID t) (t_peers t ++ [id]) (<[id := simID]> (peerByID t)) (outbound t) in
  let s := mkSite (OnPeerJoin (sw_node n) id) (st_content (sw_site n)) in
  mkSwarm (sw_id n) (swarmID n) s t (virtTime n) (sw_priv n) (S (calls n)).

(** The methods [Publish] and [Stop] of [SwarmNode]. *)
Definition swarmPublish (topic : string) (_ : Z) (body : bytes) (n : SwarmNode) : SwarmNode :=
  swarmCall (fun c => DoPublish c topic "" body) n.

Definition swarmStop (n : SwarmNode) : SwarmNode := swarmCall (fun _ => DoStop) n.

(** Calls of the content layer: [SetProvider], [Announce], [Withdraw], [Holders]. *)
Definition swarmProvider (p : option ContentProvider) (n : SwarmNode) : SwarmNode :=
  called n (mkSite (sw_node n) (SetProvider (st_content (sw_site n)) p), []).

Definition swarmAnnounce (hash : bytes) (n : SwarmNode) : SwarmNode :=
  called n (siteAnnounce (clockOf n) (realNow n) hash (sw_site n)).1.

Definition swarmWithdraw (hash : bytes) (n : SwarmNode) : SwarmNode :=
  called n (siteWithdraw (clockOf n) (realNow n) hash (sw_site n)).1.

Definition swarmHolders (hash : bytes) (n : SwarmNode) : SwarmNode :=
  let c := st_content (sw_site n) in
  called n (mkSite (sw_node n) (set_holders c (Holders (realNow n) (c_holders c) hash).1), []).

(** A request that [Fetch] or [FetchBlob] sends: the half of [requestFromHolder] before it
    waits. *)
Definition swarmRequest (holder : NodeID) (hash : bytes) (n : SwarmNode) : SwarmNode :=
  let c := st_content (sw_site n) in
  let reqID := u64 (c_reqCount c + 1) in
  let c := mkContent (c_self c) (c_provider c) (c_holders c) reqID
             (c_sent c ++ [(holder, reqID, hash)]) in
  called n (mkSite (sw_node n) c,
            match encodeFrame (Frame_FetchReq reqID hash) with
            | Some raw => [Send holder raw]
            | None => []
            end).

(** The method [Records] of [SwarmNode]. *)
Definition swarmRecords (n : SwarmNode) : gmap string (list simRecord) :=
  let s := store (n_engine (sw_node n)) in
  foldl (fun out t =>
    <[t := (fun r => mkSimRecord (r_Topic r) (r_NodeID r) (r_HLC r) (r_Body r) (r_Tombstone r)) <$>
             TopicRecords s t]> out) ∅ (Topics s).

#[export] Instance SwarmNode_node : SimNode SwarmNode :=
  {| node_ID := sw_id; node_Step := swarmStep; node_Receive := swarmReceive |}.
End swarm.
