(* ===== verification/SwarmSim.v ===== *)
(** * The simulator runs the network model

    What a test does with a mesh of real nodes (register peers, call any method of a node or
    of its content layer, add links, step the mesh) is a run of the network of Network.v: the
    simulator shows no behaviour which the theorems about that network do not cover. The
    content layer adds frames that carry no record, which the network may add too. *)
From S2P Require Import Prelude Types Crypto Hlc Sig Crdt CrdtLemmas CrdtInv Gate Peer Codec.
From S2P Require Import Engine Merkle EngineLemmas Outbound Node NodeLemmas NodeOutbound Network.
From S2P Require Import Reports Topics Registry Content ContentSpec Discovery.
From S2P Require Import Samples Sim SimHeap SimLemmas SimSamples SimSpec SwarmNode.
From stdpp Require Import relations.
From Stdlib Require Import QArith.
#[local] Open Scope Z_scope.

(** [nodeIDFromPub] of the simulator and of the node agree. *)
Lemma simNodeIDFromPub_eq pub : simNodeIDFromPub pub = nodeIDFromPub pub.
Proof. reflexivity. Qed.

(** ** Frames *)

Section frames.
Context {S R : Type} `{Rng R}.
Implicit Types m : Mesh S R.

Definition inFlight m : list simFrame := frame <$> pendingFrames m.

Lemma elem_of_inFlight m f : f ∈ inFlight m <-> exists t, (t, f) ∈ flights (pendingFrames m).
Proof.
  unfold inFlight. rewrite list_elem_of_fmap. setoid_rewrite list_elem_of_fmap. split.
  - intros (p & -> & Hp). exists (deliveryAt p), p. done.
  - intros (t & p & [= -> ->] & Hp). eauto.
Qed.

Lemma sendFrame_inFlight t m f f' :
  f' ∈ inFlight (sendFrame t m f) -> f' = f \/ f' ∈ inFlight m.
Proof.
  rewrite !elem_of_inFlight. intros [u Hu]. unfold sendFrame in Hu.
  destruct (edgeOf m (f_From f) (f_To f)) as [e|]; [|eauto].
  set (draw := if QArith_base.Qlt_le_dec _ _ then _ else _) in Hu.
  destruct draw as [r [|]]; [eauto|].
  destruct (if 0 <? JitterMs e then _ else _) as [r' x]. cbn [pendingFrames set_pending] in Hu.
  rewrite heapPush_flights in Hu. apply elem_of_cons in Hu as [[= _ ->] | Hu]; eauto.
Qed.

Lemma sendAll_inFlight t m fs f' :
  f' ∈ inFlight (foldl (sendFrame t) m fs) -> f' ∈ fs \/ f' ∈ inFlight m.
Proof.
  revert m. induction fs as [|f fs IH]; intros m; cbn [foldl]; [by right|].
  intros [? | Hf]%IH; [left; by right|].
  apply sendFrame_inFlight in Hf as [-> | ?]; [left; left | by right].
Qed.

(** What a pop leaves was in the queue. *)
Lemma heapPop_sub h x : x ∈ flights (heapPop h).1 -> x ∈ flights h.
Proof.
  unfold heapPop. set (n := (length h - 1)%nat). cbn [fst]. intros Hx.
  assert (Hp : flights (heapDown n (heapSwap h 0 n) 0 n) ≡ₚ flights h).
  { apply (heapDown_ind (fun h' => flights h' ≡ₚ flights h)); [|apply flights_swap].
    intros ? i j <-. apply flights_swap. }
  rewrite <- Hp. apply list_elem_of_fmap in Hx as (p & -> & Hx%elem_of_take).
  destruct Hx as (i & Hi & _). apply list_elem_of_fmap_2. by eapply list_elem_of_lookup_2.
Qed.
End frames.

(** ** The simulation relation *)

Section refinement.
Context `{Sha256} `{Ed25519Laws} `{ProtoLaws} `{ContentProto} `{MapOrder} (wall : nat -> Z).
Context {R : Type} `{Rng R}.
Implicit Types (m : Mesh SwarmNode R) (g : net) (ns : gmap string SwarmNode).

#[local] Instance node_inst : SimNode SwarmNode := SwarmNode_node wall.

(** The network has carried a frame with these bytes. *)
Definition heard g (b : bytes) : Prop := exists from to, (from, to, b) ∈ soup g.

Record simulates ns (air : list simFrame) g : Prop := {
  sim_site : forall s n, ns !! s = Some n -> sites g !! swarmID n = Some (sw_node n);
  sim_ttl : forall s n, ns !! s = Some n -> TopicTTL (n_cfg (sw_node n)) = None;
  sim_ids : forall s1 s2 n1 n2, ns !! s1 = Some n1 -> ns !! s2 = Some n2 ->
    swarmID n1 = swarmID n2 -> s1 = s2;
  sim_queued : forall s n f, ns !! s = Some n -> f ∈ outbound (tport n) -> heard g (f_Body f);
  sim_air : forall f, f ∈ air -> heard g (f_Body f)
}.

Lemma simulates_air ns air air' g :
  (forall f, f ∈ air' -> f ∈ air) -> simulates ns air g -> simulates ns air' g.
Proof. intros Hsub []. split; eauto. Qed.

(** ** Frames that carry no record *)

Definition recordless (b : bytes) : Prop := forall f, decodeFrame b = Some f -> frameRecords f = [].

Lemma recordless_encoded f b : encodeFrame f = Some b -> frameRecords f = [] -> recordless b.
Proof.
  intros He Hf f' Hd. rewrite (encodeFrame_decodes _ _ He) in Hd. injection Hd as <-.
  by destruct f.
Qed.

(** The network may add them at any time. *)
Lemma simulates_add ns air g (bs : list bytes) :
  simulates ns air g -> (forall b, b ∈ bs -> recordless b) ->
  exists g', rtc net_step g g' /\ simulates ns air g' /\ (forall b, heard g b -> heard g' b) /\
    (forall b, b ∈ bs -> heard g' b).
Proof.
  intros Hsim. induction bs as [|b bs IH]; intros Hbs.
  { exists g. split; [apply rtc_refl|]. split_and!; [done|done|by intros ? ?%elem_of_nil]. }
  destruct IH as (g1 & Hrun & [] & Hold & Hall); [intros c Hc; apply Hbs; by right|].
  set (g2 := mkNet (sites g1) (soup g1 ++ [("", "", b)]) (log g1)).
  assert (Hmono : forall c, heard g1 c -> heard g2 c).
  { intros c (from & to & Hc). exists from, to. apply elem_of_app. by left. }
  exists g2. split; [etrans; [exact Hrun | apply rtc_once, net_inject]|].
  { intros f p Hd Hp. rewrite (Hbs b ltac:(left) f Hd) in Hp. by apply elem_of_nil in Hp. }
  split; [split; cbn [sites]; eauto|]. split; [eauto|].
  intros c [-> | Hc]%elem_of_cons; [|eauto].
  exists "", "". apply elem_of_app. right. left.
Qed.

(** The actions of the network that a node of the simulator can take now. *)
Definition possible g (a : action) : Prop :=
  match a with DoReceive _ _ b => heard g b | _ => True end.

(** One node changes, in the mesh and in the network. *)
Lemma simulates_update ns air air' g g' s n n' :
  simulates ns air g -> ns !! s = Some n -> swarmID n' = swarmID n ->
  TopicTTL (n_cfg (sw_node n')) = None ->
  sites g' = <[swarmID n := sw_node n']> (sites g) ->
  (forall b, heard g b -> heard g' b) ->
  (forall f, f ∈ outbound (tport n') ++ air' -> heard g' (f_Body f)) ->
  simulates (<[s := n']> ns) air' g'.
Proof.
  intros [Hs Ht Hi Hq Ha] Hn Hid Httl Hsites Hmono Hnew. split.
  - intros s' q [(-> & <-) | (Hne & Hq')]%lookup_insert_Some; rewrite Hsites.
    + rewrite Hid. apply lookup_insert_eq.
    + rewrite lookup_insert_ne; [by eapply Hs|]. intros Heq. apply Hne. by eapply Hi.
  - intros s' q [(-> & <-) | (_ & Hq')]%lookup_insert_Some; [done | by eapply Ht].
  - assert (Hback : forall s' q, <[s := n']> ns !! s' = Some q ->
      exists q', ns !! s' = Some q' /\ swarmID q' = swarmID q).
    { intros s' q [(-> & <-) | (_ & Hq')]%lookup_insert_Some; eauto. }
    intros s1 s2 n1 n2 (q1 & Hq1 & E1)%Hback (q2 & Hq2 & E2)%Hback Heq.
    apply (Hi s1 s2 q1 q2); congruence.
  - intros s' q f [(-> & <-) | (_ & Hq')]%lookup_insert_Some Hf.
    + apply Hnew, elem_of_app. by left.
    + apply Hmono. by eapply Hq.
  - intros f Hf. apply Hnew, elem_of_app. by right.
Qed.

(** A call of one node: one action of the network, after its frame has been given the sender
    and addressee it arrives with. *)
Lemma sim_call ns air air' g s n n' a :
  simulates ns air g -> ns !! s = Some n -> possible g a ->
  sw_node n' = (perform a (sw_node n)).1 -> swarmID n' = swarmID n ->
  (forall f, f ∈ outbound (tport n') ++ air' ->
     heard g (f_Body f) \/ exists to, Send to (f_Body f) ∈ (perform a (sw_node n)).2) ->
  exists g', rtc net_step g g' /\ simulates (<[s := n']> ns) air' g'.
Proof.
  intros Hsim Hn Hposs Hnode Hid Hout. pose proof (sim_site _ _ _ Hsim s n Hn) as Hsite.
  set (i := swarmID n) in *.
  assert (Hready : exists g1, rtc net_step g g1 /\ sites g1 = sites g /\
    (forall x, x ∈ soup g -> x ∈ soup g1) /\
    match a with DoReceive _ from b => (from, i, b) ∈ soup g1 | _ => True end).
  { destruct a; try (exists g; repeat split; try done; apply rtc_refl).
    destruct Hposs as (from0 & to0 & Hin).
    exists (mkNet (sites g) (soup g ++ [(from, i, frame)]) (log g)).
    split; [apply rtc_once; by eapply net_readdress|]. split; [done|].
    split; [intros x Hx; cbn; apply elem_of_app; by left|].
    cbn. apply elem_of_app. right. left. }
  destruct Hready as (g1 & Hrun & Hsites & Hmono & Hin). rewrite <- Hsites in Hsite.
  pose proof (net_action g1 i (sw_node n) a Hsite Hin) as Hact.
  eexists. split; [etrans; [exact Hrun | apply rtc_once; exact Hact]|].
  assert (Hheard : forall b, heard g b -> exists from to,
    (from, to, b) ∈ soup g1 ++ sentBy i (perform a (sw_node n)).2).
  { intros b (from & to & Hb). exists from, to. apply elem_of_app. left. auto. }
  apply (simulates_update ns air air' g _ s n n' Hsim Hn Hid).
  - rewrite Hnode, perform_cfg. by eapply (sim_ttl _ _ _ Hsim).
  - cbn [sites]. by rewrite Hsites, Hnode.
  - exact Hheard.
  - intros f [Hf | (to & Hf)]%Hout; [by apply Hheard|].
    exists i, to. cbn. apply elem_of_app. right. unfold sentBy. apply list_elem_of_omap.
    exists (Send to (f_Body f)). done.
Qed.

(** ** What the calls of a simulated node are *)

Lemma transmit_outbound from out t f :
  f ∈ outbound (transmit from out t) -> f ∈ outbound t \/ exists to, Send to (f_Body f) ∈ out.
Proof.
  unfold transmit. revert t. induction out as [|x out IH]; intros t; cbn [foldl]; [by left|].
  intros [Hf | (to & Hto)]%IH; [|right; exists to; by right].
  destruct x as [to body| | |]; try (by left). unfold tSend in Hf.
  destruct (peerByID t !! to); [|by left]. cbn in Hf.
  apply elem_of_app in Hf as [Hf | ->%list_elem_of_singleton]; [by left|].
  right. exists to. left.
Qed.

(** The answers of the content layer to the requests that arrived. *)
Definition answers (c : content) (out : list effect) : list bytes :=
  omap (fun x => match x with
                 | FetchReq _ id hash => encodeFrame (handleFetchRequest c id hash)
                 | _ => None
                 end) out.

Lemma serve_sends c out to b :
  Send to b ∈ serve c out -> Send to b ∈ out \/ b ∈ answers c out.
Proof.
  unfold serve. rewrite list_elem_of_join. intros (l & Hb & (x & -> & Hx)%list_elem_of_fmap).
  destruct x; cbv beta iota in Hb.
  3: { destruct (encodeFrame _) as [raw|] eqn:E; [|by apply elem_of_nil in Hb].
       apply list_elem_of_singleton in Hb as [= -> ->]. right.
       apply list_elem_of_omap. eexists. split; [exact Hx | exact E]. }
  1: apply list_elem_of_singleton in Hb as [= <- <-]; by left.
  all: by apply list_elem_of_singleton in Hb.
Qed.

Lemma answers_recordless c out b : b ∈ answers c out -> recordless b.
Proof.
  intros (x & Hx & Hb)%list_elem_of_omap. destruct x; try done.
  apply (recordless_encoded _ _ Hb). unfold handleFetchRequest.
  repeat case_match; done.
Qed.

(** A call that performs an action of the node and gives its effects to the content layer. *)
Lemma sim_served ns air air' g s n n' a :
  simulates ns air g -> ns !! s = Some n -> possible g a ->
  sw_node n' = (perform a (sw_node n)).1 -> swarmID n' = swarmID n ->
  (forall f, f ∈ outbound (tport n') ++ air' ->
     f ∈ outbound (tport n) \/ f ∈ air \/
     exists to, Send to (f_Body f) ∈ serve (st_content (sw_site n)) (perform a (sw_node n)).2) ->
  exists g', rtc net_step g g' /\ simulates (<[s := n']> ns) air' g'.
Proof.
  intros Hsim Hn Hposs Hnode Hid Hout.
  destruct (simulates_add ns air g (answers (st_content (sw_site n)) (perform a (sw_node n)).2) Hsim)
    as (g1 & Hrun & Hsim1 & Hold & Hans); [intros b; apply answers_recordless|].
  destruct (sim_call ns air air' g1 s n n' a Hsim1 Hn) as (g2 & Hrun2 & Hsim2); try done.
  - destruct a; try done. by apply Hold.
  - intros f [Hf | [Hf | (to & [Hf | Hf]%serve_sends)]]%Hout.
    + left. by eapply (sim_queued _ _ _ Hsim1).
    + left. by eapply (sim_air _ _ _ Hsim1).
    + right. by exists to.
    + left. by apply Hans.
  - exists g2. split; [by etrans | exact Hsim2].
Qed.

(** A call that leaves the node as it is; what it sends carries no record. *)
Lemma sim_local ns air g s n n' (bs : list bytes) :
  simulates ns air g -> ns !! s = Some n -> (forall b, b ∈ bs -> recordless b) ->
  sw_node n' = sw_node n -> swarmID n' = swarmID n ->
  (forall f, f ∈ outbound (tport n') -> f ∈ outbound (tport n) \/ f_Body f ∈ bs) ->
  exists g', rtc net_step g g' /\ simulates (<[s := n']> ns) air g'.
Proof.
  intros Hsim Hn Hbs Hnode Hid Hout.
  destruct (simulates_add ns air g bs Hsim Hbs) as (g1 & Hrun & Hsim1 & _ & Hall).
  exists g1. split; [exact Hrun|]. apply (simulates_update ns air air g1 g1 s n n'); try done.
  - rewrite Hnode. by eapply (sim_ttl _ _ _ Hsim).
  - rewrite Hnode, insert_id; [done|]. by eapply (sim_site _ _ _ Hsim1).
  - intros f [[Hf | Hf]%Hout | Hf]%elem_of_app; [|by apply Hall|].
    + by eapply (sim_queued _ _ _ Hsim1).
    + by eapply (sim_air _ _ _ Hsim1).
Qed.

Lemma called_outbound n res f :
  f ∈ outbound (tport (called n res)) ->
  f ∈ outbound (tport n) \/ exists to, Send to (f_Body f) ∈ res.2.
Proof. apply transmit_outbound. Qed.

Lemma sim_swarmCall ns air g s n api :
  simulates ns air g -> ns !! s = Some n -> possible g (api (clockOf wall n)) ->
  exists g', rtc net_step g g' /\ simulates (<[s := swarmCall wall api n]> ns) air g'.
Proof.
  intros Hsim Hn Hposs.
  apply (sim_served ns air _ g s n _ (api (clockOf wall n))); try done.
  { unfold swarmCall, called, siteAct, sw_node. by destruct (perform _ _). }
  intros f. rewrite elem_of_app. intros [Hf | Hf]; [|by right; left].
  apply called_outbound in Hf as [Hf | (to & Hf)]; [by left | right; right; exists to].
  revert Hf. unfold siteAct, sw_node. by destruct (perform _ _).
Qed.

Lemma sim_tick ns air g s n t :
  simulates ns air g -> ns !! s = Some n ->
  exists g', rtc net_step g g' /\
    simulates (<[s := (swarmStep wall t n).1.1]> ns) (air ++ (swarmStep wall t n).1.2) g'.
Proof.
  intros Hsim Hn.
  set (c := mkClock (t * 1000000) (wall (calls n) / 1000000)).
  assert (Hperf : perform (DoTick c None (t * 1000000)) (sw_node n) =
                  nodeTick c (sw_node n) (t * 1000000)).
  { cbn [perform]. unfold tickLoopStep.
    pose proof (nodeTick_cfg c (sw_node n) (t * 1000000)) as Hcfg.
    destruct (nodeTick _ _ _) as [n' out]. cbn [fst] in Hcfg.
    by rewrite Hcfg, (sim_ttl _ _ _ Hsim s n Hn). }
  apply (sim_served ns air _ g s n _ (DoTick c None (t * 1000000))); try done.
  { rewrite Hperf. unfold swarmStep. subst c. by destruct (nodeTick _ _ _). }
  { unfold swarmStep. cbv zeta. change (clockOf wall _) with c.
    change (sw_node (mkSwarm _ _ (sw_site n) _ _ _ _)) with (sw_node n).
    by destruct (nodeTick _ _ _). }
  rewrite Hperf. intros f. unfold swarmStep. cbv zeta. change (clockOf wall _) with c.
  change (sw_node (mkSwarm _ _ (sw_site n) _ _ _ _)) with (sw_node n).
  destruct (nodeTick _ _ _) as [n' out]. cbn [DrainOutbound fst snd outbound tport].
  rewrite !elem_of_app. intros [Hf | [Hf | Hf]]; [by apply elem_of_nil in Hf | by right; left|].
  apply transmit_outbound in Hf as [Hf | Hf]; [by left | by right; right].
Qed.

Lemma sim_receive ns air g s n t f :
  simulates ns air g -> ns !! s = Some n -> f ∈ air ->
  exists g', rtc net_step g g' /\
    simulates (<[s := (swarmReceive wall t f n).1]> ns) air g'.
Proof.
  intros Hsim Hn Hf. unfold swarmReceive.
  destruct (String.eqb _ _); cbn [fst].
  { exists g. split; [apply rtc_refl|]. by rewrite insert_id. }
  apply sim_swarmCall; [done|done|]. by eapply (sim_air _ _ _ Hsim).
Qed.

(** A publication of the content layer. *)
Lemma sim_publishes ns air g s n (res : site * list effect) topic body idx :
  simulates ns air g -> ns !! s = Some n ->
  ((exists k, res = (mkSite (sw_node n) k, [])) \/
   exists c, let p := perform (DoPublish c topic "" body) (sw_node n) in
             res = (mkSite p.1 (idx p), p.2)) ->
  exists g', rtc net_step g g' /\ simulates (<[s := called n res]> ns) air g'.
Proof.
  intros Hsim Hn [[k ->] | (c & ->)].
  - apply (sim_local _ _ g s n _ [] Hsim Hn); try done; [by intros b ?%elem_of_nil|].
    intros f Hf. by left.
  - apply (sim_call ns air air g s n _ (DoPublish c topic "" body) Hsim Hn); try done.
    intros f. rewrite elem_of_app. intros [Hf | Hf]; [|left; by eapply (sim_air _ _ _ Hsim)].
    apply called_outbound in Hf as [Hf | Hf]; [|by right].
    left. by eapply (sim_queued _ _ _ Hsim).
Qed.

(** ** The loops of [Step] *)

Lemma sim_ticks t ids m s g :
  simulates (nodes m) (inFlight m) g ->
  exists g', rtc net_step g g' /\
    let m' := (foldl (stepNode t) (m, s) ids).1 in simulates (nodes m') (inFlight m') g'.
Proof.
  revert m s g. induction ids as [|id ids IH]; intros m s g Hsim; cbn [foldl].
  { exists g. split; [apply rtc_refl | done]. }
  destruct (stepNode t (m, s) id) as [m2 s2] eqn:Hst. unfold stepNode in Hst.
  destruct (nodes m !! id) as [n|] eqn:Hn; [|injection Hst as <- <-; by apply IH].
  destruct (sim_tick _ _ g id n t Hsim Hn) as (g1 & Hrun1 & Hsim1).
  cbn [node_Step node_inst SwarmNode_node] in Hst.
  destruct (swarmStep wall t n) as [[n' out] err] eqn:Hstep. cbn [fst snd] in Hsim1.
  injection Hst as <- <-. set (m1 := set_nodes m (<[id:=n']> (nodes m))).
  edestruct (IH (foldl (sendFrame t) m1 out)) as (g2 & Hrun2 & Hsim2).
  { rewrite nodes_sendAll. eapply simulates_air; [|exact Hsim1].
    intros f Hf. apply elem_of_app. apply sendAll_inFlight in Hf as [? | ?]; [by right | by left]. }
  exists g2. split; [by etrans | exact Hsim2].
Qed.

Lemma sim_deliver fuel t m s g :
  simulates (nodes m) (inFlight m) g ->
  exists g', rtc net_step g g' /\
    let m' := (deliverDue fuel t m s).1 in simulates (nodes m') (inFlight m') g'.
Proof.
  revert m s g. induction fuel as [|fuel IH]; intros m s g Hsim; cbn [deliverDue].
  { exists g. split; [apply rtc_refl | done]. }
  destruct (pendingFrames m) as [|p h] eqn:Hp; [exists g; split; [apply rtc_refl | done]|].
  destruct (deliveryAt p >? t); [exists g; split; [apply rtc_refl | done]|].
  assert (Hsub : forall f, f ∈ frame <$> (heapPop (p :: h)).1 -> f ∈ inFlight m).
  { intros f (q & -> & Hq)%list_elem_of_fmap. apply elem_of_inFlight. exists (deliveryAt q).
    rewrite Hp. apply heapPop_sub. by apply (list_elem_of_fmap_2 flight). }
  assert (Hhead : frame p ∈ inFlight m) by (unfold inFlight; rewrite Hp; left).
  change (nodes (set_pending m (heapPop (p :: h)).1 (rng m))) with (nodes m).
  destruct (nodes m !! f_To (frame p)) as [n|] eqn:Hn.
  - destruct (sim_receive _ _ g _ n t (frame p) Hsim Hn Hhead) as (g1 & Hrun1 & Hsim1).
    cbn [node_Receive node_inst SwarmNode_node].
    destruct (swarmReceive wall t (frame p) n) as [n' err]. cbn [fst] in Hsim1.
    edestruct IH as (g2 & Hrun2 & Hsim2); [|exists g2; split; [etrans; [exact Hrun1 | exact Hrun2] | exact Hsim2]].
    cbn [nodes set_nodes]. eapply simulates_air; [|exact Hsim1]. exact Hsub.
  - apply IH. cbn [nodes set_pending]. eapply simulates_air; [|exact Hsim]. exact Hsub.
Qed.

Lemma sim_Step_refines m g :
  simulates (nodes m) (inFlight m) g ->
  exists g', rtc net_step g g' /\ simulates (nodes (Step m).1) (inFlight (Step m).1) g'.
Proof.
  intros Hsim. unfold Step. set (t := i64 (now m + 1)). set (m0 := mkMesh _ _ _ _ _).
  destruct (sim_ticks t (NodeIDs m0) m0 (mkSummary t 0 0 0 []) g Hsim) as (g1 & Hrun1 & Hsim1).
  destruct (foldl (stepNode t) _ _) as [m1 s1]. cbn [fst] in Hsim1.
  destruct (sim_deliver (length (pendingFrames m1)) t m1 s1 g1 Hsim1) as (g2 & Hrun2 & Hsim2).
  destruct (deliverDue _ _ _ _) as [m2 s2]. exists g2. split; [by etrans | exact Hsim2].
Qed.

(** ** What a test does with a mesh *)

(** The calls of a node: any method of its API ([Publish], [PublishObserverTombstone],
    [SetTenant], [Pause], [SetRole], [Start], [Stop], [Tick] and the others of [action]), the
    peers of its transport, and the methods of its content layer; [Fetch] and [FetchBlob] act
    through [Holders] and the requests they send. *)
Inductive node_call (n : SwarmNode) : SwarmNode -> Prop :=
  | call_api api : (forall c from b, api (clockOf wall n) <> DoReceive c from b) ->
      node_call n (swarmCall wall api n)
  | call_RegisterPeer s id : node_call n (RegisterPeer s id n)
  | call_SetProvider p : node_call n (swarmProvider p n)
  | call_Announce hash : node_call n (swarmAnnounce wall hash n)
  | call_Withdraw hash : node_call n (swarmWithdraw wall hash n)
  | call_Holders hash : node_call n (swarmHolders wall hash n)
  | call_request holder hash : node_call n (swarmRequest holder hash n).

Inductive sim_step m : Mesh SwarmNode R -> Prop :=
  | sim_Step : sim_step m (Step m).1
  | sim_Call s n n' : nodes m !! s = Some n -> node_call n n' ->
      sim_step m (set_nodes m (<[s := n']> (nodes m)))
  | sim_AddEdge e : sim_step m (AddEdge m e).

Lemma node_call_refines ns air g s n n' :
  simulates ns air g -> ns !! s = Some n -> node_call n n' ->
  exists g', rtc net_step g g' /\ simulates (<[s := n']> ns) air g'.
Proof.
  intros Hsim Hn Hcall. destruct Hcall as [api Hapi|s' id|p|hash|hash|hash|holder hash].
  - apply sim_swarmCall; [done|done|]. unfold possible. case_match eqn:E; try done.
    by destruct (Hapi c from frame).
  - apply (sim_call _ _ _ g s n _ (DoJoin id) Hsim Hn); try done.
    intros f. rewrite elem_of_app. intros [Hf | Hf]; left;
      [by eapply (sim_queued _ _ _ Hsim) | by eapply (sim_air _ _ _ Hsim)].
  - apply (sim_local _ _ g s n _ [] Hsim Hn); try done; [by intros b ?%elem_of_nil|]. by left.
  - apply (sim_publishes _ _ g s n _ FleetContentAdvertTopic
      (default [] (marshalAdvert (announceAdvert (st_content (sw_site n)) (realNow wall n) hash)))
      (fun p => indexAdverts (realNow wall n) (st_content (sw_site n)) (reported p.2)) Hsim Hn).
    unfold siteAnnounce, Announce. destruct (marshalAdvert _) as [body|]; [right | left; by eexists].
    exists (clockOf wall n). cbn [perform default]. unfold Publish, sw_node.
    by destruct (PublishKeyed _ _ _ _ _) as [[n' out] res].
  - apply (sim_publishes _ _ g s n _ FleetContentAdvertTopic
      (default [] (marshalAdvert (withdrawAdvert (st_content (sw_site n)) (realNow wall n) hash)))
      (fun p => indexAdverts (realNow wall n) (st_content (sw_site n)) (reported p.2)) Hsim Hn).
    unfold siteWithdraw, Withdraw. destruct (marshalAdvert _) as [body|]; [right | left; by eexists].
    exists (clockOf wall n). cbn [perform default]. unfold Publish, sw_node.
    by destruct (PublishKeyed _ _ _ _ _) as [[n' out] res].
  - apply (sim_local _ _ g s n _ [] Hsim Hn); try done; [by intros b ?%elem_of_nil|]. by left.
  - set (reqID := u64 (c_reqCount (st_content (sw_site n)) + 1)).
    apply (sim_local _ _ g s n _ (option_list (encodeFrame (Frame_FetchReq reqID hash))) Hsim Hn);
      try done.
    + intros b Hb. destruct (encodeFrame _) as [raw|] eqn:E; [|by apply elem_of_nil in Hb].
      apply list_elem_of_singleton in Hb as ->. by apply (recordless_encoded _ _ E).
    + intros f [Hf | (to & Hf)]%called_outbound; [by left | right]. revert Hf. cbn [snd].
      fold reqID. destruct (encodeFrame _) as [raw|]; [|by intros ?%elem_of_nil].
      intros [= _ ->]%list_elem_of_singleton. left.
Qed.

Lemma sim_step_refines m m' g :
  sim_step m m' -> simulates (nodes m) (inFlight m) g ->
  exists g', rtc net_step g g' /\ simulates (nodes m') (inFlight m') g'.
Proof.
  intros Hstep Hsim. destruct Hstep as [|s n n' Hn Hcall|e].
  - by apply sim_Step_refines.
  - by apply (node_call_refines _ _ g s n).
  - exists g. split; [apply rtc_refl | exact Hsim].
Qed.

(** A mesh to which nodes with key pairs of their own have been added, and nothing else done. *)
Definition built m : Prop :=
  pendingFrames m = [] /\
  (forall s n, nodes m !! s = Some n ->
     ed_key (sw_priv n) /\ NewSwarmNode wall s (sw_priv n) = Some n) /\
  (forall s1 s2 n1 n2, nodes m !! s1 = Some n1 -> nodes m !! s2 = Some n2 ->
     swarmID n1 = swarmID n2 -> s1 = s2).

Lemma NewSwarmNode_spec s priv n :
  NewSwarmNode wall s priv = Some n ->
  let cfg := n_cfg (sw_node n) in
  swarmID n = nodeIDFromPub (ed_public priv) /\ PrivKey cfg = priv /\ NodeID_ cfg = swarmID n /\
  TopicTTL cfg = None /\ byTopic (store (n_engine (sw_node n))) = ∅ /\
  outbound (tport n) = [] /\ sw_priv n = priv.
Proof.
  unfold NewSwarmNode, New. rewrite simNodeIDFromPub_eq. cbn [PrivKey swarmConfig NodeID_].
  destruct (negb _); [done|]. unfold Wire. cbn [wired n_cfg]. intros [= <-]. cbn.
  repeat split. destruct (String.eqb_spec (nodeIDFromPub (ed_public priv)) ""); [done | done].
Qed.

(** The nodes by their own names. *)
Definition network m : net :=
  mkNet (list_to_map ((fun n => (swarmID n, sw_node n)) <$> (map_to_list (nodes m)).*2)) [] [].

Lemma network_sites m i k :
  built m -> sites (network m) !! i = Some k <->
    exists s n, nodes m !! s = Some n /\ swarmID n = i /\ sw_node n = k.
Proof.
  intros (_ & _ & Hinj). unfold network. cbn [sites]. rewrite <- elem_of_list_to_map.
  - rewrite list_elem_of_fmap. setoid_rewrite list_elem_of_fmap. split.
    + intros (n & [= -> ->] & [s n'] & -> & Hin%elem_of_map_to_list). eauto.
    + intros (s & n & Hn & <- & <-). exists n. split; [done|]. exists (s, n).
      split; [done|]. by apply elem_of_map_to_list.
  - rewrite <- !list_fmap_compose. apply NoDup_fmap_2_strong; [|apply NoDup_map_to_list].
    intros [s1 n1] [s2 n2] Hin1%elem_of_map_to_list Hin2%elem_of_map_to_list Heq. cbn in Heq.
    pose proof (Hinj s1 s2 n1 n2 Hin1 Hin2 Heq). subst s2. congruence.
Qed.

Lemma network_initial m : built m -> initial (network m).
Proof.
  intros Hb. split; [done|]. split; [done|]. intros i k Hk.
  apply network_sites in Hk as (s & n & Hn & <- & <-); [|done].
  destruct Hb as (_ & Hnew & _). destruct (Hnew s n Hn) as [Hkey Hmk].
  destruct (NewSwarmNode_spec s _ n Hmk) as (Hid & Hpriv & Hnid & _ & Hst & _).
  rewrite Hpriv, Hnid. split; [exact Hkey|]. split; [done|]. split; [exact Hid | exact Hst].
Qed.

Lemma network_simulates m : built m -> simulates (nodes m) (inFlight m) (network m).
Proof.
  intros Hb. pose proof Hb as (Hnil & Hnew & Hinj). split.
  - intros s n Hn. apply network_sites; [done|]. eauto.
  - intros s n Hn. destruct (Hnew s n Hn) as [_ Hmk]. apply (NewSwarmNode_spec _ _ _ Hmk).
  - exact Hinj.
  - intros s n f Hn Hf. destruct (Hnew s n Hn) as [_ Hmk].
    destruct (NewSwarmNode_spec _ _ _ Hmk) as (_ & _ & _ & _ & _ & Ho & _). rewrite Ho in Hf.
    by apply elem_of_nil in Hf.
  - intros f Hf. unfold inFlight in Hf. rewrite Hnil in Hf. by apply elem_of_nil in Hf.
Qed.

(** C30: the simulator is faithful to the network model. Build a mesh of nodes with key pairs
    of their own; register peers, add links, call the nodes and their content layers ([node_call]),
    and step the mesh, in any order and number. Then the nodes are in a state that the network of
    Network.v, started with the same nodes, can reach, and every frame that waits in a node or
    is in flight is one that network has carried. *)
Theorem simulator_runs_network m0 m :
  built m0 -> rtc sim_step m0 m ->
  exists g0 g, initial g0 /\ rtc net_step g0 g /\
    (forall s n, nodes m0 !! s = Some n -> sites g0 !! swarmID n = Some (sw_node n)) /\
    (forall s n, nodes m !! s = Some n -> sites g !! swarmID n = Some (sw_node n)) /\
    (forall s n f, nodes m !! s = Some n -> f ∈ outbound (tport n) ++ inFlight m ->
       exists from to, (from, to, f_Body f) ∈ soup g).
Proof.
  intros Hb Hrun. pose proof (network_simulates m0 Hb) as Hsim0.
  assert (Hgo : exists g, rtc net_step (network m0) g /\ simulates (nodes m) (inFlight m) g).
  { assert (Hgen : forall g, simulates (nodes m0) (inFlight m0) g ->
      exists g', rtc net_step g g' /\ simulates (nodes m) (inFlight m) g').
    { clear Hb Hsim0. induction Hrun as [m|m m1 m2 Hstep _ IH]; intros g Hsim.
      { exists g. split; [apply rtc_refl | done]. }
      destruct (sim_step_refines m m1 g Hstep Hsim) as (g1 & Hrun1 & Hsim1).
      destruct (IH g1 Hsim1) as (g2 & Hrun2 & Hsim2). exists g2. split; [by etrans | done]. }
    by apply Hgen. }
  destruct Hgo as (g & Hnet & Hsim).
  exists (network m0), g. split; [by apply network_initial|]. split; [exact Hnet|].
  split; [apply (sim_site _ _ _ Hsim0)|]. split; [apply (sim_site _ _ _ Hsim)|].
  intros s n f Hn Hf. apply elem_of_app in Hf as [Hf | Hf];
    [by eapply (sim_queued _ _ _ Hsim) | by eapply (sim_air _ _ _ Hsim)].
Qed.
End refinement.

(** ** An example: two real nodes *)

Module Pair.
Import ToyRng.
#[local] Existing Instances ToySha256.hash ToyEd25519.scheme ToyEd25519.laws ToyProto.codec
  ToyProto.laws ToyContent.codec std_order.

Definition wall (k : nat) : Z := (1000 + Z.of_nat k) * 1000000.

Definition swarm (s : string) (i : Z) : SwarmNode :=
  default (mkSwarm "" "" (mkSite (sample_node 0 []) (newContentTopic "" 0 newRegistry).1)
             (newSimTransport "") 0 [] 0)
    (NewSwarmNode wall s (key_of i)).

Definition pair : Mesh SwarmNode () :=
  mkMesh (<["a" := swarm "a" 1]> {[ "b" := swarm "b" 2 ]}) ∅ [] 0 ().

Lemma pair_built : built wall pair.
Proof.
  split; [reflexivity|].
  assert (Hone : forall s n, nodes pair !! s = Some n ->
    (s = "a" /\ n = swarm "a" 1) \/ (s = "b" /\ n = swarm "b" 2)).
  { intros s n Hs. unfold pair in Hs. cbn [nodes] in Hs.
    apply lookup_insert_Some in Hs as [[<- <-] | [_ Hs]]; [left; done|].
    apply lookup_singleton_Some in Hs as [<- <-]. right. done. }
  split.
  - intros s n [[-> ->] | [-> ->]]%Hone; (split; vm_compute; repeat split; reflexivity).
  - intros s1 s2 n1 n2 [[-> ->] | [-> ->]]%Hone [[-> ->] | [-> ->]]%Hone Heq;
      try reflexivity; vm_compute in Heq; discriminate.
Qed.

(** The first node learns of the second, is started, publishes a record, and announces content
    that the second then asks for; the mesh takes four steps. *)
Definition change (i : string) (f : SwarmNode -> SwarmNode) (m : Mesh SwarmNode ())
    : Mesh SwarmNode () :=
  match nodes m !! i with
  | Some n => set_nodes m (<[i := f n]> (nodes m))
  | None => m
  end.

Definition blob : bytes := repeat Byte.x07 32.
Definition holding : ContentProvider :=
  mkProvider (fun h => bool_decide (h = blob)) (fun _ => inl (toBytes "blob")) (fun _ => Some 4).

Definition linked : Mesh SwarmNode () :=
  AddEdge (AddEdge (change "b" (RegisterPeer "a" (id_of 1)) (change "a" (RegisterPeer "b" (id_of 2)) pair))
    (mkEdge "a" "b" 1 0 0%Q 0)) (mkEdge "b" "a" 1 0 0%Q 0).
Definition spoken : Mesh SwarmNode () :=
  change "a" (swarmAnnounce wall blob) (change "a" (swarmProvider (Some holding))
    (change "a" (swarmPublish wall "fleet" 0 (toBytes "up"))
       (change "a" (swarmCall wall (fun _ => DoStart)) linked))).

#[local] Instance pair_inst : SimNode SwarmNode := SwarmNode_node wall.

Definition asked : Mesh SwarmNode () :=
  change "b" (swarmRequest (id_of 1) blob) (Step (Step spoken).1).1.

Definition answered : Mesh SwarmNode () := (Step (Step asked).1).1.

(** The second node then holds both records and lists the first as a holder, and the first
    has an answer for it. *)
Example answered_state :
  (fun n => Topics (store (n_engine (sw_node n)))) <$> nodes answered !! "b" =
    Some ["fleet"; FleetContentAdvertTopic] /\
  (fun n => (Holders 0 (c_holders (st_content (sw_site n))) blob).2) <$> nodes answered !! "b" =
    Some [id_of 1] /\
  (n ← nodes answered !! "a"; f ← last (outbound (tport n)); decodeFrame (f_Body f)) =
    Some (Frame_FetchResp 1 (toBytes "blob") "").
Proof. vm_compute. done. Qed.

Lemma sim_change i f m :
  (forall n, node_call wall n (f n)) -> rtc (sim_step wall) m (change i f m).
Proof.
  intros Hf. unfold change. destruct (nodes m !! i) as [n|] eqn:Hn; [|apply rtc_refl].
  apply rtc_once. by eapply sim_Call.
Qed.

Lemma answered_run : rtc (sim_step wall) pair answered.
Proof.
  unfold answered, asked, spoken, linked.
  do 2 (eapply rtc_r; [|apply sim_Step]).
  etrans; [|apply sim_change; intros n; apply call_request].
  do 2 (eapply rtc_r; [|apply sim_Step]).
  etrans; [|apply sim_change; intros n; apply call_Announce].
  etrans; [|apply sim_change; intros n; apply call_SetProvider].
  etrans; [|apply sim_change; intros n; by apply (call_api _ _ (fun c => DoPublish c "fleet" "" (toBytes "up")))].
  etrans; [|apply sim_change; intros n; by apply (call_api _ _ (fun _ => DoStart))].
  do 2 (eapply rtc_r; [|apply sim_AddEdge]).
  do 2 (etrans; [|apply sim_change; intros n; apply call_RegisterPeer]).
  apply rtc_refl.
Qed.

Lemma simulator_runs_network_witness :
  built wall pair /\ rtc (sim_step wall) pair answered /\
  exists g0 g, initial g0 /\ rtc net_step g0 g /\
    sites g !! id_of 2 = sw_node <$> nodes answered !! "b".
Proof.
  split; [exact pair_built|]. split; [exact answered_run|].
  destruct (simulator_runs_network wall pair answered pair_built answered_run)
    as (g0 & g & Hini & Hrun & _ & Hsites & _).
  exists g0, g. split; [exact Hini|]. split; [exact Hrun|].
  assert (Hid : swarmID <$> nodes answered !! "b" = Some (id_of 2)) by (vm_compute; reflexivity).
  destruct (nodes answered !! "b") as [n|] eqn:Hn.
  - specialize (Hsites "b" n Hn). change (Some (swarmID n) = Some (id_of 2)) in Hid.
    apply (inj Some) in Hid. rewrite Hid in Hsites. exact Hsites.
  - change (@None NodeID = Some (id_of 2)) in Hid. discriminate Hid.
Defined.
End Pair.
